(* ===== verification/_CoqProject ===== *)
-Q . S2P
Prelude.v
Words.v
Uint.v
Decimal.v
UintDiv.v
KnuthD.v
I256.v
Dec.v
Token.v
Gas.v
StorageKey.v
BTree.v
WriteLog.v
State.v
Epochs.v
BridgePool.v
EthVotes.v
TransToken.v
EthEvents.v
MultitokenVp.v
PDController.v
PosTypes.v
Governance.v
GovernanceVp.v
Epoched.v
ValidatorSets.v
Slashing.v
Unbonding.v
PosStore.v
Bonding.v
SlashOps.v
Rewards.v
PosQueries.v
Validators.v
BlockAlloc.v
FinalizeBlock.v
