(* ===== verification/Prelude.v ===== *)
(** * Verification of the Namada ledger

    Namada is a proof-of-stake chain on CometBFT.  Its ledger keeps all data
    under storage keys; transactions change them through a write log, validity
    predicates accept or refuse the changes, and the shell runs staking,
    governance and inflation at the end of blocks and epochs.  This library models
    the parts of the Rust sources (under src/crates) that compute: the arithmetic
    of amounts, storage, tokens, gas, block space, the votes on Ethereum events, what they do
    and the pool of transfers to Ethereum, governance tallies and the governance predicate, and the whole of proof of stake.

    ** How the code is modelled

    A function that cannot fail is a Rocq function; one that fails returns [res E A]:
    [Ok], [Err] with the error type of the code, or [Panic] ([unwrap], [expect],
    an index out of range, an overflow: the release profile keeps
    [overflow-checks]).  Code with state is [stt S E A], the state passed explicitly and
    kept on an error, as storage is.  Machine integers are [Z] with their
    width in the operations ([chk 64], [chk_i]); the 256-bit [Uint], [I256], [Dec] and
    [Amount] are modelled word by word once and shown to refine the integer
    operations of [ZDec] and [ZAmount], on which everything else is built.
    Code of third-party crates is a class of operations with its documented laws
    ([UintApi], [AddressApi], [RatioApi], [EthApi], [URatioApi], [GovCodec], [PosKeys], ...) and a concrete instance
    for the examples.

    ** Files

    - Words, Uint, Decimal, UintDiv, KnuthD, I256: core/src/uint.rs.  The words
      of [Uint], binary gcd, 512-bit division by Knuth's algorithm D
      ([checked_mul_div]), two's-complement [I256].
    - Dec: core/src/dec.rs.  Token: core/src/token.rs.  Fixed-precision decimals and
      token amounts, with their text.
    - Gas: gas/src/lib.rs.  Meters of transactions and validity predicates.
    - StorageKey, Epochs: core/src/storage.rs.  Keys and their text; epochs, heights and
      the queue of Ethereum events.
    - BridgePool: merkle_tree/src/eth_bridge_pool.rs, core/src/eth_bridge_pool.rs,
      keccak.rs and eth_abi.rs.  The pool of transfers to Ethereum, its Merkle tree, and
      proofs for many leaves.
    - EthVotes: ethereum_bridge/src/protocol/transactions/votes.rs, votes/update.rs,
      votes/storage.rs, utils.rs and the updates and timeouts of ethereum_events/mod.rs.  Tallies, on
      the record [Tallies], with the stakes of validators as the interface [BridgePos].
    - EthEvents: ethereum_events/events.rs, the queries of storage/eth_bridge_queries.rs it uses, and
      [apply_derived_tx].  What confirmed events do to the record [BridgeState] (tokens, pool, nonce,
      whitelist, queue); with the tallies and the expired events it is the record [Ledger].
    - WriteLog: state/src/write_log.rs.  State: state/src/lib.rs, wl_state.rs.
      Reads and iteration through the log over the database.  BTree: the ordered
      maps these and the staking code iterate over.
    - TransToken: trans_token/src/storage.rs and storage_key.rs.  MultitokenVp:
      namada/src/ledger/native_vp/multitoken.rs.
    - BlockAlloc: apps/src/lib/node/ledger/shell/block_alloc.rs with its states,
      and prepare_proposal.rs with the lookup of the proposer in [PosStore].
    - PDController: controller/src/lib.rs.
    - Governance: governance/src/utils.rs, storage/vote.rs and
      [compute_proposal_votes].  GovernanceVp: namada/src/ledger/governance/mod.rs and
      governance/src/storage/keys.rs, on a store of bytes.
    - PosTypes: proof_of_stake/src/parameters.rs and types/mod.rs.  Epoched:
      epoched.rs, data indexed by epochs.
    - ValidatorSets: validator_set_update.rs, the consensus and below-capacity sets on
      the record [VSets].
    - Slashing, Unbonding: the computations of slashing.rs and lib.rs on amounts.
    - PosStore: storage.rs, the record [PosStore] of all the data of staking; an
      operation on one part of it runs on the store by [on_vsets], [on_bonding] and
      so on.  Bonding: bonding, unbonding, withdrawal, redelegation and the
      activity of validators (lib.rs).  SlashOps: evidence and the processing of
      slashes (slashing.rs).  Rewards: rewards.rs and the claims of lib.rs.  PosQueries:
      queries.rs.  Validators: [become_validator], keys and metadata (lib.rs, storage.rs) and
      the updates for CometBFT.  FinalizeBlock: [finalize_block] with the liveness
      of validators, and [init_genesis] (lib.rs).

    ** What the theorems show

    - Arithmetic: algorithm D never panics on a divisor other than zero and returns
      quotient and remainder; the gcd loop ends; [I256] and [Dec] refine integers
      and fixed-point numbers and fail exactly when the integer operation leaves the range (a product of
      decimals, before it is scaled back); texts parse back.
    - Storage: a transaction's writes are isolated until committed, what is read
      is the log over the database, and the verifiers of a transaction are exactly the
      owners of what it changed.
    - Tokens: transfers, mints and burns keep balances adding up to the supply; an accepting
      multitoken predicate has balanced changes.  Gas: a meter holds the sum of its charges.
      Block space: a proposal of a known validator is built without a panic, fits its bins and takes no transaction twice.
    - Staking: validator sets stay right under changes of stake; the bonds of a validator
      add up to its total through all operations; unbonds, withdrawals, slashes,
      rewards and claims move exactly what they say and never more than there is; a
      slash that is pending freezes its validator; consensus keys have one owner for
      ever; the updates sent to CometBFT take one set to the next; delegations are found
      according to their history; missed votes are counted and too many of them jail.
    - Bridge pool: the proofs that are made verify, and an accepted proof names only
      transfers of the pool unless two strings have the same digest.
    - Ethereum events: an event is confirmed at most once and only by a quorum; an update counts exactly
      the new voters; a protocol transaction keeps the balances of all tokens but
      wrapped NAM adding up to their supplies, a batch takes exactly its transfers and the
      timed-out ones from the pool, and minting keeps within the cap of a token.
    - Governance: the tally cannot overflow, and when a proposal passes; an accepting
      governance predicate has only votes of those who may vote, in the window, new proposals
      within the parameters, and existing ones with what was fixed at their start.
    - Some theorems exhibit runs in which the code does not do what it means to (a
      panic while slashes are processed, an inflation metric a million times too small,
      an update for a key that CometBFT does not have, a stake counted twice in different epochs,
      a refund of native tokens paid from the wrong account, a relayer fee paid from nowhere, a predicate that lets anybody replace
      the type of a proposal, or block further proposals).

    ** Fuel

    The loops that are not structural carry fuel, and a theorem shows it is
    enough: 513 rounds for the gcd (each shrinks the sum of the bit lengths, at most
    512), three for the estimate of a digit of the quotient, the length in bits for printing
    digits, the number of epochs for a lookup in epoched data, the lengths of the two
    streams for a merged iteration, the number of hashes for the levels of the tree of the pool.

    ** Not modelled

    The shell's handlers, the execution of WASM and its host environment,
    signatures and encodings, the sparse Merkle trees, RocksDB, IBC, the shielded pool, of the Ethereum
    bridge its predicates, the signed roots and the validator set updates, the execution of proposals, the validity predicate of
    proof of stake, the genesis files, the SDK, the wallet and the command line: they rest on third-party
    crates (wasmer, tendermint, ibc-rs, masp, ethers, borsh), on threads, the network or files, and add
    little computation of their own to the parts that are modelled.  Of the
    parts that are, logging and events without an effect on the state are left out, and the
    storage handles of staking are the maps they stand for instead of strings of keys.

    This file holds what the others share: outcomes and the state monad with
    their inversion tactics, [keeps] for what an operation leaves alone, bounded
    integers, loops and lists. *)

From stdpp Require Export prelude gmap strings list fin_maps.
From Stdlib Require Export ZArith Lia.

#[global] Open Scope Z_scope.

(** ** Outcomes of Rust functions

    [res E A] is what a call yields: a value, an [Err] of the function's error
    type, or a panic.  The release profile sets [overflow-checks = true], so
    plain [+], [-] and [*] on machine integers panic instead of wrapping. *)

Inductive res (E A : Type) : Type :=
| Ok (a : A)
| Err (e : E)
| Panic.
Arguments Ok {E A} _.
Arguments Err {E A} _.
Arguments Panic {E A}.

#[global] Instance res_ret {E} : MRet (res E) := λ A a, Ok a.
#[global] Instance res_bind {E} : MBind (res E) := λ A B f m,
  match m with Ok a => f a | Err e => Err e | Panic => Panic end.
#[global] Instance res_fmap {E} : FMap (res E) := λ A B f m,
  match m with Ok a => Ok (f a) | Err e => Err e | Panic => Panic end.

#[global] Instance res_eq_dec {E A} `{EqDecision E, EqDecision A} :
  EqDecision (res E A).
Proof. solve_decision. Defined.

(** [Option::ok_or], [Option::expect]/[unwrap], [Result::map_err]. *)
Definition ok_or {E A} (o : option A) (e : E) : res E A :=
  match o with Some a => Ok a | None => Err e end.
Definition expect {E A} (o : option A) : res E A :=
  match o with Some a => Ok a | None => Panic end.
Definition map_err {E F A} (f : E → F) (r : res E A) : res F A :=
  match r with Ok a => Ok a | Err e => Err (f e) | Panic => Panic end.
Definition ok {E A} (r : res E A) : option A :=
  match r with Ok a => Some a | _ => None end.

(** ** State passing with errors

    [&mut self] methods that return a [Result]: the state reached is kept on an
    error, as in Rust. *)

Definition stt (S E A : Type) : Type := S → S * res E A.

#[global] Instance stt_ret {S E} : MRet (stt S E) := λ A a s, (s, Ok a).
#[global] Instance stt_bind {S E} : MBind (stt S E) := λ A B f m s,
  match m s with
  | (s', Ok a) => f a s'
  | (s', Err e) => (s', Err e)
  | (s', Panic) => (s', Panic)
  end.

Definition lift {S E A} (r : res E A) : stt S E A := λ s, (s, r).
Definition get {S E} : stt S E S := λ s, (s, Ok s).
Definition gets {S E A} (f : S → A) : stt S E A := λ s, (s, Ok (f s)).
Definition modify {S E} (f : S → S) : stt S E unit := λ s, (f s, Ok ()).
Definition throw {S E A} (e : E) : stt S E A := λ s, (s, Err e).
Definition panic {S E A} : stt S E A := λ s, (s, Panic).

(** A method on a part of the state; [for] over a list with an early return on
    errors. *)
Definition zoom {S T E A} (view : S → T) (put : T → S → S) (m : stt T E A) : stt S E A :=
  λ s, let '(t, r) := m (view s) in (put t s, r).
Fixpoint for_each {S E A} (f : A → stt S E unit) (l : list A) : stt S E unit :=
  match l with
  | [] => mret ()
  | x :: l => _ ← f x; for_each f l
  end.
(** The same with an accumulator: [try_fold]. *)
Fixpoint try_fold {E A B} (f : B → A → res E B) (acc : B) (l : list A) : res E B :=
  match l with
  | [] => Ok acc
  | x :: l => acc ← f acc x; try_fold f acc l
  end.

(** ** Machine integers *)

Definition in_u (w x : Z) : bool := (0 <=? x) && (x <? 2 ^ w).

(** [uN::checked_*] and the panicking operators. *)
Definition chk (w x : Z) : option Z := if in_u w x then Some x else None.
Definition opr {E} (w x : Z) : res E Z := if in_u w x then Ok x else Panic.

Abbreviation u8_max := (2 ^ 8 - 1).
Abbreviation u64_max := (2 ^ 64 - 1).

Lemma in_u_spec w x : in_u w x = true ↔ 0 ≤ x < 2 ^ w.
Proof. unfold in_u. rewrite andb_true_iff, Z.leb_le, Z.ltb_lt. lia. Qed.

Lemma in_u_false w x : in_u w x = false ↔ x < 0 ∨ 2 ^ w ≤ x.
Proof. unfold in_u. rewrite andb_false_iff, Z.leb_gt, Z.ltb_ge. lia. Qed.

Lemma chk_Some w x y : chk w x = Some y ↔ y = x ∧ 0 ≤ x < 2 ^ w.
Proof.
  unfold chk. destruct (in_u w x) eqn:E.
  - apply in_u_spec in E. naive_solver.
  - apply in_u_false in E. split; [done|lia].
Qed.

Lemma chk_None w x : chk w x = None ↔ x < 0 ∨ 2 ^ w ≤ x.
Proof.
  unfold chk. destruct (in_u w x) eqn:E.
  - apply in_u_spec in E. split; [done|lia].
  - by apply in_u_false in E.
Qed.

Lemma chk_in w x : 0 ≤ x < 2 ^ w → chk w x = Some x.
Proof. intros. by apply chk_Some. Qed.

(** ** Automation *)

Create HintDb namada.

(** Case analysis on the scrutinee of a [match] or [if], keeping the equation,
    closing the impossible cases. *)
Ltac case_res :=
  match goal with
  | H : context [match ?x with _ => _ end] |- _ =>
      lazymatch x with
      | context [match _ with _ => _ end] => fail
      | _ => destruct x eqn:?; simplify_eq/=
      end
  | |- context [match ?x with _ => _ end] =>
      lazymatch x with
      | context [match _ with _ => _ end] => fail
      | _ => destruct x eqn:?; simplify_eq/=
      end
  end.

(** Boolean comparisons of the code turned into propositions [lia] reads. *)
Ltac boolp :=
  repeat match goal with
  | H : (_ && _) = true |- _ => apply andb_true_iff in H as [? ?]
  | H : (_ || _) = false |- _ => apply orb_false_iff in H as [? ?]
  | H : (_ && _) = false |- _ => apply andb_false_iff in H
  | H : (_ || _) = true |- _ => apply orb_true_iff in H
  | H : negb _ = true |- _ => apply negb_true_iff in H
  | H : negb _ = false |- _ => apply negb_false_iff in H
  | H : (_ <=? _) = true |- _ => apply Z.leb_le in H
  | H : (_ <=? _) = false |- _ => apply Z.leb_gt in H
  | H : (_ <? _) = true |- _ => apply Z.ltb_lt in H
  | H : (_ <? _) = false |- _ => apply Z.ltb_ge in H
  | H : (_ =? _) = true |- _ => apply Z.eqb_eq in H
  | H : (_ =? _) = false |- _ => apply Z.eqb_neq in H
  | H : in_u _ _ = true |- _ => apply in_u_spec in H
  | H : in_u _ _ = false |- _ => apply in_u_false in H
  end.

(** Run the option monad on values. *)
Ltac runo := cbn [fmap option_fmap option_map mbind option_bind].

(** [lia] with the equations of division and remainder. *)
Ltac dlia := Z.to_euclidean_division_equations; lia.

(** ** Loops

    [for_list f l s] runs [for x in l] with a body that may panic ([None]);
    [for_range a b] is [for i in a..b]. *)

Fixpoint for_list {A S} (f : A → S → option S) (l : list A) (s : S) : option S :=
  match l with
  | [] => Some s
  | x :: l => s' ← f x s; for_list f l s'
  end.

Definition for_range {S} (a b : nat) (f : nat → S → option S) (s : S) : option S :=
  for_list f (seq a (b - a)) s.

Lemma for_list_app {A S} (f : A → S → option S) l k s :
  for_list f (l ++ k) s = s' ← for_list f l s; for_list f k s'.
Proof.
  revert s. induction l as [|x l IH]; intros s; [done|]. cbn. destruct (f x s); [apply IH|done].
Qed.

Lemma for_list_fmap {A B S} (f : B → S → option S) (g : A → B) l s :
  for_list f (g <$> l) s = for_list (λ x, f (g x)) l s.
Proof.
  revert s. induction l as [|x l IH]; intros s; [done|]. cbn. destruct (f (g x) s); [apply IH|done].
Qed.

(** Loop invariants. *)
Lemma for_range_inv {S} (P : nat → S → Prop) a b f (s : S) :
  (a ≤ b)%nat → P a s →
  (∀ i s, (a ≤ i < b)%nat → P i s → ∃ s', f i s = Some s' ∧ P (Datatypes.S i) s') →
  ∃ s', for_range a b f s = Some s' ∧ P b s'.
Proof.
  intros Hab Ha Hstep. unfold for_range. remember (b - a)%nat as k eqn:Hk.
  revert a s Hab Ha Hk Hstep. induction k as [|k IH]; intros a s Hab Ha Hk Hstep.
  { replace b with a by lia. by exists s. }
  destruct (Hstep a s) as (s1 & Hf & H1); [lia|done|].
  cbn [seq for_list]. rewrite Hf. cbn. apply IH; [lia|done|lia|].
  intros i s' Hi. apply Hstep. lia.
Qed.

Lemma for_rev_inv {S} (P : nat → S → Prop) m f (s : S) :
  P m s →
  (∀ i s, (i < m)%nat → P (Datatypes.S i) s → ∃ s', f i s = Some s' ∧ P i s') →
  ∃ s', for_list f (rev (seq 0 m)) s = Some s' ∧ P O s'.
Proof.
  intros Hm Hstep. revert s Hm Hstep. induction m as [|m IH]; intros s Hm Hstep.
  { by exists s. }
  rewrite seq_S, rev_app_distr. cbn [rev app for_list].
  destruct (Hstep m s) as (s1 & Hf & H1); [lia|done|].
  simpl. rewrite Hf. cbn. apply IH; [done|]. intros i s' Hi. apply Hstep. lia.
Qed.

(** Slices [&l[i..]] and [&l[..i]], which panic out of range. *)
Definition slice_from {A} (i : nat) (l : list A) : option (list A) :=
  if decide (i ≤ length l)%nat then Some (drop i l) else None.
Definition slice_to {A} (i : nat) (l : list A) : option (list A) :=
  if decide (i ≤ length l)%nat then Some (take i l) else None.

(** Assignment [l[i] = x], which panics out of range. *)
Definition assign {A} (i : nat) (x : A) (l : list A) : option (list A) :=
  if decide (i < length l)%nat then Some (<[i := x]> l) else None.

Lemma assign_Some {A} i (x : A) l :
  (i < length l)%nat → assign i x l = Some (<[i := x]> l).
Proof. intros. unfold assign. by rewrite decide_True. Qed.

(** ** Sums and sublists *)

Definition zsum {A} (f : A → Z) (l : list A) : Z := foldr (λ x acc, f x + acc) 0 l.

Lemma zsum_cons {A} (f : A → Z) x l : zsum f (x :: l) = f x + zsum f l.
Proof. done. Qed.

Lemma zsum_app {A} (f : A → Z) l k : zsum f (l ++ k) = zsum f l + zsum f k.
Proof. induction l as [|x l IH]; [done|]. rewrite <-app_comm_cons, !zsum_cons, IH. lia. Qed.

Lemma zsum_perm {A} (f : A → Z) l k : l ≡ₚ k → zsum f l = zsum f k.
Proof. induction 1; rewrite ?zsum_cons; lia. Qed.

#[export] Instance zsum_proper {A} (f : A → Z) : Proper (Permutation ==> eq) (zsum f).
Proof. intros l k. apply zsum_perm. Qed.

Lemma zsum_le {A} (f g : A → Z) l : (∀ x, x ∈ l → f x ≤ g x) → zsum f l ≤ zsum g l.
Proof.
  induction l as [|x l IH]; intros H; [done|]. rewrite !zsum_cons.
  assert (f x ≤ g x) by (apply H; left). assert (zsum f l ≤ zsum g l) by (apply IH; intros; apply H; by right).
  lia.
Qed.

Lemma zsum_ext {A} (f g : A → Z) l : (∀ x, x ∈ l → f x = g x) → zsum f l = zsum g l.
Proof. intros H. apply Z.le_antisymm; apply zsum_le; intros x Hx; rewrite (H x Hx); lia. Qed.

Lemma zsum_zero {A} (l : list A) : zsum (λ _, 0) l = 0.
Proof. by induction l. Qed.

Lemma zsum_nonneg {A} (f : A → Z) l : (∀ x, x ∈ l → 0 ≤ f x) → 0 ≤ zsum f l.
Proof. intros H. rewrite <-(zsum_zero l). by apply zsum_le. Qed.

Lemma zsum_add {A} (f g : A → Z) l : zsum (λ x, f x + g x) l = zsum f l + zsum g l.
Proof. induction l as [|x l IH]; [done|]. rewrite !zsum_cons, IH. lia. Qed.

Lemma zsum_sub {A} (f g : A → Z) l : zsum (λ x, f x - g x) l = zsum f l - zsum g l.
Proof. induction l as [|x l IH]; [done|]. rewrite !zsum_cons, IH. lia. Qed.

Lemma zsum_fmap {A B} (f : B → Z) (g : A → B) l : zsum f (g <$> l) = zsum (λ x, f (g x)) l.
Proof. induction l as [|x l IH]; [done|]. by rewrite fmap_cons, !zsum_cons, IH. Qed.

Lemma zsum_bind {A B} (f : B → Z) (g : A → list B) l : zsum f (l ≫= g) = zsum (λ x, zsum f (g x)) l.
Proof. induction l as [|x l IH]; [done|]. by rewrite bind_cons, zsum_app, zsum_cons, IH. Qed.

Lemma zsum_filter {A} (P : A → Prop) `{∀ x, Decision (P x)} (f : A → Z) l :
  zsum f (filter P l) = zsum (λ x, if decide (P x) then f x else 0) l.
Proof.
  induction l as [|x l IH]; [done|]. rewrite filter_cons, zsum_cons, <-IH. by destruct (decide (P x)).
Qed.

(** One key of a map. *)
Lemma zsum_map_lookup {K} `{Countable K} (k : K) (m : gmap K Z) :
  zsum (λ x, if decide (x.1 = k) then x.2 else 0) (map_to_list m) = default 0 (m !! k).
Proof.
  induction m as [|i a m Hi IH] using map_ind.
  { by rewrite map_to_list_empty, lookup_empty. }
  rewrite (zsum_perm _ _ _ (map_to_list_insert m i a Hi)), zsum_cons, IH. cbn [fst snd].
  destruct (decide (i = k)) as [->|].
  - rewrite lookup_insert_eq, Hi. cbn. lia.
  - by rewrite lookup_insert_ne.
Qed.

(** One key of a list without duplicates. *)
Lemma zsum_single {A} `{EqDecision A} (a : Z) (x : A) l : NoDup l →
  zsum (λ y, if decide (y = x) then a else 0) l = if decide (x ∈ l) then a else 0.
Proof.
  induction 1 as [|y l Hy _ IH]; [done|]. rewrite zsum_cons, IH.
  destruct (decide (y = x)) as [->|Hne].
  - rewrite (decide_True _ _ (list_elem_of_here x l)), decide_False by done. lia.
  - destruct (decide (x ∈ l)); [rewrite decide_True by (by right); lia|].
    rewrite decide_False; [lia|]. rewrite elem_of_cons. naive_solver.
Qed.

Lemma filter_all {A} (P : A → Prop) `{∀ x, Decision (P x)} l : Forall P l → filter P l = l.
Proof. induction 1 as [|x l Hx _ IH]; [done|]. by rewrite filter_cons_True, IH. Qed.

Lemma filter_submseteq {A} (P : A → Prop) `{∀ x, Decision (P x)} l k : l ⊆+ k → filter P l ⊆+ filter P k.
Proof.
  induction 1 as [|x l k _ IH|x y l|x l k _ IH|l1 l2 l3 _ IH1 _ IH2]; [done|..].
  - rewrite !filter_cons. by destruct (decide (P x)); [constructor|].
  - rewrite !filter_cons. destruct (decide (P x)), (decide (P y)); done || constructor.
  - rewrite (filter_cons _ x). by destruct (decide (P x)); [constructor|].
  - by etrans.
Qed.

Lemma Forall_filter {A} (P Q : A → Prop) `{∀ x, Decision (P x)} l : Forall Q l → Forall Q (filter P l).
Proof. rewrite !Forall_forall. intros HQ x [_ Hx]%list_elem_of_filter. by apply HQ. Qed.

(** ** Runs that succeed

    What a successful run of a composed operation went through, step by step. *)

Section runs.
Context {S E : Type}.

Lemma stt_bind_ok {A B} (m : stt S E A) (f : A → stt S E B) s s' b :
  (m ≫= f) s = (s', Ok b) → ∃ s1 a, m s = (s1, Ok a) ∧ f a s1 = (s', Ok b).
Proof. unfold mbind, stt_bind. destruct (m s) as [s1 [a| |]]; [|done..]. eauto. Qed.

Lemma stt_bind_run {A B} (m : stt S E A) (f : A → stt S E B) s s1 a : m s = (s1, Ok a) → (m ≫= f) s = f a s1.
Proof. unfold mbind, stt_bind. by intros ->. Qed.

Lemma stt_ret_ok {A} (a b : A) (s s' : S) : (mret a : stt S E A) s = (s', Ok b) → s' = s ∧ b = a.
Proof. by intros [= <- <-]. Qed.

Lemma stt_lift_ok {A} (r : res E A) (s s' : S) a : lift r s = (s', Ok a) → s' = s ∧ r = Ok a.
Proof. unfold lift. by intros [= <- ->]. Qed.

Lemma stt_get_ok (s s' a : S) : (get : stt S E S) s = (s', Ok a) → s' = s ∧ a = s.
Proof. unfold get. by intros [= <- <-]. Qed.

Lemma stt_gets_ok {A} (f : S → A) (s s' : S) a : (gets f : stt S E A) s = (s', Ok a) → s' = s ∧ a = f s.
Proof. unfold gets. by intros [= <- <-]. Qed.

Lemma stt_modify_ok (f : S → S) (s s' : S) u : (modify f : stt S E unit) s = (s', Ok u) → s' = f s.
Proof. unfold modify. by intros [= <- <-]. Qed.

Lemma stt_throw_ok {A} (e : E) (s s' : S) (a : A) : throw e s = (s', Ok a) → False.
Proof. done. Qed.

Lemma stt_zoom_ok {T A} (view : S → T) put (m : stt T E A) s s' a :
  zoom view put m s = (s', Ok a) → ∃ t, m (view s) = (t, Ok a) ∧ s' = put t s.
Proof. unfold zoom. destruct (m (view s)) as [t r]. intros [= <- ->]. eauto. Qed.

(** A loop keeps what every step keeps, on what is left of the list. *)
Lemma for_each_ok {A} (f : A → stt S E unit) (Inv : list A → S → Prop) l s s' u :
  for_each f l s = (s', Ok u) → Inv l s →
  (∀ x l s s', Inv (x :: l) s → f x s = (s', Ok ()) → Inv l s') → Inv [] s'.
Proof.
  intros Hr HI Hstep. revert s Hr HI. induction l as [|x l IH]; intros s Hr HI.
  - by apply stt_ret_ok in Hr as [-> _].
  - cbn [for_each] in Hr. apply stt_bind_ok in Hr as (s1 & [] & H1 & H2). eauto.
Qed.
End runs.

Lemma res_bind_ok {E A B} (r : res E A) (f : A → res E B) b : r ≫= f = Ok b → ∃ a, r = Ok a ∧ f a = Ok b.
Proof. destruct r; [|done..]. eauto. Qed.

Lemma ok_or_ok {E A} (o : option A) (e : E) a : ok_or o e = Ok a → o = Some a.
Proof. by destruct o; intros [=->]. Qed.

Lemma expect_ok {E A} (o : option A) a : (expect o : res E A) = Ok a → o = Some a.
Proof. by destruct o; intros [=->]. Qed.

Lemma try_fold_ok {E A B} (f : B → A → res E B) (P : list A → B → Prop) l acc r :
  try_fold f acc l = Ok r → P l acc → (∀ x l acc acc', P (x :: l) acc → f acc x = Ok acc' → P l acc') → P [] r.
Proof.
  intros Hr HP Hstep. revert acc Hr HP. induction l as [|x l IH]; intros acc Hr HP; cbn [try_fold] in Hr.
  - by injection Hr as <-.
  - apply res_bind_ok in Hr as (acc' & H1 & H2). eauto.
Qed.

(** Unfolds a successful run into its steps. *)
Ltac stt_inv H :=
  lazymatch type of H with
  | mbind _ _ _ = (_, Ok _) =>
      let s1 := fresh "st" in let a := fresh "v" in let H1 := fresh "Hrun" in
      apply stt_bind_ok in H as (s1 & a & H1 & H); stt_inv H1; stt_inv H
  | mret _ _ = _ => apply stt_ret_ok in H as [-> H]; try subst
  | lift _ _ = _ => apply stt_lift_ok in H as [-> H]
  | get _ = _ => apply stt_get_ok in H as [-> ->]
  | gets _ _ = _ => apply stt_gets_ok in H as [-> ->]
  | modify _ _ = _ => apply stt_modify_ok in H as ->
  | throw _ _ = _ => destruct (stt_throw_ok _ _ _ _ H)
  | zoom _ _ _ _ = _ =>
      let t := fresh "part" in apply stt_zoom_ok in H as (t & H & ->); stt_inv H
  | _ => idtac
  end.
Ltac res_inv H :=
  lazymatch type of H with
  | mbind _ _ = Ok _ =>
      let a := fresh "v" in let H1 := fresh "Hres" in
      apply res_bind_ok in H as (a & H1 & H); res_inv H1; res_inv H
  | ok_or _ _ = Ok _ => apply ok_or_ok in H
  | expect _ = Ok _ => apply expect_ok in H
  | Ok _ = Ok _ => injection H as H; try subst
  | _ => idtac
  end.

(** ** What a run leaves alone

    An observation of the state that no run of the operation changes, whether it
    succeeds or not. *)

Definition keeps {S E A X} (f : S → X) (m : stt S E A) : Prop := ∀ s, f (m s).1 = f s.

Section keeps.
Context {S E X : Type} (f : S → X).

Lemma keeps_bind {A B} (m : stt S E A) (k : A → stt S E B) : keeps f m → (∀ a, keeps f (k a)) → keeps f (m ≫= k).
Proof.
  intros Hm Hk s. specialize (Hm s). unfold mbind, stt_bind. destruct (m s) as [s' [a| |]]; [|done..]. cbn in Hm. by rewrite Hk.
Qed.
Lemma keeps_ret {A} (a : A) : keeps f (mret a : stt S E A).
Proof. done. Qed.
Lemma keeps_lift {A} (r : res E A) : keeps f (lift r : stt S E A).
Proof. done. Qed.
Lemma keeps_get : keeps f (get : stt S E S).
Proof. done. Qed.
Lemma keeps_gets {A} (g : S → A) : keeps f (gets g : stt S E A).
Proof. done. Qed.
Lemma keeps_throw {A} (e : E) : keeps f (throw e : stt S E A).
Proof. done. Qed.
Lemma keeps_panic {A} : keeps f (panic : stt S E A).
Proof. done. Qed.
Lemma keeps_modify g : (∀ s, f (g s) = f s) → keeps f (modify g : stt S E unit).
Proof. intros H s. apply H. Qed.
Lemma keeps_zoom {T A} (view : S → T) put (m : stt T E A) : (∀ t s, f (put t s) = f s) → keeps f (zoom view put m).
Proof. intros H s. unfold zoom. destruct (m (view s)). apply H. Qed.
Lemma keeps_for_each {A} (g : A → stt S E unit) l : (∀ x, keeps f (g x)) → keeps f (for_each g l).
Proof. intros H. induction l as [|x l IH]; [done|]. by apply keeps_bind. Qed.

Lemma keeps_run {A} (m : stt S E A) s s' r : keeps f m → m s = (s', r) → f s' = f s.
Proof. intros Hm E1. specialize (Hm s). by rewrite E1 in Hm. Qed.
End keeps.

Create HintDb keeps.
#[export] Hint Resolve keeps_ret keeps_lift keeps_get keeps_gets keeps_throw keeps_panic : keeps.

(** Goes through an operation, with the hints for the operations it calls. *)
Ltac keeps_tac :=
  intros; cbv zeta;
  first
  [ solve [auto with keeps nocore]
  | apply keeps_bind; [keeps_tac|keeps_tac]
  | apply keeps_for_each; keeps_tac
  | apply keeps_zoom; done
  | apply keeps_modify; done
  | lazymatch goal with
    | |- keeps _ (match ?x with _ => _ end) => destruct x; keeps_tac
    end ].
