(* ===== verification/Words.v ===== *)
(** * Little-endian arrays of 64-bit words

    [Uint] and the 512-bit intermediates of [crates/core/src/uint.rs] are arrays
    of [u64], least significant word first.  This file gives their value, the
    inverse, and the bit-level facts on single words that the Rust code uses
    ([u64::leading_zeros], [^ u64::MAX]). *)

From S2P Require Import Prelude.

(** The base of a word. *)
Abbreviation B64 := (2 ^ 64).

Definition is_u64 (w : Z) : Prop := 0 ≤ w < B64.

Definition wf_words (l : list Z) : Prop := Forall is_u64 l.

Definition le_val (l : list Z) : Z := foldr (λ w acc, w + B64 * acc) 0 l.

Fixpoint to_words (n : nat) (z : Z) : list Z :=
  match n with
  | O => []
  | S n => z mod B64 :: to_words n (z / B64)
  end.

(** [u64::leading_zeros]. *)
Definition leading_zeros (w : Z) : Z := if w =? 0 then 64 else 63 - Z.log2 w.

(** [w ^ u64::MAX]. *)
Definition not64 (w : Z) : Z := Z.lxor w u64_max.

Lemma B64_pos : 0 < B64.
Proof. lia. Qed.

Lemma le_val_cons w l : le_val (w :: l) = w + B64 * le_val l.
Proof. done. Qed.

Lemma pow_words (n : nat) : 2 ^ (64 * Z.of_nat (S n)) = B64 * 2 ^ (64 * Z.of_nat n).
Proof. rewrite <-Z.pow_add_r by lia. f_equal. lia. Qed.

Lemma le_val_bound l : wf_words l → 0 ≤ le_val l < 2 ^ (64 * Z.of_nat (length l)).
Proof.
  induction 1 as [|w l Hw Hl IH]; [done|].
  cbn [length]. rewrite le_val_cons, pow_words. unfold is_u64 in Hw. nia.
Qed.

Lemma le_val_app l k :
  le_val (l ++ k) = le_val l + 2 ^ (64 * Z.of_nat (length l)) * le_val k.
Proof.
  induction l as [|w l IH].
  { cbn [length app]. change (2 ^ (64 * Z.of_nat 0)) with 1. simpl. lia. }
  cbn [length app]. rewrite !le_val_cons, pow_words, IH. lia.
Qed.

Lemma to_words_length n z : length (to_words n z) = n.
Proof. revert z. induction n; intros; simpl; auto. Qed.

Lemma to_words_wf n z : wf_words (to_words n z).
Proof.
  revert z. induction n as [|n IH]; intros z; [constructor|].
  cbn [to_words]. constructor; [|apply IH].
  unfold is_u64. apply Z.mod_pos_bound. lia.
Qed.

Lemma le_val_to_words n z : le_val (to_words n z) = z mod 2 ^ (64 * Z.of_nat n).
Proof.
  revert z. induction n as [|n IH]; intros z; [by rewrite Z.mod_1_r|].
  cbn [to_words]. rewrite le_val_cons, IH, pow_words.
  rewrite Z.rem_mul_r by lia. lia.
Qed.

Lemma le_val_to_words_id n z :
  0 ≤ z < 2 ^ (64 * Z.of_nat n) → le_val (to_words n z) = z.
Proof. intros. rewrite le_val_to_words. by apply Z.mod_small. Qed.

Lemma to_words_le_val l : wf_words l → to_words (length l) (le_val l) = l.
Proof.
  induction 1 as [|w l Hw Hl IH]; [done|].
  cbn [length to_words]. rewrite le_val_cons. unfold is_u64 in Hw.
  rewrite (Z.mul_comm B64), Z.mod_add, Z.div_add by lia.
  rewrite Z.mod_small, Z.div_small, Z.add_0_l by lia. by rewrite IH.
Qed.

Lemma le_val_inj l k :
  wf_words l → wf_words k → length l = length k → le_val l = le_val k → l = k.
Proof.
  intros Hl Hk Hlen Hv. rewrite <-(to_words_le_val l), <-(to_words_le_val k) by done.
  by rewrite Hlen, Hv.
Qed.

Lemma le_val_lookup l i w :
  wf_words l → l !! i = Some w → w = le_val l / 2 ^ (64 * Z.of_nat i) mod B64.
Proof.
  intros Hl. revert i. induction Hl as [|x l Hx Hl IH]; intros i; [done|].
  rewrite le_val_cons. unfold is_u64 in Hx. destruct i as [|i]; simpl.
  - intros [= ->]. change (2 ^ (64 * 0)) with 1. rewrite Z.div_1_r.
    rewrite (Z.mul_comm B64), Z.mod_add by lia. by rewrite Z.mod_small.
  - intros Hi. rewrite (IH _ Hi) at 1. f_equal.
    rewrite pow_words, <-Z.div_div by lia. f_equal.
    rewrite (Z.mul_comm B64), Z.div_add by lia. by rewrite Z.div_small.
Qed.

Lemma le_val_insert l i v w :
  l !! i = Some w →
  le_val (<[i := v]> l) = le_val l + (v - w) * 2 ^ (64 * Z.of_nat i).
Proof.
  revert i. induction l as [|x l IH]; intros [|i]; simpl; [done..| |].
  - intros [= ->]. change (2 ^ (64 * 0)) with 1. lia.
  - intros Hi. rewrite IH by done.
    pose proof (pow_words i) as Hp. cbn in Hp. rewrite Hp. lia.
Qed.

Lemma le_val_replicate0 n : le_val (replicate n 0) = 0.
Proof. induction n as [|n IH]; [done|]. cbn [replicate]. rewrite le_val_cons, IH. lia. Qed.

Lemma wf_replicate0 n : wf_words (replicate n 0).
Proof. unfold wf_words. apply Forall_replicate. unfold is_u64. lia. Qed.

Lemma wf_insert l i v : wf_words l → is_u64 v → wf_words (<[i := v]> l).
Proof. intros. by apply Forall_insert. Qed.

Lemma leading_zeros_pos w : is_u64 w → (0 <? leading_zeros w) = (w <? 2 ^ 63).
Proof.
  intros [H0 H1]. unfold leading_zeros. destruct (Z.eqb_spec w 0) as [->|Hne]; [done|].
  destruct (Z.ltb_spec w (2 ^ 63)) as [Hlt|Hge].
  - apply Z.ltb_lt. assert (Z.log2 w < 63) by (apply Z.log2_lt_pow2; lia). lia.
  - apply Z.ltb_ge. assert (63 ≤ Z.log2 w) by (apply Z.log2_le_pow2; lia). lia.
Qed.

Lemma not64_spec w : is_u64 w → not64 w = u64_max - w.
Proof.
  intros [H0 H1]. unfold not64.
  assert (Hadd : w + Z.lxor w u64_max = u64_max); [|lia].
  assert (Hdis : Z.land w (Z.lxor w u64_max) = 0).
  { apply Z.bits_inj'. intros n Hn.
    rewrite Z.land_spec, Z.lxor_spec, Z.bits_0.
    change u64_max with (Z.ones 64).
    destruct (Z.ltb_spec n 64).
    - rewrite Z.ones_spec_low by lia. by destruct (Z.testbit w n).
    - rewrite Z.ones_spec_high by lia.
      rewrite (Z.bits_above_log2 w n); [done..|].
      destruct (decide (w = 0)) as [->|]; [simpl; lia|].
      apply Z.log2_lt_pow2; [lia|].
      assert (2 ^ 64 ≤ 2 ^ n) by (apply Z.pow_le_mono_r; lia). lia. }
  rewrite Z.add_nocarry_lxor by done.
  rewrite <-Z.lxor_assoc, Z.lxor_nilpotent. apply Z.lxor_0_l.
Qed.

Lemma is_u64_not64 w : is_u64 w → is_u64 (not64 w).
Proof. intros H. rewrite not64_spec by done. unfold is_u64 in *. lia. Qed.

Lemma le_val_map_not64 l :
  wf_words l → le_val (not64 <$> l) = 2 ^ (64 * Z.of_nat (length l)) - 1 - le_val l.
Proof.
  induction 1 as [|w l Hw Hl IH]; [done|].
  cbn [length fmap list_fmap]. rewrite !le_val_cons, IH, pow_words, not64_spec by done. lia.
Qed.

#[export] Hint Resolve to_words_wf to_words_length wf_replicate0 wf_insert
  is_u64_not64 B64_pos : namada.
