(* ===== verification/Uint.v ===== *)
(** * The 256-bit unsigned integer [Uint] (crates/core/src/uint.rs)

    [Uint] is declared by the [construct_uint!] macro of the third-party crate
    [uint], so its basic arithmetic is not part of the repository: it is the
    interface [UintApi], and [UintLaws] states the documented behaviour of each
    operation that the repository's code relies on, by its effect on values.
    [uint_ref] is a concrete implementation of the interface: it shows that the
    laws can hold and lets witnesses compute.

    The methods the repository itself defines on [Uint] are modelled here:
    [negate], [canonical], the [Integer] instance with its binary gcd loop, and
    the decimal [Deserialize] instance.  The 512-bit division is in UintDiv.v. *)

From S2P Require Import Prelude Words.

(** [pub struct Uint(4)]: four words, least significant first. *)
Record Uint : Type := mk_uint { words : list Z }.

#[global] Instance Uint_eq_dec : EqDecision Uint.
Proof. solve_decision. Defined.

Definition wf_uint (u : Uint) : Prop := wf_words (words u) ∧ length (words u) = 4%nat.

(** The number a [Uint] denotes, and the [Uint] of a number. *)
Definition val (u : Uint) : Z := le_val (words u).
Definition of_val (z : Z) : Uint := mk_uint (to_words 4 z).

Abbreviation MAX256 := (2 ^ 256 - 1).

(** ** The interface of the [uint] crate

    [None] of [div_mod] and [exp10] is a panic. *)
Class UintApi : Type := {
  uint_from : Z → Uint;
  checked_add : Uint → Uint → option Uint;
  checked_sub : Uint → Uint → option Uint;
  checked_mul : Uint → Uint → option Uint;
  checked_div : Uint → Uint → option Uint;
  checked_rem : Uint → Uint → option Uint;
  checked_pow : Uint → Uint → option Uint;
  overflowing_add : Uint → Uint → Uint * bool;
  div_mod : Uint → Uint → option (Uint * Uint);
  exp10 : nat → option Uint;
  cmp : Uint → Uint → comparison;
  low_u64 : Uint → Z;
  low_u128 : Uint → Z;
  bits : Uint → Z;
  trailing_zeros : Uint → Z;
  bit_or : Uint → Uint → Uint;
  bit_and : Uint → Uint → Uint;
  shl : Uint → Z → Uint;
  shr : Uint → Z → Uint
}.

Definition low_zeros (z : Z) (n : nat) : Prop :=
  Z.divide (2 ^ Z.of_nat n) z ∧ ¬ Z.divide (2 ^ Z.of_nat (S n)) z.

Class UintLaws (U : UintApi) : Prop := {
  uint_from_law x : 0 ≤ x < 2 ^ 128 → uint_from x = of_val x;
  checked_add_law a b : wf_uint a → wf_uint b →
    checked_add a b = of_val <$> chk 256 (val a + val b);
  checked_sub_law a b : wf_uint a → wf_uint b →
    checked_sub a b = of_val <$> chk 256 (val a - val b);
  checked_mul_law a b : wf_uint a → wf_uint b →
    checked_mul a b = of_val <$> chk 256 (val a * val b);
  checked_div_law a b : wf_uint a → wf_uint b →
    checked_div a b = if val b =? 0 then None else Some (of_val (val a / val b));
  checked_rem_law a b : wf_uint a → wf_uint b →
    checked_rem a b = if val b =? 0 then None else Some (of_val (val a mod val b));
  checked_pow_law a b : wf_uint a → wf_uint b →
    checked_pow a b = of_val <$> chk 256 (val a ^ val b);
  overflowing_add_law a b : wf_uint a → wf_uint b →
    overflowing_add a b = (of_val (val a + val b), 2 ^ 256 <=? val a + val b);
  div_mod_law a b : wf_uint a → wf_uint b →
    div_mod a b = if val b =? 0 then None
                  else Some (of_val (val a / val b), of_val (val a mod val b));
  exp10_law n : exp10 n = of_val <$> chk 256 (10 ^ Z.of_nat n);
  cmp_law a b : wf_uint a → wf_uint b → cmp a b = (val a ?= val b);
  low_u64_law a : wf_uint a → low_u64 a = val a mod 2 ^ 64;
  low_u128_law a : wf_uint a → low_u128 a = val a mod 2 ^ 128;
  bits_law a : wf_uint a → bits a = if val a =? 0 then 0 else Z.log2 (val a) + 1;
  trailing_zeros_law a : wf_uint a → val a ≠ 0 →
    ∃ n, trailing_zeros a = Z.of_nat n ∧ low_zeros (val a) n;
  bit_or_law a b : wf_uint a → wf_uint b → bit_or a b = of_val (Z.lor (val a) (val b));
  bit_and_law a b : wf_uint a → wf_uint b → bit_and a b = of_val (Z.land (val a) (val b));
  shl_law a n : wf_uint a → 0 ≤ n → shl a n = of_val (val a * 2 ^ n);
  shr_law a n : wf_uint a → 0 ≤ n → shr a n = of_val (val a / 2 ^ n)
}.

(** ** Values *)

Lemma val_bound u : wf_uint u → 0 ≤ val u < 2 ^ 256.
Proof.
  intros [Hw Hl]. unfold val. pose proof (le_val_bound _ Hw) as H. rewrite Hl in H. exact H.
Qed.

Lemma wf_of_val z : wf_uint (of_val z).
Proof. unfold wf_uint, of_val; cbn [words]. auto with namada. Qed.

Lemma val_of_val z : 0 ≤ z < 2 ^ 256 → val (of_val z) = z.
Proof. intros. unfold val, of_val; cbn [words]. by apply le_val_to_words_id. Qed.

Lemma val_of_val_mod z : val (of_val z) = z mod 2 ^ 256.
Proof. unfold val, of_val; cbn [words]. by rewrite le_val_to_words. Qed.

Lemma of_val_val u : wf_uint u → of_val (val u) = u.
Proof.
  intros [Hw Hl]. unfold of_val, val. destruct u as [l]; cbn [words] in *.
  f_equal. rewrite <-Hl. by apply to_words_le_val.
Qed.

Lemma val_inj a b : wf_uint a → wf_uint b → val a = val b → a = b.
Proof. intros Ha Hb E. by rewrite <-(of_val_val a), <-(of_val_val b), E. Qed.

Lemma val_eq_iff a b : wf_uint a → wf_uint b → a = b ↔ val a = val b.
Proof. intros Ha Hb. split; [by intros ->|by apply val_inj]. Qed.

#[export] Hint Resolve wf_of_val : namada.

(** [val (of_val z)] with the bound left to [lia]. *)
Ltac vals :=
  repeat match goal with
  | |- context [val (of_val ?z)] => rewrite (val_of_val z) by (try lia; try nia)
  | H : context [val (of_val ?z)] |- _ => rewrite (val_of_val z) in H by (try lia; try nia)
  end.

(** Bounds of every well-formed [Uint] in the context. *)
Ltac bound u :=
  match goal with
  | H : wf_uint u |- _ => pose proof (val_bound u H)
  end.

(** ** A concrete implementation of the interface *)

Fixpoint ctz_pos (p : positive) : nat :=
  match p with xO p => S (ctz_pos p) | _ => O end.

Definition ctz (z : Z) : Z :=
  match z with Zpos p => Z.of_nat (ctz_pos p) | _ => 256 end.

#[export] Instance uint_ref : UintApi := {
  uint_from x := of_val x;
  checked_add a b := of_val <$> chk 256 (val a + val b);
  checked_sub a b := of_val <$> chk 256 (val a - val b);
  checked_mul a b := of_val <$> chk 256 (val a * val b);
  checked_div a b := if val b =? 0 then None else Some (of_val (val a / val b));
  checked_rem a b := if val b =? 0 then None else Some (of_val (val a mod val b));
  checked_pow a b := of_val <$> chk 256 (val a ^ val b);
  overflowing_add a b := (of_val (val a + val b), 2 ^ 256 <=? val a + val b);
  div_mod a b := if val b =? 0 then None
                 else Some (of_val (val a / val b), of_val (val a mod val b));
  exp10 n := of_val <$> chk 256 (10 ^ Z.of_nat n);
  cmp a b := (val a ?= val b);
  low_u64 a := val a mod 2 ^ 64;
  low_u128 a := val a mod 2 ^ 128;
  bits a := if val a =? 0 then 0 else Z.log2 (val a) + 1;
  trailing_zeros a := ctz (val a);
  bit_or a b := of_val (Z.lor (val a) (val b));
  bit_and a b := of_val (Z.land (val a) (val b));
  shl a n := of_val (val a * 2 ^ n);
  shr a n := of_val (val a / 2 ^ n)
}.

Lemma ctz_pos_spec p : low_zeros (Zpos p) (ctz_pos p).
Proof.
  unfold low_zeros. induction p as [p IH|p [IH1 IH2]|]; cbn [ctz_pos].
  - split; [apply Z.divide_1_l|]. change (2 ^ Z.of_nat 1) with 2.
    intros [k Hk]. lia.
  - assert (Hp : ∀ n, 2 ^ Z.of_nat (S n) = 2 * 2 ^ Z.of_nat n).
    { intros n. rewrite <-Z.pow_succ_r by lia. f_equal. lia. }
    split.
    + destruct IH1 as [k Hk]. exists k. rewrite Hp. lia.
    + intros [k Hk]. apply IH2. exists k. rewrite Hp in Hk. lia.
  - split; [apply Z.divide_1_l|]. change (2 ^ Z.of_nat 1) with 2. intros [k Hk]. lia.
Qed.

#[export] Instance uint_ref_laws : UintLaws uint_ref.
Proof.
  constructor; try done.
  intros a Ha Hne. pose proof (val_bound a Ha). cbn.
  destruct (val a) as [|p|p] eqn:E; [done| |lia].
  exists (ctz_pos p). split; [done|]. apply ctz_pos_spec.
Qed.

Module UintM.
Section methods.
Context `{U : UintApi}.

Definition zero : Uint := uint_from 0.
Definition one : Uint := uint_from 1.
Definition is_zero (a : Uint) : bool := bool_decide (a = zero).

(** [pub const MAX_VALUE], [MAX_SIGNED_VALUE], [MINUS_ZERO]. *)
Definition MAX_VALUE : Uint := mk_uint [u64_max; u64_max; u64_max; u64_max].
Definition MAX_SIGNED_VALUE : Uint :=
  mk_uint [u64_max; u64_max; u64_max; 9223372036854775807].
Definition MINUS_ZERO : Uint := mk_uint [0; 0; 0; 9223372036854775808].

(** [Uint::from_u64]. *)
Definition from_u64 (x : Z) : Uint := mk_uint [x; 0; 0; 0].

Definition gtb (a b : Uint) : bool :=
  match cmp a b with Gt => true | _ => false end.
Definition leb (a b : Uint) : bool := negb (gtb a b).
Definition geb (a b : Uint) : bool :=
  match cmp a b with Lt => false | _ => true end.

Definition canonical (a : Uint) : Uint :=
  if bool_decide (a = MINUS_ZERO) then zero else a.

Definition negate (a : Uint) : Uint * bool :=
  let output := not64 <$> words a in
  let '(res, overflow) := overflowing_add (mk_uint output) (uint_from 1) in
  (canonical res, overflow).

(** *** [impl Integer for Uint]

    [gcd]'s loop takes [fuel]; [gcd_fuel] is enough for any two values
    ([uint_gcd_correct]). *)
Definition gcd_fuel : nat := 513.

Fixpoint gcd_loop (fuel : nat) (u v : Uint) : option Uint :=
  match fuel with
  | O => None
  | S fuel =>
      let v := shr v (trailing_zeros v) in
      let '(u, v) := if gtb u v then (v, u) else (u, v) in
      match checked_sub v u with
      | None => None
      | Some v => if is_zero v then Some u else gcd_loop fuel u v
      end
  end.

Definition gcd (a b : Uint) : option Uint :=
  if is_zero a then Some a
  else if is_zero b then Some b
  else
    let shift := trailing_zeros (bit_or a b) in
    let u := shr a shift in
    let v := shr b shift in
    let u := shr u (trailing_zeros u) in
    match gcd_loop gcd_fuel u v with
    | Some u => Some (shl u shift)
    | None => None
    end.

Definition lcm (a b : Uint) : option Uint :=
  match checked_mul a b, gcd a b with
  | Some p, Some g => checked_div p g
  | _, _ => None
  end.

Definition div_floor (a b : Uint) : option Uint := checked_div a b.
Definition mod_floor (a b : Uint) : option Uint := snd <$> div_mod a b.
Definition divides (a b : Uint) : bool :=
  default false (is_zero <$> checked_rem b a).
Definition is_multiple_of (a b : Uint) : bool := divides a b.
Definition is_even (a : Uint) : bool := negb (bool_decide (bit_and a one = one)).
Definition is_odd (a : Uint) : bool := negb (is_even a).
Definition div_rem (a b : Uint) : option (Uint * Uint) := div_mod a b.

End methods.
End UintM.

(** ** Facts on odd numbers used by the binary gcd *)

Lemma odd_not_div2 u : Z.odd u = true → ¬ Z.divide 2 u.
Proof.
  intros Ho [k ->]. rewrite Z.mul_comm, Z.odd_mul in Ho. discriminate Ho.
Qed.

Lemma not_div2_odd u : ¬ Z.divide 2 u → Z.odd u = true.
Proof.
  intros Hn. destruct (Z.odd u) eqn:E; [done|]. exfalso. apply Hn.
  exists (Z.div2 u). pose proof (Z.div2_odd u) as H. rewrite E in H. simpl in H. lia.
Qed.

Lemma gcd_odd_double u x : Z.odd u = true → Z.gcd u (2 * x) = Z.gcd u x.
Proof.
  intros Ho. apply Z.divide_antisym_nonneg; try apply Z.gcd_nonneg.
  - apply Z.gcd_greatest; [apply Z.gcd_divide_l|].
    apply (Z.gauss _ 2); [apply Z.gcd_divide_r|].
    assert (Hg : Z.divide (Z.gcd (Z.gcd u (2 * x)) 2) 2) by apply Z.gcd_divide_r.
    assert (Hu : Z.divide (Z.gcd (Z.gcd u (2 * x)) 2) u).
    { etrans; [apply Z.gcd_divide_l|apply Z.gcd_divide_l]. }
    pose proof (Z.gcd_nonneg (Z.gcd u (2 * x)) 2).
    apply Z.divide_pos_le in Hg as Hle; [|lia].
    assert (Z.gcd (Z.gcd u (2 * x)) 2 = 0 ∨ Z.gcd (Z.gcd u (2 * x)) 2 = 1
      ∨ Z.gcd (Z.gcd u (2 * x)) 2 = 2) as [E|[E|E]] by lia; [|done|].
    + apply Z.gcd_eq_0_r in E. lia.
    + rewrite E in Hu. by apply odd_not_div2 in Ho.
  - apply Z.gcd_greatest; [apply Z.gcd_divide_l|].
    apply Z.divide_mul_r, Z.gcd_divide_r.
Qed.

Lemma gcd_odd_pow2 u x n : Z.odd u = true → Z.gcd u (2 ^ Z.of_nat n * x) = Z.gcd u x.
Proof.
  intros Ho. induction n as [|n IH]; [by rewrite Z.mul_1_l|].
  rewrite Nat2Z.inj_succ, Z.pow_succ_r, <-Z.mul_assoc by lia.
  by rewrite gcd_odd_double.
Qed.

(** Dividing the trailing zeros out leaves an odd number. *)
Lemma low_zeros_split z n :
  0 < z → low_zeros z n →
  ∃ y, z / 2 ^ Z.of_nat n = y ∧ z = 2 ^ Z.of_nat n * y ∧ 0 < y ∧ Z.odd y = true.
Proof.
  intros Hz [[y Hy] Hn]. exists y. assert (0 < 2 ^ Z.of_nat n) by lia.
  split; [|split; [lia|split; [nia|]]].
  - by rewrite Hy, Z.div_mul by lia.
  - apply not_div2_odd. intros [k Hk]. apply Hn. exists k.
    rewrite Nat2Z.inj_succ, Z.pow_succ_r by lia. nia.
Qed.

Lemma divide_pow2_lor a b n :
  Z.divide (2 ^ Z.of_nat n) (Z.lor a b) ↔
  Z.divide (2 ^ Z.of_nat n) a ∧ Z.divide (2 ^ Z.of_nat n) b.
Proof.
  rewrite <-!Z.mod_divide, <-!Z.land_ones by lia.
  rewrite Z.land_comm, Z.land_lor_distr_r, Z.lor_eq_0_iff.
  by rewrite (Z.land_comm _ a), (Z.land_comm _ b).
Qed.

Lemma even_log2_half z n y :
  0 < y → z = 2 ^ Z.of_nat n * y → Z.log2 z = Z.of_nat n + Z.log2 y.
Proof. intros Hy ->. rewrite Z.mul_comm, Z.log2_mul_pow2 by lia. lia. Qed.

Section laws.
Context {U : UintApi} {L : UintLaws U}.
Import UintM.

Lemma val_zero : val zero = 0.
Proof. unfold zero. rewrite uint_from_law by lia. by vals. Qed.

Lemma zero_of_val : zero = of_val 0.
Proof. unfold zero. by rewrite uint_from_law by lia. Qed.

Lemma one_of_val : one = of_val 1.
Proof. unfold one. by rewrite uint_from_law by lia. Qed.

Lemma wf_zero : wf_uint zero.
Proof. rewrite zero_of_val. auto with namada. Qed.

Lemma is_zero_val a : wf_uint a → is_zero a = (val a =? 0).
Proof.
  intros Ha. unfold is_zero. apply Bool.eq_iff_eq_true.
  rewrite bool_decide_eq_true, Z.eqb_eq, (val_eq_iff _ _ Ha wf_zero), val_zero. done.
Qed.

Lemma gtb_val a b : wf_uint a → wf_uint b → gtb a b = (val b <? val a).
Proof. intros. unfold gtb. rewrite cmp_law by done. unfold Z.ltb. rewrite Z.compare_antisym.
  by destruct (val b ?= val a). Qed.

Lemma leb_val a b : wf_uint a → wf_uint b → leb a b = (val a <=? val b).
Proof. intros. unfold leb. rewrite gtb_val by done. by rewrite Z.leb_antisym. Qed.

Lemma geb_val a b : wf_uint a → wf_uint b → geb a b = (val b <=? val a).
Proof. intros. unfold geb. rewrite cmp_law by done. unfold Z.leb. rewrite Z.compare_antisym.
  by destruct (val b ?= val a). Qed.

Lemma wf_MAX_SIGNED : wf_uint MAX_SIGNED_VALUE.
Proof. split; [|done]. repeat constructor; unfold is_u64; lia. Qed.

Lemma val_MAX_SIGNED : val MAX_SIGNED_VALUE = 2 ^ 255 - 1.
Proof. reflexivity. Qed.

Lemma MINUS_ZERO_of_val : MINUS_ZERO = of_val (2 ^ 255).
Proof. vm_compute. reflexivity. Qed.

Lemma canonical_val a : wf_uint a →
  canonical a = of_val (if val a =? 2 ^ 255 then 0 else val a).
Proof.
  intros Ha. unfold canonical. case_bool_decide as E.
  - subst a. rewrite zero_of_val, MINUS_ZERO_of_val. by vals.
  - destruct (Z.eqb_spec (val a) (2 ^ 255)) as [Hv|]; [|by rewrite of_val_val].
    exfalso. apply E. rewrite MINUS_ZERO_of_val, <-Hv. by rewrite of_val_val.
Qed.

(** [negate] is the two's complement, with minus zero made zero; its flag is
    raised on zero only. *)
Lemma negate_val a : wf_uint a →
  negate a = (of_val (if val a =? 2 ^ 255 then 0 else 2 ^ 256 - val a), val a =? 0).
Proof.
  intros Ha. bound a. unfold negate. destruct Ha as [Hw Hl] eqn:EHa.
  assert (Hn : wf_uint (mk_uint (not64 <$> words a))).
  { split; cbn [words]; [|by rewrite length_fmap].
    unfold wf_words in *. rewrite Forall_fmap. eapply Forall_impl; [exact Hw|].
    intros x Hx. by apply is_u64_not64. }
  assert (Hv : val (mk_uint (not64 <$> words a)) = 2 ^ 256 - 1 - val a).
  { unfold val; cbn [words]. rewrite le_val_map_not64, Hl by done. done. }
  rewrite uint_from_law, overflowing_add_law by (try lia; auto with namada).
  rewrite Hv. vals. rewrite canonical_val by auto with namada. f_equal.
  - destruct (Z.eqb_spec (val a) (2 ^ 255)) as [E|E].
    + rewrite E. vals. done.
    + destruct (Z.eqb_spec (val a) 0) as [E0|E0].
      * rewrite E0, val_of_val_mod. reflexivity.
      * vals. f_equal. case_match; boolp; lia.
  - destruct (Z.leb_spec (2 ^ 256) (2 ^ 256 - 1 - val a + 1)); symmetry;
      [apply Z.eqb_eq|apply Z.eqb_neq]; lia.
Qed.

(** ** The binary gcd *)

Definition gcd_measure (u v : Z) : Z :=
  Z.log2 u + Z.log2 v + (if Z.odd v then 1 else 0).

Lemma gcd_step_Z u v y n :
  0 < u → Z.odd u = true → v = 2 ^ Z.of_nat n * y → 0 < y → Z.odd y = true →
  Z.log2 u + Z.log2 y ≤ gcd_measure u v - 1.
Proof.
  intros Hu Hou Hv Hy Hoy. unfold gcd_measure.
  rewrite (even_log2_half v n y) by done. destruct n as [|n]; [|case_match; lia].
  assert (Z.odd v = true) as -> by (subst v; by rewrite Z.mul_1_l). lia.
Qed.

Lemma gcd_loop_spec fuel u v :
  wf_uint u → wf_uint v → 0 < val u → 0 < val v → Z.odd (val u) = true →
  gcd_measure (val u) (val v) < Z.of_nat fuel →
  gcd_loop fuel u v = Some (of_val (Z.gcd (val u) (val v))).
Proof.
  revert u v. induction fuel as [|fuel IH]; intros u v Hwu Hwv Hu Hv Hou Hm.
  { exfalso. unfold gcd_measure in Hm.
    pose proof (Z.log2_nonneg (val u)). pose proof (Z.log2_nonneg (val v)).
    destruct (Z.odd (val v)); lia. }
  bound u. bound v. cbn [gcd_loop].
  destruct (trailing_zeros_law v Hwv) as (n & Hn & Hz); [lia|].
  destruct (low_zeros_split _ _ Hv Hz) as (y & Hdiv & Hvy & Hy & Hoy).
  rewrite Hn, shr_law, Hdiv by (done || lia).
  pose proof (gcd_step_Z _ _ _ _ Hu Hou Hvy Hy Hoy) as Hstep.
  assert (y < 2 ^ 256) by nia.
  rewrite Hvy, gcd_odd_pow2 by done.
  assert (Hgo : ∀ p q, wf_uint p → wf_uint q → 0 < val p → Z.odd (val p) = true →
    Z.odd (val q) = true → val p ≤ val q →
    Z.log2 (val p) + Z.log2 (val q) < Z.of_nat fuel →
    Z.gcd (val u) y = Z.gcd (val p) (val q) →
    match checked_sub q p with
    | Some v0 => if is_zero v0 then Some p else gcd_loop fuel p v0
    | None => None
    end = Some (of_val (Z.gcd (val u) y))).
  { intros p q Hwp Hwq Hp Hop Hoq Hpq Hf ->. bound q.
    rewrite checked_sub_law by done. rewrite chk_in by lia. simpl.
    rewrite is_zero_val by auto with namada. vals.
    destruct (Z.eqb_spec (val q - val p) 0) as [E|E].
    - replace (val q) with (val p) by lia.
      rewrite Z.gcd_diag, Z.abs_eq, of_val_val by (done || lia). done.
    - rewrite IH; vals; auto with namada; try lia.
      + f_equal. f_equal. by rewrite Z.gcd_sub_diag_r.
      + unfold gcd_measure. rewrite Z.odd_sub, Hoq, Hop. simpl.
        assert (Z.log2 (val q - val p) ≤ Z.log2 (val q))
          by (apply Z.log2_le_mono; lia). lia. }
  rewrite gtb_val by auto with namada. vals.
  destruct (Z.ltb_spec y (val u)) as [Hlt|Hge];
    apply Hgo; vals; auto with namada; try lia. by rewrite Z.gcd_comm.
Qed.

(** The arguments of the loop, once the common power of two is taken out. *)
Lemma gcd_common_shift x y n :
  0 < x → 0 < y → low_zeros (Z.lor x y) n →
  ∃ u v k w, x = 2 ^ Z.of_nat n * u ∧ y = 2 ^ Z.of_nat n * v ∧ 0 < u ∧ 0 < v ∧
    u = 2 ^ Z.of_nat k * w ∧ 0 < w ∧ low_zeros u k ∧ Z.odd w = true ∧
    Z.gcd w v = Z.gcd u v.
Proof.
  intros Hx Hy [Hd Hnd]. apply divide_pow2_lor in Hd as [[u Hu] [v Hv]].
  assert (0 < 2 ^ Z.of_nat n) by lia. assert (0 < u) by nia. assert (0 < v) by nia.
  assert (Hk : ∃ k, low_zeros u k).
  { destruct u as [|p|p]; [lia| |lia]. exists (ctz_pos p). apply ctz_pos_spec. }
  destruct Hk as [k Hk].
  destruct (low_zeros_split u k) as (w & _ & Huw & Hw & Hodd); [done..|].
  exists u, v, k, w. do 8 (split; [lia || done|]).
  destruct k as [|k]; [rewrite Huw; by rewrite Z.mul_1_l|].
  assert (Z.odd v = true) as Hov.
  { apply not_div2_odd. intros [v' Hv']. apply Hnd, divide_pow2_lor.
    rewrite Nat2Z.inj_succ, Z.pow_succ_r by lia.
    split; [exists (2 ^ Z.of_nat k * w)|exists v'].
    - rewrite Hu, Huw, Nat2Z.inj_succ, Z.pow_succ_r by lia. ring.
    - rewrite Hv, Hv'. ring. }
  rewrite Huw, (Z.gcd_comm (_ * w)), gcd_odd_pow2, Z.gcd_comm; done.
Qed.

Lemma trailing_zeros_unique a n :
  wf_uint a → 0 < val a → low_zeros (val a) n → trailing_zeros a = Z.of_nat n.
Proof.
  intros Ha Hpos [Hd Hnd]. destruct (trailing_zeros_law a Ha) as (m & -> & Hm1 & Hm2); [lia|].
  destruct (decide (m = n)) as [->|Hne]; [done|]. exfalso.
  assert (Hmono : ∀ i j, (i < j)%nat → Z.divide (2 ^ Z.of_nat j) (val a) →
    Z.divide (2 ^ Z.of_nat (S i)) (val a)).
  { intros i j Hij Hdiv. etrans; [|exact Hdiv].
    exists (2 ^ (Z.of_nat j - Z.of_nat (S i))). rewrite <-Z.pow_add_r by lia. f_equal. lia. }
  destruct (decide (m < n)%nat); [by apply Hm2, (Hmono m n)|].
  apply Hnd, (Hmono n m); [lia|done].
Qed.

Lemma mul_lt_r p u m : 0 < p → 0 < u → p * u < m → u < m.
Proof. nia. Qed.

Lemma log2_u256 x : 0 < x < 2 ^ 256 → Z.log2 x ≤ 255.
Proof. intros. assert (Z.log2 x < 256) by (apply Z.log2_lt_pow2; lia). lia. Qed.

Lemma gcd_nonzero a b :
  wf_uint a → wf_uint b → 0 < val a → 0 < val b →
  gcd a b = Some (of_val (Z.gcd (val a) (val b))).
Proof.
  intros Ha Hb Hpa Hpb. bound a. bound b. unfold gcd.
  rewrite !is_zero_val by done.
  destruct (Z.eqb_spec (val a) 0) as [?|_]; [lia|].
  destruct (Z.eqb_spec (val b) 0) as [?|_]; [lia|].
  assert (Hor : 0 < Z.lor (val a) (val b) < 2 ^ 256).
  { assert (0 ≤ Z.lor (val a) (val b)) by (apply Z.lor_nonneg; lia).
    assert (Z.lor (val a) (val b) ≠ 0) by (rewrite Z.lor_eq_0_iff; lia).
    split; [lia|]. apply Z.log2_lt_pow2; [lia|]. rewrite Z.log2_lor by lia.
    pose proof (log2_u256 (val a)). pose proof (log2_u256 (val b)). lia. }
  rewrite bit_or_law by done.
  destruct (trailing_zeros_law (of_val (Z.lor (val a) (val b)))) as (n & -> & Hn);
    vals; auto with namada; [lia|].
  destruct (gcd_common_shift _ _ _ Hpa Hpb Hn)
    as (u & v & k & w & Hu & Hv & Hpu & Hpv & Hw & Hpw & Hk & Hodd & Hg).
  assert (0 < 2 ^ Z.of_nat n) by lia. assert (0 < 2 ^ Z.of_nat k) by lia.
  assert (u < 2 ^ 256) by (apply (mul_lt_r (2 ^ Z.of_nat n)); lia).
  assert (v < 2 ^ 256) by (apply (mul_lt_r (2 ^ Z.of_nat n)); lia).
  assert (w < 2 ^ 256) by (apply (mul_lt_r (2 ^ Z.of_nat k)); lia).
  rewrite (shr_law a), (shr_law b) by (done || lia).
  replace (val a / 2 ^ Z.of_nat n) with u by (rewrite Hu, Z.mul_comm, Z.div_mul; lia).
  replace (val b / 2 ^ Z.of_nat n) with v by (rewrite Hv, Z.mul_comm, Z.div_mul; lia).
  rewrite (trailing_zeros_unique (of_val u) k) by (vals; auto with namada).
  rewrite shr_law by (auto with namada; lia). vals.
  replace (u / 2 ^ Z.of_nat k) with w by (rewrite Hw, Z.mul_comm, Z.div_mul; lia).
  rewrite gcd_loop_spec; vals; auto with namada.
  - assert (Z.gcd w v ≤ v) by (apply Z.divide_pos_le; [done|apply Z.gcd_divide_r]).
    pose proof (Z.gcd_nonneg w v).
    rewrite shl_law by (auto with namada; lia). vals.
    rewrite Hg, Z.mul_comm, <-Z.gcd_mul_mono_l_nonneg by lia. by rewrite <-Hu, <-Hv.
  - unfold gcd_measure, gcd_fuel.
    pose proof (log2_u256 w). pose proof (log2_u256 v). case_match; lia.
Qed.
End laws.

(** C34. The binary gcd of [impl Integer for Uint] returns for every pair of
    [Uint]s (its loop ends within [gcd_fuel] rounds and no subtraction
    underflows), the greatest common divisor when neither is zero and zero
    when one of them is. *)
Theorem uint_gcd_correct (U : UintApi) (L : UintLaws U) (a b : Uint) :
  wf_uint a → wf_uint b →
  UintM.gcd a b =
    Some (if (val a =? 0) || (val b =? 0) then of_val 0
          else of_val (Z.gcd (val a) (val b))).
Proof.
  intros Ha Hb. bound a. bound b.
  destruct (Z.eqb_spec (val a) 0) as [E|]; simpl.
  { unfold UintM.gcd. rewrite is_zero_val, E by done. simpl.
    by rewrite <-E, of_val_val. }
  destruct (Z.eqb_spec (val b) 0) as [E|].
  { unfold UintM.gcd. rewrite !is_zero_val, E by done.
    destruct (Z.eqb_spec (val a) 0); [done|]. simpl. by rewrite <-E, of_val_val. }
  apply gcd_nonzero; (done || lia).
Qed.

Lemma uint_gcd_correct_witness :
  UintM.gcd (of_val (2 ^ 200 * 45)) (of_val (2 ^ 199 * 60)) = Some (of_val (2 ^ 200 * 15)).
Proof.
  rewrite (uint_gcd_correct uint_ref uint_ref_laws) by apply wf_of_val.
  vm_compute. reflexivity.
Defined.
