(* ===== verification/Decimal.v ===== *)
(** * Decimal text of integers

    The byte strings that [Dec] and [DenominatedAmount] print and parse.  A
    string is the list of its bytes: the parsers of crates/core compare lengths
    in bytes and accept ASCII digits only, so no character above 127 is ever
    read as a digit.  [UintText] is what the [uint] crate offers on text. *)

From Stdlib Require Export Ascii.
From Stdlib Require String.
From S2P Require Import Prelude Words Uint.

Abbreviation text := (list ascii).

(** Rust string literals. *)
Definition lit (s : string) : text := String.list_ascii_of_string s.

(** A digit of [HEXUPPER] and of the format [X]. *)
Definition hex_digit (d : Z) : ascii :=
  ascii_of_N (Z.to_N (if d <? 10 then 48 + d else 55 + d)).

Definition digit_char (d : Z) : ascii := ascii_of_nat (Z.to_nat (48 + d)).

(** [char::to_digit(10)]. *)
Definition to_digit (c : ascii) : option Z :=
  let n := Z.of_nat (nat_of_ascii c) in
  if (48 <=? n) && (n <=? 57) then Some (n - 48) else None.

Definition dot : ascii := "."%char.
Definition minus : ascii := "-"%char.
Definition zero_char : ascii := "0"%char.

(** [str::trim_end_matches(c)]. *)
Fixpoint trim_end (c : ascii) (s : text) : text :=
  match s with
  | [] => []
  | x :: s =>
      match trim_end c s with
      | [] => if decide (x = c) then [] else [x]
      | s' => x :: s'
      end
  end.

(** [str::split_once(c)] and [str::strip_prefix(c)]. *)
Fixpoint split_once (c : ascii) (s : text) : option (text * text) :=
  match s with
  | [] => None
  | x :: s =>
      if decide (x = c) then Some ([], s)
      else '(a, b) ← split_once c s; Some (x :: a, b)
  end.

Definition strip_prefix (c : ascii) (s : text) : option text :=
  match s with
  | x :: s => if decide (x = c) then Some s else None
  | [] => None
  end.

(** [str::find(c)]. *)
Fixpoint find (c : ascii) (s : text) : option nat :=
  match s with
  | [] => None
  | x :: s => if decide (x = c) then Some 0%nat else S <$> find c s
  end.

(** ** Digits *)

(** The number a list of digits denotes, most significant first. *)
Definition dec_val (l : list Z) : Z := foldl (λ acc d, 10 * acc + d) 0 l.

Fixpoint digits_fuel (k : nat) (n : Z) : list Z :=
  match k with
  | O => [n mod 10]
  | S k => if n <? 10 then [n] else digits_fuel k (n / 10) ++ [n mod 10]
  end.

(** The decimal digits of [n], with no leading zero. *)
Definition digits (n : Z) : list Z := digits_fuel (Z.to_nat (Z.log2 n)) n.

Definition is_digit (d : Z) : Prop := 0 ≤ d < 10.

(** Decimal reading of a non-empty string: digits only. *)
Definition parse_dec (s : text) : option Z := dec_val <$> mapM to_digit s.
Definition print_dec (n : Z) : text := digit_char <$> digits n.

(** ** The text interface of the [uint] crate *)

Class UintText : Type := {
  uint_to_string : Uint → text;
  from_str_radix_10 : text → option Uint;
}.

Class UintTextLaws (T : UintText) : Prop := {
  to_string_law u : wf_uint u → uint_to_string u = print_dec (val u);
  from_str_radix_law s : s ≠ [] →
    from_str_radix_10 s = of_val <$> (n ← parse_dec s; chk 256 n);
}.

#[export] Instance text_ref : UintText := {
  uint_to_string u := print_dec (val u);
  from_str_radix_10 s := of_val <$> (n ← parse_dec s; chk 256 n);
}.

#[export] Instance text_ref_laws : UintTextLaws text_ref.
Proof. by split. Qed.

(** ** Digit lists *)

Lemma dec_val_app l1 l2 :
  dec_val (l1 ++ l2) = dec_val l1 * 10 ^ Z.of_nat (length l2) + dec_val l2.
Proof.
  unfold dec_val. rewrite foldl_app. generalize (foldl (λ acc d, 10 * acc + d) 0 l1) as a.
  assert (H : ∀ l a, foldl (λ acc d, 10 * acc + d) a l =
    a * 10 ^ Z.of_nat (length l) + foldl (λ acc d, 10 * acc + d) 0 l).
  { clear. induction l as [|d l IH]; intros a; [simpl; lia|].
    cbn [foldl length]. rewrite (IH (10 * a + d)), (IH (10 * 0 + d)).
    rewrite Nat2Z.inj_succ, Z.pow_succ_r by lia. ring. }
  intros a. apply H.
Qed.

Lemma dec_val_snoc l d : dec_val (l ++ [d]) = 10 * dec_val l + d.
Proof. unfold dec_val. by rewrite foldl_app. Qed.

Lemma dec_val_zeros n : dec_val (replicate n 0) = 0.
Proof.
  induction n as [|n IH]; [done|]. rewrite replicate_S_end, dec_val_snoc, IH. done.
Qed.

Lemma dec_val_bound l : Forall is_digit l → 0 ≤ dec_val l < 10 ^ Z.of_nat (length l).
Proof.
  induction l as [|d l IH] using rev_ind; [cbn; lia|].
  rewrite Forall_app, dec_val_snoc, length_app. intros [H1 [H2 _]%Forall_cons].
  specialize (IH H1). red in H2. cbn [length]. rewrite Nat2Z.inj_add, Z.pow_add_r by lia.
  change (10 ^ Z.of_nat 1) with 10. lia.
Qed.

Lemma digits_fuel_spec k n : 0 ≤ n → n < 10 * 2 ^ Z.of_nat k →
  dec_val (digits_fuel k n) = n ∧ Forall is_digit (digits_fuel k n) ∧ digits_fuel k n ≠ [].
Proof.
  revert n. induction k as [|k IH]; intros n Hn Hk; cbn [digits_fuel].
  - rewrite Z.mod_small by (cbn in Hk; lia). repeat constructor; cbn in *; done || lia.
  - destruct (Z.ltb_spec n 10).
    + repeat constructor; cbn; done || lia.
    + rewrite Nat2Z.inj_succ, Z.pow_succ_r in Hk by lia.
      destruct (IH (n / 10)) as (Hv & Hd & _); [dlia..|].
      rewrite dec_val_snoc, Hv, Forall_app, Forall_singleton.
      repeat split; [dlia|done|dlia|dlia|by destruct (digits_fuel _ _)].
Qed.

Lemma digits_spec n : 0 ≤ n →
  dec_val (digits n) = n ∧ Forall is_digit (digits n) ∧ digits n ≠ [].
Proof.
  intros Hn. apply digits_fuel_spec; [done|].
  destruct (Z.eq_dec n 0) as [->|]; [cbn; lia|].
  rewrite Z2Nat.id by apply Z.log2_nonneg.
  pose proof (Z.log2_spec n) as [_ H]; [lia|]. rewrite Z.pow_succ_r in H by apply Z.log2_nonneg.
  lia.
Qed.

(** The length of the digits is monotone in the number's bound. *)
Lemma digits_fuel_length k n m :
  (0 < m)%nat → 0 ≤ n < 10 ^ Z.of_nat m → n < 10 * 2 ^ Z.of_nat k →
  (length (digits_fuel k n) ≤ m)%nat.
Proof.
  revert n m. induction k as [|k IH]; intros n m Hm Hn Hk; cbn [digits_fuel length]; [lia|].
  destruct (Z.ltb_spec n 10); [cbn; lia|]. rewrite length_app. cbn [length].
  rewrite Nat2Z.inj_succ, Z.pow_succ_r in Hk by lia.
  destruct m as [|m]; [lia|]. rewrite Nat2Z.inj_succ, Z.pow_succ_r in Hn by lia.
  destruct m as [|m]; [cbn in Hn; lia|].
  specialize (IH (n / 10) (S m)). assert (length (digits_fuel k (n / 10)) ≤ S m)%nat; [|lia].
  apply IH; [lia| |]; dlia.
Qed.

Lemma digits_length n m : (0 < m)%nat → 0 ≤ n < 10 ^ Z.of_nat m →
  (length (digits n) ≤ m)%nat.
Proof.
  intros Hm Hn. apply digits_fuel_length; [done..|].
  destruct (Z.eq_dec n 0) as [->|]; [cbn; lia|].
  rewrite Z2Nat.id by apply Z.log2_nonneg.
  pose proof (Z.log2_spec n) as [_ H]; [lia|]. rewrite Z.pow_succ_r in H by apply Z.log2_nonneg.
  lia.
Qed.

(** ** Digit characters *)

Lemma to_digit_char d : is_digit d → to_digit (digit_char d) = Some d.
Proof.
  intros Hd. assert (d ∈ [0; 1; 2; 3; 4; 5; 6; 7; 8; 9]) as H.
  { red in Hd. rewrite !elem_of_cons. lia. }
  rewrite !elem_of_cons, elem_of_nil in H. by repeat destruct H as [->|H].
Qed.

Lemma digit_char_ne c d : is_digit d → to_digit c = None → digit_char d ≠ c.
Proof. intros Hd Hc <-. by rewrite to_digit_char in Hc. Qed.

Lemma parse_digit_chars l : Forall is_digit l → mapM to_digit (digit_char <$> l) = Some l.
Proof.
  intros Hl. apply mapM_Some. induction Hl as [|d l Hd Hl IH]; cbn; [constructor|].
  constructor; [by apply to_digit_char|done].
Qed.

Lemma parse_dec_digits l : Forall is_digit l → parse_dec (digit_char <$> l) = Some (dec_val l).
Proof. intros. unfold parse_dec. by rewrite parse_digit_chars. Qed.

Lemma digit_char_zeros n : digit_char <$> replicate n 0 = replicate n zero_char.
Proof. by rewrite fmap_replicate. Qed.

(** ** Trimming and splitting *)

Lemma trim_end_spec c s : ∃ n, s = trim_end c s ++ replicate n c.
Proof.
  induction s as [|x s [n IH]]; [by exists 0%nat|]. cbn [trim_end].
  destruct (trim_end c s) eqn:E.
  - destruct (decide (x = c)) as [->|]; [exists (S n)|exists n]; by rewrite IH at 1.
  - exists n. by rewrite IH at 1.
Qed.

Lemma trim_end_idem c s : trim_end c (trim_end c s) = trim_end c s.
Proof.
  induction s as [|x s IH]; [done|]. cbn [trim_end]. destruct (trim_end c s) eqn:E.
  - destruct (decide (x = c)); [done|]. cbn. by rewrite decide_False.
  - cbn [trim_end] in *. destruct (trim_end c l) eqn:E'.
    + by destruct (decide (a = c)); rewrite ?IH; destruct (decide (x = c)).
    + by rewrite IH.
Qed.

Lemma trim_end_app c s1 s2 :
  trim_end c (s1 ++ s2) =
  match trim_end c s2 with [] => trim_end c s1 | s => s1 ++ s end.
Proof.
  induction s1 as [|x s1 IH]; cbn [app trim_end]; [by destruct (trim_end c s2)|].
  rewrite IH. destruct (trim_end c s2) eqn:E; [done|]. by destruct s1.
Qed.

Lemma trim_end_notin c s : c ∉ s → trim_end c s = s.
Proof.
  induction s as [|x s IH]; [done|]. rewrite not_elem_of_cons. intros [H1 H2].
  cbn [trim_end]. rewrite IH by done. destruct s; [|done]. by rewrite decide_False.
Qed.

Lemma split_once_app c s1 s2 : c ∉ s1 → split_once c (s1 ++ c :: s2) = Some (s1, s2).
Proof.
  induction s1 as [|x s1 IH]; cbn [app split_once]; [by rewrite decide_True|].
  rewrite not_elem_of_cons. intros [H1 H2]. rewrite decide_False by done. by rewrite IH.
Qed.

Lemma split_once_notin c s : c ∉ s → split_once c s = None.
Proof.
  induction s as [|x s IH]; [done|]. rewrite not_elem_of_cons. intros [H1 H2].
  cbn [split_once]. rewrite decide_False by done. by rewrite IH.
Qed.

Lemma find_app c s1 s2 : c ∉ s1 → find c (s1 ++ c :: s2) = Some (length s1).
Proof.
  induction s1 as [|x s1 IH]; cbn [app find]; [by rewrite decide_True|].
  rewrite not_elem_of_cons. intros [H1 H2]. rewrite decide_False by done. by rewrite IH.
Qed.

Lemma find_notin c s : c ∉ s → find c s = None.
Proof.
  induction s as [|x s IH]; [done|]. rewrite not_elem_of_cons. intros [H1 H2].
  cbn [find]. rewrite decide_False by done. by rewrite IH.
Qed.

Lemma notin_digits c l : to_digit c = None → Forall is_digit l → c ∉ digit_char <$> l.
Proof.
  intros Hc Hl (d & -> & Hd)%list_elem_of_fmap.
  rewrite Forall_forall in Hl. by rewrite to_digit_char in Hc by auto.
Qed.

(** Trimming zeros off digits: the digits kept, and how many zeros went. *)
Lemma trim_zeros_digits l : Forall is_digit l →
  ∃ l' n, trim_end zero_char (digit_char <$> l) = digit_char <$> l' ∧
    l = l' ++ replicate n 0 ∧ Forall is_digit l'.
Proof.
  induction 1 as [|d l Hd Hl (l' & n & IH & -> & Hl')]; [by exists [], 0%nat|].
  cbn [fmap list_fmap trim_end]. rewrite IH. destruct l' as [|d' l']; cbn [fmap list_fmap].
  - destruct (decide (digit_char d = zero_char)) as [E|].
    + exists [], (S n). assert (d = 0) as ->; [|done].
      enough (Some d = Some 0) by congruence. rewrite <-to_digit_char, E by done. done.
    + exists [d], n. split; [done|]. split; [done|by constructor].
  - exists (d :: d' :: l'), n. split; [done|]. split; [done|by constructor].
Qed.
