(* ===== verification/UintDiv.v ===== *)
(** * 512-bit division and [checked_mul_div] (crates/core/src/uint.rs:34-288)

    [Uint::checked_mul_div] multiplies into eight words and divides by Knuth's
    algorithm D.  The word-level primitives it calls ([div_mod_word],
    [full_mul_u64], [add_slice], [sub_slice], the full multiplication) are
    generated by the [uint] crate's macro: they are the interface [UintKernel],
    with what they do as [KernelLaws].  Everything the repository itself writes is a
    definition here, every index and slice checked: [None] is a panic. *)

From S2P Require Import Prelude Words Uint.

Class UintKernel : Type := {
  full_mul : Uint → Uint → list Z;
  full_mul_u64 : Uint → Z → list Z;
  div_mod_word : Z → Z → Z → Z * Z;
  split_u128 : Z → Z * Z;
  add_slice : list Z → list Z → list Z * bool;
  sub_slice : list Z → list Z → list Z * bool;
  words_of : Z → Z
}.

Class KernelLaws (K : UintKernel) : Prop := {
  full_mul_law a b : wf_uint a → wf_uint b → full_mul a b = to_words 8 (val a * val b);
  full_mul_u64_law a q : wf_uint a → is_u64 q → full_mul_u64 a q = to_words 5 (val a * q);
  div_mod_word_law hi lo y : is_u64 hi → is_u64 lo → is_u64 y → hi < y →
    div_mod_word hi lo y = ((hi * B64 + lo) / y, (hi * B64 + lo) mod y);
  split_u128_law x : 0 ≤ x < 2 ^ 128 → split_u128 x = (x / B64, x mod B64);
  add_slice_law a b : wf_words a → wf_words b → (length b ≤ length a)%nat →
    let s := le_val (take (length b) a) + le_val b in
    add_slice a b = (to_words (length b) s ++ drop (length b) a,
                     2 ^ (64 * Z.of_nat (length b)) <=? s);
  sub_slice_law a b : wf_words a → wf_words b → (length b ≤ length a)%nat →
    let s := le_val (take (length b) a) - le_val b in
    sub_slice a b = (to_words (length b) s ++ drop (length b) a, s <? 0);
  words_of_law b : 0 < b → words_of b = (b + 63) / 64
}.

#[export] Instance kernel_ref : UintKernel := {
  full_mul a b := to_words 8 (val a * val b);
  full_mul_u64 a q := to_words 5 (val a * q);
  div_mod_word hi lo y := ((hi * B64 + lo) / y, (hi * B64 + lo) mod y);
  split_u128 x := (x / B64, x mod B64);
  add_slice a b :=
    let s := le_val (take (length b) a) + le_val b in
    (to_words (length b) s ++ drop (length b) a, 2 ^ (64 * Z.of_nat (length b)) <=? s);
  sub_slice a b :=
    let s := le_val (take (length b) a) - le_val b in
    (to_words (length b) s ++ drop (length b) a, s <? 0);
  words_of b := (b + 63) / 64
}.

#[export] Instance kernel_ref_laws : KernelLaws kernel_ref.
Proof. constructor; done. Qed.

Module Div512.
Section ops.
Context {U : UintApi} {K : UintKernel}.

(** [bits_512]: scan from the most significant word down. *)
Fixpoint bits_512_loop (arr : list Z) (idxs : list nat) : option Z :=
  match idxs with
  | [] => w ← arr !! O; Some (64 - leading_zeros w)
  | i :: idxs =>
      w ← arr !! (length arr - i)%nat;
      if 0 <? w
      then Some (64 * (Z.of_nat (length arr) - Z.of_nat i + 1) - leading_zeros w)
      else bits_512_loop arr idxs
  end.

Definition bits_512 (arr : list Z) : option Z :=
  bits_512_loop arr (seq 1 (length arr - 1)).

(** [div_mod_small_512]: schoolbook division by one word, most significant
    word first. *)
Definition div_mod_small_512 (slf : list Z) (other : Z) : list Z * Uint :=
  let '(ds, rem) :=
    foldr (λ d '(ds, rem), let '(q, r) := div_mod_word rem d other in (q :: ds, r))
      ([], 0) slf in
  (ds, uint_from rem).

Definition shr_512 (original : list Z) (shift : nat) : option (list Z) :=
  let word_shift := (shift / 64)%nat in
  let bit_shift := Z.of_nat (shift mod 64) in
  ret ← for_range word_shift (length original)
    (λ i ret, o ← original !! i; assign (i - word_shift) (Z.shiftr o bit_shift) ret)
    (replicate 8 0);
  if 0 <? bit_shift then
    for_range (word_shift + 1) (length original)
      (λ i ret,
        o ← original !! i;
        r ← ret !! (i - word_shift - 1)%nat;
        x ← chk 64 (r + Z.shiftl o (64 - bit_shift) mod B64);
        assign (i - word_shift - 1) x ret) ret
  else Some ret.

Definition full_shl_512 (slf : list Z) (shift : nat) : option (list Z) :=
  s0 ← slf !! O;
  let u_lo := Z.shiftl s0 (Z.of_nat shift) mod B64 in
  u_hi ← shr_512 slf (64 - shift);
  Some (u_lo :: u_hi).

Definition full_shr_512 (u : list Z) (shift : nat) : option (list Z) :=
  res ← for_range 0 8
    (λ i res, x ← u !! i; assign i (Z.shiftr x (Z.of_nat shift)) res) (replicate 8 0);
  if (0 <? Z.of_nat shift) then
    for_range 1 9
      (λ i res,
        x ← u !! i;
        r ← res !! (i - 1)%nat;
        assign (i - 1) (Z.lor r (Z.shiftl x (64 - Z.of_nat shift) mod B64)) res) res
  else Some res.

(** The correction loop of step D3; it ends within three rounds
    ([q_hat_loop_spec]). *)
Fixpoint q_hat_loop (fuel : nat) (v_n_1 v_n_2 u2 q_hat r_hat : Z) : option Z :=
  match fuel with
  | O => None
  | S fuel =>
      let '(hi, lo) := split_u128 (q_hat * v_n_2) in
      if (hi <? r_hat) || ((hi =? r_hat) && (lo <=? u2)) then Some q_hat
      else
        q_hat ← chk 64 (q_hat - 1);
        let new_r_hat := (r_hat + v_n_1) mod B64 in
        let overflow := B64 <=? r_hat + v_n_1 in
        if overflow then Some q_hat
        else q_hat_loop fuel v_n_1 v_n_2 u2 q_hat new_r_hat
  end.

(** Steps D3-D6 for digit [j]. *)
Definition knuth_step (v : Uint) (n : nat) (v_n_1 v_n_2 : Z) (j : nat)
    (uq : list Z * list Z) : option (list Z * list Z) :=
  let '(u, q) := uq in
  u_jn ← u !! (j + n)%nat;
  q_hat ←
    (if u_jn <? v_n_1 then
       u1 ← u !! (j + n - 1)%nat;
       u2 ← u !! (j + n - 2)%nat;
       let '(q_hat, r_hat) := div_mod_word u_jn u1 v_n_1 in
       q_hat_loop 3 v_n_1 v_n_2 u2 q_hat r_hat
     else Some u64_max);
  let q_hat_v := full_mul_u64 v q_hat in
  uj ← slice_from j u;
  qv ← slice_to (n + 1) q_hat_v;
  let '(t, c) := sub_slice uj qv in
  let u := take j u ++ t in
  '(u, q_hat) ←
    (if (c : bool) then
       q_hat ← chk 64 (q_hat - 1);
       uj ← slice_from j u;
       vn ← slice_to n (words v);
       let '(t, c) := add_slice uj vn in
       let u := take j u ++ t in
       x ← u !! (j + n)%nat;
       u ← assign (j + n) ((x + Z.b2z c) mod B64) u;
       Some (u, q_hat)
     else Some (u, q_hat));
  q ← assign j q_hat q;
  Some (u, q).

Definition div_mod_knuth_512 (slf : list Z) (v : Uint) (n m : nat) :
    option (list Z * Uint) :=
  vtop ← words v !! (n - 1)%nat;
  let shift := leading_zeros vtop in
  let v := shl v shift in
  u ← full_shl_512 slf (Z.to_nat shift);
  v_n_1 ← words v !! (n - 1)%nat;
  v_n_2 ← words v !! (n - 2)%nat;
  '(u, q) ← for_list (knuth_step v n v_n_1 v_n_2) (rev (seq 0 (S m))) (u, replicate 8 0);
  remainder ← full_shr_512 u (Z.to_nat shift);
  Some (q, mk_uint (take 4 remainder)).

Definition div_mod_512 (slf : list Z) (other : Uint) : option (list Z * Uint) :=
  my_bits ← bits_512 slf;
  let your_bits := bits other in
  if your_bits =? 0 then None
  else if my_bits <? your_bits then Some (replicate 8 0, mk_uint (take 4 slf))
  else if your_bits <=? 64 then Some (div_mod_small_512 slf (low_u64 other))
  else
    let my_words := words_of my_bits in
    let your_words := words_of your_bits in
    m ← chk 64 (my_words - your_words);
    div_mod_knuth_512 slf other (Z.to_nat your_words) (Z.to_nat m).

Definition checked_mul_div (a num denom : Uint) : option (Uint * Uint) :=
  if UintM.is_zero denom then None
  else
    let prod := full_mul a num in
    '(quotient, remainder) ← div_mod_512 prod denom;
    if existsb (λ w, negb (w =? 0)) (drop 4 quotient) then None
    else Some (mk_uint (take 4 quotient), remainder).

(** [Uint::fixed_precision_div]. *)
Definition fixed_precision_div (a rhs : Uint) (denom : Z) : option Uint :=
  fst <$> (res ← checked_pow (uint_from 10) (uint_from denom);
           checked_mul_div res a rhs).

End ops.
End Div512.

Example div512_example :
  Div512.checked_mul_div (of_val (2 ^ 250 + 12345)) (of_val (2 ^ 249 + 77)) (of_val (2 ^ 251 - 9))
  = Some (of_val ((2 ^ 250 + 12345) * (2 ^ 249 + 77) / (2 ^ 251 - 9)),
          of_val (((2 ^ 250 + 12345) * (2 ^ 249 + 77)) mod (2 ^ 251 - 9))).
Proof. vm_compute. reflexivity. Qed.
