(* ===== verification/KnuthD.v ===== *)
(** * Correctness of the 512-bit division

    The arithmetic of Knuth's algorithm D on integers, then the word-level
    definitions of UintDiv.v against it.  The main results: [div_mod_512]
    returns quotient and remainder for every non-zero divisor, and
    [checked_mul_div] is [(a * num / denom, a * num mod denom)] when the
    quotient fits 256 bits and [None] otherwise. *)

From S2P Require Import Prelude Words Uint UintDiv.

(** ** Shifts of word arrays *)

Fixpoint shr_words (b : Z) (l : list Z) : list Z :=
  match l with
  | [] => []
  | x :: l' =>
      (Z.shiftr x b + Z.shiftl (match l' with y :: _ => y | [] => 0 end) (64 - b) mod B64)
        :: shr_words b l'
  end.

Lemma shl_mod_word y b :
  0 < b < 64 → Z.shiftl y (64 - b) mod B64 = 2 ^ (64 - b) * (y mod 2 ^ b).
Proof.
  intros. rewrite Z.shiftl_mul_pow2 by lia.
  replace B64 with (2 ^ (64 - b) * 2 ^ b) by (rewrite <-Z.pow_add_r by lia; f_equal; lia).
  rewrite (Z.mul_comm y), Z.mul_mod_distr_l by lia. done.
Qed.

Lemma pow64_split b : 0 ≤ b ≤ 64 → B64 = 2 ^ b * 2 ^ (64 - b).
Proof. intros. rewrite <-Z.pow_add_r by lia. f_equal. lia. Qed.

Lemma shr_word_bound x b : 0 < b < 64 → is_u64 x → 0 ≤ Z.shiftr x b < 2 ^ (64 - b).
Proof.
  intros Hb [H0 H1]. rewrite Z.shiftr_div_pow2 by lia. split.
  - apply Z.div_pos; lia.
  - apply Z.div_lt_upper_bound; [lia|]. rewrite <-pow64_split by lia. lia.
Qed.

Lemma shr_combine_bound x y b :
  0 < b < 64 → is_u64 x →
  is_u64 (Z.shiftr x b + Z.shiftl y (64 - b) mod B64).
Proof.
  intros Hb Hx. pose proof (shr_word_bound x b Hb Hx). rewrite shl_mod_word by done.
  pose proof (Z.mod_pos_bound y (2 ^ b)). pose proof (pow64_split b).
  unfold is_u64. nia.
Qed.

Lemma shr_combine_lor x y b :
  0 < b < 64 → is_u64 x →
  Z.lor (Z.shiftr x b) (Z.shiftl y (64 - b) mod B64)
  = Z.shiftr x b + Z.shiftl y (64 - b) mod B64.
Proof.
  intros Hb Hx. pose proof (shr_word_bound x b Hb Hx) as Hs.
  rewrite shl_mod_word by done. set (c := y mod 2 ^ b). set (a := Z.shiftr x b) in *.
  assert (Hdis : Z.land a (2 ^ (64 - b) * c) = 0).
  { apply Z.bits_inj'. intros n Hn. rewrite Z.land_spec, Z.bits_0.
    destruct (Z.ltb_spec n (64 - b)).
    - rewrite Z.mul_comm, Z.mul_pow2_bits_low by lia. by rewrite andb_false_r.
    - destruct (decide (a = 0)) as [->|]; [by rewrite Z.bits_0|].
      rewrite (Z.bits_above_log2 a n); [done|lia|].
      apply Z.log2_lt_pow2; [lia|].
      assert (2 ^ (64 - b) ≤ 2 ^ n) by (apply Z.pow_le_mono_r; lia). lia. }
  rewrite <-Z.lxor_lor by done. by rewrite Z.add_nocarry_lxor.
Qed.

Lemma shr_words_wf b l : 0 < b < 64 → wf_words l → wf_words (shr_words b l).
Proof.
  intros Hb. induction 1; cbn [shr_words]; constructor; [|done].
  by apply shr_combine_bound.
Qed.

Lemma shr_words_length b l : length (shr_words b l) = length l.
Proof. induction l; simpl; auto. Qed.

Lemma le_val_shr_words b l :
  0 < b < 64 → wf_words l → le_val (shr_words b l) = le_val l / 2 ^ b.
Proof.
  intros Hb. induction 1 as [|x l Hx Hl IH]; [by rewrite Z.div_0_l by lia|].
  cbn [shr_words]. rewrite !le_val_cons, IH, shl_mod_word, Z.shiftr_div_pow2 by lia.
  assert (Hhd : (match l with y :: _ => y | [] => 0 end) mod 2 ^ b = le_val l mod 2 ^ b).
  { destruct Hl as [|y l' Hy Hl']; [done|]. rewrite le_val_cons.
    rewrite (pow64_split b) by lia.
    rewrite <-Z.mul_assoc, (Z.mul_comm (2 ^ b)), Z.mod_add by lia. done. }
  rewrite Hhd. rewrite (pow64_split b) at 2 by lia.
  replace (x + 2 ^ b * 2 ^ (64 - b) * le_val l)
    with (x + (2 ^ (64 - b) * le_val l) * 2 ^ b) by ring.
  rewrite Z.div_add by lia.
  rewrite (Z.div_mod (le_val l) (2 ^ b)) at 3 by lia.
  rewrite (pow64_split b) by lia. ring.
Qed.

Lemma nil8 (l : list Z) : length l = 8%nat →
  ∃ a b c d e f g h, l = [a; b; c; d; e; f; g; h].
Proof. intros H. do 9 (destruct l as [|? l]; try discriminate H). eauto 10. Qed.

Lemma nil9 (l : list Z) : length l = 9%nat →
  ∃ a b c d e f g h i, l = [a; b; c; d; e; f; g; h; i].
Proof. intros H. do 10 (destruct l as [|? l]; try discriminate H). eauto 10. Qed.

Section shifts.
Context {U : UintApi} {K : UintKernel}.

Lemma chk_u64 x : is_u64 x → chk 64 x = Some x.
Proof. intros. by apply chk_in. Qed.

(** Runs the unrolled word loops: assignments in range, sums of one word. *)
Ltac run :=
  repeat (cbn -[Z.shiftr Z.shiftl Z.modulo chk assign Z.of_nat Z.sub Z.add Z.lor];
    first [rewrite assign_Some by (cbn; lia)
          |rewrite chk_u64 by (apply shr_combine_bound; (done || lia))
          |rewrite shr_combine_lor by (done || lia)]).

Lemma shr_512_small l b :
  wf_words l → length l = 8%nat → (0 < b < 64)%nat →
  Div512.shr_512 l b = Some (shr_words (Z.of_nat b) l).
Proof.
  intros Hw Hl Hb. destruct (nil8 l Hl) as (?&?&?&?&?&?&?&?&->).
  unfold wf_words in Hw. rewrite !Forall_cons in Hw. destruct_and!.
  unfold Div512.shr_512. rewrite Nat.div_small, Nat.mod_small by lia.
  destruct (Z.ltb_spec 0 (Z.of_nat b)); [|lia].
  run. rewrite Z.shiftl_0_l, Z.mod_0_l, Z.add_0_r by lia. done.
Qed.

Lemma shr_512_word l : length l = 8%nat → Div512.shr_512 l 64 = Some (drop 1 l ++ [0]).
Proof.
  intros Hl. destruct (nil8 l Hl) as (?&?&?&?&?&?&?&?&->).
  unfold Div512.shr_512. change (64 / 64)%nat with 1%nat. change (64 mod 64)%nat with 0%nat.
  run. by rewrite !Z.shiftr_0_r.
Qed.

Lemma full_shl_512_spec l s :
  wf_words l → length l = 8%nat → (s < 64)%nat →
  ∃ u, Div512.full_shl_512 l s = Some u ∧ wf_words u ∧ length u = 9%nat ∧
       le_val u = le_val l * 2 ^ Z.of_nat s.
Proof.
  intros Hw Hl Hs. destruct l as [|x l]; [done|]. pose proof Hw as [Hx Hwl]%Forall_cons.
  unfold Div512.full_shl_512. cbn [lookup list_lookup mbind option_bind].
  destruct s as [|s].
  - rewrite shr_512_word by done. cbn [mbind option_bind drop].
    eexists. split; [done|].
    rewrite Z.shiftl_0_r, Z.mod_small by (unfold is_u64 in Hx; lia).
    split_and!.
    + constructor; [done|]. apply Forall_app. split; [done|]. repeat constructor; unfold is_u64; lia.
    + injection Hl as Hl. cbn [length]. rewrite drop_0, length_app. simpl. lia.
    + rewrite drop_0, !le_val_cons, le_val_app. simpl. lia.
  - replace (64 - S s)%nat with (63 - s)%nat by lia.
    rewrite shr_512_small by (done || lia). cbn [mbind option_bind].
    eexists. split; [done|]. set (b := Z.of_nat (63 - s)). assert (0 < b < 64) by lia.
    replace (Z.of_nat (S s)) with (64 - b) by lia.
    split_and!.
    + constructor; [|by apply shr_words_wf]. unfold is_u64. apply Z.mod_pos_bound. lia.
    + cbn [length]. rewrite shr_words_length. lia.
    + rewrite le_val_cons, le_val_shr_words, shl_mod_word by done.
      assert (Hmod : x mod 2 ^ b = le_val (x :: l) mod 2 ^ b).
      { rewrite le_val_cons, (pow64_split b), <-Z.mul_assoc by lia.
        by rewrite (Z.mul_comm (2 ^ b)), Z.mod_add by lia. }
      rewrite Hmod. rewrite (Z.div_mod (le_val (x :: l)) (2 ^ b)) at 3 by lia.
      rewrite (pow64_split b) by lia. ring.
Qed.

Lemma full_shr_512_spec u s :
  wf_words u → length u = 9%nat → (s < 64)%nat →
  ∃ r, Div512.full_shr_512 u s = Some r ∧ wf_words r ∧ length r = 8%nat ∧
       le_val r = le_val u / 2 ^ Z.of_nat s mod 2 ^ 512.
Proof.
  intros Hw Hl Hs. destruct (nil9 u Hl) as (?&?&?&?&?&?&?&?&?&->).
  assert (Htake : ∀ l, wf_words l → length l = 9%nat →
    wf_words (take 8 l) ∧ length (take 8 l) = 8%nat ∧ le_val (take 8 l) = le_val l mod 2 ^ 512).
  { intros l Hwl Hll. split_and!.
    - by apply Forall_take.
    - rewrite length_take. lia.
    - assert (Hlt : length (take 8 l) = 8%nat) by (rewrite length_take; lia).
      rewrite <-(take_drop 8 l) at 2. rewrite le_val_app, Hlt.
      change (64 * Z.of_nat 8) with 512. rewrite Z.mul_comm, Z.mod_add by lia.
      pose proof (le_val_bound (take 8 l)) as Hb. rewrite Hlt in Hb.
      change (64 * Z.of_nat 8) with 512 in Hb.
      rewrite Z.mod_small; [done|]. apply Hb. by apply Forall_take. }
  unfold Div512.full_shr_512. destruct s as [|s].
  - destruct (Htake _ Hw Hl) as (?&?&Hv). eexists. split; [run; done|].
    rewrite !Z.shiftr_0_r. split_and!; [done..|]. by rewrite Z.div_1_r.
  - assert (0 < Z.of_nat (S s) < 64) by lia.
    destruct (Htake (shr_words (Z.of_nat (S s)) [x;x0;x1;x2;x3;x4;x5;x6;x7]))
      as (?&?&Hv); [by apply shr_words_wf|done|].
    rewrite le_val_shr_words in Hv by done.
    unfold wf_words in Hw. rewrite !Forall_cons in Hw. destruct_and!.
    destruct (Z.ltb_spec 0 (Z.of_nat (S s))); [|lia].
    eexists. split; [run; done|]. done.
Qed.
End shifts.

(** ** The quotient digit estimate (Knuth, TAOCP vol. 2, 4.3.1)

    [v] is the normalised divisor [V2 * P + vl] with leading digits
    [V2 = v1 * B + v2]; [W = U3 * P + wl] is the window of the dividend, with
    leading digits [un], [u1], [u2]; [q] is the digit sought. *)
Section estimate.
Context (B P v1 v2 vl un u1 u2 wl q : Z).
Let V2 := v1 * B + v2.
Let U3 := (un * B + u1) * B + u2.
Let V := V2 * P + vl.
Let W := U3 * P + wl.
Context (HB : 2 ≤ B) (HP : 0 < P).
Context (Hv1 : B ≤ 2 * v1) (Hv1B : v1 < B) (Hv2 : 0 ≤ v2 < B) (Hvl : 0 ≤ vl < P).
Context (Hun : 0 ≤ un) (Hu1 : 0 ≤ u1 < B) (Hu2 : 0 ≤ u2 < B) (Hwl : 0 ≤ wl < P).
Context (Hq0 : 0 ≤ q) (HqB : q < B) (Hq : q * V ≤ W < (q + 1) * V).

Lemma digit_le_top : q * V2 ≤ U3.
Proof using All.
  assert (q * V2 * P ≤ q * V) by (unfold V; nia).
  assert (W < (U3 + 1) * P) by (unfold W; nia). nia.
Qed.

Lemma estimate_init : q ≤ (un * B + u1) / v1.
Proof using All.
  pose proof digit_le_top as H. apply Z.div_le_lower_bound; [lia|].
  unfold V2, U3 in H. assert (q * v1 * B < (un * B + u1 + 1) * B) by nia. nia.
Qed.

Lemma estimate_dec q_hat : U3 < q_hat * V2 → q < q_hat.
Proof using All.
  intros H. pose proof digit_le_top. assert (0 < V2) by (unfold V2; nia). nia.
Qed.

Lemma estimate_upper q_hat : q_hat ≤ B → q_hat * V2 ≤ U3 → q_hat ≤ q + 1.
Proof using All.
  intros HqhB H. destruct (Z.le_gt_cases q_hat (q + 1)); [done|exfalso].
  assert (HV2 : B ≤ V2) by (unfold V2; nia).
  assert (Hw1 : q_hat * V2 * P ≤ W) by (unfold W; nia).
  assert (Hw2 : W < (q_hat - 1) * V) by (assert (0 < V) by (unfold V; nia); nia).
  assert (Hw3 : (q_hat - 1) * V ≤ (q_hat - 1) * ((V2 + 1) * P)) by (unfold V; nia).
  assert (q_hat * V2 < (q_hat - 1) * (V2 + 1)) by nia. nia.
Qed.

Lemma estimate_max : v1 ≤ un → B - 1 ≤ q + 1.
Proof using All.
  intros H. destruct (Z.le_gt_cases (B - 1) (q + 1)); [done|exfalso].
  assert (HV : 0 < V ∧ V ≤ (v1 + 1) * (B * P)) by (unfold V, V2; nia).
  assert (HW : v1 * B * (B * P) ≤ W).
  { unfold W, U3. assert (v1 * B * B ≤ (un * B + u1) * B + u2) by nia. nia. }
  assert (W < (B - 2) * V) by nia.
  assert ((B - 2) * V ≤ (B - 2) * ((v1 + 1) * (B * P))) by nia.
  assert (0 < B * P) by nia. nia.
Qed.

Lemma estimate_test q_hat r_hat :
  r_hat + q_hat * v1 = un * B + u1 →
  (q_hat * v2 ≤ r_hat * B + u2 ↔ q_hat * V2 ≤ U3).
Proof using Type. intros H. subst V2 U3. cbv zeta. rewrite <-H. clear. nia. Qed.

End estimate.

Lemma pair_le_spec x r u2 :
  0 ≤ u2 < B64 →
  ((x / B64 <? r) || ((x / B64 =? r) && (x mod B64 <=? u2))) = true ↔ x ≤ r * B64 + u2.
Proof.
  intros Hu. pose proof (Z.div_mod x B64 ltac:(lia)). pose proof (Z.mod_pos_bound x B64 ltac:(lia)).
  rewrite orb_true_iff, andb_true_iff, Z.ltb_lt, Z.eqb_eq, Z.leb_le. nia.
Qed.

Section step.
Context {U : UintApi} {L : UintLaws U} {K : UintKernel} {KL : KernelLaws K}.

Lemma q_hat_loop_spec P v1 v2 vl un u1 u2 wl q fuel q_hat r_hat :
  let V := (v1 * B64 + v2) * P + vl in
  let W := ((un * B64 + u1) * B64 + u2) * P + wl in
  0 < P → B64 ≤ 2 * v1 → v1 < B64 → is_u64 v2 → 0 ≤ vl < P →
  0 ≤ un → is_u64 u1 → is_u64 u2 → 0 ≤ wl < P →
  0 ≤ q < B64 → q * V ≤ W < (q + 1) * V →
  r_hat + q_hat * v1 = un * B64 + u1 → is_u64 r_hat → q ≤ q_hat → q_hat < B64 →
  B64 ≤ r_hat + Z.of_nat fuel * v1 →
  ∃ q', Div512.q_hat_loop fuel v1 v2 u2 q_hat r_hat = Some q' ∧ q ≤ q' ≤ q + 1 ∧ q' < B64.
Proof.
  intros V W HP Hv1 Hv1B Hv2 Hvl Hun Hu1 Hu2 Hwl Hq HqV.
  revert q_hat r_hat. induction fuel as [|fuel IH]; intros q_hat r_hat Hr Hru Hqq HqhB Hf.
  { unfold is_u64 in Hru. lia. }
  unfold is_u64 in *. cbn [Div512.q_hat_loop].
  assert (Hprod : 0 ≤ q_hat * v2 < 2 ^ 128).
  { split; [nia|]. change (2 ^ 128) with (B64 * B64). nia. }
  rewrite split_u128_law by done.
  pose proof (pair_le_spec (q_hat * v2) r_hat u2 Hu2) as Htest.
  rewrite (estimate_test B64 v1 v2 un u1 u2 _ _ Hr) in Htest.
  destruct (_ || _) eqn:E.
  - exists q_hat. split; [done|]. split; [|done]. split; [done|].
    apply (estimate_upper B64 P v1 v2 vl un u1 u2 wl); try done; try lia.
  - assert (Hgt : (un * B64 + u1) * B64 + u2 < q_hat * (v1 * B64 + v2)).
    { destruct (Z.lt_ge_cases ((un * B64 + u1) * B64 + u2) (q_hat * (v1 * B64 + v2)));
        [done|]. apply Htest in H. congruence. }
    assert (q < q_hat)
      by (apply (estimate_dec B64 P v1 v2 vl un u1 u2 wl); (done || lia)).
    rewrite chk_in by lia. cbn [mbind option_bind].
    assert (Hr' : r_hat + v1 + (q_hat - 1) * v1 = un * B64 + u1) by lia.
    destruct (Z.leb_spec B64 (r_hat + v1)) as [Hov|Hov].
    + exists (q_hat - 1). split; [done|]. split; [|lia]. split; [lia|].
      apply (estimate_upper B64 P v1 v2 vl un u1 u2 wl); try done; try lia.
    + rewrite Z.mod_small by lia. apply IH; lia.
Qed.

Abbreviation PW n := (2 ^ (64 * Z.of_nat n)).

Lemma PW_S n : PW (S n) = B64 * PW n.
Proof. apply pow_words. Qed.

Lemma PW_pos n : 0 < PW n.
Proof. lia. Qed.

Lemma le_val_take_drop k l :
  (k ≤ length l)%nat → le_val l = le_val (take k l) + PW k * le_val (drop k l).
Proof.
  intros Hk. rewrite <-(take_drop k l) at 1. rewrite le_val_app, length_take.
  by rewrite Nat.min_l.
Qed.

Lemma wf_lookup l i w : wf_words l → l !! i = Some w → is_u64 w.
Proof. intros Hw Hi. by eapply Forall_lookup_1. Qed.

(** The three digits of a window above its low [k] words. *)
Lemma le_val_top3 k t x2 x1 xn :
  t !! k = Some x2 → t !! S k = Some x1 → t !! S (S k) = Some xn →
  le_val t = ((xn * B64 + x1) * B64 + x2) * PW k + le_val (take k t)
             + PW (k + 3) * le_val (drop (k + 3) t).
Proof.
  intros H2 H1 Hn. assert (k < length t)%nat by (eapply lookup_lt_Some; done).
  rewrite (le_val_take_drop k t) by lia.
  rewrite (drop_S _ _ _ H2), (drop_S _ _ _ H1), (drop_S _ _ _ Hn), !le_val_cons.
  replace (k + 3)%nat with (S (S (S k))) by lia. rewrite !PW_S. ring.
Qed.

Lemma le_val_top2 k t x2 x1 :
  t !! k = Some x2 → t !! S k = Some x1 →
  le_val t = (x1 * B64 + x2) * PW k + le_val (take k t)
             + PW (k + 2) * le_val (drop (k + 2) t).
Proof.
  intros H2 H1. assert (k < length t)%nat by (eapply lookup_lt_Some; done).
  rewrite (le_val_take_drop k t) by lia.
  rewrite (drop_S _ _ _ H2), (drop_S _ _ _ H1), !le_val_cons.
  replace (k + 2)%nat with (S (S k)) by lia. rewrite !PW_S. ring.
Qed.

Lemma le_val_take_bound k l :
  wf_words l → (k ≤ length l)%nat → 0 ≤ le_val (take k l) < PW k.
Proof.
  intros Hw Hk. pose proof (le_val_bound (take k l)) as H.
  rewrite length_take, Nat.min_l in H by done. apply H. by apply Forall_take.
Qed.

(** A number below [PW k] has no words from [k] up. *)
Lemma le_val_drop_zero k l :
  wf_words l → (k ≤ length l)%nat → le_val l < PW k → le_val (drop k l) = 0.
Proof.
  intros Hw Hk Hlt. rewrite (le_val_take_drop k l) in Hlt by done.
  pose proof (le_val_take_bound k l Hw Hk).
  pose proof (le_val_bound (drop k l) ltac:(by apply Forall_drop)).
  pose proof (PW_pos k). nia.
Qed.

(** Step D6: adding the divisor back into the low [n] words and the carry into
    word [n] adds it modulo [PW (n + 1)]. *)
Lemma add_back_spec n a b :
  wf_words a → wf_words b → length b = n → (n < length a)%nat →
  ∃ t c x, add_slice a b = (t, c) ∧ t !! n = Some x ∧ length t = length a ∧
    let r := <[n := (x + Z.b2z c) mod B64]> t in
    wf_words r ∧ length r = length a ∧ drop (S n) r = drop (S n) a ∧
    le_val (take (S n) r) = (le_val (take (S n) a) + le_val b) mod PW (S n).
Proof.
  intros Hwa Hwb Hn Hlt. destruct (lookup_lt_is_Some_2 a n) as [x Hx]; [done|].
  pose proof (add_slice_law a b Hwa Hwb ltac:(lia)) as Hadd. cbv zeta in Hadd.
  rewrite Hn in Hadd. set (s := le_val (take n a) + le_val b) in *.
  assert (Htl : length (to_words n s) = n) by apply to_words_length.
  assert (Hlen : length (to_words n s ++ drop n a) = length a).
  { rewrite length_app, length_drop, Htl. lia. }
  do 3 eexists. split_and!; [exact Hadd| |done|].
  { rewrite lookup_app_r, Htl, Nat.sub_diag, lookup_drop, Nat.add_0_r by lia. done. }
  cbv zeta. set (c := PW n <=? s).
  pose proof (wf_lookup _ _ _ Hwa Hx) as Hxu.
  assert (Hr : <[n := (x + Z.b2z c) mod B64]> (to_words n s ++ drop n a)
    = to_words n s ++ (x + Z.b2z c) mod B64 :: drop (S n) a).
  { rewrite (drop_S _ _ _ Hx). rewrite insert_app_r_alt, Htl, Nat.sub_diag by lia. done. }
  rewrite Hr. split_and!.
  - apply Forall_app. split; [apply to_words_wf|]. constructor; [|by apply Forall_drop].
    unfold is_u64. apply Z.mod_pos_bound. lia.
  - rewrite <-Hr, length_insert. done.
  - replace (S n) with (length (to_words n s) + 1)%nat at 1 by lia.
    by rewrite drop_app_add.
  - rewrite (cons_middle _ (to_words n s)), app_assoc.
    rewrite (take_app_length' (to_words n s ++ [_])) by (rewrite length_app; simpl; lia).
    rewrite le_val_app, Htl, le_val_to_words, (take_S_r _ _ _ Hx), le_val_app.
    rewrite length_take, Nat.min_l by lia. cbn [le_val foldr]. rewrite Z.mul_0_r, !Z.add_0_r.
    pose proof (le_val_take_bound n a Hwa ltac:(lia)).
    pose proof (le_val_bound b Hwb) as Hb. rewrite Hn in Hb. pose proof (PW_pos n).
    assert (Hs : s = s mod PW n + PW n * Z.b2z c).
    { unfold c. destruct (Z.leb_spec (PW n) s) as [Hge|Hlt']; simpl.
      - assert (Hm : s mod PW n = s - PW n) by (symmetry; apply (Z.mod_unique s (PW n) 1); lia). lia.
      - rewrite Z.mod_small; lia. }
    rewrite PW_S. rewrite (Z.mul_comm B64), Z.rem_mul_r by lia.
    assert (Hq : le_val (take n a) + PW n * x + le_val b = s mod PW n + PW n * (x + Z.b2z c)).
    { fold s in Hs. unfold s in *. lia. }
    rewrite Hq. f_equal.
    + rewrite (Z.mul_comm (PW n)), Z.mod_add, Z.mod_mod by lia. done.
    + f_equal. rewrite (Z.mul_comm (PW n)), Z.div_add by lia.
      rewrite (Z.div_small (s mod PW n)); [by rewrite Z.add_0_l|]. apply Z.mod_pos_bound. lia.
Qed.

(** ** One digit *)

(** The normalised divisor: [k + 2] significant words, top bit set. *)
Record normal (v : Uint) (k : nat) (v1 v2 : Z) : Prop := {
  normal_wf : wf_uint v;
  normal_k : (k ≤ 2)%nat;
  normal_v1 : words v !! S k = Some v1;
  normal_v2 : words v !! k = Some v2;
  normal_top : B64 ≤ 2 * v1;
  normal_lt : val v < PW (k + 2)
}.

Lemma normal_split v k v1 v2 :
  normal v k v1 v2 →
  ∃ vl, 0 ≤ vl < PW k ∧ val v = (v1 * B64 + v2) * PW k + vl ∧
    le_val (take (k + 2) (words v)) = val v ∧ is_u64 v1 ∧ is_u64 v2.
Proof.
  intros [[Hw Hl] Hk H1 H2 Ht Hlt]. exists (le_val (take k (words v))).
  assert (Hz : le_val (drop (k + 2) (words v)) = 0)
    by (apply le_val_drop_zero; [done|lia|done]).
  split_and!.
  - apply le_val_take_bound; [done|lia].
  - apply le_val_take_bound; [done|lia].
  - unfold val. rewrite (le_val_top2 k _ _ _ H2 H1), Hz. lia.
  - unfold val. rewrite (le_val_take_drop (k + 2) (words v)), Hz by lia. lia.
  - by eapply wf_lookup.
  - by eapply wf_lookup.
Qed.

(** Step D3: the estimate is the digit or one more. *)
Lemma q_hat_spec v k v1 v2 t un :
  normal v k v1 v2 → wf_words t → t !! (k + 2)%nat = Some un →
  le_val (drop (k + 3) t) = 0 → le_val t < val v * B64 →
  ∃ q_hat,
    (if un <? v1 then
       u1 ← t !! (k + 2 - 1)%nat;
       u2 ← t !! (k + 2 - 2)%nat;
       let '(q_hat, r_hat) := div_mod_word un u1 v1 in
       Div512.q_hat_loop 3 v1 v2 u2 q_hat r_hat
     else Some u64_max) = Some q_hat ∧
    le_val t / val v ≤ q_hat ≤ le_val t / val v + 1 ∧ q_hat < B64.
Proof.
  intros Hn Hwt Hun Hz Hlt. pose proof (normal_split _ _ _ _ Hn) as (vl&Hvl&Hv&_&Hv1&Hv2).
  destruct Hn as [_ Hk _ _ Htop _].
  assert (Hlen : (k + 2 < length t)%nat) by (eapply lookup_lt_Some; done).
  destruct (lookup_lt_is_Some_2 t k) as [u2 Hu2]; [lia|].
  destruct (lookup_lt_is_Some_2 t (S k)) as [u1 Hu1]; [lia|].
  replace (k + 2)%nat with (S (S k)) in Hun by lia.
  pose proof (le_val_top3 k t _ _ _ Hu2 Hu1 Hun) as Ht. rewrite Hz, Z.mul_0_r, Z.add_0_r in Ht.
  pose proof (le_val_take_bound k t Hwt ltac:(lia)) as Hwl.
  pose proof (wf_lookup _ _ _ Hwt Hun) as Huun. pose proof (wf_lookup _ _ _ Hwt Hu1) as Huu1.
  pose proof (wf_lookup _ _ _ Hwt Hu2) as Huu2.
  pose proof (PW_pos k) as HP. unfold is_u64 in Hv1, Hv2, Huun, Huu1, Huu2.
  assert (HV : 0 < val v) by (rewrite Hv; nia).
  assert (Ht0 : 0 ≤ le_val t) by (apply le_val_bound; done).
  set (q := le_val t / val v).
  assert (Hq : 0 ≤ q < B64).
  { split; [apply Z.div_pos; lia|apply Z.div_lt_upper_bound; lia]. }
  assert (HqV : q * val v ≤ le_val t < (q + 1) * val v).
  { pose proof (Z.div_mod (le_val t) (val v)). pose proof (Z.mod_pos_bound (le_val t) (val v)).
    fold q in H. nia. }
  rewrite Hv, Ht in HqV. destruct (Z.ltb_spec un v1) as [Hlt1|Hge].
  - replace (k + 2 - 1)%nat with (S k) by lia. replace (k + 2 - 2)%nat with k by lia.
    rewrite Hu1, Hu2. cbn [mbind option_bind].
    rewrite div_mod_word_law by (unfold is_u64; lia).
    pose proof (Z.div_mod (un * B64 + u1) v1 ltac:(lia)) as Hdm.
    pose proof (Z.mod_pos_bound (un * B64 + u1) v1 ltac:(lia)) as Hr.
    destruct (q_hat_loop_spec (PW k) v1 v2 vl un u1 u2 (le_val (take k t)) q 3
      ((un * B64 + u1) / v1) ((un * B64 + u1) mod v1)) as (q'&?&?&?);
      try done; try lia; try (unfold is_u64; lia).
    + apply (estimate_init B64 (PW k) v1 v2 vl un u1 u2 (le_val (take k t)) q); (done || lia).
    + apply Z.div_lt_upper_bound; [lia|]. nia.
    + by exists q'.
  - exists u64_max. split; [done|]. split; [|lia]. split; [lia|].
    apply (estimate_max B64 (PW k) v1 v2 vl un u1 u2 (le_val (take k t)) q); (done || lia).
Qed.

Definition step_inv (v : Uint) (U0 : Z) (j : nat) (uq : list Z * list Z) : Prop :=
  let '(u, q) := uq in
  wf_words u ∧ length u = 9%nat ∧ wf_words q ∧ length q = 8%nat ∧
  le_val u + val v * le_val q = U0 ∧ le_val (drop j u) < val v ∧
  (∀ i, (i < j)%nat → (i < 8)%nat → q !! i = Some 0).

(** Replacing the window and setting the digit keeps the invariant. *)
Lemma step_inv_digit v U0 j u q t d :
  step_inv v U0 (S j) (u, q) → (j < 8)%nat → is_u64 d →
  wf_words t → length t = length (drop j u) →
  le_val t = le_val (drop j u) - val v * d → le_val t < val v →
  step_inv v U0 j (take j u ++ t, <[j := d]> q).
Proof.
  intros (Hwu & Hlu & Hwq & Hlq & Hsum & _ & Hz) Hj Hd Hwt Hlt Hv Hlt'.
  rewrite length_drop in Hlt.
  assert (Htk : length (take j u) = j) by (rewrite length_take; lia).
  assert (Hqj : q !! j = Some 0) by (apply Hz; lia).
  split_and!.
  - apply Forall_app. split; [by apply Forall_take|done].
  - rewrite length_app, Htk. lia.
  - auto with namada.
  - by rewrite length_insert.
  - rewrite (le_val_insert _ _ _ _ Hqj), le_val_app, Htk, Hv.
    rewrite (le_val_take_drop j u) in Hsum by lia. lia.
  - by rewrite drop_app_length'.
  - intros i Hi Hi8. rewrite list_lookup_insert_ne by lia. apply Hz; lia.
Qed.

Lemma slice_from_app {A} j (l t : list A) :
  length l = j → slice_from j (l ++ t) = Some t.
Proof.
  intros Hl. unfold slice_from. rewrite decide_True by (rewrite length_app; lia).
  by rewrite drop_app_length'.
Qed.

Lemma slice_from_Some {A} i (l : list A) : (i ≤ length l)%nat → slice_from i l = Some (drop i l).
Proof. intros. unfold slice_from. by rewrite decide_True. Qed.

Lemma slice_to_Some {A} i (l : list A) : (i ≤ length l)%nat → slice_to i l = Some (take i l).
Proof. intros. unfold slice_to. by rewrite decide_True. Qed.

(** Step D4: the subtraction of [q_hat * v] from the window. *)
Lemma sub_window v k v1 v2 t q_hat :
  normal v k v1 v2 → wf_words t → (k + 2 < length t)%nat →
  le_val (drop (k + 3) t) = 0 → is_u64 q_hat →
  ∃ t', slice_to (k + 2 + 1) (full_mul_u64 v q_hat) = Some (take (k + 3) (full_mul_u64 v q_hat)) ∧
    sub_slice t (take (k + 3) (full_mul_u64 v q_hat)) = (t', le_val t <? val v * q_hat) ∧
    wf_words t' ∧ length t' = length t ∧ le_val (drop (k + 3) t') = 0 ∧
    le_val (take (k + 3) t') = (le_val t - val v * q_hat) mod PW (k + 3).
Proof.
  intros [Hwv Hk _ _ _ Hlt] Hwt Hlen Hz Hq. unfold is_u64 in Hq. bound v.
  rewrite full_mul_u64_law by done. set (p := to_words 5 (val v * q_hat)).
  assert (Hlp : length p = 5%nat) by apply to_words_length.
  assert (HPW : PW (k + 3) = B64 * PW (k + 2)).
  { replace (k + 3)%nat with (S (k + 2)) by lia. apply PW_S. }
  assert (Hpv : val v * q_hat < PW (k + 3)) by nia.
  assert (H5 : PW (k + 3) ≤ PW 5) by (apply Z.pow_le_mono_r; lia).
  assert (Hvp : le_val p = val v * q_hat) by (apply le_val_to_words_id; split; [nia|lia]).
  assert (Hwp : wf_words p) by apply to_words_wf.
  assert (Htp : le_val (take (k + 3) p) = val v * q_hat).
  { rewrite <-Hvp. rewrite (le_val_take_drop (k + 3) p) by lia.
    rewrite (le_val_drop_zero (k + 3) p); [lia|done|lia|lia]. }
  assert (Hltp : length (take (k + 3) p) = (k + 3)%nat) by (rewrite length_take; lia).
  assert (Htt : le_val (take (k + 3) t) = le_val t).
  { rewrite (le_val_take_drop (k + 3) t) by lia. rewrite Hz. lia. }
  pose proof (sub_slice_law t (take (k + 3) p) Hwt ltac:(by apply Forall_take) ltac:(lia)) as Hs.
  cbv zeta in Hs. rewrite Hltp, Htp, Htt in Hs.
  assert (Hb : (le_val t - val v * q_hat <? 0) = (le_val t <? val v * q_hat)).
  { destruct (Z.ltb_spec (le_val t) (val v * q_hat)); [apply Z.ltb_lt|apply Z.ltb_ge]; lia. }
  rewrite Hb in Hs. eexists. split; [|split; [exact Hs|]].
  { replace (k + 2 + 1)%nat with (k + 3)%nat by lia. rewrite slice_to_Some by lia. done. }
  assert (Hwl : length (to_words (k + 3) (le_val t - val v * q_hat)) = (k + 3)%nat)
    by apply to_words_length.
  split_and!.
  - apply Forall_app. split; [apply to_words_wf|by apply Forall_drop].
  - rewrite length_app, length_drop, Hwl. lia.
  - by rewrite drop_app_length'.
  - rewrite take_app_length' by done. apply le_val_to_words.
Qed.

Lemma knuth_step_spec v k v1 v2 U0 j uq :
  normal v k v1 v2 → (j + k + 2 ≤ 8)%nat → step_inv v U0 (S j) uq →
  ∃ uq', Div512.knuth_step v (k + 2) v1 v2 j uq = Some uq' ∧ step_inv v U0 j uq'.
Proof.
  intros Hn Hj Hinv. destruct uq as [u q]. pose proof Hinv as (Hwu & Hlu & Hwq & Hlq & _ & Htop & _).
  pose proof (normal_split _ _ _ _ Hn) as (_ & _ & _ & Htv & _).
  pose proof Hn as [Hwv Hk _ _ _ HltV].
  set (t := drop j u). assert (Hlt : length t = (9 - j)%nat) by (unfold t; rewrite length_drop; lia).
  assert (Hwt : wf_words t) by by apply Forall_drop.
  assert (Hu : ∀ i, u !! (j + i)%nat = t !! i) by (intros; unfold t; by rewrite lookup_drop).
  assert (Hd1 : le_val (drop 1 t) < val v) by (unfold t; rewrite drop_drop; by rewrite Nat.add_1_r).
  assert (Hz : le_val (drop (k + 3) t) = 0).
  { replace (k + 3)%nat with (1 + (k + 2))%nat by lia. rewrite <-drop_drop.
    apply le_val_drop_zero; [by apply Forall_drop|rewrite length_drop; lia|lia]. }
  assert (HltW : le_val t < val v * B64).
  { rewrite (le_val_take_drop 1 t) by lia.
    pose proof (le_val_take_bound 1 t Hwt ltac:(lia)). change (PW 1) with B64 in *. lia. }
  destruct (lookup_lt_is_Some_2 t (k + 2)) as [un Hun]; [lia|].
  destruct (q_hat_spec v k v1 v2 t un Hn Hwt Hun Hz HltW) as (qh & Eqh & Hqh & HqB).
  assert (Ht0 : 0 ≤ le_val t) by (apply le_val_bound; done).
  assert (HV : 0 < val v) by nia.
  set (d := le_val t / val v) in *.
  assert (Hd0 : 0 ≤ d) by (apply Z.div_pos; lia).
  assert (HdV : d * val v ≤ le_val t < (d + 1) * val v).
  { pose proof (Z.div_mod (le_val t) (val v)) as Hdm.
    pose proof (Z.mod_pos_bound (le_val t) (val v)). fold d in Hdm. nia. }
  destruct (sub_window v k v1 v2 t qh Hn Hwt ltac:(lia) Hz ltac:(unfold is_u64; lia))
    as (t' & Esl & Esub & Hwt' & Hlt' & Hz' & Hv').
  assert (Htj : length (take j u) = j) by (rewrite length_take; lia).
  assert (HPW : PW (k + 3) = B64 * PW (k + 2)).
  { replace (k + 3)%nat with (S (k + 2)) by lia. apply PW_S. }
  unfold Div512.knuth_step. rewrite Hu, Hun. cbn [mbind option_bind].
  replace (j + (k + 2) - 1)%nat with (j + (k + 2 - 1))%nat by lia.
  replace (j + (k + 2) - 2)%nat with (j + (k + 2 - 2))%nat by lia.
  rewrite !Hu, Eqh. cbn [mbind option_bind].
  rewrite slice_from_Some by lia. fold t. cbn [mbind option_bind].
  rewrite Esl. cbn [mbind option_bind]. rewrite Esub.
  destruct (Z.ltb_spec (le_val t) (val v * qh)) as [Hborrow|Hno].
  - assert (Hqd : qh = d + 1) by nia.
    rewrite chk_in by lia. cbn [mbind option_bind].
    rewrite slice_from_app by done. cbn [mbind option_bind].
    rewrite slice_to_Some by (destruct Hwv; lia). cbn [mbind option_bind].
    assert (Hlv : length (take (k + 2) (words v)) = (k + 2)%nat)
      by (rewrite length_take; destruct Hwv; lia).
    destruct (add_back_spec (k + 2) t' (take (k + 2) (words v)))
      as (t2 & c & x & Eadd & Hx & Hlt2 & Hwr & Hlr & Hdr & Hvr);
      [done|apply Forall_take; by destruct Hwv|done|lia|].
    rewrite Eadd, (take_app_length' (take j u) t') by done. rewrite lookup_app_r, Htj by lia.
    replace (j + (k + 2) - j)%nat with (k + 2)%nat by lia.
    rewrite Hx. cbn [mbind option_bind].
    rewrite assign_Some by (rewrite length_app, Htj; lia). cbn [mbind option_bind].
    rewrite assign_Some by lia. eexists. split; [done|].
    rewrite insert_app_r_alt, Htj by lia.
    replace (j + (k + 2) - j)%nat with (k + 2)%nat by lia.
    set (r := <[(k + 2)%nat := (x + Z.b2z c) mod B64]> t2) in *.
    replace (qh - 1) with d by lia.
    assert (Hvr' : le_val r = le_val t - val v * d).
    { rewrite (le_val_take_drop (k + 3) r) by lia. replace (k + 3)%nat with (S (k + 2)) in * by lia.
      rewrite Hdr, Hz', Z.mul_0_r, Z.add_0_r, Hvr, Hv', Htv.
      rewrite Zplus_mod_idemp_l, Z.mod_small; [subst qh; lia|nia]. }
    apply step_inv_digit; fold t; try done; try lia; unfold is_u64; lia.
  - assert (Hqd : qh = d) by nia. cbn [mbind option_bind].
    rewrite assign_Some by lia. eexists. split; [done|].
    assert (Hvr' : le_val t' = le_val t - val v * d).
    { rewrite (le_val_take_drop (k + 3) t') by lia. rewrite Hz', Hv', Z.mul_0_r, Z.add_0_r.
      rewrite Z.mod_small; [by rewrite Hqd|]. nia. }
    rewrite Hqd. apply step_inv_digit; fold t; try done; try lia; unfold is_u64; lia.
Qed.

(** ** The whole division *)

Lemma leading_zeros_norm w :
  0 < w < B64 → let s := leading_zeros w in
  0 ≤ s < 64 ∧ B64 ≤ 2 * (w * 2 ^ s) ∧ (w + 1) * 2 ^ s ≤ B64.
Proof.
  intros Hw s. unfold s, leading_zeros. destruct (Z.eqb_spec w 0); [lia|].
  pose proof (Z.log2_nonneg w). pose proof (Z.log2_spec w ltac:(lia)) as Hl.
  assert (Z.log2 w < 64) by (apply Z.log2_lt_pow2; lia).
  split; [lia|]. set (e := Z.log2 w) in *. clearbody e.
  assert (H64 : B64 = 2 * (2 ^ e * 2 ^ (63 - e))).
  { rewrite <-Z.pow_add_r by lia. replace (e + (63 - e)) with 63 by lia. done. }
  rewrite Z.pow_succ_r in Hl by lia. nia.
Qed.

Lemma normalise v k vtop :
  wf_uint v → (k ≤ 2)%nat → PW (S k) ≤ val v < PW (k + 2) →
  words v !! S k = Some vtop →
  let s := leading_zeros vtop in
  0 ≤ s < 64 ∧ val (shl v s) = val v * 2 ^ s ∧
  ∃ v1 v2, normal (shl v s) k v1 v2.
Proof.
  intros Hv Hk Hval Hvtop s.
  assert (HPW : PW (k + 2) = B64 * PW (S k)).
  { replace (k + 2)%nat with (S (S k)) by lia. apply PW_S. }
  destruct Hv as [Hw Hl] eqn:EHv. pose proof (wf_lookup _ _ _ Hw Hvtop) as Hu. unfold is_u64 in Hu.
  pose proof (le_val_take_bound (S k) (words v) Hw ltac:(lia)) as Hlow.
  assert (Hsplit : val v = le_val (take (S k) (words v)) + PW (S k) * vtop).
  { unfold val in *. rewrite (le_val_take_drop (S k) (words v)) by lia.
    rewrite (drop_S _ _ _ Hvtop), le_val_cons.
    replace (S (S k)) with (k + 2)%nat by lia. rewrite le_val_drop_zero; [lia|done|lia|lia]. }
  pose proof (PW_pos (S k)).
  destruct (leading_zeros_norm vtop) as (Hs & Hs1 & Hs2); [split; [nia|lia]|]. fold s in Hs, Hs1, Hs2.
  assert (Hfit : val v * 2 ^ s < PW (k + 2)) by (rewrite HPW; nia).
  assert (H4 : PW (k + 2) ≤ 2 ^ 256).
  { change (2 ^ 256) with (PW 4). apply Z.pow_le_mono_r; lia. }
  assert (Hval' : val (shl v s) = val v * 2 ^ s).
  { rewrite shl_law by (done || lia). apply val_of_val. nia. }
  split; [done|]. split; [done|].
  assert (Hwf' : wf_uint (shl v s)) by (rewrite shl_law by (done || lia); auto with namada).
  pose proof Hwf' as [Hw' Hl'].
  destruct (lookup_lt_is_Some_2 (words (shl v s)) (S k)) as [v1 H1]; [lia|].
  destruct (lookup_lt_is_Some_2 (words (shl v s)) k) as [v2 H2]; [lia|].
  exists v1, v2. constructor; try done; [|lia].
  pose proof (le_val_lookup _ _ _ Hw' H1) as Hv1. change (le_val (words (shl v s))) with (val (shl v s)) in Hv1.
  rewrite Hval' in Hv1.
  assert (Hdiv : vtop * 2 ^ s ≤ val v * 2 ^ s / PW (S k)).
  { apply Z.div_le_lower_bound; [lia|]. nia. }
  rewrite Z.mod_small in Hv1; [lia|]. split; [nia|].
  apply Z.div_lt_upper_bound; [lia|]. lia.
Qed.

Lemma step_inv_init v l u U0 k m c :
  wf_words u → length u = 9%nat → le_val u = U0 → U0 = l * c → 0 < c →
  0 ≤ l < PW (k + 2 + m) → PW (S k) * c ≤ val v → (k + 2 + m ≤ 8)%nat →
  step_inv v U0 (S m) (u, replicate 8 0).
Proof.
  intros Hwu Hlu Hu HU Hc Hl Hv Hm.
  split_and!; [done..|apply wf_replicate0|done| | |].
  - rewrite le_val_replicate0. lia.
  - rewrite (le_val_take_drop (S m) u) in Hu by lia.
    pose proof (le_val_take_bound (S m) u Hwu ltac:(lia)).
    assert (Hp : PW (k + 2 + m) = PW (S m) * PW (S k)).
    { rewrite <-Z.pow_add_r by lia. f_equal. lia. }
    pose proof (PW_pos (S m)).
    assert (PW (S m) * le_val (drop (S m) u) < PW (S m) * val v) by nia. nia.
  - intros i _ Hi. by rewrite lookup_replicate_2 by done.
Qed.

Lemma take4_of_val r :
  wf_words r → length r = 8%nat → le_val r < 2 ^ 256 → mk_uint (take 4 r) = of_val (le_val r).
Proof.
  intros Hw Hl Hlt.
  assert (Hz : le_val (drop 4 r) = 0) by (apply (le_val_drop_zero 4); [done|lia|done]).
  assert (Hl4 : length (take 4 r) = 4%nat) by (rewrite length_take; lia).
  rewrite (le_val_take_drop 4 r), Hz, Z.mul_0_r, Z.add_0_r by lia.
  unfold of_val. f_equal. rewrite <-Hl4 at 2. symmetry. apply to_words_le_val. by apply Forall_take.
Qed.

Lemma div_mod_knuth_512_spec l v k m :
  wf_words l → length l = 8%nat → wf_uint v → (k ≤ 2)%nat → (k + 2 + m ≤ 8)%nat →
  PW (S k) ≤ val v < PW (k + 2) → le_val l < PW (k + 2 + m) →
  Div512.div_mod_knuth_512 l v (k + 2) m
  = Some (to_words 8 (le_val l / val v), of_val (le_val l mod val v)).
Proof.
  intros Hwl Hll Hv Hk Hm Hval Hl. pose proof Hv as [Hwv Hlv]. bound v.
  destruct (lookup_lt_is_Some_2 (words v) (S k)) as [vtop Hvtop]; [lia|].
  destruct (normalise v k vtop Hv Hk Hval Hvtop) as (Hs & Hv' & v1 & v2 & Hn).
  unfold Div512.div_mod_knuth_512.
  replace (k + 2 - 1)%nat with (S k) by lia. replace (k + 2 - 2)%nat with k by lia.
  rewrite Hvtop. cbn [mbind option_bind]. set (s := leading_zeros vtop) in *.
  assert (Hsn : Z.of_nat (Z.to_nat s) = s) by lia.
  destruct (full_shl_512_spec l (Z.to_nat s)) as (u & Eu & Hwu & Hlu & Hvu); [done|done|lia|].
  rewrite Hsn in Hvu. pose proof (le_val_bound l Hwl) as Hl0. rewrite Hll in Hl0.
  rewrite Eu, (normal_v1 _ _ _ _ Hn), (normal_v2 _ _ _ _ Hn). cbn [mbind option_bind].
  assert (Hc : 0 < 2 ^ s) by lia.
  destruct (for_rev_inv (step_inv (shl v s) (le_val l * 2 ^ s)) (S m)
    (Div512.knuth_step (shl v s) (k + 2) v1 v2) (u, replicate 8 0)) as ([u' q'] & Efor & Hinv).
  { apply (step_inv_init _ (le_val l) u _ k m (2 ^ s)); try done; nia. }
  { intros i uq Hi. apply knuth_step_spec; [done|lia]. }
  rewrite Efor. cbn [mbind option_bind].
  destruct Hinv as (Hwu' & Hlu' & Hwq' & Hlq' & Hsum & Hlt & _). rewrite drop_0 in Hlt.
  pose proof (le_val_bound u' Hwu') as Hu0. rewrite Hv' in Hsum, Hlt.
  assert (Hq : le_val q' = le_val l / val v).
  { rewrite <-(Z.div_mul_cancel_r (le_val l) (val v) (2 ^ s)) by lia.
    apply (Z.div_unique _ _ _ (le_val u')); [left; lia|]. lia. }
  assert (Hr : le_val u' = le_val l mod val v * 2 ^ s).
  { rewrite <-Z.mul_mod_distr_r by lia.
    apply (Z.mod_unique _ _ (le_val q')); [left; lia|]. lia. }
  pose proof (Z.mod_pos_bound (le_val l) (val v) ltac:(lia)).
  destruct (full_shr_512_spec u' (Z.to_nat s)) as (r & Er & Hwr & Hlr & Hvr); [done|done|lia|].
  rewrite Er. cbn [mbind option_bind]. rewrite Hsn, Hr, Z.div_mul in Hvr by lia.
  rewrite Z.mod_small in Hvr by (assert (2 ^ 256 < 2 ^ 512) by done; lia).
  rewrite take4_of_val by (done || lia). rewrite Hvr, <-Hq, <-Hlq'.
  by rewrite to_words_le_val.
Qed.

Lemma div_mod_small_512_spec l o :
  wf_words l → length l = 8%nat → 0 < o < B64 →
  Div512.div_mod_small_512 l o = (to_words 8 (le_val l / o), of_val (le_val l mod o)).
Proof.
  intros Hw Hl Ho. unfold Div512.div_mod_small_512.
  assert (Hgen : ∀ ds rem, foldr (λ d '(ds, rem),
      let '(q, r) := div_mod_word rem d o in (q :: ds, r)) ([], 0) l = (ds, rem) →
    wf_words ds ∧ length ds = length l ∧ 0 ≤ rem < o ∧ le_val l = le_val ds * o + rem).
  { clear Hl. induction Hw as [|d l Hd Hw IH]; intros ds rem; simpl.
    - intros [= <- <-]. split_and!; (done || constructor || lia).
    - destruct (foldr _ _ l) as [ds' rem'] eqn:E.
      destruct (IH _ _ eq_refl) as (Hwd & Hld & Hrem & Hv). unfold is_u64 in Hd.
      rewrite div_mod_word_law by (unfold is_u64; lia). intros [= <- <-].
      pose proof (Z.div_mod (rem' * B64 + d) o ltac:(lia)).
      pose proof (Z.mod_pos_bound (rem' * B64 + d) o ltac:(lia)).
      split_and!; [|by cbn; f_equal|lia..|].
      + constructor; [|done]. unfold is_u64. split; [apply Z.div_pos; lia|].
        apply Z.div_lt_upper_bound; lia.
      + rewrite Hv, le_val_cons. nia. }
  destruct (foldr _ _ l) as [ds rem] eqn:E.
  destruct (Hgen _ _ eq_refl) as (Hwd & Hld & Hrem & Hv).
  rewrite uint_from_law by (assert (B64 < 2 ^ 128) by done; lia). rewrite Hv.
  rewrite (Z.add_comm (_ * o)), Z.div_add, Z.mod_add by lia.
  rewrite Z.div_small, Z.mod_small, Z.add_0_l by lia.
  by rewrite <-Hl, <-Hld, to_words_le_val.
Qed.

(** The number of bits needed for a non-negative number. *)
Definition bitlen (z : Z) : Z := if z =? 0 then 0 else Z.log2 z + 1.

Lemma bitlen_lt z k : 0 ≤ z → 0 ≤ k → bitlen z ≤ k ↔ z < 2 ^ k.
Proof.
  intros Hz Hk. unfold bitlen. destruct (Z.eqb_spec z 0) as [->|]; [lia|].
  rewrite (Z.log2_lt_pow2 z k) by lia. lia.
Qed.

Lemma log2_top k lo w :
  0 ≤ lo < PW k → 0 < w → Z.log2 (lo + PW k * w) = 64 * Z.of_nat k + Z.log2 w.
Proof.
  intros Hlo Hw. pose proof (Z.log2_spec w Hw) as Hl. pose proof (Z.log2_nonneg w).
  apply Z.log2_unique; [lia|].
  rewrite <-Z.add_succ_r, !Z.pow_add_r by lia. nia.
Qed.

Lemma lz_bitlen w : is_u64 w → 64 - leading_zeros w = bitlen w.
Proof. intros. unfold leading_zeros, bitlen. case_match; lia. Qed.

Lemma bits_512_spec l :
  wf_words l → length l = 8%nat → Div512.bits_512 l = Some (bitlen (le_val l)).
Proof.
  intros Hw Hl. unfold Div512.bits_512. rewrite Hl.
  assert (Hgen : ∀ j i, (i + j = 8)%nat → (0 < i)%nat → le_val (drop (9 - i) l) = 0 →
    Div512.bits_512_loop l (seq i j) = Some (bitlen (le_val l))).
  { induction j as [|j IH]; intros i Hij Hi Hz; cbn [seq Div512.bits_512_loop].
    - replace i with 8%nat in Hz by lia. destruct l as [|w l]; [done|].
      replace (drop (9 - 8) (w :: l)) with l in Hz by done.
      cbn [lookup list_lookup mbind option_bind]. rewrite le_val_cons, Hz.
      apply Forall_cons in Hw as [Hw0 _]. rewrite lz_bitlen by done. do 2 f_equal. lia.
    - rewrite Hl. destruct (lookup_lt_is_Some_2 l (8 - i)) as [w Hlk]; [lia|].
      rewrite Hlk. cbn [mbind option_bind]. pose proof (wf_lookup _ _ _ Hw Hlk) as Hu.
      pose proof (drop_S _ _ _ Hlk) as Hd. replace (S (8 - i)) with (9 - i)%nat in Hd by lia.
      unfold is_u64 in Hu. destruct (Z.ltb_spec 0 w).
      + f_equal. rewrite (le_val_take_drop (8 - i) l), Hd, le_val_cons, Hz by lia.
        pose proof (le_val_take_bound (8 - i) l Hw ltac:(lia)). unfold bitlen.
        rewrite Z.mul_0_r, Z.add_0_r. pose proof (PW_pos (8 - i)).
        destruct (Z.eqb_spec (le_val (take (8 - i) l) + PW (8 - i) * w) 0); [nia|].
        rewrite log2_top by lia. unfold leading_zeros.
        destruct (Z.eqb_spec w 0); [lia|]. lia.
      + apply IH; [lia|lia|]. replace (9 - S i)%nat with (8 - i)%nat by lia.
        rewrite Hd, le_val_cons, Hz. lia. }
  apply Hgen; [done|lia|]. rewrite drop_ge; [done|lia].
Qed.

Lemma div_mod_512_spec l o :
  wf_words l → length l = 8%nat → wf_uint o → val o ≠ 0 →
  Div512.div_mod_512 l o
  = Some (to_words 8 (le_val l / val o), of_val (le_val l mod val o)).
Proof.
  intros Hw Hl Ho Hne. bound o. pose proof (le_val_bound l Hw) as Hb. rewrite Hl in Hb.
  change (PW 8) with (2 ^ 512) in Hb.
  unfold Div512.div_mod_512. rewrite bits_512_spec, bits_law by done. cbn [mbind option_bind].
  fold (bitlen (val o)). set (mb := bitlen (le_val l)). set (yb := bitlen (val o)).
  assert (Hyb : ∀ k, 0 ≤ k → yb ≤ k ↔ val o < 2 ^ k) by (intros; apply bitlen_lt; lia).
  assert (Hmb : ∀ k, 0 ≤ k → mb ≤ k ↔ le_val l < 2 ^ k) by (intros; apply bitlen_lt; lia).
  assert (Hy0 : 0 < yb).
  { unfold yb, bitlen. destruct (Z.eqb_spec (val o) 0); [lia|].
    pose proof (Z.log2_nonneg (val o)). lia. }
  assert (Hy256 : yb ≤ 256) by (apply Hyb; lia).
  assert (Hm512 : mb ≤ 512) by (apply Hmb; lia).
  destruct (Z.eqb_spec yb 0) as [?|_]; [lia|]. destruct (Z.ltb_spec mb yb) as [Hlt|Hge].
  { assert (le_val l < val o).
    { destruct (Z.lt_ge_cases (le_val l) (val o)); [done|].
      assert (val o < 2 ^ mb); [|apply Hyb in H1; unfold mb, bitlen in *; [lia|case_match; pose proof (Z.log2_nonneg (le_val l)); lia]].
      assert (le_val l < 2 ^ mb); [|lia]. apply Hmb; [|lia].
      unfold mb, bitlen. case_match; [lia|]. pose proof (Z.log2_nonneg (le_val l)). lia. }
    rewrite Z.div_small, Z.mod_small by lia. f_equal. f_equal.
    apply take4_of_val; [done..|lia]. }
  destruct (Z.leb_spec yb 64) as [Hsmall|Hbig].
  { assert (val o < 2 ^ 64) by (apply Hyb; lia).
    rewrite low_u64_law, Z.mod_small by (done || lia). f_equal.
    apply div_mod_small_512_spec; [done..|lia]. }
  rewrite !words_of_law by lia.
  set (n := (yb + 63) / 64). set (mw := (mb + 63) / 64).
  assert (Hn : 64 * (n - 1) < yb ≤ 64 * n) by (subst n; clear -Hbig; dlia).
  assert (Hmw : mb ≤ 64 * mw ∧ n ≤ mw ≤ 8) by (subst n mw; clear -Hbig Hge Hm512; dlia).
  rewrite chk_in by lia. cbn [mbind option_bind].
  replace (Z.to_nat n) with (Z.to_nat (n - 2) + 2)%nat by lia.
  apply div_mod_knuth_512_spec; try done; try lia.
  - split.
    + replace (64 * Z.of_nat (S (Z.to_nat (n - 2)))) with (64 * (n - 1)) by lia.
      destruct (Z.le_gt_cases (2 ^ (64 * (n - 1))) (val o)) as [|Hgt]; [done|].
      apply Hyb in Hgt; lia.
    + replace (64 * Z.of_nat (Z.to_nat (n - 2) + 2)) with (64 * n) by lia. apply Hyb; lia.
  - replace (64 * Z.of_nat (Z.to_nat (n - 2) + 2 + Z.to_nat (mw - n))) with (64 * mw) by lia.
    apply Hmb; lia.
Qed.

Lemma any_nonzero_spec l : wf_words l →
  existsb (λ w, negb (w =? 0)) l = negb (le_val l =? 0).
Proof.
  induction 1 as [|w l Hw Hl IH]; [done|]. cbn [existsb]. rewrite IH, le_val_cons.
  pose proof (le_val_bound l Hl). unfold is_u64 in Hw.
  destruct (Z.eqb_spec w 0), (Z.eqb_spec (le_val l) 0), (Z.eqb_spec (w + B64 * le_val l) 0);
    simpl; (done || lia).
Qed.

Lemma checked_mul_div_spec a num denom :
  wf_uint a → wf_uint num → wf_uint denom →
  Div512.checked_mul_div a num denom =
  if (val denom =? 0) || (2 ^ 256 <=? val a * val num / val denom) then None
  else Some (of_val (val a * val num / val denom), of_val ((val a * val num) mod val denom)).
Proof.
  intros Ha Hn Hd. bound a. bound num. bound denom. unfold Div512.checked_mul_div.
  rewrite is_zero_val by done. destruct (Z.eqb_spec (val denom) 0); [done|]. simpl.
  assert (Hp : 0 ≤ val a * val num < 2 ^ 512).
  { change (2 ^ 512) with (2 ^ 256 * 2 ^ 256). nia. }
  rewrite full_mul_law by done.
  assert (Hv : le_val (to_words 8 (val a * val num)) = val a * val num)
    by (apply le_val_to_words_id; done).
  rewrite div_mod_512_spec, Hv by (auto with namada). cbn [mbind option_bind].
  set (q := val a * val num / val denom).
  assert (Hq : 0 ≤ q < 2 ^ 512).
  { split; [apply Z.div_pos; lia|]. apply Z.div_lt_upper_bound; [lia|]. nia. }
  assert (Hvq : le_val (to_words 8 q) = q) by (apply le_val_to_words_id; done).
  rewrite any_nonzero_spec by (apply Forall_drop, to_words_wf).
  destruct (Z.leb_spec (2 ^ 256) q) as [Hbig|Hfit].
  - destruct (Z.eqb_spec (le_val (drop 4 (to_words 8 q))) 0) as [Hz|]; [|done].
    rewrite (le_val_take_drop 4), Hz in Hvq by (rewrite to_words_length; lia).
    pose proof (le_val_take_bound 4 (to_words 8 q) (to_words_wf _ _) ltac:(rewrite to_words_length; lia)) as Hb4.
    change (PW 4) with (2 ^ 256) in Hb4. lia.
  - rewrite (le_val_drop_zero 4);
      [|apply to_words_wf|rewrite to_words_length; lia|by rewrite Hvq].
    cbn [Z.eqb negb]. rewrite take4_of_val, Hvq by (auto with namada; by rewrite Hvq). done.
Qed.
End step.

(** C11. [Uint::div_mod_512] (Knuth's algorithm D on eight words, with its
    one-word and early-return branches) returns for every non-zero divisor,
    with no index, slice or subtraction out of range, the quotient and the
    remainder. *)
Theorem div_mod_512_correct (U : UintApi) (L : UintLaws U) (K : UintKernel) (KL : KernelLaws K)
    (slf : list Z) (other : Uint) :
  wf_words slf → length slf = 8%nat → wf_uint other → val other ≠ 0 →
  Div512.div_mod_512 slf other
  = Some (to_words 8 (le_val slf / val other), of_val (le_val slf mod val other)).
Proof. apply div_mod_512_spec. Qed.

Lemma div_mod_512_correct_witness :
  Div512.div_mod_512 (to_words 8 (2 ^ 500 + 3)) (of_val (2 ^ 200 + 7))
  = Some (to_words 8 ((2 ^ 500 + 3) / (2 ^ 200 + 7)), of_val ((2 ^ 500 + 3) mod (2 ^ 200 + 7))).
Proof.
  rewrite (div_mod_512_correct uint_ref uint_ref_laws kernel_ref kernel_ref_laws);
    [vm_compute; reflexivity|apply to_words_wf|reflexivity|apply wf_of_val|vm_compute; discriminate].
Defined.

(** [Uint::checked_mul_div] computes the product at full precision: it
    returns quotient and remainder of [self * num] by [denom] exactly when
    [denom] is non-zero and the quotient fits 256 bits, [None] otherwise. *)
Theorem checked_mul_div_correct (U : UintApi) (L : UintLaws U) (K : UintKernel) (KL : KernelLaws K)
    (a num denom : Uint) :
  wf_uint a → wf_uint num → wf_uint denom →
  Div512.checked_mul_div a num denom =
  if (val denom =? 0) || (2 ^ 256 <=? val a * val num / val denom) then None
  else Some (of_val (val a * val num / val denom), of_val ((val a * val num) mod val denom)).
Proof. apply checked_mul_div_spec. Qed.

Lemma checked_mul_div_correct_witness :
  Div512.checked_mul_div (of_val (2 ^ 255)) (of_val 6) (of_val 4) = Some (of_val (2 ^ 254 * 3), of_val 0)
  ∧ Div512.checked_mul_div (of_val (2 ^ 255)) (of_val 6) (of_val 3) = None.
Proof.
  split; rewrite (checked_mul_div_correct uint_ref uint_ref_laws kernel_ref kernel_ref_laws)
    by apply wf_of_val; vm_compute; reflexivity.
Defined.
