(* ===== verification/I256.v ===== *)
(** * The signed 256-bit integer [I256] (crates/core/src/uint.rs:478-877)

    [I256] wraps a [Uint] read in two's complement; the bit pattern of minus
    zero ([MINUS_ZERO]) is kept out by [canonical].  [sval] is the integer an
    [I256] denotes; on canonical arguments every checked operation is the
    integer operation, [None] exactly when the result leaves
    [-(2^255-1) .. 2^255-1]. *)

From S2P Require Import Prelude Words Uint UintDiv KnuthD.

Record I256 : Type := mk_i256 { inner : Uint }.

#[global] Instance I256_eq_dec : EqDecision I256.
Proof. solve_decision. Defined.

(** [crates/core/src/token.rs]: the four words of a [Uint], as MASP digits. *)
Inductive MaspDigitPos : Type := Zero | One | Two | Three.

Definition pos_index (p : MaspDigitPos) : nat :=
  match p with Zero => 0 | One => 1 | Two => 2 | Three => 3 end%nat.

Inductive AmountParseError : Type :=
| ScaleTooLarge (digits max : Z)
| InvalidRange
| ConvertToDecimal
| FromString
| NotNumeric
| PrecisionOverflow
| PrecisionDecrease.

Abbreviation i128_min := (- 2 ^ 127).

Module I256M.
Section ops.
Context {U : UintApi} {K : UintKernel}.
Import UintM.

Definition zero : I256 := mk_i256 UintM.zero.
Definition one : I256 := mk_i256 UintM.one.
Definition maximum : I256 := mk_i256 MAX_SIGNED_VALUE.

Definition non_negative (a : I256) : bool :=
  match words (inner a) !! 3%nat with
  | Some w => 0 <? leading_zeros w
  | None => false
  end.
Definition is_negative (a : I256) : bool := negb (non_negative a).
Definition is_zero (a : I256) : bool := bool_decide (inner a = UintM.zero).
Definition is_positive (a : I256) : bool := non_negative a && negb (is_zero a).

Definition negate (a : I256) : option I256 :=
  let '(uint, overflow) := UintM.negate (inner a) in
  if overflow : bool then None else Some (mk_i256 uint).

Definition abs (a : I256) : Uint :=
  if non_negative a then inner a else fst (UintM.negate (inner a)).

Definition canonical (a : I256) : I256 := mk_i256 (UintM.canonical (inner a)).

Definition checked_neg (a : I256) : option I256 :=
  if is_zero a then Some a
  else
    let '(inner, overflow) := UintM.negate (inner a) in
    if overflow : bool then None else Some (mk_i256 inner).

(** [impl TryFrom<Uint> for I256]. *)
Definition try_from (v : Uint) : option I256 :=
  if UintM.leb v MAX_SIGNED_VALUE then Some (mk_i256 v) else None.

Definition checked_add (a rhs : I256) : option I256 :=
  canonical <$>
  match non_negative a, non_negative rhs with
  | true, true =>
      x ← Uint.checked_add (inner a) (inner rhs);
      if UintM.gtb x MAX_SIGNED_VALUE then None else Some (mk_i256 x)
  | false, false =>
      x ← Uint.checked_add (abs a) (abs rhs);
      if UintM.gtb x MAX_SIGNED_VALUE then None else checked_neg (mk_i256 x)
  | true, false =>
      if UintM.geb (inner a) (abs rhs)
      then mk_i256 <$> Uint.checked_sub (inner a) (abs rhs)
      else x ← Uint.checked_sub (abs rhs) (inner a); checked_neg (mk_i256 x)
  | false, true =>
      if UintM.geb (inner rhs) (abs a)
      then mk_i256 <$> Uint.checked_sub (abs rhs) (abs a)
      else x ← Uint.checked_sub (abs a) (inner rhs); checked_neg (mk_i256 x)
  end.

Definition checked_sub (a other : I256) : option I256 :=
  n ← checked_neg other; checked_add a n.

Definition checked_mul (a v : I256) : option I256 :=
  let neg := xorb (is_negative a) (is_negative v) in
  p ← Uint.checked_mul (abs a) (abs v);
  unsigned_res ← try_from p;
  if neg then checked_neg unsigned_res else Some unsigned_res.

Definition checked_div (a rhs : I256) : option I256 :=
  if is_zero rhs then None
  else
    let quot := default UintM.zero (Div512.fixed_precision_div (abs a) (abs rhs) 0) in
    if eqb (is_negative a) (is_negative rhs) then Some (mk_i256 quot)
    else checked_neg (mk_i256 quot).

Definition checked_rem (a rhs : I256) : option I256 :=
  r ← Uint.checked_rem (abs a) (abs rhs);
  if is_negative a then checked_neg (mk_i256 r) else Some (mk_i256 r).

(** [I256::sum]. *)
Definition sum (l : list I256) : option I256 :=
  foldl (λ acc x, a ← acc; checked_add a x) (Some zero) l.

(** [impl Ord for I256]. *)
Definition cmp (a other : I256) : comparison :=
  match non_negative a, non_negative other with
  | true, false => Gt
  | false, true => Lt
  | true, true => Uint.cmp (abs a) (abs other)
  | false, false => Uint.cmp (abs other) (abs a)
  end.

(** [impl From<i128> for I256]; [None] is a panic. *)
Definition from_i128 (v : Z) : option I256 :=
  if v =? i128_min then checked_neg (mk_i256 (uint_from (2 ^ 127)))
  else if v <? 0 then checked_neg (mk_i256 (uint_from (- v)))
  else Some (mk_i256 (uint_from v)).

(** [impl From<u64> for I256]. *)
Definition from_u64 (v : Z) : option I256 := try_from (uint_from v).

(** [impl TryFrom<I256> for i128]: [low_u128] of the absolute value. *)
Definition to_i128 (value : I256) : res unit Z :=
  match checked_neg (mk_i256 (uint_from (2 ^ 127))) with
  | None => Panic
  | Some i128_min_ =>
      if bool_decide (value = i128_min_) then Ok i128_min
      else
        let low := low_u128 (abs value) in
        if 2 ^ 127 <=? low then Err ()
        else Ok (if non_negative value then low else - low)
  end.

(** [I256::from_masp_denominated]. *)
Definition from_masp_denominated (value : Z) (denom : MaspDigitPos) :
    res AmountParseError I256 :=
  let is_negative := value <? 0 in
  let value := Z.abs value in
  v ← ok_or (chk 64 value) PrecisionOverflow;
  let result := mk_uint (<[pos_index denom := v]> [0; 0; 0; 0]) in
  if UintM.leb result MAX_SIGNED_VALUE then
    if is_negative then
      let '(inner, overflow) := UintM.negate result in
      if overflow : bool then Err InvalidRange else Ok (mk_i256 inner)
    else Ok (canonical (mk_i256 result))
  else Err InvalidRange.

End ops.
End I256M.

(** ** The integer denoted *)

Abbreviation MAXS := (2 ^ 255 - 1).

Definition sval (a : I256) : Z :=
  let v := val (inner a) in if v <? 2 ^ 255 then v else v - 2 ^ 256.

Definition wf_i256 (a : I256) : Prop :=
  wf_uint (inner a) ∧ val (inner a) ≠ 2 ^ 255.

Definition of_sval (z : Z) : I256 := mk_i256 (of_val z).

Definition chk_i (z : Z) : option Z := if Z.abs z <=? MAXS then Some z else None.

Lemma chk_i_in z : Z.abs z ≤ MAXS → chk_i z = Some z.
Proof. intros. unfold chk_i. by destruct (Z.leb_spec (Z.abs z) MAXS); [|lia]. Qed.

Lemma chk_i_out z : MAXS < Z.abs z → chk_i z = None.
Proof. intros. unfold chk_i. by destruct (Z.leb_spec (Z.abs z) MAXS); [lia|]. Qed.

Lemma sval_bound a : wf_i256 a → Z.abs (sval a) ≤ MAXS.
Proof.
  intros [Hw Hne]. pose proof (val_bound _ Hw). unfold sval.
  destruct (Z.ltb_spec (val (inner a)) (2 ^ 255)); lia.
Qed.

Lemma of_val_mod z : of_val (z mod 2 ^ 256) = of_val z.
Proof. apply val_inj; auto with namada. rewrite !val_of_val_mod. by rewrite Z.mod_mod by lia. Qed.

Lemma val_of_neg z : 0 < z ≤ 2 ^ 256 → val (of_val (- z)) = 2 ^ 256 - z.
Proof.
  intros. rewrite val_of_val_mod. symmetry. apply (Z.mod_unique (- z) (2 ^ 256) (-1)); lia.
Qed.

Lemma of_val_neg z : of_val (2 ^ 256 - z) = of_val (- z).
Proof.
  rewrite <-(of_val_mod (2 ^ 256 - z)), <-(of_val_mod (- z)). f_equal.
  rewrite <-(Z.mod_add (- z) 1) by lia. f_equal. lia.
Qed.

Lemma sval_of_sval z : Z.abs z ≤ MAXS → sval (of_sval z) = z.
Proof.
  intros Hz. unfold sval, of_sval; cbn [inner]. destruct (Z.lt_ge_cases z 0).
  - replace z with (- (- z)) by lia. rewrite val_of_neg by lia.
    destruct (Z.ltb_spec (2 ^ 256 - - z) (2 ^ 255)); lia.
  - vals. destruct (Z.ltb_spec z (2 ^ 255)); lia.
Qed.

Lemma wf_of_sval z : Z.abs z ≤ MAXS → wf_i256 (of_sval z).
Proof.
  intros Hz. split; [apply wf_of_val|]. unfold of_sval; cbn [inner].
  destruct (Z.lt_ge_cases z 0).
  - replace z with (- (- z)) by lia. rewrite val_of_neg by lia. lia.
  - vals. lia.
Qed.

Lemma of_sval_sval a : wf_i256 a → of_sval (sval a) = a.
Proof.
  intros [Hw Hne]. destruct a as [u]; cbn [inner] in *. unfold of_sval, sval; cbn [inner].
  f_equal. destruct (Z.ltb_spec (val u) (2 ^ 255)); [by apply of_val_val|].
  replace (val u - 2 ^ 256) with (- (2 ^ 256 - val u)) by lia. rewrite <-of_val_neg.
  replace (2 ^ 256 - (2 ^ 256 - val u)) with (val u) by lia. by apply of_val_val.
Qed.

Lemma sval_inj a b : wf_i256 a → wf_i256 b → sval a = sval b → a = b.
Proof. intros Ha Hb E. by rewrite <-(of_sval_sval a), <-(of_sval_sval b), E. Qed.

#[export] Hint Resolve wf_of_sval sval_bound : namada.

Ltac sbound a :=
  match goal with H : wf_i256 a |- _ => pose proof (sval_bound a H) end.

Section laws.
Context {U : UintApi} {L : UintLaws U} {K : UintKernel} {KL : KernelLaws K}.

Lemma non_negative_val a : wf_uint (inner a) →
  I256M.non_negative a = (val (inner a) <? 2 ^ 255).
Proof.
  intros Hwf. pose proof (val_bound _ Hwf) as Hb. destruct Hwf as [Hw Hl].
  unfold I256M.non_negative.
  destruct (lookup_lt_is_Some_2 (words (inner a)) 3) as [w Hlk]; [lia|]. rewrite Hlk.
  pose proof (wf_lookup _ _ _ Hw Hlk) as Hu. rewrite leading_zeros_pos by done.
  unfold is_u64 in Hu.
  assert (Hsplit : val (inner a) = le_val (take 3 (words (inner a))) + 2 ^ 192 * w).
  { unfold val. rewrite (le_val_take_drop 3) by lia.
    rewrite (drop_S _ _ _ Hlk), drop_ge, le_val_cons by lia. cbn [le_val foldr]. lia. }
  pose proof (le_val_take_bound 3 _ Hw ltac:(lia)) as H3. change (64 * Z.of_nat 3) with 192 in H3.
  change (2 ^ 255) with (2 ^ 192 * 2 ^ 63).
  destruct (Z.ltb_spec w (2 ^ 63)), (Z.ltb_spec (val (inner a)) (2 ^ 192 * 2 ^ 63)); (done || nia).
Qed.

Lemma non_negative_sval a : wf_i256 a → I256M.non_negative a = (0 <=? sval a).
Proof.
  intros [Hw Hne]. pose proof (val_bound _ Hw). rewrite non_negative_val by done.
  unfold sval. destruct (Z.ltb_spec (val (inner a)) (2 ^ 255)); symmetry;
    [apply Z.leb_le|apply Z.leb_gt]; lia.
Qed.

Lemma is_negative_sval a : wf_i256 a → I256M.is_negative a = (sval a <? 0).
Proof.
  intros. unfold I256M.is_negative. rewrite non_negative_sval by done.
  by rewrite Z.ltb_antisym.
Qed.

Lemma is_zero_sval a : wf_i256 a → I256M.is_zero a = (sval a =? 0).
Proof.
  intros [Hw Hne]. pose proof (val_bound _ Hw). unfold I256M.is_zero.
  change (bool_decide (inner a = UintM.zero)) with (UintM.is_zero (inner a)).
  rewrite is_zero_val by done. unfold sval.
  destruct (Z.ltb_spec (val (inner a)) (2 ^ 255)); [done|].
  destruct (Z.eqb_spec (val (inner a)) 0), (Z.eqb_spec (val (inner a) - 2 ^ 256) 0); (done || lia).
Qed.

Lemma abs_sval a : wf_i256 a → I256M.abs a = of_val (Z.abs (sval a)).
Proof.
  intros Ha. sbound a. pose proof Ha as [Hw Hne]. pose proof (val_bound _ Hw).
  unfold I256M.abs. rewrite non_negative_val by done. unfold sval.
  destruct (Z.ltb_spec (val (inner a)) (2 ^ 255)).
  - rewrite Z.abs_eq by lia. by rewrite of_val_val.
  - rewrite negate_val by done. cbn [fst].
    destruct (Z.eqb_spec (val (inner a)) (2 ^ 255)); [done|]. f_equal. lia.
Qed.

Lemma inner_nonneg a : wf_i256 a → 0 ≤ sval a → inner a = of_val (sval a).
Proof.
  intros Ha H. rewrite <-(of_sval_sval a) at 1 by done. done.
Qed.

Lemma checked_neg_sval a : wf_i256 a → I256M.checked_neg a = Some (of_sval (- sval a)).
Proof.
  intros Ha. sbound a. pose proof Ha as [Hw Hne]. pose proof (val_bound _ Hw).
  unfold I256M.checked_neg. rewrite is_zero_sval by done.
  destruct (Z.eqb_spec (sval a) 0) as [E|E].
  - rewrite E. simpl. by rewrite <-(of_sval_sval a), E.
  - rewrite negate_val by done. unfold sval in E |- *.
    destruct (Z.eqb_spec (val (inner a)) (2 ^ 255)); [done|].
    destruct (Z.ltb_spec (val (inner a)) (2 ^ 255)).
    + destruct (Z.eqb_spec (val (inner a)) 0); [lia|]. unfold of_sval. by rewrite of_val_neg.
    + destruct (Z.eqb_spec (val (inner a)) 0); [lia|]. unfold of_sval. do 3 f_equal. lia.
Qed.

Lemma checked_neg_of_sval z : Z.abs z ≤ MAXS →
  I256M.checked_neg (mk_i256 (of_val z)) = Some (of_sval (- z)).
Proof.
  intros Hz. change (mk_i256 (of_val z)) with (of_sval z).
  rewrite checked_neg_sval by auto with namada. by rewrite sval_of_sval.
Qed.

Lemma neg_of_sval z : Z.abs z ≤ MAXS → I256M.checked_neg (of_sval z) = Some (of_sval (- z)).
Proof. apply checked_neg_of_sval. Qed.

Lemma canonical_of_sval z : Z.abs z ≤ MAXS → I256M.canonical (of_sval z) = of_sval z.
Proof.
  intros Hz. destruct (wf_of_sval z Hz) as [Hw Hne]. unfold I256M.canonical.
  rewrite canonical_val by done. cbn [inner of_sval] in *.
  destruct (Z.eqb_spec (val (of_val z)) (2 ^ 255)); [done|].
  by rewrite of_val_val.
Qed.

Lemma gtb_MAXS x : wf_uint x → UintM.gtb x UintM.MAX_SIGNED_VALUE = (MAXS <? val x).
Proof. intros. by rewrite gtb_val by (done || apply wf_MAX_SIGNED). Qed.

Lemma try_from_val v : wf_uint v → I256M.try_from v = of_sval <$> chk_i (val v).
Proof.
  intros Hv. bound v. unfold I256M.try_from, chk_i.
  rewrite leb_val, val_MAX_SIGNED, Z.abs_eq by (done || apply wf_MAX_SIGNED || lia).
  destruct (Z.leb_spec (val v) MAXS); [|done]. simpl. unfold of_sval. by rewrite of_val_val.
Qed.

Lemma checked_add_sval a b : wf_i256 a → wf_i256 b →
  I256M.checked_add a b = of_sval <$> chk_i (sval a + sval b).
Proof.
  intros Ha Hb. sbound a. sbound b. unfold I256M.checked_add.
  rewrite !non_negative_sval by done.
  rewrite !abs_sval by done.
  destruct (Z.leb_spec 0 (sval a)), (Z.leb_spec 0 (sval b)).
  - rewrite !inner_nonneg, checked_add_law by auto with namada. vals.
    rewrite chk_in by lia. cbn. rewrite gtb_MAXS by auto with namada. vals.
    destruct (Z.ltb_spec MAXS (sval a + sval b)).
    + rewrite chk_i_out by lia. done.
    + rewrite chk_i_in by lia. cbn. f_equal. apply canonical_of_sval. lia.
  - rewrite (inner_nonneg a) by done. rewrite geb_val by auto with namada.
    rewrite chk_i_in by lia. vals. destruct (Z.leb_spec (Z.abs (sval b)) (sval a)).
    + rewrite checked_sub_law by auto with namada. vals. rewrite chk_in by lia. cbn.
      f_equal. replace (sval a - Z.abs (sval b)) with (sval a + sval b) by lia.
      apply canonical_of_sval. lia.
    + rewrite checked_sub_law by auto with namada. vals. rewrite chk_in by lia.
      cbn -[of_val]. rewrite checked_neg_of_sval by lia. cbn -[of_val]. f_equal.
      replace (- (Z.abs (sval b) - sval a)) with (sval a + sval b) by lia.
      apply canonical_of_sval. lia.
  - rewrite (inner_nonneg b) by done. rewrite geb_val by auto with namada.
    rewrite chk_i_in by lia. vals. destruct (Z.leb_spec (Z.abs (sval a)) (sval b)).
    + rewrite checked_sub_law by auto with namada. vals. rewrite chk_in by lia. cbn.
      f_equal. replace (Z.abs (sval b) - Z.abs (sval a)) with (sval a + sval b) by lia.
      apply canonical_of_sval. lia.
    + rewrite checked_sub_law by auto with namada. vals. rewrite chk_in by lia.
      cbn -[of_val]. rewrite checked_neg_of_sval by lia. cbn -[of_val]. f_equal.
      replace (- (Z.abs (sval a) - sval b)) with (sval a + sval b) by lia.
      apply canonical_of_sval. lia.
  - rewrite checked_add_law by auto with namada. vals. rewrite chk_in by lia.
    cbn -[of_val]. rewrite gtb_MAXS by auto with namada. vals.
    destruct (Z.ltb_spec MAXS (Z.abs (sval a) + Z.abs (sval b))).
    + rewrite chk_i_out by lia. done.
    + rewrite chk_i_in by lia. rewrite checked_neg_of_sval by lia. cbn -[of_val]. f_equal.
      replace (- (Z.abs (sval a) + Z.abs (sval b))) with (sval a + sval b) by lia.
      apply canonical_of_sval. lia.
Qed.

Lemma checked_sub_sval a b : wf_i256 a → wf_i256 b →
  I256M.checked_sub a b = of_sval <$> chk_i (sval a - sval b).
Proof.
  intros Ha Hb. sbound b. unfold I256M.checked_sub.
  rewrite checked_neg_sval by done. cbn [mbind option_bind].
  rewrite checked_add_sval by (auto with namada; apply wf_of_sval; lia).
  rewrite sval_of_sval by lia. by rewrite Z.add_opp_r.
Qed.

Lemma checked_mul_sval a b : wf_i256 a → wf_i256 b →
  I256M.checked_mul a b = of_sval <$> chk_i (sval a * sval b).
Proof.
  intros Ha Hb. sbound a. sbound b. unfold I256M.checked_mul.
  rewrite !abs_sval, checked_mul_law, !is_negative_sval by auto with namada. vals.
  assert (Habs : Z.abs (sval a * sval b) = Z.abs (sval a) * Z.abs (sval b)) by apply Z.abs_mul.
  destruct (Z.le_gt_cases (Z.abs (sval a * sval b)) MAXS) as [Hin|Hout].
  - rewrite chk_in, chk_i_in by lia. cbn [fmap option_fmap option_map mbind option_bind].
    rewrite try_from_val by auto with namada. vals. rewrite <-Habs, chk_i_in by lia.
    cbn [fmap option_fmap option_map mbind option_bind].
    destruct (Z.ltb_spec (sval a) 0), (Z.ltb_spec (sval b) 0); cbn [xorb];
      rewrite ?neg_of_sval by lia; do 2 f_equal; nia.
  - rewrite (chk_i_out (sval a * sval b)) by lia. unfold chk. destruct (in_u 256 _) eqn:E; [|done].
    apply in_u_spec in E. cbn [fmap option_fmap option_map mbind option_bind].
    rewrite try_from_val by auto with namada. vals. rewrite chk_i_out by lia. done.
Qed.

Lemma fixed_precision_div_val a b d :
  wf_uint a → wf_uint b → 0 ≤ d ≤ u8_max →
  Div512.fixed_precision_div a b d =
  if (val b =? 0) || (2 ^ 256 <=? 10 ^ d) || (2 ^ 256 <=? 10 ^ d * val a / val b) then None
  else Some (of_val (10 ^ d * val a / val b)).
Proof.
  intros Ha Hb Hd. unfold Div512.fixed_precision_div.
  rewrite !uint_from_law, checked_pow_law by (auto with namada; lia). vals. unfold chk.
  assert (Hp : 0 < 10 ^ d) by (apply Z.pow_pos_nonneg; lia).
  destruct (Z.leb_spec (2 ^ 256) (10 ^ d)) as [Hov|Hfit].
  - rewrite (proj2 (in_u_false _ _)) by lia. rewrite orb_true_r. done.
  - rewrite (proj2 (in_u_spec _ _)) by lia. rewrite orb_false_r.
    cbn [fmap option_fmap option_map mbind option_bind].
    rewrite checked_mul_div_spec by auto with namada. vals. by destruct (_ || _).
Qed.

Lemma checked_div_sval a b : wf_i256 a → wf_i256 b →
  I256M.checked_div a b =
  if sval b =? 0 then None else Some (of_sval (Z.quot (sval a) (sval b))).
Proof.
  intros Ha Hb. sbound a. sbound b. unfold I256M.checked_div.
  rewrite is_zero_sval, !abs_sval, !is_negative_sval by done.
  destruct (Z.eqb_spec (sval b) 0) as [|Hne]; [done|].
  rewrite fixed_precision_div_val by (auto with namada; lia). vals.
  rewrite Z.pow_0_r, Z.mul_1_l.
  assert (Hq : 0 ≤ Z.abs (sval a) / Z.abs (sval b) ≤ MAXS).
  { split; [apply Z.div_pos; lia|]. etrans; [apply Z.div_le_mono with (b := MAXS); lia|].
    apply Z.div_le_upper_bound; lia. }
  destruct (Z.eqb_spec (Z.abs (sval b)) 0); [lia|].
  destruct (Z.leb_spec (2 ^ 256) 1); [lia|].
  destruct (Z.leb_spec (2 ^ 256) (Z.abs (sval a) / Z.abs (sval b))); [lia|].
  cbn [orb default from_option]. unfold id.
  rewrite (Z.quot_div (sval a) (sval b)) by done.
  destruct (Z.eq_dec (sval a) 0) as [E0|].
  { rewrite E0, Z.abs_0, Z.div_0_l, Z.mul_0_r by lia.
    destruct (sval b <? 0); cbn [Z.ltb Z.compare eqb];
      rewrite ?checked_neg_of_sval by (cbn; lia); done. }
  destruct (Z.ltb_spec (sval a) 0), (Z.ltb_spec (sval b) 0); cbn [eqb];
    rewrite ?checked_neg_of_sval by lia;
    rewrite ?(Z.sgn_pos (sval a)), ?(Z.sgn_neg (sval a)), ?(Z.sgn_pos (sval b)),
      ?(Z.sgn_neg (sval b)) by lia; unfold of_sval; do 3 f_equal; lia.
Qed.

Lemma checked_rem_sval a b : wf_i256 a → wf_i256 b →
  I256M.checked_rem a b =
  if sval b =? 0 then None else Some (of_sval (Z.rem (sval a) (sval b))).
Proof.
  intros Ha Hb. sbound a. sbound b. unfold I256M.checked_rem.
  rewrite !abs_sval, checked_rem_law, is_negative_sval by auto with namada. vals.
  destruct (Z.eqb_spec (sval b) 0) as [->|Hne]; [done|].
  destruct (Z.eqb_spec (Z.abs (sval b)) 0); [lia|]. cbn [mbind option_bind].
  pose proof (Z.mod_pos_bound (Z.abs (sval a)) (Z.abs (sval b)) ltac:(lia)).
  rewrite (Z.rem_mod (sval a) (sval b)) by done.
  destruct (Z.ltb_spec (sval a) 0).
  - rewrite checked_neg_of_sval by lia. rewrite (Z.sgn_neg (sval a)) by lia. do 2 f_equal; lia.
  - destruct (Z.eq_dec (sval a) 0) as [->|]; [by rewrite Z.mod_0_l by lia|].
    rewrite (Z.sgn_pos (sval a)), Z.mul_1_l by lia. done.
Qed.

Lemma cmp_sval a b : wf_i256 a → wf_i256 b → I256M.cmp a b = (sval a ?= sval b).
Proof.
  intros Ha Hb. sbound a. sbound b. unfold I256M.cmp.
  rewrite !non_negative_sval, !abs_sval, !cmp_law by auto with namada. vals.
  destruct (Z.leb_spec 0 (sval a)), (Z.leb_spec 0 (sval b)).
  - by rewrite !Z.abs_eq.
  - symmetry. apply Z.compare_gt_iff. lia.
  - symmetry. apply Z.compare_lt_iff. lia.
  - rewrite !Z.abs_neq by lia. by rewrite Z.compare_opp.
Qed.

Lemma zero_of_sval : I256M.zero = of_sval 0.
Proof. unfold I256M.zero. by rewrite zero_of_val. Qed.

Lemma sum_sval l : Forall wf_i256 l →
  ∀ acc, Z.abs acc ≤ MAXS →
  foldl (λ acc x, a ← acc; I256M.checked_add a x) (Some (of_sval acc)) l
  = of_sval <$> foldl (λ acc x, a ← acc; chk_i (a + x)) (Some acc) (sval <$> l).
Proof.
  induction 1 as [|x l Hx Hl IH]; intros acc Hacc; [done|].
  cbn [foldl fmap list_fmap mbind option_bind].
  rewrite checked_add_sval, sval_of_sval by auto with namada.
  unfold chk_i at 1 3. destruct (Z.leb_spec (Z.abs (acc + sval x)) MAXS).
  - apply IH. done.
  - cbn. clear IH Hl. by induction l; simpl.
Qed.

Lemma to_i128_sval a : wf_i256 a →
  I256M.to_i128 a =
  if sval a =? i128_min then Ok i128_min
  else if 2 ^ 127 <=? Z.abs (sval a) mod 2 ^ 128 then Err ()
  else Ok (Z.sgn (sval a) * (Z.abs (sval a) mod 2 ^ 128)).
Proof.
  intros Ha. sbound a. unfold I256M.to_i128.
  rewrite uint_from_law, checked_neg_of_sval by lia.
  rewrite abs_sval, low_u128_law, non_negative_sval by auto with namada. vals.
  case_bool_decide as E.
  - rewrite E, sval_of_sval by lia. done.
  - destruct (Z.eqb_spec (sval a) i128_min) as [E'|].
    { exfalso. apply E. by rewrite <-(of_sval_sval a), E'. }
    destruct (Z.leb_spec (2 ^ 127) (Z.abs (sval a) mod 2 ^ 128)); [done|]. f_equal.
    destruct (Z.eq_dec (sval a) 0) as [->|]; [done|].
    destruct (Z.leb_spec 0 (sval a)).
    + rewrite Z.sgn_pos by lia. lia.
    + rewrite Z.sgn_neg by lia. lia.
Qed.

Lemma from_i128_sval v : i128_min ≤ v < 2 ^ 127 → I256M.from_i128 v = Some (of_sval v).
Proof.
  intros Hv. unfold I256M.from_i128. destruct (Z.eqb_spec v i128_min) as [->|].
  - by rewrite uint_from_law, checked_neg_of_sval by lia.
  - destruct (Z.ltb_spec v 0).
    + rewrite uint_from_law, checked_neg_of_sval by lia. by rewrite Z.opp_involutive.
    + by rewrite uint_from_law by lia.
Qed.

Lemma masp_digit_val v p :
  is_u64 v → wf_uint (mk_uint (<[pos_index p := v]> [0; 0; 0; 0])) ∧
  val (mk_uint (<[pos_index p := v]> [0; 0; 0; 0])) = v * 2 ^ (64 * Z.of_nat (pos_index p)).
Proof.
  intros Hv. assert (Hlk : [0; 0; 0; 0] !! pos_index p = Some 0) by by destruct p.
  split.
  - split; cbn [words]; [|by rewrite length_insert].
    apply wf_insert; [|done]. apply (wf_replicate0 4).
  - unfold val; cbn [words]. rewrite (le_val_insert _ _ _ _ Hlk).
    change (le_val [0; 0; 0; 0]) with 0. lia.
Qed.

Lemma from_masp_denominated_sval v p : i128_min ≤ v < 2 ^ 127 →
  I256M.from_masp_denominated v p =
  if 2 ^ 64 <=? Z.abs v then Err PrecisionOverflow
  else ok_or (of_sval <$> chk_i (v * 2 ^ (64 * Z.of_nat (pos_index p)))) InvalidRange.
Proof.
  intros Hv. unfold I256M.from_masp_denominated, chk, in_u.
  destruct (Z.leb_spec (2 ^ 64) (Z.abs v)), (Z.ltb_spec (Z.abs v) (2 ^ 64)); try lia;
    rewrite (proj2 (Z.leb_le 0 (Z.abs v))) by lia; [done|].
  cbn [andb ok_or mbind res_bind].
  destruct (masp_digit_val (Z.abs v) p) as [Hw Hval]; [unfold is_u64; lia|].
  set (r := mk_uint _) in *. set (P := 2 ^ (64 * Z.of_nat (pos_index p))) in *.
  assert (HP : 0 < P) by (unfold P; lia).
  assert (Habs : Z.abs (v * P) = Z.abs v * P) by (rewrite Z.abs_mul; lia).
  pose proof (val_bound r Hw).
  rewrite leb_val, val_MAX_SIGNED, Hval by (done || apply wf_MAX_SIGNED).
  unfold chk_i. rewrite Habs. destruct (Z.leb_spec (Z.abs v * P) MAXS); [|done].
  cbn [fmap option_fmap option_map ok_or].
  destruct (Z.ltb_spec v 0).
  - rewrite negate_val, Hval by done.
    destruct (Z.eqb_spec (Z.abs v * P) 0); [nia|].
    destruct (Z.eqb_spec (Z.abs v * P) (2 ^ 255)); [lia|].
    unfold of_sval. rewrite of_val_neg. do 3 f_equal. nia.
  - rewrite <-(of_val_val r Hw), Hval. rewrite Z.abs_eq by lia.
    f_equal. apply canonical_of_sval. lia.
Qed.
End laws.

(** On canonical [I256]s, [checked_add], [checked_sub], [checked_mul] and
    [checked_neg] are the integer operations, [None] exactly when the result
    exceeds [MAX_SIGNED_VALUE] in absolute value; [checked_div] and
    [checked_rem] are truncated division, [None] exactly on a zero divisor; and
    [cmp] is the order of the integers. *)
Theorem i256_refines_integers (U : UintApi) (L : UintLaws U) (K : UintKernel) (KL : KernelLaws K)
    (a b : I256) :
  wf_i256 a → wf_i256 b →
  I256M.checked_add a b = of_sval <$> chk_i (sval a + sval b) ∧
  I256M.checked_sub a b = of_sval <$> chk_i (sval a - sval b) ∧
  I256M.checked_mul a b = of_sval <$> chk_i (sval a * sval b) ∧
  I256M.checked_neg a = Some (of_sval (- sval a)) ∧
  I256M.checked_div a b =
    (if sval b =? 0 then None else Some (of_sval (Z.quot (sval a) (sval b)))) ∧
  I256M.checked_rem a b =
    (if sval b =? 0 then None else Some (of_sval (Z.rem (sval a) (sval b)))) ∧
  I256M.cmp a b = (sval a ?= sval b).
Proof.
  intros Ha Hb. split_and!.
  - by apply checked_add_sval.
  - by apply checked_sub_sval.
  - by apply checked_mul_sval.
  - by apply checked_neg_sval.
  - by apply checked_div_sval.
  - by apply checked_rem_sval.
  - by apply cmp_sval.
Qed.

Lemma i256_refines_integers_witness :
  I256M.checked_add (of_sval (-7)) (of_sval 3) = Some (of_sval (-4)) ∧
  I256M.checked_mul (of_sval (- 2 ^ 200)) (of_sval (2 ^ 100)) = None ∧
  I256M.checked_div (of_sval (-7)) (of_sval 2) = Some (of_sval (-3)).
Proof.
  pose proof (i256_refines_integers uint_ref uint_ref_laws kernel_ref kernel_ref_laws) as H.
  split; [|split].
  - destruct (H (of_sval (-7)) (of_sval 3)) as (-> & _); [apply wf_of_sval; lia..|].
    vm_compute. reflexivity.
  - destruct (H (of_sval (- 2 ^ 200)) (of_sval (2 ^ 100))) as (_ & _ & -> & _);
      [apply wf_of_sval; lia..|]. vm_compute. reflexivity.
  - destruct (H (of_sval (-7)) (of_sval 2)) as (_ & _ & _ & _ & -> & _);
      [apply wf_of_sval; lia..|]. vm_compute. reflexivity.
Defined.

(** [From<i128>] followed by [TryFrom<I256>] gives the number back; but the
    converse conversion reads only the low 128 bits of the absolute value, so a
    value outside the [i128] range is not rejected when those bits are small:
    it is truncated. *)
Theorem i128_conversions (U : UintApi) (L : UintLaws U) (K : UintKernel) (KL : KernelLaws K)
    (v hi lo : Z) :
  i128_min ≤ v < 2 ^ 127 → 0 ≤ lo < 2 ^ 127 → 0 < hi < 2 ^ 127 →
  (∃ a, I256M.from_i128 v = Some a ∧ sval a = v ∧ I256M.to_i128 a = Ok v) ∧
  I256M.to_i128 (of_sval (hi * 2 ^ 128 + lo)) = Ok lo.
Proof.
  intros Hv Hlo Hhi. split.
  - exists (of_sval v). rewrite from_i128_sval, to_i128_sval, sval_of_sval by
      (auto with namada; try apply wf_of_sval; lia). split; [done|]. split; [done|].
    destruct (Z.eqb_spec v i128_min) as [->|]; [done|].
    rewrite Z.mod_small by lia.
    destruct (Z.leb_spec (2 ^ 127) (Z.abs v)); [lia|]. f_equal. lia.
  - rewrite to_i128_sval, sval_of_sval by (try apply wf_of_sval; lia).
    destruct (Z.eqb_spec (hi * 2 ^ 128 + lo) i128_min); [lia|].
    rewrite Z.abs_eq, Z.add_comm, Z.mod_add, Z.mod_small by lia.
    destruct (Z.leb_spec (2 ^ 127) lo); [lia|]. rewrite Z.sgn_pos by lia. f_equal. lia.
Qed.

Lemma i128_conversions_witness :
  I256M.to_i128 (of_sval (2 ^ 128 + 5)) = Ok 5.
Proof.
  destruct (i128_conversions uint_ref uint_ref_laws kernel_ref kernel_ref_laws (-1) 1 5)
    as [_ H]; [lia..|]. exact H.
Defined.
