(* ===== verification/Dec.v ===== *)
(** * Fixed-precision decimals (crates/core/src/dec.rs)

    A [Dec] is an [I256] counting units of [10^-12]; [dval] is that count.  The
    arithmetic is shown to be the arithmetic of [ZDec] below, the interface
    against which the clients of [Dec] (the inflation controller, rewards,
    slashing, tallies) are verified. *)

From S2P Require Import Prelude Words Uint Decimal UintDiv KnuthD I256.

Record Dec : Type := mk_dec { dec_inner : I256 }.

#[global] Instance Dec_eq_dec : EqDecision Dec.
Proof. solve_decision. Defined.

Definition POS_DECIMAL_PRECISION : Z := 12.

Module DecM.
Section ops.
Context {U : UintApi} {K : UintKernel}.

(** [Uint::exp10(usize::from(POS_DECIMAL_PRECISION))] *)
Definition scale : option Uint := exp10 12.

Definition zero : Dec := mk_dec I256M.zero.
Definition is_zero (a : Dec) : bool := bool_decide (a = zero).
Definition is_negative (a : Dec) : bool := I256M.is_negative (dec_inner a).
Definition abs (a : Dec) : Uint := I256M.abs (dec_inner a).

Definition trunc_div (a rhs : Dec) : option Dec :=
  let is_neg := xorb (I256M.is_negative (dec_inner a)) (I256M.is_negative (dec_inner rhs)) in
  let inner_uint := I256M.abs (dec_inner a) in
  let inner_rhs_uint := I256M.abs (dec_inner rhs) in
  match Div512.fixed_precision_div inner_uint inner_rhs_uint POS_DECIMAL_PRECISION with
  | Some res =>
      r ← I256M.try_from res;
      if is_neg then mk_dec <$> I256M.checked_neg r else Some (mk_dec r)
  | None => None
  end.

Definition checked_sub (a rhs : Dec) : option Dec :=
  mk_dec <$> I256M.checked_sub (dec_inner a) (dec_inner rhs).
Definition checked_add (a other : Dec) : option Dec :=
  mk_dec <$> I256M.checked_add (dec_inner a) (dec_inner other).

Definition checked_mul (a other : Dec) : option Dec :=
  result ← I256M.checked_mul (dec_inner a) (dec_inner other);
  sc ← scale;
  mk_dec <$> I256M.checked_div result (mk_i256 sc).

Definition checked_div (a rhs : Dec) : option Dec := trunc_div a rhs.
Definition checked_neg (a : Dec) : option Dec := mk_dec <$> I256M.checked_neg (dec_inner a).

(** [Dec::one], [two], [one_third], [two_thirds]; [None] is a panic of
    [expect]. *)
Definition one : option Dec :=
  sc ← scale;
  x ← Uint.checked_mul UintM.one sc;
  Some (mk_dec (mk_i256 x)).
Definition two : option Dec := o ← one; checked_add o o.

(** [impl From<i128> for Dec] and [From<u64>]. *)
Definition from_i128 (num : Z) : option Dec :=
  i ← I256M.from_i128 num;
  sc ← scale;
  mk_dec <$> I256M.checked_mul i (mk_i256 sc).
Definition from_u64 (num : Z) : option Dec :=
  i ← I256M.from_u64 num;
  sc ← scale;
  mk_dec <$> I256M.checked_mul i (mk_i256 sc).

Definition one_third : option Dec := o ← one; d ← from_i128 3; checked_div o d.
Definition two_thirds : option Dec := t ← two; d ← from_i128 3; checked_div t d.

(** [Dec::new(mantissa: i128, scale: u8)]; [i128::abs] panics on the
    minimum. *)
Definition new (mantissa scale : Z) : res unit Dec :=
  if POS_DECIMAL_PRECISION <? scale then Err ()
  else if mantissa =? i128_min then Panic
  else ok_or (
    a ← chk 64 (Z.abs mantissa);
    let scale_diff := POS_DECIMAL_PRECISION - scale in
    e ← exp10 (Z.to_nat scale_diff);
    res ← Uint.checked_mul e (uint_from a);
    if mantissa <? 0 then mk_dec <$> I256M.checked_neg (mk_i256 res)
    else Some (mk_dec (mk_i256 res))) ().

Definition cmp (a b : Dec) : comparison := I256M.cmp (dec_inner a) (dec_inner b).

Definition abs_diff (a other : Dec) : option Dec :=
  match cmp a other with
  | Gt => checked_sub a other
  | _ => checked_sub other a
  end.

Definition to_i256 (a : Dec) : option I256 :=
  sc ← scale; I256M.checked_div (dec_inner a) (mk_i256 sc).

Definition to_uint (a : Dec) : option Uint :=
  if is_negative a then None
  else sc ← scale; Uint.checked_div (I256M.abs (dec_inner a)) sc.

(** [Dec::ceil]: the unscaled floor is subtracted as it is. *)
Definition ceil (a : Dec) : option I256 :=
  if I256M.is_negative (dec_inner a) then to_i256 a
  else
    floor ← to_i256 a;
    if default false (is_zero <$> checked_sub a (mk_dec floor))
    then Some floor
    else I256M.checked_add floor I256M.one.

(** [impl TryFrom<Uint> for Dec], [TryFrom<I256>], [TryFrom<u128>]. *)
Definition try_from_uint (v : Uint) : option Dec :=
  i ← I256M.try_from v;
  sc ← scale;
  mk_dec <$> I256M.checked_mul i (mk_i256 sc).
Definition try_from_i256 (num : I256) : option Dec :=
  sc ← scale; mk_dec <$> I256M.checked_mul num (mk_i256 sc).
Definition try_from_u128 (num : Z) : option Dec :=
  i ← I256M.try_from (uint_from num);
  sc ← scale; mk_dec <$> I256M.checked_mul i (mk_i256 sc).
(** [impl TryFrom<token::Amount> for Dec], on the raw amount. *)
Definition try_from_amount (raw : Uint) : option Dec :=
  i ← I256M.try_from raw;
  e ← exp10 6;
  mk_dec <$> I256M.checked_mul i (mk_i256 e).
(** [impl TryFrom<Dec> for i128]. *)
Definition to_i128 (a : Dec) : res unit Z := I256M.to_i128 (dec_inner a).

(** [I256::mul_ceil]. *)
Definition i256_mul_ceil (a : I256) (dec : Dec) : option I256 :=
  let is_res_negative := xorb (I256M.is_negative a) (is_negative dec) in
  tot ← Uint.checked_mul (I256M.abs a) (I256M.abs (dec_inner dec));
  let denom := uint_from (10 ^ 12) in
  floor_div ← Uint.checked_div tot denom;
  rem ← Uint.checked_rem tot denom;
  abs_res ← (if negb (UintM.is_zero rem) && negb is_res_negative
             then Uint.checked_add floor_div (uint_from 1) else Some floor_div);
  if is_res_negative then I256M.checked_neg (mk_i256 abs_res) else Some (mk_i256 abs_res).

(** [impl FromStr for Dec]; [None] is an error. *)
Definition from_str {T : UintText} (s : text) : option Dec :=
  let '((large, small), is_neg) :=
    match strip_prefix minus s with
    | Some strip => (default (strip, [zero_char]) (split_once dot strip), true)
    | None => (default (s, [zero_char]) (split_once dot s), false)
    end in
  num_large ← from_str_radix_10 large;
  if decide (small = []) then None else
  let trimmed := take 12 (trim_end zero_char small) in
  decimal_part ←
    (if decide (trimmed = []) then Some UintM.zero
     else
       let len_diff := (12 - length trimmed)%nat in
       d ← from_str_radix_10 trimmed;
       e ← exp10 len_diff;
       Uint.checked_mul d e);
  sc ← scale;
  int_part ← Uint.checked_mul sc num_large;
  sum ← Uint.checked_add int_part decimal_part;
  inner ← I256M.try_from sum;
  if is_neg : bool then mk_dec <$> I256M.checked_neg inner else Some (mk_dec inner).

(** [impl Display for Dec]. *)
Definition to_string {T : UintText} (a : Dec) : text :=
  let is_neg := is_negative a in
  let string := uint_to_string (I256M.abs (dec_inner a)) in
  let string :=
    if decide (12 < length string)%nat then
      let idx := (length string - 12)%nat in
      take idx string ++ dot :: drop idx string
    else
      let end_ := (12 - length string)%nat in
      [zero_char; dot] ++ replicate end_ zero_char ++ string in
  let stripped_string := trim_end zero_char string in
  let stripped_string := trim_end dot stripped_string in
  if decide (stripped_string = []) then [zero_char]
  else if is_neg then minus :: stripped_string else stripped_string.

End ops.
End DecM.

(** ** The abstract decimal: an integer count of [10^-12] *)

Abbreviation E12 := (10 ^ 12).

Module ZDec.
Definition add (a b : Z) : option Z := chk_i (a + b).
Definition sub (a b : Z) : option Z := chk_i (a - b).
Definition neg (a : Z) : option Z := Some (- a).
Definition mul (a b : Z) : option Z := (λ p, Z.quot p E12) <$> chk_i (a * b).
Definition div (a b : Z) : option Z :=
  if b =? 0 then None else chk_i (Z.quot (E12 * a) b).
Definition to_uint (a : Z) : option Z := if a <? 0 then None else Some (a / E12).
Definition try_from_uint (v : Z) : option Z := chk_i (v * E12).
Definition try_from_amount (v : Z) : option Z := chk_i (v * 10 ^ 6).
Definition from_u64 (v : Z) : option Z := chk_i (v * E12).
End ZDec.

Definition dval (a : Dec) : Z := sval (dec_inner a).
Definition of_dval (z : Z) : Dec := mk_dec (of_sval z).
Definition wf_dec (a : Dec) : Prop := wf_i256 (dec_inner a).

Lemma dval_bound a : wf_dec a → Z.abs (dval a) ≤ MAXS.
Proof. apply sval_bound. Qed.

Lemma dval_of_dval z : Z.abs z ≤ MAXS → dval (of_dval z) = z.
Proof. apply sval_of_sval. Qed.

Lemma wf_of_dval z : Z.abs z ≤ MAXS → wf_dec (of_dval z).
Proof. apply wf_of_sval. Qed.

Lemma of_dval_dval a : wf_dec a → of_dval (dval a) = a.
Proof. intros. unfold of_dval, dval. rewrite of_sval_sval by done. by destruct a. Qed.

Lemma abs_sgn_1 z : z ≠ 0 → Z.abs (Z.sgn z) = 1.
Proof. by destruct z. Qed.

(** Truncated division is off by less than the divisor, towards zero. *)
Lemma quot_error p d : d ≠ 0 →
  Z.abs (p - Z.quot p d * d) < Z.abs d ∧ 0 ≤ p * d * Z.quot p d.
Proof.
  intros Hd. pose proof (Z.quot_rem' p d). pose proof (Z.rem_bound_abs p d Hd).
  split; [lia|]. rewrite Z.quot_div by done.
  replace (p * d * _) with (Z.abs p * Z.abs d * (Z.abs p / Z.abs d))
    by (rewrite <-!(Z.sgn_abs p), <-!(Z.sgn_abs d) at 1; ring).
  assert (0 ≤ Z.abs p / Z.abs d) by (apply Z.div_pos; lia).
  apply Z.mul_nonneg_nonneg; [apply Z.mul_nonneg_nonneg|]; lia.
Qed.

Section laws.
Context {U : UintApi} {L : UintLaws U} {K : UintKernel} {KL : KernelLaws K}.

Lemma scale_val : DecM.scale = Some (of_val E12).
Proof. unfold DecM.scale. rewrite exp10_law. rewrite chk_in by (cbn; lia). done. Qed.

Lemma scale_sval : of_sval E12 = mk_i256 (of_val E12).
Proof. done. Qed.

Lemma fmap_mk_dec (o : option Z) : mk_dec <$> (of_sval <$> o) = of_dval <$> o.
Proof. by destruct o. Qed.

Lemma mul_scale i : wf_i256 i →
  I256M.checked_mul i (mk_i256 (of_val E12)) = of_sval <$> chk_i (sval i * E12).
Proof.
  intros. rewrite <-scale_sval, checked_mul_sval by (done || apply wf_of_sval; cbn; lia).
  rewrite sval_of_sval by (cbn; lia). done.
Qed.

Lemma div_scale i : wf_i256 i →
  I256M.checked_div i (mk_i256 (of_val E12)) = Some (of_sval (Z.quot (sval i) E12)).
Proof.
  intros. rewrite <-scale_sval, checked_div_sval by (done || apply wf_of_sval; cbn; lia).
  rewrite sval_of_sval by (cbn; lia). done.
Qed.

Lemma dec_add_refines a b : wf_dec a → wf_dec b →
  DecM.checked_add a b = of_dval <$> ZDec.add (dval a) (dval b).
Proof. intros. unfold DecM.checked_add. by rewrite checked_add_sval, fmap_mk_dec. Qed.

Lemma dec_sub_refines a b : wf_dec a → wf_dec b →
  DecM.checked_sub a b = of_dval <$> ZDec.sub (dval a) (dval b).
Proof. intros. unfold DecM.checked_sub. by rewrite checked_sub_sval, fmap_mk_dec. Qed.

Lemma dec_neg_refines a : wf_dec a →
  DecM.checked_neg a = of_dval <$> ZDec.neg (dval a).
Proof. intros. unfold DecM.checked_neg. by rewrite checked_neg_sval. Qed.

Lemma dec_mul_refines a b : wf_dec a → wf_dec b →
  DecM.checked_mul a b = of_dval <$> ZDec.mul (dval a) (dval b).
Proof.
  intros Ha Hb. unfold DecM.checked_mul, ZDec.mul, dval.
  rewrite checked_mul_sval by done. unfold chk_i.
  destruct (Z.leb_spec (Z.abs (sval (dec_inner a) * sval (dec_inner b))) MAXS); [|done].
  cbn [fmap option_fmap option_map mbind option_bind]. rewrite scale_val. cbn [mbind option_bind].
  rewrite div_scale by auto with namada. by rewrite sval_of_sval.
Qed.

Lemma dec_div_refines a b : wf_dec a → wf_dec b →
  DecM.checked_div a b = of_dval <$> ZDec.div (dval a) (dval b).
Proof.
  intros Ha Hb. pose proof (dval_bound a Ha). pose proof (dval_bound b Hb).
  unfold DecM.checked_div, DecM.trunc_div, ZDec.div, POS_DECIMAL_PRECISION.
  rewrite !abs_sval, !is_negative_sval by done. fold (dval a) (dval b).
  rewrite fixed_precision_div_val by (auto with namada; lia). vals.
  destruct (Z.eqb_spec (dval b) 0) as [->|Hb0]; [done|].
  destruct (Z.eqb_spec (Z.abs (dval b)) 0); [lia|].
  destruct (Z.leb_spec (2 ^ 256) E12); [cbn in *; lia|]. cbn [orb].
  set (m := E12 * Z.abs (dval a) / Z.abs (dval b)).
  assert (Hm : 0 ≤ m) by (apply Z.div_pos; lia).
  assert (Hq : Z.quot (E12 * dval a) (dval b) = Z.sgn (dval a) * Z.sgn (dval b) * m).
  { rewrite Z.quot_div by done. rewrite Z.abs_mul, Z.sgn_mul. change (Z.sgn E12) with 1.
    rewrite Z.mul_1_l. change (Z.abs E12) with E12. done. }
  assert (Ha0 : dval a = 0 → m = 0).
  { intros E. unfold m. rewrite E, Z.abs_0, Z.mul_0_r. apply Z.div_0_l. lia. }
  assert (Habs : Z.abs (Z.quot (E12 * dval a) (dval b)) = m).
  { rewrite Hq. destruct (Z.eq_dec (dval a) 0) as [E|]; [rewrite E, (Ha0 E); done|].
    rewrite !Z.abs_mul, !abs_sgn_1 by done. lia. }
  unfold chk_i. rewrite Habs. destruct (Z.leb_spec (2 ^ 256) m).
  { destruct (Z.leb_spec m MAXS); [lia|done]. }
  rewrite try_from_val by auto with namada. vals. unfold chk_i. rewrite (Z.abs_eq m) by done.
  destruct (Z.leb_spec m MAXS); [|done].
  cbn [fmap option_fmap option_map mbind option_bind]. rewrite Hq.
  destruct (Z.eq_dec (dval a) 0) as [E|].
  { rewrite E, (Ha0 E). rewrite neg_of_sval by (cbn; lia). by destruct (xorb _ _). }
  destruct (Z.ltb_spec (dval a) 0), (Z.ltb_spec (dval b) 0); cbn [xorb];
    rewrite ?neg_of_sval by lia; cbn [fmap option_fmap option_map];
    rewrite ?(Z.sgn_pos (dval a)), ?(Z.sgn_neg (dval a)), ?(Z.sgn_pos (dval b)),
      ?(Z.sgn_neg (dval b)) by lia; unfold of_dval, of_sval; do 4 f_equal; lia.
Qed.

Lemma dec_to_uint_refines a : wf_dec a →
  DecM.to_uint a = of_val <$> ZDec.to_uint (dval a).
Proof.
  intros Ha. pose proof (dval_bound a Ha). unfold DecM.to_uint, DecM.is_negative, ZDec.to_uint.
  rewrite is_negative_sval, abs_sval, scale_val by done. fold (dval a).
  destruct (Z.ltb_spec (dval a) 0); [done|]. cbn [mbind option_bind fmap option_fmap option_map].
  rewrite checked_div_law by auto with namada. vals. rewrite Z.abs_eq by lia. done.
Qed.

Lemma dec_try_from_uint_refines v : wf_uint v →
  DecM.try_from_uint v = of_dval <$> ZDec.try_from_uint (val v).
Proof.
  intros Hv. bound v. unfold DecM.try_from_uint, ZDec.try_from_uint.
  rewrite try_from_val by done. unfold chk_i at 1. rewrite Z.abs_eq by lia.
  destruct (Z.leb_spec (val v) MAXS).
  - cbn [mbind option_bind fmap option_fmap option_map]. rewrite scale_val. cbn [mbind option_bind].
    rewrite mul_scale, sval_of_sval by (auto with namada; try apply wf_of_sval; lia).
    apply fmap_mk_dec.
  - rewrite chk_i_out; [done|]. rewrite Z.abs_mul, (Z.abs_eq (val v)) by lia.
    change (Z.abs E12) with E12. lia.
Qed.

Lemma dec_try_from_amount_refines v : wf_uint v →
  DecM.try_from_amount v = of_dval <$> ZDec.try_from_amount (val v).
Proof.
  intros Hv. bound v. unfold DecM.try_from_amount, ZDec.try_from_amount.
  rewrite try_from_val by done. unfold chk_i at 1. rewrite Z.abs_eq by lia.
  destruct (Z.leb_spec (val v) MAXS).
  - cbn [mbind option_bind fmap option_fmap option_map]. rewrite exp10_law, chk_in by (cbn; lia). cbn [fmap option_fmap option_map mbind option_bind].
    change (mk_i256 (of_val (10 ^ 6))) with (of_sval (10 ^ 6)).
    rewrite checked_mul_sval, !sval_of_sval by (try apply wf_of_sval; cbn; lia). apply fmap_mk_dec.
  - rewrite chk_i_out; [done|]. rewrite Z.abs_mul, (Z.abs_eq (val v)) by lia. change (Z.abs (10 ^ 6)) with (10 ^ 6). lia.
Qed.

Lemma dec_from_u64_refines v : 0 ≤ v < 2 ^ 64 →
  DecM.from_u64 v = Some (of_dval (v * E12)) ∧ ZDec.from_u64 v = Some (v * E12).
Proof.
  intros Hv. assert (Z.abs (v * E12) ≤ MAXS) by (rewrite Z.abs_eq by lia; cbn; lia).
  split; [|by apply chk_i_in].
  unfold DecM.from_u64, I256M.from_u64.
  rewrite uint_from_law, try_from_val by (auto with namada; lia). vals.
  rewrite chk_i_in by lia. cbn [fmap option_fmap option_map mbind option_bind].
  rewrite scale_val. cbn [mbind option_bind].
  rewrite mul_scale, sval_of_sval by (try apply wf_of_sval; lia). by rewrite chk_i_in.
Qed.

(** A partial operation on [Dec] implements one on integers: same failures,
    related results. *)
Definition implements2 (f : Dec → Dec → option Dec) (g : Z → Z → option Z) : Prop :=
  ∀ a b, wf_dec a → wf_dec b →
    match f a b with
    | Some r => wf_dec r ∧ g (dval a) (dval b) = Some (dval r)
    | None => g (dval a) (dval b) = None
    end.

Lemma implements2_intro f g :
  (∀ a b, wf_dec a → wf_dec b → f a b = of_dval <$> g (dval a) (dval b)) →
  (∀ x y z, Z.abs x ≤ MAXS → Z.abs y ≤ MAXS → g x y = Some z → Z.abs z ≤ MAXS) →
  implements2 f g.
Proof using Type.
  intros Hf Hg a b Ha Hb. rewrite Hf by done.
  destruct (g (dval a) (dval b)) as [z|] eqn:E; [|done]. cbn.
  assert (Z.abs z ≤ MAXS) by eauto using dval_bound.
  split; [by apply wf_of_dval|]. by rewrite dval_of_dval.
Qed.

Lemma chk_i_bound z r : chk_i z = Some r → Z.abs r ≤ MAXS.
Proof using Type. unfold chk_i. intros. case_res. by boolp. Qed.

Lemma quot_abs_le p d : 0 < d → Z.abs (Z.quot p d) ≤ Z.abs p.
Proof using Type.
  intros. rewrite Z.quot_div, !Z.abs_mul by lia. rewrite (Z.sgn_pos d), (Z.abs_eq d) by lia.
  assert (0 ≤ Z.abs p / d ≤ Z.abs p).
  { split; [apply Z.div_pos; lia|]. apply Z.div_le_upper_bound; nia. }
  rewrite (Z.abs_eq (Z.abs p / d)) by lia. destruct p; cbn in *; lia.
Qed.

Lemma ZDec_mul_bound x y z : ZDec.mul x y = Some z → Z.abs z ≤ MAXS.
Proof using Type.
  unfold ZDec.mul. intros (p & Hp%chk_i_bound & ->)%fmap_Some.
  pose proof (quot_abs_le p E12 ltac:(lia)). lia.
Qed.

Lemma ZDec_div_bound x y z : ZDec.div x y = Some z → Z.abs z ≤ MAXS.
Proof using Type. unfold ZDec.div. intros. case_res. by eapply chk_i_bound. Qed.

Lemma dec_cmp_refines a b : wf_dec a → wf_dec b → DecM.cmp a b = (dval a ?= dval b).
Proof. apply cmp_sval. Qed.

Lemma one_of_sval : I256M.one = of_sval 1.
Proof. unfold I256M.one. by rewrite one_of_val. Qed.

Lemma zero_of_dval : DecM.zero = of_dval 0.
Proof. unfold DecM.zero. by rewrite zero_of_sval. Qed.

Lemma dec_is_zero_refines a : wf_dec a → DecM.is_zero a = (dval a =? 0).
Proof.
  intros Ha. unfold DecM.is_zero. apply eq_true_iff_eq.
  rewrite bool_decide_eq_true, Z.eqb_eq, zero_of_dval.
  split; [intros ->; by rewrite dval_of_dval|].
  intros H. by rewrite <-(of_dval_dval a Ha), H.
Qed.

Lemma dec_to_i256 a : wf_dec a → DecM.to_i256 a = Some (of_sval (Z.quot (dval a) E12)).
Proof. intros. unfold DecM.to_i256. rewrite scale_val. by apply div_scale. Qed.

(** ** Text *)

Section text.
Context {T : UintText} {TL : UintTextLaws T}.

(** The digits after the point as [from_str] reads them. *)
Lemma parse_fraction l2 : Forall is_digit l2 → length l2 = 12%nat →
  let small := trim_end zero_char (digit_char <$> l2) in
  let trimmed := take 12 (trim_end zero_char small) in
  (if decide (trimmed = []) then Some UintM.zero
   else d ← from_str_radix_10 trimmed;
        e ← exp10 (12 - length trimmed)%nat;
        Uint.checked_mul d e) = Some (of_val (dec_val l2)).
Proof.
  intros Hl Hlen. cbn zeta. rewrite trim_end_idem.
  destruct (trim_zeros_digits l2 Hl) as (l & n & -> & -> & Hl').
  rewrite length_app, length_replicate in Hlen.
  rewrite take_ge by (rewrite length_fmap; lia). rewrite length_fmap.
  pose proof (dec_val_bound l Hl') as Hb. rewrite dec_val_app, dec_val_zeros, length_replicate.
  destruct (decide (digit_char <$> l = [])) as [->%fmap_nil_inv|Hne].
  { by rewrite zero_of_val. }
  assert (H10 : 10 ^ Z.of_nat (length l) * 10 ^ Z.of_nat n = 10 ^ 12).
  { rewrite <-Z.pow_add_r by lia. f_equal. lia. }
  assert (0 < 10 ^ Z.of_nat n) by lia. assert (0 < 10 ^ Z.of_nat (length l)) by lia.
  rewrite from_str_radix_law by done. rewrite parse_dec_digits by done. cbn [mbind option_bind].
  rewrite chk_in by nia. cbn [fmap option_fmap option_map mbind option_bind].
  replace (12 - length l)%nat with n by lia. rewrite exp10_law.
  rewrite chk_in by nia. cbn [fmap option_fmap option_map mbind option_bind].
  rewrite checked_mul_law by auto with namada. vals.
  rewrite chk_in by nia. cbn. by rewrite Z.add_0_r.
Qed.

(** What is left of [l1 . l2] once zeros and the point are trimmed. *)
Lemma trim_point l1 l2 : Forall is_digit l1 → Forall is_digit l2 →
  trim_end dot (trim_end zero_char ((digit_char <$> l1) ++ dot :: (digit_char <$> l2))) =
  match trim_end zero_char (digit_char <$> l2) with
  | [] => digit_char <$> l1
  | t => (digit_char <$> l1) ++ dot :: t
  end.
Proof using Type.
  intros H1 H2. rewrite trim_end_app. cbn [trim_end].
  destruct (trim_zeros_digits l2 H2) as (l & n & -> & _ & Hl).
  destruct l as [|d l]; cbn [fmap list_fmap].
  - rewrite decide_False by done. rewrite trim_end_app. cbn.
    by rewrite trim_end_notin by (by apply notin_digits).
  - rewrite trim_end_app. cbn [trim_end].
    rewrite (trim_end_notin dot (digit_char <$> l))
      by (apply notin_digits; [done|by inversion Hl]).
    assert (digit_char d ≠ dot) by (apply digit_char_ne; [by inversion Hl|done]).
    by destruct (digit_char <$> l); [rewrite decide_False by done|].
Qed.

(** Splitting a trimmed [l1 . l2] at the point gives the digits back, up to
    trailing zeros. *)
Lemma split_trimmed l1 l2 : Forall is_digit l1 → Forall is_digit l2 → l1 ≠ [] →
  let s := trim_end dot (trim_end zero_char ((digit_char <$> l1) ++ dot :: (digit_char <$> l2))) in
  strip_prefix minus s = None ∧ s ≠ [] ∧
  ∃ small, default (s, [zero_char]) (split_once dot s) = (digit_char <$> l1, small) ∧
    small ≠ [] ∧
    trim_end zero_char small = trim_end zero_char (trim_end zero_char (digit_char <$> l2)).
Proof using Type.
  intros H1 H2 Hne s. pose proof (trim_point l1 l2 H1 H2) as Hs. fold s in Hs.
  assert (Hminus : minus ∉ digit_char <$> l1) by (by apply notin_digits).
  assert (Hdot : dot ∉ digit_char <$> l1) by (by apply notin_digits).
  rewrite Hs. set (small := trim_end zero_char (digit_char <$> l2)) in *.
  destruct l1 as [|d l1]; [done|]. split_and!.
  - apply not_elem_of_cons in Hminus as [? _].
    destruct small; cbn; by rewrite decide_False.
  - by destruct small.
  - destruct small as [|c t] eqn:E.
    + rewrite split_once_notin by done. by exists [zero_char].
    + rewrite split_once_app by done. by exists (c :: t).
Qed.

(** [from_str] on a trimmed [l1 . l2], with or without a sign. *)
Lemma from_str_point l1 l2 neg : Forall is_digit l1 → Forall is_digit l2 →
  l1 ≠ [] → length l2 = 12%nat → dec_val l1 * E12 + dec_val l2 ≤ MAXS →
  let s := trim_end dot (trim_end zero_char ((digit_char <$> l1) ++ dot :: (digit_char <$> l2))) in
  DecM.from_str (if neg : bool then minus :: s else s) =
  Some (of_dval (if neg then - (dec_val l1 * E12 + dec_val l2) else dec_val l1 * E12 + dec_val l2)).
Proof.
  intros H1 H2 Hne Hlen Hmax s.
  pose proof (dec_val_bound l1 H1). pose proof (dec_val_bound l2 H2) as Hb2.
  rewrite Hlen in Hb2. pose proof (parse_fraction l2 H2 Hlen) as Hfrac. cbn zeta in Hfrac.
  destruct (split_trimmed l1 l2 H1 H2 Hne) as (Hstrip & _ & small & Hsplit & Hne' & Htrim).
  fold s in Hstrip, Hsplit.
  assert (Hhead : (match strip_prefix minus (if neg then minus :: s else s) with
    | Some strip => (default (strip, [zero_char]) (split_once dot strip), true)
    | None => (default (if neg then minus :: s else s, [zero_char])
                 (split_once dot (if neg then minus :: s else s)), false)
    end) = ((digit_char <$> l1, small), neg)).
  { destruct neg; [|by rewrite Hstrip, Hsplit]. cbn [strip_prefix].
    rewrite decide_True by done. by rewrite Hsplit. }
  unfold DecM.from_str. rewrite Hhead.
  rewrite (from_str_radix_law (digit_char <$> l1)) by (by intros ?%fmap_nil_inv).
  rewrite parse_dec_digits by done. cbn [mbind option_bind].
  rewrite chk_in by (cbn in *; lia). cbn [fmap option_fmap option_map mbind option_bind].
  rewrite decide_False by done. rewrite Htrim, Hfrac. cbn [mbind option_bind].
  rewrite scale_val. cbn [mbind option_bind].
  rewrite checked_mul_law by auto with namada. vals. rewrite chk_in by (cbn in *; lia).
  cbn [fmap option_fmap option_map mbind option_bind].
  rewrite checked_add_law by auto with namada. vals. rewrite chk_in by (cbn in *; lia).
  cbn [fmap option_fmap option_map mbind option_bind].
  rewrite try_from_val by auto with namada. vals. rewrite chk_i_in by lia.
  cbn [fmap option_fmap option_map mbind option_bind]. rewrite neg_of_sval by lia.
  rewrite (Z.mul_comm E12). by destruct neg.
Qed.

(** [to_string] prints the digits of the absolute value, split 12 from the end. *)
Lemma to_string_point a : wf_dec a → ∃ l1 l2,
  Forall is_digit l1 ∧ Forall is_digit l2 ∧ l1 ≠ [] ∧ length l2 = 12%nat ∧
  dec_val l1 * E12 + dec_val l2 = Z.abs (dval a) ∧
  let s := trim_end dot (trim_end zero_char ((digit_char <$> l1) ++ dot :: (digit_char <$> l2))) in
  DecM.to_string a = if dval a <? 0 then minus :: s else s.
Proof.
  intros Ha. pose proof (dval_bound a Ha).
  destruct (digits_spec (Z.abs (dval a))) as (Hv & Hd & Hne); [lia|].
  unfold DecM.to_string, DecM.is_negative. rewrite abs_sval, is_negative_sval by done.
  fold (dval a). rewrite to_string_law by auto with namada. vals. unfold print_dec.
  set (l := digits (Z.abs (dval a))) in *. rewrite length_fmap.
  destruct (decide (12 < length l)%nat) as [Hlen|Hlen].
  - set (i := (length l - 12)%nat). exists (take i l), (drop i l).
    assert (H1 : Forall is_digit (take i l)) by (by apply Forall_take).
    assert (H2 : Forall is_digit (drop i l)) by (by apply Forall_drop).
    assert (Hne1 : take i l ≠ []).
    { intros E%(f_equal length). rewrite length_take in E. cbn in E. lia. }
    assert (Hl2 : length (drop i l) = 12%nat) by (rewrite length_drop; lia).
    split_and!; try done.
    + pose proof (dec_val_app (take i l) (drop i l)) as E.
      rewrite take_drop, Hl2, Hv in E. change (Z.of_nat 12) with 12 in E. lia.
    + rewrite <-fmap_take, <-fmap_drop. cbn zeta.
      destruct (split_trimmed (take i l) (drop i l) H1 H2 Hne1) as (_ & Hs & _).
      by rewrite decide_False.
  - exists [0], (replicate (12 - length l) 0 ++ l).
    assert (H1 : Forall is_digit [0]) by (repeat constructor; cbn; lia).
    assert (H2 : Forall is_digit (replicate (12 - length l) 0 ++ l)).
    { apply Forall_app. split; [|done]. apply Forall_replicate. red. lia. }
    split_and!; try done.
    + rewrite length_app, length_replicate. lia.
    + rewrite dec_val_app, dec_val_zeros, Hv. cbn. lia.
    + rewrite fmap_app, digit_char_zeros.
      destruct (split_trimmed _ _ H1 H2 ltac:(done)) as (_ & Hs & _).
      rewrite fmap_app, digit_char_zeros in Hs. cbn zeta in *. by rewrite decide_False.
Qed.
End text.
End laws.

(** A refined operation fails when its integer operation does. *)
Lemma implements2_None {f g} a b : implements2 f g → wf_dec a → wf_dec b → f a b = None ↔ g (dval a) (dval b) = None.
Proof. intros H Ha Hb. specialize (H a b Ha Hb). destruct (f a b) as [r|]; [|done]. destruct H as [_ ->]. done. Qed.

Lemma chk_i_None z : chk_i z = None ↔ MAXS < Z.abs z.
Proof. unfold chk_i. destruct (Z.leb_spec (Z.abs z) MAXS); split; done || lia. Qed.

(** C35.  [Dec] arithmetic is fixed-point arithmetic on the integer counts of [10^-12].  On well-formed
    arguments each operation returns the decimal holding the result of the operation on the counts, products and
    quotients truncated towards zero by less than one unit, or fails.  [checked_add] and [checked_sub] fail exactly
    when the sum or the difference of the counts leaves the [I256] range; [checked_div] when the divisor is zero or the quotient
    leaves it; [checked_mul] when the product of the counts leaves it before it is divided by
    [10^12], so also for some products that are decimals in range, as the comment on it says.  Comparison is that of the counts. *)
Theorem dec_refines_fixed_point (U : UintApi) (L : UintLaws U) (K : UintKernel) (KL : KernelLaws K) :
  implements2 DecM.checked_add ZDec.add ∧
  implements2 DecM.checked_sub ZDec.sub ∧
  implements2 DecM.checked_mul ZDec.mul ∧
  implements2 DecM.checked_div ZDec.div ∧
  (∀ a b, wf_dec a → wf_dec b → DecM.cmp a b = (dval a ?= dval b)) ∧
  (∀ x y z, ZDec.mul x y = Some z → Z.abs (x * y - z * E12) < E12 ∧ 0 ≤ x * y * z) ∧
  (∀ x y z, ZDec.div x y = Some z → Z.abs (E12 * x - z * y) < Z.abs y ∧ 0 ≤ x * y * z) ∧
  (∀ a b, wf_dec a → wf_dec b →
     (DecM.checked_add a b = None ↔ MAXS < Z.abs (dval a + dval b)) ∧
     (DecM.checked_sub a b = None ↔ MAXS < Z.abs (dval a - dval b)) ∧
     (DecM.checked_mul a b = None ↔ MAXS < Z.abs (dval a * dval b)) ∧
     (DecM.checked_div a b = None ↔ dval b = 0 ∨ MAXS < Z.abs (Z.quot (E12 * dval a) (dval b)))) ∧
  ∃ a b, wf_dec a ∧ wf_dec b ∧ DecM.checked_mul a b = None ∧ Z.abs (Z.quot (dval a * dval b) E12) ≤ MAXS.
Proof.
  assert (Hadd : implements2 DecM.checked_add ZDec.add) by (apply implements2_intro; [apply dec_add_refines|intros *; intros; by eapply chk_i_bound]).
  assert (Hsub : implements2 DecM.checked_sub ZDec.sub) by (apply implements2_intro; [apply dec_sub_refines|intros *; intros; by eapply chk_i_bound]).
  assert (Hmul : implements2 DecM.checked_mul ZDec.mul) by (apply implements2_intro; [apply dec_mul_refines|intros *; intros; by eapply ZDec_mul_bound]).
  assert (Hdiv : implements2 DecM.checked_div ZDec.div) by (apply implements2_intro; [apply dec_div_refines|intros *; intros; by eapply ZDec_div_bound]).
  split_and!; try done.
  - apply dec_cmp_refines.
  - intros x y z (p & Hp & ->)%fmap_Some. unfold chk_i in Hp. case_res.
    destruct (quot_error (x * y) E12); [lia|]. split; [done|nia].
  - unfold ZDec.div, chk_i. intros x y z Hz. repeat case_res. boolp.
    destruct (quot_error (E12 * x) y) as [H1 H2]; [lia|].
    split; [lia|]. nia.
  - intros a b Ha Hb. rewrite (implements2_None a b Hadd), (implements2_None a b Hsub), (implements2_None a b Hmul), (implements2_None a b Hdiv) by done.
    unfold ZDec.add, ZDec.sub, ZDec.mul, ZDec.div. rewrite fmap_None, !chk_i_None. split_and!; try done.
    destruct (Z.eqb_spec (dval b) 0); [naive_solver|]. rewrite chk_i_None. naive_solver.
  - exists (of_dval (2 ^ 200)), (of_dval (2 ^ 60)). rewrite (implements2_None _ _ Hmul) by (apply wf_of_dval; vm_compute; discriminate).
    split_and!; try (apply wf_of_dval); vm_compute; done || discriminate.
Qed.

(**  Printing a decimal and parsing it back gives the same decimal. *)
Theorem dec_string_roundtrip (U : UintApi) (L : UintLaws U) (K : UintKernel) (KL : KernelLaws K)
    (T : UintText) (TL : UintTextLaws T) (a : Dec) :
  wf_dec a → DecM.from_str (DecM.to_string a) = Some a.
Proof.
  intros Ha. pose proof (dval_bound a Ha).
  destruct (to_string_point a Ha) as (l1 & l2 & H1 & H2 & Hne & Hlen & Hv & ->).
  rewrite from_str_point by (done || lia). rewrite Hv. f_equal.
  etransitivity; [|exact (of_dval_dval a Ha)]. f_equal. destruct (Z.ltb_spec (dval a) 0); lia.
Qed.

Lemma dec_string_roundtrip_witness :
  wf_dec (of_dval (-1500000000000)) ∧
  DecM.from_str (DecM.to_string (of_dval (-1500000000000))) = Some (of_dval (-1500000000000)).
Proof.
  split; [apply wf_of_dval; vm_compute; discriminate|].
  apply (dec_string_roundtrip uint_ref uint_ref_laws kernel_ref kernel_ref_laws
    text_ref text_ref_laws).
  apply wf_of_dval. vm_compute. discriminate.
Defined.

Lemma dec_refines_fixed_point_witness : ∃ r,
  DecM.checked_mul (of_dval (3 * E12)) (of_dval (-5)) = Some r ∧ wf_dec r ∧ dval r = -15.
Proof.
  destruct (dec_refines_fixed_point uint_ref uint_ref_laws kernel_ref kernel_ref_laws)
    as (_ & _ & H & _).
  specialize (H (of_dval (3 * E12)) (of_dval (-5)) ltac:(apply wf_of_dval; vm_compute; discriminate) ltac:(apply wf_of_dval; vm_compute; discriminate)).
  replace (ZDec.mul (dval (of_dval (3 * E12))) (dval (of_dval (-5)))) with (Some (-15)) in H by (vm_compute; reflexivity).
  destruct (DecM.checked_mul _ _) as [r|]; [|discriminate H]. exists r. destruct H as [Hw [= Hv]]. auto.
Defined.

(** [Dec::ceil] is [floor + 1] on every positive decimal: it subtracts the
    unscaled floor, so it is the least integer above the value except on the
    positive integers, where it is one too large; on zero and below it is the
    truncation, hence the ceiling. *)
Theorem dec_ceil_behaviour (U : UintApi) (L : UintLaws U) (K : UintKernel) (KL : KernelLaws K)
    (a : Dec) :
  wf_dec a →
  ∃ r, DecM.ceil a = Some (of_sval r) ∧
    (dval a ≤ 0 → r = - (- dval a / E12)) ∧
    (0 < dval a → r = dval a / E12 + 1) ∧
    (r = - (- dval a / E12) ↔ ¬ (0 < dval a ∧ dval a mod E12 = 0)).
Proof.
  intros Ha. pose proof (dval_bound a Ha) as Hb.
  unfold DecM.ceil. rewrite is_negative_sval, dec_to_i256 by done. fold (dval a).
  destruct (Z.ltb_spec (dval a) 0).
  { exists (Z.quot (dval a) E12). split; [done|]. dlia. }
  cbn [mbind option_bind]. set (q := Z.quot (dval a) E12).
  assert (Hq : 0 ≤ q ≤ dval a) by (unfold q; dlia).
  change (mk_dec (of_sval q)) with (of_dval q).
  rewrite dec_sub_refines, dval_of_dval by (done || (apply wf_of_dval; lia) || lia).
  unfold ZDec.sub. rewrite chk_i_in by lia. cbn [fmap option_fmap option_map default from_option].
  rewrite dec_is_zero_refines, dval_of_dval by (try apply wf_of_dval; lia).
  destruct (Z.eqb_spec (dval a - q) 0) as [E|E].
  - exists q. split; [done|]. assert (dval a = 0) by (unfold q in *; dlia). unfold q. dlia.
  - exists (q + 1). split; [|unfold q in *; dlia]. rewrite one_of_sval.
    rewrite checked_add_sval, !sval_of_sval by (try apply wf_of_sval; unfold q in *; dlia).
    rewrite chk_i_in; [done|unfold q in *; dlia].
Qed.

Lemma dec_ceil_behaviour_witness :
  wf_dec (of_dval (3 * E12)) ∧ DecM.ceil (of_dval (3 * E12)) = Some (of_sval 4).
Proof.
  assert (H : wf_dec (of_dval (3 * E12))) by (apply wf_of_dval; vm_compute; discriminate).
  split; [exact H|].
  destruct (dec_ceil_behaviour uint_ref uint_ref_laws kernel_ref kernel_ref_laws _ H)
    as (r & Hr & _ & Hpos & _).
  rewrite Hr, Hpos by (vm_compute; reflexivity). reflexivity.
Defined.

(**  [I256::mul_ceil] multiplies by a decimal and rounds towards plus
    infinity, for every sign; it fails exactly when the product of the absolute
    values does not fit 256 bits. *)
Theorem i256_mul_ceil_correct (U : UintApi) (L : UintLaws U) (K : UintKernel) (KL : KernelLaws K)
    (a : I256) (d : Dec) :
  wf_i256 a → wf_dec d →
  DecM.i256_mul_ceil a d =
    if Z.abs (sval a * dval d) <? 2 ^ 256
    then Some (of_sval (- (- (sval a * dval d) / E12))) else None.
Proof.
  intros Ha Hd. sbound a. pose proof (dval_bound d Hd).
  unfold DecM.i256_mul_ceil, DecM.is_negative.
  rewrite !abs_sval, !is_negative_sval by done. fold (dval d).
  rewrite checked_mul_law by auto with namada. vals. rewrite <-Z.abs_mul.
  set (x := sval a) in *. set (y := dval d) in *.
  destruct (Z.ltb_spec (Z.abs (x * y)) (2 ^ 256)) as [Hlt|Hge].
  2:{ by rewrite (proj2 (chk_None _ _)) by lia. }
  rewrite chk_in by lia. cbn [fmap option_fmap option_map mbind option_bind].
  rewrite !uint_from_law by lia.
  rewrite checked_div_law, checked_rem_law by auto with namada. vals.
  change (E12 =? 0) with false. cbn [fmap option_fmap option_map mbind option_bind].
  rewrite is_zero_val by auto with namada.
  rewrite (val_of_val (Z.abs (x * y) mod E12)) by dlia.
  assert (Hn : if xorb (x <? 0) (y <? 0) then x * y ≤ 0 else 0 ≤ x * y).
  { destruct (Z.ltb_spec x 0), (Z.ltb_spec y 0); cbn; nia. }
  set (n := xorb (x <? 0) (y <? 0)) in *. clearbody n. set (p := x * y) in *. clearbody p.
  destruct (Z.eqb_spec (Z.abs p mod E12) 0) as [E|E], n; cbn [negb andb mbind option_bind].
  all: try (rewrite checked_add_law by auto with namada; rewrite !val_of_val by dlia;
            rewrite chk_in by dlia; cbn [fmap option_fmap option_map mbind option_bind]).
  all: try (rewrite checked_neg_of_sval by dlia); unfold of_sval; do 3 f_equal; dlia.
Qed.

Lemma i256_mul_ceil_correct_witness :
  DecM.i256_mul_ceil (of_sval (-7)) (of_dval 500000000000) = Some (of_sval (-3)).
Proof.
  rewrite (i256_mul_ceil_correct uint_ref uint_ref_laws kernel_ref kernel_ref_laws)
    by (apply wf_of_sval; vm_compute; discriminate).
  vm_compute. reflexivity.
Defined.
