(* ===== verification/Token.v ===== *)
(** * Token amounts (crates/core/src/token.rs)

    [Amount] is a raw [Uint]; [DenominatedAmount] adds the number of decimal
    places.  The properties read an amount as its integer [aval] and a
    denominated amount as the rational [aval / 10^denom]. *)

From S2P Require Import Prelude Words Uint Decimal UintDiv KnuthD I256 Dec.

Record Amount : Type := mk_amount { raw : Uint }.

#[global] Instance Amount_eq_dec : EqDecision Amount.
Proof. solve_decision. Defined.

Definition NATIVE_MAX_DECIMAL_PLACES : Z := 6.
Definition NATIVE_SCALE : Z := 1000000.

(** [Denomination(u8)]. *)
Abbreviation Denomination := Z.

Record DenominatedAmount : Type := mk_denominated {
  amount : Amount;
  denom : Denomination;
}.

#[global] Instance DenominatedAmount_eq_dec : EqDecision DenominatedAmount.
Proof. solve_decision. Defined.

Inductive AmountError : Type := Insufficient | Overflow.

(** [MaspDigitPos::iter]. *)
Definition masp_positions : list MaspDigitPos := [Zero; One; Two; Three].

Module AmountM.
Section ops.
Context {U : UintApi} {K : UintKernel}.

Definition from_u64 (x : Z) : Amount := mk_amount (UintM.from_u64 x).
Definition from_u128 (x : Z) : Amount := mk_amount (uint_from x).
Definition max : Amount := mk_amount UintM.MAX_VALUE.
Definition max_signed : Amount := mk_amount UintM.MAX_SIGNED_VALUE.
Definition zero : Amount := mk_amount UintM.zero.

(** [Amount::change], [From<Amount> for Change]: [None] is a panic. *)
Definition change (a : Amount) : option I256 := I256M.try_from (raw a).
Definition from_change (c : I256) : Amount := mk_amount (I256M.abs c).

Definition is_zero (a : Amount) : bool := bool_decide (raw a = uint_from 0).
Definition is_positive (a : Amount) : bool := negb (is_zero a).

Definition spend (amt : Amount) : stt Amount AmountError unit :=
  self ← get;
  r ← lift (ok_or (Uint.checked_sub (raw self) (raw amt)) Insufficient);
  modify (λ _, mk_amount r).
Definition receive (amt : Amount) : stt Amount AmountError unit :=
  self ← get;
  r ← lift (ok_or (Uint.checked_add (raw self) (raw amt)) Overflow);
  modify (λ _, mk_amount r).
Definition can_spend (a amt : Amount) : bool := UintM.geb (raw a) (raw amt).

Definition native_whole (n : Z) : option Amount :=
  mk_amount <$> Uint.checked_mul (uint_from n) (uint_from NATIVE_SCALE).

Definition checked_add (a b : Amount) : option Amount :=
  r ← Uint.checked_add (raw a) (raw b);
  if UintM.leb r UintM.MAX_VALUE then Some (mk_amount r) else None.
Definition checked_signed_add (a b : Amount) : option Amount :=
  r ← Uint.checked_add (raw a) (raw b);
  if UintM.leb r UintM.MAX_SIGNED_VALUE then Some (mk_amount r) else None.
Definition checked_sub (a b : Amount) : option Amount :=
  mk_amount <$> Uint.checked_sub (raw a) (raw b).
Definition checked_div (a b : Amount) : option Amount :=
  mk_amount <$> Uint.checked_div (raw a) (raw b).
Definition checked_mul (a b : Amount) : option Amount :=
  mk_amount <$> Uint.checked_mul (raw a) (raw b).

Definition from_uint (u : Uint) (denom : Z) : res AmountParseError Amount :=
  if denom =? 0 then Ok (mk_amount u)
  else
    match (s ← checked_pow (uint_from 10) (uint_from denom); Uint.checked_mul s u) with
    | Some amount => Ok (mk_amount amount)
    | None => Err ConvertToDecimal
    end.

Definition from_masp_denominated (v : Z) (p : MaspDigitPos) : Amount :=
  mk_amount (mk_uint (<[pos_index p := v]> [0; 0; 0; 0])).

Definition from_masp_denominated_u128 (v : Z) (p : MaspDigitPos) : option Amount :=
  lo ← chk 64 v;
  let hi := (Z.shiftr v 64) mod 2 ^ 64 in
  let lo_pos := pos_index p in
  let hi_pos := S lo_pos in
  let raw := <[lo_pos := lo]> [0; 0; 0; 0] in
  if negb (hi =? 0) && (4 <=? hi_pos)%nat then None
  else if negb (hi =? 0) then Some (mk_amount (mk_uint (<[hi_pos := hi]> raw)))
  else Some (mk_amount (mk_uint raw)).

(** [mul_ceil]/[mul_floor]: the subtraction from the maximum fails on a
    negative factor. *)
Definition mul_ceil (a : Amount) (dec : Dec) : option Amount :=
  _ ← DecM.checked_sub (mk_dec I256M.maximum) dec;
  tot ← Uint.checked_mul (raw a) (DecM.abs dec);
  let denom := uint_from (10 ^ 12) in
  floor_div ← Uint.checked_div tot denom;
  rem ← Uint.checked_rem tot denom;
  r ← (if negb (UintM.is_zero rem) then Uint.checked_add floor_div UintM.one else Some floor_div);
  Some (mk_amount r).
Definition mul_floor (a : Amount) (dec : Dec) : option Amount :=
  _ ← DecM.checked_sub (mk_dec I256M.maximum) dec;
  tot ← Uint.checked_mul (raw a) (I256M.abs (dec_inner dec));
  mk_amount <$> Uint.checked_div tot (uint_from (10 ^ 12)).

Definition sum (l : list Amount) : option Amount :=
  foldl (λ acc a, x ← acc; checked_add x a) (Some zero) l.

Definition checked_div_u64 (a : Amount) (rhs : Z) : option Amount :=
  if rhs =? 0 then None else mk_amount <$> Uint.checked_div (raw a) (uint_from rhs).

Definition u128_eucl_div_rem (self : Amount) (ab : Z * Z) : option (Amount * Amount) :=
  let a := uint_from ab.1 in
  let b := uint_from ab.2 in
  q ← Uint.checked_div (raw self) b;
  r ← Uint.checked_mul q a;
  rem ← Uint.checked_rem (raw self) b;
  Some (mk_amount r, mk_amount rem).

(** [TryFrom<Dec> for Amount] and [TryFrom<Amount> for u128]. *)
Definition try_from_dec (dec : Dec) : option Amount :=
  _ ← DecM.checked_sub (mk_dec I256M.maximum) dec;
  e ← exp10 12;
  mk_amount <$> Uint.checked_div (I256M.abs (dec_inner dec)) e.
Definition to_u128 (a : Amount) : option Z :=
  if forallb (λ w, w =? 0) (drop 2 (words (raw a))) then Some (low_u128 (raw a)) else None.

(** [MaspDigitPos::denominate] and [denominate_i128]: indexing panics out of
    range. *)
Definition denominate (p : MaspDigitPos) (a : Amount) : option Z := words (raw a) !! pos_index p.
Definition denominate_i128 (p : MaspDigitPos) (c : I256) : option Z :=
  v ← words (I256M.abs c) !! pos_index p;
  Some (if I256M.is_negative c then - v else v).
(** [From<u8> for MaspDigitPos]. *)
Definition masp_digit_pos_from (d : Z) : option MaspDigitPos :=
  if d =? 0 then Some Zero else if d =? 1 then Some One
  else if d =? 2 then Some Two else if d =? 3 then Some Three else None.
End ops.
End AmountM.

Module DenomM.
Section ops.
Context {U : UintApi} {K : UintKernel}.

Definition new (a : Amount) (d : Denomination) : DenominatedAmount := mk_denominated a d.
Definition native (a : Amount) : DenominatedAmount := mk_denominated a NATIVE_MAX_DECIMAL_PLACES.
Definition is_zero (x : DenominatedAmount) : bool := AmountM.is_zero (amount x).

(** One iteration of the loop of [canonical]. *)
Definition canonical_step (vd : Uint * Z) : Uint * Z :=
  let '(value, denom) := vd in
  match div_mod value (uint_from 10) with
  | Some (div, rem) =>
      if bool_decide (rem = UintM.zero) then (div, if denom <? 1 then 0 else denom - 1)
      else (value, denom)
  | None => (value, denom)
  end.
Definition canonical (x : DenominatedAmount) : DenominatedAmount :=
  let '(value, denom) :=
    Nat.iter (Z.to_nat (denom x)) canonical_step (raw (amount x), denom x) in
  mk_denominated (mk_amount value) denom.

Definition increase_precision (x : DenominatedAmount) (d : Denomination) :
    res AmountParseError DenominatedAmount :=
  if d <? denom x then Err PrecisionDecrease
  else
    let denom_diff := d - denom x in
    ok_or (
      s ← checked_pow (uint_from 10) (uint_from denom_diff);
      r ← Uint.checked_mul (raw (amount x)) s;
      Some (mk_denominated (mk_amount r) d)) PrecisionOverflow.

Definition scale (x : DenominatedAmount) (d : Z) : res AmountParseError Amount :=
  amount <$> increase_precision x d.

Definition checked_mul (a b : DenominatedAmount) : option DenominatedAmount :=
  amt ← AmountM.checked_mul (amount a) (amount b);
  d ← chk 8 (denom a + denom b);
  Some (mk_denominated amt d).

(** The common precision both operands are brought to. *)
Definition align (lhs rhs : DenominatedAmount) : option (DenominatedAmount * DenominatedAmount) :=
  if denom lhs <? denom rhs
  then l ← ok (increase_precision lhs (denom rhs)); Some (l, rhs)
  else r ← ok (increase_precision rhs (denom lhs)); Some (lhs, r).
Definition checked_sub (a b : DenominatedAmount) : option DenominatedAmount :=
  '(lhs, rhs) ← align a b;
  amt ← AmountM.checked_sub (amount lhs) (amount rhs);
  Some (mk_denominated amt (denom lhs)).
Definition checked_add (a b : DenominatedAmount) : option DenominatedAmount :=
  '(lhs, rhs) ← align a b;
  amt ← AmountM.checked_add (amount lhs) (amount rhs);
  Some (mk_denominated amt (denom lhs)).

(** [x.div_mod(Uint::exp10(diff))] with the quotient rounded up, as both
    branches of [Ord::cmp] compute it; [None] is the panic of [exp10]. *)
Definition div_ceil (x : Uint) (diff : Z) : option (Uint * Uint) :=
  e ← exp10 (Z.to_nat diff);
  '(div, rem) ← div_mod x e;
  Some (if UintM.is_zero rem then div
        else default UintM.MAX_VALUE (Uint.checked_add div UintM.one), rem).
Definition cmp (a b : DenominatedAmount) : option comparison :=
  if denom a <? denom b then
    '(dc, rem) ← div_ceil (raw (amount b)) (denom b - denom a);
    Some match Uint.cmp (raw (amount a)) dc with
         | Eq => if UintM.is_zero rem then Eq else Gt
         | ord => ord
         end
  else
    '(dc, rem) ← div_ceil (raw (amount a)) (denom a - denom b);
    Some match Uint.cmp dc (raw (amount b)) with
         | Eq => if UintM.is_zero rem then Eq else Lt
         | ord => ord
         end.

Definition to_string_precise {T : UintText} (x : DenominatedAmount) : text :=
  let decimals := Z.to_nat (denom x) in
  let string := uint_to_string (raw (amount x)) in
  if decide (decimals = 0%nat) then string
  else if decide (decimals < length string)%nat then
    let idx := (length string - decimals)%nat in
    take idx string ++ dot :: drop idx string
  else
    zero_char :: dot :: replicate (decimals - length string) zero_char ++ string.

(** [impl Display for DenominatedAmount]. *)
Definition to_string {T : UintText} (x : DenominatedAmount) : text :=
  let string := to_string_precise x in
  let string := if 0 <? denom x then trim_end zero_char string else string in
  trim_end dot string.

(** The accumulation loop of [from_str], least significant digit first. *)
Fixpoint from_digits (pow : nat) (value : Uint) (ds : list Z) : option Uint :=
  match ds with
  | [] => Some value
  | d :: ds =>
      scaling ← checked_pow (uint_from 10) (uint_from (Z.of_nat pow));
      scaled ← Uint.checked_mul scaling (uint_from d);
      value ← Uint.checked_add value scaled;
      from_digits (S pow) value ds
  end.

Definition from_str (s : text) : res AmountParseError DenominatedAmount :=
  let precision := (λ pos, (length s - S pos)%nat) <$> find dot s in
  let digits := reverse (omap to_digit s) in
  if match precision with
     | None => negb (length digits =? length s)%nat
     | Some _ => negb (length digits =? length s - 1)%nat
     end
  then Err NotNumeric
  else if (77 <? length digits)%nat then Err (ScaleTooLarge (Z.of_nat (length digits)) 77)
  else
    value ← ok_or (from_digits 0 UintM.zero digits) InvalidRange;
    denom ← ok_or (chk 8 (Z.of_nat (default 0%nat precision))) PrecisionOverflow;
    Ok (mk_denominated (mk_amount value) denom).

(** [Amount::from_str], [from_string_precise], [to_string_native]. *)
Definition amount_from_str (s : text) (d : Z) : res AmountParseError Amount :=
  x ← from_str s; scale x d.
Definition from_string_precise (s : text) : res AmountParseError Amount := amount <$> from_str s.
Definition to_string_native {T : UintText} (a : Amount) : text :=
  to_string_precise (native a).

(** [impl Deserialize for Uint]: the same accumulation without a point. *)
Definition uint_deserialize (s : text) : res AmountParseError Uint :=
  let digits := reverse (omap to_digit s) in
  if negb (length digits =? length s)%nat then Err FromString
  else if (77 <? length digits)%nat then Err (ScaleTooLarge (Z.of_nat (length digits)) 77)
  else ok_or (from_digits 0 UintM.zero digits) PrecisionOverflow.
End ops.
End DenomM.

(** ** Amounts as integers *)

Definition aval (a : Amount) : Z := val (raw a).
Definition of_aval (z : Z) : Amount := mk_amount (of_val z).
Definition wf_amount (a : Amount) : Prop := wf_uint (raw a).

(** The integer semantics of [Amount], used by the components that handle
    balances, stakes and supplies. *)
Module ZAmount.
Definition add (a b : Z) : option Z := chk 256 (a + b).
Definition sub (a b : Z) : option Z := chk 256 (a - b).
Definition mul (a b : Z) : option Z := chk 256 (a * b).
Definition mul_floor (a d : Z) : option Z :=
  if d <? 0 then None else (λ p, p / E12) <$> chk 256 (a * d).
Definition mul_ceil (a d : Z) : option Z :=
  if d <? 0 then None else (λ p, - (- p / E12)) <$> chk 256 (a * d).
Definition sum (l : list Z) : option Z := foldl (λ acc a, x ← acc; add x a) (Some 0) l.
Definition try_from_dec (d : Z) : option Z := if d <? 0 then None else Some (d / E12).
End ZAmount.

Lemma zamount_sum l : Forall (λ a, 0 ≤ a) l → zsum id l < 2 ^ 256 → ZAmount.sum l = Some (zsum id l).
Proof.
  intros Hl. unfold ZAmount.sum. assert (∀ acc, 0 ≤ acc → acc + zsum id l < 2 ^ 256 →
    foldl (λ acc a, x ← acc; ZAmount.add x a) (Some acc) l = Some (acc + zsum id l)) as Hloop.
  { induction Hl as [|a l Ha Hl IH]; intros acc Hacc Hs; [cbn; f_equal; lia|]. rewrite zsum_cons in *. unfold id at 1 in Hs. unfold id at 1.
    assert (0 ≤ zsum id l) by (apply zsum_nonneg; by apply Forall_forall). cbn [foldl mbind option_bind].
    unfold ZAmount.add at 2. rewrite chk_in by lia. rewrite IH by lia. f_equal. lia. }
  intros Hs. by apply (Hloop 0).
Qed.

Lemma zamount_sum_some l s : ZAmount.sum l = Some s → s = zsum id l.
Proof.
  unfold ZAmount.sum. assert (∀ acc, foldl (λ acc a, x ← acc; ZAmount.add x a) (Some acc) l = Some s → s = acc + zsum id l) as Hloop.
  { induction l as [|a l IH]; intros acc; cbn [foldl mbind option_bind]; [intros [= <-]; cbn; lia|].
    unfold ZAmount.add at 2. destruct (chk 256 (acc + a)) as [x|] eqn:E.
    - apply chk_Some in E as [-> _]. intros Hs%IH. rewrite zsum_cons. unfold id at 1. lia.
    - intros Hs. exfalso. clear -Hs. induction l; cbn in Hs; [done|auto]. }
  intros Hs%Hloop. lia.
Qed.

Lemma aval_bound a : wf_amount a → 0 ≤ aval a < 2 ^ 256.
Proof. apply val_bound. Qed.

Lemma aval_of_aval z : 0 ≤ z < 2 ^ 256 → aval (of_aval z) = z.
Proof. apply val_of_val. Qed.

Lemma wf_of_aval z : wf_amount (of_aval z).
Proof. apply wf_of_val. Qed.

Lemma of_aval_aval a : wf_amount a → of_aval (aval a) = a.
Proof. intros. unfold of_aval, aval. rewrite of_val_val by done. by destruct a. Qed.

#[export] Hint Resolve wf_of_aval : namada.

Lemma wf_MAX : wf_uint UintM.MAX_VALUE.
Proof. split; [|done]. repeat constructor; unfold is_u64; lia. Qed.

Lemma val_MAX : val UintM.MAX_VALUE = 2 ^ 256 - 1.
Proof. reflexivity. Qed.

Lemma fmap_mk_amount (o : option Z) : mk_amount <$> (of_val <$> o) = of_aval <$> o.
Proof. by destruct o. Qed.

Section laws.
Context {U : UintApi} {L : UintLaws U} {K : UintKernel} {KL : KernelLaws K}.

Lemma amount_add_refines a b : wf_amount a → wf_amount b →
  AmountM.checked_add a b = of_aval <$> ZAmount.add (aval a) (aval b).
Proof.
  intros Ha Hb. unfold AmountM.checked_add, ZAmount.add. rewrite checked_add_law by done.
  fold (aval a) (aval b). destruct (chk 256 (aval a + aval b)) as [z|] eqn:E; [|done].
  apply chk_Some in E as [-> ?]. runo.
  rewrite leb_val, val_MAX by auto using wf_MAX with namada. vals.
  rewrite (proj2 (Z.leb_le _ _)); [done|lia].
Qed.

Lemma amount_sub_refines a b : wf_amount a → wf_amount b →
  AmountM.checked_sub a b = of_aval <$> ZAmount.sub (aval a) (aval b).
Proof.
  intros. unfold AmountM.checked_sub. rewrite checked_sub_law by done. apply fmap_mk_amount.
Qed.

Lemma amount_mul_refines a b : wf_amount a → wf_amount b →
  AmountM.checked_mul a b = of_aval <$> ZAmount.mul (aval a) (aval b).
Proof.
  intros. unfold AmountM.checked_mul. rewrite checked_mul_law by done. apply fmap_mk_amount.
Qed.

Lemma amount_sum_refines l : Forall wf_amount l →
  AmountM.sum l = of_aval <$> ZAmount.sum (aval <$> l).
Proof.
  intros Hl. unfold AmountM.sum, ZAmount.sum.
  assert (H : ∀ o : option Z, (∀ z, o = Some z → 0 ≤ z < 2 ^ 256) →
    foldl (λ acc a, x ← acc; AmountM.checked_add x a) (of_aval <$> o) l =
    of_aval <$> foldl (λ acc a, x ← acc; ZAmount.add x a) o (aval <$> l)).
  { induction Hl as [|a l Ha Hl IH]; intros o Ho; [done|]. cbn [foldl fmap list_fmap].
    rewrite <-IH.
    - f_equal. destruct o as [z|]; [|done]. runo.
      rewrite amount_add_refines, aval_of_aval by auto with namada. done.
    - destruct o as [y|]; [|done]. intros z [-> ?]%chk_Some. done. }
  rewrite <-(H (Some 0)); [|intros ? [= <-]; lia]. f_equal. runo.
  unfold AmountM.zero. by rewrite zero_of_val.
Qed.

(** The guard of [mul_ceil], [mul_floor] and [try_from_dec]. *)
Lemma max_sub_guard d : wf_dec d →
  DecM.checked_sub (mk_dec I256M.maximum) d =
  if dval d <? 0 then None else Some (of_dval (MAXS - dval d)).
Proof.
  intros Hd. pose proof (dval_bound d Hd).
  assert (E : mk_dec I256M.maximum = of_dval MAXS) by reflexivity.
  rewrite E, dec_sub_refines, dval_of_dval
    by first [assumption | lia | apply wf_of_dval; lia].
  unfold ZDec.sub, chk_i. destruct (Z.ltb_spec (dval d) 0), (Z.leb_spec (Z.abs (MAXS - dval d)) MAXS);
    lia || reflexivity.
Qed.

Lemma mul_floor_refines a d : wf_amount a → wf_dec d →
  AmountM.mul_floor a d = of_aval <$> ZAmount.mul_floor (aval a) (dval d).
Proof.
  intros Ha Hd. pose proof (aval_bound a Ha). pose proof (dval_bound d Hd).
  unfold AmountM.mul_floor, ZAmount.mul_floor. rewrite max_sub_guard by done.
  destruct (Z.ltb_spec (dval d) 0); [done|]. runo.
  rewrite abs_sval by done. fold (dval d). rewrite checked_mul_law by auto with namada. vals.
  rewrite Z.abs_eq by lia. fold (aval a).
  destruct (chk 256 (aval a * dval d)) as [p|] eqn:E; [|done]. apply chk_Some in E as [-> ?]. runo.
  rewrite uint_from_law, checked_div_law by (auto with namada; lia). vals. done.
Qed.

Lemma mul_ceil_refines a d : wf_amount a → wf_dec d →
  AmountM.mul_ceil a d = of_aval <$> ZAmount.mul_ceil (aval a) (dval d).
Proof.
  intros Ha Hd. pose proof (aval_bound a Ha). pose proof (dval_bound d Hd).
  unfold AmountM.mul_ceil, ZAmount.mul_ceil. rewrite max_sub_guard by done.
  destruct (Z.ltb_spec (dval d) 0); [done|]. runo. unfold DecM.abs.
  rewrite abs_sval by done. fold (dval d). rewrite checked_mul_law by auto with namada. vals.
  rewrite Z.abs_eq by lia. fold (aval a).
  destruct (chk 256 (aval a * dval d)) as [p|] eqn:E; [|done]. apply chk_Some in E as [-> Hp].
  set (p := aval a * dval d) in *. runo.
  rewrite uint_from_law, checked_div_law, checked_rem_law by (auto with namada; lia). vals.
  change (E12 =? 0) with false. runo. rewrite is_zero_val, val_of_val by (auto with namada; dlia).
  destruct (Z.eqb_spec (p mod E12) 0); cbn [negb]; runo; unfold of_aval.
  - do 3 f_equal. dlia.
  - rewrite one_of_val, checked_add_law by auto with namada. rewrite !val_of_val by dlia.
    rewrite chk_in by dlia. runo. do 3 f_equal. dlia.
Qed.

Lemma try_from_dec_refines d : wf_dec d →
  AmountM.try_from_dec d = of_aval <$> ZAmount.try_from_dec (dval d).
Proof.
  intros Hd. pose proof (dval_bound d Hd).
  unfold AmountM.try_from_dec, ZAmount.try_from_dec. rewrite max_sub_guard by done.
  destruct (Z.ltb_spec (dval d) 0); [done|]. runo. rewrite exp10_law, chk_in by (cbn; lia). runo.
  rewrite abs_sval by done. fold (dval d). rewrite checked_div_law by auto with namada. vals.
  by rewrite Z.abs_eq by lia.
Qed.

(** ** Denominated amounts *)

Lemma pow10_pos n : 0 ≤ n → 0 < 10 ^ n.
Proof using Type. intros. by apply Z.pow_pos_nonneg. Qed.

Lemma pow10_fits n : 0 ≤ n → 10 ^ n < 2 ^ 256 ↔ n ≤ 77.
Proof using Type.
  intros. split; intros.
  - destruct (Z.le_gt_cases n 77); [done|].
    assert (10 ^ 78 ≤ 10 ^ n) by (apply Z.pow_le_mono_r; lia). lia.
  - assert (10 ^ n ≤ 10 ^ 77) by (apply Z.pow_le_mono_r; lia). lia.
Qed.

Lemma checked_pow10 n : 0 ≤ n < 2 ^ 64 →
  checked_pow (uint_from 10) (uint_from n) = of_val <$> chk 256 (10 ^ n).
Proof.
  intros. rewrite !uint_from_law, checked_pow_law by (auto with namada; lia). vals. done.
Qed.

Lemma div_ceil_val x diff : wf_uint x → 0 ≤ diff →
  DenomM.div_ceil x diff =
  if diff <=? 77 then Some (of_val (- (- val x / 10 ^ diff)), of_val (val x mod 10 ^ diff))
  else None.
Proof.
  intros Hx Hd. bound x. unfold DenomM.div_ceil. rewrite exp10_law, Z2Nat.id by done.
  pose proof (pow10_fits diff Hd). pose proof (pow10_pos diff Hd).
  destruct (Z.leb_spec diff 77); [|by rewrite (proj2 (chk_None _ _)) by lia].
  rewrite chk_in by lia. runo. rewrite div_mod_law by auto with namada.
  rewrite (val_of_val (10 ^ diff)) by lia. rewrite (proj2 (Z.eqb_neq _ _)) by lia. runo.
  assert (Hr : 0 ≤ val x mod 10 ^ diff < 10 ^ diff) by (apply Z.mod_pos_bound; lia).
  rewrite is_zero_val, (val_of_val (val x mod _)) by (auto with namada; lia).
  assert (Hq : 0 ≤ val x / 10 ^ diff) by (apply Z.div_pos; lia).
  pose proof (Z.div_mod (val x) (10 ^ diff) ltac:(lia)) as E.
  destruct (Z.eqb_spec (val x mod 10 ^ diff) 0) as [E0|E0].
  - rewrite Z.div_opp_l_z by lia. by rewrite Z.opp_involutive.
  - rewrite Z.div_opp_l_nz by lia. rewrite one_of_val, checked_add_law by auto with namada.
    assert (val x / 10 ^ diff < 2 ^ 255).
    { assert (2 ≤ 10 ^ diff) by lia. apply Z.div_lt_upper_bound; nia. }
    rewrite !val_of_val by lia. rewrite chk_in by lia. runo. cbn. do 3 f_equal. lia.
Qed.

(** Comparing [x * m] with [y] through the rounded-up quotient of [y] by [m]. *)
Lemma cmp_ceil_r x y m : 0 < m → 0 ≤ y →
  match x ?= - (- y / m) with Eq => if y mod m =? 0 then Eq else Gt | o => o end = (x * m ?= y).
Proof using Type.
  intros Hm Hy. pose proof (Z.div_mod (- y) m ltac:(lia)). pose proof (Z.mod_pos_bound (- y) m Hm).
  pose proof (Z.div_mod y m ltac:(lia)). pose proof (Z.mod_pos_bound y m Hm).
  destruct (Z.compare_spec x (- (- y / m))) as [->|Hlt|Hgt].
  - destruct (Z.eqb_spec (y mod m) 0) as [E|E].
    + rewrite Z.div_opp_l_z by lia. symmetry. apply Z.compare_eq_iff. nia.
    + rewrite Z.div_opp_l_nz by lia. symmetry. apply Z.compare_gt_iff. nia.
  - symmetry. apply Z.compare_lt_iff. nia.
  - symmetry. apply Z.compare_gt_iff. nia.
Qed.

Lemma cmp_ceil_l x y m : 0 < m → 0 ≤ x →
  match - (- x / m) ?= y with Eq => if x mod m =? 0 then Eq else Lt | o => o end = (x ?= y * m).
Proof using Type.
  intros Hm Hx. pose proof (cmp_ceil_r y x m Hm Hx) as H.
  rewrite (Z.compare_antisym (y * m) x), <-H, (Z.compare_antisym y).
  destruct (y ?= - (- x / m)); cbn; try done. by destruct (x mod m =? 0).
Qed.

Lemma neg_div_bound v m : 0 < m → 0 ≤ v < 2 ^ 256 → 0 ≤ - (- v / m) < 2 ^ 256.
Proof using Type.
  intros Hm Hv. pose proof (Z.div_mod (- v) m ltac:(lia)). pose proof (Z.mod_pos_bound (- v) m Hm).
  nia.
Qed.

Lemma increase_precision_val x d : wf_amount (amount x) → 0 ≤ denom x ≤ d → d ≤ u8_max →
  DenomM.increase_precision x d =
  if (d - denom x <=? 77) && (aval (amount x) * 10 ^ (d - denom x) <? 2 ^ 256)
  then Ok (mk_denominated (of_aval (aval (amount x) * 10 ^ (d - denom x))) d)
  else Err PrecisionOverflow.
Proof.
  intros Hx Hd Hmax. pose proof (aval_bound _ Hx). unfold DenomM.increase_precision.
  destruct (Z.ltb_spec d (denom x)); [lia|].
  rewrite checked_pow10 by lia. set (n := d - denom x).
  pose proof (pow10_fits n ltac:(lia)). pose proof (pow10_pos n ltac:(lia)).
  destruct (Z.leb_spec n 77); [|by rewrite (proj2 (chk_None _ _)) by lia].
  rewrite chk_in by lia. runo. rewrite checked_mul_law by auto with namada.
  rewrite (val_of_val (10 ^ n)) by lia. fold (aval (amount x)).
  destruct (Z.ltb_spec (aval (amount x) * 10 ^ n) (2 ^ 256)); cbn [andb].
  - by rewrite chk_in by nia.
  - by rewrite (proj2 (chk_None _ _)) by lia.
Qed.

Definition wf_denominated (x : DenominatedAmount) : Prop :=
  wf_amount (amount x) ∧ 0 ≤ denom x ≤ u8_max.

Lemma cmp_denominated a b : wf_denominated a → wf_denominated b →
  DenomM.cmp a b =
  if Z.abs (denom a - denom b) <=? 77
  then Some (aval (amount a) * 10 ^ denom b ?= aval (amount b) * 10 ^ denom a) else None.
Proof.
  intros [Ha Hda] [Hb Hdb]. pose proof (aval_bound _ Ha). pose proof (aval_bound _ Hb).
  unfold DenomM.cmp. destruct (Z.ltb_spec (denom a) (denom b)).
  - rewrite div_ceil_val by (done || lia). set (n := denom b - denom a).
    replace (Z.abs (denom a - denom b)) with n by lia.
    destruct (Z.leb_spec n 77); [|done]. runo.
    pose proof (pow10_pos n ltac:(lia)). pose proof (pow10_fits n ltac:(lia)).
    fold (aval (amount b)).
    assert (0 ≤ aval (amount b) mod 10 ^ n < 10 ^ n) by (apply Z.mod_pos_bound; lia).
    rewrite is_zero_val, cmp_law, (val_of_val (_ mod _)), (val_of_val (- _))
      by (auto with namada; apply neg_div_bound || lia; lia).
    fold (aval (amount a)). rewrite cmp_ceil_r by lia.
    replace (denom b) with (n + denom a) by lia.
    rewrite Z.pow_add_r, Z.mul_assoc by lia. f_equal.
    apply Zmult_compare_compat_r. pose proof (pow10_pos (denom a)). lia.
  - rewrite div_ceil_val by (done || lia). set (n := denom a - denom b).
    replace (Z.abs n) with n by lia.
    destruct (Z.leb_spec n 77); [|done]. runo.
    pose proof (pow10_pos n ltac:(lia)). pose proof (pow10_fits n ltac:(lia)).
    fold (aval (amount a)).
    assert (0 ≤ aval (amount a) mod 10 ^ n < 10 ^ n) by (apply Z.mod_pos_bound; lia).
    rewrite is_zero_val, cmp_law, (val_of_val (_ mod _)), (val_of_val (- _))
      by (auto with namada; apply neg_div_bound || lia; lia).
    fold (aval (amount b)). rewrite cmp_ceil_l by lia.
    replace (denom a) with (n + denom b) by lia.
    rewrite Z.pow_add_r, Z.mul_assoc by lia. f_equal.
    apply Zmult_compare_compat_r. pose proof (pow10_pos (denom b)). lia.
Qed.

(** [align] brings both operands to the larger denomination. *)
Lemma align_val a b : wf_denominated a → wf_denominated b →
  let d := Z.max (denom a) (denom b) in
  let sa := aval (amount a) * 10 ^ (d - denom a) in
  let sb := aval (amount b) * 10 ^ (d - denom b) in
  DenomM.align a b =
  if (Z.abs (denom a - denom b) <=? 77) && (sa <? 2 ^ 256) && (sb <? 2 ^ 256)
  then Some (mk_denominated (of_aval sa) d, mk_denominated (of_aval sb) d) else None.
Proof.
  intros [Ha Hda] [Hb Hdb] d sa sb. pose proof (aval_bound _ Ha). pose proof (aval_bound _ Hb).
  unfold DenomM.align. destruct (Z.ltb_spec (denom a) (denom b)).
  - assert (d = denom b) by lia.
    assert (Hsb : sb = aval (amount b)).
    { unfold sb. rewrite H2, Z.sub_diag. lia. }
    rewrite increase_precision_val by (done || lia). rewrite <-H2. fold sa.
    replace (Z.abs (denom a - d)) with (d - denom a) by lia.
    rewrite (proj2 (Z.ltb_lt sb _)), andb_true_r by lia.
    destruct (_ && _); [|done]. cbn. rewrite H2, Hsb, of_aval_aval by done. by destruct b.
  - assert (d = denom a) by lia.
    assert (Hsa : sa = aval (amount a)).
    { unfold sa. rewrite H2, Z.sub_diag. lia. }
    rewrite increase_precision_val by (done || lia). rewrite <-H2. fold sb.
    replace (Z.abs (d - denom b)) with (d - denom b) by lia.
    rewrite (proj2 (Z.ltb_lt sa _)), andb_true_r by lia.
    destruct (_ && _); [|done]. cbn. rewrite H2, Hsa, of_aval_aval by done. by destruct a.
Qed.

(** The loop of [canonical]: the value is kept, and once an iteration leaves
    the pair unchanged the last digit is not zero. *)
Lemma canonical_iter x i : wf_denominated x → (i ≤ Z.to_nat (denom x))%nat →
  let '(v, d) := Nat.iter i DenomM.canonical_step (raw (amount x), denom x) in
  wf_uint v ∧ 0 ≤ d ≤ denom x ∧ denom x - Z.of_nat i ≤ d ∧
  aval (amount x) = val v * 10 ^ (denom x - d) ∧
  (d = denom x - Z.of_nat i ∨ val v mod 10 ≠ 0).
Proof.
  intros [Hx Hd] Hi. induction i as [|i IH].
  { cbn. split_and!; try done; [lia..| |lia]. rewrite Z.sub_diag, Z.mul_1_r. done. }
  cbn [Nat.iter nat_rect]. specialize (IH ltac:(lia)).
  change (nat_rect (λ _, (Uint * Z)%type) ?a (λ _, ?f) i) with (Nat.iter i f a).
  destruct (Nat.iter i _ _) as [v d]. destruct IH as (Hv & Hdb & Hdi & Hval & Hcan).
  bound v. unfold DenomM.canonical_step.
  rewrite uint_from_law, div_mod_law by (auto with namada; lia). vals. change (10 =? 0) with false.
  assert (Hr : 0 ≤ val v mod 10 < 10) by (apply Z.mod_pos_bound; lia).
  cbv iota. case_bool_decide as Hz.
  - apply (f_equal val) in Hz. rewrite val_zero, val_of_val in Hz by lia.
    destruct Hcan as [->|]; [|done]. destruct (Z.ltb_spec (denom x - Z.of_nat i) 1); [lia|].
    split_and!; auto with namada; try lia.
    rewrite val_of_val by dlia.
    replace (denom x - (denom x - Z.of_nat i - 1)) with (Z.succ (denom x - (denom x - Z.of_nat i))) by lia.
    rewrite Hval, Z.pow_succ_r by lia. dlia.
  - split_and!; try done; try lia. right. intros E. apply Hz. by rewrite E, zero_of_val.
Qed.

(** ** Text *)

Lemma from_digits_val pow value ds : Forall is_digit ds → 0 ≤ value < 10 ^ Z.of_nat pow →
  (pow + length ds ≤ 77)%nat →
  DenomM.from_digits pow (of_val value) ds =
  Some (of_val (value + 10 ^ Z.of_nat pow * dec_val (reverse ds))).
Proof.
  intros Hds. revert pow value. induction Hds as [|d ds Hd Hds IH]; intros pow value Hv Hlen.
  { cbn. do 2 f_equal. rewrite Z.mul_0_r. lia. }
  cbn [DenomM.from_digits length] in *.
  pose proof (pow10_fits (Z.of_nat pow) ltac:(lia)). pose proof (pow10_pos (Z.of_nat pow) ltac:(lia)).
  assert (Hs : 10 ^ Z.of_nat (S pow) = 10 * 10 ^ Z.of_nat pow)
    by (rewrite Nat2Z.inj_succ, Z.pow_succ_r by lia; done).
  pose proof (pow10_fits (Z.of_nat (S pow)) ltac:(lia)). red in Hd.
  rewrite checked_pow10 by lia. rewrite chk_in by lia. runo.
  rewrite uint_from_law, checked_mul_law by (auto with namada; lia). rewrite !val_of_val by lia.
  rewrite chk_in by nia. runo. rewrite checked_add_law by auto with namada.
  rewrite !val_of_val by nia. rewrite chk_in by nia. runo.
  rewrite IH by (nia || lia). do 2 f_equal. rewrite Hs.
  rewrite reverse_cons, dec_val_snoc. ring.
Qed.

Lemma omap_digits l : Forall is_digit l → omap to_digit (digit_char <$> l) = l.
Proof using Type.
  induction 1 as [|d l Hd Hl IH]; [done|]. cbn. rewrite to_digit_char by done. by rewrite <-IH at 2.
Qed.

Lemma from_digits_all l : Forall is_digit l → (length l ≤ 77)%nat →
  DenomM.from_digits 0 UintM.zero (reverse l) = Some (of_val (dec_val l)).
Proof.
  intros Hl Hlen. rewrite zero_of_val, from_digits_val.
  - rewrite reverse_involutive. do 2 f_equal. cbn. lia.
  - by apply Forall_reverse.
  - cbn. lia.
  - rewrite length_reverse. lia.
Qed.

(** [from_str] on the digits [l1], a point and the digits [l2]. *)
Lemma denom_from_str_point l1 l2 : Forall is_digit l1 → Forall is_digit l2 → (length l2 ≤ 255)%nat →
  DenomM.from_str ((digit_char <$> l1) ++ dot :: (digit_char <$> l2)) =
  if (77 <? length (l1 ++ l2))%nat then Err (ScaleTooLarge (Z.of_nat (length (l1 ++ l2))) 77)
  else Ok (mk_denominated (of_aval (dec_val (l1 ++ l2))) (Z.of_nat (length l2))).
Proof.
  intros H1 H2 H255. unfold DenomM.from_str.
  rewrite find_app by (by apply notin_digits). cbn [fmap option_fmap option_map default from_option].
  assert (Ho : omap to_digit ((digit_char <$> l1) ++ dot :: (digit_char <$> l2)) = l1 ++ l2).
  { rewrite omap_app. cbn. by rewrite !omap_digits. }
  rewrite Ho, length_reverse, !length_app, !length_fmap. cbn [length]. rewrite length_fmap.
  rewrite (proj2 (Nat.eqb_eq _ _)) by lia. cbn [negb].
  destruct (Nat.ltb_spec 77 (length l1 + length l2)); [done|].
  rewrite from_digits_all by (rewrite ?Forall_app, ?length_app; done). cbn [ok_or mbind res_bind].
  replace (length l1 + S (length l2) - S (length l1))%nat with (length l2) by lia.
  cbn [default from_option id]. rewrite chk_in by (cbn; lia). done.
Qed.

Lemma from_str_integer l : Forall is_digit l →
  DenomM.from_str (digit_char <$> l) =
  if (77 <? length l)%nat then Err (ScaleTooLarge (Z.of_nat (length l)) 77)
  else Ok (mk_denominated (of_aval (dec_val l)) 0).
Proof.
  intros Hl. unfold DenomM.from_str. rewrite find_notin by (by apply notin_digits).
  rewrite omap_digits, length_reverse, length_fmap by done.
  cbn [fmap option_fmap option_map default from_option]. rewrite Nat.eqb_refl. cbn [negb].
  destruct (Nat.ltb_spec 77 (length l)); [done|].
  rewrite from_digits_all by done. done.
Qed.
End laws.

(** How many digits [to_string_precise] prints. *)
Definition printed_digits (x : DenominatedAmount) : nat :=
  Nat.max (length (digits (aval (amount x))))
    (if denom x =? 0 then 0%nat else S (Z.to_nat (denom x))).

(**  Printing a denominated amount with all its decimals and parsing it
    back gives the same amount and denomination when at most 77 digits are
    printed; above that, parsing is refused with [ScaleTooLarge]. *)
Theorem denominated_string_roundtrip (U : UintApi) (L : UintLaws U)
    (T : UintText) (TL : UintTextLaws T) (x : DenominatedAmount) :
  wf_denominated x →
  DenomM.from_str (DenomM.to_string_precise x) =
  if (77 <? printed_digits x)%nat
  then Err (ScaleTooLarge (Z.of_nat (printed_digits x)) 77) else Ok x.
Proof.
  intros [Hx Hd]. pose proof (aval_bound _ Hx).
  unfold DenomM.to_string_precise, printed_digits. rewrite to_string_law by done.
  unfold print_dec. rewrite length_fmap. fold (aval (amount x)).
  destruct (digits_spec (aval (amount x))) as (Hv & Hdig & Hne); [lia|].
  set (l := digits (aval (amount x))) in *.
  assert (Hout : ∀ z, z = aval (amount x) → mk_denominated (of_aval z) (denom x) = x).
  { intros z ->. rewrite of_aval_aval by done. by destruct x. }
  destruct (Z.eqb_spec (denom x) 0) as [E|E].
  { rewrite decide_True by lia. rewrite from_str_integer by done.
    rewrite Nat.max_0_r. rewrite <-E, Hout by done. done. }
  rewrite decide_False by lia. set (n := Z.to_nat (denom x)).
  assert (Hn : Z.of_nat n = denom x) by lia.
  destruct (decide (n < length l)%nat) as [Hlt|Hge].
  - rewrite Nat.max_l by lia. set (i := (length l - n)%nat).
    rewrite <-fmap_take, <-fmap_drop.
    rewrite denom_from_str_point by (first [by apply Forall_take | by apply Forall_drop
      | rewrite length_drop; lia]).
    rewrite take_drop, length_drop. replace (length l - i)%nat with n by lia.
    rewrite Hn, Hout by done. done.
  - rewrite Nat.max_r by lia.
    assert (Hz : Forall is_digit (replicate (n - length l) 0 ++ l)).
    { apply Forall_app. split; [|done]. apply Forall_replicate. red. lia. }
    pose proof (denom_from_str_point [0] (replicate (n - length l) 0 ++ l)) as H1.
    rewrite fmap_app, digit_char_zeros in H1. change (digit_char <$> [0]) with [zero_char] in H1.
    cbn [app] in H1. rewrite H1; clear H1; [|by repeat constructor; cbn|done|];
      rewrite ?length_cons, ?length_app, ?length_replicate; [|lia].
    replace (S (n - length l + length l)) with (S n) by lia.
    replace (n - length l + length l)%nat with n by lia.
    rewrite Hn, Hout; [done|].
    change (0 :: replicate (n - length l) 0 ++ l) with (replicate (S (n - length l)) 0 ++ l).
    rewrite dec_val_app, dec_val_zeros, Hv. done.
Qed.

Lemma denominated_string_roundtrip_witness :
  wf_denominated (mk_denominated (of_aval 1234) 6) ∧
  DenomM.from_str (DenomM.to_string_precise (mk_denominated (of_aval 1234) 6)) =
  Ok (mk_denominated (of_aval 1234) 6).
Proof.
  assert (H : wf_denominated (mk_denominated (of_aval 1234) 6))
    by (split; [apply wf_of_aval|cbn; lia]).
  split; [exact H|].
  rewrite (denominated_string_roundtrip uint_ref uint_ref_laws text_ref text_ref_laws) by exact H.
  reflexivity.
Defined.

(**  The order on denominated amounts is the order of the rationals
    [amount / 10^denom], with no overflow whatever the magnitudes, as long as
    the denominations differ by at most 77; beyond that the comparison panics. *)
Theorem denominated_cmp_exact (U : UintApi) (L : UintLaws U) (a b : DenominatedAmount) :
  wf_denominated a → wf_denominated b →
  DenomM.cmp a b =
  if Z.abs (denom a - denom b) <=? 77
  then Some (aval (amount a) * 10 ^ denom b ?= aval (amount b) * 10 ^ denom a) else None.
Proof. apply cmp_denominated. Qed.

Lemma denominated_cmp_exact_witness :
  DenomM.cmp (mk_denominated (of_aval 15) 1) (mk_denominated (of_aval 1499) 3) = Some Gt.
Proof.
  rewrite (denominated_cmp_exact uint_ref uint_ref_laws)
    by (split; [apply wf_of_aval|cbn; lia]).
  vm_compute. reflexivity.
Defined.

(** [canonical] keeps the value and strips every trailing zero after the
    point: the denomination left is zero or the last digit is not zero. *)
Theorem denominated_canonical_minimal (U : UintApi) (L : UintLaws U) (x : DenominatedAmount) :
  wf_denominated x →
  let y := DenomM.canonical x in
  wf_denominated y ∧ denom y ≤ denom x ∧
  aval (amount x) = aval (amount y) * 10 ^ (denom x - denom y) ∧
  (denom y = 0 ∨ aval (amount y) mod 10 ≠ 0).
Proof.
  intros Hx. pose proof Hx as [_ Hd].
  pose proof (canonical_iter x (Z.to_nat (denom x)) Hx ltac:(done)) as H.
  unfold DenomM.canonical. destruct (Nat.iter _ _ _) as [v d].
  destruct H as (Hv & Hd' & _ & Hval & Hc). cbn. rewrite Z2Nat.id, Z.sub_diag in Hc by lia.
  split; [split; [done|cbn; lia]|]. split_and!; try done; lia.
Qed.

Lemma denominated_canonical_minimal_witness :
  wf_denominated (mk_denominated (of_aval 1500) 6) ∧
  denom (DenomM.canonical (mk_denominated (of_aval 1500) 6)) ≤ 6.
Proof.
  assert (H : wf_denominated (mk_denominated (of_aval 1500) 6))
    by (split; [apply wf_of_aval|cbn; lia]).
  split; [exact H|].
  apply (denominated_canonical_minimal uint_ref uint_ref_laws _ H).
Defined.

(**  Sums and differences of denominated amounts are exact: both operands
    are brought to the larger denomination, and the operation fails only when a
    scaling factor, a scaled operand or the result does not fit 256 bits. *)
Theorem denominated_add_sub_exact (U : UintApi) (L : UintLaws U) (a b : DenominatedAmount) :
  wf_denominated a → wf_denominated b →
  let d := Z.max (denom a) (denom b) in
  let sa := aval (amount a) * 10 ^ (d - denom a) in
  let sb := aval (amount b) * 10 ^ (d - denom b) in
  let fits := (Z.abs (denom a - denom b) <=? 77) && (sa <? 2 ^ 256) && (sb <? 2 ^ 256) in
  DenomM.checked_add a b =
    (if fits then (λ v, mk_denominated (of_aval v) d) <$> chk 256 (sa + sb) else None) ∧
  DenomM.checked_sub a b =
    (if fits then (λ v, mk_denominated (of_aval v) d) <$> chk 256 (sa - sb) else None).
Proof.
  intros Ha Hb d sa sb fits.
  assert (Hal : DenomM.align a b = if fits
    then Some (mk_denominated (of_aval sa) d, mk_denominated (of_aval sb) d) else None)
    by (by apply align_val).
  pose proof Ha as [? ?]. pose proof Hb as [? ?].
  assert (Hsa : 0 ≤ sa) by (apply Z.mul_nonneg_nonneg; [by apply aval_bound|lia]).
  assert (Hsb : 0 ≤ sb) by (apply Z.mul_nonneg_nonneg; [by apply aval_bound|lia]).
  unfold DenomM.checked_add, DenomM.checked_sub. rewrite Hal.
  destruct fits eqn:E; [|done]. unfold fits in E. boolp. runo. cbn [amount denom].
  rewrite amount_add_refines, amount_sub_refines, !aval_of_aval by (auto with namada; lia).
  unfold ZAmount.add, ZAmount.sub.
  split; by destruct (chk 256 _).
Qed.

Lemma denominated_add_sub_exact_witness :
  DenomM.checked_add (mk_denominated (of_aval 15) 1) (mk_denominated (of_aval 25) 2) =
  Some (mk_denominated (of_aval 175) 2).
Proof.
  destruct (denominated_add_sub_exact uint_ref uint_ref_laws
    (mk_denominated (of_aval 15) 1) (mk_denominated (of_aval 25) 2)) as [H _];
    [split; [apply wf_of_aval|cbn; lia]..|].
  rewrite H. vm_compute. reflexivity.
Defined.

(**  [mul_floor] and [mul_ceil] multiply an amount by a decimal and round
    down, respectively up, to a whole raw unit; they fail exactly when the
    factor is negative or the product with the raw factor exceeds 256 bits, and
    never differ by more than one unit. *)
Theorem amount_mul_dec_rounding (U : UintApi) (L : UintLaws U) (K : UintKernel)
    (KL : KernelLaws K) (a : Amount) (d : Dec) :
  wf_amount a → wf_dec d →
  let p := aval a * dval d in
  AmountM.mul_floor a d =
    (if (dval d <? 0) || (2 ^ 256 <=? p) then None else Some (of_aval (p / E12))) ∧
  AmountM.mul_ceil a d =
    (if (dval d <? 0) || (2 ^ 256 <=? p) then None
     else Some (of_aval (p / E12 + if p mod E12 =? 0 then 0 else 1))).
Proof.
  intros Ha Hd p. pose proof (aval_bound a Ha).
  rewrite mul_floor_refines, mul_ceil_refines by done.
  unfold ZAmount.mul_floor, ZAmount.mul_ceil. fold p.
  destruct (Z.ltb_spec (dval d) 0); [done|]. cbn [orb].
  assert (0 ≤ p) by (unfold p; nia).
  destruct (Z.leb_spec (2 ^ 256) p); [by rewrite (proj2 (chk_None _ _)) by lia|].
  rewrite chk_in by lia. split; [done|]. cbn. do 2 f_equal.
  destruct (Z.eqb_spec (p mod E12) 0); dlia.
Qed.

Lemma amount_mul_dec_rounding_witness :
  AmountM.mul_ceil (of_aval 7) (of_dval 500000000000) = Some (of_aval 4).
Proof.
  destruct (amount_mul_dec_rounding uint_ref uint_ref_laws kernel_ref kernel_ref_laws
    (of_aval 7) (of_dval 500000000000)) as [_ H];
    [apply wf_of_aval|apply wf_of_dval; vm_compute; discriminate|].
  rewrite H. vm_compute. reflexivity.
Defined.

(** ** MASP digits *)

Lemma uint_words u : wf_uint u → ∃ w0 w1 w2 w3, words u = [w0; w1; w2; w3] ∧
  is_u64 w0 ∧ is_u64 w1 ∧ is_u64 w2 ∧ is_u64 w3 ∧
  val u = w0 + 2 ^ 64 * w1 + 2 ^ 128 * w2 + 2 ^ 192 * w3.
Proof.
  intros [Hw Hl]. unfold val. destruct (words u) as [|w0 [|w1 [|w2 [|w3 [|]]]]]; try done.
  exists w0, w1, w2, w3. unfold wf_words in Hw. rewrite !Forall_cons in Hw.
  destruct Hw as (? & ? & ? & ? & _). split_and!; try done. cbn. unfold B64. lia.
Qed.

(** A [Forall] over an explicit list, element by element. *)
Ltac forall_list :=
  repeat match goal with
  | |- Forall _ (_ :: _) => apply Forall_cons; split
  | |- Forall _ [] => constructor
  | |- Forall _ (_ <$> (_ :: _)) => cbn [fmap list_fmap]
  end.

Section masp.
Context {U : UintApi} {L : UintLaws U} {K : UintKernel} {KL : KernelLaws K}.

Lemma masp_amount_val v p : is_u64 v →
  AmountM.from_masp_denominated v p = of_aval (v * 2 ^ (64 * Z.of_nat (pos_index p))).
Proof using Type.
  intros Hv. destruct (masp_digit_val v p Hv) as [Hw E]. unfold AmountM.from_masp_denominated, of_aval.
  by rewrite <-E, of_val_val.
Qed.

Lemma amount_sum_app z l : 0 ≤ z < 2 ^ 256 → Forall (λ x, 0 ≤ x) l →
  z + foldr Z.add 0 l < 2 ^ 256 →
  foldl (λ acc a, x ← acc; ZAmount.add x a) (Some z) l = Some (z + foldr Z.add 0 l).
Proof using Type.
  intros Hz Hl. revert z Hz. induction Hl as [|x l Hx Hl IH]; intros z Hz Hs; cbn in *.
  { f_equal. lia. }
  assert (0 ≤ foldr Z.add 0 l) by (clear -Hl; induction Hl; cbn; lia).
  unfold ZAmount.add at 2. rewrite chk_in by lia. rewrite IH by lia. f_equal. lia.
Qed.

Lemma masp_amount_roundtrip a : wf_amount a →
  ∃ ds, mapM (λ p, AmountM.denominate p a) masp_positions = Some ds ∧
    AmountM.sum (zip_with AmountM.from_masp_denominated ds masp_positions) = Some a.
Proof.
  intros Ha. destruct (uint_words (raw a) Ha) as (w0 & w1 & w2 & w3 & Hw & H0 & H1 & H2 & H3 & Hv).
  pose proof (aval_bound a Ha) as Hb. fold (aval a) in Hv. exists [w0; w1; w2; w3]. split.
  { unfold AmountM.denominate. cbn. by rewrite Hw. }
  unfold is_u64 in *. cbn [zip_with masp_positions].
  rewrite !masp_amount_val by done. rewrite amount_sum_refines by (forall_list; auto with namada).
  unfold ZAmount.sum. cbn [fmap list_fmap pos_index].
  change (64 * Z.of_nat 0) with 0. change (64 * Z.of_nat 1) with 64.
  change (64 * Z.of_nat 2) with 128. change (64 * Z.of_nat 3) with 192.
  rewrite !aval_of_aval by lia.
  rewrite amount_sum_app; [|lia|forall_list; lia|cbn; lia].
  cbn [foldr]. runo. f_equal. etransitivity; [|exact (of_aval_aval a Ha)]. f_equal. lia.
Qed.

Lemma change_sum_run s z0 z1 z2 z3 : Z.abs s = 1 →
  0 ≤ z0 → 0 ≤ z1 → 0 ≤ z2 → 0 ≤ z3 → z0 + z1 + z2 + z3 ≤ MAXS →
  I256M.sum (of_sval <$> [s * z0; s * z1; s * z2; s * z3]) = Some (of_sval (s * (z0 + z1 + z2 + z3))).
Proof.
  intros Hs H0 H1 H2 H3 Hm. unfold I256M.sum. rewrite zero_of_sval.
  assert (Hc : ∀ x, 0 ≤ x ≤ MAXS → Z.abs (s * x) ≤ MAXS) by (intros; rewrite Z.abs_mul, Hs; lia).
  rewrite sum_sval; [|forall_list; apply wf_of_sval, Hc; lia|lia].
  cbn [fmap list_fmap foldl]. rewrite !sval_of_sval by (apply Hc; lia). runo.
  replace (0 + s * z0) with (s * z0) by lia. rewrite chk_i_in by (apply Hc; lia). runo.
  rewrite <-Z.mul_add_distr_l, chk_i_in by (apply Hc; lia). runo.
  rewrite <-Z.mul_add_distr_l, chk_i_in by (apply Hc; lia). runo.
  rewrite <-Z.mul_add_distr_l, chk_i_in by (apply Hc; lia). done.
Qed.

Lemma masp_change_digit s w p : Z.abs s = 1 → is_u64 w →
  w * 2 ^ (64 * Z.of_nat (pos_index p)) ≤ MAXS →
  I256M.from_masp_denominated (s * w) p = Ok (of_sval (s * (w * 2 ^ (64 * Z.of_nat (pos_index p))))).
Proof.
  intros Hs Hw Hm. unfold is_u64 in Hw. assert (Ha : Z.abs (s * w) = w) by (rewrite Z.abs_mul, Hs; lia).
  rewrite from_masp_denominated_sval by lia. rewrite Ha.
  destruct (Z.leb_spec (2 ^ 64) w); [lia|]. rewrite <-Z.mul_assoc, chk_i_in; [done|].
  rewrite Z.abs_mul, Hs, Z.abs_eq; [lia|]. apply Z.mul_nonneg_nonneg; [lia|].
  apply Z.pow_nonneg. lia.
Qed.

Lemma masp_change_roundtrip c : wf_i256 c →
  ∃ ds cs, mapM (λ p, AmountM.denominate_i128 p c) masp_positions = Some ds ∧
    zip_with I256M.from_masp_denominated ds masp_positions = Ok <$> cs ∧
    I256M.sum cs = Some c.
Proof.
  intros Hc. pose proof (sval_bound c Hc) as Hb.
  set (s := if sval c <? 0 then -1 else 1).
  assert (Hs : Z.abs s = 1 ∧ s * Z.abs (sval c) = sval c)
    by (unfold s; destruct (Z.ltb_spec (sval c) 0); lia). destruct Hs as [Hs Hsc].
  assert (Hw : wf_uint (I256M.abs c)) by (rewrite abs_sval by done; auto with namada).
  assert (Hva : val (I256M.abs c) = Z.abs (sval c)) by (rewrite abs_sval by done; vals; done).
  destruct (uint_words _ Hw) as (w0 & w1 & w2 & w3 & E & H0 & H1 & H2 & H3 & Hv).
  rewrite Hva in Hv. unfold is_u64 in *.
  exists [s * w0; s * w1; s * w2; s * w3],
    (of_sval <$> [s * w0; s * (w1 * 2 ^ 64); s * (w2 * 2 ^ 128); s * (w3 * 2 ^ 192)]).
  split_and!.
  - unfold AmountM.denominate_i128. cbn. rewrite E, is_negative_sval by done. cbn. unfold s.
    destruct (sval c <? 0); do 2 f_equal; [lia|]; repeat (f_equal; try lia).
  - cbn [zip_with masp_positions]. rewrite !masp_change_digit by (done || cbn; lia).
    cbn [fmap list_fmap pos_index]. change (2 ^ (64 * Z.of_nat 0)) with 1. by rewrite Z.mul_1_r.
  - rewrite change_sum_run by lia. f_equal. etransitivity; [|exact (of_sval_sval c Hc)].
    f_equal. rewrite <-Hsc. f_equal. lia.
Qed.
End masp.

(**  Splitting an amount, or a signed change, into its four 64-bit MASP
    digits and summing the digits re-denominated at their positions gives the
    value back. *)
Theorem masp_digits_roundtrip (U : UintApi) (L : UintLaws U) (K : UintKernel) (KL : KernelLaws K) :
  (∀ a, wf_amount a →
    ∃ ds, mapM (λ p, AmountM.denominate p a) masp_positions = Some ds ∧
      AmountM.sum (zip_with AmountM.from_masp_denominated ds masp_positions) = Some a) ∧
  (∀ c, wf_i256 c →
    ∃ ds cs, mapM (λ p, AmountM.denominate_i128 p c) masp_positions = Some ds ∧
      zip_with I256M.from_masp_denominated ds masp_positions = Ok <$> cs ∧
      I256M.sum cs = Some c).
Proof. split; [apply masp_amount_roundtrip|apply masp_change_roundtrip]. Qed.

Lemma masp_digits_roundtrip_witness :
  ∃ ds, mapM (λ p, AmountM.denominate p (of_aval (2 ^ 200 + 7))) masp_positions = Some ds ∧
    AmountM.sum (zip_with AmountM.from_masp_denominated ds masp_positions) =
    Some (of_aval (2 ^ 200 + 7)).
Proof.
  destruct (masp_digits_roundtrip uint_ref uint_ref_laws kernel_ref kernel_ref_laws) as [H _].
  apply H. apply wf_of_aval.
Defined.

(** [from_masp_denominated_u128] refuses every value of [2^64] or more,
    whatever the position, and so never fills the higher of its two words. *)
Theorem masp_u128_high_word_unreachable (v : Z) (p : MaspDigitPos) :
  0 ≤ v < 2 ^ 128 →
  AmountM.from_masp_denominated_u128 v p =
  if v <? 2 ^ 64 then Some (AmountM.from_masp_denominated v p) else None.
Proof.
  intros Hv. unfold AmountM.from_masp_denominated_u128.
  destruct (Z.ltb_spec v (2 ^ 64)); [|by rewrite (proj2 (chk_None _ _)) by lia].
  rewrite chk_in by lia. runo. rewrite Z.shiftr_div_pow2, Z.div_small by lia. done.
Qed.

Lemma masp_u128_high_word_unreachable_witness :
  AmountM.from_masp_denominated_u128 (2 ^ 64 + 1) Zero = None.
Proof. apply (masp_u128_high_word_unreachable (2 ^ 64 + 1) Zero). lia. Defined.
