(* ===== verification/Gas.v ===== *)
(** * Gas metering (crates/gas/src/lib.rs)

    [Gas] is a number of sub-units in [u64].  [GasMetering] is the trait shared
    by the transaction meter and the validity-predicate meter; [VpsGas] merges
    the meters of validity predicates run in parallel.  The properties give the
    meters' state after any sequence of calls, and show that merging does not
    depend on the order in which the parallel runs end. *)

From S2P Require Import Prelude.

(** [struct Gas { sub: u64 }]. *)
Abbreviation Gas := Z.

Inductive Error : Type := TransactionGasExceededError | BlockGasExceeded | GasOverflow.

#[global] Instance Error_eq_dec : EqDecision Error.
Proof. solve_decision. Defined.

Definition COMPILE_GAS_PER_BYTE : Z := 1955.
Definition PARALLEL_GAS_DIVIDER : Z := 10.
Definition WASM_CODE_VALIDATION_GAS_PER_BYTE : Z := 67.
Definition WRAPPER_TX_VALIDATION_GAS : Z := 3245500.
Definition PHYSICAL_STORAGE_LATENCY_PER_BYTE : Z := 1000000.
Definition STORAGE_OCCUPATION_GAS_PER_BYTE : Z := 100000 + PHYSICAL_STORAGE_LATENCY_PER_BYTE.
Definition NETWORK_TRANSMISSION_GAS_PER_BYTE : Z := 848.
Definition MEMORY_ACCESS_GAS_PER_BYTE : Z := 104.
Definition STORAGE_ACCESS_GAS_PER_BYTE : Z := 163 + PHYSICAL_STORAGE_LATENCY_PER_BYTE.
Definition STORAGE_WRITE_GAS_PER_BYTE : Z :=
  MEMORY_ACCESS_GAS_PER_BYTE + 69634 + STORAGE_OCCUPATION_GAS_PER_BYTE.
Definition VERIFY_TX_SIG_GAS : Z := 594290.
Definition WASM_MEMORY_PAGE_GAS : Z := MEMORY_ACCESS_GAS_PER_BYTE * 64 * 1024.
Definition SCALE : Z := 100000000.

Module GasM.
Definition checked_add (a b : Gas) : option Gas := chk 64 (a + b).
Definition checked_sub (a b : Gas) : option Gas := chk 64 (a - b).

(** [get_whole_gas_units]; the increment cannot overflow. *)
Definition get_whole_gas_units (a : Gas) : res Error Z :=
  let quotient := a / SCALE in
  if a mod SCALE =? 0 then Ok quotient else opr 64 (quotient + 1).

(** [from_whole_units]: the product panics on overflow. *)
Definition from_whole_units (whole : Z) : res Error Gas := opr 64 (whole * SCALE).

(** [impl Div<u64> for Gas]. *)
Definition div (a : Gas) (rhs : Z) : Gas := a / rhs.
End GasM.

(** ** The trait [GasMetering] *)

Class GasMetering (M : Type) : Type := {
  consume : Z → stt M Error unit;
  get_tx_consumed_gas : M → Gas;
  get_gas_limit : M → Gas;
}.

Section default_methods.
Context {M : Type} `{GasMetering M}.

Definition add_compiling_gas (bytes_len : Z) : stt M Error unit :=
  g ← lift (ok_or (chk 64 (bytes_len * COMPILE_GAS_PER_BYTE)) GasOverflow); consume g.
Definition add_wasm_load_from_storage_gas (bytes_len : Z) : stt M Error unit :=
  g ← lift (ok_or (chk 64 (bytes_len * STORAGE_ACCESS_GAS_PER_BYTE)) GasOverflow); consume g.
Definition add_wasm_validation_gas (bytes_len : Z) : stt M Error unit :=
  g ← lift (ok_or (chk 64 (bytes_len * WASM_CODE_VALIDATION_GAS_PER_BYTE)) GasOverflow); consume g.
End default_methods.

(** ** The transaction meter *)

Record TxGasMeter : Type := mk_tx_meter {
  tx_gas_overflow : bool;
  tx_gas_limit : Gas;
  transaction_gas : Gas;
}.

Record VpGasMeter : Type := mk_vp_meter {
  vp_gas_overflow : bool;
  vp_tx_gas_limit : Gas;
  initial_gas : Gas;
  current_gas : Gas;
}.

Record VpsGas : Type := mk_vps_gas {
  vps_max : Gas;
  vps_rest : list Gas;
}.

Definition tx_consume (gas : Z) : stt TxGasMeter Error unit := λ m,
  if tx_gas_overflow m then (m, Err GasOverflow)
  else
    match GasM.checked_add (transaction_gas m) gas with
    | None => (mk_tx_meter true (tx_gas_limit m) (transaction_gas m), Err GasOverflow)
    | Some g =>
        (mk_tx_meter false (tx_gas_limit m) g,
         if tx_gas_limit m <? g then Err TransactionGasExceededError else Ok ())
    end.

#[global] Instance TxGasMeter_metering : GasMetering TxGasMeter := {
  consume := tx_consume;
  get_tx_consumed_gas m := if negb (tx_gas_overflow m) then transaction_gas m else u64_max;
  get_gas_limit m := tx_gas_limit m;
}.

Definition vp_consume (gas : Z) : stt VpGasMeter Error unit := λ m,
  if vp_gas_overflow m then (m, Err GasOverflow)
  else
    match GasM.checked_add (current_gas m) gas with
    | None =>
        (mk_vp_meter true (vp_tx_gas_limit m) (initial_gas m) (current_gas m), Err GasOverflow)
    | Some g =>
        (mk_vp_meter false (vp_tx_gas_limit m) (initial_gas m) g,
         current_total ← ok_or (GasM.checked_add (initial_gas m) g) GasOverflow;
         if vp_tx_gas_limit m <? current_total then Err TransactionGasExceededError else Ok ())
    end.

#[global] Instance VpGasMeter_metering : GasMetering VpGasMeter := {
  consume := vp_consume;
  get_tx_consumed_gas m := if negb (vp_gas_overflow m) then initial_gas m else u64_max;
  get_gas_limit m := vp_tx_gas_limit m;
}.

Module VpsGasM.
Definition default : VpsGas := mk_vps_gas 0 [].

Definition get_current_gas (v : VpsGas) : res Error Gas :=
  rest ← foldl (λ acc g, a ← acc; ok_or (GasM.checked_add a g) GasOverflow) (Ok 0) (vps_rest v);
  let parallel_gas := GasM.div rest PARALLEL_GAS_DIVIDER in
  ok_or (GasM.checked_add (vps_max v) parallel_gas) GasOverflow.

Definition check_limit {M} `{GasMetering M} (v : VpsGas) (gas_meter : M) : res Error unit :=
  cur ← get_current_gas v;
  total ← ok_or (GasM.checked_add (get_tx_consumed_gas gas_meter) cur) GasOverflow;
  if get_gas_limit gas_meter <? total then Err TransactionGasExceededError else Ok ().

Definition set (vp_gas_meter : VpGasMeter) : stt VpsGas Error unit := λ v,
  let v' :=
    if vps_max v <? current_gas vp_gas_meter
    then mk_vps_gas (current_gas vp_gas_meter) (vps_rest v ++ [vps_max v])
    else mk_vps_gas (vps_max v) (vps_rest v ++ [current_gas vp_gas_meter]) in
  (v', check_limit v' vp_gas_meter).

Definition merge (other : VpsGas) (tx_gas_meter : TxGasMeter) : stt VpsGas Error unit := λ v,
  let v' :=
    if vps_max v <? vps_max other
    then mk_vps_gas (vps_max other) ((vps_rest v ++ [vps_max v]) ++ vps_rest other)
    else mk_vps_gas (vps_max v) ((vps_rest v ++ [vps_max other]) ++ vps_rest other) in
  (v', check_limit v' tx_gas_meter).
End VpsGasM.

Module TxMeterM.
Definition new_from_sub_limit (limit : Gas) : TxGasMeter := mk_tx_meter false limit 0.

Definition add_wrapper_gas (bytes_len : Z) : stt TxGasMeter Error unit :=
  _ ← consume WRAPPER_TX_VALIDATION_GAS;
  g ← lift (ok_or (chk 64 (bytes_len *
        (STORAGE_OCCUPATION_GAS_PER_BYTE + NETWORK_TRANSMISSION_GAS_PER_BYTE))) GasOverflow);
  consume g.

Definition add_vps_gas (vps_gas : VpsGas) : stt TxGasMeter Error unit :=
  g ← lift (VpsGasM.get_current_gas vps_gas); consume g.

Definition get_available_gas (m : TxGasMeter) : Gas :=
  default 0 (GasM.checked_sub (tx_gas_limit m) (transaction_gas m)).

Definition copy_consumed_gas_from (other : TxGasMeter) : stt TxGasMeter Error unit := λ m,
  let m' := mk_tx_meter (tx_gas_overflow other) (tx_gas_limit m) (transaction_gas other) in
  (m', if tx_gas_limit m' <? transaction_gas m' then Err TransactionGasExceededError
       else if tx_gas_overflow m' then Err GasOverflow else Ok ()).
End TxMeterM.

Definition new_from_tx_meter (m : TxGasMeter) : VpGasMeter :=
  mk_vp_meter false (tx_gas_limit m) (transaction_gas m) 0.

(** ** Sequences of charges

    Callers may go on after an error; [run_consume] charges every cost in
    order and returns the final meter with the outcome of each charge. *)
Fixpoint run_consume {M} `{GasMetering M} (gs : list Z) (m : M) : M * list (res Error unit) :=
  match gs with
  | [] => (m, [])
  | g :: gs =>
      let '(m1, r) := consume g m in
      let '(m2, rs) := run_consume gs m1 in (m2, r :: rs)
  end.

Definition sum_gas (gs : list Z) : Z := foldr Z.add 0 gs.

Lemma sum_gas_app l1 l2 : sum_gas (l1 ++ l2) = sum_gas l1 + sum_gas l2.
Proof. unfold sum_gas. induction l1 as [|x l1 IH]; cbn; lia. Qed.

Lemma sum_gas_perm l1 l2 : l1 ≡ₚ l2 → sum_gas l1 = sum_gas l2.
Proof. unfold sum_gas. induction 1; cbn; lia. Qed.

Lemma sum_gas_nonneg l : Forall (λ x, 0 ≤ x) l → 0 ≤ sum_gas l.
Proof. unfold sum_gas. induction 1; cbn; lia. Qed.

Lemma tx_consume_overflowed g m : tx_gas_overflow m = true → tx_consume g m = (m, Err GasOverflow).
Proof. intros H. unfold tx_consume. by rewrite H. Qed.

Lemma run_overflowed gs m : tx_gas_overflow m = true →
  run_consume gs m = (m, replicate (length gs) (Err GasOverflow)).
Proof.
  intros H. induction gs as [|g gs IH]; [done|]. cbn.
  rewrite tx_consume_overflowed by done. by rewrite IH.
Qed.

(** What a charge answers when the total up to it is [t]. *)
Definition charge_outcome (limit t : Z) : res Error unit :=
  if t <=? limit then Ok ()
  else if t <=? u64_max then Err TransactionGasExceededError else Err GasOverflow.

Lemma run_consume_from limit gs c :
  0 ≤ limit ≤ u64_max → Forall (λ g, 0 ≤ g ≤ u64_max) gs → 0 ≤ c ≤ u64_max →
  let '(m, rs) := run_consume gs (mk_tx_meter false limit c) in
  get_tx_consumed_gas m = Z.min (c + sum_gas gs) u64_max ∧
  (c + sum_gas gs ≤ u64_max → TxMeterM.get_available_gas m = Z.max 0 (limit - (c + sum_gas gs))) ∧
  ∀ i r, rs !! i = Some r → r = charge_outcome limit (c + sum_gas (take (S i) gs)).
Proof.
  intros Hl Hgs. revert c. induction Hgs as [|g gs Hg Hgs IH]; intros c Hc.
  { cbn. split_and!; [lia| |done]. intros _. unfold TxMeterM.get_available_gas. cbn.
    unfold GasM.checked_sub, chk. destruct (in_u 64 (limit - c)) eqn:E; boolp; cbn; lia. }
  assert (Hnn : ∀ l, Forall (λ g, 0 ≤ g ≤ u64_max) l → 0 ≤ sum_gas l).
  { intros l Hf. apply sum_gas_nonneg. eapply Forall_impl; [exact Hf|cbn; lia]. }
  pose proof (Hnn gs Hgs). change (sum_gas (g :: gs)) with (g + sum_gas gs).
  cbn [run_consume consume TxGasMeter_metering]. unfold tx_consume, GasM.checked_add at 1.
  cbn [tx_gas_overflow tx_gas_limit transaction_gas].
  destruct (chk 64 (c + g)) as [x|] eqn:E.
  - apply chk_Some in E as [-> Hx]. specialize (IH (c + g) ltac:(lia)).
    destruct (run_consume gs _) as [m rs]. destruct IH as (H1 & H2 & H3).
    split_and!; [rewrite H1; f_equal; lia|intros; rewrite H2 by lia; lia|].
    intros [|i] r Hr; cbn in Hr.
    + injection Hr as <-. cbn. rewrite Z.add_0_r. unfold charge_outcome.
      destruct (Z.ltb_spec limit (c + g)), (Z.leb_spec (c + g) limit),
        (Z.leb_spec (c + g) u64_max); done || lia.
    + rewrite (H3 i r Hr). cbn [take]. change (sum_gas (g :: ?l)) with (g + sum_gas l).
      by rewrite Z.add_assoc.
  - apply chk_None in E. rewrite run_overflowed by done.
    split_and!; [cbn; lia|lia|]. intros i r Hr.
    assert (r = Err GasOverflow) as ->.
    { destruct i; cbn in Hr; [congruence|]. by apply lookup_replicate in Hr as [? _]. }
    pose proof (Hnn (take i gs) ltac:(by apply Forall_take)).
    cbn [take]. change (sum_gas (g :: ?l)) with (g + sum_gas l). unfold charge_outcome.
    destruct (Z.leb_spec (c + (g + sum_gas (take i gs))) limit),
      (Z.leb_spec (c + (g + sum_gas (take i gs))) u64_max); done || lia.
Qed.

(**  A transaction meter is exact and never recovers: after any sequence of
    charges the consumed gas is their sum (or [u64::MAX] once the sum has
    overflowed), and the [i]-th charge succeeded exactly when the sum up to and
    including it is within the limit. *)
Theorem tx_meter_exact (limit : Gas) (gs : list Z) :
  0 ≤ limit ≤ u64_max → Forall (λ g, 0 ≤ g ≤ u64_max) gs →
  let '(m, rs) := run_consume gs (TxMeterM.new_from_sub_limit limit) in
  get_tx_consumed_gas m = Z.min (sum_gas gs) u64_max ∧
  (sum_gas gs ≤ u64_max → TxMeterM.get_available_gas m = Z.max 0 (limit - sum_gas gs)) ∧
  ∀ i r, rs !! i = Some r → r = charge_outcome limit (sum_gas (take (S i) gs)).
Proof. intros Hl Hgs. exact (run_consume_from limit gs 0 Hl Hgs ltac:(lia)). Qed.

Lemma tx_meter_exact_witness :
  get_tx_consumed_gas (fst (run_consume [3; 9; u64_max] (TxMeterM.new_from_sub_limit 10))) =
  u64_max.
Proof.
  pose proof (tx_meter_exact 10 [3; 9; u64_max] ltac:(lia)
    ltac:(repeat constructor; cbn; lia)) as H.
  destruct (run_consume _ _) as [m rs]. destruct H as (H & _). cbn [fst]. rewrite H. reflexivity.
Defined.

(** ** Parallel validity predicates *)

(** The gas charged for validity predicates that used [gs]: the largest in
    full, a tenth of the others. *)
Definition max_gas (gs : list Z) : Z := foldr Z.max 0 gs.
Definition vps_cost (gs : list Z) : res Error Gas :=
  let rest := sum_gas gs - max_gas gs in
  if rest <=? u64_max
  then ok_or (chk 64 (max_gas gs + rest / PARALLEL_GAS_DIVIDER)) GasOverflow
  else Err GasOverflow.

(** [v] accounts for the runs [gs]: every gas is in [max] or [rest], up to
    zeros, and [max] is the largest. *)
Definition accounts (v : VpsGas) (gs : list Z) : Prop :=
  ∃ k, vps_max v :: vps_rest v ≡ₚ replicate k 0 ++ gs ∧
    Forall (λ g, 0 ≤ g ≤ vps_max v) (vps_max v :: vps_rest v).

Lemma max_gas_spec m gs : 0 ≤ m → Forall (λ g, 0 ≤ g ≤ m) gs → (m = 0 ∨ m ∈ gs) → max_gas gs = m.
Proof.
  intros Hm Hgs Hin.
  assert (Hle : 0 ≤ max_gas gs ≤ m) by (clear Hin; unfold max_gas; induction Hgs; cbn; lia).
  destruct Hin as [->|Hin]; [lia|]. clear Hgs.
  assert (m ≤ max_gas gs); [|lia]. clear Hle. unfold max_gas.
  induction Hin as [|? ? ? Hin IH]; cbn; lia.
Qed.

Lemma sum_gas_zeros k : sum_gas (replicate k 0) = 0.
Proof. unfold sum_gas. by induction k. Qed.

Lemma fold_gas_rest l a : Forall (λ g, 0 ≤ g) l → 0 ≤ a →
  foldl (λ acc g, x ← acc; ok_or (GasM.checked_add x g) GasOverflow) (Ok a) l =
  if a + sum_gas l <=? u64_max then Ok (a + sum_gas l)
  else if (a <=? u64_max) || negb (bool_decide (l = [])) then Err GasOverflow else Ok a.
Proof.
  intros Hl. revert a. induction Hl as [|g l Hg Hl IH]; intros a Ha.
  { cbn. rewrite Z.add_0_r. by destruct (a <=? u64_max). }
  change (sum_gas (g :: l)) with (g + sum_gas l). pose proof (sum_gas_nonneg l Hl).
  cbn [foldl]. unfold GasM.checked_add at 2. cbn [mbind res_bind].
  destruct (chk 64 (a + g)) as [x|] eqn:E; cbn [ok_or].
  - apply chk_Some in E as [-> Hx]. rewrite IH by lia. rewrite Z.add_assoc.
    destruct (Z.leb_spec (a + g + sum_gas l) u64_max); [done|].
    destruct (Z.leb_spec (a + g) u64_max); [|lia]. cbn. by rewrite orb_true_r.
  - apply chk_None in E.
    assert (Hfail : ∀ l : list Z, foldl (λ acc g, x ← acc; ok_or (GasM.checked_add x g) GasOverflow)
      (Err GasOverflow) l = Err GasOverflow) by (intros l'; induction l'; done).
    rewrite Hfail. destruct (Z.leb_spec (a + (g + sum_gas l)) u64_max); [lia|].
    by rewrite orb_true_r.
Qed.

Lemma get_current_gas_accounts v gs : accounts v gs →
  VpsGasM.get_current_gas v = vps_cost gs.
Proof.
  intros (k & Hp & Hle). unfold VpsGasM.get_current_gas, vps_cost.
  pose proof Hle as [Hm Hrest]%Forall_cons.
  assert (Hmax : max_gas gs = vps_max v).
  { apply max_gas_spec; [lia| |].
    - rewrite Forall_forall in Hle |- *. intros x Hx. apply Hle. rewrite Hp.
      apply elem_of_app. by right.
    - assert (Hin : vps_max v ∈ replicate k 0 ++ gs) by (rewrite <-Hp; left).
      apply elem_of_app in Hin as [[? _]%elem_of_replicate|?]; [left; lia|by right]. }
  assert (Hsum : vps_max v + sum_gas (vps_rest v) = sum_gas gs).
  { apply sum_gas_perm in Hp. rewrite sum_gas_app, sum_gas_zeros in Hp. exact Hp. }
  rewrite fold_gas_rest by (lia || (eapply Forall_impl; [exact Hrest|cbn; lia])).
  rewrite Hmax. replace (0 + sum_gas (vps_rest v)) with (sum_gas gs - vps_max v) by lia.
  by destruct (_ <=? u64_max).
Qed.

Lemma set_accounts m v gs : 0 ≤ current_gas m → accounts v gs →
  accounts (fst (VpsGasM.set m v)) (current_gas m :: gs).
Proof.
  intros Hc (k & Hp & Hle). exists k. unfold VpsGasM.set. cbn [fst].
  assert (Hperm : replicate k 0 ++ current_gas m :: gs ≡ₚ current_gas m :: vps_max v :: vps_rest v)
    by (rewrite Hp; solve_Permutation).
  apply Forall_cons in Hle as [? Hle].
  destruct (Z.ltb_spec (vps_max v) (current_gas m)); cbn [vps_max vps_rest];
    (split; [rewrite Hperm; solve_Permutation|]);
    rewrite Forall_cons, Forall_app, Forall_singleton; split_and!; try done; try lia.
  eapply Forall_impl; [exact Hle|cbn; lia].
Qed.

Lemma merge_accounts w tm v gs hs : accounts v gs → accounts w hs →
  accounts (fst (VpsGasM.merge w tm v)) (gs ++ hs).
Proof.
  intros (k & Hp & Hle) (j & Hq & Hlw). exists (k + j)%nat. unfold VpsGasM.merge. cbn [fst].
  assert (Hperm : (vps_max v :: vps_rest v) ++ (vps_max w :: vps_rest w) ≡ₚ
    replicate (k + j) 0 ++ gs ++ hs).
  { rewrite Hp, Hq, replicate_add. solve_Permutation. }
  apply Forall_cons in Hle as [? Hle]. apply Forall_cons in Hlw as [? Hlw].
  destruct (Z.ltb_spec (vps_max v) (vps_max w)); cbn [vps_max vps_rest];
    (split; [rewrite <-Hperm; solve_Permutation|]);
    rewrite Forall_cons, !Forall_app, Forall_singleton; split_and!; try done; try lia.
  - eapply Forall_impl; [exact Hle|cbn; lia].
  - eapply Forall_impl; [exact Hlw|cbn; lia].
Qed.

(** The runs of a list of validity predicates recorded one after the other. *)
Definition set_all (ms : list VpGasMeter) (v : VpsGas) : VpsGas :=
  foldl (λ v m, fst (VpsGasM.set m v)) v ms.

Lemma set_all_accounts ms v gs : Forall (λ m, 0 ≤ current_gas m) ms → accounts v gs →
  accounts (set_all ms v) (reverse (current_gas <$> ms) ++ gs).
Proof.
  intros Hms. revert v gs. induction Hms as [|m ms Hm Hms IH]; intros v gs Hv; [done|].
  cbn [set_all foldl fmap list_fmap]. rewrite reverse_cons, <-app_assoc.
  apply (IH _ (current_gas m :: gs)). by apply set_accounts.
Qed.

Lemma accounts_default : accounts VpsGasM.default [].
Proof. exists 1%nat. split; [done|]. repeat constructor; cbn; lia. Qed.

(**  The gas charged for validity predicates depends only on the gas each
    one used: however the runs are split over two threads, recorded in any
    order in each and merged, the total is the largest plus a tenth of the sum
    of the others, and merging reports out-of-gas exactly when that total added
    to the transaction's own gas exceeds the limit. *)
Theorem vps_gas_order_independent (ms1 ms2 : list VpGasMeter) (all : list Z) (tm : TxGasMeter) :
  Forall (λ m, 0 ≤ current_gas m) ms1 → Forall (λ m, 0 ≤ current_gas m) ms2 →
  (current_gas <$> ms1) ++ (current_gas <$> ms2) ≡ₚ all →
  let '(v, r) := VpsGasM.merge (set_all ms2 VpsGasM.default) tm (set_all ms1 VpsGasM.default) in
  VpsGasM.get_current_gas v = vps_cost all ∧
  r = (cost ← vps_cost all;
       total ← ok_or (chk 64 (get_tx_consumed_gas tm + cost)) GasOverflow;
       if tx_gas_limit tm <? total then Err TransactionGasExceededError else Ok ()).
Proof.
  intros H1 H2 Hall.
  pose proof (set_all_accounts ms1 _ [] H1 accounts_default) as A1.
  pose proof (set_all_accounts ms2 _ [] H2 accounts_default) as A2.
  pose proof (merge_accounts _ tm _ _ _ A1 A2) as A.
  destruct (VpsGasM.merge _ _ _) as [v r] eqn:E. cbn [fst] in A.
  assert (Hc : VpsGasM.get_current_gas v = vps_cost all).
  { apply get_current_gas_accounts. destruct A as (k & Hp & Hle). exists k. split; [|done].
    rewrite Hp, <-Hall. rewrite !reverse_Permutation. solve_Permutation. }
  split; [done|]. unfold VpsGasM.merge in E. injection E as Ev <-. rewrite Ev.
  unfold VpsGasM.check_limit. by rewrite Hc.
Qed.

Lemma vps_gas_order_independent_witness :
  VpsGasM.get_current_gas
    (fst (VpsGasM.merge (set_all [mk_vp_meter false 100 0 7] VpsGasM.default)
            (TxMeterM.new_from_sub_limit 100)
            (set_all [mk_vp_meter false 100 0 20; mk_vp_meter false 100 0 50] VpsGasM.default)))
  = Ok 52.
Proof.
  pose proof (vps_gas_order_independent
    [mk_vp_meter false 100 0 20; mk_vp_meter false 100 0 50] [mk_vp_meter false 100 0 7]
    [20; 50; 7] (TxMeterM.new_from_sub_limit 100)
    ltac:(repeat constructor; cbn; lia) ltac:(repeat constructor; cbn; lia) ltac:(reflexivity)) as H.
  destruct (VpsGasM.merge _ _ _) as [v r]. destruct H as [H _]. cbn [fst]. rewrite H. reflexivity.
Defined.
