(* ===== verification/StorageKey.v ===== *)
(** * Storage keys (crates/core/src/storage.rs)

    A [Key] is a list of segments, each an address or a string.  The text
    encoding of addresses (bech32m, behind [Address::encode]/[decode]) is the
    interface [AddressApi].  The properties are the round trip of printing and
    parsing, and what [split_prefix] and [is_validity_predicate] decide. *)

From S2P Require Import Prelude Words Uint Decimal.

Class AddressApi : Type := {
  Address : Type;
  address_eq_dec :: EqDecision Address;
  address_countable :: Countable Address;
  addr_encode : Address → text;
  addr_decode : text → option Address;
}.

Definition KEY_SEGMENT_SEPARATOR : ascii := "/"%char.
Definition RESERVED_ADDRESS_PREFIX : ascii := "#"%char.
Definition RESERVED_VP_KEY : text := ["?"%char].

(** Documented behaviour of the bech32m encoding: it can be decoded, and it
    uses letters and digits only. *)
Class AddressLaws (A : AddressApi) : Prop := {
  decode_encode a : addr_decode (addr_encode a) = Some a;
  encode_no_sep a : KEY_SEGMENT_SEPARATOR ∉ addr_encode a;
}.

(** A concrete address space, for evaluation: numbers, printed in decimal. *)
#[export] Instance addr_ref : AddressApi := {
  Address := N;
  addr_encode n := print_dec (Z.of_N n);
  addr_decode s := Z.to_N <$> parse_dec s;
}.

#[export] Instance addr_ref_laws : AddressLaws addr_ref.
Proof.
  split.
  - intros n. unfold addr_decode, addr_encode, addr_ref, print_dec. destruct (digits_spec (Z.of_N n)) as (Hv & Hd & _); [lia|].
    rewrite parse_dec_digits, Hv by done. runo. by rewrite N2Z.id.
  - intros n. apply notin_digits; [done|]. apply digits_spec. lia.
Qed.

Section keys.
Context {A : AddressApi}.

Inductive DbKeySeg : Type :=
| AddressSeg (a : Address)
| StringSeg (s : text).

#[global] Instance DbKeySeg_eq_dec : EqDecision DbKeySeg.
Proof. solve_decision. Defined.

#[global] Instance DbKeySeg_countable : Countable DbKeySeg.
Proof.
  refine (inj_countable' (λ s, match s with AddressSeg a => inl a | StringSeg t => inr t end)
    (λ s, match s with inl a => AddressSeg a | inr t => StringSeg t end) _).
  by intros [].
Defined.

Record Key : Type := mk_key { segments : list DbKeySeg }.

#[global] Instance Key_eq_dec : EqDecision Key.
Proof. solve_decision. Defined.

#[global] Instance Key_countable : Countable Key.
Proof. refine (inj_countable' segments mk_key _). by intros []. Defined.

Inductive KeyError : Type :=
| ParseKeySeg
| InvalidKeySeg
| ParseAddress
| MissingSegments
| EmptyKey.

(** [impl KeySeg for DbKeySeg]. *)
Definition seg_parse (s : text) : res KeyError DbKeySeg :=
  if bool_decide (KEY_SEGMENT_SEPARATOR ∈ s) then Err InvalidKeySeg
  else
    match s with
    | c :: rest =>
        if decide (c = RESERVED_ADDRESS_PREFIX)
        then AddressSeg <$> ok_or (addr_decode rest) ParseAddress
        else Ok (StringSeg s)
    | [] => Ok (StringSeg s)
    end.
Definition seg_raw (s : DbKeySeg) : text :=
  match s with
  | AddressSeg a => RESERVED_ADDRESS_PREFIX :: addr_encode a
  | StringSeg t => t
  end.

(** [str::split(c)] and [\[String\]::join(c)]. *)
Fixpoint split (c : ascii) (s : text) : list text :=
  match s with
  | [] => [[]]
  | x :: s =>
      if decide (x = c) then [] :: split c s
      else match split c s with
           | t :: ts => (x :: t) :: ts
           | [] => [[x]]
           end
  end.
Fixpoint join (c : ascii) (l : list text) : text :=
  match l with
  | [] => []
  | [s] => s
  | s :: l => s ++ c :: join c l
  end.

Fixpoint parse_segments (l : list text) : res KeyError (list DbKeySeg) :=
  match l with
  | [] => Ok []
  | s :: l => x ← seg_parse s; xs ← parse_segments l; Ok (x :: xs)
  end.

Definition key_parse (s : text) : res KeyError Key :=
  if decide (s = []) then Err ParseKeySeg
  else mk_key <$> parse_segments (split KEY_SEGMENT_SEPARATOR s).

(** [impl Display for Key] and [Key::len]. *)
Definition key_to_string (k : Key) : text := join KEY_SEGMENT_SEPARATOR (seg_raw <$> segments k).
Definition key_len (k : Key) : Z := Z.of_nat (length (key_to_string k)).
Definition key_is_empty (k : Key) : bool := key_len k =? 0.

(** [push] parses the raw form of the new segment; [with_segment] does not. *)
Definition key_push (k : Key) (other_raw : text) : res KeyError Key :=
  s ← seg_parse other_raw; Ok (mk_key (segments k ++ [s])).
Definition key_with_segment (k : Key) (s : DbKeySeg) : Key := mk_key (segments k ++ [s]).
Definition key_join (k other : Key) : Key := mk_key (segments k ++ segments other).

Definition seg_address (s : DbKeySeg) : option Address :=
  match s with AddressSeg a => Some a | StringSeg _ => None end.
Definition iter_addresses (k : Key) : list Address := omap seg_address (segments k).
Definition find_addresses (k : Key) : list Address := iter_addresses k.
Definition fst_address (k : Key) : option Address :=
  match segments k with s :: _ => seg_address s | [] => None end.
Definition key_get_at (k : Key) (i : nat) : option DbKeySeg := segments k !! i.
Definition key_first (k : Key) : option DbKeySeg := head (segments k).
Definition key_last (k : Key) : option DbKeySeg := last (segments k).
Definition key_split_last (k : Key) : option (list DbKeySeg * DbKeySeg) :=
  x ← last (segments k); Some (take (length (segments k) - 1) (segments k), x).

Definition validity_predicate (a : Address) : Key :=
  mk_key [AddressSeg a; StringSeg RESERVED_VP_KEY].
Definition is_validity_predicate (k : Key) : option Address :=
  match segments k with
  | [AddressSeg a; StringSeg sub_key] =>
      if decide (sub_key = RESERVED_VP_KEY) then Some a else None
  | _ => None
  end.

Definition sub_key (k : Key) : res KeyError Key :=
  match segments k with
  | _ :: rest => if decide (rest = []) then Err MissingSegments else Ok (mk_key rest)
  | [] => Err EmptyKey
  end.

Definition split_prefix (k prefix : Key) : option (option Key) :=
  if (length (segments k) <? length (segments prefix))%nat then None
  else if decide (k = prefix) then Some None
  else
    let self_prefix := take (length (segments prefix)) (segments k) in
    let rest := drop (length (segments prefix)) (segments k) in
    if decide (self_prefix = segments prefix) then Some (Some (mk_key rest)) else None.

(** ** Round trip *)

(** A segment that [seg_parse] reads back: addresses always, strings without a
    separator and without the address prefix in front. *)
Definition plain_seg (s : DbKeySeg) : Prop :=
  match s with
  | AddressSeg _ => True
  | StringSeg t => KEY_SEGMENT_SEPARATOR ∉ t ∧ head t ≠ Some RESERVED_ADDRESS_PREFIX
  end.
Definition plain_key (k : Key) : Prop := Forall plain_seg (segments k) ∧ key_to_string k ≠ [].

Lemma split_nonempty c s : split c s ≠ [].
Proof using Type. destruct s as [|x s]; cbn; [done|]. destruct (decide _); [done|]. by destruct (split c s). Qed.

Lemma split_notin c s : c ∉ s → split c s = [s].
Proof using Type.
  induction s as [|x s IH]; [done|]. rewrite not_elem_of_cons. intros [H1 H2]. cbn [split].
  rewrite decide_False by done. by rewrite IH.
Qed.

Lemma split_app c s t : c ∉ s → split c (s ++ c :: t) = s :: split c t.
Proof using Type.
  induction s as [|x s IH]; cbn [app split].
  { intros _. by rewrite decide_True. }
  rewrite not_elem_of_cons. intros [H1 H2]. rewrite decide_False by done. by rewrite IH.
Qed.

Lemma split_join c l : l ≠ [] → Forall (λ s, c ∉ s) l → split c (join c l) = l.
Proof using Type.
  intros Hne Hl. induction Hl as [|s l Hs Hl IH]; [done|].
  destruct l as [|s' l]; [by apply split_notin|].
  cbn [join]. rewrite split_app by done. f_equal. apply IH. done.
Qed.

Lemma join_split c s : join c (split c s) = s.
Proof using Type.
  induction s as [|x s IH]; [done|]. cbn [split]. destruct (decide (x = c)) as [->|].
  - pose proof (split_nonempty c s). destruct (split c s) eqn:E; [done|]. cbn in *. by rewrite IH.
  - pose proof (split_nonempty c s). destruct (split c s) as [|t [|t' ts]] eqn:E; cbn in *; by rewrite <-IH.
Qed.

Section laws.
Context {AL : AddressLaws A}.

Lemma seg_raw_no_sep s : plain_seg s → KEY_SEGMENT_SEPARATOR ∉ seg_raw s.
Proof using AL.
  destruct s as [a|t]; cbn; [|tauto]. intros _. rewrite not_elem_of_cons.
  split; [done|]. apply encode_no_sep.
Qed.

Lemma seg_parse_raw s : plain_seg s → seg_parse (seg_raw s) = Ok s.
Proof using AL.
  intros Hs. unfold seg_parse. rewrite bool_decide_eq_false_2 by (by apply seg_raw_no_sep).
  destruct s as [a|t]; cbn.
  - rewrite decide_True by done. by rewrite decode_encode.
  - destruct t as [|c t]; [done|]. rewrite decide_False; [done|]. intros ->. by destruct Hs.
Qed.

Lemma parse_segments_raw l : Forall plain_seg l → parse_segments (seg_raw <$> l) = Ok l.
Proof using AL.
  induction 1 as [|s l Hs Hl IH]; [done|]. cbn. rewrite seg_parse_raw by done. cbn. by rewrite IH.
Qed.

Lemma key_roundtrip k : plain_key k → key_parse (key_to_string k) = Ok k.
Proof using AL.
  intros [Hk Hne]. unfold key_parse. rewrite decide_False by done. unfold key_to_string.
  assert (segments k ≠ []) by (intros E; apply Hne; unfold key_to_string; by rewrite E).
  rewrite split_join.
  - rewrite parse_segments_raw by done. by destruct k.
  - intros ?%fmap_nil_inv. done.
  - rewrite Forall_fmap. eapply Forall_impl; [exact Hk|]. intros. by apply seg_raw_no_sep.
Qed.

Lemma key_to_string_inj k1 k2 : plain_key k1 → plain_key k2 →
  key_to_string k1 = key_to_string k2 → k1 = k2.
Proof using AL.
  intros H1%key_roundtrip H2%key_roundtrip E. congruence.
Qed.
End laws.

Lemma seg_parse_plain t s : seg_parse t = Ok s → plain_seg s.
Proof using Type.
  unfold seg_parse. case_bool_decide as Hin; [done|]. destruct t as [|c t].
  { intros [= <-]. cbn. split; [done|]. done. }
  destruct (decide _) as [|Hc].
  - by destruct (addr_decode t); intros [= <-].
  - intros [= <-]. cbn. split; [done|]. congruence.
Qed.

(** [split_prefix] finds the suffix, if any. *)
Lemma split_prefix_spec k p :
  match split_prefix k p with
  | Some (Some s) => segments k = segments p ++ segments s ∧ segments s ≠ []
  | Some None => k = p
  | None => ∀ s, segments k ≠ segments p ++ s
  end.
Proof using Type.
  unfold split_prefix. destruct (Nat.ltb_spec (length (segments k)) (length (segments p))).
  { intros s E%(f_equal length). rewrite length_app in E. lia. }
  destruct (decide (k = p)) as [->|Hne]; [done|].
  destruct (decide _) as [E|E]; cbn.
  - split; [by rewrite <-E at 1; rewrite take_drop|].
    intros Hd. apply Hne. destruct k as [k], p as [p]. cbn in *. f_equal.
    by rewrite <-(take_drop (length p) k), Hd, app_nil_r, E.
  - intros s Hs. apply E. by rewrite Hs, take_app_length.
Qed.

End keys.

(** C36.  Printing a storage key and parsing the text gives the key back, for
    every key whose string segments have no separator and no address prefix and
    whose text is not empty; parsing only ever yields such segments, and two
    such keys with the same text are equal, so the database key determines the
    storage key. *)
Theorem storage_key_roundtrip (A : AddressApi) (AL : AddressLaws A) :
  (∀ k, plain_key k → key_parse (key_to_string k) = Ok k) ∧
  (∀ s k, key_parse s = Ok k → Forall plain_seg (segments k)) ∧
  (∀ k1 k2, plain_key k1 → plain_key k2 → key_to_string k1 = key_to_string k2 → k1 = k2).
Proof.
  split_and!; [apply key_roundtrip| |apply key_to_string_inj].
  intros s k. unfold key_parse. destruct (decide _); [done|].
  generalize (split KEY_SEGMENT_SEPARATOR s) as l. intros l.
  destruct (parse_segments l) as [ss| |] eqn:E; intros [= <-]. cbn.
  revert ss E. induction l as [|t l IH]; intros ss E; cbn in E; [injection E as <-; constructor|].
  destruct (seg_parse t) as [x| |] eqn:Ex; [|done..]. cbn in E.
  destruct (parse_segments l) as [xs| |]; [|done..]. cbn in E. injection E as <-.
  constructor; [by eapply seg_parse_plain|by apply IH].
Qed.

Lemma storage_key_roundtrip_witness :
  key_parse (key_to_string (mk_key [AddressSeg 42%N; StringSeg ["a"%char; "b"%char]])) =
  Ok (mk_key [AddressSeg 42%N; StringSeg ["a"%char; "b"%char]]).
Proof.
  destruct (storage_key_roundtrip addr_ref addr_ref_laws) as (H & _ & _).
  apply H. split; [|done]. repeat constructor; cbn; try done.
  rewrite !not_elem_of_cons. split_and!; try done. apply not_elem_of_nil.
Defined.
