(* ===== verification/BTree.v ===== *)
(** * Ordered maps: [BTreeMap] as sorted association lists

    [BTreeMap] iterates in key order.  A map is the list of its bindings,
    strictly ascending; [binsert] replaces or inserts.  [CmpOrder] is the [Ord]
    of the key, with instances for integers and byte strings. *)

From Stdlib Require Import Ascii Sorted.
From S2P Require Import Prelude.

Class CmpOrder (K : Type) : Type := {
  kcmp : K → K → comparison;
  kcmp_eq a b : kcmp a b = Eq ↔ a = b;
  kcmp_antisym a b : kcmp b a = CompOpp (kcmp a b);
  kcmp_trans a b c : kcmp a b = Lt → kcmp b c = Lt → kcmp a c = Lt;
}.

#[global] Arguments kcmp {_ _} _ _ : simpl never.

#[export] Instance Z_order : CmpOrder Z.
Proof.
  refine {| kcmp := Z.compare |}.
  - intros. apply Z.compare_eq_iff.
  - intros. apply Z.compare_antisym.
  - intros a b c. rewrite !Z.compare_lt_iff. lia.
Defined.

#[export] Instance N_order : CmpOrder N.
Proof.
  refine {| kcmp := N.compare |}.
  - intros. apply N.compare_eq_iff.
  - intros. apply N.compare_antisym.
  - intros a b c. rewrite !N.compare_lt_iff. lia.
Defined.

(** Lexicographic order on lists, as derived for [Vec] and [String]. *)
Section list_order.
Context {K} `{CmpOrder K}.

Fixpoint list_cmp (a b : list K) : comparison :=
  match a, b with
  | [], [] => Eq
  | [], _ :: _ => Lt
  | _ :: _, [] => Gt
  | x :: a, y :: b => match kcmp x y with Eq => list_cmp a b | o => o end
  end.

#[export] Instance list_order : CmpOrder (list K).
Proof.
  refine {| kcmp := list_cmp |}.
  - induction a as [|x a IH]; intros [|y b]; cbn; try (split; congruence).
    destruct (kcmp x y) eqn:E.
    + apply kcmp_eq in E as ->. rewrite IH. split; congruence.
    + split; [done|]. intros [= -> _]. pose proof (proj2 (kcmp_eq y y) eq_refl). congruence.
    + split; [done|]. intros [= -> _]. pose proof (proj2 (kcmp_eq y y) eq_refl). congruence.
  - induction a as [|x a IH]; intros [|y b]; cbn; try done.
    rewrite (kcmp_antisym x y). by destruct (kcmp x y); cbn.
  - induction a as [|x a IH]; intros [|y b] [|z c]; cbn; try done.
    destruct (kcmp x y) eqn:E1, (kcmp y z) eqn:E2; try done.
    + apply kcmp_eq in E1 as ->. rewrite E2. apply IH.
    + apply kcmp_eq in E1 as ->. by rewrite E2.
    + apply kcmp_eq in E2 as ->. by rewrite E1.
    + by rewrite (kcmp_trans _ _ _ E1 E2).
Defined.
End list_order.

(** Pairs, lexicographically. *)
#[export] Instance pair_order {K L} `{CmpOrder K} `{CmpOrder L} : CmpOrder (K * L).
Proof.
  refine {| kcmp a b := match kcmp a.1 b.1 with Eq => kcmp a.2 b.2 | o => o end |}.
  - intros [a b] [c d]. cbn. destruct (kcmp a c) eqn:E.
    + apply kcmp_eq in E as ->. rewrite kcmp_eq. split; congruence.
    + split; [done|]. intros [= -> _]. pose proof (proj2 (kcmp_eq c c) eq_refl). congruence.
    + split; [done|]. intros [= -> _]. pose proof (proj2 (kcmp_eq c c) eq_refl). congruence.
  - intros [a b] [c d]. cbn. rewrite (kcmp_antisym a c), (kcmp_antisym b d). by destruct (kcmp a c).
  - intros [a1 a2] [b1 b2] [c1 c2]. cbn. destruct (kcmp a1 b1) eqn:E1, (kcmp b1 c1) eqn:E2; try done.
    + apply kcmp_eq in E1 as ->. rewrite E2. apply kcmp_trans.
    + apply kcmp_eq in E1 as ->. by rewrite E2.
    + apply kcmp_eq in E2 as ->. by rewrite E1.
    + by rewrite (kcmp_trans a1 b1 c1).
Defined.

#[export] Instance ascii_order : CmpOrder ascii.
Proof.
  refine {| kcmp a b := Z.compare (Z.of_nat (nat_of_ascii a)) (Z.of_nat (nat_of_ascii b)) |}.
  - intros a b. rewrite Z.compare_eq_iff. split; [|by intros ->]. intros E%Nat2Z.inj.
    by rewrite <-(ascii_nat_embedding a), <-(ascii_nat_embedding b), E.
  - intros. apply Z.compare_antisym.
  - intros a b c. rewrite !Z.compare_lt_iff. lia.
Defined.

Section btree.
Context {K V : Type} {O : CmpOrder K}.

Definition klt (a b : K) : Prop := kcmp a b = Lt.

Fixpoint binsert (k : K) (v : V) (l : list (K * V)) : list (K * V) :=
  match l with
  | [] => [(k, v)]
  | (k', v') :: l' =>
      match kcmp k k' with
      | Lt => (k, v) :: l
      | Eq => (k, v) :: l'
      | Gt => (k', v') :: binsert k v l'
      end
  end.

Fixpoint blookup (k : K) (l : list (K * V)) : option V :=
  match l with
  | [] => None
  | (k', v) :: l => match kcmp k k' with Eq => Some v | _ => blookup k l end
  end.

(** Strictly ascending keys. *)
Definition bsorted (l : list (K * V)) : Prop := StronglySorted (λ a b, klt a.1 b.1) l.

Lemma bsorted_before l1 x l2 y : bsorted (l1 ++ x :: l2) → y ∈ l1 → klt y.1 x.1.
Proof using Type.
  unfold bsorted. induction l1 as [|z l1 IH]; cbn; intros Hs Hy; [by apply elem_of_nil in Hy|].
  apply StronglySorted_inv in Hs as [Hs Hz]. apply elem_of_cons in Hy as [->|Hy]; [|by apply IH].
  rewrite Forall_forall in Hz. apply Hz. apply elem_of_app. right. left.
Qed.

Lemma kcmp_refl a : kcmp a a = Eq.
Proof using Type. by apply kcmp_eq. Qed.

Lemma klt_irrefl a : ¬ klt a a.
Proof using Type. unfold klt. by rewrite kcmp_refl. Qed.

Lemma klt_gt a b : klt a b ↔ kcmp b a = Gt.
Proof using Type. unfold klt. rewrite (kcmp_antisym a b). by destruct (kcmp a b). Qed.

Lemma blookup_head k l : Forall (λ b, klt k b.1) l → blookup k l = None.
Proof using Type.
  induction 1 as [|[k' v] l Hk Hl IH]; [done|]. cbn in *. unfold klt in Hk. by rewrite Hk.
Qed.

Lemma blookup_elem k v l : bsorted l → blookup k l = Some v ↔ (k, v) ∈ l.
Proof using Type.
  induction 1 as [|[k' v'] l Hl IH Hk]; cbn; [split; [done|]; by intros ?%elem_of_nil|].
  rewrite elem_of_cons. destruct (kcmp k k') eqn:E.
  - apply kcmp_eq in E as ->. split; [intros [= ->]; by left|]. intros [[= ->]|Hin]; [done|].
    rewrite Forall_forall in Hk. specialize (Hk _ Hin). by apply klt_irrefl in Hk.
  - rewrite IH. split; [by right|]. intros [[= -> ->]|]; [|done]. by rewrite kcmp_refl in E.
  - rewrite IH. split; [by right|]. intros [[= -> ->]|]; [|done]. by rewrite kcmp_refl in E.
Qed.

Lemma blookup_binsert k v l k' : bsorted l →
  blookup k' (binsert k v l) = match kcmp k' k with Eq => Some v | _ => blookup k' l end.
Proof using Type.
  induction 1 as [|[k1 v1] l Hl IH Hk]; cbn; [by destruct (kcmp k' k)|].
  destruct (kcmp k k1) eqn:E; cbn.
  - apply kcmp_eq in E as ->. by destruct (kcmp k' k1).
  - by destruct (kcmp k' k).
  - rewrite IH. destruct (kcmp k' k1) eqn:E1; [|done..].
    apply kcmp_eq in E1 as ->. rewrite (kcmp_antisym k k1), E. done.
Qed.

Lemma Forall_binsert (P : K → Prop) k v l :
  P k → Forall (λ b, P b.1) l → Forall (λ b, P b.1) (binsert k v l).
Proof using Type.
  intros Hk Hl. induction Hl as [|[k1 v1] l H1 Hl IH]; cbn; [by repeat constructor|].
  destruct (kcmp k k1); by repeat constructor.
Qed.

Lemma binsert_sorted k v l : bsorted l → bsorted (binsert k v l).
Proof using Type.
  induction 1 as [|[k1 v1] l Hl IH Hk]; cbn; [by repeat constructor|].
  destruct (kcmp k k1) eqn:E.
  - apply kcmp_eq in E as ->. by constructor.
  - constructor; [by constructor|]. constructor; [done|].
    eapply Forall_impl; [exact Hk|]. intros b Hb. by eapply kcmp_trans.
  - constructor; [done|]. apply (Forall_binsert (klt k1)); [|done]. by apply klt_gt.
Qed.

(** A sorted list is determined by its lookups. *)
Lemma bsorted_ext l1 l2 : bsorted l1 → bsorted l2 →
  (∀ k, blookup k l1 = blookup k l2) → l1 = l2.
Proof using Type.
  intros H1. revert l2. induction H1 as [|[k1 v1] l1 Hl1 IH Hk1]; intros l2 H2 He.
  { destruct l2 as [|[k2 v2] l2]; [done|]. specialize (He k2). cbn in He. by rewrite kcmp_refl in He. }
  destruct H2 as [|[k2 v2] l2 Hl2 Hk2].
  { specialize (He k1). cbn in He. by rewrite kcmp_refl in He. }
  assert (k1 = k2) as <-.
  { pose proof (He k1) as E1. pose proof (He k2) as E2. cbn in E1, E2. rewrite kcmp_refl in E1, E2.
    destruct (kcmp k1 k2) eqn:E; [by apply kcmp_eq| |].
    - rewrite blookup_head in E1; [done|]. eapply Forall_impl; [exact Hk2|].
      intros b Hb. by eapply kcmp_trans.
    - rewrite (kcmp_antisym k1 k2), E in E2. cbn in E2. rewrite blookup_head in E2; [done|].
      eapply Forall_impl; [exact Hk1|]. intros b Hb. eapply kcmp_trans; [|exact Hb]. by apply klt_gt. }
  pose proof (He k1) as E. cbn in E. rewrite !kcmp_refl in E. injection E as ->. f_equal.
  apply IH; [done|]. intros k. specialize (He k). cbn in He. destruct (kcmp k k1) eqn:E; try done.
  apply kcmp_eq in E as ->. by rewrite !blookup_head.
Qed.
End btree.

(** ** Iteration over a map in key order

    [kvs m] is what iterating a [BTreeMap], or a lazy map in storage, visits. *)

Section kvs.
Context {K V : Type} `{Countable K} {O : CmpOrder K}.

Definition kvs (m : gmap K V) : list (K * V) :=
  foldr (λ kv l, binsert kv.1 kv.2 l) [] (map_to_list m).

Lemma kvs_sorted m : bsorted (kvs m).
Proof using Type.
  unfold kvs. induction (map_to_list m) as [|[k v] l IH]; cbn; [constructor|]. by apply binsert_sorted.
Qed.

Lemma blookup_kvs m k : blookup k (kvs m) = m !! k.
Proof using Type.
  unfold kvs. rewrite <-(list_to_map_to_list m) at 2.
  assert (∀ l, bsorted (foldr (λ kv l, binsert (V:=V) kv.1 kv.2 l) [] l)) as Hs.
  { induction l as [|[i v] l IH]; cbn; [constructor|]. by apply binsert_sorted. }
  induction (map_to_list m) as [|[i v] l IH]; cbn; [by rewrite lookup_empty|].
  rewrite blookup_binsert by apply Hs. destruct (kcmp k i) eqn:E.
  - apply kcmp_eq in E as ->. by rewrite lookup_insert_eq.
  - rewrite lookup_insert_ne; [done|]. intros ->. by rewrite kcmp_refl in E.
  - rewrite lookup_insert_ne; [done|]. intros ->. by rewrite kcmp_refl in E.
Qed.

Lemma elem_of_kvs m k v : (k, v) ∈ kvs m ↔ m !! k = Some v.
Proof using Type. rewrite <-blookup_kvs. symmetry. apply blookup_elem, kvs_sorted. Qed.

Lemma bsorted_NoDup (l : list (K * V)) : bsorted l → NoDup l.*1.
Proof using Type.
  induction 1 as [|[k v] l Hl IH Hk]; cbn; constructor; [|done].
  intros ([k' v'] & -> & Hin)%list_elem_of_fmap. rewrite Forall_forall in Hk.
  specialize (Hk _ Hin). by apply klt_irrefl in Hk.
Qed.

Lemma kvs_NoDup m : NoDup (kvs m).*1.
Proof using Type. apply bsorted_NoDup, kvs_sorted. Qed.

Lemma kvs_perm m : kvs m ≡ₚ map_to_list m.
Proof using Type.
  apply NoDup_Permutation; [eapply NoDup_fmap_1, kvs_NoDup|apply NoDup_map_to_list|].
  intros [k v]. by rewrite elem_of_kvs, elem_of_map_to_list.
Qed.

Lemma kvs_to_map m : list_to_map (kvs m) = m.
Proof using Type. rewrite (list_to_map_proper _ _ (kvs_NoDup m) (kvs_perm m)). apply list_to_map_to_list. Qed.

Lemma kvs_empty : kvs ∅ = [].
Proof using Type. unfold kvs. by rewrite map_to_list_empty. Qed.

Lemma kvs_nil m : kvs m = [] ↔ m = ∅.
Proof using Type.
  split; [|intros ->; apply kvs_empty]. intros E. apply map_empty. intros k.
  by rewrite <-blookup_kvs, E.
Qed.

(** A sorted list of bindings is what its map iterates. *)
Lemma kvs_unique m l : bsorted l → (∀ k, blookup k l = m !! k) → kvs m = l.
Proof using Type.
  intros Hl He. apply bsorted_ext; [apply kvs_sorted|done|]. intros k. by rewrite blookup_kvs, He.
Qed.
End kvs.

(** [NestedMap::at] and [contains]: an inner map without data is no data. *)
Definition at_ {K V} `{Countable K} `{Empty V} (m : gmap K V) (k : K) : V := default ∅ (m !! k).

(** A sum over the bindings, as a sum over any keys that include the map's. *)
Lemma zsum_map_on {K V} `{Countable K} (f : K * V → Z) (m : gmap K V) (l : list K) :
  NoDup l → (∀ k, is_Some (m !! k) → k ∈ l) →
  zsum f (map_to_list m) = zsum (λ k, match m !! k with Some v => f (k, v) | None => 0 end) l.
Proof.
  intros Hl Hin. transitivity (zsum (λ k, match m !! k with Some v => f (k, v) | None => 0 end) (map_to_list m).*1).
  { rewrite zsum_fmap. apply zsum_ext. intros [k v] Hk%elem_of_map_to_list. cbn. by rewrite Hk. }
  rewrite <-(zsum_perm _ _ _ (filter_app_complement (λ k, is_Some (m !! k)) l)), zsum_app.
  rewrite (zsum_ext _ (λ _, 0) (filter (λ k, ¬ is_Some (m !! k)) l)), zsum_zero, Z.add_0_r.
  2:{ intros k [Hk _]%list_elem_of_filter. by rewrite (proj2 (eq_None_not_Some _) Hk). }
  apply zsum_perm, NoDup_Permutation; [apply NoDup_fst_map_to_list|by apply NoDup_filter|].
  intros k. rewrite list_elem_of_filter, list_elem_of_fmap. split.
  - intros ([k' v] & -> & Hv%elem_of_map_to_list). cbn. split; [by eexists|]. apply Hin. by eexists.
  - intros [[v Hv] _]. exists (k, v). split; [done|]. by apply elem_of_map_to_list.
Qed.

Lemma zsum_kvs_on {K V} `{Countable K} `{CmpOrder K} (f : K * V → Z) (m : gmap K V) (l : list K) :
  NoDup l → (∀ k, is_Some (m !! k) → k ∈ l) →
  zsum f (kvs m) = zsum (λ k, match m !! k with Some v => f (k, v) | None => 0 end) l.
Proof. intros Hl Hin. rewrite (zsum_perm f _ _ (kvs_perm m)). by apply zsum_map_on. Qed.

(** The sum of the bindings of two maps that differ at one key only. *)
Lemma zsum_map_change {K V} `{Countable K} (f : K * V → Z) (m m' : gmap K V) (k : K) :
  (∀ j, j ≠ k → m' !! j = m !! j) →
  zsum f (map_to_list m') + from_option (λ v, f (k, v)) 0 (m !! k) =
  zsum f (map_to_list m) + from_option (λ v, f (k, v)) 0 (m' !! k).
Proof.
  intros Hm. set (l := elements (dom m ∪ dom m' ∪ {[k]})). assert (Hl : NoDup l) by apply NoDup_elements.
  rewrite (zsum_map_on f m l Hl), (zsum_map_on f m' l Hl)
    by (intros j Hj%elem_of_dom; apply elem_of_elements; set_solver).
  assert (k ∈ l) as [l' Hp]%elem_of_Permutation by (apply elem_of_elements; set_solver). rewrite Hp in Hl |- *.
  apply NoDup_cons in Hl as [Hk _]. rewrite !zsum_cons.
  assert (zsum (λ j, match m' !! j with Some v => f (j, v) | None => 0 end) l' =
          zsum (λ j, match m !! j with Some v => f (j, v) | None => 0 end) l') as ->.
  { apply zsum_ext. intros j Hj. rewrite Hm; [done|]. by intros ->. }
  destruct (m !! k), (m' !! k); cbn; lia.
Qed.

(** [map] over keys and [collect] into a map, stopping at the first error. *)
Definition collect_step {E K V} `{Countable K} (f : K → res E V) (acc : gmap K V) (k : K) : res E (gmap K V) :=
  v ← f k; Ok (<[k := v]> acc).
Definition collect_map {E K V} `{Countable K} (f : K → res E V) (l : list K) : res E (gmap K V) :=
  try_fold (collect_step f) ∅ l.

Lemma collect_map_ok {E K V} `{Countable K} (f : K → res E V) (g : K → V) (l : list K) :
  (∀ k, k ∈ l → f k = Ok (g k)) →
  ∃ m, collect_map f l = Ok m ∧ ∀ k, m !! k = if decide (k ∈ l) then Some (g k) else None.
Proof.
  intros Hf. assert (∀ acc, ∃ m, try_fold (collect_step f) acc l = Ok m ∧
    ∀ k, m !! k = if decide (k ∈ l) then Some (g k) else acc !! k) as Hloop.
  { induction l as [|x l IH]; intros acc.
    - exists acc. split; [done|]. intros k. by rewrite decide_False by apply not_elem_of_nil.
    - assert (collect_step f acc x = Ok (<[x := g x]> acc)) as E1 by (unfold collect_step; by rewrite (Hf x) by left).
      cbn [try_fold]. rewrite E1. cbn [mbind res_bind].
      destruct (IH ltac:(intros; apply Hf; by right) (<[x := g x]> acc)) as (m & -> & Hm). exists m. split; [done|].
      intros k. rewrite Hm. destruct (decide (k = x)) as [->|Hne].
      + rewrite lookup_insert_eq, (decide_True (P := x ∈ x :: l)) by left. by destruct (decide _).
      + rewrite lookup_insert_ne by done. apply decide_ext. set_solver. }
  destruct (Hloop ∅) as (m & Hm & Hk). exists m. split; [done|]. intros k. by rewrite Hk, lookup_empty.
Qed.

Lemma collect_map_ext {E K V} `{Countable K} (f g : K → res E V) (l : list K) :
  (∀ k, f k = g k) → collect_map f l = collect_map g l.
Proof.
  intros Hfg. unfold collect_map. generalize (∅ : gmap K V). induction l as [|x l IH]; intros acc; [done|].
  cbn [try_fold]. assert (collect_step f acc x = collect_step g acc x) as -> by (unfold collect_step; by rewrite Hfg).
  destruct (collect_step g acc x); [apply IH|done|done].
Qed.

(** A loop that fills in one entry per key. *)
Lemma fold_at {E K V} `{Countable K} `{Empty V} (step : gmap K V → K → res E (gmap K V)) (g : K → V) (l : list K) :
  NoDup l →
  (∀ acc k, k ∈ l → at_ acc k = ∅ → ∃ acc', step acc k = Ok acc' ∧ ∀ k', at_ acc' k' = if decide (k' = k) then g k else at_ acc k') →
  ∃ m, try_fold step ∅ l = Ok m ∧ ∀ k, at_ m k = if decide (k ∈ l) then g k else ∅.
Proof.
  intros Hl Hstep. assert (∀ acc, (∀ k, k ∈ l → at_ acc k = ∅) → ∃ m, try_fold step acc l = Ok m ∧
    ∀ k, at_ m k = if decide (k ∈ l) then g k else at_ acc k) as Hloop.
  { induction Hl as [|x l Hx Hl IH]; intros acc Hacc.
    - exists acc. split; [done|]. intros k. by rewrite decide_False by apply not_elem_of_nil.
    - cbn [try_fold]. destruct (Hstep acc x) as (acc' & -> & Ha); [left|apply Hacc; left|]. cbn [mbind res_bind].
      destruct (IH ltac:(intros; apply Hstep; [by right|done]) acc') as (m & -> & Hm).
      { intros k Hk. rewrite Ha, decide_False by (intros ->; done). apply Hacc. by right. }
      exists m. split; [done|]. intros k. rewrite Hm, Ha. destruct (decide (k = x)) as [->|Hne].
      + by rewrite (decide_False (P := x ∈ l)), (decide_True (P := x ∈ x :: l)) by (done || left).
      + apply decide_ext. set_solver. }
  destruct (Hloop ∅) as (m & Hm & Hk); [intros; unfold at_; by rewrite lookup_empty|]. exists m. split; [done|].
  intros k. rewrite Hk. unfold at_. by rewrite lookup_empty.
Qed.

Lemma at_insert {K V} `{Countable K} `{Empty V} (m : gmap K V) (k k' : K) (v : V) :
  at_ (<[k := v]> m) k' = if decide (k' = k) then v else at_ m k'.
Proof.
  unfold at_. destruct (decide (k' = k)) as [->|]; [by rewrite lookup_insert_eq|by rewrite lookup_insert_ne].
Qed.

(** A loop over the bindings of a map that adds each value to what is observed
    at its key. *)
Lemma for_each_adds {S E} (f : Z * Z → stt S E unit) (F : S → Z → Z) (c : Z) (keep : S → S → Prop) (m : gmap Z Z) s s' u :
  (∀ s, keep s s) → (∀ s1 s2 s3, keep s1 s2 → keep s2 s3 → keep s1 s3) →
  (∀ x s s', m !! x.1 = Some x.2 → f x s = (s', Ok ()) →
     keep s s' ∧ ∀ e, F s' e = F s e + if decide (x.1 = e) then c * x.2 else 0) →
  for_each f (kvs m) s = (s', Ok u) →
  keep s s' ∧ ∀ e, F s' e = F s e + c * default 0 (m !! e).
Proof.
  intros Hrefl Htrans Hstep Hr.
  set (sum := λ (l : list (Z * Z)) e, zsum (λ x : Z * Z, if decide (x.1 = e) then x.2 else 0) l).
  destruct (for_each_ok f (λ l s1, Forall (λ x, m !! x.1 = Some x.2) l ∧ keep s s1 ∧
    ∀ e, F s1 e = F s e + c * (default 0 (m !! e) - sum l e)) _ _ _ _ Hr) as (_ & Hk & He).
  - split; [by apply Forall_forall; intros [k v] Hx%elem_of_kvs|]. split; [done|]. intros e. unfold sum.
    rewrite (zsum_perm _ _ _ (kvs_perm m)), zsum_map_lookup. lia.
  - intros x l s1 s2 ([Hx Hl]%Forall_cons & Hk & He) H1. destruct (Hstep x s1 s2 Hx H1) as [Hk' He'].
    split; [done|]. split; [by eapply Htrans|]. intros e. rewrite He', He. unfold sum. rewrite zsum_cons. destruct (decide (x.1 = e)); lia.
  - split; [done|]. intros e. rewrite He. unfold sum. cbn. lia.
Qed.
