(* ===== verification/WriteLog.v ===== *)
(** * The write log (crates/state/src/write_log.rs)

    Modifications of a transaction are kept in [tx_write_log], moved to
    [tx_precommit_write_log] between the parts of a batch, and to
    [block_write_log] when accepted.  The properties show that the log is a
    stack of overlays: what a transaction reads, what committing and dropping
    leave, which modifications the prefix iterators list, and which accounts
    are asked to verify the changes. *)

From S2P Require Import Prelude Words Uint Decimal StorageKey BTree Gas.

Abbreviation bytes := (list ascii).
Abbreviation Hash := (list ascii).

(** [Hash::len], 32 bytes. *)
Definition HASH_LENGTH : Z := 32.

Inductive StorageModification : Type :=
| Write (value : bytes)
| Delete
| InitAccount (vp_code_hash : Hash).

#[global] Instance StorageModification_eq_dec : EqDecision StorageModification.
Proof. solve_decision. Defined.

Inductive WlError : Type :=
| UpdateTemporaryValue
| UpdateVpOfNewAccount
| DeleteVp
| WriteTempAfterDelete
| WriteTempAfterWrite
| ReplayProtection (hash : Hash).

(** [namada_events::Event]. *)
Record Event : Type := mk_event {
  ev_level : bool;
  ev_type : text;
  attributes : list (text * text);
}.

#[global] Instance Event_eq_dec : EqDecision Event.
Proof. solve_decision. Defined.
#[global] Instance Event_countable : Countable Event.
Proof.
  refine (inj_countable' (λ e, (ev_level e, ev_type e, attributes e))
    (λ '(a, b, c), mk_event a b c) _). by intros [].
Defined.

(** SHA-256, and the established address made of a hash. *)
Class AddressGen (A : AddressApi) : Type := {
  sha256 : bytes → Hash;
  established : Hash → Address;
}.

#[export] Instance addr_gen_ref : AddressGen addr_ref := {
  sha256 b := b;
  established h := N.of_nat (length h);
}.

Section write_log.
Context {A : AddressApi} {G : AddressGen A}.

(** [EstablishedAddressGen]: the last hash. *)
Record EstablishedAddressGen : Type := mk_gen { last_hash : Hash }.

Definition generate_address (g : EstablishedAddressGen) (rng_source : bytes) :
    EstablishedAddressGen * Address :=
  let h := sha256 (last_hash g ++ rng_source) in
  (mk_gen h, established h).

Record WriteLog : Type := mk_write_log {
  address_gen : option EstablishedAddressGen;
  block_write_log : gmap Key StorageModification;
  tx_write_log : gmap Key StorageModification;
  tx_temp_log : gmap Key bytes;
  tx_precommit_write_log : gmap Key StorageModification;
  events : gmap text (gset Event);
  replay_protection : gset Hash;
}.

Definition default_log : WriteLog := mk_write_log None ∅ ∅ ∅ ∅ ∅ ∅.

Definition set_block (m : gmap Key StorageModification) (w : WriteLog) : WriteLog :=
  mk_write_log (address_gen w) m (tx_write_log w) (tx_temp_log w)
    (tx_precommit_write_log w) (events w) (replay_protection w).
Definition set_tx (m : gmap Key StorageModification) (w : WriteLog) : WriteLog :=
  mk_write_log (address_gen w) (block_write_log w) m (tx_temp_log w)
    (tx_precommit_write_log w) (events w) (replay_protection w).
Definition set_temp (m : gmap Key bytes) (w : WriteLog) : WriteLog :=
  mk_write_log (address_gen w) (block_write_log w) (tx_write_log w) m
    (tx_precommit_write_log w) (events w) (replay_protection w).
Definition set_precommit (m : gmap Key StorageModification) (w : WriteLog) : WriteLog :=
  mk_write_log (address_gen w) (block_write_log w) (tx_write_log w) (tx_temp_log w)
    m (events w) (replay_protection w).
Definition set_events (m : gmap text (gset Event)) (w : WriteLog) : WriteLog :=
  mk_write_log (address_gen w) (block_write_log w) (tx_write_log w) (tx_temp_log w)
    (tx_precommit_write_log w) m (replay_protection w).
Definition set_replay (m : gset Hash) (w : WriteLog) : WriteLog :=
  mk_write_log (address_gen w) (block_write_log w) (tx_write_log w) (tx_temp_log w)
    (tx_precommit_write_log w) (events w) m.
Definition set_gen (g : option EstablishedAddressGen) (w : WriteLog) : WriteLog :=
  mk_write_log g (block_write_log w) (tx_write_log w) (tx_temp_log w)
    (tx_precommit_write_log w) (events w) (replay_protection w).

(** [Option::or_else]. *)
Definition or_else {B} (a b : option B) : option B := match a with Some x => Some x | None => b end.

Definition blen (b : bytes) : Z := Z.of_nat (length b).
Definition mod_len (m : StorageModification) : Z :=
  match m with Write v => blen v | Delete => 0 | InitAccount _ => HASH_LENGTH end.

(** The lookups of [read] and of the write operations. *)
Definition lookup_log (w : WriteLog) (k : Key) : option StorageModification :=
  or_else (or_else (tx_write_log w !! k) (tx_precommit_write_log w !! k)) (block_write_log w !! k).
Definition lookup_tx (w : WriteLog) (k : Key) : option StorageModification :=
  or_else (tx_write_log w !! k) (tx_precommit_write_log w !! k).

(** Gas products are plain [u64] multiplications. *)
Definition read_result (k : Key) (m : option StorageModification) :
    res WlError (option StorageModification * Z) :=
  match m with
  | Some v => gas ← opr 64 ((key_len k + mod_len v) * MEMORY_ACCESS_GAS_PER_BYTE); Ok (Some v, gas)
  | None => gas ← opr 64 (key_len k * MEMORY_ACCESS_GAS_PER_BYTE); Ok (None, gas)
  end.
Definition read (w : WriteLog) (k : Key) : res WlError (option StorageModification * Z) :=
  read_result k (lookup_log w k).
Definition read_pre (w : WriteLog) (k : Key) : res WlError (option StorageModification * Z) :=
  read_result k (block_write_log w !! k).
Definition read_temp (w : WriteLog) (k : Key) : res WlError (option bytes * Z) :=
  match tx_temp_log w !! k with
  | Some v => gas ← opr 64 ((key_len k + blen v) * MEMORY_ACCESS_GAS_PER_BYTE); Ok (Some v, gas)
  | None => gas ← opr 64 (key_len k * MEMORY_ACCESS_GAS_PER_BYTE); Ok (None, gas)
  end.

Definition write (k : Key) (value : bytes) : stt WriteLog WlError (Z * Z) :=
  w ← get;
  let len := blen value in
  let gas := key_len k + len in
  if bool_decide (is_Some (tx_temp_log w !! k)) then throw UpdateTemporaryValue
  else
    size_diff ←
      match lookup_tx w k with
      | Some (Write value') => mret (len - blen value')
      | Some Delete => mret len
      | Some (InitAccount _) => throw UpdateVpOfNewAccount
      | None => mret len
      end;
    _ ← modify (λ w, set_tx (<[k := Write value]> (tx_write_log w)) w);
    g ← lift (opr 64 (gas * STORAGE_WRITE_GAS_PER_BYTE));
    mret (g, size_diff).

Definition protocol_write (k : Key) (value : bytes) : stt WriteLog WlError unit :=
  w ← get;
  if bool_decide (is_Some (tx_temp_log w !! k)) then throw UpdateTemporaryValue
  else
    let prev := block_write_log w !! k in
    _ ← modify (λ w, set_block (<[k := Write value]> (block_write_log w)) w);
    match prev with
    | Some (InitAccount _) => throw UpdateVpOfNewAccount
    | _ => mret ()
    end.

Definition write_temp (k : Key) (value : bytes) : stt WriteLog WlError (Z * Z) :=
  w ← get;
  match lookup_tx w k with
  | Some (Write _) => throw WriteTempAfterWrite
  | Some Delete => throw WriteTempAfterDelete
  | Some (InitAccount _) => throw UpdateVpOfNewAccount
  | None =>
      let len := blen value in
      let gas := key_len k + len in
      let size_diff := match tx_temp_log w !! k with
                       | Some prev => len - blen prev
                       | None => len
                       end in
      _ ← modify (λ w, set_temp (<[k := value]> (tx_temp_log w)) w);
      g ← lift (opr 64 (gas * MEMORY_ACCESS_GAS_PER_BYTE));
      mret (g, size_diff)
  end.

Definition delete (k : Key) : stt WriteLog WlError (Z * Z) :=
  w ← get;
  if bool_decide (is_Some (is_validity_predicate k)) then throw DeleteVp
  else
    size_diff ←
      match lookup_tx w k with
      | Some (Write value) => mret (blen value)
      | Some Delete => mret 0
      | Some (InitAccount _) => throw DeleteVp
      | None => mret 0
      end;
    _ ← modify (λ w, set_tx (<[k := Delete]> (tx_write_log w)) w);
    let gas := key_len k + size_diff in
    g ← lift (opr 64 (gas * STORAGE_WRITE_GAS_PER_BYTE));
    mret (g, - size_diff).

Definition protocol_delete (k : Key) : stt WriteLog WlError unit :=
  w ← get;
  if bool_decide (is_Some (is_validity_predicate k)) then throw DeleteVp
  else
    let prev := block_write_log w !! k in
    _ ← modify (λ w, set_block (<[k := Delete]> (block_write_log w)) w);
    match prev with
    | Some (InitAccount _) => throw DeleteVp
    | _ => mret ()
    end.

Definition init_account (storage_address_gen : EstablishedAddressGen) (vp_code_hash : Hash)
    (entropy_source : bytes) : stt WriteLog WlError (Address * Z) :=
  w ← get;
  let gen := default storage_address_gen (address_gen w) in
  let '(gen', addr) := generate_address gen entropy_source in
  let key := validity_predicate addr in
  _ ← modify (set_gen (Some gen'));
  gas ← lift (opr 64 ((key_len key + HASH_LENGTH) * STORAGE_WRITE_GAS_PER_BYTE));
  _ ← modify (λ w, set_tx (<[key := InitAccount vp_code_hash]> (tx_write_log w)) w);
  mret (addr, gas).

(** [Event::emission_gas_cost]. *)
Definition emission_gas_cost (e : Event) (cost_per_byte : Z) : res WlError Z :=
  let len := foldl (λ acc kv, acc + blen kv.1 + blen kv.2) 0 (attributes e) in
  opr 64 (len * cost_per_byte).
Definition emit_event (e : Event) : stt WriteLog WlError Z :=
  w ← get;
  gas_cost ← lift (emission_gas_cost e MEMORY_ACCESS_GAS_PER_BYTE);
  let set := default ∅ (events w !! ev_type e) in
  _ ← modify (λ w, set_events (<[ev_type e := {[e]} ∪ set]> (events w)) w);
  mret gas_cost.
Definition take_events : stt WriteLog WlError (gset Event) :=
  w ← get;
  _ ← modify (set_events ∅);
  mret (map_fold (λ _ s acc, s ∪ acc) ∅ (events w)).

Definition get_keys (w : WriteLog) : gset Key := dom (tx_write_log w).
Definition get_keys_with_precommit (w : WriteLog) : gset Key :=
  dom (tx_precommit_write_log w) ∪ dom (tx_write_log w).

(** The address whose account an entry initializes. *)
Definition initialized (kv : Key * StorageModification) : option Address :=
  match is_validity_predicate kv.1, kv.2 with
  | Some address, InitAccount _ => Some address
  | _, _ => None
  end.
Definition get_initialized_accounts (w : WriteLog) : list Address :=
  omap initialized (map_to_list (tx_write_log w)).
Definition get_partitioned_keys (w : WriteLog) : gset Key * gset Address :=
  (list_to_set (omap (λ kv, match initialized kv with Some _ => None | None => Some kv.1 end)
     (map_to_list (tx_write_log w))),
   list_to_set (get_initialized_accounts w)).

(** [HashMap::extend]: the added entries win. *)
Definition extend {V} (m added : gmap Key V) : gmap Key V := added ∪ m.

Definition precommit_tx (w : WriteLog) : WriteLog :=
  set_tx ∅ (set_precommit (extend (tx_precommit_write_log w) (tx_write_log w)) w).
Definition commit_tx (w : WriteLog) : WriteLog :=
  let w := precommit_tx w in
  set_events ∅ (set_temp ∅
    (set_block (extend (block_write_log w) (tx_precommit_write_log w)) (set_precommit ∅ w))).
Definition drop_tx (w : WriteLog) : WriteLog :=
  set_events ∅ (set_temp ∅ (set_tx ∅ (set_precommit ∅ w))).
Definition drop_tx_keep_precommit (w : WriteLog) : WriteLog := set_tx ∅ w.

Definition verifiers_and_changed_keys (w : WriteLog) (verifiers_from_tx : gset Address) :
    gset Address * gset Key :=
  let changed_keys := get_keys w in
  let initialized_accounts := get_initialized_accounts w in
  let verifiers :=
    foldr (λ key verifiers,
      match fst_address key with
      | Some addr =>
          if bool_decide (addr ∉ verifiers_from_tx) && bool_decide (addr ∉ initialized_accounts)
          then {[addr]} ∪ verifiers else verifiers
      | None => verifiers
      end) verifiers_from_tx (elements changed_keys) in
  (verifiers, changed_keys).

(** The loop body shared by the prefix iterators: a bucket's entries under the
    prefix are put in a [BTreeMap] by the text of their key. *)
Definition add_matches (prefix : Key) (bucket : gmap Key StorageModification)
    (matches : list (text * StorageModification)) : list (text * StorageModification) :=
  foldl (λ m kv, match split_prefix kv.1 prefix with
                 | Some _ => binsert (key_to_string kv.1) kv.2 m
                 | None => m
                 end) matches (map_to_list bucket).
Definition iter_prefix_pre (w : WriteLog) (prefix : Key) : list (text * StorageModification) :=
  add_matches prefix (block_write_log w) [].
Definition iter_prefix_post (w : WriteLog) (prefix : Key) : list (text * StorageModification) :=
  add_matches prefix (tx_write_log w)
    (add_matches prefix (tx_precommit_write_log w)
      (add_matches prefix (block_write_log w) [])).

Definition has_replay_protection_entry (w : WriteLog) (hash : Hash) : bool :=
  bool_decide (hash ∈ replay_protection w).
Definition write_tx_hash (hash : Hash) : stt WriteLog WlError unit :=
  w ← get;
  if bool_decide (hash ∈ replay_protection w) then throw (ReplayProtection hash)
  else modify (λ w, set_replay ({[hash]} ∪ replay_protection w) w).
Definition redundant_tx_hash (hash : Hash) : stt WriteLog WlError unit :=
  w ← get;
  if bool_decide (hash ∈ replay_protection w)
  then modify (λ w, set_replay (replay_protection w ∖ {[hash]}) w)
  else throw (ReplayProtection hash).

(** ** Overlays *)

Lemma lookup_log_union w k :
  lookup_log w k = (tx_write_log w ∪ (tx_precommit_write_log w ∪ block_write_log w)) !! k.
Proof using Type.
  unfold lookup_log. rewrite !lookup_union.
  by destruct (tx_write_log w !! k), (tx_precommit_write_log w !! k), (block_write_log w !! k).
Qed.

(** What the operations of a running transaction may do; errors leave the
    state they reached. *)
Inductive TxOp : Type :=
| OpWrite (k : Key) (v : bytes)
| OpWriteTemp (k : Key) (v : bytes)
| OpDelete (k : Key)
| OpInitAccount (g : EstablishedAddressGen) (h : Hash) (entropy : bytes)
| OpEmit (e : Event)
| OpPrecommit
| OpDropKeepPrecommit.

Definition exec (op : TxOp) (w : WriteLog) : WriteLog :=
  match op with
  | OpWrite k v => fst (write k v w)
  | OpWriteTemp k v => fst (write_temp k v w)
  | OpDelete k => fst (delete k w)
  | OpInitAccount g h e => fst (init_account g h e w)
  | OpEmit e => fst (emit_event e w)
  | OpPrecommit => precommit_tx w
  | OpDropKeepPrecommit => drop_tx_keep_precommit w
  end.
Definition exec_all (ops : list TxOp) (w : WriteLog) : WriteLog := foldl (flip exec) w ops.

End write_log.

(** Unfold the state monad and split on every test. *)
Ltac run_wl :=
  unfold write, write_temp, delete, init_account, emit_event, protocol_write, protocol_delete,
    mbind, stt_bind, mret, stt_ret, get, modify, throw, lift, mbind, res_bind in *;
  cbn in *; repeat (case_match; cbn in *; simplify_eq).

Section lemmas.
Context {A : AddressApi} {G : AddressGen A}.

Lemma exec_frame op w :
  block_write_log (exec op w) = block_write_log w ∧
  replay_protection (exec op w) = replay_protection w.
Proof using Type.
  destruct op; cbn [exec]; try done; by run_wl.
Qed.

(** [write] and [delete] with the monad run: refused, or the entry replaced. *)
Lemma write_eq k v w :
  write k v w =
  if bool_decide (is_Some (tx_temp_log w !! k)) then (w, Err UpdateTemporaryValue)
  else match lookup_tx w k with
       | Some (InitAccount _) => (w, Err UpdateVpOfNewAccount)
       | prev =>
           (set_tx (<[k := Write v]> (tx_write_log w)) w,
            g ← opr 64 ((key_len k + blen v) * STORAGE_WRITE_GAS_PER_BYTE);
            Ok (g, blen v - default 0 (mod_len <$> prev)))
       end.
Proof using Type.
  unfold write, mbind, stt_bind, mret, stt_ret, get, modify, throw, lift. cbn.
  case_bool_decide; [done|]. destruct (lookup_tx w k) as [[]|]; cbn; try done;
    rewrite ?Z.sub_0_r; by destruct (opr _ _).
Qed.

Lemma delete_eq k w :
  delete k w =
  if bool_decide (is_Some (is_validity_predicate k)) then (w, Err DeleteVp)
  else match lookup_tx w k with
       | Some (InitAccount _) => (w, Err DeleteVp)
       | prev =>
           (set_tx (<[k := Delete]> (tx_write_log w)) w,
            g ← opr 64 ((key_len k + default 0 (mod_len <$> prev)) * STORAGE_WRITE_GAS_PER_BYTE);
            Ok (g, - default 0 (mod_len <$> prev)))
       end.
Proof using Type.
  unfold delete, mbind, stt_bind, mret, stt_ret, get, modify, throw, lift. cbn.
  case_bool_decide; [done|]. destruct (lookup_tx w k) as [[]|]; cbn; try done;
    by destruct (opr _ _).
Qed.

Lemma lookup_log_set_tx w k m k' :
  lookup_log (set_tx (<[k := m]> (tx_write_log w)) w) k' =
  if decide (k' = k) then Some m else lookup_log w k'.
Proof using Type.
  unfold lookup_log. cbn. destruct (decide (k' = k)) as [->|].
  - by rewrite lookup_insert_eq.
  - by rewrite lookup_insert_ne.
Qed.

Lemma exec_all_frame ops w :
  block_write_log (exec_all ops w) = block_write_log w ∧
  replay_protection (exec_all ops w) = replay_protection w.
Proof using Type.
  revert w. induction ops as [|op ops IH]; intros w; [done|].
  change (exec_all (op :: ops) w) with (exec_all ops (exec op w)).
  destruct (IH (exec op w)) as [-> ->]. apply exec_frame.
Qed.

Lemma commit_block w : block_write_log (commit_tx w) =
  (tx_write_log w ∪ tx_precommit_write_log w) ∪ block_write_log w.
Proof using Type. done. Qed.

Lemma commit_lookup w k : block_write_log (commit_tx w) !! k = lookup_log w k.
Proof using Type. by rewrite commit_block, lookup_log_union, map_union_assoc. Qed.

(** ** Prefix iterators *)

Definition has_prefix (k p : Key) : bool := bool_decide (is_Some (split_prefix k p)).

Section iter.
Context {AL : AddressLaws A}.

Lemma text_cmp_key k1 k2 : plain_key k1 → plain_key k2 →
  kcmp (key_to_string k1) (key_to_string k2) = Eq ↔ k1 = k2.
Proof using AL.
  intros H1 H2. rewrite kcmp_eq. split; [by apply key_to_string_inj|by intros ->].
Qed.

Lemma add_list_spec p l m :
  NoDup l.*1 → Forall plain_key l.*1 → bsorted m →
  let r := foldl (λ m kv, match split_prefix kv.1 p with
                          | Some _ => binsert (key_to_string kv.1) kv.2 m
                          | None => m end) m l in
  bsorted r ∧
  ∀ k, plain_key k → blookup (key_to_string k) r =
    if has_prefix k p then or_else ((list_to_map l : gmap Key StorageModification) !! k)
                             (blookup (key_to_string k) m)
    else blookup (key_to_string k) m.
Proof using AL.
  revert m. induction l as [|[k0 v0] l IH]; intros m Hnd Hpl Hm; cbn [foldl].
  { split; [done|]. intros k Hk. by destruct (has_prefix k p). }
  cbn in Hnd, Hpl. apply NoDup_cons in Hnd as [Hnotin Hnd]. apply Forall_cons in Hpl as [Hk0 Hpl].
  assert (Hl0 : (list_to_map l : gmap Key StorageModification) !! k0 = None)
    by (by apply not_elem_of_list_to_map_1).
  cbn [fst snd]. destruct (split_prefix k0 p) as [x|] eqn:Ep.
  - destruct (IH (binsert (key_to_string k0) v0 m)) as [Hs Hlk]; [done..|by apply binsert_sorted|].
    split; [done|]. intros k Hk. rewrite Hlk by done. rewrite !blookup_binsert by done.
    rewrite list_to_map_cons. destruct (decide (k0 = k)) as [<-|Hne].
    + unfold has_prefix. rewrite Ep, kcmp_refl, bool_decide_eq_true_2 by done.
      by rewrite Hl0, lookup_insert_eq.
    + rewrite lookup_insert_ne by done.
      destruct (kcmp (key_to_string k) (key_to_string k0)) eqn:E; [|done..].
      apply text_cmp_key in E; [congruence|done..].
  - destruct (IH m) as [Hs Hlk]; [done..|]. split; [done|]. intros k Hk. rewrite Hlk by done.
    rewrite list_to_map_cons. destruct (decide (k0 = k)) as [<-|Hne]; [|by rewrite lookup_insert_ne].
    unfold has_prefix. rewrite Ep. rewrite bool_decide_eq_false_2; [done|]. by intros [].
Qed.

Lemma add_matches_spec p b m :
  (∀ k, k ∈ dom b → plain_key k) → bsorted m →
  bsorted (add_matches p b m) ∧
  ∀ k, plain_key k → blookup (key_to_string k) (add_matches p b m) =
    if has_prefix k p then or_else (b !! k) (blookup (key_to_string k) m)
    else blookup (key_to_string k) m.
Proof using AL.
  intros Hb Hm. unfold add_matches.
  pose proof (add_list_spec p (map_to_list b) m) as H. rewrite list_to_map_to_list in H.
  apply H; [apply NoDup_fst_map_to_list| |done]. apply Forall_forall. intros k Hk. apply Hb.
  apply list_elem_of_fmap in Hk as ([k' v] & -> & Hk). apply elem_of_map_to_list in Hk.
  by apply elem_of_dom_2 in Hk.
Qed.
End iter.

(** Every key in the log has a canonical text. *)
Definition wf_log (w : WriteLog) : Prop :=
  ∀ k, k ∈ dom (tx_write_log w) ∪ dom (tx_precommit_write_log w) ∪ dom (block_write_log w) →
    plain_key k.

Lemma initialized_spec w a :
  a ∈ get_initialized_accounts w ↔
  ∃ h, tx_write_log w !! validity_predicate a = Some (InitAccount h).
Proof using Type.
  unfold get_initialized_accounts. rewrite list_elem_of_omap. split.
  - intros ([k m] & Hin & Hi). apply elem_of_map_to_list in Hin. unfold initialized in Hi. cbn in Hi.
    destruct (is_validity_predicate k) as [a'|] eqn:Ek; [|done]. destruct m as [| |h]; try done.
    injection Hi as ->. exists h. rewrite <-Hin. f_equal. destruct k as [segs].
    unfold is_validity_predicate in Ek. cbn in Ek.
    destruct segs as [|[a1|] [|[|s2] [|]]]; try done. destruct (decide _) as [->|]; [|done].
    by injection Ek as ->.
  - intros [h Hh]. exists (validity_predicate a, InitAccount h).
    split; [by apply elem_of_map_to_list|]. done.
Qed.

End lemmas.

(** C14.  A transaction is isolated and atomic: whatever sequence of operations
    it runs, nothing reaches the block log before it is committed; committing
    makes exactly what the transaction reads visible to the block and dropping
    it brings back what was readable before it, both leaving empty transaction,
    precommit and temporary logs and no events. *)
Theorem write_log_isolation (A : AddressApi) (G : AddressGen A) (ops : list TxOp) (w : WriteLog) :
  let w' := exec_all ops w in
  block_write_log w' = block_write_log w ∧
  replay_protection w' = replay_protection w ∧
  (∀ k, block_write_log (commit_tx w') !! k = lookup_log w' k ∧
        lookup_log (commit_tx w') k = lookup_log w' k) ∧
  (∀ k, lookup_log (drop_tx w') k = block_write_log w !! k) ∧
  (∀ end_tx, end_tx ∈ [commit_tx; drop_tx] →
     tx_write_log (end_tx w') = ∅ ∧ tx_precommit_write_log (end_tx w') = ∅ ∧
     tx_temp_log (end_tx w') = ∅ ∧ events (end_tx w') = ∅).
Proof.
  intros w'. destruct (exec_all_frame ops w) as [Hb Hr]. fold w' in Hb, Hr. split_and!; try done.
  - intros k. rewrite <-commit_lookup. split; [done|]. rewrite lookup_log_union.
    change (tx_write_log (commit_tx w')) with (∅ : gmap Key StorageModification).
    change (tx_precommit_write_log (commit_tx w')) with (∅ : gmap Key StorageModification).
    by rewrite !map_empty_union.
  - intros k. rewrite lookup_log_union. cbn. by rewrite !map_empty_union, Hb.
  - intros e [->|[->|[]%elem_of_nil]%elem_of_cons]%elem_of_cons; done.
Qed.

(**  Reading one's writes: a successful [write], [delete] or
    [init_account] is what the key then reads, every other key reads as before;
    the refused ones (a temporary value, the validity predicate of an account
    created in the same transaction, deletion of any validity predicate) change
    nothing. *)
Theorem write_log_reads_back (A : AddressApi) (G : AddressGen A) (w : WriteLog) (k : Key) :
  (∀ v w' r, write k v w = (w', r) →
     match r with
     | Ok _ => ∀ k', lookup_log w' k' = if decide (k' = k) then Some (Write v) else lookup_log w k'
     | Err _ => w' = w ∧ (is_Some (tx_temp_log w !! k) ∨ ∃ h, lookup_tx w k = Some (InitAccount h))
     | Panic => 2 ^ 64 ≤ (key_len k + blen v) * STORAGE_WRITE_GAS_PER_BYTE
     end) ∧
  (∀ w' r, delete k w = (w', r) →
     match r with
     | Ok _ => ∀ k', lookup_log w' k' = if decide (k' = k) then Some Delete else lookup_log w k'
     | Err e => w' = w ∧ e = DeleteVp ∧
         (is_Some (is_validity_predicate k) ∨ ∃ h, lookup_tx w k = Some (InitAccount h))
     | Panic => True
     end) ∧
  (∀ g h entropy w' a gas, init_account g h entropy w = (w', Ok (a, gas)) →
     lookup_log w' (validity_predicate a) = Some (InitAccount h) ∧
     a ∈ get_initialized_accounts w').
Proof.
  split_and!.
  - intros v w' r. rewrite write_eq. case_bool_decide; [intros [= <- <-]; by split; [|left]|].
    assert (Hok : (set_tx (<[k := Write v]> (tx_write_log w)) w,
        g ← opr 64 ((key_len k + blen v) * STORAGE_WRITE_GAS_PER_BYTE);
        Ok (g, blen v - default 0 (mod_len <$> lookup_tx w k))) = (w', r) →
      match r with
      | Ok _ => ∀ k', lookup_log w' k' = if decide (k' = k) then Some (Write v) else lookup_log w k'
      | Err _ => False
      | Panic => 2 ^ 64 ≤ (key_len k + blen v) * STORAGE_WRITE_GAS_PER_BYTE
      end).
    { intros [= <- <-]. unfold opr. destruct (in_u 64 _) eqn:E; cbn; [apply lookup_log_set_tx|].
      apply in_u_false in E as [E|E]; [|done].
      change STORAGE_WRITE_GAS_PER_BYTE with 1169738 in E. unfold key_len, blen in E. lia. }
    destruct (lookup_tx w k) as [[| |h]|]; try (intros E%Hok; by destruct r).
    intros [= <- <-]. split; [done|]. right. by exists h.
  - intros w' r. rewrite delete_eq. case_bool_decide; [intros [= <- <-]; by split_and!; [| |left]|].
    assert (Hok : ∀ x, (set_tx (<[k := Delete]> (tx_write_log w)) w, x) = (w', r) →
      (∀ e, x ≠ Err e) →
      match r with
      | Ok _ => ∀ k', lookup_log w' k' = if decide (k' = k) then Some Delete else lookup_log w k'
      | Err _ => False
      | Panic => True
      end).
    { intros x [= <- <-] Hx. destruct x; [apply lookup_log_set_tx|by eapply Hx|done]. }
    destruct (lookup_tx w k) as [[| |h]|];
      try (intros E%Hok; [by destruct r|by unfold opr; destruct (in_u _ _)]).
    intros [= <- <-]. split_and!; try done. right. by exists h.
  - intros g h entropy w' a gas. run_wl; intros [= <- <- <-].
    rewrite initialized_spec. unfold lookup_log. cbn. rewrite lookup_insert_eq.
    split; [done|]. by exists h.
Qed.

Lemma write_log_reads_back_witness :
  let k := mk_key (A:=addr_ref) [StringSeg ["k"%char]] in
  ∃ w r, write k ["v"%char] default_log = (w, Ok r) ∧ lookup_log w k = Some (Write ["v"%char]).
Proof.
  intros k. destruct (write_log_reads_back addr_ref addr_gen_ref default_log k) as (H & _ & _).
  assert (E : write k ["v"%char] default_log =
    (set_tx (<[k := Write ["v"%char]]> ∅) default_log, Ok (2 * STORAGE_WRITE_GAS_PER_BYTE, 1))).
  { rewrite write_eq. cbn [tx_temp_log default_log]. rewrite lookup_empty.
    rewrite bool_decide_eq_false_2 by (by intros []).
    unfold lookup_tx. cbn [tx_write_log tx_precommit_write_log default_log].
    rewrite !lookup_empty. reflexivity. }
  eexists _, _. split; [exact E|]. specialize (H _ _ _ E). cbn beta iota in H. rewrite H.
  by rewrite decide_True.
Defined.

(**  The prefix iterators list, in strictly ascending order of the key
    text, exactly the modifications a read would find for the keys under the
    prefix: before the transaction for [iter_prefix_pre], after it for
    [iter_prefix_post], the transaction's own entries shadowing the block's. *)
Theorem write_log_iter_prefix (A : AddressApi) (AL : AddressLaws A) (w : WriteLog) (p : Key) :
  wf_log w →
  bsorted (iter_prefix_pre w p) ∧ bsorted (iter_prefix_post w p) ∧
  ∀ k, plain_key k →
    blookup (key_to_string k) (iter_prefix_pre w p) =
      (if has_prefix k p then block_write_log w !! k else None) ∧
    blookup (key_to_string k) (iter_prefix_post w p) =
      (if has_prefix k p then lookup_log w k else None).
Proof.
  intros Hw. unfold iter_prefix_pre, iter_prefix_post.
  destruct (add_matches_spec p (block_write_log w) []) as [S1 L1];
    [intros; apply Hw; set_solver|constructor|].
  destruct (add_matches_spec p (tx_precommit_write_log w) _ ltac:(intros; apply Hw; set_solver) S1)
    as [S2 L2].
  destruct (add_matches_spec p (tx_write_log w) _ ltac:(intros; apply Hw; set_solver) S2) as [S3 L3].
  split_and!; [done..|]. intros k Hk. rewrite L3, L2, L1 by done. unfold lookup_log. cbn.
  destruct (has_prefix k p); [|done].
  by destruct (tx_write_log w !! k), (tx_precommit_write_log w !! k), (block_write_log w !! k).
Qed.

Lemma write_log_iter_prefix_witness :
  wf_log (default_log (A:=addr_ref)) ∧
  bsorted (iter_prefix_post (default_log (A:=addr_ref)) (mk_key [])).
Proof.
  assert (H : wf_log (default_log (A:=addr_ref))) by (intros k Hk; set_solver).
  split; [exact H|].
  apply (write_log_iter_prefix addr_ref addr_ref_laws default_log (mk_key []) H).
Defined.

(**  Every account whose storage a transaction changes verifies it: the
    changed keys are those of the transaction log, and the verifiers are those
    the transaction asked for together with the owner of each changed key,
    except the owners initialized by this very transaction. *)
Theorem write_log_verifiers_exact (A : AddressApi) (G : AddressGen A)
    (w : WriteLog) (from_tx : gset Address) :
  let '(verifiers, changed_keys) := verifiers_and_changed_keys w from_tx in
  changed_keys = dom (tx_write_log w) ∧
  ∀ a, a ∈ verifiers ↔
    a ∈ from_tx ∨
    ((∃ k, k ∈ changed_keys ∧ fst_address k = Some a) ∧
     ¬ ∃ h, tx_write_log w !! validity_predicate a = Some (InitAccount h)).
Proof.
  unfold verifiers_and_changed_keys, get_keys. split; [done|]. intros a.
  rewrite <-initialized_spec.
  assert (H : ∀ l, a ∈ foldr (λ key verifiers,
      match fst_address key with
      | Some addr =>
          if bool_decide (addr ∉ from_tx) && bool_decide (addr ∉ get_initialized_accounts w)
          then {[addr]} ∪ verifiers else verifiers
      | None => verifiers
      end) from_tx l ↔
    a ∈ from_tx ∨ ((∃ k, k ∈ l ∧ fst_address k = Some a) ∧ a ∉ get_initialized_accounts w)).
  { induction l as [|k l IH]; cbn [foldr]; [set_solver|].
    destruct (fst_address k) as [b|] eqn:Ek.
    - destruct (bool_decide (b ∉ from_tx) && _) eqn:Eb.
      + apply andb_true_iff in Eb as [E1%bool_decide_eq_true E2%bool_decide_eq_true].
        rewrite elem_of_union, IH, elem_of_singleton. setoid_rewrite elem_of_cons.
        destruct (decide (a = b)) as [->|]; naive_solver.
      + apply andb_false_iff in Eb. rewrite !bool_decide_eq_false, IH in *.
        setoid_rewrite elem_of_cons. split; [naive_solver|].
        intros [?|[(k' & [->|?] & ?) ?]]; [by left| |naive_solver].
        simplify_eq. destruct Eb as [Eb|Eb]; apply dec_stable in Eb; [by left|done].
    - rewrite IH. setoid_rewrite elem_of_cons. naive_solver. }
  rewrite H. by setoid_rewrite elem_of_elements.
Qed.
