(* ===== verification/State.v ===== *)
(** * Ledger state: write log over the database (crates/state/src/lib.rs,
    wl_state.rs)

    Reads go to the write log first and to the database next, charging gas for
    both; prefix iteration merges the two sorted streams; a block commit moves
    the log into the database.  The database is a finite map from keys to
    bytes; the sorted stream its iterator yields is an argument. *)

From S2P Require Import Prelude Words Uint Decimal StorageKey BTree Gas WriteLog.

Inductive StateError : Type := WriteLogErr (e : WlError) | GasErr (e : Gas.Error).

(** The value a modification stands for. *)
Definition mod_value (m : StorageModification) : option bytes :=
  match m with Write v => Some v | Delete => None | InitAccount h => Some h end.

(** Unfold the state monad. *)
Ltac unfold_stt := unfold mbind, stt_bind, mret, stt_ret, lift in *; cbn in *.

Section state.
Context {A : AddressApi} {G : AddressGen A}.

Abbreviation DbMap := (gmap Key bytes).

(** [StateRead::db_has_key], [db_read]. *)
Definition db_has_key (db : DbMap) (k : Key) : res StateError (bool * Z) :=
  gas ← opr 64 (key_len k * STORAGE_ACCESS_GAS_PER_BYTE);
  Ok (bool_decide (is_Some (db !! k)), gas).
Definition db_read (db : DbMap) (k : Key) : res StateError (option bytes * Z) :=
  match db !! k with
  | Some v => gas ← opr 64 ((key_len k + blen v) * STORAGE_ACCESS_GAS_PER_BYTE); Ok (Some v, gas)
  | None => gas ← opr 64 (key_len k * STORAGE_ACCESS_GAS_PER_BYTE); Ok (None, gas)
  end.

Section metered.
Context {M : Type} {GM : GasMetering M}.

Definition charge_gas (gas : Z) : stt M StateError unit := λ m,
  let '(m', r) := consume gas m in (m', map_err GasErr r).

(** [StorageRead::read_bytes] and [has_key] of [impl_storage_read]. *)
Definition read_bytes (w : WriteLog) (db : DbMap) (k : Key) : stt M StateError (option bytes) :=
  '(log_val, gas) ← lift (map_err WriteLogErr (read w k));
  _ ← charge_gas gas;
  match log_val with
  | Some (Write value) => mret (Some value)
  | Some Delete => mret None
  | Some (InitAccount vp_code_hash) => mret (Some vp_code_hash)
  | None =>
      '(value, gas) ← lift (db_read db k);
      _ ← charge_gas gas;
      mret value
  end.
Definition has_key (w : WriteLog) (db : DbMap) (k : Key) : stt M StateError bool :=
  '(log_val, gas) ← lift (map_err WriteLogErr (read w k));
  _ ← charge_gas gas;
  match log_val with
  | Some (Write _) | Some (InitAccount _) => mret true
  | Some Delete => mret false
  | None =>
      '(present, gas) ← lift (db_has_key db k);
      _ ← charge_gas gas;
      mret present
  end.
End metered.

(** ** Merged prefix iteration: [impl Iterator for PrefixIter] *)

Abbreviation storage_items := (list (text * (bytes * Z))).
Abbreviation log_items := (list (text * StorageModification)).

Definition item_of (k : text) (m : StorageModification) : option (text * (bytes * Z)) :=
  match m with
  | Write value => Some (k, (value, blen value))
  | InitAccount h => Some (k, (h, HASH_LENGTH))
  | Delete => None
  end.

(** [next]: the loop goes round only on a deletion, which consumes an item of
    the log. *)
Fixpoint next (storage_iter : storage_items) (write_log_iter : log_items) :
    option ((text * (bytes * Z)) * (storage_items * log_items)) :=
  match write_log_iter with
  | [] =>
      match storage_iter with
      | [] => None
      | x :: storage_iter => Some (x, (storage_iter, []))
      end
  | (wl_key, m) :: wl =>
      let return_wl storage_iter :=
        match item_of wl_key m with
        | Some x => Some (x, (storage_iter, wl))
        | None => next storage_iter wl
        end in
      match storage_iter with
      | [] => return_wl []
      | (storage_key, x) :: st =>
          match kcmp wl_key storage_key with
          | Eq => return_wl st
          | Lt => return_wl storage_iter
          | Gt => Some ((storage_key, x), (st, write_log_iter))
          end
      end
  end.

(** All items, by repeated [next]; each call consumes an item. *)
Fixpoint collect (fuel : nat) (st : storage_items) (wl : log_items) : storage_items :=
  match fuel with
  | O => []
  | S fuel =>
      match next st wl with
      | None => []
      | Some (x, (st', wl')) => x :: collect fuel st' wl'
      end
  end.

(** [commit_write_log_block]: the entries of the block log go to the database,
    the tx hashes to the replay-protection store; the log starts empty. *)
Definition apply_entry (db : DbMap) (kv : Key * StorageModification) : DbMap :=
  match kv.2 with
  | Write value => <[kv.1 := value]> db
  | Delete => base.delete kv.1 db
  | InitAccount vp_code_hash => <[kv.1 := vp_code_hash]> db
  end.
Definition commit_write_log_block (w : WriteLog) (db : DbMap) (replay : gset Hash) :
    WriteLog * DbMap * gset Hash :=
  let db' := foldl apply_entry db (map_to_list (block_write_log w)) in
  let replay' := replay_protection w ∪ replay in
  (set_gen None (set_replay ∅ (set_block ∅ w)), db', replay').

(** What a key reads as: the log's modification, else the database. *)
Definition view (w : WriteLog) (db : DbMap) (k : Key) : option bytes :=
  match lookup_log w k with Some m => mod_value m | None => db !! k end.

(** The overlay of a log stream on a storage stream. *)
Definition overlay (st : storage_items) (wl : log_items) (k : text) : option bytes :=
  match blookup k wl with Some m => mod_value m | None => fst <$> blookup k st end.

Lemma overlay_nil st k : overlay st [] k = fst <$> blookup k st.
Proof using Type. done. Qed.

(** Dropping a key that is at the head of the log only, or of both. *)
Lemma overlay_above k0 st wl k :
  Forall (λ b, klt k0 b.1) st → Forall (λ b, klt k0 b.1) wl → kcmp k k0 = Eq → overlay st wl k = None.
Proof using Type.
  intros H1 H2 ->%kcmp_eq. unfold overlay. by rewrite !blookup_head.
Qed.

Lemma next_spec st wl : bsorted st → bsorted wl →
  match next st wl with
  | None => ∀ k, overlay st wl k = None
  | Some ((k0, (v, _)), (st', wl')) =>
      bsorted st' ∧ bsorted wl' ∧ (length st' + length wl' < length st + length wl)%nat ∧
      Forall (λ b, klt k0 b.1) st' ∧ Forall (λ b, klt k0 b.1) wl' ∧
      ∀ k, overlay st wl k = match kcmp k k0 with Eq => Some v | _ => overlay st' wl' k end
  end.
Proof using Type.
  intros Hst Hwl. revert st Hst. induction Hwl as [|[k1 m] wl Hwl IH Hk1]; intros st Hst.
  { destruct Hst as [|[k0 [v g]] st Hst Hk0]; cbn; [done|].
    split_and!; try done; [constructor|lia|]. intros k. unfold overlay. cbn. by destruct (kcmp k k0). }
  (* the log's head is taken; [st2] is what is left of the storage stream *)
  assert (Hret : ∀ st2, bsorted st2 → Forall (λ b, klt k1 b.1) st2 →
    (length st2 ≤ length st)%nat →
    (∀ k, kcmp k k1 ≠ Eq → blookup k st = blookup k st2) →
    match (match item_of k1 m with Some x => Some (x, (st2, wl)) | None => next st2 wl end) with
    | None => ∀ k, overlay st ((k1, m) :: wl) k = None
    | Some ((k0, (v, _)), (st', wl')) =>
        bsorted st' ∧ bsorted wl' ∧
        (length st' + length wl' < length st + length ((k1, m) :: wl))%nat ∧
        Forall (λ b, klt k0 b.1) st' ∧ Forall (λ b, klt k0 b.1) wl' ∧
        ∀ k, overlay st ((k1, m) :: wl) k =
          match kcmp k k0 with Eq => Some v | _ => overlay st' wl' k end
    end).
  { intros st2 H2 Hab Hlen Hlk.
    assert (Hov : ∀ k, overlay st ((k1, m) :: wl) k =
      match kcmp k k1 with Eq => mod_value m | _ => overlay st2 wl k end).
    { intros k. unfold overlay. cbn. destruct (kcmp k k1) eqn:E; [done|..];
        by rewrite Hlk by congruence. }
    destruct m as [v| |h]; cbn [item_of].
    - split_and!; try done. cbn. lia.
    - specialize (IH st2 H2).
      assert (Hov' : ∀ k, overlay st ((k1, Delete) :: wl) k = overlay st2 wl k).
      { intros k. rewrite Hov. destruct (kcmp k k1) eqn:E; [|done..]. by rewrite (overlay_above k1). }
      destruct (next st2 wl) as [[[k0 [v g]] [st' wl']]|].
      + destruct IH as (?&?&?&?&?&Ho). split_and!; try done; [cbn; lia|]. intros k. by rewrite Hov'.
      + intros k. by rewrite Hov'.
    - split_and!; try done. cbn. lia. }
  destruct Hst as [|[k0 [v g]] st Hst Hk0]; cbn [next].
  { apply Hret; [constructor|constructor|done|done]. }
  destruct (kcmp k1 k0) eqn:E.
  - apply kcmp_eq in E as ->. apply Hret; [done|done|cbn; lia|].
    intros k Hk. cbn. by destruct (kcmp k k0).
  - apply Hret; [by constructor| |done|done]. constructor; [done|].
    eapply Forall_impl; [exact Hk0|]. intros b Hb. by eapply kcmp_trans.
  - apply klt_gt in E. split_and!; try done; [by constructor|cbn; lia| |].
    + constructor; [done|]. eapply Forall_impl; [exact Hk1|]. intros b Hb. by eapply kcmp_trans.
    + intros k. unfold overlay. cbn. destruct (kcmp k k0) eqn:Ek; [|done..].
      apply kcmp_eq in Ek as ->. unfold klt in E. rewrite E.
      rewrite blookup_head; [done|]. eapply Forall_impl; [exact Hk1|].
      intros b Hb. by eapply kcmp_trans.
Qed.

Lemma collect_spec fuel st wl : bsorted st → bsorted wl →
  (length st + length wl ≤ fuel)%nat →
  bsorted (collect fuel st wl) ∧
  (∀ k, fst <$> blookup k (collect fuel st wl) = overlay st wl k) ∧
  (∀ k0, Forall (λ b, klt k0 b.1) st → Forall (λ b, klt k0 b.1) wl →
     Forall (λ b, klt k0 b.1) (collect fuel st wl)).
Proof using Type.
  revert st wl. induction fuel as [|fuel IH]; intros st wl Hst Hwl Hf.
  { destruct st; [|cbn in Hf; lia]. destruct wl; [|cbn in Hf; lia]. cbn.
    split_and!; [constructor|done|done]. }
  pose proof (next_spec st wl Hst Hwl) as Hn. cbn [collect].
  destruct (next st wl) as [[[k0 [v g]] [st' wl']]|].
  2:{ split_and!; [constructor|by intros; rewrite Hn|done]. }
  destruct Hn as (H1 & H2 & Hlen & Ha1 & Ha2 & Ho).
  destruct (IH st' wl' H1 H2 ltac:(lia)) as (Hs & Hv & Hab).
  split_and!.
  - constructor; [done|]. by apply Hab.
  - intros k. rewrite Ho. cbn. destruct (kcmp k k0); [done|apply Hv..].
  - intros k1 Hk1 Hk2.
    assert (Hlt : klt k1 k0).
    { specialize (Ho k0). rewrite kcmp_refl in Ho. unfold overlay in Ho.
      destruct (blookup k0 wl) as [m|] eqn:Ew.
      - apply blookup_elem in Ew; [|done]. rewrite Forall_forall in Hk2. by apply Hk2 in Ew.
      - destruct (blookup k0 st) as [x|] eqn:Es; [|done].
        apply blookup_elem in Es; [|done]. rewrite Forall_forall in Hk1. by apply Hk1 in Es. }
    constructor; [done|]. eapply Forall_impl; [by apply Hab|]. intros b Hb. by eapply kcmp_trans.
Qed.

(** Applying the entries of a block log to the database. *)
Lemma apply_entries l db k : NoDup l.*1 →
  foldl apply_entry db l !! k =
  match (list_to_map l : gmap Key StorageModification) !! k with
  | Some m => mod_value m
  | None => db !! k
  end.
Proof using Type.
  revert db. induction l as [|[k0 m] l IH]; intros db Hnd; [done|].
  cbn in Hnd. apply NoDup_cons in Hnd as [Hn Hnd]. cbn [foldl]. rewrite IH by done.
  rewrite list_to_map_cons. destruct (decide (k0 = k)) as [->|Hne].
  - rewrite lookup_insert_eq, not_elem_of_list_to_map_1 by done. unfold apply_entry. cbn.
    destruct m; cbn; by rewrite ?lookup_insert_eq, ?lookup_delete_eq.
  - rewrite lookup_insert_ne by done. unfold apply_entry.
    destruct m; cbn; by rewrite ?lookup_insert_ne, ?lookup_delete_ne by done.
Qed.

Lemma read_value w k x g : read w k = Ok (x, g) → x = lookup_log w k.
Proof using Type.
  unfold read, read_result. destruct (lookup_log w k) as [y|]; cbn;
    unfold opr; destruct (in_u _ _); cbn; congruence.
Qed.

Lemma commit_block_lookup w db r k :
  (commit_write_log_block w db r).1.2 !! k =
  match block_write_log w !! k with Some m => mod_value m | None => db !! k end.
Proof using Type.
  unfold commit_write_log_block. cbn. rewrite apply_entries by apply NoDup_fst_map_to_list.
  by rewrite list_to_map_to_list.
Qed.
End state.

(**  Iterating over a prefix through the write log and the database yields
    each key once, in strictly ascending order, with the value a read of that
    key returns: the log's value where it has one, nothing where it deletes, the
    database's value otherwise.  The iteration ends: every step consumes an item
    of one of the streams. *)
Theorem prefix_iter_merges (st : list (text * (bytes * Z))) (wl : list (text * StorageModification)) :
  bsorted st → bsorted wl →
  let items := collect (length st + length wl) st wl in
  bsorted items ∧
  (∀ k, fst <$> blookup k items = overlay st wl k) ∧
  (∀ k v, (∃ g, (k, (v, g)) ∈ items) ↔ overlay st wl k = Some v).
Proof.
  intros Hst Hwl items.
  destruct (collect_spec (length st + length wl) st wl Hst Hwl ltac:(done)) as (Hs & Hv & _).
  fold items in Hs, Hv. split_and!; [done..|]. intros k v. rewrite <-Hv. split.
  - intros [g Hin%blookup_elem]; [|done]. by rewrite Hin.
  - intros ([v' g] & Hin & ->)%fmap_Some. exists g. by apply blookup_elem.
Qed.

Lemma prefix_iter_merges_witness :
  collect 3 [(["a"%char], (["1"%char], 1)); (["b"%char], (["2"%char], 1))]
    [(["a"%char], Delete)] = [(["b"%char], (["2"%char], 1))] ∧
  bsorted (collect 3 [(["a"%char], (["1"%char], 1)); (["b"%char], (["2"%char], 1))]
    [(["a"%char], Delete)]).
Proof.
  split; [reflexivity|].
  apply (prefix_iter_merges [(["a"%char], (["1"%char], 1)); (["b"%char], (["2"%char], 1))]
    [(["a"%char], Delete)]); repeat constructor.
Defined.

(** C32.  Reads see one consistent state: [read_bytes] and [has_key] return the
    value of the write log over the database, committing a transaction and then
    the block moves exactly that value into the database, and the state read
    afterwards is unchanged. *)
Theorem state_reads_consistent (A : AddressApi) (G : AddressGen A) (M : Type) (GM : GasMetering M)
    (w : WriteLog) (db : gmap Key bytes) (replay : gset Hash) (k : Key) :
  (∀ m m' v, read_bytes w db k m = (m', Ok v) → v = view w db k) ∧
  (∀ m m' b, has_key w db k m = (m', Ok b) → b = bool_decide (is_Some (view w db k))) ∧
  let '(w', db', replay') := commit_write_log_block (commit_tx w) db replay in
  db' !! k = view w db k ∧ view w' db' k = view w db k ∧
  block_write_log w' = ∅ ∧ replay' = replay_protection w ∪ replay.
Proof.
  split_and!.
  - intros m m' v. unfold read_bytes, view, db_read. unfold_stt.
    destruct (read w k) as [[x g]| |] eqn:E; cbn; try done. apply read_value in E as <-.
    destruct (charge_gas g m) as [m1 [[]| |]]; cbn; try done.
    destruct x as [[]|]; cbn; try congruence.
    destruct (db !! k); cbn; destruct (opr _ _) as [g2| |]; cbn; try done;
      destruct (charge_gas g2 m1) as [m2 [[]| |]]; cbn; congruence.
  - intros m m' b. unfold has_key, view, db_has_key. unfold_stt.
    destruct (read w k) as [[x g]| |] eqn:E; cbn; try done. apply read_value in E as <-.
    destruct (charge_gas g m) as [m1 [[]| |]]; cbn; try done.
    destruct x as [[]|]; cbn; try congruence.
    destruct (opr _ _) as [g2| |]; cbn; try done;
      destruct (charge_gas g2 m1) as [m2 [[]| |]]; cbn; congruence.
  - pose proof (commit_block_lookup (commit_tx w) db replay k) as Hk.
    destruct (commit_write_log_block (commit_tx w) db replay) as [[w' db'] replay'] eqn:E.
    rewrite commit_lookup in Hk. cbn [fst snd] in Hk. fold (view w db k) in Hk.
    unfold commit_write_log_block in E. injection E as <- _ <-.
    split_and!; [done| |done|done]. unfold view at 1.
    rewrite lookup_log_union. cbn. by rewrite !map_empty_union, lookup_empty.
Qed.
