(* ===== verification/Epochs.v ===== *)
(** * Epochs, predecessor epochs and the queue of Ethereum events
    (crates/core/src/storage.rs)

    [Epochs] records the first block height of each epoch; the lookups from
    heights to epochs and back are shown to agree.  [InnerEthEventsQueue]
    releases confirmed events in the order of their nonces; whatever the order
    in which events arrive, they leave it exactly once and without gaps. *)

From Stdlib Require Import Sorted.
From S2P Require Import Prelude.

Abbreviation Epoch := Z.
Abbreviation BlockHeight := Z.

Module EpochM.
(** [Epoch::next]: [None] is the panic of [expect]. *)
Definition next (e : Epoch) : option Epoch := chk 64 (e + 1).
Definition prev (e : Epoch) : option Epoch := chk 64 (e - 1).
Definition checked_add (e rhs : Epoch) : option Epoch := chk 64 (e + rhs).
Definition unchecked_add (e rhs : Epoch) : option Epoch := checked_add e rhs.
Definition checked_sub (e rhs : Epoch) : option Epoch := chk 64 (e - rhs).
Definition checked_div (e rhs : Epoch) : option Epoch := if rhs =? 0 then None else Some (e / rhs).
Definition checked_mul (e rhs : Epoch) : option Epoch := chk 64 (e * rhs).
Definition checked_rem (e rhs : Epoch) : option Epoch := if rhs =? 0 then None else Some (e mod rhs).
Definition sub_or_default (e rhs : Epoch) : Epoch := default 0 (checked_sub e rhs).
(** [iter_range] and [iter_bounds_inclusive], as the list of epochs. *)
Definition iter_range (e : Epoch) (len : Z) : list Epoch :=
  let end_ix := default u64_max (chk 64 (e + len)) in seqZ e (end_ix - e).
Definition iter_bounds_inclusive (start end_ : Epoch) : list Epoch := seqZ start (end_ - start + 1).
End EpochM.

Lemma epoch_add_in e rhs : 0 ≤ e + rhs < 2 ^ 64 → EpochM.checked_add e rhs = Some (e + rhs).
Proof. apply chk_in. Qed.
Lemma epoch_sub_in e rhs : 0 ≤ e - rhs < 2 ^ 64 → EpochM.checked_sub e rhs = Some (e - rhs).
Proof. apply chk_in. Qed.

Module BlockHeightM.
Definition first : BlockHeight := 1.
Definition sentinel : BlockHeight := 0.
Definition next_height (h : BlockHeight) : option BlockHeight := chk 64 (h + 1).
Definition prev_height (h : BlockHeight) : option BlockHeight := chk 64 (h - 1).
Definition checked_add (h rhs : BlockHeight) : option BlockHeight := chk 64 (h + rhs).
Definition checked_sub (h rhs : BlockHeight) : option BlockHeight := chk 64 (h - rhs).
End BlockHeightM.

(** ** Predecessor epochs *)

Record Epochs : Type := mk_epochs { first_block_heights : list BlockHeight }.

Module EpochsM.
Definition new_epoch (e : Epochs) (h : BlockHeight) : Epochs :=
  mk_epochs (first_block_heights e ++ [h]).

(** The loop of [get_epoch]; the inner [option] is the panic of
    [Epoch::next]. *)
Fixpoint get_epoch_loop (rest : list BlockHeight) (epoch : Epoch) (h : BlockHeight) : option Epoch :=
  match rest with
  | [] => Some epoch
  | next_block_height :: rest =>
      if h <? next_block_height then Some epoch
      else e ← EpochM.next epoch; get_epoch_loop rest e h
  end.
Definition get_epoch (e : Epochs) (h : BlockHeight) : option (option Epoch) :=
  match first_block_heights e with
  | _ :: rest => Some <$> get_epoch_loop rest 0 h
  | [] => Some None
  end.

Fixpoint find_le (l : list BlockHeight) (h : BlockHeight) : option BlockHeight :=
  match l with
  | [] => None
  | s :: l => if s <=? h then Some s else find_le l h
  end.
Definition get_epoch_start_height (e : Epochs) (h : BlockHeight) : option BlockHeight :=
  find_le (reverse (first_block_heights e)) h.

Definition get_start_height_of_epoch (e : Epochs) (epoch : Epoch) : option BlockHeight :=
  if Z.of_nat (length (first_block_heights e)) <? epoch then None
  else first_block_heights e !! Z.to_nat epoch.
End EpochsM.

(** The heights are recorded in order, and fewer than [2^64] of them. *)
Definition wf_epochs (e : Epochs) : Prop :=
  StronglySorted Z.lt (first_block_heights e) ∧
  Z.of_nat (length (first_block_heights e)) ≤ u64_max.

Lemma get_epoch_loop_spec rest epoch h :
  StronglySorted Z.lt rest → 0 ≤ epoch → epoch + Z.of_nat (length rest) ≤ u64_max →
  ∃ n, EpochsM.get_epoch_loop rest epoch h = Some (epoch + Z.of_nat n) ∧
    (n ≤ length rest)%nat ∧
    Forall (λ s, s ≤ h) (take n rest) ∧ Forall (λ s, h < s) (drop n rest).
Proof.
  intros Hs. revert epoch. induction Hs as [|s rest Hs IH Hlt]; intros epoch He Hlen.
  { exists 0%nat. cbn. split_and!; [f_equal; lia|lia|constructor..]. }
  cbn [EpochsM.get_epoch_loop length] in *. destruct (Z.ltb_spec h s).
  - exists 0%nat. cbn. split_and!; [f_equal; lia|lia|constructor|]. constructor; [done|].
    eapply Forall_impl; [exact Hlt|]. cbn. lia.
  - unfold EpochM.next. rewrite chk_in by lia. cbn [mbind option_bind].
    destruct (IH (epoch + 1) ltac:(lia) ltac:(lia)) as (n & -> & Hn & H1 & H2).
    exists (S n). cbn [take drop]. split_and!; [f_equal; lia|lia| |done]. by constructor.
Qed.

Lemma find_le_last l1 l2 s h : Forall (λ x, h < x) l2 → s ≤ h →
  EpochsM.find_le (reverse (l1 ++ s :: l2)) h = Some s.
Proof.
  intros H2 Hs. rewrite reverse_app, reverse_cons.
  assert (Hrev : Forall (λ x, h < x) (reverse l2)) by (by apply Forall_reverse).
  rewrite <-app_assoc. induction Hrev as [|x l Hx Hl IH]; cbn.
  - by destruct (Z.leb_spec s h); [|lia].
  - destruct (Z.leb_spec x h); [lia|]. done.
Qed.

(**  The epoch of a block height and the start height of an epoch agree:
    for every height at or above the first recorded one, [get_epoch] returns the
    epoch that contains it, whose start height, returned by both
    [get_start_height_of_epoch] and [get_epoch_start_height], is at most the
    height, the next epoch starting above it. *)
Theorem epochs_lookup_agree (e : Epochs) (h : BlockHeight) (h0 : BlockHeight) (rest : list BlockHeight) :
  wf_epochs e → first_block_heights e = h0 :: rest → h0 ≤ h →
  ∃ ep s, EpochsM.get_epoch e h = Some (Some ep) ∧
    EpochsM.get_start_height_of_epoch e ep = Some s ∧
    EpochsM.get_epoch_start_height e h = Some s ∧ s ≤ h ∧
    ∀ s', EpochsM.get_start_height_of_epoch e (ep + 1) = Some s' → h < s'.
Proof.
  intros [Hs Hlen] E H0. unfold EpochsM.get_epoch, EpochsM.get_start_height_of_epoch,
    EpochsM.get_epoch_start_height. rewrite E in *. cbn [length] in *.
  apply StronglySorted_inv in Hs as [Hs Hlt].
  destruct (get_epoch_loop_spec rest 0 h Hs ltac:(lia) ltac:(lia)) as (n & -> & Hn & Hle & Hgt).
  assert (is_Some ((h0 :: rest) !! n)) as [s Hsn] by (apply lookup_lt_is_Some; cbn; lia).
  assert (Hsh : s ≤ h).
  { destruct n as [|n]; cbn in Hsn; [by simplify_eq|]. rewrite Forall_forall in Hle.
    apply Hle. apply list_elem_of_lookup. exists n. rewrite lookup_take_lt by lia. done. }
  exists (0 + Z.of_nat n), s. cbn [fmap option_fmap option_map].
  destruct (Z.ltb_spec (Z.of_nat (S (length rest))) (0 + Z.of_nat n)); [lia|].
  replace (Z.to_nat (0 + Z.of_nat n)) with n by lia. split_and!; [done|done| |done|].
  - rewrite <-(take_drop_middle (h0 :: rest) n s Hsn). apply find_le_last; [|done]. exact Hgt.
  - intros s'. destruct (Z.ltb_spec (Z.of_nat (S (length rest))) (0 + Z.of_nat n + 1)); [done|].
    replace (Z.to_nat (0 + Z.of_nat n + 1)) with (S n) by lia. cbn. intros Hs'.
    rewrite Forall_forall in Hgt. apply Hgt. apply list_elem_of_lookup. exists 0%nat.
    by rewrite lookup_drop, Nat.add_0_r.
Qed.

Lemma epochs_lookup_agree_witness :
  wf_epochs (mk_epochs [1; 10; 25]) ∧
  ∃ s, EpochsM.get_start_height_of_epoch (mk_epochs [1; 10; 25]) 1 = Some s ∧ s ≤ 17.
Proof.
  assert (H : wf_epochs (mk_epochs [1; 10; 25])) by (split; [repeat constructor; lia|cbn; lia]).
  split; [exact H|].
  destruct (epochs_lookup_agree (mk_epochs [1; 10; 25]) 17 1 [10; 25] H eq_refl ltac:(lia))
    as (ep & s & Hep & Hs & _ & Hle & _).
  vm_compute in Hep. injection Hep as <-. exists s. by split.
Defined.

(** ** The queue of Ethereum events *)

Section queue.
Context {E : Type} (get_event_nonce : E → Z).

Record InnerEthEventsQueue : Type := mk_queue {
  next_nonce_to_process : Z;
  inner : list E;
}.

Definition new_at (n : Z) : InnerEthEventsQueue := mk_queue n [].

(** [VecDeque::binary_search_by_key] on a sorted queue: found, or the position
    that keeps it sorted. *)
Fixpoint binary_search (n : Z) (l : list E) : bool * nat :=
  match l with
  | [] => (false, 0%nat)
  | x :: l =>
      if get_event_nonce x =? n then (true, 0%nat)
      else if n <? get_event_nonce x then (false, 0%nat)
      else let '(found, i) := binary_search n l in (found, S i)
  end.

(** [try_push_event]; [None] is the panic on a nonce already in the queue. *)
Definition try_push_event (ev : E) (q : InnerEthEventsQueue) : option InnerEthEventsQueue :=
  match binary_search (get_event_nonce ev) (inner q) with
  | (true, _) => None
  | (false, i) =>
      Some (mk_queue (next_nonce_to_process q) (take i (inner q) ++ ev :: drop i (inner q)))
  end.

(** [EthEventsQueueIter::next] on the iterator's nonce and the queue; the outer
    [None] is the panic on nonce overflow. *)
Definition iter_next (current_nonce : Z) (l : list E) : option (option (E * Z * list E)) :=
  match l with
  | [] => Some None
  | x :: l' =>
      if get_event_nonce x =? current_nonce
      then n ← chk 256 (current_nonce + 1); Some (Some (x, n, l'))
      else Some None
  end.

(** The iterator run to its end, and dropped: the queue's nonce is advanced. *)
Fixpoint drain (l : list E) (current_nonce : Z) : option (list E * Z * list E) :=
  match l with
  | [] => Some ([], current_nonce, [])
  | x :: l' =>
      r ← iter_next current_nonce l;
      match r with
      | None => Some ([], current_nonce, l)
      | Some (x, n, rest) =>
          '(out, n', rest') ← drain l' n;
          Some (x :: out, n', rest')
      end
  end.
Definition drop_iter (q : InnerEthEventsQueue) (current_nonce : Z) (rest : list E) :
    InnerEthEventsQueue :=
  mk_queue (if next_nonce_to_process q <? current_nonce then current_nonce
            else next_nonce_to_process q) rest.

(** [push_and_iter] with the iterator consumed to its end. *)
Definition push_and_iter (ev : E) (q : InnerEthEventsQueue) : option (list E * InnerEthEventsQueue) :=
  if get_event_nonce ev <? next_nonce_to_process q then None
  else
    q' ← try_push_event ev q;
    '(out, n, rest) ← drain (inner q') (next_nonce_to_process q');
    Some (out, drop_iter q' n rest).

Fixpoint push_all (evs : list E) (q : InnerEthEventsQueue) : option (list E * InnerEthEventsQueue) :=
  match evs with
  | [] => Some ([], q)
  | ev :: evs =>
      '(out, q1) ← push_and_iter ev q;
      '(out', q2) ← push_all evs q1;
      Some (out ++ out', q2)
  end.

(** Queued events have strictly ascending nonces, all above the next one to
    process: what is ready has been released. *)
Definition queue_inv (q : InnerEthEventsQueue) : Prop :=
  StronglySorted (λ a b, get_event_nonce a < get_event_nonce b) (inner q) ∧
  Forall (λ e, next_nonce_to_process q < get_event_nonce e) (inner q).

Abbreviation nlt := (λ a b, get_event_nonce a < get_event_nonce b).

Lemma binary_search_spec n l : StronglySorted nlt l → n ∉ get_event_nonce <$> l →
  ∃ i, binary_search n l = (false, i) ∧
    Forall (λ e, get_event_nonce e < n) (take i l) ∧ Forall (λ e, n < get_event_nonce e) (drop i l).
Proof using Type.
  intros Hs. induction Hs as [|x l Hs IH Hx]; intros Hn.
  { exists 0%nat. by split_and!; [|constructor|constructor]. }
  cbn in *. apply not_elem_of_cons in Hn as [Hne Hn]. destruct (Z.eqb_spec (get_event_nonce x) n); [lia|].
  destruct (Z.ltb_spec n (get_event_nonce x)).
  - exists 0%nat. split_and!; [done|constructor|]. constructor; [done|].
    eapply Forall_impl; [exact Hx|]. cbn. lia.
  - destruct (IH Hn) as (i & -> & H1 & H2). exists (S i). split_and!; [done| |done].
    constructor; [lia|done].
Qed.

Lemma sorted_insert l i ev : StronglySorted nlt l →
  Forall (λ e, get_event_nonce e < get_event_nonce ev) (take i l) →
  Forall (λ e, get_event_nonce ev < get_event_nonce e) (drop i l) →
  StronglySorted nlt (take i l ++ ev :: drop i l).
Proof using Type.
  intros Hs. revert i. induction Hs as [|x l Hs IH Hx]; intros i H1 H2.
  { rewrite take_nil, drop_nil. repeat constructor. }
  destruct i as [|i]; cbn in *.
  - constructor; [by constructor|done].
  - apply Forall_cons in H1 as [Hxe H1]. constructor; [by apply IH|].
    rewrite Forall_app, Forall_cons. split_and!; [by apply Forall_take|done|by apply Forall_drop].
Qed.

Lemma sorted_app_r l1 l2 : StronglySorted nlt (l1 ++ l2) → StronglySorted nlt l2.
Proof using Type.
  induction l1 as [|x l1 IH]; [done|]. cbn. intros [H _]%StronglySorted_inv. by apply IH.
Qed.

(** Draining a sorted queue releases the longest run of consecutive nonces. *)
Lemma drain_spec l n : StronglySorted nlt l → 0 ≤ n →
  Forall (λ e, n ≤ get_event_nonce e < 2 ^ 256 - 1) l →
  ∃ out rest, drain l n = Some (out, n + Z.of_nat (length out), rest) ∧ l = out ++ rest ∧
    get_event_nonce <$> out = seqZ n (Z.of_nat (length out)) ∧
    Forall (λ e, n + Z.of_nat (length out) < get_event_nonce e) rest.
Proof using Type.
  intros Hs. revert n. induction Hs as [|x l Hs IH Hx]; intros n Hn Hl.
  { exists [], []. cbn. by rewrite Z.add_0_r. }
  apply Forall_cons in Hl as [Hxn Hl]. cbn [drain iter_next].
  destruct (Z.eqb_spec (get_event_nonce x) n) as [E'|E'].
  - rewrite chk_in by lia. cbn [mbind option_bind].
    destruct (IH (n + 1) ltac:(lia)) as (out & rest & -> & -> & Hout & Hrest).
    { rewrite Forall_forall in Hx, Hl |- *. intros e He. specialize (Hx e He). specialize (Hl e He).
      cbn in *. lia. }
    exists (x :: out), rest. cbn [mbind option_bind length fmap list_fmap]. split_and!.
    + do 3 f_equal. lia.
    + done.
    + rewrite E', Hout, Nat2Z.inj_succ. rewrite (seqZ_cons n) by lia. by rewrite Z.pred_succ.
    + eapply Forall_impl; [exact Hrest|]. cbn. lia.
  - exists [], (x :: l). cbn [mbind option_bind length]. rewrite Z.add_0_r. split_and!; try done.
    constructor; [lia|]. rewrite Forall_forall in Hx, Hl |- *. intros e He.
    specialize (Hx e He). cbn in *. lia.
Qed.

Lemma push_and_iter_spec ev q : queue_inv q → 0 ≤ next_nonce_to_process q →
  Forall (λ e, get_event_nonce e < 2 ^ 256 - 1) (ev :: inner q) →
  next_nonce_to_process q ≤ get_event_nonce ev → get_event_nonce ev ∉ get_event_nonce <$> inner q →
  ∃ out q', push_and_iter ev q = Some (out, q') ∧ queue_inv q' ∧
    out ++ inner q' ≡ₚ ev :: inner q ∧
    get_event_nonce <$> out = seqZ (next_nonce_to_process q) (Z.of_nat (length out)) ∧
    next_nonce_to_process q' = next_nonce_to_process q + Z.of_nat (length out).
Proof using Type.
  intros [Hs Hgt] H0 Hmax Hge Hnew. unfold push_and_iter, try_push_event.
  destruct (Z.ltb_spec (get_event_nonce ev) (next_nonce_to_process q)); [lia|].
  destruct (binary_search_spec _ _ Hs Hnew) as (i & -> & H1 & H2). cbn [mbind option_bind inner next_nonce_to_process].
  pose proof (sorted_insert _ i ev Hs H1 H2) as Hs'.
  assert (Hperm : take i (inner q) ++ ev :: drop i (inner q) ≡ₚ ev :: inner q).
  { by rewrite <-Permutation_middle, take_drop. }
  destruct (drain_spec _ (next_nonce_to_process q) Hs' H0) as (out & rest & -> & Hl & Hout & Hrest).
  { rewrite Hperm, Forall_cons. apply Forall_cons in Hmax as [? Hmax]. split; [lia|].
    rewrite Forall_forall in Hmax, Hgt |- *. intros e He. specialize (Hmax e He). specialize (Hgt e He).
    cbn in *. lia. }
  cbn [mbind option_bind]. eexists out, _. split; [done|].
  assert (Hn : next_nonce_to_process (drop_iter (mk_queue (next_nonce_to_process q)
      (take i (inner q) ++ ev :: drop i (inner q)))
      (next_nonce_to_process q + Z.of_nat (length out)) rest) =
    next_nonce_to_process q + Z.of_nat (length out)).
  { cbn. destruct (Z.ltb_spec (next_nonce_to_process q) (next_nonce_to_process q + Z.of_nat (length out))); lia. }
  rewrite Hn. split_and!; [|by rewrite <-Hperm, Hl|done|done].
  split; [|by rewrite Hn]. cbn. rewrite Hl in Hs'. by apply sorted_app_r in Hs'.
Qed.

Lemma push_all_spec evs q : queue_inv q → 0 ≤ next_nonce_to_process q →
  NoDup (get_event_nonce <$> evs ++ inner q) →
  Forall (λ e, next_nonce_to_process q ≤ get_event_nonce e) evs →
  Forall (λ e, get_event_nonce e < 2 ^ 256 - 1) (evs ++ inner q) →
  ∃ out q', push_all evs q = Some (out, q') ∧ queue_inv q' ∧
    out ++ inner q' ≡ₚ evs ++ inner q ∧
    get_event_nonce <$> out = seqZ (next_nonce_to_process q) (Z.of_nat (length out)) ∧
    next_nonce_to_process q' = next_nonce_to_process q + Z.of_nat (length out).
Proof using Type.
  revert q. induction evs as [|ev evs IH]; intros q Hq H0 Hnd Hge Hmax.
  { exists [], q. cbn. split_and!; try done. lia. }
  cbn [app] in Hnd, Hmax. rewrite fmap_cons, NoDup_cons in Hnd. destruct Hnd as [Hnew Hnd].
  apply Forall_cons in Hge as [Hev Hge]. pose proof Hmax as [Hm1 Hm2]%Forall_cons.
  apply Forall_app in Hm2 as [Hm2 Hm3]. rewrite fmap_app, not_elem_of_app in Hnew.
  destruct (push_and_iter_spec ev q Hq H0) as (o1 & q1 & E1 & Hq1 & Hp1 & Ho1 & Hn1);
    [by constructor|done|tauto|].
  assert (Hndall : NoDup (get_event_nonce <$> (ev :: inner q) ++ evs)).
  { cbn. rewrite fmap_app, NoDup_cons, not_elem_of_app, (comm app). rewrite <-fmap_app. tauto. }
  rewrite <-Hp1, <-app_assoc, fmap_app, NoDup_app in Hndall. destruct Hndall as (_ & Hdis & Hnd1).
  destruct (IH q1) as (o2 & q2 & E2 & Hq2 & Hp2 & Ho2 & Hn2); [done|lia| | | |].
  - by rewrite (comm app evs).
  - rewrite Forall_forall in Hge |- *. intros e He. specialize (Hge e He). cbn in Hge.
    destruct (Z.le_gt_cases (next_nonce_to_process q1) (get_event_nonce e)); [done|].
    exfalso. apply (Hdis (get_event_nonce e)).
    + rewrite Ho1. apply elem_of_seqZ. lia.
    + apply list_elem_of_fmap. exists e. split; [done|]. apply elem_of_app. by right.
  - apply Forall_app. split; [done|].
    assert (Hall : Forall (λ e, get_event_nonce e < 2 ^ 256 - 1) (o1 ++ inner q1))
      by (rewrite Hp1; by constructor).
    by apply Forall_app in Hall as [_ ?].
  - exists (o1 ++ o2), q2. cbn [push_all]. rewrite E1. cbn [mbind option_bind]. rewrite E2.
    cbn [mbind option_bind]. split_and!; [done..| | |].
    + rewrite <-app_assoc, Hp2. cbn [app]. rewrite (comm app evs), app_assoc, Hp1.
      cbn. by rewrite (comm app evs).
    + rewrite fmap_app, Ho1, Ho2, Hn1, length_app, Nat2Z.inj_add. symmetry. apply seqZ_app; lia.
    + rewrite Hn2, Hn1, length_app. lia.
Qed.
End queue.

(** C37.  The queue of Ethereum events releases every event exactly once, in the
    order of nonces and without gaps, in whatever order the events are
    confirmed: after pushing events with distinct nonces from the next one on,
    the released events are exactly those of the longest run of consecutive
    nonces, and the others wait in the queue, above the next nonce. *)
Theorem eth_queue_in_order (E : Type) (nonce : E → Z) (n0 : Z) (evs : list E) :
  0 ≤ n0 → NoDup (nonce <$> evs) → Forall (λ e, n0 ≤ nonce e < 2 ^ 256 - 1) evs →
  ∃ out q, push_all nonce evs (new_at n0) = Some (out, q) ∧
    out ++ inner q ≡ₚ evs ∧
    nonce <$> out = seqZ n0 (Z.of_nat (length out)) ∧
    next_nonce_to_process q = n0 + Z.of_nat (length out) ∧
    Forall (λ e, next_nonce_to_process q < nonce e) (inner q).
Proof.
  intros H0 Hnd Hev.
  destruct (push_all_spec nonce evs (new_at n0)) as (out & q & E1 & [_ Hq] & Hp & Ho & Hn).
  - split; constructor.
  - done.
  - cbn. by rewrite app_nil_r.
  - eapply Forall_impl; [exact Hev|]. cbn. lia.
  - cbn. rewrite app_nil_r. eapply Forall_impl; [exact Hev|]. cbn. lia.
  - exists out, q. cbn in Hp, Ho, Hn. rewrite app_nil_r in Hp. done.
Qed.

Lemma eth_queue_in_order_witness :
  ∃ out q, push_all id [12; 10; 15; 11] (new_at 10) = Some (out, q) ∧
    out ++ inner q ≡ₚ [12; 10; 15; 11] ∧ next_nonce_to_process q = 10 + Z.of_nat (length out).
Proof.
  destruct (eth_queue_in_order Z id 10 [12; 10; 15; 11] ltac:(lia)) as (out & q & H1 & H2 & _ & H3 & _).
  - cbn. apply (bool_decide_unpack _). vm_compute. exact I.
  - repeat constructor; cbn; lia.
  - by exists out, q.
Defined.
