(* ===== verification/BridgePool.v ===== *)
(** * The pool of transfers to Ethereum and its Merkle tree

    Models [merkle_tree/src/eth_bridge_pool.rs], the tree of the hashes of the
    pending transfers with its proofs of membership for many leaves at once, and
    the transfers of [core/src/eth_bridge_pool.rs].  Keccak, the ABI encoding, the
    digest of the Borsh encoding of an appendix and the decoding of hexadecimal
    text are third-party code, the interface [EthApi].  The properties are that
    the proofs the tree makes verify against its root, and that an accepted proof
    names only transfers of the tree. *)

From Stdlib Require Import Sorted.
From stdpp Require Import sorting.
From S2P Require Import Prelude Words Decimal Token StorageKey BTree Epochs.

Abbreviation bytes := (list Z).
Abbreviation KeccakHash := bytes.
Abbreviation EthAddress := bytes.

(** ** Transfers *)

(** The tokens of [ethabi] that are used. *)
Inductive AbiToken : Type :=
| TokUint (n : Z)
| TokString (s : text)
| TokAddress (a : EthAddress)
| TokFixedBytes (b : bytes).

Inductive TransferToEthereumKind : Type := Erc20 | Nut.
#[export] Instance TransferToEthereumKind_eq_dec : EqDecision TransferToEthereumKind.
Proof. solve_decision. Defined.

Section transfers.
Context {AA : AddressApi}.

Record GasFee : Type := mk_gas_fee { fee_amount : Z; fee_payer : Address; fee_token : Address }.
Record TransferToEthereum : Type := mk_transfer {
  kind : TransferToEthereumKind;
  asset : EthAddress;
  recipient : EthAddress;
  sender : Address;
  tr_amount : Z;
}.
Record PendingTransfer : Type := mk_pending { transfer : TransferToEthereum; gas_fee : GasFee }.
Record PendingTransferAppendix : Type := mk_appendix { ap_kind : TransferToEthereumKind; ap_sender : Address; ap_gas_fee : GasFee }.

#[export] Instance GasFee_eq_dec : EqDecision GasFee.
Proof using Type. solve_decision. Defined.
#[export] Instance TransferToEthereum_eq_dec : EqDecision TransferToEthereum.
Proof using Type. solve_decision. Defined.
#[export] Instance PendingTransfer_eq_dec : EqDecision PendingTransfer.
Proof using Type. solve_decision. Defined.

(** The event that confirms a transfer. *)
Record TransferToEthereumEvent : Type := mk_event { ev_amount : Z; ev_asset : EthAddress; ev_receiver : EthAddress; ev_checksum : bytes }.

Definition appendix (x : PendingTransfer) : PendingTransferAppendix :=
  mk_appendix (kind (transfer x)) (sender (transfer x)) (gas_fee x).
Definition from_parts (event : TransferToEthereumEvent) (a : PendingTransferAppendix) : PendingTransfer :=
  mk_pending (mk_transfer (ap_kind a) (ev_asset event) (ev_receiver event) (ap_sender a) (ev_amount event)) (ap_gas_fee a).
End transfers.

Class EthApi (AA : AddressApi) : Type := {
  keccak_hash : bytes → KeccakHash;
  abi_encode : list AbiToken → bytes;
  appendix_digest : PendingTransferAppendix → bytes;
  hexupper_decode : text → option bytes;
  bridge_pool_address : Address;
}.

Definition is_byte (b : Z) : Prop := 0 ≤ b < 256.
(** [Display]: two digits a byte. *)
Definition hash_to_string (h : KeccakHash) : text := h ≫= λ b, [hex_digit (b / 16); hex_digit (b mod 16)].

(** A digest is 32 bytes; encodings are sequences of words of 32 bytes; text that
    was printed is decoded. *)
Class EthLaws (AA : AddressApi) (E : EthApi AA) : Prop := {
  keccak_len b : length (keccak_hash b) = 32%nat;
  keccak_bytes b : Forall is_byte (keccak_hash b);
  abi_words ts : (length (abi_encode ts) mod 32 = 0)%nat;
  hex_printed h : Forall is_byte h → hexupper_decode (hash_to_string h) = Some h;
}.

Section pool.
Context {AA : AddressApi} {E : EthApi AA}.

Definition VERSION : Z := 1.
Definition NAMESPACE : text := lit "transfer".

Definition checksum (a : PendingTransferAppendix) : bytes := appendix_digest a.
Definition tokenize (x : PendingTransfer) : list AbiToken :=
  [TokUint VERSION; TokString NAMESPACE; TokAddress (asset (transfer x)); TokAddress (recipient (transfer x));
   TokUint (tr_amount (transfer x)); TokFixedBytes (checksum (appendix x))].
Definition event_of (x : PendingTransfer) : TransferToEthereumEvent :=
  mk_event (tr_amount (transfer x)) (asset (transfer x)) (recipient (transfer x)) (checksum (appendix x)).
Definition tokenize_event (e : TransferToEthereumEvent) : list AbiToken :=
  [TokUint VERSION; TokString NAMESPACE; TokAddress (ev_asset e); TokAddress (ev_receiver e); TokUint (ev_amount e);
   TokFixedBytes (ev_checksum e)].
Definition keccak256 (x : PendingTransfer) : KeccakHash := keccak_hash (abi_encode (tokenize x)).

(** ** Keys *)

Inductive PoolError : Type := NotAHash | NotAString | NotOneSegment | KeyNotPresent | ValueNotInTree.

Definition HASH_LENGTH : nat := 32.
Definition hash_from_string (s : text) : option KeccakHash :=
  b ← hexupper_decode s;
  if bool_decide (length b = HASH_LENGTH) then Some b else None.

Definition transfer_key (x : PendingTransfer) : Key := mk_key [StringSeg (hash_to_string (keccak256 x))].
Definition get_key_from_hash (h : KeccakHash) : Key := mk_key [AddressSeg bridge_pool_address; StringSeg (hash_to_string h)].
Definition get_pending_key (x : PendingTransfer) : Key := get_key_from_hash (keccak256 x).
Definition pool_segments : list text := [lit "signed_root"; lit "bridge_pool_nonce"].
Definition is_pending_transfer_key (key : Key) : bool :=
  match segments key with
  | [AddressSeg addr; StringSeg segment] => bool_decide (addr = bridge_pool_address) && negb (bool_decide (segment ∈ pool_segments))
  | _ => false
  end.

Definition parse_key (key : Key) : res PoolError KeccakHash :=
  match segments key with
  | [StringSeg str] => ok_or (hash_from_string str) NotAHash
  | [_] => Err NotAString
  | _ => Err NotOneSegment
  end.

(** ** The tree *)

Definition POOL_ROOT_PREFIX_LEAF : Z := 0.
Definition POOL_ROOT_PREFIX_NON_LEAF : Z := 255.
Definition default_hash : KeccakHash := replicate 32 0.

Record BridgePoolTree : Type := mk_pool { root : KeccakHash; leaves : gmap KeccakHash BlockHeight }.

(** The buffer that is hashed for a pair, the smaller hash first. *)
Definition pair_buffer (left right : KeccakHash) (prefix : Z) : bytes :=
  prefix :: (match kcmp left right with Lt => left ++ right | _ => right ++ left end).
Definition hash_pair (left right : KeccakHash) (prefix : Z) : KeccakHash := keccak_hash (pair_buffer left right prefix).

(** [chunks(2)], the last one filled up. *)
Fixpoint chunks2 {X} (d : X) (l : list X) : list (X * X) :=
  match l with
  | [] => []
  | [x] => [(x, d)]
  | x :: y :: l => (x, y) :: chunks2 d l
  end.

(** A level of more than one hash is halved; the number of hashes is enough fuel
    ([root_loop_total]). *)
Fixpoint root_loop (fuel : nat) (prefix : Z) (hashes : list KeccakHash) : option KeccakHash :=
  match hashes with
  | [] => Some default_hash
  | [h] => Some h
  | _ =>
      match fuel with
      | O => None
      | S fuel =>
          root_loop fuel POOL_ROOT_PREFIX_NON_LEAF ((λ x, hash_pair x.1 x.2 prefix) <$> chunks2 default_hash hashes)
      end
  end.
Definition leaf_hashes (t : BridgePoolTree) : list KeccakHash := (kvs (leaves t)).*1.
Definition compute_root (t : BridgePoolTree) : option KeccakHash :=
  root_loop (length (leaf_hashes t)) POOL_ROOT_PREFIX_LEAF (leaf_hashes t).

Definition default_tree : BridgePoolTree := mk_pool default_hash ∅.
Definition contains_key (t : BridgePoolTree) (key : Key) : res PoolError bool :=
  h ← parse_key key;
  Ok (bool_decide (is_Some (leaves t !! h))).
Definition tree_get (t : BridgePoolTree) (key : Key) : res PoolError BlockHeight :=
  h ← parse_key key;
  ok_or (leaves t !! h) KeyNotPresent.
Definition insert_key (key : Key) (value : BlockHeight) : stt BridgePoolTree PoolError KeccakHash :=
  h ← lift (parse_key key);
  t ← get;
  let l := <[h := value]> (leaves t) in
  root' ← lift (expect (compute_root (mk_pool (root t) l)));
  _ ← modify (λ _, mk_pool root' l);
  mret root'.
Definition delete_key (key : Key) : stt BridgePoolTree PoolError unit :=
  h ← lift (parse_key key);
  t ← get;
  let l := delete h (leaves t) in
  root' ← lift (expect (compute_root (mk_pool (root t) l)));
  modify (λ _, mk_pool root' l).
Definition tree_validate (t : BridgePoolTree) : option bool :=
  r ← compute_root t;
  Some (bool_decide (r = root t)).

(** ** Proofs of membership *)

Inductive Node : Type := OnPath (h : KeccakHash) | OffPath (h : KeccakHash).
Definition default_node : Node := OffPath default_hash.

Record BridgePoolProof : Type := mk_proof { proof : list KeccakHash; pr_leaves : list PendingTransfer; flags : list bool }.

(** One pair of a level: the flag, the sibling and the node above. *)
Definition join_nodes (prefix : Z) (x : Node * Node) : list bool * list KeccakHash * Node :=
  match x with
  | (OnPath l, OnPath r) => ([true], [], OnPath (hash_pair l r prefix))
  | (OnPath h, OffPath sib) => ([false], [sib], OnPath (hash_pair h sib prefix))
  | (OffPath sib, OnPath h) => ([false], [sib], OnPath (hash_pair h sib prefix))
  | (OffPath l, OffPath r) => ([], [], OffPath (hash_pair l r prefix))
  end.
Fixpoint join_level (prefix : Z) (l : list (Node * Node)) : list bool * list KeccakHash * list Node :=
  match l with
  | [] => ([], [], [])
  | x :: l =>
      let '(fl, ph, n) := join_nodes prefix x in
      let '(fls, phs, ns) := join_level prefix l in
      (fl ++ fls, ph ++ phs, n :: ns)
  end.
Fixpoint proof_loop (fuel : nat) (prefix : Z) (nodes : list Node) : option (list bool * list KeccakHash) :=
  match nodes with
  | [] | [_] => Some ([], [])
  | _ =>
      match fuel with
      | O => None
      | S fuel =>
          let '(fl, ph, next) := join_level prefix (chunks2 default_node nodes) in
          '(fls, phs) ← proof_loop fuel POOL_ROOT_PREFIX_NON_LEAF next;
          Some (fl ++ fls, ph ++ phs)
      end
  end.

(** [sort_by_key], which keeps the order of equal keys. *)
Fixpoint insert_by_hash (x : PendingTransfer) (l : list PendingTransfer) : list PendingTransfer :=
  match l with
  | [] => [x]
  | y :: l' => match kcmp (keccak256 x) (keccak256 y) with Gt => y :: insert_by_hash x l' | _ => x :: l end
  end.
Definition sort_by_hash (l : list PendingTransfer) : list PendingTransfer := foldr insert_by_hash [] l.

Definition get_membership_proof (t : BridgePoolTree) (values : list PendingTransfer) : res PoolError BridgePoolProof :=
  let values := sort_by_hash values in
  let wanted : gset KeccakHash := list_to_set (keccak256 <$> values) in
  if negb (forallb (λ h, bool_decide (is_Some (leaves t !! h))) (elements wanted)) then Err ValueNotInTree
  else
    let nodes := (λ h, if bool_decide (h ∈ wanted) then OnPath h else OffPath h) <$> leaf_hashes t in
    '(fl, proof_hashes) ← expect (proof_loop (length nodes) POOL_ROOT_PREFIX_LEAF nodes);
    let proof_hashes := if bool_decide (fl = []) && bool_decide (proof_hashes = []) && bool_decide (wanted = ∅)
                        then [root t] else proof_hashes in
    Ok (mk_proof proof_hashes values fl).

(** The next hash of a step: of the leaves as long as there are some. *)
Definition next_hash (ls hashes : list KeccakHash) (hash_pos leaf_pos : nat) : option (KeccakHash * Z * nat * nat) :=
  if (leaf_pos <? length ls)%nat then next ← ls !! leaf_pos; Some (next, POOL_ROOT_PREFIX_LEAF, hash_pos, S leaf_pos)
  else next ← hashes !! hash_pos; Some (next, POOL_ROOT_PREFIX_NON_LEAF, S hash_pos, leaf_pos).
(** The loop of [verify], one flag a step; an index out of range is a panic. *)
Fixpoint verify_loop (ls ps : list KeccakHash) (fl : list bool) (i : nat) (hashes : list KeccakHash)
    (hash_pos leaf_pos proof_pos : nat) : option (list KeccakHash) :=
  match fl with
  | [] => Some hashes
  | f :: fl =>
      '(lhs, prefix, hash_pos, leaf_pos) ← next_hash ls hashes hash_pos leaf_pos;
      '(rhs, hash_pos, leaf_pos, proof_pos) ←
        (if f : bool then '(next, _, hash_pos, leaf_pos) ← next_hash ls hashes hash_pos leaf_pos; Some (next, hash_pos, leaf_pos, proof_pos)
         else next ← ps !! proof_pos; Some (next, hash_pos, leaf_pos, S proof_pos));
      verify_loop ls ps fl (S i) (<[i := hash_pair lhs rhs prefix]> hashes) hash_pos leaf_pos proof_pos
  end.
Definition verify (p : BridgePoolProof) (r : KeccakHash) : option bool :=
  if negb (length (proof p) + length (pr_leaves p) =? length (flags p) + 1)%nat then Some false
  else
    match flags p with
    | [] =>
        Some (match last (pr_leaves p) with
              | Some leaf => bool_decide (r = keccak256 leaf)
              | None => match last (proof p) with Some proof_root => bool_decide (r = proof_root) | None => false end
              end)
    | fl =>
        hashes ← verify_loop (keccak256 <$> pr_leaves p) (proof p) fl 0 (replicate (length fl) default_hash) 0 0 0;
        Some (match last hashes with Some computed => bool_decide (computed = r) | None => false end)
    end.
End pool.

(** * Theory *)

(** ** Levels of the tree *)

Section levels.
Context {X : Type} (d : X).

Lemma chunks2_ind (P : list X → Prop) : P [] → (∀ x, P [x]) → (∀ x y l, P l → P (x :: y :: l)) → ∀ l, P l.
Proof using Type.
  intros H0 H1 H2. fix IH 1. intros [|x [|y l]]; [done|apply H1|apply H2, IH].
Qed.

Lemma chunks2_length l : (2 * length (chunks2 d l) = length l + length l mod 2)%nat.
Proof using Type.
  induction l as [|x|x y l IH] using chunks2_ind; [done..|]. cbn [chunks2 length].
  replace (S (S (length l))) with (length l + 1 * 2)%nat by lia. rewrite Nat.Div0.mod_add. lia.
Qed.
Lemma chunks2_shorter l n : (2 ≤ length l)%nat → (length l ≤ S (S n) → length (chunks2 d l) ≤ S n)%nat.
Proof using Type.
  intros H2 Hn. pose proof (chunks2_length l) as H. pose proof (Nat.mod_upper_bound (length l) 2). lia.
Qed.
Lemma chunks2_pos l : (2 ≤ length l)%nat → (1 ≤ length (chunks2 d l))%nat.
Proof using Type. intros H2. pose proof (chunks2_length l). lia. Qed.
(** Only two elements make one pair. *)
Lemma chunks2_one l x y : (2 ≤ length l)%nat → chunks2 d l = [(x, y)] → l = [x; y].
Proof using Type. destruct l as [|a [|b [|c [|e l]]]]; cbn; intros H2 H; try lia; try done. by injection H as <- <-. Qed.
Lemma chunks2_elem l x y : (x, y) ∈ chunks2 d l → x ∈ l ∧ (y ∈ l ∨ y = d).
Proof using Type.
  induction l as [|a|a b l IH] using chunks2_ind; cbn; rewrite ?elem_of_cons, ?elem_of_nil; [done|naive_solver|]. naive_solver.
Qed.
Lemma chunks2_fmap {Y} (f : X → Y) l : chunks2 (f d) (f <$> l) = (λ x, (f x.1, f x.2)) <$> chunks2 d l.
Proof using Type. induction l as [|a|a b l IH] using chunks2_ind; [done..|]. cbn. by f_equal. Qed.
End levels.

Section pool_theory.
Context {AA : AddressApi} {E : EthApi AA}.

Lemma pair_buffer_comm l r p : pair_buffer l r p = pair_buffer r l p.
Proof using Type.
  unfold pair_buffer. f_equal. rewrite (kcmp_antisym l r). destruct (kcmp l r) eqn:Ec; cbn; [|done..]. by apply kcmp_eq in Ec as ->.
Qed.
Lemma hash_pair_comm l r p : hash_pair l r p = hash_pair r l p.
Proof using Type. unfold hash_pair. by rewrite pair_buffer_comm. Qed.
Lemma pair_buffer_inj l r p l' r' p' : length l = 32%nat → length r = 32%nat → length l' = 32%nat → length r' = 32%nat →
  pair_buffer l r p = pair_buffer l' r' p' → (l = l' ∧ r = r') ∨ (l = r' ∧ r = l').
Proof using Type.
  intros Hl Hr Hl' Hr' [= _ H]. destruct (kcmp l r), (kcmp l' r'); apply app_inj_1 in H as [-> ->]; auto; lia.
Qed.
Lemma pair_buffer_length l r p : length l = 32%nat → length r = 32%nat → length (pair_buffer l r p) = 65%nat.
Proof using Type. intros Hl Hr. unfold pair_buffer. cbn. f_equal. destruct (kcmp l r); rewrite length_app; lia. Qed.

(** A transfer and the event that confirms it have the same hash, and the event and the
    appendix are the transfer. *)
Lemma event_same_hash x : keccak_hash (abi_encode (tokenize_event (event_of x))) = keccak256 x.
Proof using Type. done. Qed.
Lemma from_parts_event x : from_parts (event_of x) (appendix x) = x.
Proof using Type. by destruct x as [[] ?]. Qed.

(** ** The root *)

Abbreviation next_level p hs := ((λ x, hash_pair x.1 x.2 p) <$> chunks2 default_hash hs).

Lemma root_loop_step fuel p hs : (2 ≤ length hs)%nat → root_loop (S fuel) p hs = root_loop fuel POOL_ROOT_PREFIX_NON_LEAF (next_level p hs).
Proof using Type. destruct hs as [|a [|b hs]]; cbn [length]; [lia..|done]. Qed.
Lemma root_loop_total fuel p hs : (length hs ≤ S fuel)%nat → is_Some (root_loop fuel p hs).
Proof using Type.
  revert p hs. induction fuel as [|fuel IH]; intros p hs Hl; (destruct (decide (2 ≤ length hs)%nat) as [H2|H2]; [|destruct hs as [|a [|b hs]]; cbn in *; try lia; eauto]); [lia|].
  rewrite root_loop_step by done. apply IH. rewrite length_fmap. by apply chunks2_shorter.
Qed.
Lemma compute_root_total t : ∃ r, compute_root t = Some r.
Proof using Type. apply root_loop_total. lia. Qed.

(** ** Queues: what a proof stands for

    A step takes a hash off a queue, and another one off it or off the proof, and
    puts the hash of the pair at the end. *)
Abbreviation queue := (list (KeccakHash * Z)).
Abbreviation tag p hs := ((λ h : KeccakHash, (h, p)) <$> hs).
Fixpoint run_queue (q : queue) (ps : list KeccakHash) (fl : list bool) : option (queue * list KeccakHash) :=
  match fl with
  | [] => Some (q, ps)
  | f :: fl =>
      match q with
      | (l, p) :: q =>
          if f : bool then
            match q with
            | (r, _) :: q => run_queue (q ++ [(hash_pair l r p, POOL_ROOT_PREFIX_NON_LEAF)]) ps fl
            | [] => None
            end
          else
            match ps with
            | r :: ps => run_queue (q ++ [(hash_pair l r p, POOL_ROOT_PREFIX_NON_LEAF)]) ps fl
            | [] => None
            end
      | [] => None
      end
  end.

Lemma run_queue_length q ps fl q' ps' : run_queue q ps fl = Some (q', ps') →
  (length q + length ps = length q' + length ps' + length fl)%nat.
Proof using Type.
  revert q ps. induction fl as [|f fl IH]; intros q ps; cbn; [intros [= -> ->]; lia|]. destruct q as [|[l p] q]; [done|].
  destruct f; [destruct q as [|[r ?] q]; [done|]|destruct ps as [|r ps]; [done|]]; intros H%IH; rewrite length_app in H; cbn in *; lia.
Qed.

Definition node_hash (n : Node) : KeccakHash := match n with OnPath h | OffPath h => h end.
Definition on_path (n : Node) : option KeccakHash := match n with OnPath h => Some h | OffPath _ => None end.
Abbreviation onpaths p ns := (tag p (omap on_path ns)).
Definition flat_pairs {X} (l : list (X * X)) : list X := l ≫= λ x, [x.1; x.2].

Lemma join_level_run p l fl ph ns rest ps fls : join_level p l = (fl, ph, ns) →
  run_queue (onpaths p (flat_pairs l) ++ rest) (ph ++ ps) (fl ++ fls) =
  run_queue (rest ++ onpaths POOL_ROOT_PREFIX_NON_LEAF ns) ps fls.
Proof using Type.
  revert fl ph ns rest. induction l as [|[a b] l IH]; intros fl ph ns rest; cbn [join_level].
  { intros [= <- <- <-]. cbn. by rewrite app_nil_r. }
  destruct (join_nodes p (a, b)) as [[fl1 ph1] n1] eqn:E1. destruct (join_level p l) as [[fl2 ph2] ns2] eqn:E2. intros [= <- <- <-].
  specialize (IH fl2 ph2 ns2). change (flat_pairs ((a, b) :: l)) with ([a; b] ++ flat_pairs l). rewrite omap_app, fmap_app, <-!app_assoc.
  destruct a, b; injection E1 as <- <- <-; cbn [omap list_omap on_path fmap list_fmap app run_queue]; rewrite <-?app_assoc, IH; try done;
    by rewrite <-app_assoc.
Qed.

Lemma join_nodes_spec p x fl ph n : join_nodes p x = (fl, ph, n) → node_hash n = hash_pair (node_hash x.1) (node_hash x.2) p ∧
  (on_path n = None ↔ on_path x.1 = None ∧ on_path x.2 = None) ∧ (on_path n = None → fl = [] ∧ ph = []) ∧ (fl = [] → on_path n = None).
Proof using Type.
  destruct x as [[l|l] [r|r]]; cbn; intros [= <- <- <-]; cbn; (split; [done || apply hash_pair_comm|]); split_and!; try done; naive_solver.
Qed.
Abbreviation none_on := (Forall (λ n, on_path n = None)).
Lemma join_level_spec p l fl ph ns : join_level p l = (fl, ph, ns) →
  (node_hash <$> ns) = (λ x, hash_pair (node_hash x.1) (node_hash x.2) p) <$> l ∧
  (none_on ns ↔ Forall (λ x, on_path x.1 = None ∧ on_path x.2 = None) l) ∧ (none_on ns → fl = [] ∧ ph = []) ∧ (fl = [] → none_on ns).
Proof using Type.
  revert fl ph ns. induction l as [|x l IH]; intros fl ph ns; cbn [join_level]; [by intros [= <- <- <-]|].
  destruct (join_nodes p x) as [[fl1 ph1] n1] eqn:E1. destruct (join_level p l) as [[fl2 ph2] ns2] eqn:E2. intros [= <- <- <-].
  destruct (join_nodes_spec _ _ _ _ _ E1) as (Hh & Ho & Hn & Hf), (IH _ _ _ eq_refl) as (Hhs & Hos & Hns & Hfs).
  cbn [fmap list_fmap]. rewrite Hh, Hhs, !Forall_cons, Ho, Hos. split; [done|]. split; [done|]. split.
  - intros [Hx Hl]. destruct (Hn (proj2 Ho Hx)) as [-> ->], (Hns (proj2 Hos Hl)) as [-> ->]. done.
  - intros [H1 H2]%app_nil. split; [apply Ho, Hf, H1|apply Hos, Hfs, H2].
Qed.

Lemma flat_chunks nodes : omap on_path (flat_pairs (chunks2 default_node nodes)) = omap on_path nodes.
Proof using Type.
  induction nodes as [|a|a b l IH] using chunks2_ind; [done|by destruct a|]. cbn [chunks2].
  change (flat_pairs ((a, b) :: chunks2 default_node l)) with ([a; b] ++ flat_pairs (chunks2 default_node l)). rewrite omap_app, IH. by destruct a, b.
Qed.

Lemma none_on_omap ns : omap on_path ns = [] ↔ none_on ns.
Proof using Type.
  induction ns as [|n ns IH]; [done|]. cbn [omap list_omap]. rewrite Forall_cons, <-IH. destruct (on_path n); naive_solver.
Qed.
Lemma none_on_flat nodes : none_on nodes ↔ Forall (λ x, on_path x.1 = None ∧ on_path x.2 = None) (chunks2 default_node nodes).
Proof using Type.
  induction nodes as [|a|a b l IH] using chunks2_ind; cbn [chunks2]; rewrite ?Forall_cons, ?IH; naive_solver.
Qed.

(** The proof of a level and those above it takes the queue of the nodes on
    the path to the root. *)
Lemma proof_loop_run fuel p nodes : nodes ≠ [] → (length nodes ≤ S fuel)%nat →
  ∃ fl ph r p', proof_loop fuel p nodes = Some (fl, ph) ∧ root_loop fuel p (node_hash <$> nodes) = Some r ∧
    run_queue (onpaths p nodes) ph fl = Some (match omap on_path nodes with [] => [] | _ => [(r, p')] end, []) ∧
    (none_on nodes → fl = [] ∧ ph = []) ∧ ((2 ≤ length nodes)%nat → fl = [] → none_on nodes).
Proof using Type.
  revert p nodes. induction fuel as [|fuel IH]; intros p nodes Hne Hl;
    (destruct (decide (2 ≤ length nodes)%nat) as [H2|H2];
     [|destruct nodes as [|n [|n' nodes]]; [done| |cbn in *; lia]; exists [], [], (node_hash n), p; destruct n; split_and!; try done; cbn; lia]); [lia|].
  destruct (join_level p (chunks2 default_node nodes)) as [[fl1 ph1] next] eqn:E1.
  destruct (join_level_spec _ _ _ _ _ E1) as (Hh & Ho & Hn & Hf). rewrite <-none_on_flat in Ho.
  assert (Hlen : length next = length (chunks2 default_node nodes)) by (apply (f_equal length) in Hh; by rewrite !length_fmap in Hh).
  destruct (IH POOL_ROOT_PREFIX_NON_LEAF next) as (fl2 & ph2 & r & p' & R1 & R2 & R3 & R4 & _).
  { intros ->. pose proof (chunks2_pos default_node nodes H2). cbn in Hlen. lia. }
  { rewrite Hlen. by apply chunks2_shorter. }
  exists (fl1 ++ fl2), (ph1 ++ ph2), r, p'. split_and!.
  - destruct nodes as [|a [|b nodes]]; [cbn in H2; lia..|]. cbn [proof_loop]. rewrite E1. cbn. by rewrite R1.
  - rewrite root_loop_step by (by rewrite length_fmap). change default_hash with (node_hash default_node).
    rewrite chunks2_fmap, <-list_fmap_compose, <-R2, Hh. done.
  - rewrite <-flat_chunks. pose proof (join_level_run p _ fl1 ph1 next [] ph2 fl2 E1) as HR. rewrite app_nil_r in HR.
    rewrite HR. cbn [app]. rewrite R3. rewrite flat_chunks. f_equal. f_equal.
    pose proof (none_on_omap next) as N1. pose proof (none_on_omap nodes) as N2. rewrite Ho in N1. rewrite <-N2 in N1.
    destruct (omap on_path next), (omap on_path nodes); try done; naive_solver.
  - intros H. destruct (Hn (proj2 Ho H)) as [-> ->], (R4 (proj2 Ho H)) as [-> ->]. done.
  - intros _ [H1 _]%app_nil. apply Ho, Hf, H1.
Qed.

(** ** The loop of the verification runs the queue *)

Definition queue_at (ls hashes : list KeccakHash) (i hash_pos leaf_pos : nat) : queue :=
  tag POOL_ROOT_PREFIX_LEAF (drop leaf_pos ls) ++ tag POOL_ROOT_PREFIX_NON_LEAF (drop hash_pos (take i hashes)).

Lemma queue_at_leaf ls hs i hp lp h : ls !! lp = Some h →
  queue_at ls hs i hp lp = (h, POOL_ROOT_PREFIX_LEAF) :: queue_at ls hs i hp (S lp).
Proof using Type. intros Hh. unfold queue_at. by rewrite (drop_S _ _ _ Hh). Qed.
Lemma queue_at_hash ls hs i hp lp h : (length ls ≤ lp)%nat → (hp < i)%nat → hs !! hp = Some h →
  queue_at ls hs i hp lp = (h, POOL_ROOT_PREFIX_NON_LEAF) :: queue_at ls hs i (S hp) lp.
Proof using Type.
  intros Hl Hp Hh. unfold queue_at. rewrite (drop_ge ls) by done. cbn [fmap list_fmap app].
  rewrite (drop_S (take i hs) h hp) by (by rewrite lookup_take_lt). done.
Qed.
Lemma queue_at_empty ls hs i hp lp : (length ls ≤ lp)%nat → (i ≤ hp)%nat → queue_at ls hs i hp lp = [].
Proof using Type. intros Hl Hp. unfold queue_at. rewrite (drop_ge ls) by done. rewrite drop_ge; [done|]. rewrite length_take. lia. Qed.
Lemma queue_at_push ls hs i hp lp h : (i < length hs)%nat → (hp ≤ i)%nat →
  queue_at ls (<[i := h]> hs) (S i) hp lp = queue_at ls hs i hp lp ++ [(h, POOL_ROOT_PREFIX_NON_LEAF)].
Proof using Type.
  intros Hi Hp. unfold queue_at. rewrite <-app_assoc. f_equal. rewrite (take_S_r _ _ h) by (by apply list_lookup_insert_eq).
  rewrite take_insert_ge by lia. rewrite drop_app_le by (rewrite length_take; lia). by rewrite fmap_app.
Qed.

(** Taking the first hash of the queue. *)
Lemma next_hash_queue ls hs i hp lp h pfx q : (i ≤ length hs)%nat → (hp ≤ i)%nat → queue_at ls hs i hp lp = (h, pfx) :: q →
  ∃ hp' lp', next_hash ls hs hp lp = Some (h, pfx, hp', lp') ∧ q = queue_at ls hs i hp' lp' ∧ (hp' ≤ i)%nat.
Proof using Type.
  intros Hi Hhp Hq. unfold next_hash. destruct (Nat.ltb_spec lp (length ls)) as [Hl|Hl].
  - destruct (lookup_lt_is_Some_2 ls lp Hl) as [h' Hh]. rewrite (queue_at_leaf _ _ _ _ _ _ Hh) in Hq. injection Hq as -> -> <-.
    rewrite Hh. cbn. by eexists _, _.
  - destruct (decide (hp < i)%nat) as [Hp|Hp]; [|rewrite queue_at_empty in Hq by lia; done].
    destruct (lookup_lt_is_Some_2 hs hp) as [h' Hh]; [lia|]. rewrite (queue_at_hash _ _ _ _ _ h') in Hq by (done || lia).
    injection Hq as -> -> <-. rewrite Hh. cbn. eexists _, _. split_and!; [done..|lia].
Qed.

Lemma verify_loop_run ls ps fl i hs hp lp pp q' ps' : (i + length fl = length hs)%nat → (hp ≤ i)%nat → (hp < i ∨ i = 0)%nat →
  run_queue (queue_at ls hs i hp lp) (drop pp ps) fl = Some (q', ps') →
  ∃ hs' hp' lp', verify_loop ls ps fl i hs hp lp pp = Some hs' ∧ length hs' = length hs ∧ q' = queue_at ls hs' (length hs') hp' lp' ∧
    (hp' < length hs ∨ length hs = 0)%nat.
Proof using Type.
  revert i hs hp lp pp. induction fl as [|f fl IH]; intros i hs hp lp pp Hi Hhp Hlt Hr; cbn in Hi.
  { cbn in Hr. injection Hr as <- _. exists hs, hp, lp. rewrite Nat.add_0_r in Hi. subst i. done. }
  cbn [run_queue] in Hr. destruct (queue_at ls hs i hp lp) as [|[l p] q] eqn:Eq; [done|].
  destruct (next_hash_queue ls hs i hp lp l p q ltac:(lia) Hhp Eq) as (hp1 & lp1 & N1 & -> & Hp1). cbn [verify_loop]. rewrite N1. cbn [mbind option_bind].
  assert (Hpush : ∀ h hp2 lp2 pp2, (hp2 ≤ i)%nat →
    run_queue (queue_at ls hs i hp2 lp2 ++ [(h, POOL_ROOT_PREFIX_NON_LEAF)]) (drop pp2 ps) fl = Some (q', ps') →
    ∃ hs' hp' lp', verify_loop ls ps fl (S i) (<[i:=h]> hs) hp2 lp2 pp2 = Some hs' ∧ length hs' = length hs ∧
      q' = queue_at ls hs' (length hs') hp' lp' ∧ (hp' < length hs ∨ length hs = 0)%nat).
  { intros h hp2 lp2 pp2 Hp2 HR. rewrite <-queue_at_push in HR by lia. apply IH in HR; rewrite ?length_insert in *; [done|lia..]. }
  destruct f.
  - destruct (queue_at ls hs i hp1 lp1) as [|[r p2] q2] eqn:Eq2; [done|].
    destruct (next_hash_queue ls hs i hp1 lp1 r p2 q2 ltac:(lia) Hp1 Eq2) as (hp2 & lp2 & N2 & -> & Hp2). rewrite N2. by apply Hpush.
  - destruct (drop pp ps) as [|r ps1] eqn:Ed; [done|].
    assert (Hpp : ps !! pp = Some r) by (rewrite <-(Nat.add_0_r pp), <-lookup_drop, Ed; done). rewrite Hpp. cbn [mbind option_bind].
    rewrite (drop_S _ _ _ Hpp) in Ed. injection Ed as <-. by apply Hpush.
Qed.

Lemma last_drop_lt {X} (l : list X) n : (n < length l)%nat → last (drop n l) = last l.
Proof using Type.
  intros Hn. rewrite <-(take_drop n l) at 2. rewrite last_app. destruct (last (drop n l)) eqn:El; [done|].
  apply last_None, (f_equal length) in El. rewrite length_drop in El. cbn in El. lia.
Qed.

(** A run of the queue to the root, with every leaf and hash used, is what is accepted. *)
Lemma run_queue_accepted ls ps fl r p' : fl ≠ [] → run_queue (tag POOL_ROOT_PREFIX_LEAF ls) ps fl = Some ([(r, p')], []) →
  ∃ hs', verify_loop ls ps fl 0 (replicate (length fl) default_hash) 0 0 0 = Some hs' ∧ last hs' = Some r.
Proof using Type.
  intros Hfl HR. assert (Hq : queue_at ls (replicate (length fl) default_hash) 0 0 0 = tag POOL_ROOT_PREFIX_LEAF ls) by (unfold queue_at; apply app_nil_r).
  rewrite <-Hq in HR. destruct (verify_loop_run ls ps fl 0 (replicate (length fl) default_hash) 0 0 0 [(r, p')] []) as (hs' & hp & lp & R & Hl & Hq' & Hlt);
    [by rewrite length_replicate|lia|by right|done|]. exists hs'. split; [done|]. rewrite length_replicate in Hl.
  assert (Hn : (hp < length hs')%nat) by (destruct fl; [done|rewrite length_replicate in Hlt; cbn in *; lia]).
  unfold queue_at in Hq'. rewrite firstn_all in Hq'. apply (f_equal last) in Hq'. rewrite last_app in Hq'.
  rewrite !fmap_last in Hq'. rewrite last_drop_lt in Hq' by lia. destruct (last hs') as [x|] eqn:El; cbn in Hq'; [by injection Hq' as <- _|].
  apply last_None in El. subst hs'. cbn in Hn. lia.
Qed.

(** ** Sorted leaves *)

#[local] Instance klt_antisymm : AntiSymm (=) (klt (K:=KeccakHash)).
Proof using Type. intros a b H1 H2. apply klt_gt in H2. unfold klt in H1. congruence. Qed.
Lemma sorted_NoDup (l : list KeccakHash) : StronglySorted klt l → NoDup l.
Proof using Type.
  induction 1 as [|x l _ IH Hx]; constructor; [|done]. intros Hin. rewrite Forall_forall in Hx. by apply (klt_irrefl x), Hx.
Qed.
Lemma sorted_same (l1 l2 : list KeccakHash) : StronglySorted klt l1 → StronglySorted klt l2 → (∀ x, x ∈ l1 ↔ x ∈ l2) → l1 = l2.
Proof using Type.
  intros H1 H2 He. apply (StronglySorted_unique klt); [done..|]. apply NoDup_Permutation; [by apply sorted_NoDup..|done].
Qed.
Lemma leaf_hashes_sorted t : StronglySorted klt (leaf_hashes t).
Proof using Type.
  unfold leaf_hashes. pose proof (kvs_sorted (leaves t)) as H. induction H as [|x l _ IH Hx]; cbn; constructor; [done|].
  by apply Forall_fmap.
Qed.
Lemma elem_of_leaf_hashes t h : h ∈ leaf_hashes t ↔ is_Some (leaves t !! h).
Proof using Type.
  unfold leaf_hashes. rewrite list_elem_of_fmap. split.
  - intros ([h' v] & -> & Hin%elem_of_kvs). by exists v.
  - intros [v Hv]. exists (h, v). split; [done|]. by apply elem_of_kvs.
Qed.
Lemma sorted_filter (P : KeccakHash → Prop) `{∀ x, Decision (P x)} l : StronglySorted klt l → StronglySorted klt (filter P l).
Proof using Type.
  induction 1 as [|x l _ IH Hx]; [constructor|]. rewrite filter_cons. case_decide; [|done]. constructor; [done|].
  rewrite Forall_forall in *. intros y [_ Hy]%list_elem_of_filter. by apply Hx.
Qed.

Lemma insert_by_hash_perm x l : insert_by_hash x l ≡ₚ x :: l.
Proof using Type. induction l as [|y l IH]; [done|]. cbn. destruct (kcmp _ _); [done..|]. rewrite IH. apply perm_swap. Qed.
Lemma sort_by_hash_perm l : sort_by_hash l ≡ₚ l.
Proof using Type. induction l as [|x l IH]; [done|]. cbn. by rewrite insert_by_hash_perm, IH. Qed.
(** Without duplicates the hashes are strictly ascending. *)
Lemma sort_by_hash_sorted l : NoDup (keccak256 <$> l) → StronglySorted klt (keccak256 <$> sort_by_hash l).
Proof using Type.
  induction l as [|x l IH]; [constructor|]. intros [Hx Hnd]%NoDup_cons. specialize (IH Hnd).
  change (sort_by_hash (x :: l)) with (insert_by_hash x (sort_by_hash l)).
  assert (Hx' : keccak256 x ∉ keccak256 <$> sort_by_hash l) by (by rewrite sort_by_hash_perm). revert IH Hx'. clear.
  induction (sort_by_hash l) as [|y l' IH]; cbn; [intros; repeat constructor|]. intros Hs [Hne Hx]%not_elem_of_cons. inversion Hs as [|? ? Hs' Hy]; subst.
  destruct (kcmp (keccak256 x) (keccak256 y)) eqn:Ec; cbn.
  - by apply kcmp_eq in Ec.
  - constructor; [done|]. constructor; [done|]. eapply Forall_impl; [exact Hy|]. intros z Hz. by eapply kcmp_trans.
  - constructor; [by apply IH|]. rewrite insert_by_hash_perm. cbn. constructor; [by apply klt_gt|done].
Qed.

(** ** The proofs of the tree are accepted *)

Definition path_leaves (wanted : gset KeccakHash) (t : BridgePoolTree) : list KeccakHash := filter (λ h, h ∈ wanted) (leaf_hashes t).
Abbreviation marked wanted t := ((λ h, if bool_decide (h ∈ wanted) then OnPath h else OffPath h) <$> leaf_hashes t).
Lemma marked_hashes (wanted : gset KeccakHash) t : node_hash <$> marked wanted t = leaf_hashes t.
Proof using Type.
  rewrite <-list_fmap_compose. rewrite <-(list_fmap_id (leaf_hashes t)) at 2. apply list_fmap_ext. intros i h _. cbn. by case_bool_decide.
Qed.
Lemma marked_on_path (wanted : gset KeccakHash) t : omap on_path (marked wanted t) = path_leaves wanted t.
Proof using Type.
  unfold path_leaves. induction (leaf_hashes t) as [|h l IH]; [done|]. cbn [fmap list_fmap omap list_omap]. rewrite filter_cons, IH. case_bool_decide; by case_decide.
Qed.

Lemma wanted_leaves t values : Forall (λ x, is_Some (leaves t !! keccak256 x)) values →
  let wanted : gset KeccakHash := list_to_set (keccak256 <$> sort_by_hash values) in
  let W := path_leaves wanted t in
  (∀ h, h ∈ W ↔ h ∈ keccak256 <$> values) ∧
  (NoDup (keccak256 <$> values) → keccak256 <$> sort_by_hash values = W) ∧ (length W = length values → NoDup (keccak256 <$> values)).
Proof using Type.
  intros Hin wanted W. assert (HW : ∀ h, h ∈ W ↔ h ∈ keccak256 <$> values).
  { intros h. unfold W, path_leaves, wanted. rewrite list_elem_of_filter, elem_of_list_to_set, elem_of_leaf_hashes, sort_by_hash_perm. split; [by intros [? _]|].
    intros Hh. split; [done|]. apply list_elem_of_fmap in Hh as (x & -> & Hx). rewrite Forall_forall in Hin. by apply Hin. }
  assert (Hs : StronglySorted klt W) by apply sorted_filter, leaf_hashes_sorted. split; [done|]. split.
  - intros Hnd. apply sorted_same; [by apply sort_by_hash_sorted|done|]. intros h. by rewrite sort_by_hash_perm, HW.
  - intros Hlen. assert (Hsub : W ⊆+ keccak256 <$> values) by (apply NoDup_submseteq; [by apply sorted_NoDup|]; intros h; by rewrite HW).
    apply submseteq_length_Permutation in Hsub; [|rewrite length_fmap; lia]. rewrite <-Hsub. by apply sorted_NoDup.
Qed.

Lemma verify_generated t x values fl ph p' :
  let sorted := sort_by_hash (x :: values) in
  let wanted : gset KeccakHash := list_to_set (keccak256 <$> sorted) in
  let W := path_leaves wanted t in
  Forall (λ x, is_Some (leaves t !! keccak256 x)) (x :: values) →
  run_queue (tag POOL_ROOT_PREFIX_LEAF W) ph fl = Some ([(root t, p')], []) →
  verify (mk_proof ph sorted fl) (root t) = Some (bool_decide (NoDup (keccak256 <$> x :: values))).
Proof using Type.
  intros sorted wanted W Hin HR. destruct (wanted_leaves t (x :: values) Hin) as (HW & Heq & Hdup). fold sorted wanted W in HW, Heq, Hdup.
  pose proof (run_queue_length _ _ _ _ _ HR) as Hlen. rewrite length_fmap in Hlen. cbn [length] in Hlen.
  assert (Hl : length sorted = length (x :: values)) by (unfold sorted; by rewrite sort_by_hash_perm).
  unfold verify. cbn [proof pr_leaves flags]. case_bool_decide as Hnd.
  - specialize (Heq Hnd). assert (HlW : length W = length sorted) by (by rewrite <-Heq, length_fmap).
    rewrite (proj2 (Nat.eqb_eq _ _)) by lia. cbn [negb]. destruct fl as [|f fl].
    + cbn in HR. injection HR as HW1 ->. rewrite <-Heq in HW1. destruct sorted as [|y [|]]; try done. cbn in HW1. injection HW1 as HW1 _. cbn.
      by rewrite bool_decide_true.
    + rewrite Heq. destruct (run_queue_accepted W ph (f :: fl) (root t) p') as (hs & -> & Hlast); [done..|]. cbn [mbind option_bind].
      rewrite Hlast. by rewrite bool_decide_true.
  - rewrite (proj2 (Nat.eqb_neq _ _)); [done|]. intros Hl2. apply Hnd, Hdup. lia.
Qed.

Lemma membership_proof_spec t values : compute_root t = Some (root t) → Forall (λ x, is_Some (leaves t !! keccak256 x)) values →
  ∃ p, get_membership_proof t values = Ok p ∧ pr_leaves p = sort_by_hash values ∧
    verify p (root t) = Some (bool_decide (NoDup (keccak256 <$> values))).
Proof using Type.
  intros Hroot Hin. unfold get_membership_proof. set (sorted := sort_by_hash values).
  set (wanted := list_to_set (keccak256 <$> sorted) : gset KeccakHash). destruct (wanted_leaves t values Hin) as (HW & _ & _). fold sorted wanted in HW.
  assert (Hall : forallb (λ h, bool_decide (is_Some (leaves t !! h))) (elements wanted) = true).
  { apply forallb_forall. intros h Hh. apply bool_decide_eq_true, elem_of_leaf_hashes. apply list_elem_of_In, elem_of_elements in Hh.
    unfold wanted in Hh. rewrite elem_of_list_to_set in Hh. unfold sorted in Hh. rewrite sort_by_hash_perm, <-HW in Hh. by apply list_elem_of_filter in Hh as [_ ?]. }
  rewrite Hall. cbn [negb]. destruct (decide (leaf_hashes t = [])) as [Hnil|Hne].
  - assert (values = []) as ->.
    { destruct values as [|x values]; [done|]. exfalso. assert (Hx : keccak256 x ∈ keccak256 <$> x :: values) by (left).
      apply HW in Hx. unfold path_leaves in Hx. rewrite Hnil in Hx. by apply elem_of_nil in Hx. }
    rewrite Hnil. cbn. eexists. split; [reflexivity|]. split; [done|]. unfold verify. cbn. rewrite (bool_decide_true (∅ = ∅)) by done. cbn. by rewrite bool_decide_true.
  - destruct (proof_loop_run (length (marked wanted t)) POOL_ROOT_PREFIX_LEAF (marked wanted t)) as (fl & ph & r & p' & R1 & R2 & R3 & R4 & _).
    { intros H%fmap_nil_inv. done. } { lia. }
    rewrite R1. cbn [expect mbind res_bind]. rewrite marked_hashes in R2. rewrite length_fmap in R2. unfold compute_root in Hroot. rewrite Hroot in R2. injection R2 as <-.
    rewrite marked_on_path in R3. eexists. split; [reflexivity|]. split; [done|]. destruct values as [|x values].
    + assert (HW0 : path_leaves wanted t = []) by (apply elem_of_nil_inv; intros h Hh%HW; by apply elem_of_nil in Hh).
      destruct R4 as [-> ->]; [by rewrite <-none_on_omap, marked_on_path|]. unfold verify. cbn. rewrite (bool_decide_true (∅ = ∅)) by done. cbn. by rewrite bool_decide_true.
    + assert (Hx : keccak256 x ∈ path_leaves wanted t) by (apply HW; left).
      destruct (path_leaves wanted t) as [|w W] eqn:EW; [by apply elem_of_nil in Hx|].
      rewrite (bool_decide_false (wanted = ∅)). 2: { intros E0. rewrite <-EW, E0 in Hx. unfold path_leaves in Hx. apply list_elem_of_filter in Hx as [Hx _]. set_solver. }
      rewrite andb_false_r. apply (verify_generated t x values fl ph p'); [done|]. fold sorted wanted. by rewrite EW.
Qed.

(** ** The pool through its insertions and deletions *)

Context {L : EthLaws AA E}.

Inductive PoolOp : Type := PoolInsert (x : PendingTransfer) (h : BlockHeight) | PoolDelete (x : PendingTransfer).
Definition run_pool_op (op : PoolOp) : stt BridgePoolTree PoolError unit :=
  match op with
  | PoolInsert x h => _ ← insert_key (transfer_key x) h; mret ()
  | PoolDelete x => delete_key (transfer_key x)
  end.
Abbreviation run_pool ops := (for_each run_pool_op ops).
(** What the pool should hold. *)
Definition pool_step (m : gmap KeccakHash BlockHeight) (op : PoolOp) : gmap KeccakHash BlockHeight :=
  match op with
  | PoolInsert x h => <[keccak256 x := h]> m
  | PoolDelete x => delete (keccak256 x) m
  end.
Definition pool_history (ops : list PoolOp) : gmap KeccakHash BlockHeight := foldl pool_step ∅ ops.

Lemma parse_transfer_key x : parse_key (transfer_key x) = Ok (keccak256 x).
Proof using L.
  unfold parse_key, transfer_key. cbn [segments]. unfold hash_from_string. unfold keccak256 at 1. rewrite hex_printed by apply keccak_bytes.
  cbn [mbind option_bind]. rewrite bool_decide_true by apply keccak_len. done.
Qed.

Lemma run_pool_run ops t : ∃ t', run_pool ops t = (t', Ok ()) ∧ leaves t' = foldl pool_step (leaves t) ops ∧
  (compute_root t = Some (root t) → compute_root t' = Some (root t')).
Proof using L.
  revert t. induction ops as [|op ops IH]; intros t; [by exists t|].
  set (l := pool_step (leaves t) op). destruct (compute_root_total (mk_pool (root t) l)) as [r Hr].
  assert (Hop : run_pool_op op t = (mk_pool r l, Ok ())).
  { destruct op; cbn [run_pool_op pool_step] in *; unfold insert_key, delete_key; rewrite parse_transfer_key;
      unfold mbind, stt_bind, lift, get; cbn [fst snd]; unfold l in Hr; by rewrite Hr. }
  destruct (IH (mk_pool r l)) as (t' & R & Hl & Hc). exists t'. cbn [for_each]. rewrite (stt_bind_run _ _ _ _ _ Hop). split; [done|].
  split; [done|]. intros _. by apply Hc.
Qed.

(** C17. Whatever transfers were put into the pool and taken out of it, its tree
    holds what the history says, and [get_membership_proof] for any of the transfers it holds
    makes a proof of those transfers that [verify] accepts against the root, unless
    two of them have the same hash, in which case it is refused; for others there
    is an error. *)
Theorem pool_proofs_verify ops values :
  ∃ t, run_pool ops default_tree = (t, Ok ()) ∧ leaves t = pool_history ops ∧
    (∀ x, contains_key t (transfer_key x) = Ok (bool_decide (is_Some (pool_history ops !! keccak256 x)))) ∧
    if decide (Forall (λ x, is_Some (pool_history ops !! keccak256 x)) values) then
      ∃ p, get_membership_proof t values = Ok p ∧ pr_leaves p ≡ₚ values ∧
        verify p (root t) = Some (bool_decide (NoDup (keccak256 <$> values)))
    else get_membership_proof t values = Err ValueNotInTree.
Proof using L.
  destruct (run_pool_run ops default_tree) as (t & R & Hl & Hc). specialize (Hc ltac:(done)).
  change (foldl pool_step (leaves default_tree) ops) with (pool_history ops) in Hl. exists t. split; [done|]. split; [done|]. split.
  { intros x. unfold contains_key. rewrite parse_transfer_key. cbn. by rewrite Hl. }
  rewrite <-Hl. destruct (decide _) as [Hin|Hout].
  - destruct (membership_proof_spec t values Hc Hin) as (p & Hp & Hs & Hv). exists p. split; [done|]. split; [|done]. rewrite Hs. apply sort_by_hash_perm.
  - unfold get_membership_proof. destruct (forallb _ _) eqn:Ef; [|done]. exfalso. apply Hout. rewrite Forall_forall. intros x Hx.
    rewrite forallb_forall in Ef. specialize (Ef (keccak256 x)). apply bool_decide_eq_true in Ef; [done|].
    apply list_elem_of_In, elem_of_elements, elem_of_list_to_set. rewrite sort_by_hash_perm. by apply list_elem_of_fmap_2.
Qed.

(** ** What an accepted proof says

    The buffers that are hashed, for the tree and by the verification, which is run
    here with the positions it ends at. *)
Fixpoint tree_inputs (fuel : nat) (p : Z) (hs : list KeccakHash) : list bytes :=
  match hs with
  | [] | [_] => []
  | _ =>
      match fuel with
      | O => []
      | S fuel => ((λ x, pair_buffer x.1 x.2 p) <$> chunks2 default_hash hs) ++ tree_inputs fuel POOL_ROOT_PREFIX_NON_LEAF (next_level p hs)
      end
  end.
Fixpoint tree_nodes (fuel : nat) (p : Z) (hs : list KeccakHash) : list KeccakHash :=
  hs ++
  match hs with
  | [] | [_] => []
  | _ => match fuel with O => [] | S fuel => tree_nodes fuel POOL_ROOT_PREFIX_NON_LEAF (next_level p hs) end
  end.
Fixpoint verify_trace (ls ps : list KeccakHash) (fl : list bool) (i : nat) (hashes : list KeccakHash) (hash_pos leaf_pos proof_pos : nat) :
    option (list bytes * list KeccakHash * nat * nat * nat) :=
  match fl with
  | [] => Some ([], hashes, hash_pos, leaf_pos, proof_pos)
  | f :: fl =>
      '(lhs, prefix, hash_pos, leaf_pos) ← next_hash ls hashes hash_pos leaf_pos;
      '(rhs, hash_pos, leaf_pos, proof_pos) ←
        (if f : bool then '(next, _, hash_pos, leaf_pos) ← next_hash ls hashes hash_pos leaf_pos; Some (next, hash_pos, leaf_pos, proof_pos)
         else next ← ps !! proof_pos; Some (next, hash_pos, leaf_pos, S proof_pos));
      '(inputs, hashes', h, l, p) ← verify_trace ls ps fl (S i) (<[i := hash_pair lhs rhs prefix]> hashes) hash_pos leaf_pos proof_pos;
      Some (pair_buffer lhs rhs prefix :: inputs, hashes', h, l, p)
  end.
Definition proof_inputs (p : BridgePoolProof) : list bytes :=
  match verify_trace (keccak256 <$> pr_leaves p) (proof p) (flags p) 0 (replicate (length (flags p)) default_hash) 0 0 0 with
  | Some (inputs, _, _, _, _) => inputs
  | None => []
  end.

Lemma verify_loop_trace ls ps fl i hs hp lp pp :
  verify_loop ls ps fl i hs hp lp pp = (λ x, x.1.1.1.2) <$> verify_trace ls ps fl i hs hp lp pp.
Proof using Type.
  revert i hs hp lp pp. induction fl as [|f fl IH]; intros i hs hp lp pp; [done|]. cbn [verify_loop verify_trace].
  destruct (next_hash ls hs hp lp) as [[[[l p] hp1] lp1]|]; [|done]. cbn [mbind option_bind].
  destruct (if f then _ else _) as [[[[r hp2] lp2] pp2]|]; [|done]. cbn [mbind option_bind]. rewrite IH.
  by destruct (verify_trace _ _ _ _ _ _ _ _) as [[[[[? ?] ?] ?] ?]|].
Qed.

(** Where a hash comes from. *)
Lemma next_hash_inv ls hs hp lp h p hp' lp' : next_hash ls hs hp lp = Some (h, p, hp', lp') →
  (lp < length ls ∧ ls !! lp = Some h ∧ hp' = hp ∧ lp' = S lp)%nat ∨ (length ls ≤ lp ∧ hs !! hp = Some h ∧ hp' = S hp ∧ lp' = lp)%nat.
Proof using Type.
  unfold next_hash. destruct (Nat.ltb_spec lp (length ls)).
  - destruct (ls !! lp) eqn:El; [|done]. cbn. intros [= -> _ <- <-]. by left.
  - destruct (hs !! hp) eqn:El; [|done]. cbn. intros [= -> _ <- <-]. by right.
Qed.

(** A step of the trace. *)
Lemma verify_trace_step ls ps f fl i hs hp lp pp inputs hs' hp' lp' pp' :
  verify_trace ls ps (f :: fl) i hs hp lp pp = Some (inputs, hs', hp', lp', pp') →
  ∃ l r p hp1 lp1 hp2 lp2 pp2 inputs', next_hash ls hs hp lp = Some (l, p, hp1, lp1) ∧
    ((∃ p', next_hash ls hs hp1 lp1 = Some (r, p', hp2, lp2) ∧ pp2 = pp) ∨
     (ps !! pp = Some r ∧ hp2 = hp1 ∧ lp2 = lp1 ∧ pp2 = S pp)) ∧
    inputs = pair_buffer l r p :: inputs' ∧
    verify_trace ls ps fl (S i) (<[i := hash_pair l r p]> hs) hp2 lp2 pp2 = Some (inputs', hs', hp', lp', pp').
Proof using Type.
  cbn [verify_trace]. destruct (next_hash ls hs hp lp) as [[[[l p] hp1] lp1]|] eqn:N1; [|done]. cbn [mbind option_bind]. intros H.
  destruct (if f then _ else _) as [[[[r hp2] lp2] pp2]|] eqn:N2 in H; [|done]. cbn [mbind option_bind] in H.
  destruct (verify_trace ls ps fl _ _ _ _ _) as [[[[[inputs' ?] ?] ?] ?]|] eqn:Ht in H; [|done]. cbn in H. injection H as <- <- <- <- <-.
  exists l, r, p, hp1, lp1, hp2, lp2, pp2, inputs'. split; [done|]. split; [|done]. destruct f.
  - destruct (next_hash ls hs hp1 lp1) as [[[[r' p'] hp2'] lp2']|] eqn:N3; [|done]. cbn in N2. injection N2 as -> -> -> ->. left. eauto.
  - destruct (ps !! pp) eqn:Ep; [|done]. cbn in N2. injection N2 as -> -> -> <-. by right.
Qed.

Abbreviation len32 := (Forall (λ h : KeccakHash, length h = 32%nat)).

(** The positions count what was taken; a hash is taken when no leaf is left. *)
Lemma verify_trace_counts ls ps fl i hs hp lp pp inputs hs' hp' lp' pp' :
  verify_trace ls ps fl i hs hp lp pp = Some (inputs, hs', hp', lp', pp') → (lp ≤ length ls)%nat → (pp ≤ length ps)%nat →
  (hp' + lp' + pp' = hp + lp + pp + 2 * length fl ∧ lp' ≤ length ls ∧ pp' ≤ length ps ∧ length hs' = length hs)%nat ∧
  (length ls ≤ lp → i ≤ hp → i + length fl ≤ hp')%nat.
Proof using Type.
  revert i hs hp lp pp inputs. induction fl as [|f fl IH]; intros i hs hp lp pp inputs Ht Hl Hp.
  { cbn in Ht. injection Ht as <- <- <- <- <-. cbn. lia. }
  apply verify_trace_step in Ht as (l & r & p & hp1 & lp1 & hp2 & lp2 & pp2 & inputs' & N1 & N2 & -> & Ht).
  apply next_hash_inv in N1.
  assert (Hpos : (hp2 + lp2 + pp2 = hp + lp + pp + 2 ∧ lp2 ≤ length ls ∧ pp2 ≤ length ps ∧ (length ls ≤ lp → S hp ≤ hp2 ∧ length ls ≤ lp2))%nat).
  { destruct N2 as [(p' & N2%next_hash_inv & ->)|(Hps%lookup_lt_Some & -> & -> & ->)]; lia. }
  destruct (IH _ _ _ _ _ _ Ht ltac:(lia) ltac:(lia)) as [H1 H2]. rewrite length_insert in H1. cbn [length]. split; [lia|]. intros Hl0 Hi. lia.
Qed.

Lemma hash_pair_len l r p : length (hash_pair l r p) = 32%nat.
Proof using L. apply keccak_len. Qed.
Lemma next_hash_len ls hs hp lp h p hp' lp' : len32 ls → len32 hs → next_hash ls hs hp lp = Some (h, p, hp', lp') → length h = 32%nat.
Proof using Type.
  intros Hls Hhs [(_ & H & _)|(_ & H & _)]%next_hash_inv; [exact (Forall_lookup_1 _ _ _ _ Hls H)|exact (Forall_lookup_1 _ _ _ _ Hhs H)].
Qed.
Lemma len32_insert i h hs : len32 hs → length h = 32%nat → len32 (<[i := h]> hs).
Proof using Type. intros Hhs Hh. by apply Forall_insert. Qed.
(** The two hashes of a step. *)
Lemma step_len ls ps hs hp lp l p hp1 lp1 pp r hp2 lp2 pp2 : len32 ls → len32 ps → len32 hs → next_hash ls hs hp lp = Some (l, p, hp1, lp1) →
  ((∃ p', next_hash ls hs hp1 lp1 = Some (r, p', hp2, lp2) ∧ pp2 = pp) ∨ (ps !! pp = Some r ∧ hp2 = hp1 ∧ lp2 = lp1 ∧ pp2 = S pp)) →
  length l = 32%nat ∧ length r = 32%nat.
Proof using Type.
  intros Hls Hps Hhs N1 N2. split; [by apply next_hash_len in N1|]. destruct N2 as [(p' & N2 & _)|(H & _)]; [by apply next_hash_len in N2|].
  exact (Forall_lookup_1 _ _ _ _ Hps H).
Qed.

(** The queue after a hash was taken. *)
Lemma queue_taken ls hs i hp lp h p hp' lp' x : next_hash ls hs hp lp = Some (h, p, hp', lp') →
  x ∈ (queue_at ls hs i hp lp).*1 → x = h ∨ x ∈ (queue_at ls hs i hp' lp').*1.
Proof using Type.
  intros [(Hl & Hh & -> & ->)|(Hl & Hh & -> & ->)]%next_hash_inv.
  - rewrite (queue_at_leaf _ _ _ _ _ _ Hh). by intros [->|]%elem_of_cons; [left|right].
  - destruct (decide (hp < i)%nat); [|rewrite queue_at_empty by lia; by intros ?%elem_of_nil].
    rewrite (queue_at_hash _ _ _ _ _ h) by done. by intros [->|]%elem_of_cons; [left|right].
Qed.

(** If every hash but the last was taken after it was computed, everything in the
    queue lies below the last one. *)
Lemma trace_closed (P : KeccakHash → Prop) ls ps fl i hs hp lp pp inputs hs' hp' lp' pp' :
  verify_trace ls ps fl i hs hp lp pp = Some (inputs, hs', hp', lp', pp') → len32 ls → len32 ps → len32 hs →
  (lp ≤ length ls)%nat → (pp ≤ length ps)%nat → (lp < length ls → hp = 0)%nat →
  (i + length fl = length hs)%nat → (S hp' = length hs)%nat → lp' = length ls →
  (∀ l r p, length l = 32%nat → length r = 32%nat → pair_buffer l r p ∈ inputs → P (hash_pair l r p) → P l ∧ P r) →
  (∀ x, last hs' = Some x → P x) → ∀ x, x ∈ (queue_at ls hs i hp lp).*1 → P x.
Proof using L.
  revert i hs hp lp pp inputs. induction fl as [|f fl IH]; intros i hs hp lp pp inputs Ht Hls Hps Hhs Hlp Hpp H0 Hi Hhp' Hlp' Hcl Hlast x Hx.
  - cbn in Ht. injection Ht as <- <- <- <- <-. unfold queue_at in Hx. rewrite (drop_ge ls) in Hx by lia. cbn [fmap list_fmap app length] in *.
    rewrite take_ge in Hx by lia. rewrite <-list_fmap_compose, list_fmap_id in Hx.
    destruct (lookup_lt_is_Some_2 hs hp) as [y Hy]; [lia|]. rewrite (drop_S _ _ _ Hy), drop_ge in Hx by lia.
    apply list_elem_of_singleton in Hx as ->. apply Hlast. rewrite last_lookup. replace (Nat.pred (length hs)) with hp by lia. done.
  - pose proof (verify_trace_step _ _ _ _ _ _ _ _ _ _ _ _ _ _ Ht) as (l & r & p & hp1 & lp1 & hp2 & lp2 & pp2 & inputs' & N1 & N2 & -> & Ht').
    destruct (step_len _ _ _ _ _ _ _ _ _ _ _ _ _ _ Hls Hps Hhs N1 N2) as [Hl Hr].
    assert (Hpos : (lp2 ≤ length ls ∧ pp2 ≤ length ps ∧ (lp2 < length ls → hp2 = 0))%nat).
    { pose proof (next_hash_inv _ _ _ _ _ _ _ _ N1). destruct N2 as [(p' & N2%next_hash_inv & ->)|(Hps'%lookup_lt_Some & -> & -> & ->)]; lia. }
    destruct Hpos as (Hlp2 & Hpp2 & H02). cbn [length] in Hi.
    assert (Hhp2 : (hp2 ≤ i)%nat).
    { destruct (verify_trace_counts _ _ _ _ _ _ _ _ _ _ _ _ _ Ht' Hlp2 Hpp2) as [_ Hahead].
      destruct (decide (lp2 < length ls)%nat); [rewrite H02 by done; lia|]. destruct (decide (hp2 ≤ i)%nat); [done|]. lia. }
    assert (IHq : ∀ y, y ∈ (queue_at ls hs i hp2 lp2).*1 ∨ y = hash_pair l r p → P y).
    { intros y Hy. refine (IH _ _ _ _ _ _ Ht' Hls Hps _ Hlp2 Hpp2 H02 _ _ Hlp' _ Hlast y _); rewrite ?length_insert; [|lia..| |].
      - by apply len32_insert; [|apply hash_pair_len].
      - intros l0 r0 p0 Hl0 Hr0 Hin. apply Hcl; [done..|]. by right.
      - rewrite queue_at_push, fmap_app, elem_of_app by lia. destruct Hy as [Hy| ->]; [by left|right; cbn; left]. }
    destruct (Hcl l r p Hl Hr ltac:(left) (IHq _ (or_intror eq_refl))) as [Pl Pr].
    destruct (queue_taken _ _ i _ _ _ _ _ _ x N1 Hx) as [->|Hx1]; [done|].
    destruct N2 as [(p' & N2 & _)|(_ & -> & -> & _)]; [|apply IHq; by left].
    destruct (queue_taken _ _ i _ _ _ _ _ _ x N2 Hx1) as [->|Hx2]; [done|]. apply IHq. by left.
Qed.

(** Otherwise the last step took a hash that was not computed yet. *)
Lemma trace_ahead ls ps fl i hs hp lp pp inputs hs' hp' lp' pp' : fl ≠ [] →
  verify_trace ls ps fl i hs hp lp pp = Some (inputs, hs', hp', lp', pp') → len32 ls → len32 ps → len32 hs →
  (lp < length ls → hp = 0)%nat → (i + length fl = length hs)%nat → (length hs ≤ hp')%nat →
  (∀ j, (i ≤ j < length hs)%nat → hs !! j = Some default_hash) →
  ∃ l r p, length l = 32%nat ∧ length r = 32%nat ∧ pair_buffer l r p ∈ inputs ∧ last hs' = Some (hash_pair l r p) ∧
    (l = default_hash ∨ r = default_hash).
Proof using L.
  revert i hs hp lp pp inputs. induction fl as [|f fl IH]; intros i hs hp lp pp inputs Hne Ht Hls Hps Hhs H0 Hi Hhp' Hun; [done|].
  apply verify_trace_step in Ht as (l & r & p & hp1 & lp1 & hp2 & lp2 & pp2 & inputs' & N1 & N2 & -> & Ht').
  destruct (step_len _ _ _ _ _ _ _ _ _ _ _ _ _ _ Hls Hps Hhs N1 N2) as [Hl Hr]. cbn [length] in Hi.
  destruct fl as [|f' fl].
  - cbn in Ht'. injection Ht' as <- <- <- <- <-. exists l, r, p. cbn in Hi. split_and!; [done..|left| |].
    + rewrite last_lookup, length_insert. replace (Nat.pred (length hs)) with i by lia. apply list_lookup_insert_eq. lia.
    + assert (Hread : ∀ j h, hs !! j = Some h → (length hs ≤ S j)%nat → h = default_hash).
      { intros j h Hj Hle. pose proof (lookup_lt_Some _ _ _ Hj). rewrite (Hun j) in Hj by lia. by injection Hj. }
      apply next_hash_inv in N1. destruct N2 as [(p' & N2%next_hash_inv & _)|(_ & -> & -> & _)].
      * destruct N2 as [(? & ? & -> & ->)|(? & Hr' & -> & ->)]; [lia|]. right. apply (Hread _ _ Hr'). done.
      * destruct N1 as [(? & ? & -> & ->)|(? & Hl' & -> & ->)]; [lia|]. left. by apply (Hread _ _ Hl').
  - destruct (IH (S i) (<[i := hash_pair l r p]> hs) hp2 lp2 pp2 inputs') as (l' & r' & p' & ? & ? & ? & ? & ?);
      rewrite ?length_insert; try done; [by apply len32_insert; [|apply hash_pair_len]| |lia| |].
    + apply next_hash_inv in N1. destruct N2 as [(p' & N2%next_hash_inv & _)|(_ & -> & -> & _)]; lia.
    + intros j Hj. rewrite list_lookup_insert_ne by lia. apply Hun. lia.
    + exists l', r', p'. split_and!; try done. by right.
Qed.

(** ** The nodes of a tree *)

Lemma next_level_len p hs : len32 (next_level p hs).
Proof using L. apply Forall_fmap, Forall_forall. intros x _. apply hash_pair_len. Qed.
Lemma default_len : length default_hash = 32%nat.
Proof using Type. done. Qed.

(** A node is a leaf or the hash of two nodes. *)
Lemma tree_nodes_inv fuel p hs v : len32 hs → v ∈ tree_nodes fuel p hs → v ∈ hs ∨
  ∃ a b q, v = hash_pair a b q ∧ length a = 32%nat ∧ length b = 32%nat ∧ pair_buffer a b q ∈ tree_inputs fuel p hs ∧
    (a = default_hash ∨ a ∈ tree_nodes fuel p hs) ∧ (b = default_hash ∨ b ∈ tree_nodes fuel p hs).
Proof using L.
  revert p hs. induction fuel as [|fuel IH]; intros p hs Hhs; destruct hs as [|x [|y hs]];
    try (cbn [tree_nodes]; rewrite app_nil_r; by left).
  set (l := x :: y :: hs) in *. change (tree_nodes (S fuel) p l) with (l ++ tree_nodes fuel POOL_ROOT_PREFIX_NON_LEAF (next_level p l)).
  change (tree_inputs (S fuel) p l) with (((λ x, pair_buffer x.1 x.2 p) <$> chunks2 default_hash l) ++ tree_inputs fuel POOL_ROOT_PREFIX_NON_LEAF (next_level p l)).
  intros [Hv|Hv]%elem_of_app; [by left|]. right.
  destruct (IH _ _ (next_level_len p l) Hv) as [Hn|(a & b & q & -> & Ha & Hb & Hin & Hna & Hnb)].
  - apply list_elem_of_fmap in Hn as ([a b] & -> & Hab). destruct (chunks2_elem _ _ _ _ Hab) as [Hal Hbl]. rewrite Forall_forall in Hhs.
    exists a, b, p. split_and!; [done|by apply Hhs|destruct Hbl as [Hbl| ->]; [by apply Hhs|done]| | |].
    + apply elem_of_app. left. apply list_elem_of_fmap. by exists (a, b).
    + right. apply elem_of_app. by left.
    + destruct Hbl; [right; apply elem_of_app; by left|by left].
  - exists a, b, q. rewrite !elem_of_app. split_and!; try done; [by right|destruct Hna; tauto|destruct Hnb; tauto].
Qed.

Lemma root_in_nodes fuel p hs r : hs ≠ [] → root_loop fuel p hs = Some r → r ∈ tree_nodes fuel p hs.
Proof using Type.
  revert p hs. induction fuel as [|fuel IH]; intros p hs Hne Hr; destruct hs as [|x [|y hs]]; try done;
    try (cbn in Hr; injection Hr as <-; cbn [tree_nodes]; rewrite app_nil_r; left).
  set (l := x :: y :: hs) in *. change (tree_nodes (S fuel) p l) with (l ++ tree_nodes fuel POOL_ROOT_PREFIX_NON_LEAF (next_level p l)).
  apply elem_of_app. right. apply IH; [done|exact Hr].
Qed.

(** Two nodes other than the filling make the root of a tree of two leaves or more. *)
Lemma root_children fuel p hs r : (2 ≤ length hs)%nat → len32 hs → root_loop fuel p hs = Some r → default_hash ∉ hs →
  (∀ b, b ∈ tree_inputs fuel p hs → keccak_hash b ≠ default_hash) →
  ∃ a b q, r = hash_pair a b q ∧ length a = 32%nat ∧ length b = 32%nat ∧ pair_buffer a b q ∈ tree_inputs fuel p hs ∧
    a ≠ default_hash ∧ b ≠ default_hash.
Proof using L.
  revert p hs. induction fuel as [|fuel IH]; intros p hs H2 Hhs Hr Hd Hk; [destruct hs as [|x [|y hs]]; cbn in *; (lia || done)|].
  rewrite root_loop_step in Hr by done.
  assert (Hin : tree_inputs (S fuel) p hs = ((λ x, pair_buffer x.1 x.2 p) <$> chunks2 default_hash hs) ++ tree_inputs fuel POOL_ROOT_PREFIX_NON_LEAF (next_level p hs))
    by (destruct hs as [|x [|y hs]]; cbn in H2; (lia || done)).
  rewrite Hin in Hk |- *. destruct (decide (2 ≤ length (next_level p hs))%nat) as [Hn|Hn].
  - destruct (IH _ _ Hn (next_level_len p hs) Hr) as (a & b & q & -> & Ha & Hb & Hi & Hda & Hdb).
    + intros ([x y] & Hx & Hxy)%list_elem_of_fmap. apply (Hk (pair_buffer x y p)); [|done]. apply elem_of_app. left. apply list_elem_of_fmap. by exists (x, y).
    + intros b Hb. apply Hk, elem_of_app. by right.
    + exists a, b, q. split_and!; try done. apply elem_of_app. by right.
  - pose proof (chunks2_pos default_hash hs H2) as Hpos. rewrite length_fmap in Hn.
    destruct (chunks2 default_hash hs) as [|[a b] [|]] eqn:Ec; cbn in Hn, Hpos; try lia. apply chunks2_one in Ec; [|done]. subst hs.
    cbn in Hr. exists a, b, p. apply not_elem_of_cons in Hd as [Hda [Hdb _]%not_elem_of_cons]. rewrite !Forall_cons in Hhs. destruct Hhs as (Ha & Hb & _).
    split_and!; try done; [destruct fuel; by injection Hr|]. apply elem_of_app. left. left.
Qed.

(** ** Accepted proofs name members *)

Definition inserted (ops : list PoolOp) : list PendingTransfer :=
  omap (λ op, match op with PoolInsert x _ => Some x | PoolDelete _ => None end) ops.
Definition encodings (l : list PendingTransfer) : list bytes := (λ x, abi_encode (tokenize x)) <$> l.
Definition tree_hashed (t : BridgePoolTree) : list bytes := tree_inputs (length (leaf_hashes t)) POOL_ROOT_PREFIX_LEAF (leaf_hashes t).
(** No two of the strings have the same digest, and none has the digest that fills up a level. *)
Definition collision_free (l : list bytes) : Prop :=
  (∀ x y, x ∈ l → y ∈ l → keccak_hash x = keccak_hash y → x = y) ∧ ∀ x, x ∈ l → keccak_hash x ≠ default_hash.

Lemma history_inserted ops h : is_Some (pool_history ops !! h) → ∃ x, x ∈ inserted ops ∧ h = keccak256 x.
Proof using Type.
  unfold pool_history. induction ops as [|op ops IH] using rev_ind; [by intros [? ?]|]. rewrite foldl_snoc. unfold inserted. rewrite omap_app. intros Hh.
  assert (is_Some (foldl pool_step ∅ ops !! h) ∨ ∃ x v, op = PoolInsert x v ∧ h = keccak256 x) as [H|(x & v & -> & ->)].
  { destruct op as [x v|x]; cbn in Hh.
    - apply lookup_insert_is_Some in Hh as [<-|[_ Hh]]; [right; eauto|by left].
    - apply lookup_delete_is_Some in Hh as [_ Hh]. by left. }
  - destruct (IH H) as (x & Hx & ->). exists x. split; [|done]. apply elem_of_app. by left.
  - exists x. split; [|done]. apply elem_of_app. right. cbn. left.
Qed.
Lemma encoding_not_pair x l r p : length l = 32%nat → length r = 32%nat → abi_encode (tokenize x) ≠ pair_buffer l r p.
Proof using L. intros Hl Hr Heq. pose proof (abi_words (tokenize x)) as H. rewrite Heq, pair_buffer_length in H by done. done. Qed.

(** A tree of transfers, and the strings hashed for it and by a verification. *)
Section members.
Context (t : BridgePoolTree) (S : list bytes).
Hypothesis (Hroot : compute_root t = Some (root t)) (Hleaf : ∀ h, h ∈ leaf_hashes t → ∃ x, h = keccak256 x ∧ abi_encode (tokenize x) ∈ S).
Hypothesis (Htree : ∀ b, b ∈ tree_hashed t → b ∈ S) (Hfree : collision_free S).

Definition tree_node (v : KeccakHash) : Prop := v = default_hash ∨ v ∈ tree_nodes (length (leaf_hashes t)) POOL_ROOT_PREFIX_LEAF (leaf_hashes t).

Lemma leaf_len : len32 (leaf_hashes t).
Proof using L Hleaf. apply Forall_forall. intros h (x & -> & _)%Hleaf. apply keccak_len. Qed.
Lemma leaf_not_default : default_hash ∉ leaf_hashes t.
Proof using Hleaf Hfree. intros (x & Hd & Hx)%Hleaf. destruct Hfree as [_ Hz]. by apply (Hz _ Hx). Qed.
Lemma leaf_not_pair h l r p : h ∈ leaf_hashes t → length l = 32%nat → length r = 32%nat → pair_buffer l r p ∈ S → h ≠ hash_pair l r p.
Proof using L Hleaf Hfree.
  intros (x & -> & Hx)%Hleaf Hl Hr Hb Heq. destruct Hfree as [Hinj _]. exact (encoding_not_pair x l r p Hl Hr (Hinj _ _ Hx Hb Heq)).
Qed.

Lemma tree_node_children l r p : length l = 32%nat → length r = 32%nat → pair_buffer l r p ∈ S → tree_node (hash_pair l r p) → tree_node l ∧ tree_node r.
Proof using L Hleaf Htree Hfree.
  intros Hl Hr Hb Hn. destruct Hfree as [Hinj Hz]. destruct Hn as [Hd|Hn]; [by destruct (Hz _ Hb)|].
  apply tree_nodes_inv in Hn as [Hn|(a & b & q & Heq & Ha & Hb' & Hin & Hna & Hnb)]; [by destruct (leaf_not_pair _ _ _ _ Hn Hl Hr Hb)| |apply leaf_len].
  apply Hinj in Heq; [|done|by apply Htree]. by destruct (pair_buffer_inj _ _ _ _ _ _ Hl Hr Ha Hb' Heq) as [[-> ->]|[-> ->]].
Qed.
Lemma root_node : tree_node (root t).
Proof using Hroot.
  destruct (decide (leaf_hashes t = [])) as [Hn|Hn].
  - left. unfold compute_root in Hroot. rewrite Hn in Hroot. cbn in Hroot. by injection Hroot.
  - right. by apply root_in_nodes.
Qed.
(** A transfer among the nodes is a leaf. *)
Lemma node_is_leaf x : abi_encode (tokenize x) ∈ S → tree_node (keccak256 x) → is_Some (leaves t !! keccak256 x).
Proof using L Hleaf Htree Hfree.
  intros Hx Hn. destruct Hfree as [Hinj Hz]. destruct Hn as [Hd|Hn]; [by destruct (Hz _ Hx)|].
  apply tree_nodes_inv in Hn as [Hn|(a & b & q & Heq & Ha & Hb & Hin & _)]; [by apply elem_of_leaf_hashes| |apply leaf_len].
  destruct (encoding_not_pair x a b q Ha Hb). apply Hinj; [done|by apply Htree|done].
Qed.
(** The root is not the hash of a pair with the filling. *)
Lemma root_not_filled l r p : length l = 32%nat → length r = 32%nat → pair_buffer l r p ∈ S → l = default_hash ∨ r = default_hash → root t ≠ hash_pair l r p.
Proof using L Hroot Hleaf Htree Hfree.
  intros Hl Hr Hb Hd Heq. destruct Hfree as [Hinj Hz]. unfold compute_root in Hroot.
  destruct (decide (2 ≤ length (leaf_hashes t))%nat) as [H2|H2].
  - destruct (root_children _ _ _ _ H2 leaf_len Hroot leaf_not_default) as (a & b & q & Hr' & Ha & Hb' & Hin & Hda & Hdb); [intros c Hc; by apply Hz, Htree|].
    rewrite Heq in Hr'. apply Hinj in Hr'; [|done|by apply Htree].
    destruct (pair_buffer_inj _ _ _ _ _ _ Hl Hr Ha Hb' Hr') as [[-> ->]|[-> ->]]; by destruct Hd.
  - assert (leaf_hashes t = [] ∨ ∃ h, leaf_hashes t = [h]) as [El|[h El]]
      by (clear -H2; destruct (leaf_hashes t) as [|h [|]]; cbn in H2; [by left|right; by exists h|lia]); pose proof Hroot as Hh; rewrite El in Hh; injection Hh as Hh.
    + apply (Hz _ Hb). by rewrite Hh.
    + refine (leaf_not_pair h l r p _ Hl Hr Hb _); [rewrite El; left|by rewrite Hh].
Qed.
End members.

(** What an accepted proof has passed. *)
Lemma verify_true p r : verify p r = Some true → (length (proof p) + length (pr_leaves p) = length (flags p) + 1)%nat ∧
  (flags p = [] → ∀ x, x ∈ pr_leaves p → keccak256 x = r) ∧
  (flags p ≠ [] → ∃ inputs hs hp lp pp, last hs = Some r ∧ proof_inputs p = inputs ∧
     verify_trace (keccak256 <$> pr_leaves p) (proof p) (flags p) 0 (replicate (length (flags p)) default_hash) 0 0 0 = Some (inputs, hs, hp, lp, pp)).
Proof using Type.
  unfold verify, proof_inputs. destruct (Nat.eqb_spec (length (proof p) + length (pr_leaves p)) (length (flags p) + 1)) as [Hlen|]; [|done]. cbn [negb]. intros Hv.
  split; [done|]. split.
  - intros Ef x Hx. rewrite Ef in Hv, Hlen. destruct (pr_leaves p) as [|y [|]]; [by apply elem_of_nil in Hx| |cbn in Hlen; lia].
    apply list_elem_of_singleton in Hx as ->. cbn in Hv. by injection Hv as ->%bool_decide_eq_true.
  - intros Ef. destruct (flags p) as [|f fl]; [done|]. rewrite verify_loop_trace in Hv.
    destruct (verify_trace _ _ _ _ _ _ _ _) as [[[[[inputs hs] hp] lp] pp]|]; [|done]. cbn in Hv. exists inputs, hs, hp, lp, pp. split; [|done].
    destruct (last hs); [|done]. by injection Hv as ->%bool_decide_eq_true.
Qed.

(** C4. No proof convinces [verify] of a transfer that is not in the pool.  Whatever
    was put into the pool and taken out of it, if no two of the strings that
    are hashed for the transfers, for the tree and by the verification have the same
    digest, and none the digest of zeros, then the transfers of a proof that is accepted against the
    root are all in the pool. *)
Theorem accepted_proofs_name_members ops t p :
  run_pool ops default_tree = (t, Ok ()) → len32 (proof p) →
  collision_free (encodings (inserted ops ++ pr_leaves p) ++ tree_hashed t ++ proof_inputs p) →
  verify p (root t) = Some true → ∀ x, x ∈ pr_leaves p → is_Some (pool_history ops !! keccak256 x).
Proof using L.
  intros Hrun Hps Hfree Hv x Hx. destruct (run_pool_run ops default_tree) as (t' & R & Hl & Hc). rewrite Hrun in R. injection R as <-.
  specialize (Hc ltac:(done)). change (foldl pool_step (leaves default_tree) ops) with (pool_history ops) in Hl. rewrite <-Hl.
  set (S := encodings (inserted ops ++ pr_leaves p) ++ tree_hashed t ++ proof_inputs p) in *.
  assert (HS : ∀ y, y ∈ inserted ops ∨ y ∈ pr_leaves p → abi_encode (tokenize y) ∈ S).
  { intros y Hy. apply elem_of_app. left. apply list_elem_of_fmap. exists y. split; [done|]. by apply elem_of_app. }
  assert (Hleaf : ∀ h, h ∈ leaf_hashes t → ∃ y, h = keccak256 y ∧ abi_encode (tokenize y) ∈ S).
  { intros h Hh%elem_of_leaf_hashes. rewrite Hl in Hh. apply history_inserted in Hh as (y & Hy & ->). exists y. split; [done|]. apply HS. by left. }
  assert (Htree : ∀ b, b ∈ tree_hashed t → b ∈ S) by (intros b Hb; unfold S; rewrite !elem_of_app; tauto).
  assert (Hproof : ∀ b, b ∈ proof_inputs p → b ∈ S) by (intros b Hb; unfold S; rewrite !elem_of_app; tauto).
  apply (node_is_leaf t S Hleaf Htree Hfree); [apply HS; by right|]. pose proof (root_node t Hc) as Hrn.
  destruct (verify_true _ _ Hv) as (Hlen & Hnone & Hsome). destruct (decide (flags p = [])) as [Ef|Ef]; [by rewrite (Hnone Ef x Hx)|].
  destruct (Hsome Ef) as (inputs & hs' & hp' & lp' & pp' & Hlast & Hpi & Ht). rewrite Hpi in Hproof.
  assert (Hkeccak : len32 (keccak256 <$> pr_leaves p)) by (apply Forall_fmap, Forall_forall; intros y _; apply keccak_len).
  assert (Hrep : len32 (replicate (length (flags p)) default_hash)) by (by apply Forall_replicate).
  destruct (verify_trace_counts _ _ _ _ _ _ _ _ _ _ _ _ _ Ht ltac:(lia) ltac:(lia)) as [(Hcnt & Hlp & Hpp & _) _]. rewrite length_fmap in Hlp.
  destruct (decide (length (flags p) ≤ hp')%nat) as [Hahead|Hok].
  - destruct (trace_ahead _ _ _ _ _ _ _ _ _ _ _ _ _ Ef Ht Hkeccak Hps Hrep) as (l & r & q & Hll & Hrl & Hin & Hlast' & Hd);
      rewrite ?length_replicate; try (done || lia).
    { intros j Hj. apply lookup_replicate. split; [done|lia]. }
    rewrite Hlast in Hlast'. injection Hlast' as Heq. by destruct (root_not_filled t S Hc Hleaf Htree Hfree l r q Hll Hrl (Hproof _ Hin) Hd).
  - apply (trace_closed (tree_node t) _ _ _ _ _ _ _ _ _ _ _ _ _ Ht Hkeccak Hps Hrep); rewrite ?length_replicate, ?length_fmap; try lia.
    + intros l r q Hll Hrl Hin. apply (tree_node_children t S Hleaf Htree Hfree l r q Hll Hrl). by apply Hproof.
    + rewrite Hlast. by intros y [= <-].
    + unfold queue_at. rewrite drop_0, fmap_app, elem_of_app, <-list_fmap_compose. left. cbn. rewrite list_fmap_id. by apply list_elem_of_fmap_2.
Qed.
End pool_theory.

(** [verify] does not refuse every malformed proof: one without leaves, of two hashes
    and one flag that is set, passes the test of lengths and then makes it panic. *)
Theorem malformed_proof_panics {AA : AddressApi} {E : EthApi AA} (a b r : KeccakHash) : verify (mk_proof [a; b] [] [true]) r = None.
Proof. reflexivity. Qed.

(** ** A concrete instance and examples *)

Fixpoint be_bytes (n : nat) (z : Z) : bytes := match n with O => [] | S n => be_bytes n (z / 256) ++ [z mod 256] end.
Lemma be_bytes_spec n z : length (be_bytes n z) = n ∧ Forall is_byte (be_bytes n z).
Proof.
  revert z. induction n as [|n IH]; intros z; [done|]. cbn. destruct (IH (z / 256)) as [Hl Hb]. rewrite length_app, Hl. split; [cbn; lia|].
  apply Forall_app. split; [done|]. constructor; [|done]. apply Z.mod_pos_bound. lia.
Qed.
Definition bytes_number (b : bytes) : Z := 1 + foldl (λ acc x, (acc * 31 + x + 1) mod 65521) 7 b.
Definition token_word (x : AbiToken) : bytes :=
  be_bytes 32 (match x with
               | TokUint n => n
               | TokString s => bytes_number (Z.of_nat ∘ nat_of_ascii <$> s)
               | TokAddress a => bytes_number a
               | TokFixedBytes b => bytes_number b
               end).
Definition unhex (c : ascii) : option Z :=
  let n := Z.of_nat (nat_of_ascii c) in
  if (48 <=? n) && (n <=? 57) then Some (n - 48) else if (65 <=? n) && (n <=? 70) then Some (n - 55) else None.
Fixpoint hex_decode (s : text) : option bytes :=
  match s with
  | [] => Some []
  | a :: b :: s => x ← unhex a; y ← unhex b; r ← hex_decode s; Some (16 * x + y :: r)
  | _ => None
  end.
Lemma unhex_digit d : 0 ≤ d < 16 → unhex (hex_digit d) = Some d.
Proof.
  intros Hd. assert (H : Forall (λ d, unhex (hex_digit d) = Some d) (seqZ 0 16)) by (repeat constructor).
  rewrite Forall_forall in H. apply H, elem_of_seqZ. lia.
Qed.
Lemma hex_decode_printed h : Forall is_byte h → hex_decode (hash_to_string h) = Some h.
Proof.
  induction 1 as [|b h Hb _ IH]; [done|]. unfold is_byte in Hb. change (hash_to_string (b :: h)) with (hex_digit (b / 16) :: hex_digit (b mod 16) :: hash_to_string h).
  cbn [hex_decode]. rewrite !unhex_digit by (split; [apply Z.div_pos || apply Z.mod_pos_bound|apply Z.div_lt_upper_bound || apply Z.mod_pos_bound]; lia).
  cbn [mbind option_bind]. rewrite IH. cbn. f_equal. f_equal. pose proof (Z.div_mod b 16). lia.
Qed.

Definition eth_ref : EthApi addr_ref := {|
  keccak_hash b := be_bytes 32 (bytes_number b);
  abi_encode ts := ts ≫= token_word;
  appendix_digest a := be_bytes 32 (Z.of_N (ap_sender a) * 256 + fee_amount (ap_gas_fee a));
  hexupper_decode := hex_decode;
  bridge_pool_address := 9%N;
|}.
Lemma eth_ref_laws : EthLaws addr_ref eth_ref.
Proof.
  split.
  - intros b. exact (proj1 (be_bytes_spec 32 (bytes_number b))).
  - intros b. exact (proj2 (be_bytes_spec 32 (bytes_number b))).
  - intros ts. change (abi_encode ts) with (ts ≫= token_word). assert (H : length (ts ≫= token_word) = (length ts * 32)%nat).
    { induction ts as [|x ts IH]; [done|]. rewrite bind_cons, length_app, IH. unfold token_word.
      rewrite (proj1 (be_bytes_spec 32 _)). cbn [length]. lia. }
    rewrite H. apply Nat.Div0.mod_mul.
  - exact hex_decode_printed.
Qed.

Definition example_transfer (n : Z) : PendingTransfer (AA:=addr_ref) := mk_pending (mk_transfer Erc20 [1; 2; 3] [4; 5; n] 12%N (100 * n)) (mk_gas_fee n 12%N 20%N).
Definition example_pool_ops : list (PoolOp (AA:=addr_ref)) :=
  (λ n, PoolInsert (example_transfer n) n) <$> [1; 2; 3].
Definition example_members : list (PendingTransfer (AA:=addr_ref)) := example_transfer <$> [3; 1].

Lemma pool_proofs_verify_witness : ∃ t p, for_each (run_pool_op (E:=eth_ref)) example_pool_ops default_tree = (t, Ok ()) ∧
  get_membership_proof (E:=eth_ref) t example_members = Ok p ∧ verify (E:=eth_ref) p (root t) = Some true.
Proof.
  destruct (pool_proofs_verify (E:=eth_ref) (L:=eth_ref_laws) example_pool_ops example_members) as (t & R & Hl & _ & Hp).
  rewrite decide_True in Hp by (apply (bool_decide_unpack _); vm_compute; exact Logic.I).
  destruct Hp as (p & Hp & _ & Hv). exists t, p. split; [exact R|]. split; [exact Hp|]. rewrite Hv. vm_compute. reflexivity.
Defined.

Definition example_tree : BridgePoolTree := (for_each (run_pool_op (E:=eth_ref)) example_pool_ops default_tree).1.
Definition example_proof : BridgePoolProof (AA:=addr_ref) :=
  match get_membership_proof (E:=eth_ref) example_tree example_members with Ok p => p | _ => mk_proof [] [] [] end.
Lemma collision_free_check {AA : AddressApi} (E : EthApi AA) (l : list bytes) :
  forallb (λ x, forallb (λ y, implb (bool_decide (keccak_hash x = keccak_hash y)) (bool_decide (x = y))) l && negb (bool_decide (keccak_hash x = default_hash))) l
    = true → collision_free (E:=E) l.
Proof.
  rewrite forallb_forall. intros H. split.
  - intros x y Hx Hy He. specialize (H x (proj1 (list_elem_of_In _ _) Hx)). apply andb_prop in H as [H _]. rewrite forallb_forall in H.
    specialize (H y (proj1 (list_elem_of_In _ _) Hy)). rewrite (bool_decide_true _ He) in H. by apply bool_decide_eq_true in H.
  - intros x Hx. specialize (H x (proj1 (list_elem_of_In _ _) Hx)). apply andb_prop in H as [_ H]. by apply negb_true_iff, bool_decide_eq_false in H.
Qed.

Lemma accepted_proofs_name_members_witness :
  verify (E:=eth_ref) example_proof (root example_tree) = Some true ∧
  is_Some (pool_history (E:=eth_ref) example_pool_ops !! keccak256 (E:=eth_ref) (example_transfer 3)).
Proof.
  assert (Hv : verify (E:=eth_ref) example_proof (root example_tree) = Some true) by (vm_compute; reflexivity). split; [exact Hv|].
  apply (accepted_proofs_name_members (E:=eth_ref) (L:=eth_ref_laws) example_pool_ops example_tree example_proof).
  - apply injective_projections; [reflexivity|vm_compute; reflexivity].
  - apply (bool_decide_unpack _). vm_compute. exact Logic.I.
  - apply collision_free_check. vm_compute. reflexivity.
  - exact Hv.
  - apply (bool_decide_unpack _). vm_compute. exact Logic.I.
Defined.
