(* ===== verification/EthVotes.v ===== *)
(** * Votes of validators on Ethereum events

    Models the tallies of [ethereum_bridge/src/protocol/transactions]: [votes.rs],
    [votes/update.rs], [votes/storage.rs], [utils.rs], and the updates and timeouts of
    [ethereum_events/mod.rs].  A tally is kept under five storage keys, which are
    five maps here.  What proof of stake knows of epochs and stakes is the interface
    [BridgePos], and the product of a ratio of 256-bit integers the interface [URatioApi].
    The properties are that a tally counts every validator once, that an event is
    confirmed at most once, and that a quorum over several epochs is weaker
    than its comment says. *)

From S2P Require Import Prelude Words Uint Decimal I256 Dec Token StorageKey BTree Epochs.

Abbreviation BlockHeight := Z.

(** ** Interfaces *)

Class BridgePos (A : AddressApi) : Type := {
  get_epoch : BlockHeight → option Epoch;
  get_total_voting_power : Epoch → Z;
  (** The addresses and bonded stakes of the consensus validators, in order. *)
  get_consensus_validators : Epoch → list (Address * Z);
}.

(** [num_rational]: [(Ratio(n, d) * x).to_integer()]; [None] is a panic.  What it returns
    is the product, and it returns when [x] is not zero.  Nothing is assumed of its success at
    zero: the product is reduced by [gcd], and that of [Uint] is zero when an argument is. *)
Class URatioApi : Type := { uratio_mul_to_integer : Z → Z → Z → option Z }.
Class URatioLaws (R : URatioApi) : Prop := {
  uratio_mul_value n d x r : 0 ≤ n → 0 < d → 0 ≤ x → n * x < 2 ^ 256 → d < 2 ^ 256 →
    uratio_mul_to_integer n d x = Some r → r = n * x / d;
  uratio_mul_total n d x : 0 ≤ n → 0 < d → 0 < x → n * x < 2 ^ 256 → d < 2 ^ 256 →
    is_Some (uratio_mul_to_integer n d x);
}.
(** An instance that panics at zero. *)
#[export] Instance uratio_ref : URatioApi := {
  uratio_mul_to_integer n d x := p ← chk 256 (n * x); if (d =? 0) || (x =? 0) then None else Some (p / d) }.
#[export] Instance uratio_ref_laws : URatioLaws uratio_ref.
Proof.
  split; intros n d x; [intros r|]; intros Hn Hd Hx Hp _; cbn; rewrite chk_in by nia; runo; rewrite (proj2 (Z.eqb_neq d 0)) by lia; cbn [orb].
  - destruct (x =? 0); [done|]. by intros [= <-].
  - rewrite (proj2 (Z.eqb_neq x 0)) by lia. eauto.
Qed.

Lemma uratio_mul_run {R : URatioApi} {RL : URatioLaws R} n d x : 0 ≤ n → 0 < d → 0 < x → n * x < 2 ^ 256 → d < 2 ^ 256 →
  uratio_mul_to_integer n d x = Some (n * x / d).
Proof.
  intros. destruct (uratio_mul_total n d x) as [r Hr]; [done..|]. rewrite Hr. f_equal. apply (uratio_mul_value n d x r); try done. lia.
Qed.

(** ** Fractions of voting power *)

Record FractionalVotingPower : Type := mk_frac { frac_numer : Z; frac_denom : Z }.
Definition TWO_THIRDS : FractionalVotingPower := mk_frac 2 3.
Definition ONE_THIRD : FractionalVotingPower := mk_frac 1 3.
Definition WHOLE : FractionalVotingPower := mk_frac 1 1.
Definition NULL : FractionalVotingPower := mk_frac 0 1.
(** The order of [Ratio] is that of the fractions. *)
Definition frac_gt (a b : FractionalVotingPower) : bool := frac_numer b * frac_denom a <? frac_numer a * frac_denom b.
(** A [Ratio] is reduced when it is made. *)
Definition frac_new (numer denom : Z) : option FractionalVotingPower :=
  if denom =? 0 then None
  else let ratio := mk_frac (numer / Z.gcd numer denom) (denom / Z.gcd numer denom) in
       if frac_gt ratio WHOLE then None else Some ratio.
Definition checked_mul_amount {R : URatioApi} (f : FractionalVotingPower) (v : Z) : option Z :=
  if frac_gt f WHOLE then None else uratio_mul_to_integer (frac_numer f) (frac_denom f) v.

(** ** Tallies *)

Section votes.
Context {A : AddressApi} {OA : CmpOrder Address} {P : BridgePos A} {R : URatioApi}.

Abbreviation Votes := (gmap Address BlockHeight).
Abbreviation EpochedVotingPower := (gmap Epoch Z).
Abbreviation VotingPowers := (gmap (Address * BlockHeight) Z).

Inductive VoteError : Type :=
| NoVotingPower (validator : Address)
| PowerOverflow
| AlreadyVoted (validator : Address)
| NoValueFound
| NoConsensusValidators (height : BlockHeight)
| NotAConsensusValidator (a : Address).

(** [Iterator::max] *)
Definition epoch_max_voting_power (vp : EpochedVotingPower) : option Z :=
  match (λ x, get_total_voting_power x.1) <$> kvs vp with
  | [] => None
  | x :: l => Some (foldl Z.max x l)
  end.
Definition tallied_stake (vp : EpochedVotingPower) : res VoteError Z := expect (ZAmount.sum (snd <$> kvs vp)).
Definition fractional_stake (vp : EpochedVotingPower) : res VoteError FractionalVotingPower :=
  match epoch_max_voting_power vp with
  | None => Ok NULL
  | Some max_voting_power => stake ← tallied_stake vp; expect (frac_new stake max_voting_power)
  end.
Definition has_majority_quorum (vp : EpochedVotingPower) : res VoteError bool :=
  match epoch_max_voting_power vp with
  | None => Ok false
  | Some max_voting_power =>
      threshold ← expect (checked_mul_amount TWO_THIRDS max_voting_power);
      stake ← tallied_stake vp;
      Ok (threshold <? stake)
  end.

Record Tally : Type := mk_tally { voting_power : EpochedVotingPower; seen_by : Votes; seen : bool }.

(** The power of a vote goes to the epoch of its height. *)
Definition aggregate (vp : EpochedVotingPower) (height : BlockHeight) (power : Z) : res VoteError EpochedVotingPower :=
  epoch ← expect (get_epoch height);
  aggregated ← ok_or (ZAmount.add (default 0 (vp !! epoch)) power) PowerOverflow;
  Ok (<[epoch := aggregated]> vp).

Definition calculate_new (seen_by : Votes) (voting_powers : VotingPowers) : res VoteError Tally :=
  seen_by_voting_power ← try_fold (λ vp '(validator, block_height),
    match voting_powers !! (validator, block_height) with
    | Some power => aggregate vp block_height power
    | None => Err (NoVotingPower validator)
    end) ∅ (kvs seen_by);
  newly_confirmed ← has_majority_quorum seen_by_voting_power;
  Ok (mk_tally seen_by_voting_power seen_by newly_confirmed).

(** The signers are an ordered set; collecting it from the end, the smallest height
    of an address is inserted last. *)
Definition dedupe (signers : list (Address * BlockHeight)) : Votes :=
  foldl (λ votes x, <[x.1 := x.2]> votes) ∅ (reverse signers).

(** ** New votes: [update.rs] *)

(** An [IndexMap] is the list of its entries, in the order of insertion;
    [swap_remove] puts the last entry in place of the removed one. *)
Abbreviation NewVotes := (list (Address * (BlockHeight * Z))).
Fixpoint index_insert (a : Address) (v : BlockHeight * Z) (l : NewVotes) : NewVotes :=
  match l with
  | [] => [(a, v)]
  | x :: l => if decide (x.1 = a) then (a, v) :: l else x :: index_insert a v l
  end.
Definition swap_remove (a : Address) (l : NewVotes) : option NewVotes :=
  match list_find (λ x, x.1 = a) l with
  | None => None
  | Some (i, _) =>
      match last l with
      | Some y => Some (if (i =? length l - 1)%nat then take i l else take (length l - 1) (<[i := y]> l))
      | None => None
      end
  end.

Definition new_votes (votes : Votes) (voting_powers : VotingPowers) : res VoteError NewVotes :=
  try_fold (λ inner '(address, block_height),
    match voting_powers !! (address, block_height) with
    | Some power => Ok (index_insert address (block_height, power) inner)
    | None => Err (NoVotingPower address)
    end) [] (kvs votes).
Definition without_voters (voters : list Address) (inner : NewVotes) : NewVotes * gset Address :=
  foldl (λ '(inner, removed) voter,
    match swap_remove voter inner with Some inner => (inner, {[voter]} ∪ removed) | None => (inner, removed) end)
    (inner, ∅) voters.

Definition apply (tally : Tally) (vote_info : NewVotes) : res VoteError Tally :=
  '(voting_power_post, seen_by_post) ← try_fold (λ '(vp, by_) '(validator, (vote_height, power)),
    match by_ !! validator with
    | Some _ => Err (AlreadyVoted validator)
    | None => vp ← aggregate vp vote_height power; Ok (vp, <[validator := vote_height]> by_)
    end) (voting_power tally, seen_by tally) vote_info;
  seen_post ← has_majority_quorum voting_power_post;
  Ok (mk_tally voting_power_post seen_by_post seen_post).

(** ** Storage: [votes/storage.rs] *)

(** The keys of a tally differ in their last segment. *)
Inductive KeysSegments : Type := KBody | KSeen | KSeenBy | KVotingPower | KVotingStartedEpoch.
#[export] Instance KeysSegments_eq_dec : EqDecision KeysSegments.
Proof using Type. solve_decision. Defined.
#[export] Instance KeysSegments_countable : Countable KeysSegments.
Proof using Type.
  refine (inj_countable' (λ k, match k with KBody => 0 | KSeen => 1 | KSeenBy => 2 | KVotingPower => 3 | KVotingStartedEpoch => 4 end)
    (λ n, match n with 0 => KBody | 1 => KSeen | 2 => KSeenBy | 3 => KVotingPower | _ => KVotingStartedEpoch end) _).
  by intros [].
Defined.
Definition all_segments : list KeysSegments := [KBody; KSeen; KSeenBy; KVotingPower; KVotingStartedEpoch].

Context {K : Type} `{Countable K} {OK : CmpOrder K} {T : Type}.
Abbreviation ChangedKeys := (gset (K * KeysSegments)).

(** Under a prefix, the hash of what is voted on. *)
Record Tallies : Type := mk_tallies {
  bodies : gmap K T;
  seens : gmap K bool;
  seen_bys : gmap K Votes;
  voting_powers_of : gmap K EpochedVotingPower;
  started : gmap K Epoch;
}.

Definition write (keys : K) (body : T) (tally : Tally) (already_present : bool) (current_epoch : Epoch) (s : Tallies) : Tallies :=
  mk_tallies (<[keys := body]> (bodies s)) (<[keys := seen tally]> (seens s)) (<[keys := seen_by tally]> (seen_bys s))
    (<[keys := voting_power tally]> (voting_powers_of s))
    (if already_present then started s else <[keys := current_epoch]> (started s)).

Definition read (s : Tallies) (keys : K) : res VoteError Tally :=
  seen ← ok_or (seens s !! keys) NoValueFound;
  seen_by ← ok_or (seen_bys s !! keys) NoValueFound;
  voting_power ← ok_or (voting_powers_of s !! keys) NoValueFound;
  Ok (mk_tally voting_power seen_by seen).
Definition read_body (s : Tallies) (keys : K) : res VoteError T := ok_or (bodies s !! keys) NoValueFound.
Definition maybe_read_seen (s : Tallies) (keys : K) : option bool := seens s !! keys.

Definition delete_tally (keys : K) : stt Tallies VoteError (option T) :=
  s ← get;
  voting_power ← lift (ok_or (voting_powers_of s !! keys) NoValueFound);
  stake ← lift (fractional_stake voting_power);
  opt_body ← (if frac_gt stake ONE_THIRD then body ← lift (read_body s keys); mret (Some body) else mret None);
  _ ← modify (λ s, mk_tallies (delete keys (bodies s)) (delete keys (seens s)) (delete keys (seen_bys s))
                    (delete keys (voting_powers_of s)) (delete keys (started s)));
  mret opt_body.

Definition keys_changed (keys : K) (pre post : Tally) : ChangedKeys :=
  (if decide (seen pre = seen post) then ∅ else {[(keys, KSeen)]})
  ∪ (if decide (voting_power pre = voting_power post) then ∅ else {[(keys, KVotingPower)]})
  ∪ (if decide (seen_by pre = seen_by post) then ∅ else {[(keys, KSeenBy)]}).

(** [update::calculate]; an error of [apply] is a panic. *)
Definition calculate (s : Tallies) (keys : K) (vote_info : NewVotes) : res VoteError (Tally * ChangedKeys) :=
  tally_pre ← read s keys;
  if seen tally_pre then Ok (tally_pre, ∅)
  else
    let '(vote_info, duplicate_voters) := without_voters ((kvs (seen_by tally_pre)).*1) vote_info in
    tally_post ← expect (ok (apply tally_pre vote_info));
    Ok (tally_post, keys_changed keys tally_pre tally_post).

(** ** Voting powers: [utils.rs] *)

Definition get_consensus_validators_at (block_heights : list BlockHeight) : res VoteError (gmap BlockHeight (list (Address * Z))) :=
  try_fold (λ acc height, epoch ← expect (get_epoch height); Ok (<[height := get_consensus_validators epoch]> acc)) ∅ block_heights.
Definition get_voting_powers_for_selected (all_consensus : gmap BlockHeight (list (Address * Z)))
    (selected : list (Address * BlockHeight)) : res VoteError VotingPowers :=
  try_fold (λ acc '(addr, height),
    consensus_validators ← ok_or (all_consensus !! height) (NoConsensusValidators height);
    v ← ok_or (snd <$> list_find (λ v, v.1 = addr) consensus_validators) (NotAConsensusValidator addr);
    Ok (<[(addr, height) := v.2]> acc)) ∅ selected.
Definition get_voting_powers (voters : list (Address * BlockHeight)) : res VoteError VotingPowers :=
  consensus_validators ← get_consensus_validators_at (snd <$> voters);
  get_voting_powers_for_selected consensus_validators voters.

(** ** Updates: [ethereum_events/mod.rs] *)

(** The hash of an event is the prefix of its keys. *)
Record EthMsgUpdate : Type := mk_update { body : T; upd_seen_by : Votes }.
Context (hash_of : T → K).

Definition apply_update (update : EthMsgUpdate) (voting_powers : VotingPowers) (current_epoch : Epoch) :
    stt Tallies VoteError (ChangedKeys * bool) :=
  s ← get;
  let eth_msg_keys := hash_of (body update) in
  match maybe_read_seen s eth_msg_keys with
  | Some true => mret (∅, false)
  | None =>
      vote_tracking ← lift (calculate_new (upd_seen_by update) voting_powers);
      let changed := list_to_set ((eth_msg_keys,.) <$> all_segments) in
      _ ← modify (write eth_msg_keys (body update) vote_tracking false current_epoch);
      mret (changed, seen vote_tracking)
  | Some false =>
      votes ← lift (new_votes (upd_seen_by update) voting_powers);
      '(vote_tracking, changed) ← lift (calculate s eth_msg_keys votes);
      if decide (changed = ∅) then mret (changed, false)
      else
        let confirmed := seen vote_tracking && bool_decide ((eth_msg_keys, KSeen) ∈ changed) in
        _ ← modify (write eth_msg_keys (body update) vote_tracking true current_epoch);
        mret (changed, confirmed)
  end.

(** The loop of [apply_updates] over its set of updates, with what it confirms. *)
Fixpoint apply_all (updates : list EthMsgUpdate) (voting_powers : VotingPowers) (current_epoch : Epoch) :
    stt Tallies VoteError (ChangedKeys * list T) :=
  match updates with
  | [] => mret (∅, [])
  | update :: updates =>
      '(changed, newly_confirmed) ← apply_update update voting_powers current_epoch;
      '(changed_keys, confirmed) ← apply_all updates voting_powers current_epoch;
      mret (changed ∪ changed_keys, if newly_confirmed : bool then body update :: confirmed else confirmed)
  end.

(** ** Timeouts *)

(** The entries of storage under the prefix of events, in the order of their keys. *)
Inductive tally_entry : Type := EBody | ESeen (b : bool) | ESeenBy | EVotingPower | EVotingStartedEpoch (e : Epoch).
Definition prefixes (s : Tallies) : list K :=
  (kvs ((const () <$> bodies s) ∪ (const () <$> seens s) ∪ (const () <$> seen_bys s) ∪ (const () <$> voting_powers_of s)
        ∪ (const () <$> started s))).*1.
Definition entries (s : Tallies) (k : K) : list tally_entry :=
  option_list (const EBody <$> bodies s !! k) ++ option_list (ESeen <$> seens s !! k)
  ++ option_list (const ESeenBy <$> seen_bys s !! k) ++ option_list (const EVotingPower <$> voting_powers_of s !! k)
  ++ option_list (EVotingStartedEpoch <$> started s !! k).
Definition iter_prefix (s : Tallies) : list (K * tally_entry) := prefixes s ≫= λ k, (k,.) <$> entries s k.

(** The state of the scan: the tally it is at, what it found of it, and the result. *)
Record Scan : Type := mk_scan { cur_keys : option K; is_timed_out : bool; is_seen : bool; results : list K }.
Definition scan_next (keys : K) (c : Scan) : Scan :=
  match cur_keys c with
  | Some prev_keys =>
      if decide (prev_keys = keys) then c
      else mk_scan (Some keys) false false (if is_timed_out c && negb (is_seen c) then results c ++ [prev_keys] else results c)
  | None => mk_scan (Some keys) (is_timed_out c) (is_seen c) (results c)
  end.
Definition scan_entry (timeout_epoch : Epoch) (c : Scan) (x : K * tally_entry) : Scan :=
  let c := scan_next x.1 c in
  match x.2 with
  | EVotingStartedEpoch inserted_epoch =>
      mk_scan (cur_keys c) (if inserted_epoch <=? timeout_epoch then true else is_timed_out c) (is_seen c) (results c)
  | ESeen b => mk_scan (cur_keys c) (is_timed_out c) b (results c)
  | _ => c
  end.
Definition get_timed_out_eth_events (unbonding_len : Z) (last_epoch : Epoch) (s : Tallies) : list K :=
  if last_epoch <=? unbonding_len then []
  else
    let c := foldl (scan_entry (last_epoch - unbonding_len)) (mk_scan None false false []) (iter_prefix s) in
    match cur_keys c with
    | Some keys => if is_timed_out c && negb (is_seen c) then results c ++ [keys] else results c
    | None => results c
    end.

(** The expired events that had more than a third are queued again. *)
Fixpoint timeout_keys (keys : list K) : stt Tallies VoteError (list T) :=
  match keys with
  | [] => mret []
  | k :: keys => event ← delete_tally k; queued ← timeout_keys keys; mret (option_list event ++ queued)
  end.
Definition timeout_events (unbonding_len : Z) (last_epoch : Epoch) : stt Tallies VoteError (list T) :=
  s ← get; timeout_keys (get_timed_out_eth_events unbonding_len last_epoch s).
End votes.

(** ** What a tally counts *)

Section counting.
Context {A : AddressApi} {OA : CmpOrder Address} {P : BridgePos A} {R : URatioApi}.

Abbreviation Votes := (gmap Address BlockHeight).
Abbreviation VotingPowers := (gmap (Address * BlockHeight) Z).

(** The stake a consensus validator has in an epoch, and the power of a vote. *)
Definition stake_in (e : Epoch) (a : Address) : option Z :=
  (λ x, x.2.2) <$> list_find (λ v, v.1 = a) (get_consensus_validators e).
Definition vote_power (x : Address * BlockHeight) : Z := default 0 (e ← get_epoch x.2; stake_in e x.1).

(** Powers as [get_voting_powers] finds them. *)
Definition powers_ok (vp : VotingPowers) : Prop :=
  ∀ a h p, vp !! (a, h) = Some p → ∃ e, get_epoch h = Some e ∧ stake_in e a = Some p.

Lemma get_voting_powers_ok voters vp : get_voting_powers voters = Ok vp → powers_ok vp.
Proof.
  unfold get_voting_powers. intros H. res_inv H. rename v into all.
  assert (Hall : ∀ h l, all !! h = Some l → ∃ e, get_epoch h = Some e ∧ l = get_consensus_validators e).
  { unfold get_consensus_validators_at in Hres.
    refine (try_fold_ok _ (λ _ m, ∀ h l, m !! h = Some l → ∃ e, get_epoch h = Some e ∧ l = get_consensus_validators e) _ _ _ Hres _ _); [done|].
    intros h _ m m' Hm Hs. res_inv Hs. intros h' l. rewrite lookup_insert_Some. intros [[-> <-]|[_ Hl]]; eauto. }
  refine (try_fold_ok _ (λ _ m, powers_ok m) _ _ _ H _ _); [done|].
  intros [a h] _ m m' Hm Hs. res_inv Hs. intros a' h' p. rewrite lookup_insert_Some. intros [[[= -> ->] <-]|[_ Hl]]; [|by apply Hm].
  apply Hall in Hres0 as (e & He & ->). exists e. split; [done|]. unfold stake_in.
  destruct (list_find _ _) as [[i x]|]; cbn in *; by simplify_eq.
Qed.

Lemma powers_ok_power vp a h p : powers_ok vp → vp !! (a, h) = Some p → p = vote_power (a, h) ∧ is_Some (get_epoch h).
Proof. intros Hp (e & He & Hs)%Hp. unfold vote_power. cbn. rewrite He. cbn. by rewrite Hs. Qed.

(** The votes [l] are tallied in [vp]. *)
Record tallied (l : list (Address * BlockHeight)) (vp : gmap Epoch Z) : Prop := {
  tl_epoch e : default 0 (vp !! e) = zsum (λ x, if decide (get_epoch x.2 = Some e) then vote_power x else 0) l;
  tl_dom e : is_Some (vp !! e) ↔ ∃ x, x ∈ l ∧ get_epoch x.2 = Some e;
  tl_total : zsum snd (map_to_list vp) = zsum vote_power l;
  tl_range e p : vp !! e = Some p → 0 ≤ p < 2 ^ 256;
}.

Lemma tallied_nil : tallied [] ∅.
Proof.
  split.
  - intros e. by rewrite lookup_empty.
  - intros e. rewrite lookup_empty. split; [by intros []|]. intros (x & Hx & _). by apply elem_of_nil in Hx.
  - by rewrite map_to_list_empty.
  - intros e p. by rewrite lookup_empty.
Qed.

Lemma tallied_perm l l' vp : l ≡ₚ l' → tallied l vp → tallied l' vp.
Proof.
  intros Hp [H1 H2 H3 H4]. split; [|intros e; rewrite H2; by setoid_rewrite Hp| |done].
  - intros e. rewrite H1. by apply zsum_perm.
  - rewrite H3. by apply zsum_perm.
Qed.

Lemma aggregate_ok vp h p vp' : aggregate vp h p = Ok vp' →
  ∃ e, get_epoch h = Some e ∧ vp' = <[e := default 0 (vp !! e) + p]> vp ∧ 0 ≤ default 0 (vp !! e) + p < 2 ^ 256.
Proof.
  unfold aggregate, ZAmount.add. intros Ha. res_inv Ha. apply chk_Some in Hres0 as [-> ?]. eauto.
Qed.

Lemma tallied_step l vp a h p vp' : tallied l vp → p = vote_power (a, h) → aggregate vp h p = Ok vp' → tallied ((a, h) :: l) vp'.
Proof.
  intros [H1 H2 H3 H4] -> (e & He & -> & Hr)%aggregate_ok. split.
  - intros e'. rewrite zsum_cons. cbn [snd]. rewrite <- H1. destruct (decide (e' = e)) as [->|Hne].
    + rewrite lookup_insert_eq, decide_True by done. cbn. lia.
    + rewrite lookup_insert_ne, decide_False by congruence. lia.
  - intros e'. destruct (decide (e' = e)) as [->|Hne].
    + rewrite lookup_insert_eq. split; [|done]. intros _. exists (a, h). split; [by left|done].
    + rewrite lookup_insert_ne, H2 by done. split; intros (x & Hx & Hxe); exists x; (split; [|done]); [by right|].
      apply elem_of_cons in Hx as [->|]; [cbn in Hxe; congruence|done].
  - rewrite zsum_cons, <- H3. pose proof (zsum_map_change snd vp (<[e := default 0 (vp !! e) + vote_power (a, h)]> vp) e) as Hc.
    rewrite lookup_insert_eq in Hc. cbn in Hc. specialize (Hc ltac:(intros; by apply lookup_insert_ne)).
    destruct (vp !! e); cbn in *; lia.
  - intros e' q. rewrite lookup_insert_Some. intros [[<- <-]|[_ Hq]]; [done|by eapply H4].
Qed.
End counting.

(** ** Quorums *)

Lemma foldl_max x l : x ≤ foldl Z.max x l ∧ (∀ y, y ∈ l → y ≤ foldl Z.max x l) ∧ foldl Z.max x l ∈ x :: l.
Proof.
  revert x. induction l as [|z l IH]; intros x; cbn [foldl].
  - split; [lia|]. split; [intros y Hy; by apply elem_of_nil in Hy|by left].
  - destruct (IH (Z.max x z)) as (H1 & H2 & H3). split; [lia|]. split.
    + intros y [->|Hy]%elem_of_cons; [lia|by apply H2].
    + apply elem_of_cons in H3 as [->|H3]; [|by do 2 right]. destruct (Z.max_spec x z) as [[_ ->]|[_ ->]]; [right|]; by left.
Qed.

Section quorum.
Context {A : AddressApi} {OA : CmpOrder Address} {P : BridgePos A} {R : URatioApi} {RL : URatioLaws R}.
Context (Htotal : ∀ e, 0 ≤ get_total_voting_power e < 2 ^ 255).

(** There is a vote, and the stake counted exceeds two thirds of the total of
    every epoch that was voted in. *)
Definition quorum (l : list (Address * BlockHeight)) : Prop :=
  (∃ x e, x ∈ l ∧ get_epoch x.2 = Some e) ∧
  ∀ x e, x ∈ l → get_epoch x.2 = Some e → 2 * get_total_voting_power e < 3 * zsum vote_power l.

Lemma epoch_max_spec vp :
  match epoch_max_voting_power vp with
  | None => vp = ∅
  | Some m => (∀ e, is_Some (vp !! e) → get_total_voting_power e ≤ m) ∧ ∃ e, is_Some (vp !! e) ∧ get_total_voting_power e = m
  end.
Proof using Type.
  unfold epoch_max_voting_power. destruct (_ <$> _) as [|x l] eqn:E.
  - apply fmap_nil_inv, kvs_nil in E. done.
  - destruct (foldl_max x l) as (H1 & H2 & H3).
    assert (Hin : ∀ y, y ∈ x :: l ↔ ∃ e, is_Some (vp !! e) ∧ get_total_voting_power e = y).
    { intros y. rewrite <- E, list_elem_of_fmap. split.
      - intros ([e p] & -> & He%elem_of_kvs). eauto.
      - intros (e & [p He] & <-). exists (e, p). split; [done|]. by apply elem_of_kvs. }
    split; [|by apply Hin]. intros e He.
    assert (get_total_voting_power e ∈ x :: l) as [->|Hy]%elem_of_cons by (apply Hin; eauto); [done|by apply H2].
Qed.

Lemma tallied_stake_ok vp s : tallied_stake vp = Ok s → s = zsum snd (map_to_list vp).
Proof using Type.
  unfold tallied_stake. intros ->%expect_ok%zamount_sum_some. rewrite zsum_fmap. apply (zsum_perm snd). apply kvs_perm.
Qed.

Lemma quorum_spec l vp b : tallied l vp → has_majority_quorum vp = Ok b → b = true ↔ quorum l.
Proof using RL Htotal.
  intros [_ Hdom Htot _]. unfold has_majority_quorum. pose proof (epoch_max_spec vp) as Hmax.
  destruct (epoch_max_voting_power vp) as [m|].
  - destruct Hmax as [Hle (e & He & <-)]. pose proof (Htotal e). unfold checked_mul_amount, frac_gt. cbn [frac_numer frac_denom TWO_THIRDS WHOLE].
    change (1 * 3 <? 2 * 1) with false. cbv iota.
    intros Hb. apply res_bind_ok in Hb as (th & Hth%expect_ok & Hb). apply uratio_mul_value in Hth as ->; [|lia..]. apply res_bind_ok in Hb as (s & ->%tallied_stake_ok & [= <-]).
    rewrite Htot, Z.ltb_lt.
    apply Hdom in He as (x & Hx & Hxe). split.
    + intros Hlt. split; [eauto|]. intros x' e' Hx' Hxe'. specialize (Hle e' (proj2 (Hdom e') (ex_intro _ x' (conj Hx' Hxe')))). dlia.
    + intros [_ Hq]. specialize (Hq x e Hx Hxe). dlia.
  - subst vp. intros [= <-]. split; [done|]. intros [(x & e & Hx & Hxe) _].
    destruct (proj2 (Hdom e) (ex_intro _ x (conj Hx Hxe))) as [p Hp]. by rewrite lookup_empty in Hp.
Qed.

(** ** Tallies that are made and updated *)

Record tally_ok (t : Tally) : Prop := {
  to_votes : tallied (map_to_list (seen_by t)) (voting_power t);
  to_seen : seen t = true ↔ quorum (map_to_list (seen_by t));
}.

Lemma calculate_new_ok by_ vp t : powers_ok vp → calculate_new by_ vp = Ok t → tally_ok t ∧ seen_by t = by_.
Proof using RL Htotal.
  intros Hvp. unfold calculate_new. intros Ht. res_inv Ht.
  assert (Hfold : ∀ l acc r done, tallied done acc → try_fold (λ vp0 '(validator, block_height),
      match vp !! (validator, block_height) with
      | Some power => aggregate vp0 block_height power
      | None => Err (NoVotingPower validator) end) acc l = Ok r → tallied (l ++ done) r).
  { induction l as [|[a h] l IH]; intros acc r done Hd; cbn [try_fold]; [by intros [= <-]|].
    destruct (vp !! (a, h)) as [p|] eqn:Hp; [|done]. intros Hr. apply res_bind_ok in Hr as (acc' & Hs & Hr).
    apply powers_ok_power in Hp as [-> _]; [|done].
    eapply tallied_perm; [|eapply (IH _ _ ((a, h) :: done)); [by eapply tallied_step|done]]. by rewrite <- Permutation_middle. }
  apply (Hfold _ _ _ [] tallied_nil) in Hres. rewrite app_nil_r in Hres.
  assert (tallied (map_to_list by_) v) by by eapply tallied_perm, Hres; apply kvs_perm.
  split; [|done]. split; cbn; [done|]. by eapply quorum_spec.
Qed.

Definition votes_ok (l : list (Address * (BlockHeight * Z))) : Prop := ∀ a h p, (a, (h, p)) ∈ l → p = vote_power (a, h).

Lemma apply_ok t l t' : tallied (map_to_list (seen_by t)) (voting_power t) → votes_ok l → apply t l = Ok t' →
  tally_ok t' ∧ (∀ a h, seen_by t' !! a = Some h ↔ seen_by t !! a = Some h ∨ ∃ p, (a, (h, p)) ∈ l).
Proof using RL Htotal.
  intros Ht Hl. unfold apply. intros Ha. apply res_bind_ok in Ha as ([vp by_] & Hf & Ha). res_inv Ha.
  assert (Hloop : tallied (map_to_list by_) vp ∧ (∀ a h, by_ !! a = Some h ↔ seen_by t !! a = Some h ∨ ∃ p, (a, (h, p)) ∈ l)).
  { revert Ht Hf. generalize (voting_power t) (seen_by t). induction l as [|[a [h p]] l IH]; intros vp0 by0 Ht Hf; cbn [try_fold] in Hf.
    - injection Hf as <- <-. split; [done|]. intros a h. split; [by left|]. intros [?|(p & Hp%elem_of_nil)]; done.
    - destruct (by0 !! a) eqn:Hby; [done|]. apply res_bind_ok in Hf as ([vp1' by1] & Hs & Hf).
      apply res_bind_ok in Hs as (vp1 & Hagg & [= <- <-]).
      assert (Ht1 : tallied (map_to_list (<[a := h]> by0)) vp1).
      { eapply tallied_perm; [symmetry; by apply map_to_list_insert|]. eapply tallied_step; [done| |done]. apply Hl. by left. }
      apply IH in Hf as [Hf1 Hf2]; [|by intros ????; eapply Hl; right|done]. split; [done|].
      intros a' h'. rewrite Hf2, lookup_insert_Some. setoid_rewrite elem_of_cons. split.
      + intros [[[-> ->]|[_ ?]]|(p' & ?)]; [right; exists p; by left|by left|right; exists p'; by right].
      + intros [Hb|(p' & [[= -> -> ->]|?])]; [left; right; split; [congruence|done]|by left; left|right; eauto]. }
  destruct Hloop as [H1 H2]. split; [|done]. split; cbn; [done|]. by eapply quorum_spec.
Qed.
End quorum.

(** ** Index maps *)

Lemma filter_ext_in {X} (P Q : X → Prop) `{∀ x, Decision (P x)} `{∀ x, Decision (Q x)} (l : list X) :
  (∀ x, x ∈ l → P x ↔ Q x) → filter P l = filter Q l.
Proof.
  induction l as [|x l IH]; intros Hl; [done|]. rewrite !filter_cons, IH by (intros; apply Hl; by right).
  specialize (Hl x ltac:(by left)). destruct (decide (P x)), (decide (Q x)); naive_solver.
Qed.

Section index.
Context {A : AddressApi} {OA : CmpOrder Address}.
Abbreviation NewVotes := (list (Address * (BlockHeight * Z))).

Lemma swap_remove_some a (l l' : NewVotes) : swap_remove a l = Some l' → ∃ v, l ≡ₚ (a, v) :: l'.
Proof using Type.
  unfold swap_remove. destruct (list_find _ l) as [[i [a' v]]|] eqn:Hf; [|done].
  apply list_find_Some in Hf as (Hi & <- & _). cbn [fst]. apply list_elem_of_split_length in Hi as (l1 & l2 & -> & ->).
  destruct l2 as [|y l2 _] using rev_ind.
  - rewrite last_snoc, length_app. cbn [length]. rewrite (proj2 (Nat.eqb_eq _ _)) by lia. intros [= <-].
    exists v. rewrite take_app_length. by rewrite Permutation_app_comm.
  - rewrite app_comm_cons, app_assoc, last_snoc, !length_app. cbn [length].
    rewrite (proj2 (Nat.eqb_neq _ _)) by lia. intros [= <-]. exists v.
    rewrite <- app_assoc. cbn [app]. rewrite insert_app_r_alt, Nat.sub_diag by lia. cbn [insert list_insert].
    rewrite take_app_ge by lia. replace (_ - _ - length l1)%nat with (S (length l2)) by lia. cbn [take].
    rewrite take_app_length, <- Permutation_middle. do 2 f_equiv. symmetry. apply Permutation_cons_append.
Qed.

Lemma swap_remove_none a (l : NewVotes) : swap_remove a l = None → a ∉ l.*1.
Proof using Type.
  unfold swap_remove. destruct (list_find _ l) as [[i x]|] eqn:Hf.
  - apply list_find_Some in Hf as (Hi & _). destruct (last l) eqn:Hl; [done|]. apply last_None in Hl as ->. by rewrite lookup_nil in Hi.
  - intros _ (x & -> & Hx)%list_elem_of_fmap. apply list_find_None in Hf. rewrite Forall_forall in Hf. by eapply Hf.
Qed.

Lemma index_insert_fresh a v (l : NewVotes) : a ∉ l.*1 → index_insert a v l = l ++ [(a, v)].
Proof using Type.
  induction l as [|x l IH]; intros Ha; cbn; [done|]. cbn in Ha. rewrite decide_False by set_solver. f_equal. apply IH. set_solver.
Qed.

(** All the votes become new votes. *)
Lemma new_votes_ok (votes : gmap Address BlockHeight) powers l : new_votes votes powers = Ok l →
  l.*1 = (kvs votes).*1 ∧ (∀ a h p, (a, (h, p)) ∈ l ↔ votes !! a = Some h ∧ powers !! (a, h) = Some p).
Proof using Type.
  unfold new_votes. intros Hl.
  assert (Hloop : ∀ todo acc r, NoDup (acc.*1 ++ todo.*1) → try_fold (λ inner '(address, block_height),
      match powers !! (address, block_height) with
      | Some power => Ok (index_insert address (block_height, power) inner)
      | None => Err (NoVotingPower address) end) acc todo = Ok r →
    r.*1 = acc.*1 ++ todo.*1 ∧ ∀ a h p, (a, (h, p)) ∈ r ↔ (a, (h, p)) ∈ acc ∨ (a, h) ∈ todo ∧ powers !! (a, h) = Some p).
  { induction todo as [|[a h] todo IH]; intros acc r Hnd; cbn [try_fold fmap list_fmap fst].
    - intros [= <-]. rewrite app_nil_r. split; [done|]. set_solver.
    - destruct (powers !! (a, h)) as [p|] eqn:Hp; [|done]. cbn in Hnd.
      rewrite index_insert_fresh by (apply NoDup_app in Hnd as (_ & Hnd & _); intros Ha; apply (Hnd a Ha); by left).
      intros Hr. apply IH in Hr as [H1 H2]; [|rewrite fmap_app; cbn; by rewrite <- app_assoc].
      rewrite H1, fmap_app. cbn. split; [by rewrite <- app_assoc|]. intros a' h' p'. rewrite H2, elem_of_app, list_elem_of_singleton, elem_of_cons.
      split; [intros [[?|[= -> -> ->]]|[? ?]]; auto|]. intros [?|[[[= -> ->]|?] Hp']]; [by left; left|left; right; congruence|by right]. }
  apply Hloop in Hl as [H1 H2]; [|apply kvs_NoDup]. split; [done|]. intros a h p. rewrite H2, elem_of_kvs. set_solver.
Qed.

Lemma without_voters_ok vs (l : NewVotes) : NoDup l.*1 → (without_voters vs l).1 ≡ₚ filter (λ x, x.1 ∉ vs) l.
Proof using Type.
  unfold without_voters. generalize (∅ : gset Address). revert l. induction vs as [|v vs IH]; intros l removed Hnd; cbn [foldl fst].
  - rewrite filter_all; [done|]. apply Forall_forall. set_solver.
  - destruct (swap_remove v l) as [l'|] eqn:Hs.
    + apply swap_remove_some in Hs as (x & Hp). assert (Hnd' : NoDup ((v, x) :: l').*1) by by rewrite <- Hp.
      cbn in Hnd'. apply NoDup_cons in Hnd' as [Hv Hnd']. rewrite IH by done. rewrite Hp, filter_cons_False by (cbn; set_solver).
      rewrite (filter_ext_in (λ x, x.1 ∉ v :: vs) (λ x, x.1 ∉ vs)); [done|]. intros y Hy. rewrite not_elem_of_cons. split; [by intros []|].
      intros. split; [|done]. intros Heq. apply Hv. apply list_elem_of_fmap. eauto.
    + apply swap_remove_none in Hs. rewrite IH by done.
      rewrite (filter_ext_in (λ x, x.1 ∉ v :: vs) (λ x, x.1 ∉ vs)); [done|]. intros y Hy. rewrite not_elem_of_cons. split; [by intros []|].
      intros. split; [|done]. intros Heq. apply Hs. apply list_elem_of_fmap. eauto.
Qed.
End index.

(** ** Updates of a tally *)

Section updates.
Context {A : AddressApi} {OA : CmpOrder Address} {P : BridgePos A} {R : URatioApi} {RL : URatioLaws R}.
Context (Htotal : ∀ e, 0 ≤ get_total_voting_power e < 2 ^ 255).
Context {K : Type} `{Countable K} {OK : CmpOrder K} {T : Type}.

(** The votes of an update that are new. *)
Lemma fresh_votes (by_ votes : gmap Address BlockHeight) powers l l' removed : new_votes votes powers = Ok l →
  without_voters (kvs by_).*1 l = (l', removed) →
  NoDup l'.*1 ∧ (∀ a h p, (a, (h, p)) ∈ l' ↔ votes !! a = Some h ∧ powers !! (a, h) = Some p ∧ by_ !! a = None).
Proof using Type.
  intros [Hk Hl]%new_votes_ok Hw. assert (Hnd : NoDup l.*1) by (rewrite Hk; apply kvs_NoDup).
  pose proof (without_voters_ok (kvs by_).*1 l Hnd) as Hp. rewrite Hw in Hp. cbn in Hp. split.
  - rewrite Hp. eapply sublist_NoDup; [done|]. apply fmap_sublist, sublist_filter.
  - intros a h p. rewrite Hp, list_elem_of_filter, Hl. cbn [fst].
    assert (a ∉ (kvs by_).*1 ↔ by_ !! a = None) as ->; [|tauto]. rewrite eq_None_not_Some. f_equiv. rewrite list_elem_of_fmap. split.
    + intros ([a' h'] & -> & Hx%elem_of_kvs). eauto.
    + intros [h' Hh']. exists (a, h'). split; [done|]. by apply elem_of_kvs.
Qed.

(** Updating an unseen tally adds the votes of those who had not voted. *)
Lemma calculate_ok (s : Tallies (K:=K) (T:=T)) k t votes powers l t' changed : powers_ok powers → read s k = Ok t → tally_ok t → seen t = false →
  new_votes votes powers = Ok l → calculate s k l = Ok (t', changed) →
  tally_ok t' ∧ seen_by t' = seen_by t ∪ votes ∧ changed = keys_changed k t t'.
Proof using RL Htotal.
  intros Hp Hr Ht Hs Hl. unfold calculate. rewrite Hr. cbn [mbind]. intros Hc. cbn in Hc. rewrite Hs in Hc.
  destruct (without_voters _ l) as [l' removed] eqn:Hw. destruct (fresh_votes _ _ _ _ _ _ Hl Hw) as [Hnd Hin].
  apply res_bind_ok in Hc as (t1 & Ht1 & [= <- <-]). apply expect_ok in Ht1. destruct (apply t l') as [t2| |] eqn:Ha; simplify_eq/=.
  apply apply_ok in Ha as [Hok Hby]; [|done|apply Ht|].
  - split; [done|]. split; [|done]. apply map_eq. intros a. apply option_eq. intros h. rewrite Hby, lookup_union_Some_raw.
    f_equiv. setoid_rewrite Hin. split; [intros (p & ? & _ & ?); done|]. intros [Hn Hv].
    destruct (powers !! (a, h)) as [p|] eqn:Hpw; [eauto|]. exfalso. apply new_votes_ok in Hl as [Hk Hl'].
    assert (a ∈ l.*1) as ([a' [h' p]] & -> & Hx)%list_elem_of_fmap by (rewrite Hk; apply list_elem_of_fmap; exists (a, h); split; [done|]; by apply elem_of_kvs).
    apply Hl' in Hx as [? ?]. cbn in *. congruence.
  - intros a h p (Hv & Hpw & _)%Hin. by apply powers_ok_power in Hpw as [-> _].
Qed.
End updates.

(** ** Updates succeed *)

Section total.
Context {A : AddressApi} {OA : CmpOrder Address} {P : BridgePos A} {R : URatioApi} {RL : URatioLaws R}.
Context (Htotal : ∀ e, 0 < get_total_voting_power e < 2 ^ 255).
(** Stakes are amounts, and those of different validators fit an amount together. *)
Context (Hpower : ∀ x, 0 ≤ vote_power x) (Hfit : ∀ l, NoDup l.*1 → zsum vote_power l < 2 ^ 256).

Lemma tallied_stake_run l vp : tallied l vp → NoDup l.*1 → tallied_stake vp = Ok (zsum vote_power l).
Proof using Hfit.
  intros [_ _ Htot Hrange] Hnd. unfold tallied_stake. assert (Hz : zsum id (snd <$> kvs vp) = zsum vote_power l).
  { rewrite zsum_fmap, <- Htot. apply (zsum_perm snd), kvs_perm. }
  rewrite zamount_sum, Hz; [done| |rewrite Hz; by apply Hfit].
  apply Forall_fmap, Forall_forall. intros [e p] He%elem_of_kvs. cbn. apply Hrange in He. lia.
Qed.

Lemma quorum_run l vp : tallied l vp → NoDup l.*1 → ∃ b, has_majority_quorum vp = Ok b.
Proof using RL Htotal Hfit.
  intros Ht Hnd. unfold has_majority_quorum. pose proof (epoch_max_spec vp) as Hmax. destruct (epoch_max_voting_power vp) as [m|]; [|eauto].
  destruct Hmax as [_ (e & _ & <-)]. pose proof (Htotal e). unfold checked_mul_amount, frac_gt. cbn [frac_numer frac_denom TWO_THIRDS WHOLE].
  change (1 * 3 <? 2 * 1) with false. cbv iota. rewrite uratio_mul_run by lia. cbn. rewrite (tallied_stake_run l) by done. eauto.
Qed.

Lemma aggregate_run l vp a h : tallied l vp → NoDup ((a, h) :: l).*1 → is_Some (get_epoch h) → ∃ vp', aggregate vp h (vote_power (a, h)) = Ok vp'.
Proof using Hpower Hfit.
  intros [He _ _ _] Hnd [e Hh]. unfold aggregate. rewrite Hh. cbn. unfold ZAmount.add. rewrite He.
  pose proof (Hfit _ Hnd) as Hf. rewrite zsum_cons in Hf. pose proof (Hpower (a, h)).
  assert (0 ≤ zsum (λ x, if decide (get_epoch x.2 = Some e) then vote_power x else 0) l ≤ zsum vote_power l).
  { split; [apply zsum_nonneg|apply zsum_le]; intros x _; destruct (decide _); pose proof (Hpower x); lia. }
  rewrite chk_in by lia. cbn. eauto.
Qed.

Lemma calculate_new_run by_ vp : powers_ok vp → (∀ a h, by_ !! a = Some h → is_Some (vp !! (a, h))) → ∃ t, calculate_new by_ vp = Ok t.
Proof using RL Htotal Hpower Hfit.
  intros Hvp Hall. unfold calculate_new.
  assert (Hfold : ∀ l acc done, NoDup (l ++ done).*1 → (∀ x, x ∈ l → is_Some (vp !! x)) → tallied done acc →
    ∃ r, try_fold (λ vp0 '(validator, block_height),
      match vp !! (validator, block_height) with
      | Some power => aggregate vp0 block_height power
      | None => Err (NoVotingPower validator) end) acc l = Ok r ∧ tallied (l ++ done) r).
  { induction l as [|[a h] l IH]; intros acc done Hnd Hin Hd; cbn [try_fold]; [eauto|].
    destruct (Hin (a, h) ltac:(by left)) as [p Hp]. rewrite Hp. apply powers_ok_power in Hp as [-> Hh]; [|done].
    assert (Hp : ((a, h) :: l ++ done) ≡ₚ l ++ (a, h) :: done) by apply Permutation_middle.
    destruct (aggregate_run done acc a h) as [vp' Hvp']; [done| |done|].
    { eapply sublist_NoDup; [exact Hnd|]. apply (fmap_sublist fst). cbn. apply sublist_skip, sublist_inserts_l. done. }
    rewrite Hvp'. cbn. destruct (IH vp' ((a, h) :: done)) as (r & Hr & Ht).
    - by rewrite <- Hp.
    - intros x Hx. apply Hin. by right.
    - by eapply tallied_step.
    - exists r. split; [done|]. by eapply tallied_perm. }
  destruct (Hfold (kvs by_) ∅ []) as (r & -> & Ht).
  - rewrite app_nil_r. apply kvs_NoDup.
  - intros [a h] Hx%elem_of_kvs. by apply Hall.
  - apply tallied_nil.
  - rewrite app_nil_r in Ht. cbn. destruct (quorum_run _ _ Ht (kvs_NoDup by_)) as [b ->]. cbn. eauto.
Qed.

Lemma apply_run t l : tallied (map_to_list (seen_by t)) (voting_power t) → NoDup l.*1 →
  (∀ a h p, (a, (h, p)) ∈ l → p = vote_power (a, h) ∧ is_Some (get_epoch h) ∧ seen_by t !! a = None) → ∃ t', apply t l = Ok t'.
Proof using RL Htotal Hpower Hfit.
  intros Ht Hnd Hl. unfold apply.
  assert (Hloop : ∃ r, try_fold (λ '(vp, by_) '(validator, (vote_height, power)),
      match by_ !! validator with
      | Some _ => Err (AlreadyVoted validator)
      | None => vp ← aggregate vp vote_height power; Ok (vp, <[validator := vote_height]> by_)
      end) (voting_power t, seen_by t) l = Ok r ∧ tallied (map_to_list r.2) r.1).
  { revert Ht Hl. generalize (voting_power t) (seen_by t). induction l as [|[a [h p]] l IH]; intros vp by_ Ht Hl; cbn [try_fold]; [eauto|].
    cbn in Hnd. apply NoDup_cons in Hnd as [Ha Hnd]. destruct (Hl a h p) as (-> & Hh & Hn); [by left|]. rewrite Hn.
    destruct (aggregate_run (map_to_list by_) vp a h) as [vp' Hvp']; [done| |done|].
    { cbn. apply NoDup_cons. split; [|apply NoDup_fst_map_to_list]. intros ([a' h'] & -> & Hx%elem_of_map_to_list)%list_elem_of_fmap. cbn in *. congruence. }
    rewrite Hvp'. cbn. apply IH; [done| |].
    - eapply tallied_perm; [symmetry; by apply map_to_list_insert|]. by eapply tallied_step.
    - intros a' h' p' Hx. destruct (Hl a' h' p') as (? & ? & ?); [by right|]. split_and!; try done.
      rewrite lookup_insert_ne; [done|]. intros ->. apply Ha, list_elem_of_fmap. by exists (a', (h', p')). }
  destruct Hloop as ([vp by_] & -> & Hr). cbn in Hr |- *. destruct (quorum_run _ _ Hr (NoDup_fst_map_to_list by_)) as [b ->]. cbn. eauto.
Qed.
End total.

(** ** Timeouts *)

Section timeouts.
Context {A : AddressApi} {OA : CmpOrder Address} {P : BridgePos A} {R : URatioApi} {RL : URatioLaws R}.
Context {K : Type} `{Countable K} {OK : CmpOrder K} {T : Type}.
Abbreviation Tallies := (Tallies (A:=A) (K:=K) (T:=T)).
Implicit Types (s : Tallies) (k : K) (te : Epoch).

Definition expired te s k : bool :=
  match started s !! k with Some e => e <=? te | None => false end && negb (default false (seens s !! k)).

Definition flushed (c : Scan (K:=K)) : list K :=
  match cur_keys c with
  | Some k => if is_timed_out c && negb (is_seen c) then results c ++ [k] else results c
  | None => results c
  end.

(** The entries of one tally leave the scan at that tally, with what it holds. *)
Lemma scan_group te s k c : entries s k ≠ [] → cur_keys c ≠ Some k →
  (cur_keys c = None → is_timed_out c = false ∧ is_seen c = false) →
  foldl (scan_entry te) c ((k,.) <$> entries s k) =
  mk_scan (Some k) (match started s !! k with Some e => e <=? te | None => false end) (default false (seens s !! k)) (flushed c).
Proof using Type.
  intros Hne Hc Hfresh.
  assert (Hfirst : scan_next k c = mk_scan (Some k) false false (flushed c)).
  { unfold scan_next, flushed. destruct c as [[k'|] b1 b2 rs]; cbn in *; [rewrite decide_False by congruence; done|].
    by destruct (Hfresh eq_refl) as [-> ->]. }
  assert (Hagain : ∀ b1 b2 rs, scan_next k (mk_scan (Some k) b1 b2 rs) = mk_scan (Some k) b1 b2 rs).
  { intros. unfold scan_next. cbn. by rewrite decide_True. }
  unfold entries in *. destruct (bodies s !! k), (seens s !! k), (seen_bys s !! k), (voting_powers_of s !! k), (started s !! k) as [e|];
    cbn -[scan_next] in *; unfold scan_entry; cbn -[scan_next]; rewrite ?Hfirst; cbn -[scan_next]; rewrite ?Hagain; cbn -[scan_next];
    rewrite ?Hagain; cbn -[scan_next]; rewrite ?Hagain; cbn -[scan_next]; rewrite ?Hagain; cbn; try done; by destruct (e <=? te).
Qed.

Lemma elem_of_prefixes s k : k ∈ prefixes s ↔ entries s k ≠ [].
Proof using Type.
  assert (∀ m : gmap K (), k ∈ (kvs m).*1 ↔ is_Some (m !! k)) as Hk.
  { intros m. rewrite list_elem_of_fmap. split; [intros ([k' v] & -> & Hv%elem_of_kvs); eauto|].
    intros [v Hv]. exists (k, v). split; [done|]. by apply elem_of_kvs. }
  unfold prefixes, entries. rewrite Hk, !lookup_union, !lookup_fmap, is_Some_alt.
  by destruct (bodies s !! k), (seens s !! k), (seen_bys s !! k), (voting_powers_of s !! k), (started s !! k); cbn.
Qed.

Lemma scan_all te s ps c : NoDup ps → (∀ k, k ∈ ps → entries s k ≠ []) → (∀ k, cur_keys c = Some k → k ∉ ps) →
  (cur_keys c = None → is_timed_out c = false ∧ is_seen c = false) →
  flushed (foldl (scan_entry te) c (ps ≫= λ k, (k,.) <$> entries s k)) = flushed c ++ filter (λ k, expired te s k = true) ps.
Proof using Type.
  revert c. induction ps as [|k ps IH]; intros c Hnd Hne Hcur Hfresh; [by rewrite app_nil_r|].
  apply NoDup_cons in Hnd as [Hk Hnd]. rewrite bind_cons, foldl_app, scan_group; [|apply Hne; by left|intros Hc; apply (Hcur k Hc); by left|done].
  rewrite IH; [|done|intros; apply Hne; by right|intros k' [= <-]; done|done].
  rewrite filter_cons. unfold flushed at 1. cbn [cur_keys is_timed_out is_seen results]. fold (expired te s k).
  destruct (expired te s k) eqn:E; [rewrite decide_True by done; by rewrite <- app_assoc|by rewrite decide_False].
Qed.

(** The scan finds the tallies that started long ago and are not seen. *)
Lemma timed_out_spec unbonding_len last_epoch s :
  get_timed_out_eth_events unbonding_len last_epoch s =
  if last_epoch <=? unbonding_len then [] else filter (λ k, expired (last_epoch - unbonding_len) s k = true) (prefixes s).
Proof using Type.
  unfold get_timed_out_eth_events. destruct (last_epoch <=? unbonding_len); [done|].
  pose proof (scan_all (last_epoch - unbonding_len) s (prefixes s) (mk_scan None false false [])) as Hs. cbn in Hs. unfold flushed at 1 in Hs.
  apply Hs; [apply kvs_NoDup|intros k; apply elem_of_prefixes|done|done].
Qed.

Definition remove_tally k s : Tallies :=
  mk_tallies (delete k (bodies s)) (delete k (seens s)) (delete k (seen_bys s)) (delete k (voting_powers_of s)) (delete k (started s)).

Lemma delete_tally_run k s s' r : delete_tally k s = (s', r) → s' = s ∨ s' = remove_tally k s.
Proof using Type.
  unfold delete_tally, mbind, stt_bind, get, lift. destruct (ok_or _ _) as [vp| |]; [|intros [= <- _]; by left..].
  destruct (fractional_stake vp) as [f| |]; [|intros [= <- _]; by left..].
  destruct (frac_gt f ONE_THIRD); [destruct (read_body s k); [|intros [= <- _]; by left..]|]; intros [= <- _]; by right.
Qed.

(** What deletions leave alone. *)
Lemma timeout_keys_frame ks s s' r k : timeout_keys ks s = (s', r) →
  (seens s' !! k = seens s !! k ∧ read s' k = read s k ∧ bodies s' !! k = bodies s !! k) ∨ (k ∈ ks ∧ seens s' !! k = None).
Proof using Type.
  revert s r. induction ks as [|k1 ks IH]; intros s r; cbn [timeout_keys]; [intros [= <- _]; by left|].
  intros Hrun. unfold mbind, stt_bind in Hrun. destruct (delete_tally k1 s) as [s1 r1] eqn:Hd. apply delete_tally_run in Hd.
  assert (Hrest : s' = s1 ∨ ∃ r', timeout_keys ks s1 = (s', r')).
  { destruct r1; [|left; congruence..]. destruct (timeout_keys ks s1) as [s2 r2]. right. destruct r2; injection Hrun as <- _; eauto. }
  assert (H1 : (seens s1 !! k = seens s !! k ∧ read s1 k = read s k ∧ bodies s1 !! k = bodies s !! k) ∨ (k = k1 ∧ seens s1 !! k = None)).
  { destruct Hd as [->| ->]; [by left|]. destruct (decide (k = k1)) as [->|Hne]; [right; split; [done|apply lookup_delete_eq]|].
    left. unfold read. cbn. by rewrite !lookup_delete_ne by done. }
  destruct Hrest as [->|(r' & Hr')]; [destruct H1 as [?|[-> ?]]; [by left|right; split; [by left|done]]|].
  apply IH in Hr' as [(H2 & H3 & H4)|[Hin Hn]]; [|right; split; [by right|done]].
  destruct H1 as [(H5 & H6 & H7)|[-> H5]]; [left; by rewrite H2, H3, H4|]. right. split; [by left|congruence].
Qed.
End timeouts.

(** ** The tallies of all events *)

Section bridge.
Context {A : AddressApi} {OA : CmpOrder Address} {P : BridgePos A} {R : URatioApi} {RL : URatioLaws R}.
Context (Htotal : ∀ e, 0 ≤ get_total_voting_power e < 2 ^ 255).
Context {K : Type} `{Countable K} {OK : CmpOrder K} {T : Type} (hash_of : T → K).
Abbreviation Tallies := (Tallies (A:=A) (K:=K) (T:=T)).
Implicit Types (s : Tallies) (k : K).

Definition tallies_ok s : Prop :=
  ∀ k b, seens s !! k = Some b → ∃ t, read s k = Ok t ∧ tally_ok t ∧ seen t = b.

Lemma read_write k body t present e s : read (write k body t present e s) k = Ok t.
Proof using Type. unfold read, write. cbn. rewrite !lookup_insert_eq. by destruct t. Qed.
Lemma read_write_ne k k' body t present e s : k' ≠ k → read (write k body t present e s) k' = read s k'.
Proof using Type. intros. unfold read, write. cbn. by rewrite !lookup_insert_ne by done. Qed.

Lemma tallies_ok_write k body t present e s : tallies_ok s → tally_ok t → tallies_ok (write k body t present e s).
Proof using Type.
  intros Hs Ht k' b. destruct (decide (k' = k)) as [->|Hne].
  - rewrite read_write. cbn. rewrite lookup_insert_eq. intros [= <-]. eauto.
  - rewrite read_write_ne by done. cbn. rewrite lookup_insert_ne by done. apply Hs.
Qed.

Lemma keys_changed_seen k t t' : seen t = false → keys_changed k t t' ≠ ∅ →
  seen t' && bool_decide ((k, KSeen) ∈ keys_changed k t t') = seen t'.
Proof using Type.
  intros Hs _. clear - Hs. destruct (seen t') eqn:Ht'; [|done]. apply bool_decide_eq_true_2. unfold keys_changed.
  rewrite Hs, Ht', decide_False by done. set_solver.
Qed.

Lemma keys_changed_empty k t t' : keys_changed k t t' = ∅ → t' = t.
Proof using Type.
  unfold keys_changed. intros He. clear - He. destruct t as [vp by_ sn], t' as [vp' by' sn']. cbn in He.
  do 3 (destruct (decide _) as [<-|]; [|set_solver]). done.
Qed.

(** A run of [apply_update] on a state whose tallies are right. *)
Lemma apply_update_inv update powers epoch s s' r : tallies_ok s → powers_ok powers →
  apply_update hash_of update powers epoch s = (s', r) →
  tallies_ok s' ∧ (∀ k, seens s !! k = Some true → seens s' !! k = Some true) ∧
  (∀ ch, r = Ok (ch, true) → seens s !! hash_of (body update) ≠ Some true ∧ seens s' !! hash_of (body update) = Some true).
Proof using RL Htotal.
  intros Hs Hp. unfold apply_update, mbind, stt_bind, get, lift, modify, mret, stt_ret. set (k := hash_of (body update)).
  assert (Hkeep : tallies_ok s ∧ (∀ k0, seens s !! k0 = Some true → seens s !! k0 = Some true)) by done.
  destruct (maybe_read_seen s k) as [[]|] eqn:Hk; unfold maybe_read_seen in Hk.
  - intros [= <- <-]. by destruct Hkeep.
  - destruct (new_votes _ _) as [l| |] eqn:Hl; [|intros [= <- <-]; by destruct Hkeep..].
    destruct (Hs k false Hk) as (t & Hr & Ht & Hseen).
    destruct (calculate s k l) as [[t' ch]| |] eqn:Hc; [|intros [= <- <-]; by destruct Hkeep..].
    destruct (calculate_ok Htotal _ _ _ _ _ _ _ _ Hp Hr Ht Hseen Hl Hc) as (Ht' & _ & ->).
    destruct (decide _) as [|Hne]; [intros [= <- <-]; by destruct Hkeep|]. rewrite keys_changed_seen by done.
    intros [= <- <-]. split; [by apply tallies_ok_write|]. split.
    + intros k0 Hk0. cbn. rewrite lookup_insert_ne; [done|]. intros <-. congruence.
    + intros ch [= _ Ht1]. rewrite Hk. split; [done|]. cbn. by rewrite lookup_insert_eq, Ht1.
  - destruct (calculate_new _ _) as [t| |] eqn:Hc; [|intros [= <- <-]; by destruct Hkeep..].
    destruct (calculate_new_ok Htotal _ _ _ Hp Hc) as [Ht _]. intros [= <- <-]. split; [by apply tallies_ok_write|]. split.
    + intros k0 Hk0. cbn. rewrite lookup_insert_ne; [done|]. intros <-. congruence.
    + intros ch [= _ Ht1]. rewrite Hk. split; [done|]. cbn. by rewrite lookup_insert_eq, Ht1.
Qed.

(** Confirmed events are seen, each once. *)
Record confirmed_ok s (conf : list T) : Prop := {
  co_tallies : tallies_ok s;
  co_seen b : b ∈ conf → seens s !! hash_of b = Some true;
  co_once : NoDup (hash_of <$> conf);
}.

Lemma apply_all_inv updates powers epoch s s' r conf : confirmed_ok s conf → powers_ok powers →
  apply_all hash_of updates powers epoch s = (s', r) →
  confirmed_ok s' (conf ++ match r with Ok (_, new) => new | _ => [] end).
Proof using RL Htotal.
  intros Hc Hp. revert s s' r conf Hc. induction updates as [|u us IH]; intros s s' r conf Hc; cbn [apply_all].
  { intros [= <- <-]. by rewrite app_nil_r. }
  unfold mbind, stt_bind. destruct (apply_update hash_of u powers epoch s) as [s1 r1] eqn:Hu.
  destruct (apply_update_inv _ _ _ _ _ _ (co_tallies _ _ Hc) Hp Hu) as (H1 & H2 & H3).
  assert (Hc1 : confirmed_ok s1 conf) by (split; [done|intros b Hb; apply H2; by apply Hc|apply Hc]).
  destruct r1 as [[ch c]| |]; [|intros [= <- <-]; by rewrite app_nil_r..].
  destruct (apply_all hash_of us powers epoch s1) as [s2 r2] eqn:Hus.
  assert (Hstep : confirmed_ok s1 (conf ++ if c then [body u] else [])).
  { destruct c; [|by rewrite app_nil_r]. destruct (H3 _ eq_refl) as [Hn Hy]. split; [done| |].
    - intros b Hb. apply elem_of_app in Hb as [Hb|Hb%list_elem_of_singleton]; [by apply Hc1|by subst b].
    - rewrite fmap_app. apply NoDup_app. split_and!; [apply Hc| |apply NoDup_singleton].
      intros x (b & -> & Hb)%list_elem_of_fmap Hx%list_elem_of_singleton. apply Hn. rewrite <- Hx. by apply Hc. }
  apply (IH _ _ _ _ Hstep) in Hus. destruct r2 as [[chs new]| |]; intros [= <- <-].
  - destruct c; [by rewrite <- app_assoc in Hus|by rewrite app_nil_r in Hus].
  - rewrite app_nil_r in *. destruct Hus as [Ha Hb Hd]. split; [done|intros b Hx; apply Hb, elem_of_app; by left|].
    rewrite fmap_app in Hd. by apply NoDup_app in Hd as [Hd _].
  - rewrite app_nil_r in *. destruct Hus as [Ha Hb Hd]. split; [done|intros b Hx; apply Hb, elem_of_app; by left|].
    rewrite fmap_app in Hd. by apply NoDup_app in Hd as [Hd _].
Qed.

Lemma timeout_inv unbonding_len last_epoch s s' r conf : confirmed_ok s conf →
  timeout_events unbonding_len last_epoch s = (s', r) → confirmed_ok s' conf.
Proof using Type.
  intros [Hs Hseen Hnd]. unfold timeout_events, mbind, stt_bind, get. intros Hrun.
  assert (Hfr : ∀ k, _) by (intros k; exact (timeout_keys_frame _ _ _ _ k Hrun)). rewrite timed_out_spec in Hfr. split; [| |done].
  - intros k b Hk. destruct (Hfr k) as [(H1 & H2 & _)|[_ H1]]; [|congruence]. rewrite H2. apply Hs. congruence.
  - intros b Hb. apply Hseen in Hb. destruct (Hfr (hash_of b)) as [(H1 & _)|[Hin _]]; [congruence|]. exfalso.
    destruct (_ <=? _) in Hin; [by apply elem_of_nil in Hin|]. apply list_elem_of_filter in Hin as [He _].
    unfold expired in He. rewrite Hb in He. cbn in He. by rewrite andb_false_r in He.
Qed.
End bridge.

(** ** Properties *)

Section properties.
Context {A : AddressApi} {OA : CmpOrder Address} {P : BridgePos A} {R : URatioApi}.
Context {K : Type} `{Countable K} {OK : CmpOrder K} {T : Type} (hash_of : T → K).
Abbreviation Tallies := (Tallies (A:=A) (K:=K) (T:=T)).

Definition no_tallies : Tallies := mk_tallies ∅ ∅ ∅ ∅ ∅.

(** The protocol transactions: updates by votes, whose confirmed events are acted
    on, and timeouts, whether they succeed or not. *)
Inductive bridge_step : Tallies * list T → Tallies * list T → Prop :=
| step_updates voters powers updates epoch s conf s' r :
    get_voting_powers voters = Ok powers → apply_all hash_of updates powers epoch s = (s', r) →
    bridge_step (s, conf) (s', conf ++ match r with Ok (_, new) => new | _ => [] end)
| step_timeout unbonding_len last_epoch s conf s' r :
    timeout_events unbonding_len last_epoch s = (s', r) → bridge_step (s, conf) (s', conf).

(** C3. However votes and timeouts follow each other, an event is confirmed at
    most once, and only by a tally that counts every voter once, with its stake at
    the height it voted, and exceeds two thirds of the total of each epoch it was voted in. *)
Theorem eth_event_confirmed_once {RL : URatioLaws R} (s : Tallies) (conf : list T) :
  (∀ e, 0 ≤ get_total_voting_power e < 2 ^ 255) → rtc bridge_step (no_tallies, []) (s, conf) →
  NoDup (hash_of <$> conf) ∧
  ∀ b, b ∈ conf → ∃ t, read s (hash_of b) = Ok t ∧ seen t = true ∧
    tallied (map_to_list (seen_by t)) (voting_power t) ∧ quorum (map_to_list (seen_by t)).
Proof.
  intros Htotal Hrtc. assert (Hok : confirmed_ok hash_of s conf).
  { change s with (s, conf).1. change conf with (s, conf).2 at 2.
    eapply (rtc_ind_r (λ x, confirmed_ok hash_of x.1 x.2)); [| |exact Hrtc].
    - split; [intros k b; cbn; by rewrite lookup_empty|intros b Hb; by apply elem_of_nil in Hb|constructor].
    - intros x y _ Hstep Hx. destruct Hstep as [voters powers updates epoch s0 c0 s' r Hp Hr|u l s0 c0 s' r Hr].
      + by eapply apply_all_inv, Hr; [done| |eapply get_voting_powers_ok].
      + by eapply timeout_inv. }
  split; [apply Hok|]. intros b Hb. apply (co_seen _ _ _ Hok) in Hb as Hseen.
  apply (co_tallies _ _ _ Hok) in Hseen as (t & Hr & [Ht Hq] & Hs). exists t. by rewrite <- Hq.
Qed.

Lemma get_voting_powers_all voters powers x : get_voting_powers voters = Ok powers → x ∈ voters → is_Some (powers !! x).
Proof.
  unfold get_voting_powers, get_voting_powers_for_selected. intros Hv Hx. res_inv Hv. rename v into cons.
  assert (Hloop : ∀ acc r : gmap (Address * BlockHeight) Z, try_fold (λ acc '(addr, height),
      consensus_validators ← ok_or (cons !! height) (NoConsensusValidators height);
      v ← ok_or (snd <$> list_find (λ v, v.1 = addr) consensus_validators) (NotAConsensusValidator addr);
      (Ok (<[(addr, height) := v.2]> acc) : res VoteError _)) acc voters = Ok r → x ∈ voters ∨ is_Some (acc !! x) → is_Some (r !! x)).
  { clear. induction voters as [|[a h] l IH]; intros acc r; cbn [try_fold].
    - intros [= <-] [Hx|?]; [by apply elem_of_nil in Hx|done].
    - intros Hr Hx. apply res_bind_ok in Hr as (acc' & Hs & Hr). res_inv Hs. eapply IH; [done|].
      destruct (decide (x = (a, h))) as [->|Hne]; [right; rewrite lookup_insert_eq; eauto|]. rewrite lookup_insert_ne by done.
      destruct Hx as [[->|?]%elem_of_cons|?]; [done|by left|by right]. }
  eauto.
Qed.

Lemma new_votes_run (votes : gmap Address BlockHeight) powers :
  (∀ a h, votes !! a = Some h → is_Some (powers !! (a, h))) → ∃ l, new_votes votes powers = Ok l.
Proof.
  intros Hall. unfold new_votes. generalize (@nil (Address * (BlockHeight * Z))).
  assert (Hl : ∀ a h, (a, h) ∈ kvs votes → is_Some (powers !! (a, h))) by (intros a h Hx%elem_of_kvs; auto).
  revert Hl. induction (kvs votes) as [|[a h] l IH]; intros Hl acc; cbn [try_fold]; [eauto|].
  destruct (Hl a h) as [p ->]; [by left|]. cbn. apply IH. intros ???. apply Hl. by right.
Qed.

Lemma calculate_run {RL : URatioLaws R} (s : Tallies) k t votes powers l :
  (∀ e, 0 < get_total_voting_power e < 2 ^ 255) → (∀ x, 0 ≤ vote_power x) →
  (∀ l, NoDup l.*1 → zsum vote_power l < 2 ^ 256) → powers_ok powers →
  read s k = Ok t → tally_ok t → seen t = false → new_votes votes powers = Ok l → ∃ r, calculate s k l = Ok r.
Proof.
  intros Htotal Hpow Hfit Hp Hr Ht Hseen Hl. unfold calculate. rewrite Hr. cbn. rewrite Hseen.
  destruct (without_voters _ l) as [l' removed] eqn:Hw. destruct (fresh_votes _ _ _ _ _ _ Hl Hw) as [Hnd Hin].
  destruct (apply_run Htotal Hpow Hfit t l') as [t' ->]; [apply Ht|done| |cbn; eauto].
  intros a h p (Hv & Hpw & Hn)%Hin. apply powers_ok_power in Hpw as [-> ?]; done.
Qed.

(** C19. With the stakes of its voters known and some voting power in every epoch, an update of
    a tally succeeds: a tally that is seen stays as it is, another adds exactly the votes of those who had
    not voted, and the event is confirmed if and only if they make a quorum; other
    tallies do not change.  The voting power matters: with a total of zero the product that gives the
    threshold may panic. *)
Theorem eth_vote_update_exact {RL : URatioLaws R} (s : Tallies) (u : EthMsgUpdate) voters powers epoch :
  (∀ e, 0 < get_total_voting_power e < 2 ^ 255) → (∀ x, 0 ≤ vote_power x) →
  (∀ l, NoDup l.*1 → zsum vote_power l < 2 ^ 256) →
  tallies_ok s → get_voting_powers voters = Ok powers → (∀ a h, upd_seen_by u !! a = Some h → (a, h) ∈ voters) →
  ∃ s' changed c, apply_update hash_of u powers epoch s = (s', Ok (changed, c)) ∧
    (∀ k, k ≠ hash_of (body u) → read s' k = read s k) ∧
    match seens s !! hash_of (body u) with
    | Some true => s' = s ∧ c = false
    | seen => ∃ t, read s' (hash_of (body u)) = Ok t ∧ tally_ok t ∧ (c = true ↔ quorum (map_to_list (seen_by t))) ∧
        seen_by t = (if seen then default ∅ (seen_bys s !! hash_of (body u)) else ∅) ∪ upd_seen_by u
    end.
Proof.
  intros Htotal Hpow Hfit Hs Hv Hin. pose proof (get_voting_powers_ok _ _ Hv) as Hp.
  assert (Htotal' : ∀ e, 0 ≤ get_total_voting_power e < 2 ^ 255) by (intros e; specialize (Htotal e); lia).
  assert (Hall : ∀ a h, upd_seen_by u !! a = Some h → is_Some (powers !! (a, h))).
  { intros a h Ha. eapply get_voting_powers_all; [done|]. by apply Hin. }
  unfold apply_update, mbind, stt_bind, get, lift, modify, mret, stt_ret, maybe_read_seen. set (k := hash_of (body u)).
  destruct (seens s !! k) as [[]|] eqn:Hk.
  - exists s, ∅, false. done.
  - destruct (Hs k false Hk) as (t & Hr & Ht & Hseen). destruct (new_votes_run _ _ Hall) as [l Hl]. rewrite Hl.
    destruct (calculate_run s k t _ _ _ Htotal Hpow Hfit Hp Hr Ht Hseen Hl) as [[t' ch] Hc]. rewrite Hc.
    destruct (calculate_ok Htotal' _ _ _ _ _ _ _ _ Hp Hr Ht Hseen Hl Hc) as (Ht' & Hby & ->).
    assert (Hold : default ∅ (seen_bys s !! k) = seen_by t) by (unfold read in Hr; res_inv Hr; by rewrite Hres0).
    destruct (decide _) as [He|Hne].
    + apply keys_changed_empty in He as ->. do 3 eexists. split; [done|]. split; [done|]. exists t. split; [done|]. split; [done|].
      split; [|by rewrite Hold]. rewrite <- (to_seen _ Ht), Hseen. done.
    + rewrite keys_changed_seen by done. do 3 eexists. split; [done|]. split; [intros k0 ?; by apply read_write_ne|].
      exists t'. split; [apply read_write|]. split; [done|]. split; [apply Ht'|by rewrite Hold].
  - destruct (calculate_new_run Htotal Hpow Hfit (upd_seen_by u) powers Hp Hall) as [t Hc]. rewrite Hc.
    destruct (calculate_new_ok Htotal' _ _ _ Hp Hc) as [Ht Hby]. do 3 eexists. split; [done|]. split; [intros k0 ?; by apply read_write_ne|].
    exists t. split; [apply read_write|]. split; [done|]. split; [apply Ht|]. by rewrite Hby, (left_id_L ∅ (∪)).
Qed.
End properties.

(** Two epochs with the total [S], in which [part] of the stake is at another validator. *)
Definition moving_stake (S part : Z) : BridgePos addr_ref := {|
  get_epoch h := Some h;
  get_total_voting_power _ := S;
  get_consensus_validators e := (if e =? 0 then [(1%N, part); (3%N, S - part)] else [(2%N, part); (3%N, S - part)]) : list (N * Z);
|}.

(** C23. The stake counted over several epochs can be the same stake: with the same
    total in two epochs, two validators that each hold a third of it in one of them, as by a
    redelegation from one to the other, confirm an event without any other vote. *)
Theorem quorum_across_epochs (S part : Z) : 0 < S < 2 ^ 255 → part = S / 3 + 1 →
  (∀ e, zsum snd (get_consensus_validators (BridgePos:=moving_stake S part) e) = get_total_voting_power (BridgePos:=moving_stake S part) e) ∧
  ∃ powers t, get_voting_powers (P:=moving_stake S part) [(1%N, 0); (2%N, 1)] = Ok powers ∧
    calculate_new (P:=moving_stake S part) {[1%N := 0; 2%N := 1]} powers = Ok t ∧ seen t = true ∧
    ∀ e p, voting_power t !! e = Some p → p = part.
Proof.
  intros HS Hpart. split; [intros e; cbn; destruct (e =? 0); cbn; lia|].
  exists (<[(2%N, 1) := part]> {[(1%N, 0) := part]}), (mk_tally (A:=addr_ref) (<[1 := part]> {[0 := part]}) {[1%N := 0; 2%N := 1]} true).
  assert (Ha : ∀ vp h, vp !! h = None → aggregate (P:=moving_stake S part) vp h part = Ok (<[h := part]> vp)).
  { intros vp h Hh. unfold aggregate. cbn. rewrite Hh. unfold ZAmount.add. cbn -[Z.add chk]. rewrite chk_in by dlia. done. }
  assert (Hq : has_majority_quorum (P:=moving_stake S part) (<[1 := part]> {[0 := part]}) = Ok true).
  { assert (Hm : epoch_max_voting_power (P:=moving_stake S part) (<[1 := part]> {[0 := part]}) = Some S) by (unfold epoch_max_voting_power;
      change (kvs _) with [(0, part); (1, part)]; cbn -[Z.max]; by rewrite Z.max_id).
    assert (Hc : checked_mul_amount TWO_THIRDS S = Some (2 * S / 3)) by (by apply uratio_mul_run; lia).
    assert (Ht : tallied_stake (A:=addr_ref) (<[1 := part]> {[0 := part]}) = Ok (part + (part + 0))) by (unfold tallied_stake;
      change (kvs _) with [(0, part); (1, part)]; rewrite zamount_sum; [done|repeat constructor; cbn; dlia|cbn -[Z.add]; unfold id; dlia]).
    unfold has_majority_quorum. rewrite Hm, Hc, Ht. cbn -[Z.div Z.mul Z.add Z.ltb]. f_equal. apply Z.ltb_lt. dlia. }
  split; [by vm_compute|]. split; [|split; [done|]].
  - unfold calculate_new. change (kvs _) with [(1%N, 0); (2%N, 1)] at 1. cbn [try_fold].
    change (_ !! (1%N, 0)) with (Some part). cbv iota. rewrite Ha by done. cbn [mbind res_bind].
    change (_ !! (2%N, 1)) with (Some part). cbv iota. rewrite Ha by done. rewrite insert_empty. cbn [mbind res_bind]. by rewrite Hq.
  - intros e p. cbn. rewrite lookup_insert_Some, lookup_singleton_Some. intros [[_ <-]|[_ [_ <-]]]; done.
Qed.

(** ** Examples *)

(** Three validators whose stakes do not change; epochs of ten blocks. *)
Definition example_stake (a : N) : Z := if (a =? 1)%N then 40 else if (a =? 2)%N then 40 else if (a =? 3)%N then 20 else 0.
Definition example_pos : BridgePos addr_ref := {|
  get_epoch h := Some (h / 10);
  get_total_voting_power _ := 100;
  get_consensus_validators _ := [(1%N, 40); (2%N, 40); (3%N, 20)] : list (N * Z);
|}.
#[local] Existing Instance example_pos.

Definition example_votes : list (N * Z) := [(1%N, 5); (2%N, 16)].
Definition example_powers : gmap (N * Z) Z := {[(1%N, 5) := 40; (2%N, 16) := 40]}.
Definition example_update : EthMsgUpdate (A:=addr_ref) (T:=Z) := mk_update (A:=addr_ref) 7 {[1%N := 5; 2%N := 16]}.
Definition example_run : Tallies (A:=addr_ref) (K:=Z) (T:=Z) :=
  (apply_all (A:=addr_ref) (K:=Z) (T:=Z) id [example_update] example_powers 1 (no_tallies (A:=addr_ref))).1.

Lemma example_stake_spec x : vote_power (A:=addr_ref) x = example_stake x.1.
Proof.
  destruct x as [a h]. unfold vote_power, stake_in, example_stake. cbn.
  destruct (N.eqb_spec a 1) as [->|]; [done|]. destruct (N.eqb_spec a 2) as [->|]; [done|]. destruct (N.eqb_spec a 3) as [->|]; [done|].
  do 3 (rewrite decide_False by done; cbn). done.
Qed.

Lemma example_fit (l : list (N * Z)) : NoDup l.*1 → zsum (vote_power (A:=addr_ref)) l < 2 ^ 256.
Proof.
  intros Hnd. rewrite (zsum_ext _ (λ x, example_stake x.1) l) by (intros; apply example_stake_spec).
  rewrite <- (zsum_fmap example_stake fst).
  rewrite (zsum_ext _ (λ a, ((if decide (a = 1%N) then 40 else 0) + (if decide (a = 2%N) then 40 else 0)) + (if decide (a = 3%N) then 20 else 0))).
  - rewrite !zsum_add, !zsum_single by done. repeat destruct (decide _); lia.
  - intros a _. unfold example_stake.
    destruct (N.eqb_spec a 1) as [->|]; [done|]. destruct (N.eqb_spec a 2) as [->|]; [done|]. destruct (N.eqb_spec a 3) as [->|]; [done|].
    by rewrite !decide_False by congruence.
Qed.

Lemma eth_event_confirmed_once_witness : NoDup ([7] : list Z) ∧
  ∀ b, b ∈ [7] → ∃ t, read example_run b = Ok t ∧ seen t = true ∧
    tallied (map_to_list (seen_by t)) (voting_power t) ∧ quorum (map_to_list (seen_by t)).
Proof.
  apply (eth_event_confirmed_once (A:=addr_ref) (K:=Z) (T:=Z) id example_run [7]); [cbn; lia|].
  apply rtc_once. apply (step_updates (A:=addr_ref) id example_votes example_powers [example_update] 1 no_tallies [] example_run
    (Ok (list_to_set ((7,.) <$> all_segments), [7]))); by vm_compute.
Defined.

Lemma eth_vote_update_exact_witness : ∃ s' changed c,
  apply_update (A:=addr_ref) id example_update example_powers 1 (no_tallies (A:=addr_ref)) = (s', Ok (changed, c)) ∧
  (∀ k, k ≠ 7 → read s' k = read (no_tallies (A:=addr_ref) (T:=Z)) k) ∧
  ∃ t, read s' 7 = Ok t ∧ tally_ok t ∧ (c = true ↔ quorum (map_to_list (seen_by t))) ∧ seen_by t = ∅ ∪ upd_seen_by example_update.
Proof.
  apply (eth_vote_update_exact (A:=addr_ref) (K:=Z) (T:=Z) id no_tallies example_update example_votes example_powers 1).
  - cbn; lia.
  - intros x. rewrite example_stake_spec. unfold example_stake. repeat case_match; lia.
  - apply example_fit.
  - intros k b. cbn. by rewrite lookup_empty.
  - by vm_compute.
  - intros a h Ha. unfold example_update in Ha. cbn in Ha. apply lookup_insert_Some in Ha as [[<- <-]|[_ [<- <-]%lookup_singleton_Some]]; unfold example_votes; set_solver.
Defined.

Lemma quorum_across_epochs_witness :
  (∀ e, zsum snd (get_consensus_validators (BridgePos:=moving_stake 100 34) e) = get_total_voting_power (BridgePos:=moving_stake 100 34) e) ∧
  ∃ powers t, get_voting_powers (P:=moving_stake 100 34) [(1%N, 0); (2%N, 1)] = Ok powers ∧
    calculate_new (P:=moving_stake 100 34) {[1%N := 0; 2%N := 1]} powers = Ok t ∧ seen t = true ∧
    ∀ e p, voting_power t !! e = Some p → p = 34.
Proof. apply (quorum_across_epochs 100 34); [lia|done]. Defined.
