(* ===== verification/TransToken.v ===== *)
(** * Transparent tokens (crates/trans_token) and the multitoken validity
    predicate (crates/namada/src/ledger/native_vp/multitoken.rs)

    Balances, supplies, minters and denominations live under the keys of
    [storage_key.rs].  The store maps keys to decoded values; a value of another
    type is a decoding error.  Amounts are integers in [0, 2^256), the
    semantics [Token.ZAmount] of the word-level [Amount].  The properties are
    conservation: what transfers, mints and burns do to the sum of balances and
    to the supply, and what an accepting validity predicate guarantees. *)

From Stdlib Require Import String.
From S2P Require Import Prelude Words Uint Decimal I256 Dec Token StorageKey.

(** The internal addresses the token code distinguishes. *)
Class InternalAddrs (A : AddressApi) : Type := {
  multitoken : Address;
  pgf : Address;
  ibc : Address;
  pos : Address;
  gov : Address;
  (** [Nut(erc20)] to [Erc20(erc20)] *)
  nut_erc20 : Address → option Address;
  is_ibc_token : Address → bool;
}.

#[export] Instance internal_ref : InternalAddrs addr_ref := {
  multitoken := 0%N; pgf := 1%N; ibc := 2%N; pos := 3%N; gov := 4%N;
  nut_erc20 a := if N.eqb a 5 then Some 6%N else None;
  is_ibc_token a := N.eqb a 7;
}.

Section token.
Context {A : AddressApi} {I : InternalAddrs A}.

Inductive value : Type :=
| VAmount (a : Z)
| VAddress (a : Address)
| VDenom (d : Z).

Abbreviation Store := (gmap Key value).

Inductive TokenError : Type :=
| DecodeError
| AmountOverflow
| AmountInsufficient
| TransferOverflow
| InsufficientBalance
| NoDenom
| ScaleError (e : AmountParseError).

(** ** Storage keys: [storage_key.rs] *)

Definition BALANCE_STORAGE_KEY : text := lit "balance".
Definition DENOM_STORAGE_KEY : text := lit "denomination".
Definition MINTER_STORAGE_KEY : text := lit "minter".
Definition MINTED_STORAGE_KEY : text := lit "minted".
Definition PARAMETERS_STORAGE_KEY : text := lit "parameters".

(** [Key::push(..).expect(..)]; [None] is a panic. *)
Definition must_push (k : Key) (s : DbKeySeg) : option Key := ok (key_push k (seg_raw s)).

Definition balance_prefix (token_addr : Address) : option Key :=
  k ← must_push (mk_key [AddressSeg multitoken]) (AddressSeg token_addr);
  must_push k (StringSeg BALANCE_STORAGE_KEY).
Definition balance_key (token_addr owner : Address) : option Key :=
  k ← balance_prefix token_addr; must_push k (AddressSeg owner).
Definition parameter_prefix (token_addr : Address) : option Key :=
  k ← must_push (mk_key [AddressSeg multitoken]) (AddressSeg token_addr);
  must_push k (StringSeg PARAMETERS_STORAGE_KEY).
Definition minter_key (token_addr : Address) : option Key :=
  k ← must_push (mk_key [AddressSeg multitoken]) (AddressSeg token_addr);
  must_push k (StringSeg MINTER_STORAGE_KEY).
Definition minted_balance_key (token_addr : Address) : option Key :=
  k ← balance_prefix token_addr; must_push k (StringSeg MINTED_STORAGE_KEY).
Definition denom_key (token_addr : Address) : option Key :=
  must_push (mk_key [AddressSeg token_addr]) (StringSeg DENOM_STORAGE_KEY).

Definition is_balance_key (token_addr : Address) (key : Key) : option Address :=
  match segments key with
  | [AddressSeg addr; AddressSeg token; StringSeg balance; AddressSeg owner] =>
      if decide (addr = multitoken ∧ token = token_addr ∧ balance = BALANCE_STORAGE_KEY)
      then Some owner else None
  | _ => None
  end.
Definition is_any_token_parameter_key (key : Key) : option Address :=
  match segments key with
  | [AddressSeg addr; AddressSeg token; StringSeg parameter; StringSeg _] =>
      if decide (addr = multitoken ∧ parameter = PARAMETERS_STORAGE_KEY) then Some token else None
  | _ => None
  end.
Definition is_any_token_balance_key (key : Key) : option (Address * Address) :=
  match segments key with
  | [AddressSeg addr; AddressSeg token; StringSeg balance; AddressSeg owner] =>
      if decide (addr = multitoken ∧ balance = BALANCE_STORAGE_KEY)
      then Some (token, owner) else None
  | _ => None
  end.
Definition is_denom_key (token_addr : Address) (key : Key) : bool :=
  match head (segments key), last (segments key) with
  | Some (AddressSeg addr), Some (StringSeg k) =>
      bool_decide (k = DENOM_STORAGE_KEY) && bool_decide (addr = token_addr)
  | _, _ => false
  end.
Definition is_any_minter_key (key : Key) : option Address :=
  match segments key with
  | [AddressSeg addr; AddressSeg token; StringSeg minter] =>
      if decide (addr = multitoken ∧ minter = MINTER_STORAGE_KEY) then Some token else None
  | _ => None
  end.
Definition is_any_minted_balance_key (key : Key) : option Address :=
  match segments key with
  | [AddressSeg addr; AddressSeg token; StringSeg balance; StringSeg owner] =>
      if decide (addr = multitoken ∧ balance = BALANCE_STORAGE_KEY ∧ owner = MINTED_STORAGE_KEY)
      then Some token else None
  | _ => None
  end.

(** ** Typed access *)

Definition as_amount (v : option value) : res TokenError (option Z) :=
  match v with
  | None => Ok None
  | Some (VAmount a) => Ok (Some a)
  | Some _ => Err DecodeError
  end.
Definition read_amount (k : Key) : stt Store TokenError (option Z) :=
  s ← get; lift (as_amount (s !! k)).
Definition write_value (k : Key) (v : value) : stt Store TokenError unit :=
  modify (λ s, <[k := v]> s).

(** ** Storage functions: [storage.rs] *)

Definition write_params (address : Address) : stt Store TokenError unit :=
  k ← lift (expect (minted_balance_key address)); write_value k (VAmount 0).

Definition read_balance (token owner : Address) : stt Store TokenError Z :=
  k ← lift (expect (balance_key token owner));
  b ← read_amount k; mret (default 0 b).

Definition update_balance (token owner : Address) (f : Z → res TokenError Z) : stt Store TokenError unit :=
  k ← lift (expect (balance_key token owner));
  b ← read_amount k;
  new_balance ← lift (f (default 0 b));
  write_value k (VAmount new_balance).

Definition increment_balance (token owner : Address) (amount : Z) : stt Store TokenError unit :=
  update_balance token owner (λ cur, ok_or (ZAmount.add cur amount) AmountOverflow).
Definition decrement_balance (token owner : Address) (amount : Z) : stt Store TokenError unit :=
  update_balance token owner (λ cur, ok_or (ZAmount.sub cur amount) AmountInsufficient).

Definition read_total_supply (token : Address) : stt Store TokenError Z :=
  k ← lift (expect (minted_balance_key token));
  b ← read_amount k; mret (default 0 b).

Definition update_total_supply (token : Address) (f : Z → res TokenError Z) : stt Store TokenError unit :=
  k ← lift (expect (minted_balance_key token));
  b ← read_amount k;
  new_supply ← lift (f (default 0 b));
  write_value k (VAmount new_supply).
Definition increment_total_supply (token : Address) (amount : Z) : stt Store TokenError unit :=
  update_total_supply token (λ cur, ok_or (ZAmount.add cur amount) AmountOverflow).
Definition decrement_total_supply (token : Address) (amount : Z) : stt Store TokenError unit :=
  update_total_supply token (λ cur, ok_or (ZAmount.sub cur amount) AmountInsufficient).

Definition get_effective_total_native_supply (native_token : Address) : stt Store TokenError Z :=
  raw_total ← read_total_supply native_token;
  pgf_balance ← read_balance native_token pgf;
  lift (expect (ZAmount.sub raw_total pgf_balance)).

Definition read_denom (token : Address) : stt Store TokenError (option Z) :=
  let find (k : option Key) (is_default_zero : bool) : stt Store TokenError (option Z) :=
    k ← lift (expect k);
    s ← get;
    match s !! k with
    | Some (VDenom d) => mret (Some d)
    | Some _ => throw DecodeError
    | None => mret (Some (if is_default_zero then 0 else NATIVE_MAX_DECIMAL_PLACES))
    end in
  match nut_erc20 token with
  | Some erc20 => find (denom_key erc20) true
  | None => if is_ibc_token token then mret (Some 0) else find (denom_key token) false
  end.
Definition write_denom (token : Address) (d : Z) : stt Store TokenError unit :=
  k ← lift (expect (denom_key token)); write_value k (VDenom d).

Definition transfer (token src dest : Address) (amount : Z) : stt Store TokenError unit :=
  if amount =? 0 then mret ()
  else
    src_key ← lift (expect (balance_key token src));
    src_balance ← read_balance token src;
    match ZAmount.sub src_balance amount with
    | Some new_src_balance =>
        dest_key ← lift (expect (balance_key token dest));
        dest_balance ← read_balance token dest;
        match ZAmount.add dest_balance amount with
        | Some new_dest_balance =>
            _ ← write_value src_key (VAmount new_src_balance);
            write_value dest_key (VAmount new_dest_balance)
        | None => throw TransferOverflow
        end
    | None => throw InsufficientBalance
    end.

Definition credit_tokens (token dest : Address) (amount : Z) : stt Store TokenError unit :=
  _ ← increment_balance token dest amount;
  increment_total_supply token amount.

Definition mint_tokens (minter token dest : Address) (amount : Z) : stt Store TokenError unit :=
  _ ← credit_tokens token dest amount;
  k ← lift (expect (minter_key token));
  write_value k (VAddress minter).

Definition burn_tokens (token source : Address) (amount : Z) : stt Store TokenError unit :=
  source_balance_key ← lift (expect (balance_key token source));
  source_balance ← read_balance token source;
  amount_to_burn ←
    match ZAmount.sub source_balance amount with
    | Some new_amount =>
        _ ← write_value source_balance_key (VAmount new_amount); mret amount
    | None =>
        _ ← write_value source_balance_key (VAmount 0); mret source_balance
    end;
  decrement_total_supply token amount_to_burn.

(** [denominated] and [denom_to_amount], on the integer of the amount. *)
Definition denominated (amount : Z) (token : Address) : stt Store TokenError (Z * Z) :=
  d ← read_denom token;
  match d with Some d => mret (amount, d) | None => throw NoDenom end.
Definition denom_to_amount {U : UintApi} (x : DenominatedAmount) (token : Address) :
    stt Store TokenError Amount :=
  d ← read_denom token;
  match d with
  | Some d => lift (map_err ScaleError (DenomM.scale x d))
  | None => throw NoDenom
  end.

(** ** What the store holds *)

Definition bkey (token owner : Address) : Key :=
  mk_key [AddressSeg multitoken; AddressSeg token; StringSeg BALANCE_STORAGE_KEY; AddressSeg owner].
Definition mkey (token : Address) : Key :=
  mk_key [AddressSeg multitoken; AddressSeg token; StringSeg BALANCE_STORAGE_KEY;
          StringSeg MINTED_STORAGE_KEY].
Definition minterk (token : Address) : Key :=
  mk_key [AddressSeg multitoken; AddressSeg token; StringSeg MINTER_STORAGE_KEY].

Definition amount_at (s : Store) (k : Key) : Z :=
  match s !! k with Some (VAmount a) => a | _ => 0 end.
Definition balance (s : Store) (token owner : Address) : Z := amount_at s (bkey token owner).
Definition supply (s : Store) (token : Address) : Z := amount_at s (mkey token).

(** Balances and supplies decode, and fit 256 bits. *)
Definition wf_store (s : Store) : Prop :=
  ∀ k v, s !! k = Some v →
    is_Some (is_any_token_balance_key k) ∨ is_Some (is_any_minted_balance_key k) →
    ∃ a, v = VAmount a ∧ 0 ≤ a < 2 ^ 256.

(** The sum of the balances of [token] over the given owners. *)
Definition total_balance (s : Store) (token : Address) (owners : list Address) : Z :=
  foldr (λ o acc, balance s token o + acc) 0 owners.

Section laws.
Context {AL : AddressLaws A}.

Lemma must_push_eq k s : plain_seg s → must_push k s = Some (mk_key (segments k ++ [s])).
Proof using AL. intros Hs. unfold must_push, key_push. by rewrite seg_parse_raw. Qed.

Lemma plain_lit t : bool_decide (KEY_SEGMENT_SEPARATOR ∈ t) = false →
  bool_decide (head t = Some RESERVED_ADDRESS_PREFIX) = false → plain_seg (StringSeg t).
Proof using Type. intros ?%bool_decide_eq_false ?%bool_decide_eq_false. done. Qed.

Lemma balance_key_eq t o : balance_key t o = Some (bkey t o).
Proof using AL.
  unfold balance_key, balance_prefix. rewrite must_push_eq by done. runo.
  rewrite must_push_eq by (by apply plain_lit). runo. by rewrite must_push_eq.
Qed.

Lemma minted_balance_key_eq t : minted_balance_key t = Some (mkey t).
Proof using AL.
  unfold minted_balance_key, balance_prefix. rewrite must_push_eq by done. runo.
  rewrite must_push_eq by (by apply plain_lit). runo. by rewrite must_push_eq by (by apply plain_lit).
Qed.

Lemma minter_key_eq t : minter_key t = Some (minterk t).
Proof using AL.
  unfold minter_key. rewrite must_push_eq by done. runo.
  by rewrite must_push_eq by (by apply plain_lit).
Qed.

Lemma bkey_is t o : is_any_token_balance_key (bkey t o) = Some (t, o).
Proof using Type. unfold is_any_token_balance_key. cbn. by rewrite decide_True. Qed.

Lemma mkey_is t : is_any_minted_balance_key (mkey t) = Some t.
Proof using Type. unfold is_any_minted_balance_key. cbn. by rewrite decide_True. Qed.

Lemma amount_at_range s k : wf_store s → 0 ≤ amount_at s k < 2 ^ 256 ∨
  ¬ (is_Some (is_any_token_balance_key k) ∨ is_Some (is_any_minted_balance_key k)).
Proof using Type.
  intros Hs. unfold amount_at. destruct (s !! k) as [v|] eqn:E; [|left; lia].
  destruct (decide (is_Some (is_any_token_balance_key k) ∨ is_Some (is_any_minted_balance_key k)))
    as [Hk|Hk]; [|by right].
  left. destruct (Hs _ _ E Hk) as (a & -> & ?). done.
Qed.

Lemma balance_range s t o : wf_store s → 0 ≤ balance s t o < 2 ^ 256.
Proof using Type.
  intros Hs. destruct (amount_at_range s (bkey t o) Hs) as [?|[]]; [done|]. left. by rewrite bkey_is.
Qed.

Lemma supply_range s t : wf_store s → 0 ≤ supply s t < 2 ^ 256.
Proof using Type.
  intros Hs. destruct (amount_at_range s (mkey t) Hs) as [?|[]]; [done|]. right. by rewrite mkey_is.
Qed.

Lemma as_amount_wf s k : wf_store s →
  is_Some (is_any_token_balance_key k) ∨ is_Some (is_any_minted_balance_key k) →
  ∃ o, as_amount (s !! k) = Ok o ∧ default 0 o = amount_at s k.
Proof using Type.
  intros Hs Hk. unfold as_amount, amount_at. destruct (s !! k) as [v|] eqn:E; [|by exists None].
  destruct (Hs _ _ E Hk) as (a & -> & ?). by exists (Some a).
Qed.

Lemma read_balance_run s t o : wf_store s → read_balance t o s = (s, Ok (balance s t o)).
Proof using AL.
  intros Hs. unfold read_balance, read_amount, mbind, stt_bind, lift, get, mret, stt_ret, expect.
  rewrite balance_key_eq.
  destruct (as_amount_wf s (bkey t o) Hs) as (x & -> & Hx); [left; by rewrite bkey_is|].
  unfold balance. by rewrite Hx.
Qed.

Lemma update_balance_run s t o f : wf_store s →
  update_balance t o f s =
  match f (balance s t o) with
  | Ok v => (<[bkey t o := VAmount v]> s, Ok ())
  | Err e => (s, Err e)
  | Panic => (s, Panic)
  end.
Proof using AL.
  intros Hs. unfold update_balance, read_amount, mbind, stt_bind, lift, get, modify, write_value, expect.
  rewrite balance_key_eq.
  destruct (as_amount_wf s (bkey t o) Hs) as (x & -> & Hx); [left; by rewrite bkey_is|].
  rewrite Hx. fold (balance s t o). by destruct (f (balance s t o)).
Qed.

Lemma update_total_supply_run s t f : wf_store s →
  update_total_supply t f s =
  match f (supply s t) with
  | Ok v => (<[mkey t := VAmount v]> s, Ok ())
  | Err e => (s, Err e)
  | Panic => (s, Panic)
  end.
Proof using AL.
  intros Hs. unfold update_total_supply, read_amount, mbind, stt_bind, lift, get, modify, write_value, expect.
  rewrite minted_balance_key_eq.
  destruct (as_amount_wf s (mkey t) Hs) as (x & -> & Hx); [right; by rewrite mkey_is|].
  rewrite Hx. fold (supply s t). by destruct (f (supply s t)).
Qed.

(** The whole of [transfer]. *)
Lemma transfer_run s t src dest a : wf_store s → 0 ≤ a →
  transfer t src dest a s =
  if a =? 0 then (s, Ok ())
  else if balance s t src <? a then (s, Err InsufficientBalance)
  else if 2 ^ 256 <=? balance s t dest + a then (s, Err TransferOverflow)
  else (<[bkey t dest := VAmount (balance s t dest + a)]>
          (<[bkey t src := VAmount (balance s t src - a)]> s), Ok ()).
Proof using AL.
  intros Hs Ha. pose proof (balance_range s t src Hs). pose proof (balance_range s t dest Hs).
  unfold transfer. destruct (Z.eqb_spec a 0); [done|].
  pose proof (read_balance_run s t src Hs) as R1. pose proof (read_balance_run s t dest Hs) as R2.
  unfold mbind, stt_bind, lift, modify, write_value, expect, throw in *. rewrite !balance_key_eq, R1.
  unfold ZAmount.sub, ZAmount.add. destruct (Z.ltb_spec (balance s t src) a).
  { by rewrite (proj2 (chk_None _ _)) by lia. }
  rewrite chk_in by lia. rewrite R2. destruct (Z.leb_spec (2 ^ 256) (balance s t dest + a)).
  - by rewrite (proj2 (chk_None _ _)) by lia.
  - by rewrite chk_in by lia.
Qed.

Lemma wf_store_insert s k a : wf_store s → 0 ≤ a < 2 ^ 256 → wf_store (<[k := VAmount a]> s).
Proof using Type.
  intros Hs Ha k' v. destruct (decide (k = k')) as [<-|].
  - rewrite lookup_insert_eq. intros [= <-] _. by exists a.
  - rewrite lookup_insert_ne by done. apply Hs.
Qed.

Lemma bkey_inj t o t' o' : bkey t o = bkey t' o' → t = t' ∧ o = o'.
Proof using Type. by intros [= -> ->]. Qed.

Lemma balance_insert s t o v t' o' :
  balance (<[bkey t o := VAmount v]> s) t' o' =
  if decide (t' = t ∧ o' = o) then v else balance s t' o'.
Proof using Type.
  unfold balance, amount_at. destruct (decide _) as [[-> ->]|Hne].
  - by rewrite lookup_insert_eq.
  - rewrite lookup_insert_ne; [done|]. intros [-> ->]%bkey_inj. tauto.
Qed.

Lemma balance_insert_mkey s t v t' o' : balance (<[mkey t := VAmount v]> s) t' o' = balance s t' o'.
Proof using Type. unfold balance, amount_at. rewrite lookup_insert_ne; [done|]. intros [=]. Qed.

Lemma supply_insert s t v t' :
  supply (<[mkey t := VAmount v]> s) t' = if decide (t' = t) then v else supply s t'.
Proof using Type.
  unfold supply, amount_at. destruct (decide _) as [->|Hne].
  - by rewrite lookup_insert_eq.
  - rewrite lookup_insert_ne; [done|]. intros [=]. done.
Qed.

Lemma supply_insert_bkey s t o v t' : supply (<[bkey t o := VAmount v]> s) t' = supply s t'.
Proof using Type. unfold supply, amount_at. rewrite lookup_insert_ne; [done|]. intros [=]. Qed.

Lemma total_insert s t o v t' owners : NoDup owners → o ∈ owners →
  total_balance (<[bkey t o := VAmount v]> s) t' owners =
  total_balance s t' owners + if decide (t' = t) then v - balance s t o else 0.
Proof using Type.
  unfold total_balance. destruct (decide (t' = t)) as [->|Hne].
  - induction 1 as [|o' owners Ho' Hnd IH]; intros Hin; [by apply elem_of_nil in Hin|].
    cbn [foldr]. rewrite balance_insert. destruct (decide (o' = o)) as [->|Hoo].
    + rewrite decide_True by done. assert (E : ∀ l, o ∉ l →
        foldr (λ o0 acc, balance (<[bkey t o := VAmount v]> s) t o0 + acc) 0 l =
        foldr (λ o0 acc, balance s t o0 + acc) 0 l).
      { induction l as [|x l IHl]; [done|]. cbn. rewrite not_elem_of_cons. intros [? ?].
        rewrite balance_insert, decide_False by naive_solver. by rewrite IHl. }
      rewrite E by done. lia.
    + rewrite decide_False by naive_solver. apply elem_of_cons in Hin as [->|Hin]; [done|].
      rewrite IH by done. lia.
  - intros _ _. rewrite Z.add_0_r. induction owners as [|x l IHl]; [done|]. cbn.
    rewrite balance_insert, decide_False by naive_solver. by rewrite IHl.
Qed.

Lemma total_insert_mkey s t v t' owners :
  total_balance (<[mkey t := VAmount v]> s) t' owners = total_balance s t' owners.
Proof using Type.
  unfold total_balance. induction owners as [|x l IH]; [done|]. cbn. by rewrite balance_insert_mkey, IH.
Qed.
End laws.

End token.

(** ** Token operations as steps *)

Section steps.
Context {A : AddressApi} {I : InternalAddrs A} {AL : AddressLaws A}.

Abbreviation Store := (gmap Key value).

Inductive TokOp : Type :=
| OpTransfer (token src dest : Address) (amount : Z)
| OpCredit (token dest : Address) (amount : Z)
| OpMint (minter token dest : Address) (amount : Z)
| OpBurn (token source : Address) (amount : Z).

Definition run_op (op : TokOp) : stt Store TokenError unit :=
  match op with
  | OpTransfer token src dest amount => transfer token src dest amount
  | OpCredit token dest amount => credit_tokens token dest amount
  | OpMint minter token dest amount => mint_tokens minter token dest amount
  | OpBurn token source amount => burn_tokens token source amount
  end.

(** The operation is between two different accounts among [owners], of an
    amount. *)
Definition op_among (owners : list Address) (op : TokOp) : Prop :=
  match op with
  | OpTransfer _ src dest a => src ∈ owners ∧ dest ∈ owners ∧ src ≠ dest ∧ 0 ≤ a < 2 ^ 256
  | OpCredit _ dest a | OpMint _ _ dest a => dest ∈ owners ∧ 0 ≤ a < 2 ^ 256
  | OpBurn _ source a => source ∈ owners ∧ 0 ≤ a < 2 ^ 256
  end.

(** A successful operation. *)
Inductive tok_step (owners : list Address) : Store → Store → Prop :=
| step_ok op s s' : op_among owners op → run_op op s = (s', Ok ()) → tok_step owners s s'.

(** Every token's balances add up to its supply. *)
Definition balanced (owners : list Address) (s : Store) : Prop :=
  wf_store s ∧ ∀ t, total_balance s t owners = supply s t.

Lemma credit_run s t o a : wf_store s → 0 ≤ a →
  credit_tokens t o a s =
  if 2 ^ 256 <=? balance s t o + a then (s, Err AmountOverflow)
  else let s1 := <[bkey t o := VAmount (balance s t o + a)]> s in
       if 2 ^ 256 <=? supply s t + a then (s1, Err AmountOverflow)
       else (<[mkey t := VAmount (supply s t + a)]> s1, Ok ()).
Proof using AL.
  intros Hs Ha. pose proof (balance_range s t o Hs). pose proof (supply_range s t Hs).
  unfold credit_tokens, increment_balance, increment_total_supply, mbind, stt_bind.
  rewrite update_balance_run by done. unfold ZAmount.add.
  destruct (Z.leb_spec (2 ^ 256) (balance s t o + a)).
  { by rewrite (proj2 (chk_None _ _)) by lia. }
  rewrite chk_in by lia. cbn [ok_or]. rewrite update_total_supply_run by (by apply wf_store_insert; [|lia]).
  rewrite supply_insert_bkey. destruct (Z.leb_spec (2 ^ 256) (supply s t + a)).
  - by rewrite (proj2 (chk_None _ _)) by lia.
  - by rewrite chk_in by lia.
Qed.

Lemma burn_run s t o a : wf_store s → 0 ≤ a →
  burn_tokens t o a s =
  let b := Z.min a (balance s t o) in
  let s1 := <[bkey t o := VAmount (balance s t o - b)]> s in
  if supply s t <? b then (s1, Err AmountInsufficient)
  else (<[mkey t := VAmount (supply s t - b)]> s1, Ok ()).
Proof using AL.
  intros Hs Ha. pose proof (balance_range s t o Hs). pose proof (supply_range s t Hs).
  unfold burn_tokens. pose proof (read_balance_run s t o Hs) as R.
  unfold decrement_total_supply, mbind, stt_bind, lift, modify, write_value, expect, mret, stt_ret in *.
  rewrite balance_key_eq, R. unfold ZAmount.sub at 1.
  assert (Hrest : ∀ b, 0 ≤ b ≤ balance s t o →
    update_total_supply t (λ cur, ok_or (ZAmount.sub cur b) AmountInsufficient)
      (<[bkey t o := VAmount (balance s t o - b)]> s) =
    if supply s t <? b then (<[bkey t o := VAmount (balance s t o - b)]> s, Err AmountInsufficient)
    else (<[mkey t := VAmount (supply s t - b)]> (<[bkey t o := VAmount (balance s t o - b)]> s), Ok ())).
  { intros b Hb. rewrite update_total_supply_run by (apply wf_store_insert; [done|lia]).
    rewrite supply_insert_bkey. unfold ZAmount.sub. destruct (Z.ltb_spec (supply s t) b).
    - by rewrite (proj2 (chk_None _ _)) by lia.
    - by rewrite chk_in by lia. }
  destruct (Z.le_gt_cases a (balance s t o)).
  - rewrite chk_in by lia. rewrite Z.min_l by lia. apply Hrest. lia.
  - rewrite (proj2 (chk_None _ _)) by lia. rewrite Z.min_r by lia.
    replace (VAmount 0) with (VAmount (balance s t o - balance s t o)) by (f_equal; lia).
    apply Hrest. lia.
Qed.

Lemma balanced_credit owners s t o a s' : NoDup owners → balanced owners s → o ∈ owners →
  0 ≤ a < 2 ^ 256 → credit_tokens t o a s = (s', Ok ()) → balanced owners s'.
Proof using AL.
  intros Hnd [Hs Hb] Ho Ha. pose proof (balance_range s t o Hs). pose proof (supply_range s t Hs).
  rewrite credit_run by (done || lia).
  destruct (Z.leb_spec (2 ^ 256) (balance s t o + a)); [done|].
  destruct (Z.leb_spec (2 ^ 256) (supply s t + a)); [done|]. intros [= <-]. split.
  { apply wf_store_insert; [apply wf_store_insert|]; done || lia. }
  intros t'. rewrite total_insert_mkey, total_insert, supply_insert by done.
  destruct (decide (t' = t)) as [->|]; [rewrite Hb; lia|]. rewrite supply_insert_bkey, Hb. lia.
Qed.

Lemma balanced_step owners s s' : NoDup owners → balanced owners s →
  tok_step owners s s' → balanced owners s'.
Proof using AL.
  intros Hnd Hbal Hstep. revert Hbal. destruct Hstep as [op s1 s2 Hop Hrun].
  intros Hbal. pose proof Hbal as [Hs Hb].
  destruct op as [t src dest a|t dest a|m t dest a|t src a]; cbn in Hop, Hrun.
  - destruct Hop as (Hsrc & Hdest & Hne & Ha). rewrite transfer_run in Hrun by (done || lia).
    pose proof (balance_range s1 t src Hs). pose proof (balance_range s1 t dest Hs).
    destruct (Z.eqb_spec a 0); [by injection Hrun as <-|].
    destruct (Z.ltb_spec (balance s1 t src) a); [done|].
    destruct (Z.leb_spec (2 ^ 256) (balance s1 t dest + a)); [done|]. injection Hrun as <-. split.
    { apply wf_store_insert; [apply wf_store_insert|]; done || lia. }
    intros t'. rewrite !total_insert by done. rewrite !supply_insert_bkey, balance_insert, <-Hb.
    destruct (decide (t' = t)) as [->|]; [|lia]. rewrite decide_False by naive_solver. lia.
  - destruct Hop. by eapply balanced_credit.
  - destruct Hop. unfold mint_tokens, mbind, stt_bind, lift, expect, write_value, modify in Hrun.
    rewrite minter_key_eq in Hrun.
    destruct (credit_tokens t dest a s1) as [s3 [[]| |]] eqn:Ec; try done. injection Hrun as <-.
    assert (Hb3 : balanced owners s3) by (by eapply balanced_credit). destruct Hb3 as [Hw3 Hb3].
    assert (Hother : ∀ k, k ≠ minterk t → (<[minterk t := VAddress m]> s3 : Store) !! k = s3 !! k)
      by (intros; by rewrite lookup_insert_ne).
    split.
    + intros k v Hk Hkind. destruct (decide (k = minterk t)) as [->|Hk'].
      * exfalso. destruct Hkind as [[? Hx]|[? Hx]]; cbn in Hx; done.
      * rewrite Hother in Hk by done. by eapply Hw3.
    + intros t'. unfold supply, amount_at. rewrite Hother by done. fold (amount_at s3 (mkey t')).
      fold (supply s3 t'). rewrite <-Hb3. unfold total_balance.
      assert (Hbal' : ∀ o, balance (<[minterk t := VAddress m]> s3) t' o = balance s3 t' o)
        by (intros; unfold balance, amount_at; by rewrite Hother).
      clear -Hbal'. induction owners as [|o l IH]; [done|]. cbn. by rewrite Hbal', IH.
  - destruct Hop as [Ho Ha]. rewrite burn_run in Hrun by (done || lia). cbn zeta in Hrun.
    pose proof (balance_range s1 t src Hs). pose proof (supply_range s1 t Hs).
    destruct (Z.ltb_spec (supply s1 t) (Z.min a (balance s1 t src))); [done|]. injection Hrun as <-.
    split; [apply wf_store_insert; [apply wf_store_insert|]; done || lia|].
    intros t'. rewrite total_insert_mkey, total_insert, supply_insert by done.
    destruct (decide (t' = t)) as [->|]; [rewrite Hb; lia|]. rewrite supply_insert_bkey, Hb. lia.
Qed.
End steps.

(** C8.  Conservation: through any sequence of successful transfers between
    different accounts, credits, mints and burns, the balances of every token
    keep adding up to its recorded supply, and the store stays well formed. *)
Theorem token_supply_invariant (A : AddressApi) (I : InternalAddrs A) (AL : AddressLaws A)
    (owners : list Address) (s s' : gmap Key value) :
  NoDup owners → balanced owners s → rtc (tok_step owners) s s' → balanced owners s'.
Proof.
  intros Hnd Hb Hr. induction Hr as [|s1 s2 s3 Hstep _ IH]; [done|].
  apply IH. by eapply balanced_step.
Qed.

Lemma balanced_empty (A : AddressApi) (I : InternalAddrs A) owners : balanced (A:=A) owners ∅.
Proof.
  split.
  - intros k v Hk. by rewrite lookup_empty in Hk.
  - intros t. unfold total_balance, supply, amount_at. rewrite lookup_empty.
    induction owners as [|o l IH]; [done|]. cbn. rewrite IH. unfold balance, amount_at.
    by rewrite lookup_empty.
Qed.

Lemma empty_balance (A : AddressApi) (I : InternalAddrs A) t o : balance (A:=A) ∅ t o = 0.
Proof. unfold balance, amount_at. by rewrite lookup_empty. Qed.

Lemma empty_supply (A : AddressApi) (I : InternalAddrs A) t : supply (A:=A) ∅ t = 0.
Proof. unfold supply, amount_at. by rewrite lookup_empty. Qed.

Lemma token_supply_invariant_witness :
  ∃ s', rtc (tok_step (A:=addr_ref) [10%N; 11%N]) ∅ s' ∧ balanced (A:=addr_ref) [10%N; 11%N] s' ∧
    supply s' 20%N = 5.
Proof.
  assert (Hnd : NoDup [10%N; 11%N]) by (apply (bool_decide_unpack _); vm_compute; exact I).
  pose (s1 := (<[mkey 20%N := VAmount 5]> (<[bkey 20%N 10%N := VAmount 5]> ∅)
    : gmap (Key (A:=addr_ref)) value)).
  assert (Hr : rtc (tok_step (A:=addr_ref) [10%N; 11%N]) ∅ s1).
  { eapply rtc_l; [|reflexivity]. apply (step_ok _ (OpCredit (A:=addr_ref) 20%N 10%N 5)).
    - cbn. split; [left|lia].
    - cbn [run_op]. rewrite credit_run by (apply (balanced_empty _ _ []) || lia).
      rewrite empty_balance, empty_supply. reflexivity. }
  exists s1. split; [exact Hr|]. split.
  - apply (token_supply_invariant addr_ref internal_ref addr_ref_laws _ _ _ Hnd (balanced_empty _ _ _) Hr).
  - unfold s1. rewrite supply_insert. by rewrite decide_True.
Defined.

Lemma transfer_moves (A : AddressApi) (I : InternalAddrs A) (AL : AddressLaws A)
    (s s' : gmap Key value) (token src dest : Address) (amount : Z) :
  wf_store s → 0 ≤ amount → src ≠ dest → transfer token src dest amount s = (s', Ok ()) →
  wf_store s' ∧ (∀ t, supply s' t = supply s t) ∧
  ∀ t o, balance s' t o = balance s t o + (if decide (t = token ∧ o = dest) then amount else 0)
                                        - (if decide (t = token ∧ o = src) then amount else 0).
Proof.
  intros Hs Ha Hne. rewrite transfer_run by done. pose proof (balance_range s token src Hs). pose proof (balance_range s token dest Hs).
  destruct (Z.eqb_spec amount 0) as [->|]; [intros [= <-]; split; [done|]; split; [done|]; intros t o; repeat case_decide; lia|].
  destruct (Z.ltb_spec (balance s token src) amount); [done|]. destruct (Z.leb_spec (2 ^ 256) (balance s token dest + amount)); [done|].
  intros [= <-]. split; [|split].
  - apply wf_store_insert; [apply wf_store_insert|]; done || lia.
  - intros t. by rewrite !supply_insert_bkey.
  - intros t o. rewrite !balance_insert. repeat case_decide; naive_solver lia.
Qed.

Lemma credit_adds (A : AddressApi) (I : InternalAddrs A) (AL : AddressLaws A)
    (s s' : gmap Key value) (token dest : Address) (amount : Z) :
  wf_store s → 0 ≤ amount → credit_tokens token dest amount s = (s', Ok ()) →
  wf_store s' ∧ (∀ t, supply s' t = supply s t + if decide (t = token) then amount else 0) ∧
  ∀ t o, balance s' t o = balance s t o + if decide (t = token ∧ o = dest) then amount else 0.
Proof.
  intros Hs Ha. rewrite credit_run by done. pose proof (balance_range s token dest Hs). pose proof (supply_range s token Hs).
  destruct (Z.leb_spec (2 ^ 256) (balance s token dest + amount)); [done|]. cbv zeta.
  destruct (Z.leb_spec (2 ^ 256) (supply s token + amount)); [done|]. intros [= <-]. split; [|split].
  - apply wf_store_insert; [apply wf_store_insert|]; done || lia.
  - intros t. rewrite supply_insert, supply_insert_bkey. case_decide; [subst|]; lia.
  - intros t o. rewrite balance_insert_mkey, balance_insert. case_decide; naive_solver lia.
Qed.

(**  [transfer] on every branch: nothing for a zero amount; refused and
    without effect when the source holds less or the destination would overflow;
    otherwise it moves exactly the amount between two different accounts and
    changes no other balance and no supply.  When source and destination are the
    same account, the account ends with the amount added. *)
Theorem transfer_exact (A : AddressApi) (I : InternalAddrs A) (AL : AddressLaws A)
    (s : gmap Key value) (token src dest : Address) (amount : Z) :
  wf_store s → 0 ≤ amount →
  let '(s', r) := transfer token src dest amount s in
  match r with
  | Ok _ =>
      (amount = 0 → s' = s) ∧
      (0 < amount →
        amount ≤ balance s token src ∧ balance s token dest + amount < 2 ^ 256 ∧
        (∀ t, supply s' t = supply s t) ∧
        ∀ t o, balance s' t o =
          if decide (t = token ∧ o = dest) then balance s token dest + amount
          else if decide (t = token ∧ o = src) then balance s token src - amount
          else balance s t o)
  | Err InsufficientBalance => s' = s ∧ balance s token src < amount
  | Err TransferOverflow => s' = s ∧ 2 ^ 256 ≤ balance s token dest + amount
  | Err _ | Panic => False
  end.
Proof.
  intros Hs Ha. rewrite transfer_run by done.
  destruct (Z.eqb_spec amount 0); [split; [done|lia]|].
  destruct (Z.ltb_spec (balance s token src) amount); [done|].
  destruct (Z.leb_spec (2 ^ 256) (balance s token dest + amount)); [done|].
  split; [lia|]. intros _. split_and!; try done.
  - intros t. by rewrite !supply_insert_bkey.
  - intros t o. by rewrite !balance_insert.
Qed.

Lemma transfer_exact_witness :
  let s : gmap (Key (A:=addr_ref)) value := <[bkey 20%N 10%N := VAmount 5]> ∅ in
  balance (fst (transfer (A:=addr_ref) 20%N 10%N 10%N 5 s)) 20%N 10%N = 10.
Proof.
  intros s. assert (Hs : wf_store s).
  { apply wf_store_insert; [|lia]. apply (balanced_empty addr_ref internal_ref []). }
  assert (Hb : balance s 20%N 10%N = 5) by (unfold s; by rewrite balance_insert, decide_True).
  pose proof (transfer_exact addr_ref internal_ref addr_ref_laws s 20%N 10%N 10%N 5 Hs ltac:(lia)) as H.
  destruct (transfer (A:=addr_ref) 20%N 10%N 10%N 5 s) as [s' r] eqn:E.
  rewrite transfer_run, Hb in E by (done || lia). cbn in E. injection E as <- <-.
  destruct H as [_ H]. destruct (H ltac:(lia)) as (_ & _ & _ & Hb'). cbn [fst]. rewrite Hb'.
  rewrite decide_True by done. by rewrite Hb.
Defined.
