(* ===== verification/EthEvents.v ===== *)
(** * Acting on Ethereum events

    Models [ethereum_bridge/src/protocol/transactions/ethereum_events/events.rs] and
    the queries of [ethereum_bridge/src/storage/eth_bridge_queries.rs] it uses, on top of the
    tallies, the token operations, the queue of events and the pool of transfers.
    A confirmed transfer to Namada mints wrapped assets or redeems native
    tokens; a confirmed transfer to Ethereum burns what left, pays the relayer and
    refunds what timed out.  The properties are that every token but the
    wrapped native one stays backed, how much is minted under a cap, and that
    refunds of native tokens come from the wrong account. *)

From S2P Require Import Prelude Words Uint Decimal I256 Dec Token StorageKey BTree Epochs TransToken BridgePool EthVotes.

(** ** Events *)

Section events.
Context {A : AddressApi}.
Record TransferToNamada : Type := mk_to_namada { tn_amount : Z; tn_asset : EthAddress; tn_receiver : Address }.
Record TransfersToNamada : Type := mk_transfers_to_namada { tn_nonce : Z; tn_transfers : list TransferToNamada }.
Inductive EthereumEvent : Type :=
| EvTransfersToNamada (e : TransfersToNamada)
| EvTransfersToEthereum (nonce : Z) (transfers : list TransferToEthereumEvent) (relayer : Address)
| EvValidatorSetUpdate (nonce : Z) (bridge_validator_hash governance_validator_hash : KeccakHash).
#[export] Instance TransferToNamada_eq_dec : EqDecision TransferToNamada.
Proof using Type. solve_decision. Defined.
#[export] Instance TransfersToNamada_eq_dec : EqDecision TransfersToNamada.
Proof using Type. solve_decision. Defined.
#[export] Instance TransferToEthereumEvent_eq_dec : EqDecision TransferToEthereumEvent.
Proof using Type. solve_decision. Defined.
#[export] Instance EthereumEvent_eq_dec : EqDecision EthereumEvent.
Proof using Type. solve_decision. Defined.
End events.

(** What is emitted: a transfer was relayed, or expired. *)
Inductive BpTransferStatus : Type := Relayed | Expired.
#[export] Instance BpTransferStatus_eq_dec : EqDecision BpTransferStatus.
Proof. solve_decision. Defined.
#[export] Instance BpTransferStatus_countable : Countable BpTransferStatus.
Proof.
  refine (inj_countable' (λ s, match s with Relayed => true | Expired => false end) (λ b : bool, if b then Relayed else Expired) _).
  by intros [].
Defined.
Abbreviation EthBridgeEvent := (BpTransferStatus * KeccakHash)%type.

(** The internal addresses of the bridge and of the tokens of an asset. *)
Class BridgeAddrs (A : AddressApi) : Type := {
  bridge_address : Address;
  erc20_token_address : EthAddress → Address;
  erc20_nut_address : EthAddress → Address;
}.

Section acting.
Context {A : AddressApi} {I : InternalAddrs A} {EA : EthApi A} {B : BridgeAddrs A} {OK : CmpOrder Key}.
Abbreviation Store := (gmap Key value).
Abbreviation Queue := (InnerEthEventsQueue (E:=TransfersToNamada)).

Inductive BridgeError : Type :=
| TokenErr (e : TokenError)
| TreeErr (e : PoolError)
| KeyErr (e : KeyError)
| NotInitialized
| VoteErr (e : VoteError).

(** The part of the state the bridge uses: balances, the pending transfers under their
    keys, the nonce of the pool, the whitelist, and the queue of events. *)
Record BridgeState : Type := mk_bridge {
  tokens : Store;
  pending : gmap Key PendingTransfer;
  bp_nonce : option Z;
  native_erc20 : option EthAddress;
  whitelisted : gmap EthAddress bool;
  caps : gmap EthAddress Z;
  eth_events_queue : Queue;
}.
(** What the block gives: its height, the native token, the tree of the pool and
    the number of blocks after which a transfer times out. *)
Record BlockCtx : Type := mk_block { block_height : BlockHeight; nam : Address; tree : BridgePoolTree; min_num_of_blocks : Z }.

Abbreviation bridge := (stt BridgeState BridgeError).

Definition set_tokens (t : Store) (s : BridgeState) : BridgeState :=
  mk_bridge t (pending s) (bp_nonce s) (native_erc20 s) (whitelisted s) (caps s) (eth_events_queue s).
Definition set_pending (p : gmap Key PendingTransfer) (s : BridgeState) : BridgeState :=
  mk_bridge (tokens s) p (bp_nonce s) (native_erc20 s) (whitelisted s) (caps s) (eth_events_queue s).
Definition set_nonce (n : Z) (s : BridgeState) : BridgeState :=
  mk_bridge (tokens s) (pending s) (Some n) (native_erc20 s) (whitelisted s) (caps s) (eth_events_queue s).
Definition set_queue (q : Queue) (s : BridgeState) : BridgeState :=
  mk_bridge (tokens s) (pending s) (bp_nonce s) (native_erc20 s) (whitelisted s) (caps s) q.

(** A token operation on the whole state. *)
Definition on_tokens {X} (m : stt Store TokenError X) : bridge X := λ s,
  let '(t, r) := m (tokens s) in (set_tokens t s, map_err TokenErr r).
Definition must {X} (o : option X) : bridge X := lift (expect o).

(** ** Queries *)

Record EthAssetMint : Type := mk_mint { nut_amount : Z; erc20_amount : Z }.
Definition should_mint_nuts (m : EthAssetMint) : bool := negb (nut_amount m =? 0).
Definition should_mint_erc20s (m : EthAssetMint) : bool := negb (erc20_amount m =? 0).

Definition is_token_whitelisted (s : BridgeState) (token : EthAddress) : bool := default false (whitelisted s !! token).
Definition get_token_cap (s : BridgeState) (token : EthAddress) : option Z := caps s !! token.
(** Bytes that do not decode make the read panic. *)
Definition get_token_supply (s : BridgeState) (token : EthAddress) : option (option Z) :=
  k ← minted_balance_key (erc20_token_address token); ok (as_amount (tokens s !! k)).
(** [None] is a panic. *)
Definition get_eth_assets_to_mint (s : BridgeState) (token : EthAddress) (amount_to_mint : Z) : option EthAssetMint :=
  if negb (is_token_whitelisted s token) then Some (mk_mint amount_to_mint 0)
  else
    supply ← get_token_supply s token;
    let supply := default 0 supply in
    let cap := default 0 (get_token_cap s token) in
    if cap <? supply then None
    else
      total ← ZAmount.add amount_to_mint supply;
      if cap <? total then
        erc20_amount ← ZAmount.sub cap supply;
        nut_amount ← ZAmount.sub amount_to_mint erc20_amount;
        Some (mk_mint nut_amount erc20_amount)
      else Some (mk_mint 0 amount_to_mint).

Definition event_hash (e : TransferToEthereumEvent) : KeccakHash := keccak_hash (abi_encode (tokenize_event e)).
Definition lookup_transfer_to_eth (s : BridgeState) (e : TransferToEthereumEvent) : option (PendingTransfer * Key) :=
  let pending_key := get_key_from_hash (event_hash e) in (., pending_key) <$> pending s !! pending_key.

(** A missing nonce of the pool is a panic. *)
Definition validate_eth_event_nonce (s : BridgeState) (event : EthereumEvent) : option bool :=
  match event with
  | EvTransfersToEthereum ext_nonce _ _ => current_bp_nonce ← bp_nonce s; Some (current_bp_nonce =? ext_nonce)
  | EvTransfersToNamada e => Some (negb (tn_nonce e <? next_nonce_to_process (eth_events_queue s)))
  | EvValidatorSetUpdate _ _ _ => Some true
  end.

Definition token_address (t : PendingTransfer) : Address :=
  match kind (BridgePool.transfer t) with
  | Erc20 => erc20_token_address (asset (BridgePool.transfer t))
  | Nut => erc20_nut_address (asset (BridgePool.transfer t))
  end.

(** ** Transfers to Namada *)

Definition redeem_native_token (c : BlockCtx) (native_erc20 : EthAddress) (receiver : Address) (amount : Z) : bridge (gset Key) :=
  k1 ← must (balance_key (nam c) bridge_address);
  k2 ← must (balance_key (nam c) receiver);
  k3 ← must (minted_balance_key (erc20_token_address native_erc20));
  _ ← on_tokens (TransToken.transfer (nam c) bridge_address receiver amount);
  _ ← on_tokens (decrement_total_supply (erc20_token_address native_erc20) amount);
  mret {[k1; k2; k3]}.

Fixpoint credit_all (assets : list (Address * Z)) (receiver : Address) : bridge (gset Key) :=
  match assets with
  | [] => mret ∅
  | (token, amount) :: assets =>
      _ ← on_tokens (credit_tokens token receiver amount);
      k1 ← must (balance_key token receiver);
      k2 ← must (minted_balance_key token);
      ks ← credit_all assets receiver;
      mret ({[k1; k2]} ∪ ks)
  end.
Definition mint_eth_assets (asset : EthAddress) (receiver : Address) (amount : Z) : bridge (EthAssetMint * gset Key) :=
  s ← get;
  asset_count ← must (get_eth_assets_to_mint s asset amount);
  let assets_to_mint :=
    (if should_mint_nuts asset_count then [(erc20_nut_address asset, nut_amount asset_count)] else [])
    ++ (if should_mint_erc20s asset_count then [(erc20_token_address asset, erc20_amount asset_count)] else []) in
  changed_keys ← credit_all assets_to_mint receiver;
  mret (asset_count, changed_keys).

Definition update_transfer_to_namada (c : BlockCtx) (wrapped_native_erc20 : EthAddress) (t : TransferToNamada) : bridge (gset Key) :=
  if negb (bool_decide (tn_asset t = wrapped_native_erc20))
  then '(_, changed) ← mint_eth_assets (tn_asset t) (tn_receiver t) (tn_amount t); mret changed
  else redeem_native_token c wrapped_native_erc20 (tn_receiver t) (tn_amount t).
Fixpoint update_all_to_namada (c : BlockCtx) (wrapped_native_erc20 : EthAddress) (ts : list TransferToNamada) : bridge (gset Key) :=
  match ts with
  | [] => mret ∅
  | t :: ts =>
      changed ← update_transfer_to_namada c wrapped_native_erc20 t;
      rest ← update_all_to_namada c wrapped_native_erc20 ts;
      mret (changed ∪ rest)
  end.
Definition update_transfers_to_namada_state (c : BlockCtx) (ts : list TransferToNamada) : bridge (gset Key) :=
  s ← get;
  wrapped_native_erc20 ← lift (ok_or (native_erc20 s) NotInitialized);
  update_all_to_namada c wrapped_native_erc20 ts.

Fixpoint update_batches (c : BlockCtx) (es : list TransfersToNamada) : bridge (gset Key) :=
  match es with
  | [] => mret ∅
  | e :: es => changed ← update_transfers_to_namada_state c (tn_transfers e); rest ← update_batches c es; mret (changed ∪ rest)
  end.
Definition act_on_transfers_to_namada (c : BlockCtx) (transfer_event : TransfersToNamada) : bridge (gset Key * gset EthBridgeEvent) :=
  s ← get;
  '(confirmed_events, q) ← must (push_and_iter tn_nonce transfer_event (eth_events_queue s));
  _ ← modify (set_queue q);
  changed_keys ← update_batches c confirmed_events;
  mret (changed_keys, ∅).

(** ** Transfers to Ethereum *)

Definition increment_bp_nonce : bridge unit :=
  s ← get;
  nonce ← must (bp_nonce s);
  next_nonce ← must (chk 256 (nonce + 1));
  modify (set_nonce next_nonce).

Definition refund_transfer_fees (t : PendingTransfer) : bridge (gset Key) :=
  let fee := gas_fee t in
  k1 ← must (balance_key (fee_token fee) (fee_payer fee));
  k2 ← must (balance_key (fee_token fee) bridge_pool_address);
  _ ← on_tokens (TransToken.transfer (fee_token fee) bridge_pool_address (fee_payer fee) (fee_amount fee));
  mret {[k1; k2]}.

(** The keys that are reported are those of the escrow account, but the tokens are taken
    from the account of the pool. *)
Definition refund_transferred_assets (c : BlockCtx) (t : PendingTransfer) : bridge (gset Key) :=
  let tr := BridgePool.transfer t in
  s ← get;
  native_erc20_addr ← lift (ok_or (native_erc20 s) NotInitialized);
  '(source, target, token) ←
    (if bool_decide (asset tr = native_erc20_addr) then
       k1 ← must (balance_key (nam c) bridge_address);
       k2 ← must (balance_key (nam c) (sender tr));
       mret (k1, k2, nam c)
     else
       let token := token_address t in
       k1 ← must (balance_key token bridge_pool_address);
       k2 ← must (balance_key token (sender tr));
       mret (k1, k2, token));
  _ ← on_tokens (TransToken.transfer token bridge_pool_address (sender tr) (tr_amount tr));
  mret {[source; target]}.

Definition refund_transfer (c : BlockCtx) (key : Key) : bridge (gset Key * gset EthBridgeEvent) :=
  s ← get;
  t ← must (pending s !! key);
  k1 ← refund_transfer_fees t;
  k2 ← refund_transferred_assets c t;
  _ ← modify (λ s, set_pending (delete key (pending s)) s);
  mret ({[key]} ∪ k1 ∪ k2, {[(Expired, keccak256 t)]}).

(** Wrapped native tokens that leave are counted as supply; others are burned. *)
Definition update_transferred_asset_balances (t : PendingTransfer) : bridge (gset Key) :=
  let tr := BridgePool.transfer t in
  s ← get;
  native_erc20_addr ← lift (ok_or (native_erc20 s) NotInitialized);
  let token := token_address t in
  if bool_decide (asset tr = native_erc20_addr) then
    match kind tr with
    | Nut => panic
    | Erc20 =>
        supply_key ← must (minted_balance_key token);
        _ ← on_tokens (increment_total_supply token (tr_amount tr));
        mret {[supply_key]}
    end
  else
    _ ← on_tokens (burn_tokens token bridge_pool_address (tr_amount tr));
    escrow_balance_key ← must (balance_key token bridge_pool_address);
    supply_key ← must (minted_balance_key token);
    mret {[escrow_balance_key; supply_key]}.

(** [swap_remove] of an [IndexSet]. *)
Definition remove_key (key : Key) (l : list Key) : list Key :=
  match list_find (λ k, k = key) l, last l with
  | Some (i, _), Some y => if (i =? length l - 1)%nat then take i l else take (length l - 1) (<[i := y]> l)
  | _, _ => l
  end.

Definition complete_transfer (relayer : Address) (event : TransferToEthereumEvent) : bridge (gset Key * EthBridgeEvent * Key) :=
  s ← get;
  '(t, key) ← must (lookup_transfer_to_eth s event);
  changed ← update_transferred_asset_balances t;
  pool_balance_key ← must (balance_key (fee_token (gas_fee t)) bridge_pool_address);
  relayer_rewards_key ← must (balance_key (fee_token (gas_fee t)) relayer);
  _ ← on_tokens (TransToken.transfer (fee_token (gas_fee t)) bridge_pool_address relayer (fee_amount (gas_fee t)));
  _ ← modify (λ s, set_pending (delete key (pending s)) s);
  mret ({[key; pool_balance_key; relayer_rewards_key]} ∪ changed, (Relayed, keccak256 t), key).
Fixpoint complete_all (relayer : Address) (events : list TransferToEthereumEvent) (pending_keys : list Key) :
    bridge (gset Key * gset EthBridgeEvent * list Key) :=
  match events with
  | [] => mret (∅, ∅, pending_keys)
  | event :: events =>
      '(changed, ev, key) ← complete_transfer relayer event;
      '(changed_keys, evs, pending_keys) ← complete_all relayer events (remove_key key pending_keys);
      mret (changed ∪ changed_keys, {[ev]} ∪ evs, pending_keys)
  end.

(** The height at which the tree of the pool has a key. *)
Definition inserted_height (c : BlockCtx) (key : Key) : bridge BlockHeight :=
  k ← lift (map_err KeyErr (sub_key key)); lift (map_err TreeErr (tree_get (tree c) k)).
Fixpoint refund_all (c : BlockCtx) (timeout_height : BlockHeight) (keys : list Key) : bridge (gset Key * gset EthBridgeEvent) :=
  match keys with
  | [] => mret (∅, ∅)
  | key :: keys =>
      h ← inserted_height c key;
      '(changed, evs) ← (if h <=? timeout_height then refund_transfer c key else mret (∅, ∅));
      '(changed_keys, rest) ← refund_all c timeout_height keys;
      mret (changed ∪ changed_keys, evs ∪ rest)
  end.

Definition bp_nonce_key : Key := mk_key [AddressSeg bridge_pool_address; StringSeg (lit "bridge_pool_nonce")].
Definition act_on_transfers_to_eth (c : BlockCtx) (transfers : list TransferToEthereumEvent) (relayer : Address) :
    bridge (gset Key * gset EthBridgeEvent) :=
  _ ← increment_bp_nonce;
  s ← get;
  let pending_keys := filter (λ k, is_pending_transfer_key k = true) (kvs (pending s)).*1 in
  '(changed_keys, tx_events, pending_keys) ← complete_all relayer transfers pending_keys;
  let changed_keys := {[bp_nonce_key]} ∪ changed_keys in
  if bool_decide (pending_keys = []) then mret (changed_keys, tx_events)
  else if min_num_of_blocks c <? block_height c then
    '(changed, evs) ← refund_all c (block_height c - min_num_of_blocks c) pending_keys;
    mret (changed_keys ∪ changed, tx_events ∪ evs)
  else mret (changed_keys, tx_events).

Definition act_on (c : BlockCtx) (event : EthereumEvent) : bridge (gset Key * gset EthBridgeEvent) :=
  match event with
  | EvTransfersToNamada e => act_on_transfers_to_namada c e
  | EvTransfersToEthereum _ transfers relayer => act_on_transfers_to_eth c transfers relayer
  | EvValidatorSetUpdate _ _ _ => mret (∅, ∅)
  end.
End acting.

(** ** The protocol transaction: [ethereum_events/mod.rs] *)

Section derived_tx.
Context {A : AddressApi} {I : InternalAddrs A} {EA : EthApi A} {B : BridgeAddrs A} {OS : CmpOrder Key}.
Context {OA : CmpOrder Address} {P : BridgePos A} {R : URatioApi}.
(** The hash of an event is the prefix of the keys of its tally. *)
Context {K : Type} `{Countable K} {OK : CmpOrder K} (hash_of : EthereumEvent → K).
Abbreviation Tallies := (Tallies (A:=A) (K:=K) (T:=EthereumEvent)).
Abbreviation Update := (EthMsgUpdate (A:=A) (T:=EthereumEvent)).
Abbreviation ChangedKeys := (gset (K * KeysSegments)).

#[export] Instance EthMsgUpdate_eq_dec : EqDecision Update.
Proof using Type. solve_decision. Defined.

Record Ledger : Type := mk_ledger { l_tallies : Tallies; l_bridge : BridgeState; expired_txs : list EthereumEvent }.
Abbreviation ledger := (stt Ledger BridgeError).
Definition on_tallies {X} (m : stt Tallies VoteError X) : ledger X := λ s,
  let '(t, r) := m (l_tallies s) in (mk_ledger t (l_bridge s) (expired_txs s), map_err VoteErr r).
Definition on_bridge {X} (m : stt BridgeState BridgeError X) : ledger X :=
  zoom l_bridge (λ b s, mk_ledger (l_tallies s) b (expired_txs s)) m.

Fixpoint act_on_all (c : BlockCtx) (confirmed : list EthereumEvent) : ledger (gset Key * gset EthBridgeEvent) :=
  match confirmed with
  | [] => mret (∅, ∅)
  | event :: confirmed =>
      '(changed, new_tx_events) ← on_bridge (act_on c event);
      '(changed_keys, tx_events) ← act_on_all c confirmed;
      mret (changed ∪ changed_keys, new_tx_events ∪ tx_events)
  end.
Definition apply_updates (c : BlockCtx) (updates : list Update) (voting_powers : gmap (Address * BlockHeight) Z) (epoch : Epoch) :
    ledger (ChangedKeys * gset Key * gset EthBridgeEvent) :=
  '(changed, confirmed) ← on_tallies (apply_all hash_of updates voting_powers epoch);
  '(keys, tx_events) ← act_on_all c confirmed;
  mret (changed, keys, tx_events).

(** A set that keeps the order of insertion. *)
Definition collect {X} `{EqDecision X} (l : list X) : list X :=
  foldl (λ acc x, if decide (x ∈ acc) then acc else acc ++ [x]) [] l.
(** The events whose nonce is current, with the first vote of each signer. *)
Fixpoint valid_updates (s : BridgeState) (events : list (EthereumEvent * list (Address * BlockHeight))) : option (list Update) :=
  match events with
  | [] => Some []
  | (event, signers) :: events =>
      valid ← validate_eth_event_nonce s event;
      rest ← valid_updates s events;
      Some (if valid : bool then mk_update event (dedupe signers) :: rest else rest)
  end.
(** Each expired event is queued as its tally goes, so what was queued stays when
    a later tally fails. *)
Fixpoint expire_all (keys : list K) : ledger ChangedKeys :=
  match keys with
  | [] => mret ∅
  | k :: keys =>
      event ← on_tallies (delete_tally k);
      _ ← modify (λ s, mk_ledger (l_tallies s) (l_bridge s) (expired_txs s ++ option_list event));
      changed ← expire_all keys;
      mret (list_to_set ((k,.) <$> all_segments) ∪ changed)
  end.
Definition apply_derived_tx (c : BlockCtx) (unbonding_len : Z) (last_epoch epoch : Epoch)
    (events : list (EthereumEvent * list (Address * BlockHeight))) : ledger (ChangedKeys * gset Key * gset EthBridgeEvent) :=
  s ← get;
  changed_keys ← expire_all (get_timed_out_eth_events unbonding_len last_epoch (l_tallies s));
  if bool_decide (events = []) then mret (changed_keys, ∅, ∅)
  else
    s ← get;
    updates ← lift (expect (valid_updates (l_bridge s) events));
    let updates := collect updates in
    voting_powers ← lift (map_err VoteErr (get_voting_powers (collect (updates ≫= λ u, kvs (upd_seen_by u)))));
    '(changed, keys, tx_events) ← apply_updates c updates voting_powers epoch;
    mret (changed_keys ∪ changed, keys, tx_events).
End derived_tx.

(** ** Token operations and what backs a supply *)

(** The token of a native asset on Ethereum, and a nut, are not the same token. *)
Class BridgeAddrsLaws (A : AddressApi) (B : BridgeAddrs A) : Prop := {
  erc20_not_nut e e' : erc20_token_address e ≠ erc20_nut_address e';
}.

Section backing.
Context {A : AddressApi} {I : InternalAddrs A} {AL : AddressLaws A}.
Abbreviation Store := (gmap Key value).
Context (owners : list Address) (Hnd : NoDup owners).

(** What balances exceed the supply by. *)
Definition gap (s : Store) (t : Address) : Z := total_balance s t owners - supply s t.
(** The store is well formed and the gap of every token but those of [P] is the same. *)
Definition same_gap (P : Address → Prop) (s s' : Store) : Prop := wf_store s' ∧ ∀ t, ¬ P t → gap s' t = gap s t.

Lemma same_gap_trans P s1 s2 s3 : same_gap P s1 s2 → same_gap P s2 s3 → same_gap P s1 s3.
Proof using Type. intros [_ H1] [? H2]. split; [done|]. intros t Ht. by rewrite H2, H1. Qed.

Lemma transfer_gap P s s' t src dest a : wf_store s → 0 ≤ a → src ≠ dest → src ∈ owners → dest ∈ owners →
  TransToken.transfer t src dest a s = (s', Ok ()) → same_gap P s s'.
Proof using AL Hnd.
  intros Hs Ha Hne H1 H2. rewrite transfer_run by done. pose proof (balance_range s t src Hs). pose proof (balance_range s t dest Hs).
  destruct (Z.eqb_spec a 0); [by intros [= <-]|]. destruct (Z.ltb_spec (balance s t src) a); [done|].
  destruct (Z.leb_spec (2 ^ 256) (balance s t dest + a)); [done|]. intros [= <-]. split.
  - apply wf_store_insert; [apply wf_store_insert|]; done || lia.
  - intros t' _. unfold gap. rewrite !total_insert, !supply_insert_bkey, balance_insert by done.
    destruct (decide (t' = t)) as [->|]; [|lia]. rewrite decide_False by naive_solver. lia.
Qed.

Lemma credit_gap P s s' t o a : wf_store s → 0 ≤ a → o ∈ owners → credit_tokens t o a s = (s', Ok ()) → same_gap P s s'.
Proof using AL Hnd.
  intros Hs Ha Ho. rewrite credit_run by done. pose proof (balance_range s t o Hs). pose proof (supply_range s t Hs).
  destruct (Z.leb_spec (2 ^ 256) (balance s t o + a)); [done|]. cbv zeta.
  destruct (Z.leb_spec (2 ^ 256) (supply s t + a)); [done|]. intros [= <-]. split.
  - apply wf_store_insert; [apply wf_store_insert|]; done || lia.
  - intros t' _. unfold gap. rewrite total_insert_mkey, total_insert, supply_insert, supply_insert_bkey by done.
    destruct (decide (t' = t)) as [->|]; lia.
Qed.

Lemma burn_gap P s s' t o a : wf_store s → 0 ≤ a → o ∈ owners → burn_tokens t o a s = (s', Ok ()) → same_gap P s s'.
Proof using AL Hnd.
  intros Hs Ha Ho. rewrite burn_run by done. cbv zeta. pose proof (balance_range s t o Hs). pose proof (supply_range s t Hs).
  destruct (Z.ltb_spec (supply s t) (Z.min a (balance s t o))); [done|]. intros [= <-]. split.
  - apply wf_store_insert; [apply wf_store_insert|]; done || lia.
  - intros t' _. unfold gap. rewrite total_insert_mkey, total_insert, supply_insert, supply_insert_bkey by done.
    destruct (decide (t' = t)) as [->|]; lia.
Qed.

Lemma update_supply_gap (P : Address → Prop) s s' t f : wf_store s → P t → (∀ v w, f v = Ok w → 0 ≤ w < 2 ^ 256) →
  update_total_supply t f s = (s', Ok ()) → same_gap P s s'.
Proof using AL.
  intros Hs HP Hf. rewrite update_total_supply_run by done. destruct (f (supply s t)) as [w| |] eqn:E; [|done..].
  intros [= <-]. split; [apply wf_store_insert; eauto|]. intros t' Ht'. unfold gap. rewrite total_insert_mkey, supply_insert.
  by rewrite decide_False by naive_solver.
Qed.
Lemma increment_supply_gap (P : Address → Prop) s s' t a : wf_store s → P t → increment_total_supply t a s = (s', Ok ()) → same_gap P s s'.
Proof using AL.
  intros Hs HP. apply update_supply_gap; [done..|]. intros v w Hw. res_inv Hw. by apply chk_Some in Hw as [-> ?].
Qed.
Lemma decrement_supply_gap (P : Address → Prop) s s' t a : wf_store s → P t → decrement_total_supply t a s = (s', Ok ()) → same_gap P s s'.
Proof using AL.
  intros Hs HP. apply update_supply_gap; [done..|]. intros v w Hw. res_inv Hw. by apply chk_Some in Hw as [-> ?].
Qed.
End backing.

(** ** Runs of the bridge *)

Section bridge_runs.
Context {A : AddressApi} {I : InternalAddrs A} {EA : EthApi A} {B : BridgeAddrs A} {OK : CmpOrder Key}.

Lemma bridge_tokens_ok {X} (m : stt (gmap Key value) TokenError X) (s s' : BridgeState) x :
  on_tokens m s = (s', Ok x) → ∃ t, m (tokens s) = (t, Ok x) ∧ s' = set_tokens t s.
Proof. unfold on_tokens. destruct (m (tokens s)) as [t [y| |]]; intros [= <- <-]; eauto. Qed.
Lemma must_ok {X} (o : option X) (s s' : BridgeState) x : must o s = (s', Ok x) → s' = s ∧ o = Some x.
Proof. unfold must. intros H. stt_inv H. by apply expect_ok in H. Qed.
Lemma panic_ok {X} (s s' : BridgeState) (x : X) : (panic : stt BridgeState BridgeError X) s = (s', Ok x) → False.
Proof. done. Qed.
End bridge_runs.

(** Unfolds a successful run of the bridge into its steps. *)
Ltac bridge_inv H :=
  lazymatch type of H with
  | mbind _ _ _ = (_, Ok _) =>
      let s1 := fresh "st" in let a := fresh "v" in let H1 := fresh "Hrun" in
      apply stt_bind_ok in H as (s1 & a & H1 & H); bridge_inv H1; bridge_inv H
  | on_tokens _ _ = (_, Ok _) => let t := fresh "tk" in apply bridge_tokens_ok in H as (t & H & ->)
  | must _ _ = (_, Ok _) => apply must_ok in H as [-> H]
  | (let '(_, _) := ?p in _) _ = (_, Ok _) => destruct p; bridge_inv H
  | lift (ok_or _ _) _ = (_, Ok _) => apply stt_lift_ok in H as [-> H]; apply ok_or_ok in H
  | _ => stt_inv H
  end.
Ltac units := repeat match goal with u : unit |- _ => destruct u end.

(** ** Minting *)

Section minting.
Context {A : AddressApi} {I : InternalAddrs A} {AL : AddressLaws A} {EA : EthApi A} {B : BridgeAddrs A} {BL : BridgeAddrsLaws A B}
  {OK : CmpOrder Key}.
Abbreviation Store := (gmap Key value).

Lemma get_token_supply_eq s e : wf_store (tokens s) →
  ∃ o, get_token_supply s e = Some o ∧ default 0 o = supply (tokens s) (erc20_token_address e).
Proof using AL.
  intros Hs. unfold get_token_supply. rewrite minted_balance_key_eq. runo.
  destruct (as_amount_wf (tokens s) (mkey (erc20_token_address e)) Hs) as (o & -> & Ho); [right; by rewrite mkey_is|]. by exists o.
Qed.

(** How an amount is split: what is not whitelisted, and what is over the cap, are nuts. *)
Lemma assets_to_mint_split s e a m : wf_store (tokens s) → 0 ≤ a → get_eth_assets_to_mint s e a = Some m →
  let sup := supply (tokens s) (erc20_token_address e) in
  let cap := default 0 (get_token_cap s e) in
  erc20_amount m = (if is_token_whitelisted s e then Z.min a (cap - sup) else 0) ∧
  nut_amount m = a - erc20_amount m ∧ 0 ≤ erc20_amount m ∧ 0 ≤ nut_amount m ∧ (is_token_whitelisted s e = true → sup ≤ cap).
Proof using AL.
  intros Hs Ha. cbv zeta. unfold get_eth_assets_to_mint. destruct (is_token_whitelisted s e); cbn [negb].
  2:{ intros [= <-]. cbn. repeat split; try lia; done. }
  destruct (get_token_supply_eq s e Hs) as (o & -> & Ho). cbn [mbind option_bind]. rewrite Ho. set (sup := supply _ _). set (cap := default 0 _).
  destruct (Z.ltb_spec cap sup); [done|]. unfold ZAmount.add, ZAmount.sub. intros Hm.
  destruct (chk 256 (a + sup)) as [total|] eqn:Et; [|done]. apply chk_Some in Et as [-> Et]. cbn [mbind option_bind] in Hm.
  destruct (Z.ltb_spec cap (a + sup)); [|injection Hm as <-; cbn; lia].
  destruct (chk 256 (cap - sup)) as [x|] eqn:Ex; [|done]. apply chk_Some in Ex as [-> Ex]. cbn [mbind option_bind] in Hm.
  destruct (chk 256 (a - _)) as [y|] eqn:Ey; [|done]. apply chk_Some in Ey as [-> Ey]. injection Hm as <-. cbn. lia.
Qed.

Lemma credit_all_adds l r s s' ks : wf_store (tokens s) → Forall (λ x, 0 ≤ x.2) l → credit_all l r s = (s', Ok ks) →
  s' = set_tokens (tokens s') s ∧ wf_store (tokens s') ∧
  (∀ t, supply (tokens s') t = supply (tokens s) t + zsum (λ x, if decide (t = x.1) then x.2 else 0) l) ∧
  ∀ t o, balance (tokens s') t o = balance (tokens s) t o + zsum (λ x, if decide (t = x.1 ∧ o = r) then x.2 else 0) l.
Proof using AL.
  revert s ks. induction l as [|[tok a] l IH]; intros s ks Hs Hl Hrun; cbn [credit_all] in Hrun.
  - bridge_inv Hrun. split; [by destruct s|]. split; [done|]. split; intros; cbn; lia.
  - inversion Hl as [|? ? Ha Hl']; subst. cbn in Ha. bridge_inv Hrun. destruct v.
    destruct (credit_adds A I AL (tokens s) tk tok r a Hs Ha Hrun0) as (Hw & Hsup & Hbal).
    destruct (IH (set_tokens tk s) _ Hw Hl' Hrun3) as (E & Hw' & Hsup' & Hbal'). split; [exact E|]. cbn [tokens set_tokens] in *.
    split; [done|]. split.
    + intros t. rewrite Hsup', Hsup, zsum_cons. cbn [fst snd]. lia.
    + intros t o. rewrite Hbal', Hbal, zsum_cons. cbn [fst snd]. lia.
Qed.

(** C20. Minting what came from Ethereum: the amount is split exactly into wrapped
    tokens and nuts, the receiver is credited exactly these, and no other balance or
    supply and no other part of the state changes.  A token that is not
    whitelisted mints nuts only; a whitelisted one stays within its cap, and
    nuts are minted only once the cap is reached. *)
Theorem minting_respects_cap s e r a s' m ks : wf_store (tokens s) → 0 ≤ a →
  mint_eth_assets e r a s = (s', Ok (m, ks)) →
  let erc20 := erc20_token_address e in
  let nut := erc20_nut_address e in
  let cap := default 0 (get_token_cap s e) in
  erc20_amount m + nut_amount m = a ∧ 0 ≤ erc20_amount m ∧ 0 ≤ nut_amount m ∧
  (is_token_whitelisted s e = false → erc20_amount m = 0) ∧
  (is_token_whitelisted s e = true →
     supply (tokens s') erc20 ≤ cap ∧ (0 < nut_amount m → supply (tokens s') erc20 = cap)) ∧
  (∀ t, supply (tokens s') t = supply (tokens s) t
     + (if decide (t = erc20) then erc20_amount m else 0) + (if decide (t = nut) then nut_amount m else 0)) ∧
  (∀ t o, balance (tokens s') t o = balance (tokens s) t o
     + (if decide (t = erc20 ∧ o = r) then erc20_amount m else 0) + (if decide (t = nut ∧ o = r) then nut_amount m else 0)) ∧
  s' = set_tokens (tokens s') s.
Proof using AL BL.
  intros Hs Ha Hrun. cbv zeta. unfold mint_eth_assets in Hrun. bridge_inv Hrun. injection Hrun as -> ->. rename st into s', v into m. destruct (assets_to_mint_split _ _ _ _ Hs Ha Hrun0) as (He & Hn & He0 & Hn0 & Hcap). cbv zeta in *.
  apply credit_all_adds in Hrun1 as (E & Hw & Hsup & Hbal); [|done|].
  2:{ unfold should_mint_nuts, should_mint_erc20s. repeat case_match; repeat constructor; cbn; lia. }
  pose proof (erc20_not_nut e e) as Hne.
  assert (Hsup' : ∀ t, supply (tokens s') t = supply (tokens s) t + (if decide (t = erc20_token_address e) then erc20_amount m else 0)
     + (if decide (t = erc20_nut_address e) then nut_amount m else 0)).
  { intros t. rewrite Hsup. unfold should_mint_nuts, should_mint_erc20s.
    destruct (Z.eqb_spec (nut_amount m) 0), (Z.eqb_spec (erc20_amount m) 0); cbn; repeat case_decide; lia. }
  split_and!; try done; try lia.
  - intros Hf. rewrite He, Hf. done.
  - intros Ht. rewrite Hsup', decide_True, decide_False by done. rewrite Ht in He. specialize (Hcap Ht). lia.
  - intros t o. rewrite Hbal. unfold should_mint_nuts, should_mint_erc20s.
    destruct (Z.eqb_spec (nut_amount m) 0), (Z.eqb_spec (erc20_amount m) 0); cbn; repeat case_decide; lia.
Qed.
End minting.

(** ** The queue *)

Lemma drain_split {E} (n_of : E → Z) l n out n' rest : drain n_of l n = Some (out, n', rest) → l = out ++ rest.
Proof.
  revert n out n' rest. induction l as [|x l IH]; intros n out n' rest Hd; cbn [drain] in Hd; [by injection Hd as <- _ <-|].
  cbn [iter_next] in Hd. destruct (n_of x =? n); [|by injection Hd as <- _ <-].
  destruct (chk 256 (n + 1)) as [m|]; [|done]. cbn [mbind option_bind] in Hd.
  destruct (drain n_of l m) as [[[o k] rs]|] eqn:E'; [|done]. injection Hd as <- _ <-. cbn. f_equal. by eapply IH.
Qed.
Lemma push_and_iter_members {E} (n_of : E → Z) ev q out q' : push_and_iter n_of ev q = Some (out, q') → out ++ inner q' ≡ₚ ev :: inner q.
Proof.
  unfold push_and_iter, try_push_event. destruct (_ <? _); [done|]. destruct (binary_search _ _ _) as [[] i]; [done|].
  cbn [mbind option_bind]. intros Hd. destruct (drain _ _ _) as [[[o k] rs]|] eqn:E'; [|done]. injection Hd as <- <-.
  apply drain_split in E'. cbn in *. rewrite <- E', <- Permutation_middle. by rewrite take_drop.
Qed.

(** ** Every token but the wrapped native one stays backed *)

Section invariant.
Context {A : AddressApi} {I : InternalAddrs A} {AL : AddressLaws A} {EA : EthApi A} {B : BridgeAddrs A} {OK : CmpOrder Key}.
Context (owners : list Address).

(** Amounts are amounts, accounts are among the owners, and no one is paid from its
    own account. *)
Definition ok_pending (x : PendingTransfer) : Prop :=
  0 ≤ tr_amount (BridgePool.transfer x) ∧ 0 ≤ fee_amount (gas_fee x) ∧
  sender (BridgePool.transfer x) ∈ owners ∧ sender (BridgePool.transfer x) ≠ bridge_pool_address ∧
  fee_payer (gas_fee x) ∈ owners ∧ fee_payer (gas_fee x) ≠ bridge_pool_address.
Definition ok_to_namada (t : TransferToNamada) : Prop :=
  0 ≤ tn_amount t ∧ tn_receiver t ∈ owners ∧ tn_receiver t ≠ bridge_address.
Definition ok_batch (e : TransfersToNamada) : Prop := Forall ok_to_namada (tn_transfers e).
Definition ok_event (e : EthereumEvent) : Prop :=
  match e with
  | EvTransfersToNamada e => ok_batch e
  | EvTransfersToEthereum _ _ relayer => relayer ∈ owners ∧ relayer ≠ bridge_pool_address
  | EvValidatorSetUpdate _ _ _ => True
  end.

Definition is_wnam (s : BridgeState) (t : Address) : Prop := ∃ e, native_erc20 s = Some e ∧ t = erc20_token_address e.
Definition good (s : BridgeState) : Prop := wf_store (tokens s) ∧ map_Forall (λ _, ok_pending) (pending s).
(** Balances add up to the supply of every token but wrapped NAM, and what waits in the
    pool and in the queue is as above. *)
Definition bridge_ok (s : BridgeState) : Prop :=
  good s ∧ Forall ok_batch (inner (eth_events_queue s)) ∧ ∀ t, ¬ is_wnam s t → total_balance (tokens s) t owners = supply (tokens s) t.

(** What every operation but the pushing of an event does. *)
Definition moves (s s' : BridgeState) : Prop :=
  good s' ∧ same_gap owners (is_wnam s) (tokens s) (tokens s') ∧ native_erc20 s' = native_erc20 s ∧
  pending s' ⊆ pending s ∧ eth_events_queue s' = eth_events_queue s.

Lemma moves_refl s : good s → moves s s.
Proof using Type. intros H. pose proof H as [? _]. by split_and!. Qed.
Lemma moves_trans s1 s2 s3 : moves s1 s2 → moves s2 s3 → moves s1 s3.
Proof using Type.
  intros (_ & G1 & E1 & P1 & Q1) (? & G2 & E2 & P2 & Q2). unfold moves, is_wnam in *. rewrite E1 in *. split_and!; try congruence.
  - by eapply same_gap_trans.
  - by etrans.
Qed.
Lemma moves_tokens s t : good s → same_gap owners (is_wnam s) (tokens s) t → moves s (set_tokens t s).
Proof using Type. intros [_ Hp] Hg. pose proof Hg as [? _]. by split_and!. Qed.
Lemma moves_delete s k : good s → moves s (set_pending (delete k (pending s)) s).
Proof using Type.
  intros [? Hp]. split_and!; try done; [split; [done|]|apply delete_subseteq]. by apply map_Forall_delete.
Qed.
Lemma moves_nonce s n : good s → moves s (set_nonce n s).
Proof using Type. intros H. pose proof H as [? _]. by split_and!. Qed.

Lemma bridge_ok_moves s s' : bridge_ok s → moves s s' → bridge_ok s'.
Proof using Type.
  intros (_ & Hq & Hb) (Hg & [_ Hgap] & E & _ & Q). split_and!; [done|by rewrite Q|]. unfold is_wnam in *. rewrite E.
  intros t Ht. specialize (Hgap t Ht). specialize (Hb t Ht). unfold gap in Hgap. lia.
Qed.

Context (Hnd : NoDup owners) (Hpool : bridge_pool_address ∈ owners) (Hbridge : bridge_address ∈ owners).

(** A transfer out of an account among the owners, on the whole state. *)
Lemma moves_transfer s t src dest a tk : good s → 0 ≤ a → dest ≠ src → src ∈ owners → dest ∈ owners →
  TransToken.transfer t src dest a (tokens s) = (tk, Ok ()) → moves s (set_tokens tk s).
Proof using AL Hnd. intros Hg ? Hne ? ? Hr. apply moves_tokens; [done|]. destruct Hg. by apply not_eq_sym in Hne; eapply transfer_gap. Qed.

Lemma credit_all_moves l r s s' ks : good s → Forall (λ x, 0 ≤ x.2) l → r ∈ owners → credit_all l r s = (s', Ok ks) → moves s s'.
Proof using AL Hnd.
  intros Hg Hl Hr. revert s ks Hg. induction Hl as [|[t a] l Ha Hl IH]; intros s ks Hg Hrun; cbn [credit_all] in Hrun.
  - bridge_inv Hrun. by apply moves_refl.
  - bridge_inv Hrun. destruct v. assert (M : moves s (set_tokens tk s)).
    { apply moves_tokens; [done|]. destruct Hg. by eapply credit_gap. }
    eapply moves_trans; [exact M|]. eapply IH; [apply M|done].
Qed.

Lemma mint_moves e r a s s' m ks : good s → 0 ≤ a → r ∈ owners → mint_eth_assets e r a s = (s', Ok (m, ks)) → moves s s'.
Proof using AL Hnd.
  intros Hg Ha Hr Hrun. unfold mint_eth_assets in Hrun. bridge_inv Hrun.
  destruct (assets_to_mint_split _ _ _ _ (proj1 Hg) Ha Hrun0) as (_ & _ & H1 & H2 & _).
  eapply credit_all_moves; [done| |done|done].
  unfold should_mint_nuts, should_mint_erc20s. repeat case_match; repeat constructor; cbn; lia.
Qed.

Lemma redeem_moves c e r a s s' ks : good s → 0 ≤ a → r ∈ owners → r ≠ bridge_address → native_erc20 s = Some e →
  redeem_native_token c e r a s = (s', Ok ks) → moves s s'.
Proof using AL Hnd Hbridge.
  intros Hg Ha Hr Hne He Hrun. unfold redeem_native_token in Hrun. bridge_inv Hrun. destruct v2, v3.
  assert (M : moves s (set_tokens tk s)) by (by eapply moves_transfer). eapply moves_trans; [exact M|].
  apply moves_tokens; [apply M|]. eapply decrement_supply_gap; [apply M| |done]. by exists e.
Qed.

Lemma update_to_namada_moves c ts s s' ks : good s → Forall ok_to_namada ts →
  update_transfers_to_namada_state c ts s = (s', Ok ks) → moves s s'.
Proof using AL Hnd Hbridge.
  intros Hg Hts Hrun. unfold update_transfers_to_namada_state in Hrun. bridge_inv Hrun. rename v into e, Hrun0 into He.
  revert s ks Hg He Hrun. induction Hts as [|t ts (Ha & Hr & Hne) Hts IH]; intros s ks Hg He Hrun; cbn [update_all_to_namada] in Hrun.
  - bridge_inv Hrun. by apply moves_refl.
  - bridge_inv Hrun. assert (M : moves s st).
    { unfold update_transfer_to_namada in Hrun0. case_match; bridge_inv Hrun0; [by eapply mint_moves|by eapply redeem_moves]. }
    eapply moves_trans; [exact M|]. eapply IH; [apply M| |done]. destruct M as (_ & _ & -> & _). done.
Qed.

Lemma update_batches_moves c es s s' ks : good s → Forall ok_batch es → update_batches c es s = (s', Ok ks) → moves s s'.
Proof using AL Hnd Hbridge.
  intros Hg Hes. revert s ks Hg. induction Hes as [|e es He Hes IH]; intros s ks Hg Hrun; cbn [update_batches] in Hrun.
  - bridge_inv Hrun. by apply moves_refl.
  - bridge_inv Hrun. assert (M : moves s st) by (by eapply update_to_namada_moves).
    eapply moves_trans; [exact M|]. eapply IH; [apply M|done].
Qed.

Lemma refund_moves c k s s' r : good s → refund_transfer c k s = (s', Ok r) → moves s s'.
Proof using AL Hnd Hpool.
  intros Hg Hrun. unfold refund_transfer in Hrun. bridge_inv Hrun. rename v into x, Hrun0 into Hx.
  destruct (proj2 Hg _ _ Hx) as (Ha & Hf & Hs1 & Hs2 & Hp1 & Hp2).
  assert (M1 : moves s st).
  { unfold refund_transfer_fees in Hrun1. bridge_inv Hrun1. units. by eapply moves_transfer. }
  assert (M2 : moves st st0).
  { unfold refund_transferred_assets in Hrun2. apply stt_bind_ok in Hrun2 as (s1 & v3 & H1 & Hrun2). bridge_inv H1.
    apply stt_bind_ok in Hrun2 as (s2 & e & H2 & Hrun2). bridge_inv H2.
    apply stt_bind_ok in Hrun2 as (s3 & [[src tgt] tok] & H3 & Hrun2).
    assert (s3 = st) as -> by (case_match; bridge_inv H3; done). bridge_inv Hrun2.
    units. eapply moves_transfer; [apply M1|..|eassumption]; done. }
  eapply moves_trans; [exact M1|]. eapply moves_trans; [exact M2|]. apply moves_delete, M2.
Qed.

Lemma update_transferred_moves x s s' ks : good s → ok_pending x → update_transferred_asset_balances x s = (s', Ok ks) → moves s s'.
Proof using AL Hnd Hpool.
  intros Hg (Ha & _) Hrun. unfold update_transferred_asset_balances in Hrun. bridge_inv Hrun. rename v into e, Hrun0 into He.
  case_bool_decide as Hasset.
  - destruct (kind (BridgePool.transfer x)) eqn:Hk; [|done]. bridge_inv Hrun. units. apply moves_tokens; [done|].
    eapply increment_supply_gap; [apply Hg| |done]. eexists. split; [eassumption|]. unfold token_address. by rewrite Hk.
  - bridge_inv Hrun. units. apply moves_tokens; [done|]. eapply burn_gap; [done|apply Hg|..|eassumption]; done.
Qed.

Lemma complete_moves relayer ev s s' r : good s → relayer ∈ owners → relayer ≠ bridge_pool_address →
  complete_transfer relayer ev s = (s', Ok r) → moves s s'.
Proof using AL Hnd Hpool.
  intros Hg Hr Hne Hrun. unfold complete_transfer in Hrun. apply stt_bind_ok in Hrun as (s1 & v & H1 & Hrun). bridge_inv H1.
  apply stt_bind_ok in Hrun as (s2 & [x key] & H2 & Hrun). bridge_inv H2. bridge_inv Hrun.
  assert (Hx : ok_pending x).
  { unfold lookup_transfer_to_eth in H2. destruct (pending s !! _) as [y|] eqn:Ey; [|done]. injection H2 as -> _. by apply (proj2 Hg) in Ey. }
  assert (M1 : moves s st) by (by eapply update_transferred_moves).
  units.
  assert (M2 : moves st (set_tokens tk st)) by (eapply moves_transfer; [apply M1|apply Hx|..|eassumption]; done).
  eapply moves_trans; [exact M1|]. eapply moves_trans; [exact M2|]. apply moves_delete, M2.
Qed.

Lemma complete_all_moves relayer evs keys s s' r : good s → relayer ∈ owners → relayer ≠ bridge_pool_address →
  complete_all relayer evs keys s = (s', Ok r) → moves s s'.
Proof using AL Hnd Hpool.
  intros Hg Hr Hne. revert keys s r Hg. induction evs as [|ev evs IH]; intros keys s r Hg Hrun; cbn [complete_all] in Hrun.
  - bridge_inv Hrun. by apply moves_refl.
  - apply stt_bind_ok in Hrun as (s1 & [[ch e] key] & H1 & Hrun). apply stt_bind_ok in Hrun as (s2 & [[? ?] ?] & H2 & Hrun). bridge_inv Hrun.
    assert (M : moves s s1) by (by eapply complete_moves). eapply moves_trans; [exact M|]. eapply IH; [apply M|done].
Qed.

Lemma refund_all_moves c h keys s s' r : good s → refund_all c h keys s = (s', Ok r) → moves s s'.
Proof using AL Hnd Hpool.
  revert s r. induction keys as [|k keys IH]; intros s r Hg Hrun; cbn [refund_all] in Hrun.
  - bridge_inv Hrun. by apply moves_refl.
  - apply stt_bind_ok in Hrun as (s1 & h' & H1 & Hrun). unfold inserted_height in H1. bridge_inv H1.
    apply stt_bind_ok in Hrun as (s2 & [ch e] & H2 & Hrun). apply stt_bind_ok in Hrun as (s3 & [? ?] & H3 & Hrun). bridge_inv Hrun.
    assert (M : moves s s2) by (case_match; [by eapply refund_moves|bridge_inv H2; by apply moves_refl]).
    eapply moves_trans; [exact M|]. eapply IH; [apply M|done].
Qed.

Lemma to_eth_moves c ts relayer s s' r : good s → relayer ∈ owners → relayer ≠ bridge_pool_address →
  act_on_transfers_to_eth c ts relayer s = (s', Ok r) → moves s s'.
Proof using AL Hnd Hpool.
  intros Hg Hr Hne Hrun. unfold act_on_transfers_to_eth, increment_bp_nonce in Hrun.
  apply stt_bind_ok in Hrun as (s1 & u & H1 & Hrun). bridge_inv H1.
  match type of Hrun with mbind _ _ ?st = _ => assert (M1 : moves s st) by (by apply moves_nonce); set (s1 := st) in * end.
  apply stt_bind_ok in Hrun as (s2 & v' & H2 & Hrun). bridge_inv H2.
  apply stt_bind_ok in Hrun as (s3 & [[ch evs] keys] & H3 & Hrun).
  assert (M2 : moves s1 s3) by (eapply complete_all_moves; [apply M1|done..]). eapply moves_trans; [exact M1|].
  eapply moves_trans; [exact M2|]. destruct M2 as [Hg3 _].
  repeat case_match; try (bridge_inv Hrun; by apply moves_refl).
  apply stt_bind_ok in Hrun as (s4 & [? ?] & H4 & Hrun). bridge_inv Hrun. by eapply refund_all_moves.
Qed.

Lemma act_on_ok c ev s s' r : bridge_ok s → ok_event ev → act_on c ev s = (s', Ok r) → bridge_ok s'.
Proof using AL Hnd Hpool Hbridge.
  intros Hok Hev Hrun. destruct ev as [e|n ts relayer|n h1 h2]; cbn [act_on ok_event] in *.
  - unfold act_on_transfers_to_namada in Hrun. apply stt_bind_ok in Hrun as (s1 & v & H1 & Hrun). bridge_inv H1.
    apply stt_bind_ok in Hrun as (s2 & [out q] & H2 & Hrun). bridge_inv H2. bridge_inv Hrun.
    destruct Hok as (Hg & Hq & Hb). apply push_and_iter_members in H2.
    assert (Hall : Forall ok_batch (out ++ inner q)) by (rewrite H2; by constructor). apply Forall_app in Hall as [Hout Hrest].
    assert (Hok' : bridge_ok (set_queue q s)) by by split_and!.
    eapply bridge_ok_moves; [exact Hok'|]. eapply update_batches_moves; [apply Hok'|exact Hout|eassumption].
  - destruct Hev. eapply bridge_ok_moves; [done|]. eapply to_eth_moves; [apply Hok|done..].
  - by bridge_inv Hrun.
Qed.
End invariant.

Section ledger_invariant.
Context {A : AddressApi} {I : InternalAddrs A} {AL : AddressLaws A} {EA : EthApi A} {B : BridgeAddrs A} {OS : CmpOrder Key}.
Context {OA : CmpOrder Address} {P : BridgePos A} {R : URatioApi}.
Context {K : Type} `{Countable K} {OK : CmpOrder K} (hash_of : EthereumEvent → K).

Lemma on_tallies_ok {X} (m : stt _ VoteError X) (s s' : Ledger (K:=K)) x : on_tallies m s = (s', Ok x) →
  ∃ t, m (l_tallies s) = (t, Ok x) ∧ s' = mk_ledger t (l_bridge s) (expired_txs s).
Proof using Type. unfold on_tallies. destruct (m (l_tallies s)) as [t [y| |]]; intros [= <- <-]; eauto. Qed.

(** What is confirmed was voted on. *)
Lemma apply_all_confirms us vp e s s' ch conf : apply_all hash_of us vp e s = (s', Ok (ch, conf)) → conf ⊆ body <$> us.
Proof using Type.
  revert s ch conf. induction us as [|u us IH]; intros s ch conf Hrun; cbn [apply_all] in Hrun.
  - stt_inv Hrun. by injection Hrun as -> ->.
  - apply stt_bind_ok in Hrun as (s1 & [ch1 new] & _ & Hrun). apply stt_bind_ok in Hrun as (s2 & [ch2 conf2] & H2 & Hrun).
    stt_inv Hrun. injection Hrun as -> ->. apply IH in H2. rewrite fmap_cons. clear - H2. destruct new; set_solver.
Qed.

Lemma expire_all_bridge (ks : list K) s s' ch : expire_all ks s = (s', Ok ch) → l_bridge s' = l_bridge s.
Proof using Type.
  revert s ch. induction ks as [|k ks IH]; intros s ch Hrun; cbn [expire_all] in Hrun.
  - by stt_inv Hrun.
  - apply stt_bind_ok in Hrun as (s1 & ev & H1 & Hrun). apply on_tallies_ok in H1 as (t & _ & ->). stt_inv Hrun. by match goal with Hr : expire_all _ _ = _ |- _ => apply IH in Hr end.
Qed.

Lemma collect_incl {X} `{EqDecision X} (l : list X) : collect l ⊆ l.
Proof using Type.
  unfold collect. assert (Hg : ∀ acc, foldl (λ acc x, if decide (x ∈ acc) then acc else acc ++ [x]) acc l ⊆ acc ++ l); [|apply (Hg [])].
  induction l as [|x l IH]; intros acc; cbn [foldl]; [by rewrite app_nil_r|]. etrans; [apply IH|]. clear. case_decide; set_solver.
Qed.

Lemma valid_updates_bodies s evs us : valid_updates s evs = Some us → body <$> us ⊆ evs.*1.
Proof using Type.
  revert us. induction evs as [|[ev sg] evs IH]; intros us Hv; cbn [valid_updates] in Hv; [by injection Hv as <-|].
  destruct (validate_eth_event_nonce s ev) as [b|]; [|done]. cbn [mbind option_bind] in Hv.
  destruct (valid_updates s evs) as [rest|]; [|done]. injection Hv as <-. specialize (IH _ eq_refl). clear - IH.
  destruct b; rewrite ?fmap_cons; set_solver.
Qed.

Lemma act_on_all_ok owners c conf (s s' : Ledger (K:=K)) r : NoDup owners → bridge_pool_address ∈ owners → bridge_address ∈ owners →
  bridge_ok owners (l_bridge s) → Forall (ok_event owners) conf → act_on_all c conf s = (s', Ok r) → bridge_ok owners (l_bridge s').
Proof using AL.
  intros Hnd Hp Hb Hok Hc. revert s r Hok. induction Hc as [|ev conf Hev Hc IH]; intros s r Hok Hrun; cbn [act_on_all] in Hrun.
  - by stt_inv Hrun.
  - apply stt_bind_ok in Hrun as (s1 & [ch evs] & H1 & Hrun). apply stt_bind_ok in Hrun as (s2 & [? ?] & H2 & Hrun). stt_inv Hrun.
    unfold on_bridge in H1. stt_inv H1. eapply IH; [|exact H2]. cbn. by eapply act_on_ok.
Qed.

(** C2. The Ethereum bridge keeps tokens backed: through a whole protocol
    transaction, with the timing out of tallies, the counting of votes and
    acting on every event it confirms (minting, redeeming, burning, paying relayers,
    refunding), the balances of every token but wrapped NAM keep adding up to its
    supply.  The accounts of the events are among the owners, and relayers,
    senders and payers are not the pool, nor receivers the escrow. *)
Theorem bridge_keeps_tokens_backed owners c unbonding_len last_epoch epoch events (s s' : Ledger (K:=K)) r :
  NoDup owners → bridge_pool_address ∈ owners → bridge_address ∈ owners →
  Forall (ok_event owners) events.*1 → bridge_ok owners (l_bridge s) →
  apply_derived_tx hash_of c unbonding_len last_epoch epoch events s = (s', Ok r) → bridge_ok owners (l_bridge s').
Proof using AL.
  intros Hnd Hp Hb Hev Hok Hrun. unfold apply_derived_tx in Hrun. apply stt_bind_ok in Hrun as (s1 & v & H1 & Hrun). stt_inv H1.
  apply stt_bind_ok in Hrun as (s2 & ch & H2 & Hrun). apply expire_all_bridge in H2. rewrite <- H2 in Hok. clear H2.
  case_match; [by stt_inv Hrun|]. apply stt_bind_ok in Hrun as (s3 & v & H3 & Hrun). stt_inv H3.
  apply stt_bind_ok in Hrun as (s4 & us & H4 & Hrun). stt_inv H4. apply expect_ok, valid_updates_bodies in H4.
  apply stt_bind_ok in Hrun as (s5 & vp & H5 & Hrun). stt_inv H5. apply stt_bind_ok in Hrun as (s6 & [[ch' ks] evs] & H6 & Hrun). stt_inv Hrun.
  unfold apply_updates in H6. apply stt_bind_ok in H6 as (s7 & [ch7 conf] & H7 & H6). apply on_tallies_ok in H7 as (t & H7 & ->).
  apply stt_bind_ok in H6 as (s8 & [? ?] & H8 & H6). stt_inv H6. refine (act_on_all_ok owners c conf (mk_ledger t (l_bridge s2) (expired_txs s2)) _ _ Hnd Hp Hb Hok _ H8).
  apply apply_all_confirms in H7. rewrite Forall_forall in Hev |- *. intros ev Hin. apply Hev, H4. apply H7 in Hin.
  apply list_elem_of_fmap in Hin as (u & -> & Hu). apply list_elem_of_fmap. exists u. split; [done|]. by apply collect_incl.
Qed.
End ledger_invariant.

(** ** What happens to the pool *)

Section settling.
Context {A : AddressApi} {I : InternalAddrs A} {EA : EthApi A} {B : BridgeAddrs A} {OK : CmpOrder Key}.

Definition key_of (e : TransferToEthereumEvent) : Key := get_key_from_hash (event_hash e).
(** The height of a key in the tree, and whether its transfer has timed out. *)
Definition height_of (c : BlockCtx) (k : Key) : option BlockHeight := k' ← ok (sub_key k); ok (tree_get (tree c) k').
Definition timed_out (c : BlockCtx) (k : Key) : bool :=
  is_pending_transfer_key k && (min_num_of_blocks c <? block_height c)
  && match height_of c k with Some h => h <=? block_height c - min_num_of_blocks c | None => false end.

Lemma inserted_height_ok c k s s' h : inserted_height c k s = (s', Ok h) → s' = s ∧ height_of c k = Some h.
Proof using Type.
  unfold inserted_height, height_of. intros H. stt_inv H. destruct (sub_key k) as [k'| |]; [|done..]. injection Hrun as <-. cbn.
  destruct (tree_get (tree c) k') as [x| |]; [|done..]. by injection H as <-.
Qed.

Lemma remove_key_perm k l : k ∈ l → l ≡ₚ k :: remove_key k l.
Proof using Type.
  intros Hk. unfold remove_key. destruct (list_find (λ x, x = k) l) as [[i x]|] eqn:Hf.
  2:{ apply list_find_None in Hf. rewrite Forall_forall in Hf. by apply Hf in Hk. }
  apply list_find_Some in Hf as (Hi & -> & _). destruct l as [|z l0 _] using rev_ind; [done|]. rewrite last_snoc, length_app. cbn [length].
  replace (length l0 + 1 - 1)%nat with (length l0) by lia. destruct (Nat.eqb_spec i (length l0)) as [->|Hne].
  - rewrite take_app_length. rewrite lookup_app_r, Nat.sub_diag in Hi by lia. injection Hi as ->. by rewrite Permutation_app_comm.
  - assert (Hlt : (i < length l0)%nat) by (apply lookup_lt_Some in Hi; rewrite length_app in Hi; cbn in Hi; lia).
    rewrite lookup_app_l in Hi by done. rewrite insert_app_l by done. rewrite take_app_length' by (by rewrite length_insert).
    rewrite <- (take_drop_middle l0 i k Hi) at 1. rewrite insert_take_drop by done. rewrite <- app_assoc. cbn.
    rewrite <- Permutation_middle. constructor. apply Permutation_app_head. symmetry. apply Permutation_cons_append.
Qed.
Lemma remove_key_elem k l x : NoDup l → x ∈ remove_key k l ↔ x ∈ l ∧ x ≠ k.
Proof using Type.
  intros Hnd. destruct (decide (k ∈ l)) as [Hk|Hk].
  - pose proof (remove_key_perm k l Hk) as Hp. rewrite Hp in Hnd. apply NoDup_cons in Hnd as [Hn _]. rewrite Hp at 2. set_solver.
  - assert (remove_key k l = l) as ->; [|set_solver]. unfold remove_key. destruct (list_find _ l) as [[i y]|] eqn:Hf; [|done].
    apply list_find_Some in Hf as (Hi & -> & _). by apply list_elem_of_lookup_2 in Hi.
Qed.
Lemma remove_key_nodup k l : NoDup l → NoDup (remove_key k l).
Proof using Type.
  intros Hnd. destruct (decide (k ∈ l)) as [Hk|Hk].
  - pose proof (remove_key_perm k l Hk) as Hp. rewrite Hp in Hnd. by apply NoDup_cons in Hnd as [_ ?].
  - unfold remove_key. destruct (list_find _ l) as [[i y]|] eqn:Hf; [|done].
    apply list_find_Some in Hf as (Hi & -> & _). by apply list_elem_of_lookup_2 in Hi.
Qed.

Lemma update_transferred_only x s s' ks : update_transferred_asset_balances x s = (s', Ok ks) → s' = set_tokens (tokens s') s.
Proof using Type.
  unfold update_transferred_asset_balances. intros Hrun. bridge_inv Hrun. case_match; [case_match; [|done]|]; by bridge_inv Hrun.
Qed.
Lemma complete_transfer_pool relayer ev s s' ch e key : complete_transfer relayer ev s = (s', Ok (ch, e, key)) →
  key = key_of ev ∧ bp_nonce s' = bp_nonce s ∧ pending s' = delete key (pending s) ∧ ∃ x, pending s !! key = Some x ∧ e = (Relayed, keccak256 x).
Proof using Type.
  intros Hrun. unfold complete_transfer in Hrun. apply stt_bind_ok in Hrun as (s1 & v & H1 & Hrun). bridge_inv H1.
  apply stt_bind_ok in Hrun as (s2 & [x k] & H2 & Hrun). bridge_inv H2. bridge_inv Hrun. injection Hrun as -> -> ->.
  apply update_transferred_only in Hrun0. rewrite Hrun0. unfold lookup_transfer_to_eth in H2. fold (key_of ev) in H2.
  destruct (pending s !! key_of ev) as [y|] eqn:Ey; [|done]. injection H2 as -> <-. split_and!; try done. by exists x.
Qed.

Lemma refund_transfer_pool c k s s' ch evs : refund_transfer c k s = (s', Ok (ch, evs)) →
  bp_nonce s' = bp_nonce s ∧ pending s' = delete k (pending s) ∧ ∃ x, pending s !! k = Some x ∧ evs = {[(Expired, keccak256 x)]}.
Proof using Type.
  intros Hrun. unfold refund_transfer in Hrun. bridge_inv Hrun. injection Hrun as -> ->.
  unfold refund_transfer_fees in Hrun1. bridge_inv Hrun1. unfold refund_transferred_assets in Hrun2.
  apply stt_bind_ok in Hrun2 as (s1 & sg & H1 & Hrun2). bridge_inv H1. apply stt_bind_ok in Hrun2 as (s2 & e & H2 & Hrun2). bridge_inv H2.
  apply stt_bind_ok in Hrun2 as (s3 & [[src tgt] tok] & H3 & Hrun2).
  assert (s3 = set_tokens tk s) as -> by (case_match; bridge_inv H3; done). bridge_inv Hrun2. split_and!; try done. by eexists.
Qed.

Lemma complete_all_pool relayer ts keys s s' ch evs keys' : NoDup keys → complete_all relayer ts keys s = (s', Ok (ch, evs, keys')) →
  bp_nonce s' = bp_nonce s ∧ NoDup (key_of <$> ts) ∧ (∀ k, k ∈ key_of <$> ts → is_Some (pending s !! k)) ∧
  (∀ k, pending s' !! k = if decide (k ∈ key_of <$> ts) then None else pending s !! k) ∧
  NoDup keys' ∧ (∀ k, k ∈ keys' ↔ k ∈ keys ∧ k ∉ key_of <$> ts) ∧
  ∀ e, e ∈ evs ↔ ∃ k x, k ∈ key_of <$> ts ∧ pending s !! k = Some x ∧ e = (Relayed, keccak256 x).
Proof using Type.
  revert keys s ch evs keys'. induction ts as [|t ts IH]; intros keys s ch evs keys' Hnd Hrun; cbn [complete_all] in Hrun.
  - bridge_inv Hrun. injection Hrun as -> -> ->. split_and!; try done; [constructor|..]; clear; set_solver.
  - apply stt_bind_ok in Hrun as (s1 & [[c1 e1] k1] & H1 & Hrun). apply stt_bind_ok in Hrun as (s2 & [[c2 e2] k2] & H2 & Hrun). bridge_inv Hrun.
    injection Hrun as -> -> ->. apply complete_transfer_pool in H1 as (-> & Hn1 & Hp1 & x & Hx & ->).
    apply IH in H2 as (Hn2 & Hnd2 & Hin2 & Hp2 & Hnk & Hk2 & He2); [|by apply remove_key_nodup]. rewrite fmap_cons. rewrite Hp1 in *.
    assert (Hnew : key_of t ∉ key_of <$> ts).
    { intros Hin. apply Hin2 in Hin as [y Hy]. by rewrite lookup_delete_eq in Hy. }
    assert (Hother : ∀ k, k ∈ key_of <$> ts → delete (key_of t) (pending s) !! k = pending s !! k).
    { intros k Hk. apply lookup_delete_ne. by intros <-. }
    split_and!.
    + by rewrite Hn2.
    + by constructor.
    + intros k [->|Hk]%elem_of_cons; [done|]. rewrite <- Hother by done. by apply Hin2.
    + intros k. rewrite Hp2. destruct (decide (k = key_of t)) as [->|Hne].
      * rewrite decide_False by done. rewrite lookup_delete_eq. rewrite decide_True; [done|]. left.
      * rewrite lookup_delete_ne by done. clear - Hne. repeat case_decide; try done; set_solver.
    + done.
    + intros k. rewrite Hk2, remove_key_elem by done. clear. set_solver.
    + intros e. rewrite elem_of_union, elem_of_singleton, He2. split.
      * intros [->|(k & y & Hk & Hy & ->)]; [exists (key_of t), x; split_and!; [left|done..]|].
        rewrite Hother in Hy by done. exists k, y. split_and!; [by right|done..].
      * intros (k & y & [->|Hk]%elem_of_cons & Hy & ->); [left; congruence|]. right. exists k, y. by rewrite Hother.
Qed.

Definition due (c : BlockCtx) (h : BlockHeight) (k : Key) : bool := match height_of c k with Some x => x <=? h | None => false end.
Lemma refund_all_pool c h keys s s' ch evs : NoDup keys → refund_all c h keys s = (s', Ok (ch, evs)) →
  bp_nonce s' = bp_nonce s ∧
  (∀ k, pending s' !! k = if decide (k ∈ keys ∧ due c h k = true) then None else pending s !! k) ∧
  ∀ e, e ∈ evs ↔ ∃ k x, (k ∈ keys ∧ due c h k = true) ∧ pending s !! k = Some x ∧ e = (Expired, keccak256 x).
Proof using Type.
  intros Hnd. revert s ch evs. induction Hnd as [|k0 keys Hk0 Hnd IH]; intros s ch evs Hrun; cbn [refund_all] in Hrun.
  - bridge_inv Hrun. injection Hrun as -> ->. split_and!; [done|..]; clear; [intros k; rewrite decide_False by set_solver; done|set_solver].
  - apply stt_bind_ok in Hrun as (s1 & h0 & H1 & Hrun). apply inserted_height_ok in H1 as [-> Hh].
    apply stt_bind_ok in Hrun as (s2 & [c1 e1] & H2 & Hrun). apply stt_bind_ok in Hrun as (s3 & [c2 e2] & H3 & Hrun). bridge_inv Hrun.
    injection Hrun as -> ->. apply IH in H3 as (Hn3 & Hp3 & He3). assert (Hdue : due c h k0 = (h0 <=? h)) by (unfold due; by rewrite Hh).
    destruct (h0 <=? h).
    + apply refund_transfer_pool in H2 as (Hn2 & Hp2 & x & Hx & ->). rewrite Hp2 in *. split_and!; [by rewrite Hn3|..].
      * intros k. rewrite Hp3. destruct (decide (k = k0)) as [->|Hne].
        -- rewrite decide_False by (by intros [? _]). rewrite lookup_delete_eq, decide_True; [done|]. split; [left|done].
        -- rewrite lookup_delete_ne by done. clear - Hne. repeat case_decide; try done; set_solver.
      * intros e. rewrite elem_of_union, elem_of_singleton, He3. split.
        -- intros [->|(k & y & [Hk Hd] & Hy & ->)]; [exists k0, x; split_and!; [left|done..]|].
           rewrite lookup_delete_ne in Hy by (by intros ->). exists k, y. split_and!; [by right|done..].
        -- intros (k & y & [[->|Hk]%elem_of_cons Hd] & Hy & ->); [left; congruence|]. right. exists k, y.
           by rewrite lookup_delete_ne by (by intros ->).
    + bridge_inv H2. injection H2 as -> ->. split_and!; [done|..].
      * intros k. rewrite Hp3. destruct (decide (k = k0)) as [->|Hne]; [rewrite !decide_False; [done|naive_solver congruence..]|].
        clear - Hne. repeat case_decide; try done; set_solver.
      * intros e. rewrite elem_of_union, He3. split.
        -- intros [He|(k & y & [Hk Hd] & Hy & ->)]; [clear - He; set_solver|]. exists k, y. split_and!; [by right|done..].
        -- intros (k & y & [[->|Hk]%elem_of_cons Hd] & Hy & ->); [congruence|]. right. by exists k, y.
Qed.

(** The second part of [act_on_transfers_to_eth], on the keys that are left. *)
Lemma expire_phase_pool (c : BlockCtx) keys ch e0 s s' ks evs : NoDup keys → Forall (λ k, is_pending_transfer_key k = true) keys →
  (if bool_decide (keys = []) then mret (ch, e0)
   else if min_num_of_blocks c <? block_height c then
     '(changed, evs) ← refund_all c (block_height c - min_num_of_blocks c) keys; mret (ch ∪ changed, e0 ∪ evs)
   else mret (ch, e0) : stt BridgeState BridgeError (gset Key * gset EthBridgeEvent)) s = (s', Ok (ks, evs)) →
  bp_nonce s' = bp_nonce s ∧
  (∀ k, pending s' !! k = if decide (k ∈ keys ∧ timed_out c k = true) then None else pending s !! k) ∧
  ∀ e, e ∈ evs ↔ e ∈ e0 ∨ ∃ k x, (k ∈ keys ∧ timed_out c k = true) ∧ pending s !! k = Some x ∧ e = (Expired, keccak256 x).
Proof using Type.
  intros Hnd Hpend Hrun. rewrite Forall_forall in Hpend. assert (Hto : ∀ k, k ∈ keys → timed_out c k =
    (min_num_of_blocks c <? block_height c) && due c (block_height c - min_num_of_blocks c) k).
  { intros k Hk. unfold timed_out. by rewrite Hpend. }
  assert (Hidle : (∀ k, k ∈ keys → timed_out c k = false) → s' = s → evs = e0 → bp_nonce s' = bp_nonce s ∧
    (∀ k, pending s' !! k = if decide (k ∈ keys ∧ timed_out c k = true) then None else pending s !! k) ∧
    ∀ e, e ∈ evs ↔ e ∈ e0 ∨ ∃ k x, (k ∈ keys ∧ timed_out c k = true) ∧ pending s !! k = Some x ∧ e = (Expired, keccak256 x)).
  { intros Hno -> ->. split_and!; [done|intros k|intros e]; [rewrite decide_False; [done|]|]; naive_solver congruence. }
  case_bool_decide as Hkeys; [bridge_inv Hrun; injection Hrun as -> ->; apply Hidle; [|done..]; by subst; intros k Hk%elem_of_nil|].
  destruct (min_num_of_blocks c <? block_height c).
  2:{ bridge_inv Hrun. injection Hrun as -> ->. apply Hidle; done. }
  apply stt_bind_ok in Hrun as (s4 & [c4 e4] & H4 & Hrun). bridge_inv Hrun. injection Hrun as -> ->.
  apply refund_all_pool in H4 as (Hn4 & Hp4 & He4); [|done]. cbn [andb] in Hto. split_and!; [done|..].
  - intros k. rewrite Hp4. apply decide_ext. naive_solver congruence.
  - intros e. rewrite elem_of_union, He4. naive_solver congruence.
Qed.

(** C18. A confirmed batch settles the pool exactly: the nonce goes up by one,
    the transfers of the batch were pending and are named once each, and what leaves
    the pool is these and the transfers that have timed out, nothing else.
    The events emitted are one relayed event for each of the former and one expired event for each
    of the latter. *)
Theorem eth_batch_settled (c : BlockCtx) ts relayer s s' ks evs n : bp_nonce s = Some n →
  act_on_transfers_to_eth c ts relayer s = (s', Ok (ks, evs)) →
  bp_nonce s' = Some (n + 1) ∧ NoDup (key_of <$> ts) ∧ (∀ k, k ∈ key_of <$> ts → is_Some (pending s !! k)) ∧
  (∀ k, pending s' !! k = if decide (k ∈ key_of <$> ts ∨ timed_out c k = true) then None else pending s !! k) ∧
  ∀ e, e ∈ evs ↔ ∃ k x, pending s !! k = Some x ∧
    ((k ∈ key_of <$> ts ∧ e = (Relayed, keccak256 x)) ∨ (k ∉ key_of <$> ts ∧ timed_out c k = true ∧ e = (Expired, keccak256 x))).
Proof using Type.
  intros Hn Hrun. unfold act_on_transfers_to_eth, increment_bp_nonce in Hrun. apply stt_bind_ok in Hrun as (s1 & u & H1 & Hrun). bridge_inv H1.
  rewrite Hn in Hrun0. injection Hrun0 as <-. apply chk_Some in Hrun1 as [-> _].
  apply stt_bind_ok in Hrun as (s2 & v' & H2 & Hrun). bridge_inv H2. apply stt_bind_ok in Hrun as (s3 & [[ch e3] keys] & H3 & Hrun).
  apply complete_all_pool in H3 as (Hn3 & Hnd & Hin & Hp3 & Hnk & Hk3 & He3); [|apply NoDup_filter, kvs_NoDup]. cbn [pending bp_nonce set_nonce] in *.
  assert (Hkeys : ∀ k, k ∈ keys ↔ (is_pending_transfer_key k = true ∧ is_Some (pending s !! k)) ∧ k ∉ key_of <$> ts).
  { intros k. rewrite Hk3, list_elem_of_filter, list_elem_of_fmap. split.
    - intros [[? ([k' x] & -> & Hx%elem_of_kvs)] ?]. eauto.
    - intros [[? [x Hx]] ?]. split; [split; [done|]|done]. exists (k, x). split; [done|]. by apply elem_of_kvs. }
  apply expire_phase_pool in Hrun as (Hn4 & Hp4 & He4); [|done|by apply Forall_forall; intros k [[? _] _]%Hkeys].
  assert (Hto : ∀ k, timed_out c k = true → is_pending_transfer_key k = true) by (intros k [[? _]%andb_true_iff _]%andb_true_iff; done).
  split_and!; [by rewrite Hn4, Hn3|done|done|..].
  - intros k. rewrite Hp4, Hp3. destruct (decide (k ∈ key_of <$> ts)) as [Hk|Hk].
    + rewrite (decide_True _ _ (or_introl Hk)). by case_decide.
    + destruct (pending s !! k) as [x|] eqn:Hx; [|by repeat case_decide]. apply decide_ext. rewrite Hkeys, Hx. naive_solver.
  - intros e. rewrite He4, He3. split.
    + intros [(k & x & Hk & Hx & ->)|(k & x & [[_ Hk]%Hkeys Hd] & Hx & ->)]; exists k, x; [naive_solver|].
      rewrite Hp3, decide_False in Hx by done. naive_solver.
    + intros (k & x & Hx & [[Hk ->]|(Hk & Hd & ->)]); [left; by exists k, x|]. right. exists k, x.
      rewrite Hkeys, Hp3, decide_False by done. split_and!; eauto.
Qed.
End settling.

(** ** Refunds of native tokens, and a relayer that is the pool *)

Section accounts.
Context {A : AddressApi} {I : InternalAddrs A} {AL : AddressLaws A} {EA : EthApi A} {B : BridgeAddrs A} {OK : CmpOrder Key}.

(** What the transfer of a refund of native tokens is, with the keys that are reported. *)
Lemma refund_native_run c x s : native_erc20 s = Some (asset (BridgePool.transfer x)) →
  refund_transferred_assets c x s =
  (on_tokens (TransToken.transfer (nam c) bridge_pool_address (sender (BridgePool.transfer x)) (tr_amount (BridgePool.transfer x)))
     ≫= λ _, mret {[bkey (nam c) bridge_address; bkey (nam c) (sender (BridgePool.transfer x))]}) s.
Proof using AL.
  intros He. unfold refund_transferred_assets, must, mbind, stt_bind, lift, get, mret, stt_ret, ok_or, expect. rewrite He.
  rewrite bool_decide_true by done. by rewrite !balance_key_eq.
Qed.

(** C21. A transfer of NAM that times out is refunded from the account of the pool, not from
    the escrow account of the bridge: when it succeeds the escrow is as it was and the
    pool pays, although the keys reported as changed are those of the escrow and of the sender; when
    the pool holds less NAM than the transfer the refund fails, whatever is in escrow. *)
Theorem native_refund_paid_by_pool c x s : wf_store (tokens s) → native_erc20 s = Some (asset (BridgePool.transfer x)) →
  let amount := tr_amount (BridgePool.transfer x) in
  let from := sender (BridgePool.transfer x) in
  0 < amount → from ≠ bridge_pool_address → from ≠ bridge_address → bridge_address ≠ bridge_pool_address →
  (balance (tokens s) (nam c) bridge_pool_address < amount →
     refund_transferred_assets c x s = (s, Err (TokenErr InsufficientBalance))) ∧
  ∀ s' ks, refund_transferred_assets c x s = (s', Ok ks) →
    balance (tokens s') (nam c) bridge_address = balance (tokens s) (nam c) bridge_address ∧
    balance (tokens s') (nam c) bridge_pool_address = balance (tokens s) (nam c) bridge_pool_address - amount ∧
    balance (tokens s') (nam c) from = balance (tokens s) (nam c) from + amount ∧
    bkey (nam c) bridge_address ∈ ks ∧ bkey (nam c) bridge_pool_address ∉ ks.
Proof using AL.
  intros Hs He amount from Ha Hp Hb Hne. rewrite refund_native_run by done. split.
  - intros Hlow. unfold mbind, stt_bind, on_tokens. rewrite transfer_run by (done || lia). fold amount.
    destruct (Z.eqb_spec amount 0); [lia|]. rewrite (proj2 (Z.ltb_lt _ _) Hlow). by destruct s.
  - intros s' ks Hrun. bridge_inv Hrun. units. apply (transfer_moves A I AL) in Hrun0 as (_ & _ & Hbal); [|done|lia|by apply not_eq_sym].
    cbn [tokens set_tokens]. rewrite !Hbal. fold from amount. split_and!.
    + rewrite !decide_False by naive_solver. lia.
    + rewrite decide_False, decide_True by naive_solver. lia.
    + rewrite decide_True, decide_False by naive_solver. lia.
    + clear. set_solver.
    + rewrite elem_of_union, !elem_of_singleton. intros [[_ ?]%bkey_inj|[_ ?]%bkey_inj]; naive_solver.
Qed.

(** What leaves: wrapped native tokens become supply, others are burned from the pool. *)
Definition burned (x : PendingTransfer) (s : BridgeState) : Z :=
  if decide (native_erc20 s = Some (asset (BridgePool.transfer x))) then 0
  else Z.min (tr_amount (BridgePool.transfer x)) (balance (tokens s) (token_address x) bridge_pool_address).
Definition wrapped (x : PendingTransfer) (s : BridgeState) : Z :=
  if decide (native_erc20 s = Some (asset (BridgePool.transfer x))) then tr_amount (BridgePool.transfer x) else 0.

Lemma update_transferred_effect x s s' ks : wf_store (tokens s) → 0 ≤ tr_amount (BridgePool.transfer x) →
  update_transferred_asset_balances x s = (s', Ok ks) →
  wf_store (tokens s') ∧
  (∀ t o, balance (tokens s') t o = balance (tokens s) t o - if decide (t = token_address x ∧ o = bridge_pool_address) then burned x s else 0) ∧
  ∀ t, supply (tokens s') t = supply (tokens s) t + if decide (t = token_address x) then wrapped x s - burned x s else 0.
Proof using AL.
  intros Hs Ha Hrun. unfold update_transferred_asset_balances in Hrun. bridge_inv Hrun. unfold burned, wrapped. rewrite Hrun0.
  set (tok := token_address x) in *. pose proof (balance_range (tokens s) tok bridge_pool_address Hs).
  pose proof (supply_range (tokens s) tok Hs). destruct (bool_decide_reflect (asset (BridgePool.transfer x) = v)) as [<-|Hne].
  - rewrite decide_True by done. destruct (kind (BridgePool.transfer x)); [|done]. bridge_inv Hrun. units. unfold increment_total_supply in Hrun2.
    rewrite update_total_supply_run in Hrun2 by done. destruct (ok_or _ _) as [w| |] eqn:Ew; [|done..]. res_inv Ew.
    apply chk_Some in Ew as [-> ?]. injection Hrun2 as <-. cbn [tokens set_tokens]. split; [by apply wf_store_insert|].
    split; intros; [rewrite balance_insert_mkey by done; case_decide; lia|]. rewrite supply_insert by done. repeat case_decide; subst; try done; lia.
  - rewrite !decide_False by naive_solver. bridge_inv Hrun. units. rewrite burn_run in Hrun1 by done. cbv zeta in Hrun1.
    destruct (Z.ltb_spec (supply (tokens s) tok)
      (Z.min (tr_amount (BridgePool.transfer x)) (balance (tokens s) tok bridge_pool_address))); [done|]. injection Hrun1 as <-. cbn [tokens set_tokens].
    split; [apply wf_store_insert; [apply wf_store_insert|]; done || lia|]. split; intros.
    + rewrite balance_insert_mkey, balance_insert by done. repeat case_decide; naive_solver lia.
    + rewrite supply_insert, supply_insert_bkey by done. repeat case_decide; naive_solver lia.
Qed.

(** C22. A relayer that names the pool's own account creates fees.  The fee of a transfer it completes
    is added to the balance of the pool and no other account of the token of the fee pays it.  The supply of
    that token is what it would be without the fee: it stays what it was when the token is not
    the one that is transferred; when it is, the transfer itself burns what leaves, from the pool and from the supply
    alike, or counts wrapped native tokens as supply. *)
Theorem pool_as_relayer_inflates ev x s s' r : wf_store (tokens s) → pending s !! key_of ev = Some x →
  let fee := gas_fee x in
  0 ≤ tr_amount (BridgePool.transfer x) → 0 < fee_amount fee →
  complete_transfer bridge_pool_address ev s = (s', Ok r) →
  let pool s := balance (tokens s) (fee_token fee) bridge_pool_address in
  let supply s := supply (tokens s) (fee_token fee) in
  (∀ o, o ≠ bridge_pool_address → balance (tokens s') (fee_token fee) o = balance (tokens s) (fee_token fee) o) ∧
  (fee_token fee ≠ token_address x → pool s' = pool s + fee_amount fee ∧ supply s' = supply s) ∧
  (fee_token fee = token_address x → native_erc20 s ≠ Some (asset (BridgePool.transfer x)) →
     let out := Z.min (tr_amount (BridgePool.transfer x)) (pool s) in
     pool s' = pool s - out + fee_amount fee ∧ supply s' = supply s - out) ∧
  (fee_token fee = token_address x → native_erc20 s = Some (asset (BridgePool.transfer x)) →
     pool s' = pool s + fee_amount fee ∧ supply s' = supply s + tr_amount (BridgePool.transfer x)).
Proof using AL.
  intros Hs Hx fee Ha Hf Hrun pool sup. unfold complete_transfer in Hrun. apply stt_bind_ok in Hrun as (s1 & v & H1 & Hrun). bridge_inv H1.
  apply stt_bind_ok in Hrun as (s2 & [y key] & H2 & Hrun). bridge_inv H2. unfold lookup_transfer_to_eth in H2. fold (key_of ev) in H2.
  rewrite Hx in H2. injection H2 as <- <-. bridge_inv Hrun. units.
  destruct (update_transferred_effect _ _ _ _ Hs Ha Hrun0) as (Hw & Hb & Hsup).
  fold fee in Hrun3. rewrite transfer_run in Hrun3 by (done || lia).
  destruct (Z.eqb_spec (fee_amount fee) 0); [lia|]. repeat case_match; try done. injection Hrun3 as <-. subst pool sup.
  cbn [tokens set_tokens set_pending]. cbv zeta beta. rewrite !supply_insert_bkey. unfold burned, wrapped in *.
  split; [intros o Ho; rewrite !balance_insert, !decide_False by naive_solver; rewrite Hb, decide_False by naive_solver; lia|].
  rewrite !balance_insert, !(decide_True _ _ (conj eq_refl eq_refl)), !Hb, !Hsup.
  split; [|split]; [intros Hne|intros Heq Hn; rewrite <- Heq|intros Heq Hn; rewrite <- Heq]; repeat case_decide; naive_solver lia.
Qed.
End accounts.

(** ** Examples *)

Definition bridge_ref : BridgeAddrs addr_ref := {|
  bridge_address := 8%N;
  erc20_token_address e := (N.double (Z.to_N (zsum id e)) + 40)%N;
  erc20_nut_address e := (N.succ_double (Z.to_N (zsum id e)) + 40)%N;
|}.
Lemma bridge_ref_laws : BridgeAddrsLaws addr_ref bridge_ref.
Proof. split. cbn [erc20_token_address erc20_nut_address bridge_ref]. intros e e'. lia. Qed.
Definition key_order_ref : CmpOrder (Key (A:=addr_ref)).
Proof.
  refine {| kcmp a b := Pos.compare (encode a) (encode b) |}.
  - intros a b. rewrite Pos.compare_eq_iff. split; [apply (inj encode)|by intros ->].
  - intros. apply Pos.compare_antisym.
  - intros a b c. rewrite !Pos.compare_lt_iff. lia.
Defined.
#[local] Existing Instances bridge_ref bridge_ref_laws key_order_ref eth_ref.

Definition example_asset : EthAddress := [1; 2; 3].
Definition example_erc20 : N := erc20_token_address (BridgeAddrs:=bridge_ref) example_asset.
(** The pool holds the assets of three transfers and their fees. *)
Definition example_assets : gmap (Key (A:=addr_ref)) value := (credit_tokens (A:=addr_ref) example_erc20 9%N 600 ∅).1.
Definition example_tokens : gmap (Key (A:=addr_ref)) value := (credit_tokens (A:=addr_ref) 20%N 9%N 10 example_assets).1.
Definition example_pending : gmap (Key (A:=addr_ref)) (PendingTransfer (AA:=addr_ref)) :=
  list_to_map ((λ x, (get_pending_key x, x)) <$> (example_transfer <$> [1; 2; 3])).
Definition example_bridge (native : EthAddress) : BridgeState (A:=addr_ref) :=
  mk_bridge (A:=addr_ref) example_tokens example_pending (Some 0) (Some native) {[example_asset := true]} {[example_asset := 610]} (new_at 0).
Definition example_block : BlockCtx (A:=addr_ref) := mk_block (A:=addr_ref) 5 30%N example_tree 3.
Definition example_owners : list N := [8%N; 9%N; 12%N; 13%N].

(** A run that succeeds, from its result alone. *)
Definition succeeds {E X} (r : res E X) : bool := match r with Ok _ => true | _ => false end.
Lemma run_succeeds {S E X} (m : S * res E X) : succeeds m.2 = true → ∃ x, m = (m.1, Ok x).
Proof. destruct m as [s [x| |]]; [|done..]. by exists x. Qed.
Lemma run_unit {S E} (m : S * res E unit) : succeeds m.2 = true → m = (m.1, Ok ()).
Proof. intros [[] H]%run_succeeds. done. Qed.

Lemma example_balanced : balanced (A:=addr_ref) example_owners example_tokens.
Proof.
  assert (Hnd : NoDup example_owners) by (apply (bool_decide_unpack _); vm_compute; exact Logic.I).
  assert (H9 : 9%N ∈ example_owners) by (unfold example_owners; set_solver).
  assert (E1 : credit_tokens (A:=addr_ref) example_erc20 9%N 600 ∅ = (example_assets, Ok ())) by (by apply run_unit; vm_compute).
  assert (E2 : credit_tokens (A:=addr_ref) 20%N 9%N 10 example_assets = (example_tokens, Ok ())) by (by apply run_unit; vm_compute).
  refine (balanced_credit _ _ _ _ _ _ Hnd _ H9 _ E2); [|lia].
  refine (balanced_credit _ _ _ _ _ _ Hnd _ H9 _ E1); [|lia]. apply balanced_empty.
Qed.

Definition example_mint := mint_eth_assets (A:=addr_ref) example_asset 12%N 15 (example_bridge [9]).
Lemma minting_respects_cap_witness : ∃ m ks,
  mint_eth_assets (A:=addr_ref) example_asset 12%N 15 (example_bridge [9]) = (example_mint.1, Ok (m, ks)) ∧
  erc20_amount m + nut_amount m = 15 ∧ supply (tokens example_mint.1) example_erc20 ≤ 610.
Proof.
  destruct (run_succeeds example_mint) as [[m ks] Hr]; [vm_compute; reflexivity|]. exists m, ks. split; [exact Hr|].
  destruct (minting_respects_cap (AL:=addr_ref_laws) (BL:=bridge_ref_laws)
    (example_bridge [9]) example_asset 12%N 15 example_mint.1 m ks (proj1 example_balanced) ltac:(lia) Hr)
    as (Ha & _ & _ & _ & H & _). split; [exact Ha|]. apply H. vm_compute. reflexivity.
Defined.

(** The first transfer of the pool is relayed; the second has timed out. *)
Definition example_events : list TransferToEthereumEvent := [event_of (example_transfer 1)].
Definition example_batch := act_on_transfers_to_eth (A:=addr_ref) example_block example_events 13%N (example_bridge [9]).
Lemma eth_batch_settled_witness : ∃ ks evs,
  act_on_transfers_to_eth (A:=addr_ref) example_block example_events 13%N (example_bridge [9]) = (example_batch.1, Ok (ks, evs)) ∧
  pending example_batch.1 !! get_pending_key (example_transfer 1) = None ∧ pending example_batch.1 !! get_pending_key (example_transfer 2) = None ∧
  pending example_batch.1 !! get_pending_key (example_transfer 3) = Some (example_transfer 3).
Proof.
  destruct (run_succeeds example_batch) as [[ks evs] Hr]; [vm_compute; reflexivity|]. exists ks, evs. split; [exact Hr|].
  assert (Hn : bp_nonce (example_bridge [9]) = Some 0) by reflexivity.
  pose proof (eth_batch_settled (A:=addr_ref) (I:=internal_ref) (EA:=eth_ref) (B:=bridge_ref) (OK:=key_order_ref)
    example_block example_events 13%N (example_bridge [9]) example_batch.1 ks evs 0 Hn Hr) as H.
  destruct H as (_ & _ & _ & Hp & _). split; [|split]; (etransitivity; [apply Hp|]); vm_compute; reflexivity.
Defined.

(** When the asset is the native one, the pool, which holds no native tokens, cannot refund. *)
Lemma native_refund_paid_by_pool_witness :
  refund_transferred_assets (A:=addr_ref) example_block (example_transfer 1) (example_bridge example_asset)
    = (example_bridge example_asset, Err (TokenErr InsufficientBalance)).
Proof.
  refine (proj1 (native_refund_paid_by_pool (AL:=addr_ref_laws) example_block (example_transfer 1) (example_bridge example_asset)
    (proj1 example_balanced) eq_refl _ _ _ _) _); [done..|vm_compute; reflexivity].
Defined.

Definition example_self_relayed := complete_transfer (A:=addr_ref) bridge_pool_address (event_of (example_transfer 1)) (example_bridge [9]).
Lemma pool_as_relayer_inflates_witness :
  balance (tokens example_self_relayed.1) 20%N 9%N = balance example_tokens 20%N 9%N + 1 ∧
  supply (tokens example_self_relayed.1) 20%N = supply example_tokens 20%N.
Proof.
  destruct (run_succeeds example_self_relayed) as [r Hr]; [vm_compute; reflexivity|].
  assert (Hx : pending (example_bridge [9]) !! key_of (event_of (example_transfer 1)) = Some (example_transfer 1)) by (vm_compute; reflexivity).
  destruct (pool_as_relayer_inflates (A:=addr_ref) (I:=internal_ref) (AL:=addr_ref_laws) (EA:=eth_ref) (B:=bridge_ref) (event_of (example_transfer 1)) (example_transfer 1) (example_bridge [9])
    example_self_relayed.1 r (proj1 example_balanced) Hx ltac:(done) ltac:(done) Hr) as (_ & H & _).
  apply H. done.
Defined.

Definition example_ledger : Ledger (A:=addr_ref) (K:=Z) := mk_ledger (A:=addr_ref) (mk_tallies ∅ ∅ ∅ ∅ ∅) (example_bridge [9]) [].
Definition example_tx : list (EthereumEvent (A:=addr_ref) * list (N * Z)) := [(EvTransfersToEthereum (A:=addr_ref) 0 example_events 13%N, example_votes)].
Definition example_applied := apply_derived_tx (A:=addr_ref) (P:=example_pos) (K:=Z) (λ _, 7) example_block 10 1 1 example_tx example_ledger.
Lemma bridge_keeps_tokens_backed_witness :
  bp_nonce (l_bridge example_applied.1) = Some 1 ∧ bridge_ok (A:=addr_ref) example_owners (l_bridge example_applied.1).
Proof.
  split; [vm_compute; reflexivity|]. destruct (run_succeeds example_applied) as [r Hr]; [vm_compute; reflexivity|].
  refine (bridge_keeps_tokens_backed (A:=addr_ref) (I:=internal_ref) (AL:=addr_ref_laws) (EA:=eth_ref) (B:=bridge_ref) (OS:=key_order_ref)
    (P:=example_pos) (λ _, 7) example_owners example_block 10 1 1 example_tx
    example_ledger example_applied.1 r _ _ _ _ _ Hr).
  - apply (bool_decide_unpack _). vm_compute. exact Logic.I.
  - right. left.
  - left.
  - constructor; [|constructor]. split; [do 3 right; left|done].
  - split; [split; [exact (proj1 example_balanced)|]|split; [constructor|]].
    + intros k x Hx. apply elem_of_list_to_map_2, list_elem_of_fmap in Hx as (y & [= _ ->] & Hy).
      apply list_elem_of_fmap in Hy as (n & -> & Hn). assert (Hn0 : 0 ≤ n) by (clear - Hn; set_solver by lia).
      assert (H12 : 12%N ∈ example_owners) by (do 2 right; left). assert (H9 : 12%N ≠ 9%N) by done.
      unfold ok_pending, example_transfer. cbn [BridgePool.transfer gas_fee tr_amount fee_amount sender fee_payer].
      split; [lia|]. split; [lia|]. exact (conj H12 (conj H9 (conj H12 H9))).
    + intros t _. exact (proj2 example_balanced t).
Defined.
