(* ===== verification/MultitokenVp.v ===== *)
(** * The multitoken validity predicate
    (crates/namada/src/ledger/native_vp/multitoken.rs)

    [validate_tx] goes over the changed keys, adding up the increases and
    decreases of balances and supplies per token, and then requires them to
    match.  The soundness theorem says what an accepted transaction cannot have
    done. *)

From S2P Require Import Prelude Words Uint Decimal I256 Dec Token StorageKey TransToken.

Section vp.
Context {A : AddressApi} {I : InternalAddrs A}.

Abbreviation Store := (gmap Key value).

Inductive VpError : Type :=
| ReadError (e : TokenError)
| DepositNotAllowed
| WithdrawNotAllowed
| MintBurnNotAllowed
| BalanceOverflow
| IbcVpNotTriggered
| OnlyIbcMints
| NonIbcMint
| NoTxData
| ProposalNotAccepted
| UnexpectedKey
| TokenMustVerify
| Unbalanced.

(** What the predicate sees: the state before and after the transaction, the
    native token and whether it can be transferred, and, for the transaction's
    data if there are any, whether governance accepted it as a proposal (reading
    that can fail). *)
Record Ctx : Type := mk_ctx {
  pre : Store;
  post : Store;
  native_token : Address;
  is_native_token_transferable : bool;
  proposal_accepted : option (res VpError bool);
}.

(** The four maps of changes per token. *)
Record Changes : Type := mk_changes {
  inc_changes : gmap Address Z;
  dec_changes : gmap Address Z;
  inc_mints : gmap Address Z;
  dec_mints : gmap Address Z;
}.

(** The body of the loop either returns from [validate_tx] or goes on. *)
Inductive flow : Type :=
| Return (r : res VpError unit)
| Continue (c : Changes).

Definition entry_add (m : gmap Address Z) (token : Address) (diff : Z) : option (gmap Address Z) :=
  v ← ZAmount.add (default 0 (m !! token)) diff; Some (<[token := v]> m).

Definition read_ctx (s : Store) (k : Key) : res VpError Z :=
  map_err ReadError (default 0 <$> as_amount (s !! k)).

Definition is_allowed_inc (c : Ctx) (token target : Address) : bool :=
  negb (bool_decide (token = native_token c)) || is_native_token_transferable c
  || bool_decide (target = pos) || bool_decide (target = gov).
Definition is_allowed_dec (c : Ctx) (token target : Address) : bool :=
  negb (bool_decide (token = native_token c)) || is_native_token_transferable c
  || (negb (bool_decide (target = pos)) && negb (bool_decide (target = gov))).

Definition is_valid_minter (c : Ctx) (token : Address) (verifiers : gset Address) : res VpError unit :=
  if is_ibc_token token then
    k ← expect (minter_key token);
    match post c !! k with
    | Some (VAddress minter) =>
        if bool_decide (minter = ibc)
        then (if bool_decide (minter ∈ verifiers) then Ok () else Err IbcVpNotTriggered)
        else Err OnlyIbcMints
    | Some _ => Err (ReadError DecodeError)
    | None => Err OnlyIbcMints
    end
  else Err NonIbcMint.

Definition is_valid_parameter (c : Ctx) : res VpError unit :=
  match proposal_accepted c with
  | None => Err NoTxData
  | Some r => accepted ← r; if accepted : bool then Ok () else Err ProposalNotAccepted
  end.

(** Errors of the loop body end the function. *)
Definition try_flow {B} (r : res VpError B) (f : B → flow) : flow :=
  match r with Ok b => f b | Err e => Return (Err e) | Panic => Return Panic end.

Definition on_balance (c : Ctx) (k : Key) (token owner : Address) (st : Changes) : flow :=
  try_flow (read_ctx (pre c) k) (λ pre_,
  try_flow (read_ctx (post c) k) (λ post_,
  match ZAmount.sub post_ pre_ with
  | Some diff =>
      if negb (is_allowed_inc c token owner) then Return (Err DepositNotAllowed)
      else try_flow (ok_or (entry_add (inc_changes st) token diff) BalanceOverflow) (λ m,
             Continue (mk_changes m (dec_changes st) (inc_mints st) (dec_mints st)))
  | None =>
      if negb (is_allowed_dec c token owner) then Return (Err WithdrawNotAllowed)
      else try_flow (expect (ZAmount.sub pre_ post_)) (λ diff,
             try_flow (ok_or (entry_add (dec_changes st) token diff) BalanceOverflow) (λ m,
               Continue (mk_changes (inc_changes st) m (inc_mints st) (dec_mints st))))
  end)).

Definition on_minted (c : Ctx) (k : Key) (token : Address) (verifiers : gset Address) (st : Changes) : flow :=
  if bool_decide (token = native_token c) && negb (is_native_token_transferable c)
  then Return (Err MintBurnNotAllowed)
  else
    try_flow (read_ctx (pre c) k) (λ pre_,
    try_flow (read_ctx (post c) k) (λ post_,
    try_flow
      match ZAmount.sub post_ pre_ with
      | Some diff =>
          m ← ok_or (entry_add (inc_mints st) token diff) BalanceOverflow;
          Ok (mk_changes (inc_changes st) (dec_changes st) m (dec_mints st))
      | None =>
          diff ← expect (ZAmount.sub pre_ post_);
          m ← ok_or (entry_add (dec_mints st) token diff) BalanceOverflow;
          Ok (mk_changes (inc_changes st) (dec_changes st) (inc_mints st) m)
      end (λ st',
    try_flow (is_valid_minter c token verifiers) (λ _, Continue st')))).

Definition check_key (c : Ctx) (verifiers : gset Address) (key : Key) (st : Changes) : flow :=
  match is_any_token_balance_key key with
  | Some (token, owner) => on_balance c key token owner st
  | None =>
  match is_any_minted_balance_key key with
  | Some token => on_minted c key token verifiers st
  | None =>
  match is_any_minter_key key with
  | Some token => try_flow (is_valid_minter c token verifiers) (λ _, Continue st)
  | None =>
  match is_any_token_parameter_key key with
  | Some _ => Return (is_valid_parameter c)
  | None =>
      if bool_decide (head (segments key) = Some (AddressSeg multitoken))
      then Return (Err UnexpectedKey) else Continue st
  end end end end.

Fixpoint check_keys (c : Ctx) (verifiers : gset Address) (keys : list Key) (st : Changes) : flow :=
  match keys with
  | [] => Continue st
  | k :: keys =>
      match check_key c verifiers k st with
      | Return r => Return r
      | Continue st => check_keys c verifiers keys st
      end
  end.

Definition token_changes_are_balanced (inc_change dec_change inc_mint dec_mint : Z) : bool :=
  if (dec_change <=? inc_change) && (dec_mint <=? inc_mint) then
    bool_decide (ZAmount.sub inc_change dec_change = ZAmount.sub inc_mint dec_mint)
  else if (inc_change <? dec_change) && (dec_mint <=? inc_mint)
       || (dec_change <=? inc_change) && (inc_mint <? dec_mint) then false
  else bool_decide (ZAmount.sub dec_change inc_change = ZAmount.sub dec_mint inc_mint).

Definition check_token (verifiers : gset Address) (st : Changes) (token : Address) : res VpError unit :=
  if bool_decide (is_Some (nut_erc20 token)) && negb (bool_decide (token ∈ verifiers))
  then Err TokenMustVerify
  else if token_changes_are_balanced
            (default 0 (inc_changes st !! token)) (default 0 (dec_changes st !! token))
            (default 0 (inc_mints st !! token)) (default 0 (dec_mints st !! token))
       then Ok () else Err Unbalanced.

Fixpoint try_for_each (f : Address → res VpError unit) (l : list Address) : res VpError unit :=
  match l with
  | [] => Ok ()
  | t :: l => _ ← f t; try_for_each f l
  end.

(** The tokens are visited in the order of [elements]; the order of the source's
    sorted set only decides which error is reported first. *)
Definition validate_tx (c : Ctx) (keys_changed : list Key) (verifiers : gset Address) : res VpError unit :=
  match check_keys c verifiers keys_changed (mk_changes ∅ ∅ ∅ ∅) with
  | Return r => r
  | Continue st =>
      let all_tokens : gset Address :=
        dom (inc_changes st) ∪ dom (dec_changes st) ∪ dom (inc_mints st) ∪ dom (dec_mints st) in
      try_for_each (check_token verifiers st) (elements all_tokens)
  end.

(** ** What the maps hold *)

Definition bal (m : gmap Address Z) (t : Address) : Z := default 0 (m !! t).

Definition kdiff (c : Ctx) (k : Key) : Z := amount_at (post c) k - amount_at (pre c) k.

(** Sum of the changes of the keys that satisfy [P]. *)
Definition sum_keys (c : Ctx) (P : Key → bool) (keys : list Key) : Z :=
  foldr (λ k acc, (if P k then kdiff c k else 0) + acc) 0 keys.

Definition balance_of (t : Address) (k : Key) : bool :=
  match is_any_token_balance_key k with Some (t', _) => bool_decide (t' = t) | None => false end.
Definition minted_of (t : Address) (k : Key) : bool :=
  bool_decide (is_any_minted_balance_key k = Some t).

Lemma entry_add_bal m t d m' : entry_add m t d = Some m' →
  ∀ t', bal m' t' = bal m t' + if decide (t' = t) then d else 0.
Proof using Type.
  unfold entry_add, ZAmount.add, bal. intros H t'.
  destruct (chk 256 _) as [v|] eqn:E; [|done]. cbn in H. injection H as <-.
  apply chk_Some in E as [-> _]. destruct (decide (t' = t)) as [->|].
  - by rewrite lookup_insert_eq.
  - rewrite lookup_insert_ne by done. lia.
Qed.

Lemma read_ctx_ok s k v : read_ctx s k = Ok v → v = amount_at s k.
Proof using Type.
  unfold read_ctx, as_amount, amount_at. destruct (s !! k) as [[]|]; cbn; congruence.
Qed.

Lemma not_both k t : is_any_token_balance_key k = Some t → is_any_minted_balance_key k = None.
Proof using Type.
  unfold is_any_token_balance_key, is_any_minted_balance_key.
  by destruct (segments k) as [|[] [|[] [|[] [|[] []]]]].
Qed.

(** One key: the maps move by its change. *)
Lemma check_key_spec c vs k st st' : check_key c vs k st = Continue st' →
  ∀ t,
    bal (inc_changes st') t - bal (dec_changes st') t =
      bal (inc_changes st) t - bal (dec_changes st) t + (if balance_of t k then kdiff c k else 0) ∧
    bal (inc_mints st') t - bal (dec_mints st') t =
      bal (inc_mints st) t - bal (dec_mints st) t + (if minted_of t k then kdiff c k else 0).
Proof using Type.
  unfold check_key, balance_of, minted_of, kdiff. intros H t.
  destruct (is_any_token_balance_key k) as [[t0 o]|] eqn:Eb.
  { rewrite (not_both _ _ Eb). rewrite (bool_decide_eq_false_2 (None = Some t)) by done.
    unfold on_balance, try_flow in H.
    destruct (read_ctx (pre c) k) as [p| |] eqn:E1; [|done..]. apply read_ctx_ok in E1 as ->.
    destruct (read_ctx (post c) k) as [q| |] eqn:E2; [|done..]. apply read_ctx_ok in E2 as ->.
    destruct (ZAmount.sub (amount_at (post c) k) _) as [d|] eqn:Ed.
    - destruct (negb _); [done|]. destruct (entry_add _ t0 d) as [m|] eqn:Em; cbn in H; [|done].
      injection H as <-. cbn. rewrite (entry_add_bal _ _ _ _ Em t).
      apply chk_Some in Ed as [-> _]. case_bool_decide as Ht; destruct (decide (t = t0)); subst; lia || done.
    - destruct (negb _); [done|]. destruct (ZAmount.sub (amount_at (pre c) k) _) as [d|] eqn:Ed'; cbn in H; [|done].
      destruct (entry_add _ t0 d) as [m|] eqn:Em; cbn in H; [|done].
      injection H as <-. cbn. rewrite (entry_add_bal _ _ _ _ Em t).
      apply chk_Some in Ed' as [-> _]. case_bool_decide as Ht; destruct (decide (t = t0)); subst; lia || done. }
  destruct (is_any_minted_balance_key k) as [t0|] eqn:Em0.
  { unfold on_minted, try_flow in H. destruct (_ && _); [done|].
    destruct (read_ctx (pre c) k) as [p| |] eqn:E1; [|done..]. apply read_ctx_ok in E1 as ->.
    destruct (read_ctx (post c) k) as [q| |] eqn:E2; [|done..]. apply read_ctx_ok in E2 as ->.
    destruct (ZAmount.sub (amount_at (post c) k) _) as [d|] eqn:Ed.
    - destruct (entry_add _ t0 d) as [m|] eqn:Em; cbn in H; [|done].
      destruct (is_valid_minter _ _ _) as [[]| |]; [|done..]. injection H as <-. cbn.
      rewrite (entry_add_bal _ _ _ _ Em t). apply chk_Some in Ed as [-> _].
      case_bool_decide as Ht; destruct (decide (t = t0)); simplify_eq; lia || done.
    - destruct (ZAmount.sub (amount_at (pre c) k) _) as [d|] eqn:Ed'; cbn in H; [|done].
      destruct (entry_add _ t0 d) as [m|] eqn:Em; cbn in H; [|done].
      destruct (is_valid_minter _ _ _) as [[]| |]; [|done..]. injection H as <-. cbn.
      rewrite (entry_add_bal _ _ _ _ Em t). apply chk_Some in Ed' as [-> _].
      case_bool_decide as Ht; destruct (decide (t = t0)); simplify_eq; lia || done. }
  rewrite (bool_decide_eq_false_2 (None = Some t)) by done.
  assert (st' = st) as ->; [|lia].
  unfold try_flow in H. repeat case_match; congruence.
Qed.

Lemma check_keys_spec c vs ks st st' : check_keys c vs ks st = Continue st' →
  ∀ t,
    bal (inc_changes st') t - bal (dec_changes st') t =
      bal (inc_changes st) t - bal (dec_changes st) t + sum_keys c (balance_of t) ks ∧
    bal (inc_mints st') t - bal (dec_mints st') t =
      bal (inc_mints st) t - bal (dec_mints st) t + sum_keys c (minted_of t) ks.
Proof using Type.
  revert st. induction ks as [|k ks IH]; intros st H t; cbn in *.
  { injection H as <-. lia. }
  destruct (check_key c vs k st) as [|st1] eqn:E; [done|].
  pose proof (check_key_spec _ _ _ _ _ E t). pose proof (IH _ H t). unfold sum_keys in *. lia.
Qed.

(** Every key of the loop was accepted by its own branch. *)
Lemma check_keys_each c vs ks st st' : check_keys c vs ks st = Continue st' →
  ∀ k, k ∈ ks → ∃ s1 s2, check_key c vs k s1 = Continue s2.
Proof using Type.
  revert st. induction ks as [|k0 ks IH]; intros st H k Hin; [by apply elem_of_nil in Hin|].
  cbn in H. destruct (check_key c vs k0 st) as [|st1] eqn:E; [done|].
  apply elem_of_cons in Hin as [->|Hin]; [by exists st, st1|]. by eapply IH.
Qed.

Lemma balanced_eq a b x y :
  token_changes_are_balanced a b x y = true → 0 ≤ a < 2 ^ 256 → 0 ≤ b < 2 ^ 256 →
  0 ≤ x < 2 ^ 256 → 0 ≤ y < 2 ^ 256 → a - b = x - y.
Proof using Type.
  unfold token_changes_are_balanced, ZAmount.sub. intros H ? ? ? ?.
  destruct ((b <=? a) && (y <=? x)) eqn:E1.
  - boolp. apply bool_decide_eq_true in H. rewrite !chk_in in H by lia. by injection H.
  - destruct ((a <? b) && (y <=? x) || (b <=? a) && (x <? y)) eqn:E2; [done|].
    apply bool_decide_eq_true in H. boolp.
    assert (a < b ∧ x < y) as [? ?].
    { destruct (Z.leb_spec b a), (Z.leb_spec y x), (Z.ltb_spec a b), (Z.ltb_spec x y); cbn in *; done || lia. }
    rewrite !chk_in in H by lia. injection H. lia.
Qed.

Definition in_range (m : gmap Address Z) : Prop := ∀ t, 0 ≤ bal m t < 2 ^ 256.
Definition changes_in_range (st : Changes) : Prop :=
  in_range (inc_changes st) ∧ in_range (dec_changes st) ∧
  in_range (inc_mints st) ∧ in_range (dec_mints st).

Lemma entry_add_range m t d m' : entry_add m t d = Some m' → in_range m → in_range m'.
Proof using Type.
  unfold entry_add, ZAmount.add. intros H Hm t'.
  destruct (chk 256 _) as [v|] eqn:E; [|done]. cbn in H. injection H as <-.
  apply chk_Some in E as [-> ?]. unfold bal. destruct (decide (t' = t)) as [->|].
  - by rewrite lookup_insert_eq.
  - rewrite lookup_insert_ne by done. apply Hm.
Qed.

Lemma check_key_range c vs k st st' : check_key c vs k st = Continue st' →
  changes_in_range st → changes_in_range st'.
Proof using Type.
  unfold check_key, on_balance, on_minted, try_flow, ok_or, expect, mbind, res_bind.
  intros H (H1 & H2 & H3 & H4).
  repeat case_match; simplify_eq; try done; split_and!; cbn; try done; by eapply entry_add_range.
Qed.

Lemma check_keys_range c vs ks st st' : check_keys c vs ks st = Continue st' →
  changes_in_range st → changes_in_range st'.
Proof using Type.
  revert st. induction ks as [|k ks IH]; intros st H Hst; cbn in H; [by injection H as <-|].
  destruct (check_key c vs k st) as [|st1] eqn:E; [done|].
  eapply IH; [done|]. by eapply check_key_range.
Qed.

Lemma try_for_each_all f l : try_for_each f l = Ok () → ∀ t, t ∈ l → f t = Ok ().
Proof using Type.
  induction l as [|t0 l IH]; intros H t Hin; [by apply elem_of_nil in Hin|]. cbn in H.
  destruct (f t0) as [[]| |] eqn:E; [|done..]. apply elem_of_cons in Hin as [->|Hin]; [done|].
  by apply IH.
Qed.

(** Two duplicate-free lists of keys that agree where something changed have
    the same sum of changes. *)
Definition sum_diff (c : Ctx) (l : list Key) : Z := foldr (λ k acc, kdiff c k + acc) 0 l.

Lemma sum_diff_perm c l1 l2 : l1 ≡ₚ l2 → sum_diff c l1 = sum_diff c l2.
Proof using Type. unfold sum_diff. induction 1; cbn; lia. Qed.

Lemma sum_diff_same c l1 l2 : NoDup l1 → NoDup l2 →
  (∀ k, k ∈ l1 → k ∉ l2 → kdiff c k = 0) → (∀ k, k ∈ l2 → k ∉ l1 → kdiff c k = 0) →
  sum_diff c l1 = sum_diff c l2.
Proof using Type.
  intros H1. revert l2. induction H1 as [|k l1 Hk Hnd IH]; intros l2 H2 Hz1 Hz2.
  { induction l2 as [|k l2 IH2]; [done|]. unfold sum_diff in *. cbn.
    apply NoDup_cons in H2 as [Hk2 H2].
    rewrite (Hz2 k) by (set_solver). rewrite <-IH2; [cbn; lia|done|set_solver|set_solver]. }
  destruct (decide (k ∈ l2)) as [Hin|Hnin].
  - apply elem_of_Permutation in Hin as [l2' Hp]. rewrite (sum_diff_perm _ _ _ Hp).
    rewrite Hp in H2. apply NoDup_cons in H2 as [Hk2 H2].
    unfold sum_diff in *. cbn. rewrite (IH l2'); [done|done| |].
    + intros k' Hk' Hn'. apply Hz1; [by right|]. rewrite Hp. set_solver.
    + intros k' Hk' Hn'. apply Hz2; [rewrite Hp; by right|]. rewrite not_elem_of_cons. split; [|done].
      intros ->. done.
  - unfold sum_diff in *. cbn. rewrite (Hz1 k) by (done || by left). rewrite (IH l2); [lia|done| |].
    + intros k' Hk' Hn'. apply Hz1; [by right|done].
    + intros k' Hk' Hn'. apply Hz2; [done|]. rewrite not_elem_of_cons. split; [|done]. by intros ->.
Qed.

Lemma sum_keys_filter c P ks : sum_keys c P ks = sum_diff c (filter (λ k, P k = true) ks).
Proof using Type.
  unfold sum_keys, sum_diff. induction ks as [|k ks IH]; [done|]. rewrite filter_cons. cbn [foldr].
  destruct (decide (P k = true)) as [E|E].
  - rewrite E. cbn [foldr]. lia.
  - destruct (P k); [done|]. lia.
Qed.

Lemma total_diff c t owners :
  total_balance (post c) t owners - total_balance (pre c) t owners = sum_diff c (bkey t <$> owners).
Proof using Type.
  unfold total_balance, sum_diff, kdiff. induction owners as [|o l IH]; [done|]. cbn in *.
  unfold balance at 1 3. lia.
Qed.

Lemma balance_of_inv t k : balance_of t k = true → ∃ o, k = bkey t o.
Proof using Type.
  unfold balance_of, is_any_token_balance_key. destruct k as [segs]. cbn.
  destruct segs as [|[a0|] [|[t0|] [|[|s0] [|[o0|] [|]]]]]; try done.
  destruct (decide _) as [[-> ->]|]; [|done]. intros <-%bool_decide_eq_true. by exists o0.
Qed.

Lemma minted_inv t k : is_any_minted_balance_key k = Some t → k = mkey t.
Proof using Type.
  unfold is_any_minted_balance_key. destruct k as [segs]. cbn.
  destruct segs as [|[a0|] [|[t0|] [|[|s0] [|[|s1] [|]]]]]; try done.
  destruct (decide _) as [(-> & -> & ->)|]; [|done]. by intros [= ->].
Qed.

(** Without parameter keys the loop never accepts early. *)
Lemma no_early_accept c vs ks st :
  (∀ k, k ∈ ks → is_any_token_parameter_key k = None) → check_keys c vs ks st ≠ Return (Ok ()).
Proof using Type.
  revert st. induction ks as [|k ks IH]; intros st Hpar; cbn; [done|].
  destruct (check_key c vs k st) as [r|st'] eqn:E; [|apply IH; set_solver].
  intros [= ->]. unfold check_key, on_balance, on_minted, try_flow, ok_or, expect, mbind, res_bind in E.
  rewrite (Hpar k) in E by (by left). repeat case_match; simplify_eq.
Qed.

Lemma checked_token_balanced c vs ks st t : changes_in_range st →
  try_for_each (check_token vs st)
    (elements (dom (inc_changes st) ∪ dom (dec_changes st) ∪ dom (inc_mints st) ∪ dom (dec_mints st)
       : gset Address)) = Ok () →
  check_keys c vs ks (mk_changes ∅ ∅ ∅ ∅) = Continue st →
  bal (inc_changes st) t - bal (dec_changes st) t = bal (inc_mints st) t - bal (dec_mints st) t.
Proof using Type.
  intros (H1 & H2 & H3 & H4) Hall _.
  destruct (decide (t ∈ (dom (inc_changes st) ∪ dom (dec_changes st) ∪ dom (inc_mints st) ∪
    dom (dec_mints st) : gset Address))) as [Hin|Hn].
  - apply elem_of_elements in Hin. pose proof (try_for_each_all _ _ Hall t Hin) as Hc.
    unfold check_token in Hc. destruct (_ && _); [done|].
    destruct (token_changes_are_balanced _ _ _ _) eqn:E; [|done].
    eapply balanced_eq; [exact E|..]; unfold in_range, bal in *; auto.
  - rewrite !not_elem_of_union, !not_elem_of_dom in Hn. destruct Hn as [[[E1 E2] E3] E4].
    unfold bal. rewrite E1, E2, E3, E4. done.
Qed.

Lemma minted_accepted {AL : AddressLaws A} c vs t s1 s2 : check_key c vs (mkey t) s1 = Continue s2 →
  (is_ibc_token t = true ∧ ibc ∈ vs ∧ post c !! minterk t = Some (VAddress ibc)) ∧
  ¬ (is_native_token_transferable c = false ∧ t = native_token c).
Proof using Type.
  unfold check_key. rewrite mkey_is. change (is_any_token_balance_key (mkey t)) with (@None (Address * Address)).
  unfold on_minted, try_flow, is_valid_minter. rewrite minter_key_eq. cbn [expect mbind res_bind].
  intros H. repeat case_match; simplify_eq; repeat case_bool_decide; simplify_eq; split; try done.
  all: intros [E1 E2]; rewrite E1 in *; done.
Qed.

Lemma inc_accepted c vs o s1 s2 : check_key c vs (bkey (native_token c) o) s1 = Continue s2 →
  wf_store (pre c) → wf_store (post c) → is_native_token_transferable c = false →
  balance (pre c) (native_token c) o < balance (post c) (native_token c) o → o = pos ∨ o = gov.
Proof using Type.
  unfold check_key. rewrite bkey_is. unfold on_balance, try_flow, is_allowed_inc.
  intros H Hw1 Hw2 Hnt Hlt. pose proof (balance_range _ (native_token c) o Hw1).
  pose proof (balance_range _ (native_token c) o Hw2). unfold balance in *. rewrite Hnt in H. rewrite bool_decide_eq_true_2 in H by done. cbn in H.
  destruct (read_ctx (pre c) _) as [p| |] eqn:E1; [|done..]. apply read_ctx_ok in E1 as ->.
  destruct (read_ctx (post c) _) as [q| |] eqn:E2; [|done..]. apply read_ctx_ok in E2 as ->.
  unfold ZAmount.sub in H. rewrite chk_in in H by lia.
  destruct (bool_decide (o = pos)) eqn:E3; [left; by apply bool_decide_eq_true in E3|].
  destruct (bool_decide (o = gov)) eqn:E4; [right; by apply bool_decide_eq_true in E4|]. done.
Qed.
End vp.

(** C9.  An accepted transaction that touches no token parameter conserves
    every token: over any accounts that include all those whose balance changed,
    the sum of balances moves exactly as the recorded supply does; the supply
    moves only for IBC tokens whose minter is the IBC account, with that account
    verifying; and while the native token cannot be transferred, its balances
    grow only for proof of stake and governance, and its supply is fixed. *)
Theorem multitoken_vp_sound (A : AddressApi) (I : InternalAddrs A) (AL : AddressLaws A)
    (c : Ctx) (keys_changed : list Key) (verifiers : gset Address) :
  wf_store (pre c) → wf_store (post c) →
  NoDup keys_changed → (∀ k, pre c !! k ≠ post c !! k → k ∈ keys_changed) →
  (∀ k, k ∈ keys_changed → is_any_token_parameter_key k = None) →
  validate_tx c keys_changed verifiers = Ok () →
  (∀ t owners, NoDup owners →
     (∀ o, balance (pre c) t o ≠ balance (post c) t o → o ∈ owners) →
     total_balance (post c) t owners - total_balance (pre c) t owners =
     supply (post c) t - supply (pre c) t) ∧
  (∀ t, supply (pre c) t ≠ supply (post c) t →
     is_ibc_token t = true ∧ ibc ∈ verifiers ∧ post c !! minterk t = Some (VAddress ibc)) ∧
  (is_native_token_transferable c = false →
     supply (pre c) (native_token c) = supply (post c) (native_token c) ∧
     ∀ o, balance (pre c) (native_token c) o < balance (post c) (native_token c) o →
       o = pos ∨ o = gov).
Proof.
  intros Hw1 Hw2 Hnd Hcov Hpar Hok. unfold validate_tx in Hok.
  destruct (check_keys c verifiers keys_changed _) as [r|st] eqn:Ek.
  { exfalso. subst r. by eapply no_early_accept. }
  assert (Hkey : ∀ k, amount_at (pre c) k ≠ amount_at (post c) k → k ∈ keys_changed).
  { intros k Hk. apply Hcov. intros E. apply Hk. unfold amount_at. by rewrite E. }
  pose proof (check_keys_each _ _ _ _ _ Ek) as Heach.
  split_and!.
  - intros t owners Hno Hown. rewrite total_diff.
    destruct (check_keys_spec _ _ _ _ _ Ek t) as [Hb Hm]. cbn in Hb, Hm.
    assert (Hr : changes_in_range st).
    { eapply check_keys_range; [exact Ek|]. split_and!; intros t'; unfold bal; cbn;
        rewrite lookup_empty; cbn; lia. }
    assert (Hbal : bal (inc_changes st) t - bal (dec_changes st) t =
      bal (inc_mints st) t - bal (dec_mints st) t) by (by eapply checked_token_balanced).
    assert (E1 : sum_keys c (balance_of t) keys_changed = sum_diff c (bkey t <$> owners)).
    { rewrite sum_keys_filter. apply sum_diff_same.
      - by apply NoDup_filter.
      - apply NoDup_fmap_2_strong; [|done]. by intros x y _ _ [? ?]%bkey_inj.
      - intros k [Hk Hin]%list_elem_of_filter Hn. apply balance_of_inv in Hk as [o ->].
        destruct (Z.eq_dec (kdiff c (bkey t o)) 0); [done|]. exfalso. apply Hn.
        apply list_elem_of_fmap_2, Hown. unfold balance, kdiff in *. lia.
      - intros k Hk Hn. apply list_elem_of_fmap in Hk as (o & -> & Ho).
        destruct (Z.eq_dec (kdiff c (bkey t o)) 0); [done|]. exfalso. apply Hn.
        apply list_elem_of_filter. split; [unfold balance_of; rewrite bkey_is; by apply bool_decide_eq_true_2|].
        apply Hkey. unfold kdiff in *. lia. }
    assert (E2 : sum_keys c (minted_of t) keys_changed = sum_diff c [mkey t]).
    { rewrite sum_keys_filter. apply sum_diff_same.
      - by apply NoDup_filter.
      - apply NoDup_singleton.
      - intros k [Hk Hin]%list_elem_of_filter Hn. apply bool_decide_eq_true, minted_inv in Hk as ->.
        set_solver.
      - intros k ->%list_elem_of_singleton Hn.
        destruct (Z.eq_dec (kdiff c (mkey t)) 0); [done|]. exfalso. apply Hn.
        apply list_elem_of_filter. split; [unfold minted_of; rewrite mkey_is; by apply bool_decide_eq_true_2|].
        apply Hkey. unfold kdiff in *. lia. }
    unfold bal in Hb, Hm, Hbal. rewrite lookup_empty in Hb, Hm. cbn in Hb, Hm.
    unfold sum_diff at 1 in E2. cbn in E2. unfold kdiff in E2 at 1. unfold supply. lia.
  - intros t Ht. destruct (Heach (mkey t) (Hkey _ Ht)) as (s1 & s2 & Hc).
    by apply (minted_accepted c verifiers t s1 s2) in Hc as [? _].
  - intros Hnt. split.
    + destruct (Z.eq_dec (supply (pre c) (native_token c)) (supply (post c) (native_token c))) as [|Hne];
        [done|]. destruct (Heach (mkey (native_token c)) (Hkey _ Hne)) as (s1 & s2 & Hc).
      apply minted_accepted in Hc as [_ Hc]. exfalso. by apply Hc.
    + intros o Ho. destruct (Heach (bkey (native_token c) o)) as (s1 & s2 & Hc).
      { apply Hkey. unfold balance in Ho. lia. }
      by eapply inc_accepted.
Qed.

(** A transfer of 3 from account 10 to account 11, as the predicate sees it. *)
Definition example_pre : gmap (Key (A:=addr_ref)) value := <[bkey 20%N 10%N := VAmount 5]> ∅.
Definition example_post : gmap (Key (A:=addr_ref)) value :=
  <[bkey 20%N 11%N := VAmount 3]> (<[bkey 20%N 10%N := VAmount 2]> ∅).
Definition example_keys : list (Key (A:=addr_ref)) := [bkey 20%N 10%N; bkey 20%N 11%N].
Definition example_ctx : Ctx (A:=addr_ref) := mk_ctx example_pre example_post 30%N true None.

Lemma multitoken_vp_sound_witness :
  validate_tx example_ctx example_keys ∅ = Ok () ∧
  total_balance example_post 20%N [10%N; 11%N] - total_balance example_pre 20%N [10%N; 11%N] =
  supply example_post 20%N - supply example_pre 20%N.
Proof.
  assert (Hw : wf_store (A:=addr_ref) ∅) by (apply (balanced_empty addr_ref internal_ref [])).
  assert (Hok : validate_tx example_ctx example_keys ∅ = Ok ())
    by (vm_compute; reflexivity).
  split; [exact Hok|].
  destruct (multitoken_vp_sound addr_ref internal_ref addr_ref_laws example_ctx
    example_keys ∅) as (H & _); [| | | | |exact Hok|].
  - apply wf_store_insert; [exact Hw|lia].
  - apply wf_store_insert; [apply wf_store_insert; [exact Hw|lia]|lia].
  - apply (bool_decide_unpack _). vm_compute. exact I.
  - intros k Hk. unfold example_ctx, example_pre, example_post in Hk. cbn [pre post] in Hk.
    destruct (decide (k = bkey (A:=addr_ref) 20%N 11%N)) as [->|H1]; [right; left|].
    destruct (decide (k = bkey (A:=addr_ref) 20%N 10%N)) as [->|H2]; [left|].
    exfalso. apply Hk. by rewrite !lookup_insert_ne by done.
  - intros k Hk. unfold example_keys in Hk. rewrite !elem_of_cons in Hk. destruct Hk as [->|[->|Hk]]; [reflexivity..|].
    by apply elem_of_nil in Hk.
  - apply H; [apply (bool_decide_unpack _); vm_compute; exact I|].
    intros o Ho. destruct (decide (o = 10%N)) as [->|]; [left|].
    destruct (decide (o = 11%N)) as [->|]; [right; left|].
    exfalso. apply Ho. unfold example_ctx, example_pre, example_post. cbn [pre post].
    rewrite !balance_insert. by rewrite !decide_False by naive_solver.
Defined.

(** The loop returns at the first parameter key: with an accepted proposal, an
    unbalanced change of balances goes unchecked. *)
Example parameter_change_skips_balance_check :
  validate_tx (mk_ctx example_pre (<[bkey 20%N 10%N := VAmount 500]> ∅) (30%N : Address (AddressApi:=addr_ref))
      true (Some (Ok true)))
    [bkey 20%N 10%N;
     mk_key [AddressSeg (multitoken (A:=addr_ref)); AddressSeg (20%N : Address (AddressApi:=addr_ref));
             StringSeg PARAMETERS_STORAGE_KEY; StringSeg (lit "max_reward_rate")]] ∅ = Ok ().
Proof. vm_compute. reflexivity. Qed.
