(* ===== verification/PDController.v ===== *)
(** * The proportional-derivative controller of inflation

    Models [controller/src/lib.rs], used for the rewards of staking and of the
    shielded pool.  [Dec] and [Uint] values are the integers they denote, with
    the operations of [ZDec], which [Dec.v] shows the word-level [Dec] to
    implement. *)

From S2P Require Import Prelude Words Uint I256 Dec.

Record PDController : Type := mk_pd {
  total_native_amount : Z;
  max_reward_rate : Z;
  last_inflation_amount : Z;
  p_gain_nom : Z;
  d_gain_nom : Z;
  epochs_per_year : Z;
  target_metric : Z;
  last_metric : Z;
}.

Inductive PDError : Type :=
| PDArith
| PDDec
| MaxInflationOverflow
| InflationOverflow.

Definition get_total_native_dec (c : PDController) : res PDError Z :=
  ok_or (ZDec.try_from_uint (total_native_amount c)) PDDec.
Definition get_epochs_per_year (c : PDController) : Z := epochs_per_year c.

Definition get_max_inflation (c : PDController) : res PDError Z :=
  total_native ← get_total_native_dec c;
  epochs_py ← expect (ZDec.from_u64 (epochs_per_year c));
  max_inflation ← ok_or (p ← ZDec.mul total_native (max_reward_rate c); ZDec.div p epochs_py) PDArith;
  ok_or (ZDec.to_uint max_inflation) MaxInflationOverflow.

Definition compute_inflation_aux (c : PDController) (control : Z) : res PDError Z :=
  last ← ok_or (ZDec.try_from_uint (last_inflation_amount c)) PDDec;
  new ← ok_or (ZDec.add last control) PDArith;
  new ← (if new <? 0 then Ok 0 else ok_or (ZDec.to_uint new) InflationOverflow);
  max_inflation ← get_max_inflation c;
  Ok (Z.min new max_inflation).

Definition compute_control (c : PDController) (coeff current_metric : Z) : res PDError Z :=
  ok_or (
    gains ← ZDec.sub (d_gain_nom c) (p_gain_nom c);
    a ← ZDec.mul current_metric gains;
    b ← ZDec.mul (target_metric c) (p_gain_nom c);
    ab ← ZDec.add a b;
    d ← ZDec.mul (last_metric c) (d_gain_nom c);
    val ← ZDec.sub ab d;
    ZDec.mul coeff val) PDArith.

Definition compute_inflation (c : PDController) (control_coeff current_metric : Z) : res PDError Z :=
  control ← compute_control c control_coeff current_metric;
  compute_inflation_aux c control.

(** ** Arithmetic of the formulas *)

Lemma zdec_mul_error x y z : ZDec.mul x y = Some z → Z.abs (z * E12 - x * y) < E12.
Proof.
  unfold ZDec.mul. intros (p & Hp & ->)%fmap_Some. unfold chk_i in Hp. case_res.
  pose proof (quot_error (x * y) E12 ltac:(lia)) as [H _]. lia.
Qed.

Lemma zdec_add_eq x y z : ZDec.add x y = Some z → z = x + y.
Proof. unfold ZDec.add, chk_i. intros. by case_res. Qed.

Lemma zdec_sub_eq x y z : ZDec.sub x y = Some z → z = x - y.
Proof. unfold ZDec.sub, chk_i. intros. by case_res. Qed.

Lemma zdec_mul_small x y a b : 0 ≤ a → 0 ≤ b → a + b ≤ 254 → Z.abs x ≤ 2 ^ a → Z.abs y ≤ 2 ^ b →
  ∃ z, ZDec.mul x y = Some z ∧ Z.abs z ≤ 2 ^ (a + b).
Proof.
  intros Ha Hb Hab Hx Hy. assert (Hp : Z.abs (x * y) ≤ 2 ^ (a + b)).
  { rewrite Z.abs_mul, Z.pow_add_r by lia. by apply Z.mul_le_mono_nonneg; try lia. }
  assert (2 ^ (a + b) ≤ 2 ^ 254) by (apply Z.pow_le_mono_r; lia).
  exists (Z.quot (x * y) E12). unfold ZDec.mul. rewrite chk_i_in by (cbn in *; lia).
  split; [done|]. pose proof (quot_abs_le (x * y) E12 ltac:(lia)). lia.
Qed.

Lemma zdec_add_small x y : Z.abs x ≤ 2 ^ 253 → Z.abs y ≤ 2 ^ 253 → ZDec.add x y = Some (x + y).
Proof. intros. unfold ZDec.add. apply chk_i_in. cbn in *. lia. Qed.

Lemma zdec_sub_small x y : Z.abs x ≤ 2 ^ 253 → Z.abs y ≤ 2 ^ 253 → ZDec.sub x y = Some (x - y).
Proof. intros. unfold ZDec.sub. apply chk_i_in. cbn in *. lia. Qed.

(** The cap: the share of the yearly maximum that one epoch may have. *)
Lemma get_max_inflation_value c m : 0 ≤ total_native_amount c → 0 ≤ max_reward_rate c →
  0 < epochs_per_year c → get_max_inflation c = Ok m →
  m = total_native_amount c * max_reward_rate c / epochs_per_year c / E12.
Proof.
  intros Ht Hr He. unfold get_max_inflation, get_total_native_dec, ZDec.try_from_uint, ZDec.from_u64,
    ZDec.mul, ZDec.div, ZDec.to_uint, chk_i. intros H. repeat (case_res; try done).
  replace (total_native_amount c * E12 * max_reward_rate c) with
    (total_native_amount c * max_reward_rate c * E12) by ring.
  rewrite Z.quot_mul by lia. rewrite (Z.mul_comm E12), Z.quot_mul_cancel_r by lia.
  rewrite Z.quot_div_nonneg by nia. done.
Qed.

(** Magnitudes under which no step overflows: rates, gains and metrics below
    [2^60] units of [10^-12] (about a million), amounts below [2^100]. *)
Record pd_bounded (c : PDController) : Prop := {
  pd_total : 0 ≤ total_native_amount c ≤ 2 ^ 100;
  pd_last : 0 ≤ last_inflation_amount c ≤ 2 ^ 100;
  pd_rate : 0 ≤ max_reward_rate c ≤ 2 ^ 60;
  pd_p : Z.abs (p_gain_nom c) ≤ 2 ^ 60;
  pd_d : Z.abs (d_gain_nom c) ≤ 2 ^ 60;
  pd_epochs : 0 < epochs_per_year c < 2 ^ 64;
  pd_target : Z.abs (target_metric c) ≤ 2 ^ 60;
  pd_metric : Z.abs (last_metric c) ≤ 2 ^ 60;
}.

(** The formula of the controller, in units of [10^-24]. *)
Definition pd_formula (c : PDController) (m : Z) : Z :=
  m * (d_gain_nom c - p_gain_nom c) + target_metric c * p_gain_nom c - last_metric c * d_gain_nom c.

Lemma control_error K a b d r coeff X Y W : 0 < K →
  Z.abs (a * K - X) < K → Z.abs (b * K - Y) < K → Z.abs (d * K - W) < K →
  Z.abs (r * K - coeff * (a + b - d)) < K →
  Z.abs (r * K ^ 2 - coeff * (X + Y - W)) ≤ K ^ 2 + 3 * K * Z.abs coeff.
Proof.
  intros HK Ha Hb Hd Hr. assert (Hv : Z.abs ((a + b - d) * K - (X + Y - W)) ≤ 3 * K) by lia.
  generalize dependent (a + b - d). generalize dependent (X + Y - W). intros V v Hr Hv.
  replace (r * K ^ 2 - coeff * V) with ((r * K - coeff * v) * K + coeff * (v * K - V)) by ring.
  assert (Z.abs (coeff * (v * K - V)) ≤ 3 * K * Z.abs coeff).
  { rewrite Z.abs_mul, Z.mul_comm. apply Z.mul_le_mono_nonneg_r; lia. }
  assert (Z.abs ((r * K - coeff * v) * K) ≤ K ^ 2).
  { rewrite Z.abs_mul, (Z.abs_eq K), Z.pow_2_r by lia. apply Z.mul_le_mono_nonneg_r; lia. }
  lia.
Qed.

Lemma compute_control_spec c coeff m : pd_bounded c → Z.abs coeff ≤ 2 ^ 120 → Z.abs m ≤ 2 ^ 60 →
  ∃ control, compute_control c coeff m = Ok control ∧ Z.abs control ≤ 2 ^ 245 ∧
    Z.abs (control * E12 ^ 2 - coeff * pd_formula c m) ≤ E12 ^ 2 + 3 * E12 * Z.abs coeff.
Proof.
  intros [_ _ _ Hp Hd _ Ht Hl] Hc Hm. unfold compute_control, pd_formula.
  rewrite zdec_sub_small by (cbn in *; lia). cbn [mbind option_bind].
  destruct (zdec_mul_small m (d_gain_nom c - p_gain_nom c) 60 61) as (a & Ea & Ba); [cbn in *; lia..|].
  destruct (zdec_mul_small (target_metric c) (p_gain_nom c) 60 60) as (b & Eb & Bb); [done..|].
  destruct (zdec_mul_small (last_metric c) (d_gain_nom c) 60 60) as (d & Ed & Bd); [done..|].
  rewrite Ea. cbn [mbind option_bind]. rewrite Eb. cbn [mbind option_bind].
  rewrite zdec_add_small by (cbn in *; lia). cbn [mbind option_bind]. rewrite Ed. cbn [mbind option_bind].
  rewrite zdec_sub_small by (cbn in *; lia). cbn [mbind option_bind].
  destruct (zdec_mul_small coeff (a + b - d) 120 125) as (r & Er & Br); [try (cbn in *; lia)..|].
  rewrite Er. exists r. split; [done|]. split; [done|].
  apply zdec_mul_error in Ea, Eb, Ed, Er.
  by apply (control_error E12 a b d).
Qed.

Lemma max_inflation_ok c : pd_bounded c → ∃ m, get_max_inflation c = Ok m.
Proof.
  intros [Ht _ Hr _ _ He _ _]. unfold get_max_inflation, get_total_native_dec, ZDec.try_from_uint, ZDec.from_u64.
  rewrite !chk_i_in by (cbn in *; lia). cbn [ok_or expect mbind res_bind].
  unfold ZDec.mul. rewrite chk_i_in by (cbn in *; nia). cbn [fmap option_fmap option_map mbind option_bind].
  replace (total_native_amount c * E12 * max_reward_rate c) with
    (total_native_amount c * max_reward_rate c * E12) by ring. rewrite Z.quot_mul by lia.
  unfold ZDec.div. destruct (Z.eqb_spec (epochs_per_year c * E12) 0); [lia|].
  rewrite (Z.mul_comm E12), Z.quot_mul_cancel_r, Z.quot_div_nonneg by nia.
  rewrite chk_i_in; [|].
  - cbn [ok_or mbind res_bind]. unfold ZDec.to_uint. rewrite (proj2 (Z.ltb_ge _ _)); [eauto|].
    apply Z.div_pos; nia.
  - assert (0 ≤ total_native_amount c * max_reward_rate c ≤ 2 ^ 100 * 2 ^ 60) by nia.
    assert (0 ≤ total_native_amount c * max_reward_rate c / epochs_per_year c
      ≤ total_native_amount c * max_reward_rate c)
      by (split; [apply Z.div_pos; lia|apply Z.div_le_upper_bound; nia]). cbn in *. lia.
Qed.

Lemma cap_bound x T e : 0 ≤ T → 0 < e → Z.min x (T / e / E12) * E12 * e ≤ T.
Proof.
  intros. rewrite Z.div_div by lia. rewrite <-Z.mul_assoc, (Z.mul_comm E12).
  pose proof (Z.mul_div_le T (e * E12) ltac:(lia)).
  assert (Z.min x (T / (e * E12)) * (e * E12) ≤ T / (e * E12) * (e * E12))
    by (apply Z.mul_le_mono_nonneg_r; lia). lia.
Qed.

(**  On magnitudes far beyond those of the chain the controller always
    returns an inflation: the last one plus the control, cut at zero, rounded
    down and capped by the epoch's share of the yearly maximum, so that a year of
    epochs never issues more than the maximum rate of the supply.  The control
    is the proportional-derivative formula within [1 + 3 |coeff|] units of the
    last decimal place. *)
Theorem pd_inflation_exact (c : PDController) (coeff m : Z) :
  pd_bounded c → Z.abs coeff ≤ 2 ^ 120 → Z.abs m ≤ 2 ^ 60 →
  ∃ control i,
    compute_control c coeff m = Ok control ∧ compute_inflation c coeff m = Ok i ∧
    Z.abs (control * E12 ^ 2 - coeff * pd_formula c m) ≤ E12 ^ 2 + 3 * E12 * Z.abs coeff ∧
    i = Z.min (Z.max 0 ((last_inflation_amount c * E12 + control) / E12))
          (total_native_amount c * max_reward_rate c / epochs_per_year c / E12) ∧
    i * E12 * epochs_per_year c ≤ total_native_amount c * max_reward_rate c.
Proof.
  intros Hb Hc Hm. destruct (compute_control_spec c coeff m Hb Hc Hm) as (control & Ec & Bc & Hf).
  destruct (max_inflation_ok c Hb) as (mx & Em). pose proof Hb as [Ht Hl Hr _ _ He _ _].
  pose proof (get_max_inflation_value c mx ltac:(lia) ltac:(lia) ltac:(lia) Em) as ->.
  unfold compute_inflation. rewrite Ec. cbn [mbind res_bind]. unfold compute_inflation_aux, ZDec.try_from_uint.
  rewrite chk_i_in by (cbn in *; lia). cbn [ok_or mbind res_bind].
  rewrite zdec_add_small by (cbn in *; lia). cbn [ok_or mbind res_bind].
  exists control, (Z.min (Z.max 0 ((last_inflation_amount c * E12 + control) / E12))
          (total_native_amount c * max_reward_rate c / epochs_per_year c / E12)).
  split; [done|]. split.
  - unfold ZDec.to_uint. destruct (Z.ltb_spec (last_inflation_amount c * E12 + control) 0);
      cbn [ok_or mbind res_bind]; rewrite Em; cbn [mbind res_bind]; do 2 f_equal.
    + rewrite Z.max_l; [done|]. apply Z.lt_le_incl, Z.div_lt_upper_bound; lia.
    + rewrite Z.max_r; [done|]. apply Z.div_pos; lia.
  - split; [exact Hf|]. split; [done|]. apply cap_bound; lia || nia.
Qed.

(** Supply of [10^9], at most 10% a year, 365 epochs, half of the target staked. *)
Definition example_pd : PDController :=
  mk_pd 1000000000 (E12 / 10) 10000 (E12 / 4) (E12 / 4) 365 (2 * E12 / 3) (E12 / 3).

Lemma pd_inflation_exact_witness :
  ∃ control, compute_control example_pd (1000 * E12) (E12 / 3) = Ok control ∧
    compute_inflation example_pd (1000 * E12) (E12 / 3) = Ok 10083 ∧
    10083 * E12 * 365 ≤ 1000000000 * (E12 / 10).
Proof.
  destruct (pd_inflation_exact example_pd (1000 * E12) (E12 / 3)) as (control & i & Hc & Hi & _ & _ & Hcap).
  - constructor; repeat split; vm_compute; reflexivity || discriminate.
  - vm_compute. discriminate.
  - vm_compute. discriminate.
  - exists control. split; [exact Hc|].
    assert (E : compute_inflation example_pd (1000 * E12) (E12 / 3) = Ok 10083) by (vm_compute; reflexivity).
    split; [exact E|]. rewrite E in Hi. injection Hi as <-. exact Hcap.
Defined.
