(* ===== verification/PosTypes.v ===== *)
(** * Proof of stake: data types and parameters

    Models [proof_of_stake/src/parameters.rs] and the small types of
    [proof_of_stake/src/types/mod.rs].  [Dec] values are integer counts of
    [10^-12], amounts are integers. *)

From S2P Require Import Prelude Words Uint Decimal I256 Dec Token StorageKey Epochs TransToken.

(** ** Types *)

Inductive ValidatorState : Type := Consensus | BelowCapacity | BelowThreshold | Inactive | Jailed.
#[global] Instance ValidatorState_eq_dec : EqDecision ValidatorState.
Proof. solve_decision. Defined.

Inductive SlashType : Type := DuplicateVote | LightClientAttack.

Record Slash : Type := mk_slash {
  slash_epoch : Epoch;
  slash_block_height : Z;
  slash_type : SlashType;
  slash_rate : Z;
}.

(** ** Errors: [error.rs]

    The variants the modelled operations return, with the name of their
    enumeration where two of them share a name; the messages of
    [namada_storage::Error] by name. *)

Inductive RewardsError : Type :=
| InsufficientVotes (votes_needed signing_stake : Z)
| RewardsArith
| RewardsDec.

Inductive PosError (A : Type) : Type :=
| ArithOverflow
| AmountSumOverflow
| TokenFailure (e : TokenError)
| NotEstablished
| AlreadyValidator
| HasBonds
| ConsensusKeyInUse
| NegativeLivenessThreshold
| BondNotAValidator (a : A)
| SourceMustNotBeAValidator (a : A)
| UnbondAmountGreaterThanBond (amount remaining : Z)
| ValidatorIsFrozen (a : A)
| NoUnbondFound (source validator : A)
| NegativeRate (rate : Z) (a : A)
| LargerThanOne (rate : Z) (a : A)
| RateChangeTooLarge (change : Z) (a : A)
| NoMaxSetInStorage (a : A)
| UnjailNotAValidator (a : A)
| NotJailed (a : A) (epoch : Epoch)
| NotEligible (a : A) (eligible current : Epoch)
| IsChainedRedelegation
| RedelegationSrcEqDest
| DelegatorIsValidator
| RedelegationNotAValidator (a : A)
| AlreadyInactive (a : A) (epoch : Epoch)
| DeactivationNotAValidator (a : A)
| ValidatorIsJailed (a : A) (epoch : Epoch)
| NotInactive (a : A) (epoch : Epoch)
| NoStateFound (a : A) (epoch : Epoch)
| CannotRemoveEmail
| MustBeEd25519
| ExpectedValidatorInConsensus (a : A) (state : option ValidatorState)
| RewardsFailure (e : RewardsError)
| InflationFailure.
Arguments ArithOverflow {A}.
Arguments AmountSumOverflow {A}.
Arguments TokenFailure {A} _.
Arguments NotEstablished {A}.
Arguments AlreadyValidator {A}.
Arguments HasBonds {A}.
Arguments ConsensusKeyInUse {A}.
Arguments NegativeLivenessThreshold {A}.
Arguments BondNotAValidator {A} _.
Arguments SourceMustNotBeAValidator {A} _.
Arguments UnbondAmountGreaterThanBond {A} _ _.
Arguments ValidatorIsFrozen {A} _.
Arguments NoUnbondFound {A} _ _.
Arguments NegativeRate {A} _ _.
Arguments LargerThanOne {A} _ _.
Arguments RateChangeTooLarge {A} _ _.
Arguments NoMaxSetInStorage {A} _.
Arguments UnjailNotAValidator {A} _.
Arguments NotJailed {A} _ _.
Arguments NotEligible {A} _ _ _.
Arguments IsChainedRedelegation {A}.
Arguments RedelegationSrcEqDest {A}.
Arguments DelegatorIsValidator {A}.
Arguments RedelegationNotAValidator {A} _.
Arguments AlreadyInactive {A} _ _.
Arguments DeactivationNotAValidator {A} _.
Arguments ValidatorIsJailed {A} _ _.
Arguments NotInactive {A} _ _.
Arguments NoStateFound {A} _ _.
Arguments CannotRemoveEmail {A}.
Arguments MustBeEd25519 {A}.
Arguments ExpectedValidatorInConsensus {A} _ _.
Arguments RewardsFailure {A} _.
Arguments InflationFailure {A}.

(** ** Parameters *)

Record OwnedPosParams : Type := mk_owned {
  max_validator_slots : Z;
  pipeline_len : Z;
  unbonding_len : Z;
  tm_votes_per_token : Z;
  block_proposer_reward : Z;
  block_vote_reward : Z;
  max_inflation_rate : Z;
  target_staked_ratio : Z;
  duplicate_vote_min_slash_rate : Z;
  light_client_attack_min_slash_rate : Z;
  cubic_slashing_window_length : Z;
  validator_stake_threshold : Z;
  liveness_window_check : Z;
  liveness_threshold : Z;
  rewards_gain_p : Z;
  rewards_gain_d : Z;
}.

(** [PosParams] dereferences to its owned part. *)
Record PosParams : Type := mk_params { owned : OwnedPosParams; max_proposal_period : Z }.

Definition owned_default : OwnedPosParams := {|
  max_validator_slots := 100;
  pipeline_len := 2;
  unbonding_len := 21;
  tm_votes_per_token := E12;
  block_proposer_reward := 125 * 10 ^ 9;
  block_vote_reward := 10 ^ 11;
  max_inflation_rate := 10 ^ 11;
  target_staked_ratio := 6667 * 10 ^ 8;
  duplicate_vote_min_slash_rate := 10 ^ 9;
  light_client_attack_min_slash_rate := 10 ^ 9;
  cubic_slashing_window_length := 1;
  validator_stake_threshold := 10 ^ 6;
  liveness_window_check := 10000;
  liveness_threshold := 9 * 10 ^ 11;
  rewards_gain_p := 25 * 10 ^ 10;
  rewards_gain_d := 25 * 10 ^ 10;
|}.

Inductive ValidationError : Type :=
| TotalVotingPowerTooLarge (power : Z)
| VotesPerTokenGreaterThanOne (votes : Z)
| LivenessThresholdGreaterThanOne (threshold : Z)
| PipelineLenTooShort (len : Z)
| UnbondingLenTooShort (unbonding pipeline : Z).

Definition TOKENS_PER_NAM : Z := 1000000.
Definition MAX_TOTAL_VOTING_POWER : Z := (2 ^ 63 - 1) / 8.
Definition TOKEN_MAX_AMOUNT : Z := u64_max / TOKENS_PER_NAM.

(** [OwnedPosParams::validate]: [None] is the panic of one of its [expect]. *)
Definition validate (p : OwnedPosParams) : option (list ValidationError) :=
  let errors := if pipeline_len p <? 2 then [PipelineLenTooShort (pipeline_len p)] else [] in
  let errors := errors ++
    if unbonding_len p <=? pipeline_len p
    then [UnbondingLenTooShort (unbonding_len p) (pipeline_len p)] else [] in
  amount ← ZDec.from_u64 TOKEN_MAX_AMOUNT;
  slots ← ZDec.from_u64 (max_validator_slots p);
  x ← ZDec.mul (tm_votes_per_token p) amount;
  x ← ZDec.mul x slots;
  max_total_voting_power ← ZDec.to_uint x;
  let errors := errors ++
    if max_total_voting_power <? 2 ^ 63 then
      (if MAX_TOTAL_VOTING_POWER <? max_total_voting_power
       then [TotalVotingPowerTooLarge max_total_voting_power] else [])
    else [TotalVotingPowerTooLarge max_total_voting_power] in
  let errors := errors ++
    if E12 <? tm_votes_per_token p then [VotesPerTokenGreaterThanOne (tm_votes_per_token p)] else [] in
  Some (errors ++
    if E12 <? liveness_threshold p then [LivenessThresholdGreaterThanOne (liveness_threshold p)] else []).

(** Epoch offsets; [None] is an overflow of [u64]. *)
Definition withdrawable_epoch_offset (p : OwnedPosParams) : option Z :=
  a ← chk 64 (pipeline_len p + unbonding_len p);
  chk 64 (a + cubic_slashing_window_length p).
Definition slash_processing_epoch_offset (p : OwnedPosParams) : option Z :=
  a ← chk 64 (unbonding_len p + cubic_slashing_window_length p);
  chk 64 (a + 1).
Definition cubic_slash_epoch_window (p : OwnedPosParams) (infraction_epoch : Epoch) : option (Epoch * Epoch) :=
  let start := EpochM.sub_or_default infraction_epoch (cubic_slashing_window_length p) in
  end_ ← EpochM.unchecked_add infraction_epoch (cubic_slashing_window_length p);
  Some (start, end_).
Definition redelegation_end_epoch_from_start (p : OwnedPosParams) (e : Epoch) : option Epoch :=
  EpochM.unchecked_add e (pipeline_len p).
Definition redelegation_start_epoch_from_end (p : OwnedPosParams) (e : Epoch) : option Epoch :=
  EpochM.checked_sub e (pipeline_len p).
Definition in_redelegation_slashing_window (p : OwnedPosParams)
    (infraction_epoch redel_start redel_end : Epoch) : option bool :=
  off ← slash_processing_epoch_offset p;
  processing_epoch ← EpochM.unchecked_add infraction_epoch off;
  Some ((redel_start <? processing_epoch) && (infraction_epoch <? redel_end)).

Definition get_slash_rate (t : SlashType) (p : OwnedPosParams) : Z :=
  match t with
  | DuplicateVote => duplicate_vote_min_slash_rate p
  | LightClientAttack => light_client_attack_min_slash_rate p
  end.

(** [into_tm_voting_power]: [None] is the panic of an [expect]. *)
Definition into_tm_voting_power (votes_per_token tokens : Z) : option Z :=
  prod ← ZAmount.mul_floor tokens votes_per_token;
  res ← (if prod <? 2 ^ 127 then Some prod else None);
  if res <? 2 ^ 63 then Some res else None.

(** ** What validation guarantees *)

Lemma validate_ok p : validate p = Some [] →
  2 ≤ pipeline_len p < unbonding_len p ∧ tm_votes_per_token p ≤ E12 ∧ liveness_threshold p ≤ E12 ∧
  ∃ x y, ZDec.mul (tm_votes_per_token p) (TOKEN_MAX_AMOUNT * E12) = Some x ∧
    ZDec.mul x (max_validator_slots p * E12) = Some y ∧ 0 ≤ y ∧ y / E12 ≤ MAX_TOTAL_VOTING_POWER.
Proof.
  unfold validate, ZDec.from_u64, ZDec.to_uint.
  rewrite (chk_i_in (TOKEN_MAX_AMOUNT * E12)) by (vm_compute; discriminate). cbn [mbind option_bind].
  destruct (chk_i (max_validator_slots p * E12)) as [sl|] eqn:Es; [|done].
  unfold chk_i in Es. destruct (Z.abs _ <=? _); [|done]. injection Es as <-. cbn [mbind option_bind].
  destruct (ZDec.mul (tm_votes_per_token p) _) as [x|]; [|done]. cbn [mbind option_bind].
  destruct (ZDec.mul x _) as [y|] eqn:Ey; [|done]. cbn [mbind option_bind].
  destruct (Z.ltb_spec y 0); [done|]. cbn [mbind option_bind]. intros [= H'].
  repeat (apply app_nil in H' as [H' ?]). repeat case_match; try done. boolp.
  split; [lia|]. split; [done|]. split; [done|]. exists x, y. done.
Qed.

Lemma zdec_mul_eq x y z : ZDec.mul x y = Some z → z = Z.quot (x * y) E12.
Proof. unfold ZDec.mul, chk_i. destruct (Z.abs _ <=? _); [|done]. by intros [= <-]. Qed.

Lemma into_tm_voting_power_small v s : 0 ≤ v ≤ E12 → 0 ≤ s < 2 ^ 63 →
  into_tm_voting_power v s = Some (s * v / E12).
Proof.
  intros Hv Hs. unfold into_tm_voting_power, ZAmount.mul_floor. destruct (Z.ltb_spec v 0); [lia|].
  assert (0 ≤ s * v < 2 ^ 103) by (cbn in *; nia). rewrite chk_in by (cbn in *; lia).
  cbn [fmap option_fmap option_map mbind option_bind].
  assert (0 ≤ s * v / E12 ≤ s) by (split; [apply Z.div_pos|apply Z.div_le_upper_bound]; nia).
  rewrite (proj2 (Z.ltb_lt _ (2 ^ 127))) by lia. cbn [mbind option_bind].
  by rewrite (proj2 (Z.ltb_lt _ _)) by lia.
Qed.

Lemma powers_bound v m l : 0 ≤ v → Forall (λ s, 0 ≤ s ≤ m) l →
  zsum (λ s, s * v / E12) l * E12 ≤ Z.of_nat (length l) * m * v.
Proof.
  intros Hv. induction 1 as [|s l Hs _ IH]; [done|]. rewrite zsum_cons. cbn [length].
  pose proof (Z.mul_div_le (s * v) E12 ltac:(lia)). rewrite Nat2Z.inj_succ.
  assert (s * v ≤ m * v) by (apply Z.mul_le_mono_nonneg_r; lia).
  replace (Z.succ _ * m * v) with (Z.of_nat (length l) * m * v + m * v) by ring. lia.
Qed.

Lemma mapM_total {A B} (f : A → option B) (g : A → B) l :
  Forall (λ x, f x = Some (g x)) l → mapM f l = Some (g <$> l).
Proof. induction 1 as [|x l Hx _ IH]; [done|]. cbn. rewrite Hx. cbn. by rewrite IH. Qed.

(** C38.  Validated parameters: the pipeline and unbonding lengths are ordered,
    and as long as no validator's stake exceeds [TOKEN_MAX_AMOUNT], the voting
    powers of any full consensus set convert without panic and together stay
    below CometBFT's limit. *)
Theorem pos_params_voting_power (p : OwnedPosParams) (stakes : list Z) :
  validate p = Some [] → 0 ≤ tm_votes_per_token p → 0 ≤ max_validator_slots p →
  Z.of_nat (length stakes) ≤ max_validator_slots p →
  Forall (λ s, 0 ≤ s ≤ TOKEN_MAX_AMOUNT) stakes →
  2 ≤ pipeline_len p < unbonding_len p ∧
  ∃ powers, mapM (into_tm_voting_power (tm_votes_per_token p)) stakes = Some powers ∧
    zsum id powers ≤ MAX_TOTAL_VOTING_POWER.
Proof.
  intros Hval Hv Hsl Hlen Hst. destruct (validate_ok p Hval) as (Hp & Hv1 & _ & x & y & Hx & Hy & Hy0 & Hm).
  split; [done|].
  assert (x = tm_votes_per_token p * TOKEN_MAX_AMOUNT) as ->.
  { apply zdec_mul_eq in Hx as ->. rewrite Z.mul_assoc. apply Z.quot_mul. lia. }
  assert (y = tm_votes_per_token p * TOKEN_MAX_AMOUNT * max_validator_slots p) as ->.
  { apply zdec_mul_eq in Hy as ->. rewrite Z.mul_assoc. apply Z.quot_mul. lia. }
  exists ((λ s, s * tm_votes_per_token p / E12) <$> stakes). split.
  - apply mapM_total. eapply Forall_impl; [exact Hst|]. intros s Hs. cbn beta in Hs. apply into_tm_voting_power_small; [lia|].
    assert (TOKEN_MAX_AMOUNT < 2 ^ 63) by (vm_compute; reflexivity). lia.
  - rewrite zsum_fmap. pose proof (powers_bound _ _ _ Hv Hst) as Hb.
    assert (0 ≤ TOKEN_MAX_AMOUNT) by (vm_compute; discriminate).
    etrans; [|exact Hm]. apply Z.div_le_lower_bound; [lia|].
    rewrite Z.mul_comm. etrans; [exact Hb|].
    replace (tm_votes_per_token p * TOKEN_MAX_AMOUNT * max_validator_slots p) with
      (max_validator_slots p * (TOKEN_MAX_AMOUNT * tm_votes_per_token p)) by ring.
    rewrite <-Z.mul_assoc. apply Z.mul_le_mono_nonneg_r; nia.
Qed.

Lemma pos_params_voting_power_witness :
  ∃ powers, mapM (into_tm_voting_power E12) [10 ^ 13; 5] = Some powers ∧
    zsum id powers ≤ MAX_TOTAL_VOTING_POWER.
Proof.
  destruct (pos_params_voting_power owned_default [10 ^ 13; 5]) as (_ & H).
  - vm_compute. reflexivity.
  - vm_compute. discriminate.
  - vm_compute. discriminate.
  - vm_compute. discriminate.
  - apply Forall_cons; split; [|apply Forall_cons; split; [|apply Forall_nil; exact I]];
      split; vm_compute; discriminate.
  - exact H.
Defined.

(** The votes are counted per fundamental unit and the bound per whole token:
    with the default parameters, one validator with [2 * 10^12] whole tokens
    exceeds the limit. *)
Example default_params_exceed_limit :
  validate owned_default = Some [] ∧
  ∃ power, into_tm_voting_power E12 (2 * 10 ^ 12 * TOKENS_PER_NAM) = Some power ∧
    MAX_TOTAL_VOTING_POWER < power ∧ 2 * 10 ^ 12 * TOKENS_PER_NAM ≤ u64_max.
Proof. split; [vm_compute; reflexivity|]. eexists. split_and!; vm_compute; try reflexivity. discriminate. Qed.
