(* ===== verification/Governance.v ===== *)
(** * Governance: votes, tallies and voting periods

    Models [governance/src/utils.rs], [governance/src/storage/vote.rs] and
    [compute_proposal_votes] of the shell's governance.  Voting powers are the
    integers that [Token.v] shows amounts to denote; the hash maps of the source
    are finite maps with the order of their iteration left open ([IterApi]).
    What proof of stake tells governance is the interface [PosStakes]. *)

From S2P Require Import Prelude Words Uint Decimal I256 Dec Token StorageKey Epochs PosTypes.

(** ** Votes *)

Inductive ProposalVote : Type := Yay | Nay | Abstain.
#[global] Instance ProposalVote_eq_dec : EqDecision ProposalVote.
Proof. solve_decision. Defined.

Module VoteM.
Definition is_yay (v : ProposalVote) : bool := match v with Yay => true | _ => false end.
Definition is_nay (v : ProposalVote) : bool := match v with Nay => true | _ => false end.
Definition is_abstain (v : ProposalVote) : bool := match v with Abstain => true | _ => false end.
Definition is_same_side (v other : ProposalVote) : bool :=
  match v, other with
  | Yay, Yay | Nay, Nay | Abstain, Abstain => true
  | _, _ => false
  end.
End VoteM.

(** ** Tallies *)

Inductive TallyType : Type := TwoThirds | OneHalfOverOneThird | LessOneHalfOverOneThirdNay.

Inductive ProposalType (Hash Stewards Payments : Type) : Type :=
| Default
| DefaultWithWasm (h : Hash)
| PGFSteward (s : Stewards)
| PGFPayment (p : Payments).
Arguments Default {_ _ _}.
Arguments DefaultWithWasm {_ _ _} _.
Arguments PGFSteward {_ _ _} _.
Arguments PGFPayment {_ _ _} _.

Definition tally_type_from {H S P} (t : ProposalType H S P) (is_steward : bool) : TallyType :=
  match t, is_steward with
  | Default, _ => TwoThirds
  | DefaultWithWasm _, _ => TwoThirds
  | PGFSteward _, _ => OneHalfOverOneThird
  | PGFPayment _, true => LessOneHalfOverOneThirdNay
  | PGFPayment _, false => OneHalfOverOneThird
  end.

Inductive TallyResult : Type := Passed | Rejected.

(** [Dec::one_third] and [Dec::two_thirds], truncated to twelve places. *)
Definition one_third : option Z := ZDec.div E12 (3 * E12).
Definition two_thirds : option Z := two ← ZDec.add E12 E12; ZDec.div two (3 * E12).

(** [None] is an [arith::Error], or the panic of a constant. *)
Definition get_total_voted_power (yay nay abstain : Z) : option Z :=
  a ← ZAmount.add yay nay; ZAmount.add a abstain.

Definition tally_new (t : TallyType) (yay nay abstain total : Z) : option TallyResult :=
  passed ←
    match t with
    | TwoThirds =>
        voted ← get_total_voted_power yay nay abstain;
        frac ← two_thirds;
        threshold ← ZAmount.mul_ceil total frac;
        sides ← ZAmount.add nay yay;
        yay_threshold ← ZAmount.mul_ceil sides frac;
        Some ((threshold <=? voted) && (yay_threshold <=? yay))
    | OneHalfOverOneThird =>
        voted ← get_total_voted_power yay nay abstain;
        frac ← one_third;
        threshold ← ZAmount.mul_ceil total frac;
        Some ((threshold <=? voted) && (nay <? yay))
    | LessOneHalfOverOneThirdNay =>
        voted ← get_total_voted_power yay nay abstain;
        frac ← one_third;
        threshold ← ZAmount.mul_ceil total frac;
        Some ((voted <? threshold) || (nay <? yay))
    end;
  Some (if passed : bool then Passed else Rejected).

Record ProposalResult : Type := mk_result {
  result : TallyResult;
  tally_type : TallyType;
  total_voting_power : Z;
  total_yay_power : Z;
  total_nay_power : Z;
  total_abstain_power : Z;
}.

Definition two_thirds_nay_over_two_thirds_total (r : ProposalResult) : bool :=
  default false (
    frac ← two_thirds;
    two_thirds_power ← ZAmount.mul_ceil (total_voting_power r) frac;
    a ← ZAmount.add (total_yay_power r) (total_nay_power r);
    voted ← ZAmount.add a (total_abstain_power r);
    sides ← ZAmount.add (total_yay_power r) (total_nay_power r);
    nay_threshold ← ZAmount.mul_ceil sides frac;
    Some ((two_thirds_power <=? voted) && (nay_threshold <=? total_nay_power r))).

(** [is_valid_validator_voting_period]: [false] on an overflow. *)
Definition is_valid_validator_voting_period (current_epoch start_epoch end_epoch : Epoch) : bool :=
  if end_epoch <=? start_epoch then false
  else default false (
    c ← EpochM.checked_mul current_epoch 3;
    e ← EpochM.checked_mul end_epoch 2;
    s ← EpochM.checked_add start_epoch e;
    Some ((start_epoch <=? current_epoch) && (c <=? s))).

(** ** Counting *)

(** [indexmap]: the iteration visits every entry once. *)
Class IterApi (K : Type) `{Countable K} : Type := {
  iter {V : Type} : gmap K V → list (K * V);
  iter_perm {V} (m : gmap K V) : iter m ≡ₚ map_to_list m;
}.

Section counting.
Context {A : AddressApi} {It : IterApi Address}.

Record ProposalVotes : Type := mk_votes {
  validators_vote : gmap Address ProposalVote;
  validator_voting_power : gmap Address Z;
  delegators_vote : gmap Address ProposalVote;
  delegator_voting_power : gmap Address (gmap Address Z);
}.
Definition votes_default : ProposalVotes := mk_votes ∅ ∅ ∅ ∅.

Definition add_validator (address : Address) (voting_power : Z) (vote : ProposalVote)
    (s : ProposalVotes) : ProposalVotes :=
  let vv := <[address := vote]> (validators_vote s) in
  match validators_vote s !! address with
  | None => mk_votes vv (<[address := voting_power]> (validator_voting_power s))
              (delegators_vote s) (delegator_voting_power s)
  | Some _ => mk_votes vv (validator_voting_power s) (delegators_vote s) (delegator_voting_power s)
  end.

Definition add_delegator (address validator_address : Address) (voting_power : Z) (vote : ProposalVote)
    (s : ProposalVotes) : ProposalVotes :=
  let delegations := default ∅ (delegator_voting_power s !! address) in
  mk_votes (validators_vote s) (validator_voting_power s)
    (<[address := vote]> (delegators_vote s))
    (<[address := <[validator_address := voting_power]> delegations]> (delegator_voting_power s)).

(** The three running sums of [compute_proposal_result]. *)
Record Sums : Type := mk_sums { yay : Z; nay : Z; abstain : Z }.
Definition side (t : Sums) (v : ProposalVote) : Z :=
  match v with Yay => yay t | Nay => nay t | Abstain => abstain t end.
Definition update_side (f : Z → option Z) (v : ProposalVote) (t : Sums) : option Sums :=
  match v with
  | Yay => x ← f (yay t); Some (mk_sums x (nay t) (abstain t))
  | Nay => x ← f (nay t); Some (mk_sums (yay t) x (abstain t))
  | Abstain => x ← f (abstain t); Some (mk_sums (yay t) (nay t) x)
  end.

Definition count_validator (s : ProposalVotes) (x : Address * Z) (t : Sums) : option Sums :=
  match validators_vote s !! x.1 with
  | Some vote => update_side (λ p, ZAmount.add p x.2) vote t
  | None => Some t
  end.

Definition count_delegation (s : ProposalVotes) (delegator_vote : ProposalVote) (x : Address * Z)
    (t : Sums) : option Sums :=
  let '(validator, vote_power) := x in
  match validators_vote s !! validator with
  | Some validator_vote =>
      if VoteM.is_same_side validator_vote delegator_vote then Some t
      else
        t ← update_side (λ p, ZAmount.add p vote_power) delegator_vote t;
        update_side (λ p, ZAmount.sub p vote_power) validator_vote t
  | None => update_side (λ p, ZAmount.add p vote_power) delegator_vote t
  end.

Definition count_delegator (s : ProposalVotes) (x : Address * gmap Address Z) (t : Sums) : option Sums :=
  match delegators_vote s !! x.1 with
  | None => Some t
  | Some vote => for_list (count_delegation s vote) (iter x.2) t
  end.

Definition compute_proposal_result (s : ProposalVotes) (total : Z) (tt : TallyType) : option ProposalResult :=
  t ← for_list (count_validator s) (iter (validator_voting_power s)) (mk_sums 0 0 0);
  t ← for_list (count_delegator s) (iter (delegator_voting_power s)) t;
  r ← tally_new tt (yay t) (nay t) (abstain t) total;
  Some (mk_result r tt total (yay t) (nay t) (abstain t)).
End counting.

(** ** What the sums are *)

Section sums.
Context {A : AddressApi} {It : IterApi Address}.

(** The delegations of the delegators that voted, with their vote. *)
Definition delegations_of (s : ProposalVotes) (x : Address * gmap Address Z) :
    list (ProposalVote * (Address * Z)) :=
  match delegators_vote s !! x.1 with
  | Some vote => pair vote <$> map_to_list x.2
  | None => []
  end.
Definition delegations (s : ProposalVotes) : list (ProposalVote * (Address * Z)) :=
  map_to_list (delegator_voting_power s) ≫= delegations_of s.

(** What a validator adds to side [w]. *)
Definition validator_share (s : ProposalVotes) (w : ProposalVote) (x : Address * Z) : Z :=
  if decide (validators_vote s !! x.1 = Some w) then x.2 else 0.
(** What a delegation adds to side [w], and what it takes from it: it moves its
    power from the side of the validator, if that one voted, to its own. *)
Definition delegation_in (s : ProposalVotes) (w : ProposalVote) (x : ProposalVote * (Address * Z)) : Z :=
  if decide (x.1 = w ∧ validators_vote s !! x.2.1 ≠ Some w) then x.2.2 else 0.
Definition delegation_out (s : ProposalVotes) (w : ProposalVote) (x : ProposalVote * (Address * Z)) : Z :=
  if decide (x.1 ≠ w ∧ validators_vote s !! x.2.1 = Some w) then x.2.2 else 0.

Definition voted_for (s : ProposalVotes) (w : ProposalVote) : Z :=
  zsum (validator_share s w) (map_to_list (validator_voting_power s)) +
  zsum (delegation_in s w) (delegations s) - zsum (delegation_out s w) (delegations s).

Lemma update_side_run f v t :
  update_side f v t = (λ x, mk_sums (if decide (v = Yay) then x else yay t)
    (if decide (v = Nay) then x else nay t) (if decide (v = Abstain) then x else abstain t))
    <$> f (side t v).
Proof using Type. destruct v; cbn; by destruct (f _). Qed.

(** One step on a side, as the sum it leaves. *)
Lemma update_side_ok f v t x : f (side t v) = Some x →
  ∃ t', update_side f v t = Some t' ∧ ∀ w, side t' w = if decide (w = v) then x else side t w.
Proof using Type.
  intros E. rewrite update_side_run, E. eexists. split; [done|]. intros w. by destruct v, w.
Qed.

Lemma count_validator_ok s x t :
  0 ≤ x.2 → (∀ w, 0 ≤ side t w ∧ side t w + x.2 < 2 ^ 256) →
  ∃ t', count_validator s x t = Some t' ∧ ∀ w, side t' w = side t w + validator_share s w x.
Proof using Type.
  intros Hx Ht. unfold count_validator, validator_share.
  destruct (validators_vote s !! x.1) as [v|].
  - destruct (update_side_ok (λ p, ZAmount.add p x.2) v t (side t v + x.2)) as (t1 & -> & H1).
    { apply chk_in. specialize (Ht v). lia. }
    exists t1. split; [done|]. intros w. rewrite H1.
    destruct (decide (w = v)) as [->|]; [rewrite decide_True by done|rewrite decide_False by congruence]; lia.
  - exists t. split; [done|]. intros. rewrite decide_False by done. lia.
Qed.

Lemma count_validators_spec s l t :
  (∀ x, x ∈ l → 0 ≤ x.2) → (∀ w, 0 ≤ side t w) → (∀ w, side t w + zsum snd l < 2 ^ 256) →
  ∃ t', for_list (count_validator s) l t = Some t' ∧
    ∀ w, side t' w = side t w + zsum (validator_share s w) l.
Proof using Type.
  revert t. induction l as [|x l IH]; intros t Hx Ht Hs.
  { exists t. split; [done|]. intros. cbn. lia. }
  assert (Hx0 : 0 ≤ x.2) by (apply Hx; left).
  assert (Hl : ∀ y, y ∈ l → 0 ≤ y.2) by (intros; apply Hx; by right).
  pose proof (zsum_nonneg snd l Hl) as Hsl.
  assert (Hs' : ∀ w, side t w + (x.2 + zsum snd l) < 2 ^ 256) by (intros w; apply Hs).
  destruct (count_validator_ok s x t Hx0) as (t1 & E1 & H1).
  { intros w. specialize (Ht w). specialize (Hs' w). lia. }
  assert (Hsh : ∀ w, 0 ≤ validator_share s w x ≤ x.2) by (intros w; unfold validator_share; case_decide; lia).
  cbn [for_list]. rewrite E1. cbn [mbind option_bind]. destruct (IH t1 Hl) as (t' & -> & H').
  - intros w. rewrite H1. specialize (Ht w). specialize (Hsh w). lia.
  - intros w. rewrite H1. specialize (Hs' w). specialize (Hsh w). lia.
  - exists t'. split; [done|]. intros w. rewrite H', H1, zsum_cons. lia.
Qed.

(** One delegation, when both sides have room. *)
Lemma count_delegation_ok s dv v a t :
  0 ≤ a → (∀ w, delegation_out s w (dv, (v, a)) ≤ side t w) →
  (∀ w, 0 ≤ side t w ∧ side t w + a < 2 ^ 256) →
  ∃ t', count_delegation s dv (v, a) t = Some t' ∧
    ∀ w, side t' w = side t w + delegation_in s w (dv, (v, a)) - delegation_out s w (dv, (v, a)).
Proof using Type.
  intros Ha Ho Ht. unfold count_delegation, delegation_in, delegation_out in *. cbn [fst snd] in *.
  assert (Hadd : ZAmount.add (side t dv) a = Some (side t dv + a)) by (apply chk_in; specialize (Ht dv); lia).
  destruct (update_side_ok (λ p, ZAmount.add p a) dv t _ Hadd) as (t1 & E1 & H1). rewrite E1.
  destruct (validators_vote s !! v) as [vv|]; [|].
  - destruct (VoteM.is_same_side vv dv) eqn:Es.
    { assert (vv = dv) as -> by (by destruct vv, dv). exists t. split; [done|].
      intros w. rewrite !decide_False by naive_solver. lia. }
    assert (Hne : vv ≠ dv) by (by destruct vv, dv). cbn [mbind option_bind].
    destruct (update_side_ok (λ p, ZAmount.sub p a) vv t1 (side t vv - a)) as (t2 & -> & H2).
    { unfold ZAmount.sub. rewrite H1, decide_False by done. specialize (Ho vv). specialize (Ht vv).
      rewrite decide_True in Ho by naive_solver. apply chk_in. lia. }
    exists t2. split; [done|]. intros w. rewrite H2, H1.
    destruct (decide (w = vv)) as [->|]; [rewrite decide_False, decide_True by naive_solver; lia|].
    destruct (decide (w = dv)) as [->|]; [rewrite decide_True, decide_False by naive_solver; lia|].
    rewrite !decide_False by naive_solver. lia.
  - exists t1. split; [done|]. intros w. rewrite H1.
    destruct (decide (w = dv)) as [->|]; [rewrite decide_True, decide_False by naive_solver; lia|].
    rewrite !decide_False by naive_solver. lia.
Qed.

(** The delegations one after the other: a side always has what is still to be
    taken from it. *)
Lemma count_delegations_spec s l t :
  (∀ x, x ∈ l → 0 ≤ x.2.2) →
  (∀ w, zsum (delegation_out s w) l ≤ side t w) →
  (∀ w, side t w + zsum (λ x, x.2.2) l < 2 ^ 256) →
  ∃ t', for_list (λ x, count_delegation s x.1 x.2) l t = Some t' ∧
    ∀ w, side t' w = side t w + zsum (delegation_in s w) l - zsum (delegation_out s w) l.
Proof using Type.
  revert t. induction l as [|[dv [v a]] l IH]; intros t Hx Ho Hs.
  { exists t. split; [done|]. intros. cbn. lia. }
  assert (Ha : 0 ≤ a) by (apply (Hx (dv, (v, a))); left).
  assert (Hl : ∀ y, y ∈ l → 0 ≤ y.2.2) by (intros; apply Hx; by right).
  assert (Hol : ∀ w, 0 ≤ zsum (delegation_out s w) l).
  { intros w. apply zsum_nonneg. intros y Hy. unfold delegation_out. specialize (Hl y Hy). case_decide; lia. }
  pose proof (zsum_nonneg (λ x, x.2.2) l Hl) as Hsl.
  assert (Ho' : ∀ w, delegation_out s w (dv, (v, a)) + zsum (delegation_out s w) l ≤ side t w) by apply Ho.
  assert (Hs' : ∀ w, side t w + (a + zsum (λ x, x.2.2) l) < 2 ^ 256) by apply Hs.
  assert (Hin : ∀ w, 0 ≤ delegation_in s w (dv, (v, a)) ≤ a)
    by (intros; unfold delegation_in; case_decide; cbn [snd]; lia).
  assert (Hout : ∀ w, 0 ≤ delegation_out s w (dv, (v, a)))
    by (intros; unfold delegation_out; case_decide; cbn [snd]; lia).
  destruct (count_delegation_ok s dv v a t Ha) as (t1 & E1 & H1).
  { intros w. specialize (Ho' w). specialize (Hol w). lia. }
  { intros w. specialize (Ho' w). specialize (Hol w). specialize (Hs' w). specialize (Hout w). lia. }
  cbn [for_list fst snd]. rewrite E1. cbn [mbind option_bind]. destruct (IH t1 Hl) as (t' & -> & H').
  - intros w. rewrite H1. specialize (Ho' w). specialize (Hin w). lia.
  - intros w. rewrite H1. specialize (Hs' w). specialize (Hin w). specialize (Hout w). lia.
  - exists t'. split; [done|]. intros w. rewrite H', H1, !zsum_cons. lia.
Qed.
(** The nested loop runs over the flat list of delegations. *)
Definition iter_delegations (s : ProposalVotes) (x : Address * gmap Address Z) :
    list (ProposalVote * (Address * Z)) :=
  match delegators_vote s !! x.1 with
  | Some vote => pair vote <$> iter x.2
  | None => []
  end.

Lemma count_delegators_flat s l t :
  for_list (count_delegator s) l t =
  for_list (λ x, count_delegation s x.1 x.2) (l ≫= iter_delegations s) t.
Proof using Type.
  revert t. induction l as [|x l IH]; intros t; [done|].
  rewrite bind_cons, for_list_app. cbn [for_list].
  assert (count_delegator s x t =
    for_list (λ x, count_delegation s x.1 x.2) (iter_delegations s x) t) as ->.
  { unfold count_delegator, iter_delegations. destruct (delegators_vote s !! x.1); [|done].
    by rewrite for_list_fmap. }
  destruct (for_list _ (iter_delegations s x) t); [apply IH|done].
Qed.

Lemma iter_delegations_perm s :
  iter (delegator_voting_power s) ≫= iter_delegations s ≡ₚ delegations s.
Proof using Type.
  unfold delegations. rewrite iter_perm. induction (map_to_list _) as [|x l IH]; [done|].
  rewrite !bind_cons, IH. apply Permutation_app_tail.
  unfold iter_delegations, delegations_of. destruct (delegators_vote s !! x.1); [|done].
  by rewrite iter_perm.
Qed.

(** Votes as proof of stake backs them: a power for every validator that voted,
    at least what is delegated to it. *)
Record fair_votes (s : ProposalVotes) : Prop := {
  fair_power v : is_Some (validators_vote s !! v) → is_Some (validator_voting_power s !! v);
  fair_power_nonneg v p : validator_voting_power s !! v = Some p → 0 ≤ p;
  fair_amount_nonneg x : x ∈ delegations s → 0 ≤ x.2.2;
  fair_bonded v p : validator_voting_power s !! v = Some p →
    zsum (λ x, if decide (x.2.1 = v) then x.2.2 else 0) (delegations s) ≤ p;
  fair_fits : zsum snd (map_to_list (validator_voting_power s)) +
    zsum (λ x, x.2.2) (delegations s) < 2 ^ 200;
}.

(** Delegations grouped by the validator they are to. *)
Lemma zsum_group (P : Address → Prop) `{∀ v, Decision (P v)} (keys : list Address)
    (l : list (ProposalVote * (Address * Z))) :
  NoDup keys → (∀ v, P v → v ∈ keys) →
  zsum (λ x, if decide (P x.2.1) then x.2.2 else 0) l =
  zsum (λ v, if decide (P v) then zsum (λ x, if decide (x.2.1 = v) then x.2.2 else 0) l else 0) keys.
Proof using Type.
  intros Hnd HP. induction l as [|[dv [v a]] l IH].
  { rewrite (zsum_ext _ (λ _, 0) keys); [by rewrite zsum_zero|]. intros. cbn. by case_decide. }
  rewrite zsum_cons, IH. cbn [fst snd].
  trans (zsum (λ u, (if decide (u = v) then (if decide (P v) then a else 0) else 0) +
    (if decide (P u) then zsum (λ x, if decide (x.2.1 = u) then x.2.2 else 0) l else 0)) keys).
  - rewrite zsum_add, zsum_single by done. f_equal.
    destruct (decide (P v)); [rewrite decide_True by auto; done|by destruct (decide (v ∈ keys))].
  - apply zsum_ext. intros u _. rewrite zsum_cons. cbn [fst snd]. destruct (decide (u = v)) as [->|].
    + rewrite (decide_True (P:=v = v)) by done. by destruct (decide (P v)).
    + rewrite (decide_False (P:=v = u)) by done. by destruct (decide (P u)).
Qed.

(** What is taken from a side is backed by its validators. *)
Lemma delegations_backed s w : fair_votes s →
  zsum (delegation_out s w) (delegations s) ≤
  zsum (validator_share s w) (map_to_list (validator_voting_power s)).
Proof using Type.
  intros F. transitivity (zsum (λ x, if decide (validators_vote s !! x.2.1 = Some w) then x.2.2 else 0) (delegations s)).
  { apply zsum_le. intros x Hx. pose proof (fair_amount_nonneg _ F x Hx). unfold delegation_out.
    repeat case_decide; naive_solver lia. }
  pose proof (zsum_group (λ v, validators_vote s !! v = Some w)
    (map_to_list (validator_voting_power s)).*1 (delegations s)) as Hg.
  etrans; [apply Z.eq_le_incl, Hg|].
  3:{ rewrite zsum_fmap. apply zsum_le. intros [v p] Hv%elem_of_map_to_list. unfold validator_share. cbn [fst snd].
      case_decide; [|done]. by apply (fair_bonded _ F). }
  - apply NoDup_fst_map_to_list.
  - intros v Hv. destruct (fair_power _ F v) as [p Hp]; [by eexists|].
    apply list_elem_of_fmap. exists (v, p). split; [done|]. by apply elem_of_map_to_list.
Qed.
Lemma voted_for_nonneg s w : fair_votes s → 0 ≤ voted_for s w.
Proof using Type.
  intros F. unfold voted_for. pose proof (delegations_backed s w F).
  assert (0 ≤ zsum (delegation_in s w) (delegations s)); [|lia].
  apply zsum_nonneg. intros x Hx. pose proof (fair_amount_nonneg _ F x Hx).
  unfold delegation_in. case_decide; lia.
Qed.

Lemma voted_for_total s :
  voted_for s Yay + voted_for s Nay + voted_for s Abstain =
  zsum (λ x, if decide (is_Some (validators_vote s !! x.1)) then x.2 else 0)
    (map_to_list (validator_voting_power s)) +
  zsum (λ x, if decide (validators_vote s !! x.2.1 = None) then x.2.2 else 0) (delegations s).
Proof using Type.
  unfold voted_for.
  rewrite <-(zsum_ext (λ x, (validator_share s Yay x + validator_share s Nay x) + validator_share s Abstain x)
    (λ x, if decide (is_Some (validators_vote s !! x.1)) then x.2 else 0)).
  2:{ intros x _. unfold validator_share. destruct (validators_vote s !! x.1) as [[]|];
        repeat case_decide; first [lia|naive_solver]. }
  rewrite <-(zsum_ext (λ x, ((delegation_in s Yay x + delegation_in s Nay x) + delegation_in s Abstain x) -
      ((delegation_out s Yay x + delegation_out s Nay x) + delegation_out s Abstain x))
    (λ x, if decide (validators_vote s !! x.2.1 = None) then x.2.2 else 0)).
  2:{ intros [dv [v b]] _. unfold delegation_in, delegation_out. cbn [fst snd].
      destruct (validators_vote s !! v) as [[]|], dv; repeat case_decide; first [lia|naive_solver]. }
  rewrite zsum_sub, !zsum_add. lia.
Qed.
End sums.

(** ** Thresholds *)

Lemma two_thirds_val : two_thirds = Some 666666666666.
Proof. reflexivity. Qed.
Lemma one_third_val : one_third = Some 333333333333.
Proof. reflexivity. Qed.

(** The fractions of the thresholds, as the code rounds them. *)
Definition tally_passes (t : TallyType) (yay nay abstain total : Z) : bool :=
  match t with
  | TwoThirds => (total * 666666666666 <=? (yay + nay + abstain) * E12) &&
                 ((nay + yay) * 666666666666 <=? yay * E12)
  | OneHalfOverOneThird => (total * 333333333333 <=? (yay + nay + abstain) * E12) && (nay <? yay)
  | LessOneHalfOverOneThirdNay => ((yay + nay + abstain) * E12 <? total * 333333333333) || (nay <? yay)
  end.

Lemma mul_ceil_small x d : 0 ≤ x < 2 ^ 202 → 0 ≤ d < 2 ^ 40 →
  ZAmount.mul_ceil x d = Some (- (- (x * d) / E12)).
Proof.
  intros Hx Hd. unfold ZAmount.mul_ceil. destruct (Z.ltb_spec d 0); [lia|].
  assert (x * d < 2 ^ 202 * 2 ^ 40) by nia. rewrite chk_in; [done|]. split; [nia|]. cbn in *. lia.
Qed.

Lemma ceil_le_iff p x : (- (- p / E12) <=? x) = (p <=? x * E12).
Proof.
  destruct (Z.leb_spec p (x * E12)); [apply Z.leb_le|apply Z.leb_gt]; dlia.
Qed.

Lemma ceil_lt_iff p x : (x <? - (- p / E12)) = (x * E12 <? p).
Proof. rewrite !Z.ltb_antisym, ceil_le_iff. done. Qed.

Lemma voted_power_small y n a : 0 ≤ y → 0 ≤ n → 0 ≤ a → y + n + a < 2 ^ 201 →
  get_total_voted_power y n a = Some (y + n + a).
Proof.
  intros. unfold get_total_voted_power, ZAmount.add. rewrite chk_in by (cbn in *; lia). cbn [mbind option_bind].
  apply chk_in. cbn in *; lia.
Qed.

Lemma tally_new_spec t y n a T : 0 ≤ y → 0 ≤ n → 0 ≤ a → y + n + a < 2 ^ 201 → 0 ≤ T < 2 ^ 201 →
  tally_new t y n a T = Some (if tally_passes t y n a T then Passed else Rejected).
Proof.
  intros Hy Hn Ha Hs HT. unfold tally_new.
  rewrite voted_power_small by done. rewrite two_thirds_val, one_third_val. cbn [mbind option_bind].
  destruct t; rewrite mul_ceil_small by (cbn in *; lia); cbn [mbind option_bind].
  - unfold ZAmount.add. rewrite chk_in by (cbn in *; lia). cbn [mbind option_bind].
    rewrite mul_ceil_small by (cbn in *; lia). cbn [mbind option_bind]. by rewrite !ceil_le_iff.
  - by rewrite ceil_le_iff.
  - by rewrite ceil_lt_iff.
Qed.

Lemma count_result (A : AddressApi) (It : IterApi Address) (s : ProposalVotes)
    (total : Z) (tt : TallyType) :
  fair_votes s → 0 ≤ total < 2 ^ 200 →
  let y := voted_for s Yay in let n := voted_for s Nay in let a := voted_for s Abstain in
  compute_proposal_result s total tt =
    Some (mk_result (if tally_passes tt y n a total then Passed else Rejected) tt total y n a) ∧
  0 ≤ y ∧ 0 ≤ n ∧ 0 ≤ a ∧
  y + n + a =
    zsum (λ x, if decide (is_Some (validators_vote s !! x.1)) then x.2 else 0)
      (map_to_list (validator_voting_power s)) +
    zsum (λ x, if decide (validators_vote s !! x.2.1 = None) then x.2.2 else 0) (delegations s).
Proof.
  intros F HT y n a. unfold compute_proposal_result.
  pose proof (fair_fits _ F) as Hfit.
  assert (Hp : ∀ x, x ∈ map_to_list (validator_voting_power s) → 0 ≤ x.2).
  { intros [v p] Hx%elem_of_map_to_list. by apply (fair_power_nonneg _ F v). }
  assert (Hd : ∀ x, x ∈ delegations s → 0 ≤ x.2.2) by apply (fair_amount_nonneg _ F).
  pose proof (zsum_nonneg _ _ Hp) as Hp0. pose proof (zsum_nonneg (λ x, x.2.2) _ Hd) as Hd0.
  destruct (count_validators_spec s (iter (validator_voting_power s)) (mk_sums 0 0 0)) as (t1 & -> & H1).
  { intros x. rewrite iter_perm. apply Hp. }
  { by intros []. }
  { intros w. rewrite (zsum_perm snd _ _ (iter_perm _)). destruct w; cbn in *; lia. }
  cbn [mbind option_bind]. rewrite count_delegators_flat.
  pose proof (iter_delegations_perm s) as Hperm.
  assert (Hv : ∀ w, side t1 w = zsum (validator_share s w) (map_to_list (validator_voting_power s)))
    by (intros w; rewrite H1, (zsum_perm _ _ _ (iter_perm _)); by destruct w).
  assert (Hle : ∀ w, side t1 w ≤ zsum snd (map_to_list (validator_voting_power s))).
  { intros w. rewrite Hv. apply zsum_le. intros x Hx. specialize (Hp x Hx). unfold validator_share.
    case_decide; lia. }
  destruct (count_delegations_spec s (iter (delegator_voting_power s) ≫= iter_delegations s) t1)
    as (t2 & -> & H2).
  { intros x. rewrite Hperm. apply Hd. }
  { intros w. rewrite (zsum_perm _ _ _ Hperm), Hv. by apply delegations_backed. }
  { intros w. rewrite (zsum_perm _ _ _ Hperm). specialize (Hle w). cbn in *. lia. }
  cbn [mbind option_bind].
  assert (Hw : ∀ w, side t2 w = voted_for s w).
  { intros w. unfold voted_for. by rewrite H2, Hv, !(zsum_perm _ _ _ Hperm). }
  assert (Hnn : ∀ w, 0 ≤ voted_for s w) by (intros w; by apply voted_for_nonneg).
  pose proof (voted_for_total s) as Htot.
  assert (y + n + a ≤ zsum snd (map_to_list (validator_voting_power s)) + zsum (λ x, x.2.2) (delegations s)).
  { unfold y, n, a. rewrite Htot. apply Z.add_le_mono; apply zsum_le; intros x Hx;
      [specialize (Hp x Hx)|specialize (Hd x Hx)]; case_decide; lia. }
  assert (yay t2 = y) as -> by apply (Hw Yay). assert (nay t2 = n) as -> by apply (Hw Nay).
  assert (abstain t2 = a) as -> by apply (Hw Abstain).
  rewrite tally_new_spec by (try apply Hnn; cbn in *; lia).
  split; [done|]. split_and!; try apply Hnn. exact Htot.
Qed.

(**  The count: on votes backed by proof of stake, in any order of
    iteration, the computation never overflows or underflows.  Each side gets
    the power of its validators, less what their delegators move to another
    side, plus what delegators move to it; together the sides count the power of
    the validators that voted and of the delegations to those that did not. *)
Theorem proposal_result_exact (A : AddressApi) (It : IterApi Address) (s : ProposalVotes)
    (total : Z) (tt : TallyType) :
  fair_votes s → 0 ≤ total < 2 ^ 200 →
  let y := voted_for s Yay in let n := voted_for s Nay in let a := voted_for s Abstain in
  compute_proposal_result s total tt =
    Some (mk_result (if tally_passes tt y n a total then Passed else Rejected) tt total y n a) ∧
  0 ≤ y ∧ 0 ≤ n ∧ 0 ≤ a ∧
  y + n + a =
    zsum (λ x, if decide (is_Some (validators_vote s !! x.1)) then x.2 else 0)
      (map_to_list (validator_voting_power s)) +
    zsum (λ x, if decide (validators_vote s !! x.2.1 = None) then x.2.2 else 0) (delegations s).
Proof. intros F HT. by apply count_result. Qed.

#[export] Instance iter_ref {K} `{Countable K} : IterApi K := {
  iter V m := map_to_list m;
  iter_perm V m := Permutation_refl (map_to_list m);
}.

(** Validator 1 votes yay with 10, of which delegator 3 takes 4 to nay;
    validator 2 does not vote and the same delegator votes nay with 5. *)
Definition example_votes : ProposalVotes (A:=addr_ref) :=
  add_delegator (A:=addr_ref) 3%N 2%N 5 Nay (add_delegator (A:=addr_ref) 3%N 1%N 4 Nay
    (add_validator (A:=addr_ref) 1%N 10 Yay votes_default)).

Lemma example_votes_fair : fair_votes example_votes.
Proof.
  assert (Hp : validator_voting_power example_votes = {[ 1%N := 10 ]}) by (vm_compute; reflexivity).
  assert (Hv : validators_vote example_votes = {[ 1%N := Yay ]}) by (vm_compute; reflexivity).
  assert (Hd : ∃ a b, delegations example_votes = [(Nay, a); (Nay, b)] ∧
    ((a = (1%N, 4) ∧ b = (2%N, 5)) ∨ (a = (2%N, 5) ∧ b = (1%N, 4)))).
  { eexists _, _. split; [vm_compute; reflexivity|]. by (left + right). }
  destruct Hd as (a & b & Hd & Hab). constructor.
  - intros v. rewrite Hv, Hp, !lookup_singleton_is_Some. done.
  - intros v p. rewrite Hp, lookup_singleton_Some. lia.
  - intros x. rewrite Hd, !elem_of_cons, elem_of_nil.
    destruct Hab as [[-> ->]|[-> ->]]; intros [->|[->|[]]]; cbn; lia.
  - intros v p. rewrite Hp, lookup_singleton_Some. intros [<- <-]. rewrite Hd.
    destruct Hab as [[-> ->]|[-> ->]]; vm_compute; discriminate.
  - rewrite Hp, map_to_list_singleton, Hd.
    destruct Hab as [[-> ->]|[-> ->]]; vm_compute; reflexivity.
Qed.

Lemma proposal_result_exact_witness :
  compute_proposal_result example_votes 20 OneHalfOverOneThird =
    Some (mk_result Rejected OneHalfOverOneThird 20 6 9 0).
Proof.
  destruct (proposal_result_exact addr_ref iter_ref example_votes 20 OneHalfOverOneThird) as (H & _).
  - apply example_votes_fair.
  - lia.
  - rewrite H. vm_compute. reflexivity.
Defined.

(**  The thresholds: with the votes of a side and the total below
    [2^200], [TallyResult::new] answers.  A default proposal passes when two
    thirds voted and two thirds of the decided power is yay, and only when that
    holds up to the last of twelve decimal places, hence exactly for powers below
    [5 * 10^11]; a steward proposal passes when a third voted and yay beats nay;
    the payments of a steward are rejected only when a third voted and yay does
    not beat nay. *)
Theorem tally_thresholds (y n a T : Z) :
  0 ≤ y → 0 ≤ n → 0 ≤ a → y + n + a < 2 ^ 200 → 0 ≤ T < 2 ^ 200 →
  (∃ r, tally_new TwoThirds y n a T = Some r ∧
    (2 * T ≤ 3 * (y + n + a) → 2 * (y + n) ≤ 3 * y → r = Passed) ∧
    (r = Passed → (2 * E12 - 2) * T ≤ 3 * E12 * (y + n + a) ∧ (2 * E12 - 2) * (y + n) ≤ 3 * E12 * y) ∧
    (r = Passed → T < 5 * 10 ^ 11 → y + n < 5 * 10 ^ 11 →
      2 * T ≤ 3 * (y + n + a) ∧ 2 * (y + n) ≤ 3 * y)) ∧
  (∃ r, tally_new OneHalfOverOneThird y n a T = Some r ∧
    (T ≤ 3 * (y + n + a) → n < y → r = Passed) ∧
    (r = Passed → n < y ∧ (E12 - 1) * T ≤ 3 * E12 * (y + n + a)) ∧
    (r = Passed → T < 10 ^ 12 → T ≤ 3 * (y + n + a))) ∧
  (∃ r, tally_new LessOneHalfOverOneThirdNay y n a T = Some r ∧
    (r = Rejected → y ≤ n ∧ (E12 - 1) * T ≤ 3 * E12 * (y + n + a)) ∧
    (T ≤ 3 * (y + n + a) → y ≤ n → r = Rejected)).
Proof.
  intros Hy Hn Ha Hs HT. rewrite !tally_new_spec by (cbn in *; lia). unfold tally_passes.
  split_and!; eexists; (split; [done|]).
  - destruct (Z.leb_spec (T * 666666666666) ((y + n + a) * E12)),
      (Z.leb_spec ((n + y) * 666666666666) (y * E12)); cbn [andb]; split_and!; intros; (done || lia || split; lia).
  - destruct (Z.leb_spec (T * 333333333333) ((y + n + a) * E12)),
      (Z.ltb_spec n y); cbn [andb]; split_and!; intros; (done || lia || split; lia).
  - destruct (Z.ltb_spec ((y + n + a) * E12) (T * 333333333333)),
      (Z.ltb_spec n y); cbn [orb]; split_and!; intros; (done || lia || split; lia).
Qed.

Lemma tally_thresholds_witness : ∃ r, tally_new TwoThirds 6 3 1 15 = Some r ∧ r = Passed.
Proof.
  destruct (tally_thresholds 6 3 1 15) as ((r & H & Hp & _) & _); [lia..|].
  exists r. split; [exact H|]. apply Hp; lia.
Defined.

(** Without a single yay vote, a default proposal passes when two thirds
    abstain; a payment proposal so rejected costs the steward its place. *)
Example abstentions_pass : tally_new TwoThirds 0 0 10 15 = Some Passed.
Proof. vm_compute. reflexivity. Qed.
Example abstentions_remove_steward :
  tally_new LessOneHalfOverOneThirdNay 0 0 10 15 = Some Rejected ∧
  two_thirds_nay_over_two_thirds_total (mk_result Rejected LessOneHalfOverOneThirdNay 15 0 0 10) = true.
Proof. vm_compute. done. Qed.

(** ** From the votes of a proposal to the count

    [PosStakes] is what proof of stake answers at the end epoch of a proposal:
    the state of a validator ([None] outside is a failed read), its stake (zero
    when the read fails) and the bonded amount of a delegator. *)

Class PosStakes (A : AddressApi) : Type := {
  pos_validator_state : Address → option (option ValidatorState);
  pos_validator_stake : Address → Z;
  pos_bond_amount : Address → Address → option Z;
}.

(** The validators whose votes count. *)
Definition active_validator {A : AddressApi} {P : PosStakes A} (v : Address) : Prop :=
  ∃ st, pos_validator_state v = Some (Some st) ∧ st ≠ Jailed ∧ st ≠ Inactive.

(** What governance relies on: a validator's stake covers the bonds of its
    delegators, and the total covers the stakes of the active validators. *)
Class PosStakesLaws {A : AddressApi} (P : PosStakes A) (total : Z) : Prop := {
  stake_nonneg v : 0 ≤ pos_validator_stake v;
  bond_nonneg d v a : pos_bond_amount d v = Some a → 0 ≤ a;
  stake_covers_bonds v ds : NoDup ds → v ∉ ds →
    zsum (λ d, default 0 (pos_bond_amount d v)) ds ≤ pos_validator_stake v;
  total_covers_stakes vs : NoDup vs → Forall active_validator vs → zsum pos_validator_stake vs ≤ total;
}.

Section shell_votes.
Context {A : AddressApi} {P : PosStakes A}.

Record Vote : Type := mk_vote {
  vote_validator : Address;
  vote_delegator : Address;
  vote_data : ProposalVote;
}.
Definition is_validator (v : Vote) : bool := bool_decide (vote_validator v = vote_delegator v).

Definition add_vote (vote : Vote) (s : ProposalVotes) : option ProposalVotes :=
  let validator := vote_validator vote in
  validator_state ← pos_validator_state validator;
  match validator_state with
  | Some Jailed | Some Inactive | None => Some s
  | Some _ =>
      if is_validator vote then
        Some (mk_votes (<[validator := vote_data vote]> (validators_vote s))
          (<[validator := pos_validator_stake validator]> (validator_voting_power s))
          (delegators_vote s) (delegator_voting_power s))
      else
        let delegator := vote_delegator vote in
        match pos_bond_amount delegator validator with
        | Some stake => Some (add_delegator delegator validator stake (vote_data vote) s)
        | None => Some s
        end
  end.

Definition compute_proposal_votes (votes : list Vote) : option ProposalVotes :=
  for_list add_vote votes votes_default.

(** What the loop keeps. *)
Record votes_inv (s : ProposalVotes) : Prop := {
  inv_same_validators v : is_Some (validators_vote s !! v) → is_Some (validator_voting_power s !! v);
  inv_power v p : validator_voting_power s !! v = Some p → p = pos_validator_stake v ∧ active_validator v;
  inv_bond d m v a : delegator_voting_power s !! d = Some m → m !! v = Some a →
    pos_bond_amount d v = Some a ∧ active_validator v ∧ d ≠ v;
}.

Lemma add_vote_inv vote s s' : votes_inv s → add_vote vote s = Some s' → votes_inv s'.
Proof using Type.
  intros [H1 H2 H3] H. unfold add_vote in H.
  destruct (pos_validator_state (vote_validator vote)) as [vst|] eqn:Est; [|done]. cbn [mbind option_bind] in H.
  destruct vst as [st|]; [|by injection H as <-].
  destruct (decide (st = Jailed ∨ st = Inactive)) as [Hj|Hj].
  { destruct Hj as [-> | ->]; by injection H as <-. }
  assert (Hact : active_validator (vote_validator vote)) by (exists st; naive_solver).
  assert (H' : (if is_validator vote then _ else _) = Some s') by (destruct st; naive_solver). clear H.
  unfold is_validator in H'. destruct (bool_decide_reflect (vote_validator vote = vote_delegator vote)) as [He|Hne].
  - injection H' as <-. constructor; cbn.
    + intros v. rewrite !lookup_insert_is_Some. naive_solver.
    + intros v p. rewrite lookup_insert_Some. naive_solver.
    + exact H3.
  - destruct (pos_bond_amount _ _) as [a0|] eqn:Eb; injection H' as <-; [|done].
    unfold add_delegator. constructor; cbn; [exact H1|exact H2|].
    intros d m v a. rewrite lookup_insert_Some. intros [[<- <-]|[_ Hm]] Hv; [|by eapply H3].
    rewrite lookup_insert_Some in Hv. destruct Hv as [[<- <-]|[_ Hv]]; [naive_solver|].
    destruct (delegator_voting_power s !! vote_delegator vote) as [m0|] eqn:Em; cbn in Hv;
      [by eapply H3|by rewrite lookup_empty in Hv].
Qed.

Lemma compute_votes_inv votes s s' : votes_inv s → for_list add_vote votes s = Some s' → votes_inv s'.
Proof using Type.
  revert s. induction votes as [|v votes IH]; intros s Hs H; [by injection H as <-|].
  cbn in H. destruct (add_vote v s) as [s1|] eqn:E; [|done]. cbn in H.
  apply (IH s1); [|done]. by eapply add_vote_inv.
Qed.

Lemma votes_inv_default : votes_inv votes_default.
Proof using Type.
  constructor; cbn.
  - intros v. rewrite lookup_empty. by intros [].
  - intros v p. by rewrite lookup_empty.
  - intros d m v a. by rewrite lookup_empty.
Qed.
End shell_votes.

Section tally_total.
Context {A : AddressApi} {P : PosStakes A} {total : Z} (L : PosStakesLaws P total).

Lemma delegations_elem s x : x ∈ delegations s →
  ∃ d m, delegator_voting_power s !! d = Some m ∧ m !! x.2.1 = Some x.2.2.
Proof using Type.
  unfold delegations, delegations_of. rewrite list_elem_of_bind. intros ([d m] & Hx & Hd%elem_of_map_to_list).
  cbn [fst snd] in Hx. destruct (delegators_vote s !! d); [|by apply elem_of_nil in Hx].
  apply list_elem_of_fmap in Hx as ([v a] & -> & Hv%elem_of_map_to_list). by exists d, m.
Qed.

(** What is delegated to one validator is covered by its stake. *)
Lemma delegated_le_stake s v : votes_inv s →
  zsum (λ x, if decide (x.2.1 = v) then x.2.2 else 0) (delegations s) ≤ pos_validator_stake v.
Proof using L.
  intros I. unfold delegations. rewrite zsum_bind.
  set (D := map_to_list (delegator_voting_power s)).
  transitivity (zsum (λ d, if decide (d ≠ v) then default 0 (pos_bond_amount d v) else 0) D.*1).
  - rewrite zsum_fmap. apply zsum_le. intros [d m] Hd%elem_of_map_to_list. cbn [fst].
    transitivity (default 0 (m !! v)).
    + unfold delegations_of. cbn [fst snd]. destruct (delegators_vote s !! d); cbn [fst snd].
      * rewrite zsum_fmap. cbn [fst snd]. by rewrite zsum_map_lookup.
      * destruct (m !! v) as [a|] eqn:Ev; [|done]. destruct (inv_bond _ I _ _ _ _ Hd Ev) as (Hb & _).
        cbn. by eapply bond_nonneg.
    + destruct (m !! v) as [a|] eqn:Ev; cbn.
      * destruct (inv_bond _ I _ _ _ _ Hd Ev) as (Hb & _ & Hne). by rewrite decide_True, Hb.
      * case_decide; [|done]. destruct (pos_bond_amount d v) eqn:Eb; [|done]. by eapply bond_nonneg.
  - rewrite <-(zsum_filter (λ d, d ≠ v)). apply (stake_covers_bonds v).
    + apply NoDup_filter, NoDup_fst_map_to_list.
    + rewrite list_elem_of_filter. naive_solver.
Qed.

Definition powers (s : ProposalVotes) : list (Address * Z) := map_to_list (validator_voting_power s).
(** The validators that delegations are to. *)
Definition targets (s : ProposalVotes) : list Address := remove_dups ((λ x, x.2.1) <$> delegations s).

Lemma targets_active s : votes_inv s → Forall active_validator (targets s).
Proof using Type.
  intros I. apply Forall_forall. intros v. unfold targets. rewrite elem_of_remove_dups, list_elem_of_fmap.
  intros (x & -> & Hx). apply delegations_elem in Hx as (d & m & Hd & Hm). by apply (inv_bond _ I _ _ _ _ Hd Hm).
Qed.

Lemma powers_active s : votes_inv s → Forall active_validator (powers s).*1.
Proof using Type.
  intros I. apply Forall_forall. intros v. rewrite list_elem_of_fmap. intros ([v' p] & -> & Hv%elem_of_map_to_list).
  by apply (inv_power _ I _ _ Hv).
Qed.

(** The delegations to some validators weigh at most the stakes of these. *)
Lemma delegated_le_stakes s (Q : Address → Prop) `{∀ v, Decision (Q v)} : votes_inv s →
  zsum (λ x, if decide (Q x.2.1) then x.2.2 else 0) (delegations s) ≤
  zsum pos_validator_stake (filter Q (targets s)).
Proof using L.
  intros I. pose proof (zsum_group (λ v, v ∈ filter Q (targets s)) (filter Q (targets s)) (delegations s)) as Hg.
  etrans; [apply Z.eq_le_incl; etrans; [|apply Hg]|].
  - apply zsum_ext. intros x Hx. apply decide_ext. rewrite list_elem_of_filter. split; [|naive_solver].
    intros HQ. split; [done|]. unfold targets. apply elem_of_remove_dups, list_elem_of_fmap. by exists x.
  - apply NoDup_filter, NoDup_remove_dups.
  - done.
  - apply zsum_le. intros v Hv. rewrite decide_True by done. by apply delegated_le_stake.
Qed.

Lemma powers_le_stakes s (Q : Address → Prop) `{∀ v, Decision (Q v)} : votes_inv s →
  zsum (λ x, if decide (Q x.1) then x.2 else 0) (powers s) ≤
  zsum pos_validator_stake (filter Q (powers s).*1).
Proof using L.
  intros I. rewrite zsum_filter, zsum_fmap. apply zsum_le. intros [v p] Hv%elem_of_map_to_list. cbn [fst snd].
  case_decide; [|done]. by destruct (inv_power _ I _ _ Hv) as [-> _].
Qed.
Lemma stakes_le_total s (Q : Address → Prop) `{∀ v, Decision (Q v)} : votes_inv s →
  zsum pos_validator_stake (filter Q (powers s).*1) ≤ total ∧
  zsum pos_validator_stake (filter Q (targets s)) ≤ total.
Proof using L.
  intros I. split; apply total_covers_stakes.
  - apply NoDup_filter, NoDup_fst_map_to_list.
  - apply Forall_filter, (powers_active _ I).
  - apply NoDup_filter, NoDup_remove_dups.
  - apply Forall_filter, (targets_active _ I).
Qed.

Lemma votes_inv_fair s : votes_inv s → total < 2 ^ 199 → fair_votes s.
Proof using L.
  intros I Ht. constructor.
  - apply (inv_same_validators _ I).
  - intros v p Hv. destruct (inv_power _ I _ _ Hv) as [-> _]. apply stake_nonneg.
  - intros x Hx. apply delegations_elem in Hx as (d & m & Hd & Hm).
    destruct (inv_bond _ I _ _ _ _ Hd Hm) as [Hb _]. by eapply bond_nonneg.
  - intros v p Hv. destruct (inv_power _ I _ _ Hv) as [-> _]. by apply delegated_le_stake.
  - destruct (stakes_le_total s (λ _, True) I) as [H1 H2].
    pose proof (powers_le_stakes s (λ _, True) I) as H3. pose proof (delegated_le_stakes s (λ _, True) I) as H4.
    rewrite (zsum_ext _ snd) in H3 by (intros; by rewrite decide_True).
    rewrite (zsum_ext _ (λ x, x.2.2)) in H4 by (intros; by rewrite decide_True).
    unfold powers in *. change (2 ^ 200) with (2 ^ 199 + 2 ^ 199). lia.
Qed.

Lemma counted_le_total s : votes_inv s →
  zsum (λ x, if decide (is_Some (validators_vote s !! x.1)) then x.2 else 0) (powers s) +
  zsum (λ x, if decide (validators_vote s !! x.2.1 = None) then x.2.2 else 0) (delegations s) ≤ total.
Proof using L.
  intros I. pose proof (powers_le_stakes s (λ v, is_Some (validators_vote s !! v)) I) as H1.
  pose proof (delegated_le_stakes s (λ v, validators_vote s !! v = None) I) as H2.
  etrans; [apply Z.add_le_mono; [exact H1|exact H2]|]. rewrite <-zsum_app. apply total_covers_stakes.
  - apply NoDup_app. split_and!.
    + apply NoDup_filter, NoDup_fst_map_to_list.
    + intros v Hv Hv2. apply list_elem_of_filter in Hv as [Hv _], Hv2 as [Hv2 _]. rewrite Hv2 in Hv. by destruct Hv.
    + apply NoDup_filter, NoDup_remove_dups.
  - apply Forall_app. split; apply Forall_filter; [by apply powers_active|by apply targets_active].
Qed.
End tally_total.

(** C30.  From the votes of a proposal to its result: whatever was voted, if
    proof of stake covers bonds by stakes and stakes by the total, the count that
    the shell expects not to overflow never does, and it counts at most the total
    active stake. *)
Theorem governance_tally_total (A : AddressApi) (It : IterApi Address) (P : PosStakes A) (total : Z)
    (L : PosStakesLaws P total) (votes : list Vote) (s : ProposalVotes) (tt : TallyType) :
  0 ≤ total < 2 ^ 199 → compute_proposal_votes votes = Some s →
  ∃ r, compute_proposal_result s total tt = Some r ∧
    0 ≤ total_yay_power r ∧ 0 ≤ total_nay_power r ∧ 0 ≤ total_abstain_power r ∧
    total_yay_power r + total_nay_power r + total_abstain_power r ≤ total.
Proof.
  intros Ht Hc. assert (I : votes_inv s) by (eapply compute_votes_inv; [apply votes_inv_default|exact Hc]).
  assert (F : fair_votes s) by (apply (votes_inv_fair L); [done|lia]).
  destruct (count_result A It s total tt F ltac:(cbn in *; lia)) as (Hr & H1 & H2 & H3 & Hs).
  eexists. split; [exact Hr|]. cbn. split_and!; try done. rewrite Hs. by apply counted_le_total.
Qed.

(** Validator 1 (stake 10) voted yay, its delegator 3 (bond 4) nay; validator 2
    is jailed. *)
Definition example_stakes : PosStakes addr_ref := {|
  pos_validator_state v := Some (if decide (v = 1%N) then Some Consensus else if decide (v = 2%N) then Some Jailed else None);
  pos_validator_stake v := if decide (v = 1%N) then 10 else 0;
  pos_bond_amount d v := if decide (d = 3%N ∧ v = 1%N) then Some 4 else None;
|}.

Lemma example_stakes_laws : PosStakesLaws example_stakes 10.
Proof.
  constructor; cbn.
  - intros v. by case_decide.
  - intros d v a H. case_decide; [injection H as <-; lia|done].
  - intros v ds Hnd _. destruct (decide (v = 1%N)) as [->|Hv].
    + rewrite (zsum_ext _ (λ d, if decide (d = 3%N) then 4 else 0)).
      * rewrite zsum_single by done. case_decide; lia.
      * intros d _. destruct (decide (d = 3%N)); [rewrite decide_True by done|rewrite decide_False by naive_solver]; done.
    + rewrite (zsum_ext _ (λ _, 0)); [by rewrite zsum_zero|]. intros d _. by rewrite decide_False by naive_solver.
  - intros vs Hnd _. rewrite (zsum_single 10 1%N) by done. case_decide; lia.
Qed.

Definition example_vote_list : list (Vote (A:=addr_ref)) :=
  [mk_vote (A:=addr_ref) 1%N 1%N Yay; mk_vote (A:=addr_ref) 1%N 3%N Nay; mk_vote (A:=addr_ref) 2%N 2%N Nay].

Lemma governance_tally_total_witness :
  ∃ s r, compute_proposal_votes (P:=example_stakes) example_vote_list = Some s ∧
    compute_proposal_result s 10 TwoThirds = Some r ∧
    total_yay_power r + total_nay_power r + total_abstain_power r ≤ 10.
Proof.
  assert (Hs : bool_decide (is_Some (compute_proposal_votes (P:=example_stakes) example_vote_list)) = true)
    by (vm_compute; reflexivity).
  apply bool_decide_eq_true in Hs as [s E].
  destruct (governance_tally_total addr_ref iter_ref example_stakes 10 example_stakes_laws
    example_vote_list s TwoThirds) as (r & Hr & _ & _ & _ & Ht).
  - lia.
  - exact E.
  - exists s, r. done.
Defined.
