(* ===== verification/GovernanceVp.v ===== *)
(** * The governance validity predicate

    Models [namada/src/ledger/governance/mod.rs] with the storage keys of
    [governance/src/storage/keys.rs].  The predicate sees the storage before and
    after a transaction; every changed key is checked by its kind.  Values are
    stored as bytes: their Borsh decoding is the interface [GovCodec], and what proof of
    stake says of validators and delegators is part of the context.  The
    properties say who can vote and when, what a new proposal must have, and which
    fields of a proposal can still change; some show changes that are accepted and
    should not be. *)

From S2P Require Import Prelude Words Uint Decimal I256 Dec Token StorageKey Epochs TransToken PosTypes Governance.

Abbreviation bytes := (list ascii).

(** ** Types of proposals *)

Inductive AddRemove (T : Type) : Type := Add (x : T) | Remove (x : T).
Arguments Add {T} _.
Arguments Remove {T} _.

Section types.
Context {A : AddressApi}.
Inductive PGFTarget : Type :=
| PGFInternal (target : Address) (amount : Z)
| PGFIbc (target : text) (amount : Z) (port_id channel_id : text).
Inductive PGFAction : Type := Continuous (x : AddRemove PGFTarget) | Retro (x : PGFTarget).
(** The sets of a proposal are the lists of their elements. *)
Abbreviation PType := (ProposalType bytes (list (AddRemove Address)) (list PGFAction)).

Inductive AddressKind : Type := Established | Implicit | Internal.

(** What the transaction says it does; other actions do not matter here. *)
Inductive Action : Type := InitProposal (author : Address) | VoteProposal (id : Z) (voter : Address) | OtherAction.
End types.

Class GovCodec (A : AddressApi) : Type := {
  dec_u64 : bytes → option Z;
  dec_amount : bytes → option Z;
  dec_address : bytes → option Address;
  dec_type : bytes → option (ProposalType bytes (list (AddRemove Address)) (list PGFAction));
  dec_vote : bytes → option ProposalVote;
  dec_vec : bytes → option bytes;
  to_lowercase : text → text;
  address_kind : Address → AddressKind;
}.

(** [str::parse::<u64>]: digits, perhaps after a plus sign. *)
Definition parse_u64 (s : text) : option Z :=
  let s := match s with c :: rest => if decide (c = "+"%char) then rest else s | [] => s end in
  if decide (s = []) then None else n ← parse_dec s; chk 64 n.

(** ** Storage keys *)

Module GovKeys.
Section keys.
Context {A : AddressApi} {I : InternalAddrs A}.
Abbreviation ADDRESS := gov.

Definition proposal : text := lit "proposal".
Definition vote : text := lit "vote".
Definition author : text := lit "author".
Definition proposal_type : text := lit "proposal_type".
Definition content : text := lit "content".
Definition start_epoch : text := lit "start_epoch".
Definition end_epoch : text := lit "end_epoch".
Definition activation_epoch : text := lit "activation_epoch".
Definition funds : text := lit "funds".
Definition proposal_code : text := lit "proposal_code".
Definition committing_epoch : text := lit "committing_epoch".
Definition min_fund : text := lit "min_fund".
Definition max_code_size : text := lit "max_code_size".
Definition min_period : text := lit "min_period".
Definition max_period : text := lit "max_period".
Definition max_content : text := lit "max_content".
Definition max_latency : text := lit "max_latency".
Definition min_grace_epochs : text := lit "min_grace_epochs".
Definition counter : text := lit "counter".
Definition pending : text := lit "pending".

(** Indexing the first segment panics without one. *)
Definition is_governance_key {E} (key : Key) : res E bool :=
  match segments key with
  | [] => Panic
  | AddressSeg addr :: _ => Ok (bool_decide (addr = ADDRESS))
  | StringSeg _ :: _ => Ok false
  end.
Definition is_vote_key (key : Key) : bool :=
  match segments key with
  | [AddressSeg addr; StringSeg prefix; StringSeg id; StringSeg v; AddressSeg _; AddressSeg _] =>
      bool_decide (addr = ADDRESS) && bool_decide (prefix = proposal) && bool_decide (v = vote) && bool_decide (is_Some (parse_u64 id))
  | _ => false
  end.
(** The recognisers of the fields of a proposal differ in the name. *)
Definition is_field_key (field : text) (key : Key) : bool :=
  match segments key with
  | [AddressSeg addr; StringSeg prefix; StringSeg id; StringSeg f] =>
      bool_decide (addr = ADDRESS) && bool_decide (prefix = proposal) && bool_decide (f = field) && bool_decide (is_Some (parse_u64 id))
  | _ => false
  end.
Definition is_author_key : Key → bool := is_field_key author.
Definition is_proposal_code_key : Key → bool := is_field_key proposal_code.
Definition is_activation_epoch_key : Key → bool := is_field_key activation_epoch.
Definition is_content_key : Key → bool := is_field_key content.
Definition is_balance_key : Key → bool := is_field_key funds.
Definition is_start_epoch_key : Key → bool := is_field_key start_epoch.
Definition is_end_epoch_key : Key → bool := is_field_key end_epoch.
Definition is_proposal_type_key : Key → bool := is_field_key proposal_type.
(** So do those of the counter and the parameters. *)
Definition is_gov_key (name : text) (key : Key) : bool :=
  match segments key with
  | [AddressSeg addr; StringSeg n] => bool_decide (addr = ADDRESS) && bool_decide (n = name)
  | _ => false
  end.
Definition is_counter_key : Key → bool := is_gov_key counter.
Definition is_min_proposal_fund_key : Key → bool := is_gov_key min_fund.
Definition is_max_content_size_key : Key → bool := is_gov_key max_content.
Definition is_max_proposal_code_size_key : Key → bool := is_gov_key max_code_size.
Definition is_min_proposal_voting_period_key : Key → bool := is_gov_key min_period.
Definition is_max_proposal_period_key : Key → bool := is_gov_key max_period.
Definition is_min_grace_epochs_key : Key → bool := is_gov_key min_grace_epochs.
Definition is_commit_proposal_key (key : Key) : bool :=
  match segments key with
  | [AddressSeg addr; StringSeg prefix; StringSeg epoch_prefix; StringSeg _; StringSeg _] =>
      bool_decide (addr = ADDRESS) && bool_decide (prefix = proposal) && bool_decide (epoch_prefix = committing_epoch)
  | _ => false
  end.
Definition is_parameter_key (key : Key) : bool :=
  is_min_proposal_fund_key key || is_max_content_size_key key || is_max_proposal_code_size_key key
  || is_min_proposal_voting_period_key key || is_max_proposal_period_key key || is_min_grace_epochs_key key.

(** Pushing a segment without separator onto a key succeeds. *)
Definition gov_key (name : text) : Key := mk_key [AddressSeg ADDRESS; StringSeg name].
Definition field_key (id : Z) (field : text) : Key :=
  mk_key [AddressSeg ADDRESS; StringSeg proposal; StringSeg (print_dec id); StringSeg field].
Definition get_min_proposal_fund_key : Key := gov_key min_fund.
Definition get_max_proposal_code_size_key : Key := gov_key max_code_size.
Definition get_min_proposal_voting_period_key : Key := gov_key min_period.
Definition get_max_proposal_period_key : Key := gov_key max_period.
Definition get_max_proposal_content_key : Key := gov_key max_content.
Definition get_max_proposal_latency_key : Key := gov_key max_latency.
Definition get_min_proposal_grace_epochs_key : Key := gov_key min_grace_epochs.
Definition get_counter_key : Key := gov_key counter.
Definition get_content_key (id : Z) : Key := field_key id content.
Definition get_author_key (id : Z) : Key := field_key id author.
Definition get_proposal_type_key (id : Z) : Key := field_key id proposal_type.
Definition get_voting_start_epoch_key (id : Z) : Key := field_key id start_epoch.
Definition get_voting_end_epoch_key (id : Z) : Key := field_key id end_epoch.
Definition get_funds_key (id : Z) : Key := field_key id funds.
Definition get_activation_epoch_key (id : Z) : Key := field_key id activation_epoch.
Definition get_proposal_code_key (id : Z) : Key := field_key id proposal_code.
Definition get_committing_proposals_key (id epoch : Z) : Key :=
  mk_key [AddressSeg ADDRESS; StringSeg proposal; StringSeg committing_epoch; StringSeg (print_dec epoch); StringSeg (print_dec id)].
Definition get_vote_proposal_key (id : Z) (voter validator : Address) : Key :=
  mk_key [AddressSeg ADDRESS; StringSeg proposal; StringSeg (print_dec id); StringSeg vote; AddressSeg validator; AddressSeg voter].
Definition get_proposal_execution_key (id : Z) : Key := mk_key [AddressSeg ADDRESS; StringSeg pending; StringSeg (print_dec id)].

Definition get_proposal_id (key : Key) : option Z :=
  match key_get_at key 2 with Some (StringSeg r) => parse_u64 r | _ => None end.
Definition get_vote_delegation_address (key : Key) : option Address :=
  match key_get_at key 4 with Some (AddressSeg r) => Some r | _ => None end.
Definition get_voter_address (key : Key) : option Address :=
  match key_get_at key 5 with Some (AddressSeg r) => Some r | _ => None end.
End keys.
End GovKeys.
Import GovKeys.

(** ** The predicate *)

Section vp.
Context {A : AddressApi} {I : InternalAddrs A} {C : GovCodec A}.
Abbreviation GovStore := (gmap Key bytes).

Inductive GovError : Type :=
| Unauthorized (action : text) (a : Address)
| StorageError
| FieldEmpty (key : Key)
| InvalidKeySet
| NoAction
| UnknownKey (key : Key)
| BadVoteKey
| BadProposalId
| OutsideVotingWindow
| OutsideValidatorPeriod
| NotAVoter (a : Address)
| AlreadyWritten
| TooLong
| BadSteward
| TooManyActions
| BadFundings
| NotWithWasm
| NoCommittingKey
| BadEpochs
| ArithError
| BadFunds
| BadBalance
| NoAuthorAccount
| AuthorMustVerify
| BadCounter
| NoTxData
| NotAccepted.

(** What the predicate sees.  Reading the actions of the transaction and asking proof
    of stake can fail. *)
Record Ctx : Type := mk_ctx {
  pre : GovStore;
  post : GovStore;
  block_epoch : Epoch;
  native_token : Address;
  actions : option (list (Action (A:=A)));
  tx_data : option bytes;
  pos_is_validator : Address → option bool;
  pos_is_delegator : Address → Epoch → option bool;
}.

Definition MAX_PGF_ACTIONS : nat := 20.

(** A typed read of storage: nothing, a value, or bytes that do not decode. *)
Definition read_store {T} (dec : bytes → option T) (s : GovStore) (key : Key) : res GovError (option T) :=
  match s !! key with
  | None => Ok None
  | Some b => match dec b with Some v => Ok (Some v) | None => Err StorageError end
  end.
Definition force_read {T} (dec : bytes → option T) (s : GovStore) (key : Key) : res GovError T :=
  r ← read_store dec s key; ok_or r (FieldEmpty key).
Definition has_key (s : GovStore) (key : Key) : bool := bool_decide (is_Some (s !! key)).

(** [bool::ok_or_else] *)
Definition ensure (b : bool) (e : GovError) : res GovError unit := if b then Ok () else Err e.

Definition is_proposal_accepted (s : GovStore) (data : bytes) : res GovError bool :=
  match dec_u64 data with
  | Some id => Ok (has_key s (get_proposal_execution_key id))
  | None => Ok false
  end.

Definition account_exists (s : GovStore) (owner : Address) : bool :=
  match address_kind owner with
  | Established => has_key s (validity_predicate owner)
  | Implicit => true
  | Internal => false
  end.

(** *** Kinds of keys *)

Inductive KeyType : Type :=
| COUNTER | VOTE | CONTENT | PROPOSAL_CODE | TYPE | PROPOSAL_COMMIT | ACTIVATION_EPOCH | START_EPOCH | END_EPOCH
| FUNDS | BALANCE | AUTHOR | PARAMETER | UNKNOWN_GOVERNANCE | UNKNOWN.

Definition from_key (key : Key) (native_token : Address) : res GovError KeyType :=
  if is_vote_key key then Ok VOTE
  else if is_content_key key then Ok CONTENT
  else if is_proposal_type_key key then Ok TYPE
  else if is_proposal_code_key key then Ok PROPOSAL_CODE
  else if is_activation_epoch_key key then Ok ACTIVATION_EPOCH
  else if is_start_epoch_key key then Ok START_EPOCH
  else if is_commit_proposal_key key then Ok PROPOSAL_COMMIT
  else if is_end_epoch_key key then Ok END_EPOCH
  else if GovKeys.is_balance_key key then Ok FUNDS
  else if is_author_key key then Ok AUTHOR
  else if is_counter_key key then Ok COUNTER
  else if is_parameter_key key then Ok PARAMETER
  else if bool_decide (is_Some (TransToken.is_balance_key native_token key)) then Ok BALANCE
  else g ← is_governance_key key; Ok (if g : bool then UNKNOWN_GOVERNANCE else UNKNOWN).

(** *** Votes *)

Definition is_valid_voting_window (current_epoch start_epoch end_epoch : Epoch) (is_validator : bool) : bool :=
  if is_validator then is_valid_validator_voting_period current_epoch start_epoch end_epoch
  else (start_epoch <=? current_epoch) && (current_epoch <=? end_epoch).

Definition is_validator (c : Ctx) (verifiers : gset Address) (voter validator : Address) : res GovError bool :=
  if negb (bool_decide (voter = validator)) then Ok false
  else is_validator ← ok_or (pos_is_validator c voter) StorageError;
       Ok (is_validator && bool_decide (voter ∈ verifiers)).

(** The conjunction is lazy. *)
Definition is_delegator (c : Ctx) (epoch : Epoch) (verifiers : gset Address) (address delegation_address : Address) :
    res GovError bool :=
  if negb (bool_decide (address = delegation_address)) && bool_decide (address ∈ verifiers)
  then ok_or (pos_is_delegator c address epoch) StorageError
  else Ok false.

Definition is_valid_vote_key (c : Ctx) (proposal_id : Z) (key : Key) (verifiers : gset Address) : res GovError unit :=
  let current_epoch := block_epoch c in
  pre_counter ← force_read dec_u64 (pre c) get_counter_key;
  pre_voting_start_epoch ← force_read dec_u64 (pre c) (get_voting_start_epoch_key proposal_id);
  pre_voting_end_epoch ← force_read dec_u64 (pre c) (get_voting_end_epoch_key proposal_id);
  voter ← ok_or (get_voter_address key) BadVoteKey;
  validator ← ok_or (get_vote_delegation_address key) BadVoteKey;
  if pre_counter <=? proposal_id then Err BadProposalId
  else
    match force_read dec_vote (post c) (get_vote_proposal_key proposal_id voter validator) with
    | Err _ => Err BadVoteKey
    | Panic => Panic
    | Ok _ =>
        if negb (is_valid_voting_window current_epoch pre_voting_start_epoch pre_voting_end_epoch false)
        then Err OutsideVotingWindow
        else
          is_val ← is_validator c verifiers voter validator;
          if is_val : bool then
            ensure (is_valid_validator_voting_period current_epoch pre_voting_start_epoch pre_voting_end_epoch)
              OutsideValidatorPeriod
          else
            is_del ← is_delegator c pre_voting_start_epoch verifiers voter validator;
            if negb is_del then Err (NotAVoter voter) else Ok ()
    end.

(** *** Fields of a proposal *)

Definition is_valid_content_key (c : Ctx) (proposal_id : Z) : res GovError unit :=
  let content_key := get_content_key proposal_id in
  if has_key (pre c) content_key then Err AlreadyWritten
  else
    max_content_length ← force_read dec_u64 (pre c) get_max_proposal_content_key;
    let post_content_bytes := default [] (post c !! content_key) in
    if negb (Z.of_nat (length post_content_bytes) <=? max_content_length) then Err TooLong else Ok ().

Definition added (x : AddRemove Address) : option Address := match x with Add a => Some a | Remove _ => None end.
Definition modified (x : AddRemove Address) : Address := match x with Add a => a | Remove a => a end.
Definition target (t : PGFTarget) : text :=
  match t with PGFInternal a _ => addr_encode a | PGFIbc s _ _ _ => s end.
Definition continuous_add (f : PGFAction) : option text :=
  match f with Continuous (Add t) => Some (to_lowercase (target t)) | _ => None end.
Definition continuous_remove (f : PGFAction) : option text :=
  match f with Continuous (Remove t) => Some (to_lowercase (target t)) | _ => None end.
Definition is_retro (f : PGFAction) : bool := match f with Retro _ => true | _ => false end.

Definition is_valid_stewards (c : Ctx) (proposal_id : Z) (stewards : list (AddRemove Address)) : res GovError unit :=
  let stewards_added := omap added stewards in
  let total_stewards_added := length stewards_added in
  let all_pgf_action_addresses := size (list_to_set (modified <$> stewards) : gset Address) in
  if (1 <? total_stewards_added)%nat then Err BadSteward
  else if (total_stewards_added =? 0)%nat then
    ensure (length stewards <? MAX_PGF_ACTIONS)%nat TooManyActions
  else
    match head stewards_added with
    | Some address =>
        author ← force_read dec_address (post c) (get_author_key proposal_id);
        if negb (bool_decide (address = author)) then Err BadSteward
        else if negb (length stewards =? all_pgf_action_addresses)%nat then Err BadSteward
        else if negb (all_pgf_action_addresses <? MAX_PGF_ACTIONS)%nat then Err TooManyActions
        else Ok ()
    | None => Err BadSteward
    end.

Definition is_valid_fundings (fundings : list PGFAction) : res GovError unit :=
  let add_targets := list_to_set (omap continuous_add fundings) : gset text in
  let remove_targets := list_to_set (omap continuous_remove fundings) : gset text in
  let total_retro_targets := length (filter (λ f, is_retro f = true) fundings) in
  if negb (length fundings <? MAX_PGF_ACTIONS)%nat then Err TooManyActions
  else if negb (size add_targets + size remove_targets + total_retro_targets =? length fundings)%nat
  then Err BadFundings
  else ensure (size (add_targets ∩ remove_targets) =? 0)%nat BadFundings.

Definition is_valid_proposal_type (c : Ctx) (proposal_id : Z) : res GovError unit :=
  proposal_type ← force_read dec_type (post c) (get_proposal_type_key proposal_id);
  match proposal_type with
  | PGFSteward stewards => is_valid_stewards c proposal_id stewards
  | PGFPayment fundings => is_valid_fundings fundings
  | Default | DefaultWithWasm _ => Ok ()
  end.

Definition is_default_with_wasm {H S P} (t : ProposalType H S P) : bool :=
  match t with DefaultWithWasm _ => true | _ => false end.

Definition is_valid_proposal_code (c : Ctx) (proposal_id : Z) : res GovError unit :=
  proposal_type ← force_read dec_type (post c) (get_proposal_type_key proposal_id);
  if negb (is_default_with_wasm proposal_type) then Err NotWithWasm
  else
    let code_key := get_proposal_code_key proposal_id in
    if has_key (pre c) code_key then Err AlreadyWritten
    else
      max_proposal_length ← force_read dec_u64 (pre c) get_max_proposal_code_size_key;
      post_code ← read_store dec_vec (post c) code_key;
      if negb (Z.of_nat (length (default [] post_code)) <=? max_proposal_length) then Err TooLong else Ok ().

Definition is_valid_activation_epoch (c : Ctx) (proposal_id : Z) : res GovError unit :=
  let activation_epoch_key := get_activation_epoch_key proposal_id in
  if has_key (pre c) activation_epoch_key then Err AlreadyWritten
  else
    start_epoch ← force_read dec_u64 (post c) (get_voting_start_epoch_key proposal_id);
    end_epoch ← force_read dec_u64 (post c) (get_voting_end_epoch_key proposal_id);
    activation_epoch ← force_read dec_u64 (post c) activation_epoch_key;
    min_grace_epochs ← force_read dec_u64 (pre c) get_min_proposal_grace_epochs_key;
    max_proposal_period ← force_read dec_u64 (pre c) get_max_proposal_period_key;
    if negb (has_key (post c) (get_committing_proposals_key proposal_id activation_epoch)) then Err NoCommittingKey
    else
      is_valid_activation_epoch ←
        (if end_epoch <? activation_epoch
         then d ← ok_or (EpochM.checked_sub activation_epoch end_epoch) ArithError; Ok (min_grace_epochs <=? d)
         else Ok false);
      if negb is_valid_activation_epoch then Err BadEpochs
      else
        is_valid_max_proposal_period ←
          (if start_epoch <? activation_epoch
           then d ← opr 64 (activation_epoch - start_epoch); Ok (d <=? max_proposal_period)
           else Ok false);
        if negb is_valid_max_proposal_period then Err BadEpochs else Ok ().

(** [checked!((end_epoch - start_epoch) % min_period)]; the remainder by zero fails. *)
Definition period_rem (start_epoch end_epoch : Epoch) (min_period : Z) : res GovError Z :=
  d ← ok_or (EpochM.checked_sub end_epoch start_epoch) ArithError;
  ok_or (EpochM.checked_rem d min_period) ArithError.

Definition is_valid_start_epoch (c : Ctx) (proposal_id : Z) : res GovError unit :=
  let start_epoch_key := get_voting_start_epoch_key proposal_id in
  let end_epoch_key := get_voting_end_epoch_key proposal_id in
  let current_epoch := block_epoch c in
  if has_key (pre c) start_epoch_key then Err AlreadyWritten
  else if has_key (pre c) end_epoch_key then Err AlreadyWritten
  else
    start_epoch ← force_read dec_u64 (post c) start_epoch_key;
    end_epoch ← force_read dec_u64 (post c) end_epoch_key;
    min_period ← force_read dec_u64 (pre c) get_min_proposal_voting_period_key;
    if end_epoch <=? start_epoch then Err BadEpochs
    else if start_epoch <=? current_epoch then Err BadEpochs
    else
      latency ← force_read dec_u64 (pre c) get_max_proposal_latency_key;
      d ← opr 64 (start_epoch - current_epoch);
      if latency <? d then Err BadEpochs
      else
        r ← period_rem start_epoch end_epoch min_period;
        if negb (r =? 0) then Err BadEpochs
        else
          period ← ok_or (EpochM.checked_sub end_epoch start_epoch) ArithError;
          if negb (min_period <=? period) then Err BadEpochs else Ok ().

Definition is_valid_end_epoch (c : Ctx) (proposal_id : Z) : res GovError unit :=
  let start_epoch_key := get_voting_start_epoch_key proposal_id in
  let end_epoch_key := get_voting_end_epoch_key proposal_id in
  let current_epoch := block_epoch c in
  if has_key (pre c) start_epoch_key then Err AlreadyWritten
  else if has_key (pre c) end_epoch_key then Err AlreadyWritten
  else
    start_epoch ← force_read dec_u64 (post c) start_epoch_key;
    end_epoch ← force_read dec_u64 (post c) end_epoch_key;
    min_period ← force_read dec_u64 (pre c) get_min_proposal_voting_period_key;
    max_period ← force_read dec_u64 (pre c) get_max_proposal_period_key;
    if (end_epoch <=? start_epoch) || (start_epoch <=? current_epoch) then Err BadEpochs
    else
      r ← period_rem start_epoch end_epoch min_period;
      if negb (r =? 0) then Err BadEpochs
      else
        diff ← ok_or (EpochM.checked_sub end_epoch start_epoch) ArithError;
        ensure ((min_period <=? diff) && (diff <=? max_period)) BadEpochs.

Definition is_valid_funds (c : Ctx) (proposal_id : Z) (native_token_address : Address) : res GovError unit :=
  balance_key ← expect (TransToken.balance_key native_token_address gov);
  min_funds_parameter ← force_read dec_amount (pre c) get_min_proposal_fund_key;
  pre_balance ← read_store dec_amount (pre c) balance_key;
  post_balance ← force_read dec_amount (post c) balance_key;
  post_funds ← force_read dec_amount (post c) (get_funds_key proposal_id);
  match pre_balance with
  | None =>
      _ ← ensure (min_funds_parameter <=? post_funds) BadFunds;
      ensure (post_balance =? post_funds) BadFunds
  | Some pre_balance =>
      _ ← ensure (min_funds_parameter <=? post_funds) BadFunds;
      is_valid_funds ←
        (if pre_balance <=? post_balance
         then d ← ok_or (ZAmount.sub post_balance pre_balance) ArithError; Ok (d =? post_funds)
         else Ok false);
      ensure is_valid_funds BadFunds
  end.

Definition is_valid_balance (c : Ctx) (native_token_address : Address) : res GovError unit :=
  balance_key ← expect (TransToken.balance_key native_token_address gov);
  pre_balance ← read_store dec_amount (pre c) balance_key;
  min_funds_parameter ← force_read dec_amount (pre c) get_min_proposal_fund_key;
  post_balance ← force_read dec_amount (post c) balance_key;
  balance_is_valid ←
    match pre_balance with
    | Some pre_balance =>
        if pre_balance <? post_balance
        then d ← ok_or (ZAmount.sub post_balance pre_balance) ArithError; Ok (min_funds_parameter <=? d)
        else Ok false
    | None => Ok (min_funds_parameter <=? post_balance)
    end;
  ensure balance_is_valid BadBalance.

Definition is_valid_author (c : Ctx) (proposal_id : Z) (verifiers : gset Address) : res GovError unit :=
  let author_key := get_author_key proposal_id in
  if has_key (pre c) author_key then Err AlreadyWritten
  else
    author ← force_read dec_address (post c) author_key;
    _ ← ensure (account_exists (pre c) author) NoAuthorAccount;
    ensure (bool_decide (author ∈ verifiers)) AuthorMustVerify.

(** *** Counter, commitments, parameters *)

Definition is_valid_counter (c : Ctx) (set_count : Z) : res GovError unit :=
  pre_counter ← force_read dec_u64 (pre c) get_counter_key;
  post_counter ← force_read dec_u64 (post c) get_counter_key;
  expected_counter ← opr 64 (pre_counter + set_count);
  ensure (expected_counter =? post_counter) BadCounter.

Definition is_valid_proposal_commit (c : Ctx) : res GovError unit :=
  pre_counter ← force_read dec_u64 (pre c) get_counter_key;
  post_counter ← force_read dec_u64 (post c) get_counter_key;
  ensure (pre_counter <? post_counter) BadCounter.

Definition is_valid_parameter (c : Ctx) : res GovError unit :=
  match tx_data c with
  | None => Err NoTxData
  | Some data => accepted ← is_proposal_accepted (pre c) data; ensure accepted NotAccepted
  end.

(** *** The whole transaction *)

Definition mandatory_keys (counter : Z) : list Key :=
  [get_counter_key; get_content_key counter; get_author_key counter; get_proposal_type_key counter; get_funds_key counter;
   get_voting_start_epoch_key counter; get_voting_end_epoch_key counter; get_activation_epoch_key counter].

(** [pre_counter..post_counter], and the loop over it. *)
Definition is_valid_init_proposal_key_set (c : Ctx) (keys : list Key) : res GovError (bool * Z) :=
  pre_counter ← force_read dec_u64 (pre c) get_counter_key;
  post_counter ← force_read dec_u64 (post c) get_counter_key;
  if post_counter <? pre_counter then Ok (false, 0)
  else if forallb (λ counter, forallb (λ k, bool_decide (k ∈ keys)) (mandatory_keys counter))
            (seqZ pre_counter (post_counter - pre_counter))
  then Ok (true, post_counter - pre_counter)
  else Ok (false, 0).

(** [Iterator::any], which stops at the first governance key. *)
Fixpoint any_governance_key (keys : list Key) : res GovError bool :=
  match keys with
  | [] => Ok false
  | k :: rest => g ← is_governance_key k; if g : bool then Ok true else any_governance_key rest
  end.

Definition check_action (verifiers : gset Address) (action : Action (A:=A)) : res GovError unit :=
  match action with
  | InitProposal author => ensure (bool_decide (author ∈ verifiers)) (Unauthorized (lit "InitProposal") author)
  | VoteProposal _ voter => ensure (bool_decide (voter ∈ verifiers)) (Unauthorized (lit "VoteProposal") voter)
  | OtherAction => Ok ()
  end.

Definition check_key (c : Ctx) (verifiers : gset Address) (set_count : Z) (key : Key) : res GovError unit :=
  let proposal_id := get_proposal_id key in
  key_type ← from_key key (native_token c);
  match key_type, proposal_id with
  | VOTE, Some proposal_id => is_valid_vote_key c proposal_id key verifiers
  | CONTENT, Some proposal_id => is_valid_content_key c proposal_id
  | TYPE, Some proposal_id => is_valid_proposal_type c proposal_id
  | PROPOSAL_CODE, Some proposal_id => is_valid_proposal_code c proposal_id
  | ACTIVATION_EPOCH, Some proposal_id => is_valid_activation_epoch c proposal_id
  | START_EPOCH, Some proposal_id => is_valid_start_epoch c proposal_id
  | END_EPOCH, Some proposal_id => is_valid_end_epoch c proposal_id
  | FUNDS, Some proposal_id => is_valid_funds c proposal_id (native_token c)
  | AUTHOR, Some proposal_id => is_valid_author c proposal_id verifiers
  | COUNTER, _ => is_valid_counter c set_count
  | PROPOSAL_COMMIT, _ => is_valid_proposal_commit c
  | PARAMETER, _ => is_valid_parameter c
  | BALANCE, _ => is_valid_balance c (native_token c)
  | UNKNOWN, _ => Ok ()
  | _, _ => Err (UnknownKey key)
  end.

Definition validate_tx (c : Ctx) (keys_changed : list Key) (verifiers : gset Address) : res GovError unit :=
  '(is_valid_keys_set, set_count) ← is_valid_init_proposal_key_set c keys_changed;
  if negb is_valid_keys_set then Err InvalidKeySet
  else
    let is_governance_proposal :=
      default false (ok (is_proposal_accepted (pre c) (default [] (tx_data c)))) in
    actions ← ok_or (actions c) StorageError;
    rejected ←
      (if negb is_governance_proposal && bool_decide (actions = [])
       then any_governance_key keys_changed else Ok false);
    if rejected : bool then Err NoAction
    else
      _ ← try_fold (λ _, check_action verifiers) () actions;
      try_fold (λ _, check_key c verifiers set_count) () keys_changed.
End vp.

(** ** Keys *)

Lemma parse_u64_print id : 0 ≤ id < 2 ^ 64 → parse_u64 (print_dec id) = Some id.
Proof.
  intros Hid. destruct (digits_spec id) as (Hv & Hd & Hne); [lia|].
  assert (Hplus : "+"%char ∉ print_dec id) by by apply notin_digits.
  assert (Hp : parse_dec (print_dec id) = Some id) by (unfold print_dec; by rewrite parse_dec_digits, Hv).
  unfold parse_u64. destruct (print_dec id) as [|ch l] eqn:E.
  - exfalso. unfold print_dec in E. by apply fmap_nil_inv in E.
  - destruct (decide (ch = "+"%char)) as [->|]; [set_solver|]. cbn [decide]. rewrite Hp. by apply chk_in.
Qed.

Section keys.
Context {A : AddressApi} {I : InternalAddrs A}.
Abbreviation u64 id := (0 ≤ id < 2 ^ 64) (only parsing).

Lemma is_field_key_field id f g : u64 id → is_field_key f (field_key id g) = bool_decide (g = f).
Proof.
  intros Hid. unfold is_field_key, field_key. cbn [segments]. rewrite parse_u64_print by done.
  rewrite !(bool_decide_eq_true_2 (_ = _)) by done. rewrite (bool_decide_eq_true_2 (is_Some _)) by eauto. by rewrite andb_true_r.
Qed.

Lemma get_proposal_id_field id f : u64 id → get_proposal_id (field_key id f) = Some id.
Proof. apply parse_u64_print. Qed.

Lemma plain_number id : 0 ≤ id → plain_seg (StringSeg (print_dec id)).
Proof.
  intros Hid. destruct (digits_spec id) as (_ & Hd & _); [done|]. split; [by apply notin_digits|].
  intros Hh. assert (RESERVED_ADDRESS_PREFIX ∉ print_dec id) by by apply notin_digits.
  destruct (print_dec id); simplify_eq/=. set_solver.
Qed.

Context {AL : AddressLaws A}.

(** The keys are those the source builds by pushing one segment after the other. *)
Lemma pushes_plain (segs : list DbKeySeg) (k : Key) : Forall plain_seg segs →
  foldl (λ k s, k ← k; must_push k s) (Some k) segs = Some (mk_key (segments k ++ segs)).
Proof using AL.
  intros Hs. revert k. induction Hs as [|s segs Hs _ IH]; intros k; cbn [foldl]; runo.
  - by rewrite app_nil_r; destruct k.
  - rewrite must_push_eq by done. rewrite IH. cbn [segments]. by rewrite <- app_assoc.
Qed.

Lemma field_key_pushed id f : 0 ≤ id → plain_seg (StringSeg f) →
  foldl (λ k s, k ← k; must_push k s) (Some (mk_key [AddressSeg gov])) [StringSeg proposal; StringSeg (print_dec id); StringSeg f]
  = Some (field_key id f).
Proof using AL. intros. rewrite pushes_plain; [done|]. repeat apply Forall_cons_2; try done; [by apply plain_lit|by apply plain_number]. Qed.

Lemma vote_key_pushed id voter validator : 0 ≤ id →
  foldl (λ k s, k ← k; must_push k s) (Some (mk_key [AddressSeg gov]))
    [StringSeg proposal; StringSeg (print_dec id); StringSeg vote; AddressSeg validator; AddressSeg voter]
  = Some (get_vote_proposal_key id voter validator).
Proof using AL.
  intros. rewrite pushes_plain; [done|]. repeat apply Forall_cons_2; try done; [by apply plain_lit|by apply plain_number|by apply plain_lit].
Qed.
End keys.

(** ** What acceptance means *)

Section accepted.
Context {A : AddressApi} {I : InternalAddrs A} {C : GovCodec A}.
Abbreviation u64 id := (0 ≤ id < 2 ^ 64) (only parsing).

(** The value a key has. *)
Definition holds {T} (dec : bytes → option T) (s : gmap Key bytes) (key : Key) (v : T) : Prop := s !! key ≫= dec = Some v.

Lemma force_read_ok {T} (dec : bytes → option T) s key v : force_read dec s key = Ok v ↔ holds dec s key v.
Proof.
  unfold force_read, read_store, holds. destruct (s !! key) as [b|]; cbn; [|split; discriminate].
  destruct (dec b); cbn; split; congruence.
Qed.

Lemma read_store_ok {T} (dec : bytes → option T) s key v :
  read_store dec s key = Ok v → (s !! key = None ∧ v = None) ∨ ∃ x, v = Some x ∧ holds dec s key x.
Proof.
  unfold read_store, holds. destruct (s !! key) as [b|]; cbn; [|intros [=<-]; auto].
  destruct (dec b) eqn:E; intros [=<-]. right. eauto.
Qed.

Lemma ensure_ok b e u : ensure b e = Ok u → b = true.
Proof. by destruct b. Qed.

Lemma has_key_false s key : has_key s key = false → s !! key = None.
Proof. unfold has_key. intros H%bool_decide_eq_false. by apply eq_None_not_Some. Qed.

Lemma try_fold_all {E B} (f : B → res E unit) l u : try_fold (λ _, f) () l = Ok u ↔ ∀ x, x ∈ l → f x = Ok ().
Proof.
  destruct u. induction l as [|x l IH]; cbn [try_fold].
  - split; [intros _ x Hx; by apply elem_of_nil in Hx|done].
  - split.
    + intros H y [->|Hy]%elem_of_cons; apply res_bind_ok in H as ([] & H1 & H2); [done|]. by apply IH.
    + intros H. rewrite (H x) by constructor. cbn. apply IH. intros y Hy. apply H. by constructor.
Qed.

Definition counters (c : Ctx) (n m : Z) : Prop := holds dec_u64 (pre c) get_counter_key n ∧ holds dec_u64 (post c) get_counter_key m.

Record accepted (c : Ctx) (keys : list Key) (verifiers : gset Address) (n m : Z) : Prop := {
  acc_counters : counters c n m;
  acc_le : n ≤ m;
  acc_mandatory id k : n ≤ id < m → k ∈ mandatory_keys id → k ∈ keys;
  acc_keys k : k ∈ keys → check_key c verifiers (m - n) k = Ok ();
}.

Lemma init_key_set_ok c keys b count : is_valid_init_proposal_key_set c keys = Ok (b, count) → b = true →
  ∃ n m, counters c n m ∧ n ≤ m ∧ count = m - n ∧ (∀ id k, n ≤ id < m → k ∈ mandatory_keys id → k ∈ keys).
Proof.
  unfold is_valid_init_proposal_key_set. intros H ->. res_inv H. apply force_read_ok in Hres, Hres0.
  destruct (v0 <? v) eqn:E1; [done|]. destruct (forallb _ _) eqn:E2; [|done]. injection H as <-.
  exists v, v0. boolp. split; [done|]. split; [lia|]. split; [done|]. intros id k Hid Hk.
  rewrite forallb_forall in E2. specialize (E2 id). rewrite forallb_forall in E2.
  eapply bool_decide_eq_true_1, E2; [|by apply list_elem_of_In]. apply list_elem_of_In, elem_of_seqZ. lia.
Qed.

Lemma validate_tx_ok c keys verifiers u : validate_tx c keys verifiers = Ok u → ∃ n m, accepted c keys verifiers n m.
Proof.
  unfold validate_tx. intros H. apply res_bind_ok in H as ([b count] & Hset & H).
  destruct b; [|done]. apply init_key_set_ok in Hset as (n & m & ? & ? & -> & ?); [|done]. cbn [negb] in H.
  res_inv H. destruct v0; [done|]. res_inv H.
  exists n, m. split; try done. rewrite try_fold_all in H. done.
Qed.
End accepted.

(** ** The checks of the fields *)

Section fields.
Context {A : AddressApi} {I : InternalAddrs A} {C : GovCodec A}.
Abbreviation u64 id := (0 ≤ id < 2 ^ 64) (only parsing).

Definition field_kind (f : text) : KeyType :=
  if decide (f = content) then CONTENT else if decide (f = proposal_type) then TYPE
  else if decide (f = proposal_code) then PROPOSAL_CODE else if decide (f = activation_epoch) then ACTIVATION_EPOCH
  else if decide (f = start_epoch) then START_EPOCH else if decide (f = end_epoch) then END_EPOCH
  else if decide (f = funds) then FUNDS else if decide (f = author) then AUTHOR else UNKNOWN_GOVERNANCE.

Lemma from_key_field id f nt : u64 id → from_key (field_key id f) nt = Ok (field_kind f).
Proof.
  intros Hid. unfold from_key, is_content_key, is_proposal_type_key, is_proposal_code_key, is_activation_epoch_key,
    is_start_epoch_key, is_end_epoch_key, GovKeys.is_balance_key, is_author_key.
  rewrite !is_field_key_field by done. unfold field_kind.
  change (is_vote_key _) with false. change (is_commit_proposal_key _) with false.
  repeat (case_bool_decide; destruct (decide _); try done).
  unfold is_governance_key, field_key; cbn. rewrite bool_decide_eq_true_2 by done. done.
Qed.

Lemma check_key_field c verifiers n id f : u64 id →
  check_key c verifiers n (field_key id f) =
  match field_kind f with
  | CONTENT => is_valid_content_key c id
  | TYPE => is_valid_proposal_type c id
  | PROPOSAL_CODE => is_valid_proposal_code c id
  | ACTIVATION_EPOCH => is_valid_activation_epoch c id
  | START_EPOCH => is_valid_start_epoch c id
  | END_EPOCH => is_valid_end_epoch c id
  | FUNDS => is_valid_funds c id (native_token c)
  | AUTHOR => is_valid_author c id verifiers
  | _ => Err (UnknownKey (field_key id f))
  end.
Proof.
  intros Hid. unfold check_key. rewrite from_key_field by done. cbn [mbind]. rewrite get_proposal_id_field by done.
  unfold field_kind. by repeat destruct (decide _).
Qed.

(** Fields that are written once. *)
Definition fixed_fields : list text := [content; author; start_epoch; end_epoch; activation_epoch; proposal_code].

Lemma check_field_fresh c verifiers n id f u : u64 id → f ∈ fixed_fields →
  check_key c verifiers n (field_key id f) = Ok u → pre c !! field_key id f = None.
Proof.
  intros Hid Hf. rewrite check_key_field by done. intros H. apply has_key_false.
  unfold fixed_fields in Hf. rewrite !elem_of_cons, elem_of_nil in Hf.
  destruct Hf as [->|[->|[->|[->|[->|[->|[]]]]]]]; revert H;
    [change (field_kind _) with CONTENT|change (field_kind _) with AUTHOR|change (field_kind _) with START_EPOCH
    |change (field_kind _) with END_EPOCH|change (field_kind _) with ACTIVATION_EPOCH|change (field_kind _) with PROPOSAL_CODE];
    cbv beta iota.
  all: unfold is_valid_content_key, is_valid_author, is_valid_start_epoch, is_valid_end_epoch, is_valid_activation_epoch, is_valid_proposal_code.
  all: intros H; repeat case_res; try done.
  res_inv H. repeat case_res; done.
Qed.

(** The epochs of a new proposal. *)
Record valid_epochs (c : Ctx) (id : Z) (start end_ activation : Epoch) : Prop := {
  ve_latency : ∃ latency, holds dec_u64 (pre c) get_max_proposal_latency_key latency ∧ block_epoch c < start ≤ block_epoch c + latency;
  ve_period : ∃ min_period max_period, holds dec_u64 (pre c) get_min_proposal_voting_period_key min_period ∧
    holds dec_u64 (pre c) get_max_proposal_period_key max_period ∧
    min_period ≤ end_ - start ≤ max_period ∧ activation - start ≤ max_period ∧ (end_ - start) mod min_period = 0;
  ve_order : start < end_ < activation;
  ve_grace : ∃ grace, holds dec_u64 (pre c) get_min_proposal_grace_epochs_key grace ∧ end_ + grace ≤ activation;
  ve_committed : is_Some (post c !! get_committing_proposals_key id activation);
}.

Lemma holds_det {T} (dec : bytes → option T) s key x y : holds dec s key x → holds dec s key y → x = y.
Proof. unfold holds. congruence. Qed.

Lemma period_rem_ok start end_ min_period r : period_rem start end_ min_period = Ok r → r = (end_ - start) mod min_period.
Proof.
  unfold period_rem, EpochM.checked_sub, EpochM.checked_rem. intros H. res_inv H. apply chk_Some in Hres as [-> _].
  by destruct (min_period =? 0); simplify_eq.
Qed.

Lemma start_epoch_ok c id u : is_valid_start_epoch c id = Ok u → ∃ start end_ latency,
  holds dec_u64 (post c) (get_voting_start_epoch_key id) start ∧ holds dec_u64 (post c) (get_voting_end_epoch_key id) end_ ∧
  holds dec_u64 (pre c) get_max_proposal_latency_key latency ∧ block_epoch c < start ≤ block_epoch c + latency.
Proof.
  unfold is_valid_start_epoch. intros H. do 2 case_res. res_inv H. do 2 case_res. res_inv H. case_res.
  rewrite force_read_ok in *. unfold opr in *. case_res. boolp. eauto 10 with lia.
Qed.

Lemma end_epoch_ok c id u : is_valid_end_epoch c id = Ok u → ∃ start end_ min_period max_period,
  holds dec_u64 (post c) (get_voting_start_epoch_key id) start ∧ holds dec_u64 (post c) (get_voting_end_epoch_key id) end_ ∧
  holds dec_u64 (pre c) get_min_proposal_voting_period_key min_period ∧
  holds dec_u64 (pre c) get_max_proposal_period_key max_period ∧
  start < end_ ∧ min_period ≤ end_ - start ≤ max_period ∧ (end_ - start) mod min_period = 0.
Proof.
  unfold is_valid_end_epoch. intros H. do 2 case_res. res_inv H. case_res. res_inv H. case_res. res_inv H.
  rewrite force_read_ok in *. match goal with H : period_rem _ _ _ = _ |- _ => apply period_rem_ok in H as -> end.
  apply ensure_ok in H. unfold EpochM.checked_sub in *.
  match goal with H : chk _ _ = Some _ |- _ => apply chk_Some in H as [-> _] end.
  boolp. eauto 15 with lia.
Qed.

Lemma activation_epoch_ok c id u : is_valid_activation_epoch c id = Ok u → ∃ start end_ activation grace max_period,
  holds dec_u64 (post c) (get_voting_start_epoch_key id) start ∧ holds dec_u64 (post c) (get_voting_end_epoch_key id) end_ ∧
  holds dec_u64 (post c) (get_activation_epoch_key id) activation ∧
  holds dec_u64 (pre c) get_min_proposal_grace_epochs_key grace ∧ holds dec_u64 (pre c) get_max_proposal_period_key max_period ∧
  end_ < activation ∧ end_ + grace ≤ activation ∧ activation - start ≤ max_period ∧
  is_Some (post c !! get_committing_proposals_key id activation).
Proof.
  unfold is_valid_activation_epoch, EpochM.checked_sub, opr. intros H. case_res. res_inv H. case_res.
  rewrite force_read_ok in *. apply res_bind_ok in H as ([] & Hb & H); [cbn [negb] in H|done].
  apply res_bind_ok in H as ([] & Hb' & H); [|done]. destruct (_ <? _) eqn:E1 in Hb; [|done]. destruct (_ <? _) eqn:E2 in Hb'; [|done].
  res_inv Hb. res_inv Hb'. destruct (in_u _ _) in *; simplify_eq.
  match goal with H : chk _ _ = Some _ |- _ => apply chk_Some in H as [-> _] end.
  match goal with H : negb (has_key _ _) = false |- _ => apply negb_false_iff, bool_decide_eq_true_1 in H end.
  boolp. do 5 eexists. do 5 (split; [eassumption|]). by repeat (split; [lia|]).
Qed.

(** What a transaction that starts a proposal has written. *)
Record new_proposal (c : Ctx) (verifiers : gset Address) (id : Z) : Prop := {
  np_content : pre c !! get_content_key id = None ∧ ∃ max_length,
    holds dec_u64 (pre c) get_max_proposal_content_key max_length ∧
    Z.of_nat (length (default [] (post c !! get_content_key id))) ≤ max_length;
  np_author : pre c !! get_author_key id = None ∧ ∃ author,
    holds dec_address (post c) (get_author_key id) author ∧ account_exists (pre c) author = true ∧ author ∈ verifiers;
  np_epochs : ∃ start end_ activation,
    holds dec_u64 (post c) (get_voting_start_epoch_key id) start ∧ holds dec_u64 (post c) (get_voting_end_epoch_key id) end_ ∧
    holds dec_u64 (post c) (get_activation_epoch_key id) activation ∧ valid_epochs c id start end_ activation;
  np_type : ∃ t, holds dec_type (post c) (get_proposal_type_key id) t;
  np_funds : ∃ key min_funds funds balance, balance_key (native_token c) gov = Some key ∧
    holds dec_amount (pre c) get_min_proposal_fund_key min_funds ∧
    holds dec_amount (post c) (get_funds_key id) funds ∧ holds dec_amount (post c) key balance ∧
    min_funds ≤ funds ∧ balance - default 0 (pre c !! key ≫= dec_amount) = funds;
}.

Lemma funds_ok c id u : is_valid_funds c id (native_token c) = Ok u → ∃ key min_funds funds balance,
  balance_key (native_token c) gov = Some key ∧ holds dec_amount (pre c) get_min_proposal_fund_key min_funds ∧
  holds dec_amount (post c) (get_funds_key id) funds ∧ holds dec_amount (post c) key balance ∧
  min_funds ≤ funds ∧ balance - default 0 (pre c !! key ≫= dec_amount) = funds.
Proof.
  unfold is_valid_funds. intros H. res_inv H. rewrite force_read_ok in *.
  exists v, v0, v3, v2. do 4 (split; [done|]).
  apply read_store_ok in Hres1 as [[Hn ->]|(x & -> & Hx)]; apply res_bind_ok in H as ([] & H1%ensure_ok & H); boolp; (split; [done|]).
  - apply ensure_ok in H. boolp. rewrite Hn. cbn. lia.
  - unfold holds in Hx. rewrite Hx. cbn. apply res_bind_ok in H as (b & Hb & ->%ensure_ok).
    destruct (_ <=? _) in Hb; [|done]. res_inv Hb. unfold ZAmount.sub in *. apply chk_Some in Hres1 as [-> _]. boolp. lia.
Qed.

Lemma author_ok c verifiers id u : is_valid_author c id verifiers = Ok u → pre c !! get_author_key id = None ∧ ∃ author,
  holds dec_address (post c) (get_author_key id) author ∧ account_exists (pre c) author = true ∧ author ∈ verifiers.
Proof.
  unfold is_valid_author. intros H. case_res. split; [by apply has_key_false|]. res_inv H. rewrite force_read_ok in *.
  apply ensure_ok in Hres0, H. exists v. by apply bool_decide_eq_true_1 in H.
Qed.

Lemma content_ok c id u : is_valid_content_key c id = Ok u → pre c !! get_content_key id = None ∧ ∃ max_length,
  holds dec_u64 (pre c) get_max_proposal_content_key max_length ∧
  Z.of_nat (length (default [] (post c !! get_content_key id))) ≤ max_length.
Proof.
  unfold is_valid_content_key. intros H. case_res. split; [by apply has_key_false|]. res_inv H. rewrite force_read_ok in *.
  case_res. boolp. eauto.
Qed.

Lemma accepted_epochs c id u1 u2 u3 : is_valid_start_epoch c id = Ok u1 → is_valid_end_epoch c id = Ok u2 →
  is_valid_activation_epoch c id = Ok u3 → ∃ start end_ activation,
  holds dec_u64 (post c) (get_voting_start_epoch_key id) start ∧ holds dec_u64 (post c) (get_voting_end_epoch_key id) end_ ∧
  holds dec_u64 (post c) (get_activation_epoch_key id) activation ∧ valid_epochs c id start end_ activation.
Proof.
  intros (s & e & lat & Hs & He & ? & ?)%start_epoch_ok (s' & e' & mn & mx & Hs' & He' & ? & Hmx & ? & ? & ?)%end_epoch_ok
    (s2 & e2 & a & g & mx' & Hs2 & He2 & ? & ? & Hmx' & ?)%activation_epoch_ok.
  assert (s' = s) as -> by by eapply holds_det. assert (s2 = s) as -> by by eapply holds_det.
  assert (e' = e) as -> by by eapply holds_det. assert (e2 = e) as -> by by eapply holds_det.
  assert (mx' = mx) as -> by by eapply holds_det.
  exists s, e, a. do 3 (split; [done|]). destruct_and!. split; eauto 10 with lia.
Qed.

Lemma accepted_new_proposal c keys verifiers n m id : accepted c keys verifiers n m → u64 id → n ≤ id < m → new_proposal c verifiers id.
Proof.
  intros Hacc Hid Hin.
  assert (Hf : ∀ f, field_key id f ∈ mandatory_keys id → check_key c verifiers (m - n) (field_key id f) = Ok ()).
  { intros f Hf. eapply acc_keys; [done|]. by eapply acc_mandatory. }
  setoid_rewrite check_key_field in Hf; [|done]. split.
  - by eapply content_ok, (Hf content); set_solver.
  - by eapply author_ok, (Hf author); set_solver.
  - eapply accepted_epochs; [apply (Hf start_epoch)|apply (Hf end_epoch)|apply (Hf activation_epoch)]; set_solver.
  - specialize (Hf proposal_type). change (field_kind _) with TYPE in Hf. unfold is_valid_proposal_type in Hf.
    apply res_bind_ok in Hf as (t & Ht%force_read_ok & _); [eauto|set_solver].
  - by eapply funds_ok, (Hf funds); set_solver.
Qed.
End fields.

(** ** Properties *)

Section properties.
Context {A : AddressApi} {I : InternalAddrs A} {C : GovCodec A}.
Abbreviation u64 id := (0 ≤ id < 2 ^ 64) (only parsing).
(** The keys that changed are among those the predicate is given. *)
Abbreviation changes_in c keys := (∀ k, pre c !! k ≠ post c !! k → k ∈ keys) (only parsing).

Lemma check_vote_key c verifiers n k : is_vote_key k = true → check_key c verifiers n k = Ok () →
  ∃ id, get_proposal_id k = Some id ∧ is_valid_vote_key c id k verifiers = Ok ().
Proof. unfold check_key, from_key. intros ->. cbn. destruct (get_proposal_id k) as [id|]; [|done]. eauto. Qed.

Lemma validator_period_ok current start end_ : is_valid_validator_voting_period current start end_ = true →
  3 * current ≤ start + 2 * end_.
Proof.
  unfold is_valid_validator_voting_period, EpochM.checked_mul, EpochM.checked_add. case_res; [done|].
  destruct (chk 64 (current * 3)) as [x|] eqn:E1; cbn; [|done]. destruct (chk 64 (end_ * 2)) as [y|] eqn:E2; cbn; [|done].
  destruct (chk 64 (start + y)) as [z|] eqn:E3; cbn; [|done]. rewrite chk_Some in *. intros. boolp. lia.
Qed.

(** C10. An accepted vote is for a proposal that existed, is cast in its voting
    window, is stored as a vote, and was authorised by the voter, who either is a validator
    voting for itself in the first two thirds of the window or delegated at its start. *)
Theorem accepted_votes_authorised c keys verifiers k :
  validate_tx c keys verifiers = Ok () → k ∈ keys → is_vote_key k = true →
  ∃ id voter validator n start end_ v,
    get_proposal_id k = Some id ∧ get_voter_address k = Some voter ∧ get_vote_delegation_address k = Some validator ∧
    holds dec_u64 (pre c) get_counter_key n ∧ id < n ∧
    holds dec_u64 (pre c) (get_voting_start_epoch_key id) start ∧ holds dec_u64 (pre c) (get_voting_end_epoch_key id) end_ ∧
    start ≤ block_epoch c ≤ end_ ∧
    holds dec_vote (post c) (get_vote_proposal_key id voter validator) v ∧ voter ∈ verifiers ∧
    (voter = validator ∧ pos_is_validator c voter = Some true ∧ 3 * block_epoch c ≤ start + 2 * end_
     ∨ voter ≠ validator ∧ pos_is_delegator c voter start = Some true).
Proof.
  intros (n & m & Hacc)%validate_tx_ok Hk Hv. apply (acc_keys _ _ _ _ _ Hacc), check_vote_key in Hk as (id & Hid & H); [|done].
  unfold is_valid_vote_key in H. res_inv H. rewrite force_read_ok in *. destruct (_ <=? _) eqn:Hlt; [done|].
  destruct (force_read _ _ _) as [x| |] eqn:Hx; [|done..]. apply force_read_ok in Hx.
  destruct (is_valid_voting_window _ _ _ _) eqn:Hw; [cbn [negb] in H|done]. cbn in Hw. boolp.
  exists id, v2, v3, v, v0, v1, x. do 4 (split; [done|]). split; [lia|]. do 2 (split; [done|]). split; [lia|]. split; [done|].
  apply res_bind_ok in H as (b & Hb & H). unfold is_validator in Hb. case_bool_decide as Heq; cbn [negb] in Hb.
  - apply res_bind_ok in Hb as (b' & Hb'%ok_or_ok & [= <-]).
    destruct b', (bool_decide (v2 ∈ verifiers)) eqn:Hin; cbn in H; unfold is_delegator in H;
      rewrite ?Hin, ?(bool_decide_eq_true_2 _ Heq) in H; cbn in H; try done.
    apply ensure_ok, validator_period_ok in H. apply bool_decide_eq_true_1 in Hin. auto.
  - injection Hb as <-. unfold is_delegator in H. rewrite (bool_decide_eq_false_2 _ Heq) in H. case_bool_decide; cbn in H; [|done].
    apply res_bind_ok in H as ([] & Hd%ok_or_ok & H); [|done]. auto.
Qed.

Lemma is_gov_key_eq f k : is_gov_key f k = true → k = gov_key f.
Proof.
  unfold is_gov_key, gov_key. destruct k as [[|[a|s] [|[|name] []]]]; cbn; try done.
  intros [->%bool_decide_eq_true_1 ->%bool_decide_eq_true_1]%andb_true_iff. done.
Qed.

Definition parameter_names : list text := [min_fund; max_content; max_code_size; min_period; max_period; min_grace_epochs].

Lemma parameter_key_named k : is_parameter_key k = true → ∃ f, f ∈ parameter_names ∧ k = gov_key f.
Proof.
  unfold is_parameter_key, parameter_names. rewrite !orb_true_iff.
  intros [[[[[H|H]|H]|H]|H]|H]; apply is_gov_key_eq in H as ->; eexists; (split; [|done]); set_solver.
Qed.

(** The kind of a key right under the governance address. *)
Ltac gov_kind :=
  unfold from_key, is_parameter_key, is_counter_key, is_min_proposal_fund_key, is_max_content_size_key,
    is_max_proposal_code_size_key, is_min_proposal_voting_period_key, is_max_proposal_period_key, is_min_grace_epochs_key,
    is_gov_key, is_governance_key, get_max_proposal_latency_key, gov_key; cbn;
  rewrite (bool_decide_eq_true_2 (gov = gov)) by done.

Lemma from_latency_key nt : from_key get_max_proposal_latency_key nt = Ok UNKNOWN_GOVERNANCE.
Proof. by gov_kind. Qed.

Lemma from_parameter_key f nt : f ∈ parameter_names → from_key (gov_key f) nt = Ok PARAMETER.
Proof.
  unfold parameter_names. rewrite !elem_of_cons, elem_of_nil. intros Hf.
  gov_kind.
  by destruct Hf as [->|[->|[->|[->|[->|[->|[]]]]]]].
Qed.

Lemma check_parameter c verifiers n k : is_parameter_key k = true → check_key c verifiers n k = is_valid_parameter c.
Proof. intros (f & Hf & ->)%parameter_key_named. unfold check_key. rewrite from_parameter_key by done. done. Qed.

(** C16. An accepted transaction leaves the content, author, epochs and code of
    every existing proposal as they are, changes parameters only while an accepted
    proposal is executed, never changes the maximum latency, not even then, and never decreases the
    counter of proposals. *)
Theorem proposals_fixed c keys verifiers :
  validate_tx c keys verifiers = Ok () → changes_in c keys →
  (∀ id f v, u64 id → f ∈ fixed_fields → pre c !! field_key id f = Some v → post c !! field_key id f = Some v) ∧
  (∀ k, is_parameter_key k = true → pre c !! k ≠ post c !! k →
     ∃ data, tx_data c = Some data ∧ is_proposal_accepted (pre c) data = Ok true) ∧
  post c !! get_max_proposal_latency_key = pre c !! get_max_proposal_latency_key ∧
  (∃ n m, counters c n m ∧ n ≤ m).
Proof.
  intros (n & m & Hacc)%validate_tx_ok Hch.
  assert (Hok : ∀ k, pre c !! k ≠ post c !! k → check_key c verifiers (m - n) k = Ok ()) by (intros; eapply acc_keys; eauto).
  split_and!.
  - intros id f v Hid Hf Hv. destruct (decide (pre c !! field_key id f = post c !! field_key id f)) as [<-|Hne]; [done|].
    apply Hok, check_field_fresh in Hne; [congruence|done..].
  - intros k Hk Hne. apply Hok in Hne. rewrite check_parameter in Hne by done. unfold is_valid_parameter in Hne.
    destruct (tx_data c) as [data|]; [|done]. apply res_bind_ok in Hne as (b & Hb & ->%ensure_ok). eauto.
  - destruct (decide (pre c !! get_max_proposal_latency_key = post c !! get_max_proposal_latency_key)) as [|Hne]; [done|].
    apply Hok in Hne. unfold check_key in Hne. by rewrite from_latency_key in Hne.
  - exists n, m. split; [apply (acc_counters _ _ _ _ _ Hacc)|apply (acc_le _ _ _ _ _ Hacc)].
Qed.

(** C15. Every proposal an accepted transaction starts has a content of bounded
    length, an existing author who authorised it, epochs in order and within the
    parameters, a type, and funds of at least the minimum that are what the governance
    account received.  Two proposals of one transaction are thus both funded by the same
    deposit. *)
Theorem new_proposals_valid c keys verifiers :
  validate_tx c keys verifiers = Ok () →
  ∃ n m, counters c n m ∧ n ≤ m ∧ ∀ id, u64 id → n ≤ id < m → new_proposal c verifiers id.
Proof.
  intros (n & m & Hacc)%validate_tx_ok. exists n, m. split; [apply (acc_counters _ _ _ _ _ Hacc)|].
  split; [apply (acc_le _ _ _ _ _ Hacc)|]. intros. by eapply accepted_new_proposal.
Qed.

Lemma accept_one c verifiers n key : counters c n n → actions c = Some [OtherAction] → check_key c verifiers 0 key = Ok () →
  validate_tx c [key] verifiers = Ok ().
Proof.
  intros [Hn Hm] Ha Hk. unfold validate_tx. generalize dependent (check_key c verifiers). intros f Hk. unfold  is_valid_init_proposal_key_set. rewrite <- force_read_ok in Hn, Hm. rewrite Hn, Hm, Ha.
  cbn. rewrite Z.ltb_irrefl, Z.sub_diag. change (seqZ n 0) with (@nil Z). cbn. rewrite andb_false_r. cbn. by rewrite Hk.
Qed.

Lemma holds_insert {T} (dec : bytes → option T) s k k' b v : k ≠ k' → holds dec s k v → holds dec (<[k' := b]> s) k v.
Proof. unfold holds. intros. by rewrite lookup_insert_ne. Qed.

(** Whoever runs a transaction can write the content of the next proposal without
    starting it, as long as some action is recorded; the content stays, and from then on
    no transaction that starts a proposal is accepted. *)
Theorem content_squatting_blocks_proposals c verifiers n b max_length :
  u64 n → holds dec_u64 (pre c) get_counter_key n → holds dec_u64 (pre c) get_max_proposal_content_key max_length →
  pre c !! get_content_key n = None → Z.of_nat (length b) ≤ max_length →
  post c = <[get_content_key n := b]> (pre c) → actions c = Some [OtherAction] →
  validate_tx c [get_content_key n] verifiers = Ok () ∧
  ∀ c' keys verifiers', holds dec_u64 (pre c') get_counter_key n → pre c' !! get_content_key n = Some b →
    changes_in c' keys → validate_tx c' keys verifiers' = Ok () →
    counters c' n n ∧ post c' !! get_content_key n = Some b.
Proof.
  intros Hn Hcnt Hmax Hfresh Hlen Hpost Hact. split.
  - apply accept_one with n; [split; [done|]|done|].
    + rewrite Hpost. by apply holds_insert.
    + unfold get_content_key. rewrite check_key_field by done. change (field_kind _) with CONTENT. cbv iota.
      unfold is_valid_content_key. apply force_read_ok in Hmax. unfold has_key. rewrite Hfresh. cbn [is_Some bool_decide].
      rewrite (bool_decide_eq_false_2 (is_Some _)) by by intros []. rewrite Hmax. cbn [mbind res_bind].
      rewrite Hpost, lookup_insert. rewrite decide_True by done. cbn [default]. by rewrite (proj2 (Z.leb_le _ _)).
  - intros c' keys vs Hcnt' Hb Hch Hv. apply validate_tx_ok in Hv as (n' & m & Hacc).
    destruct (acc_counters _ _ _ _ _ Hacc) as [Hn' Hm]. assert (n' = n) as -> by by eapply holds_det.
    pose proof (acc_le _ _ _ _ _ Hacc) as Hle. split.
    + destruct (decide (n = m)) as [<-|Hne]; [by split|].
      destruct (accepted_new_proposal _ _ _ _ _ n Hacc) as [[Hnone _] _ _ _ _]; [done|lia|congruence].
    + destruct (decide (pre c' !! get_content_key n = post c' !! get_content_key n)) as [<-|Hne]; [done|].
      apply Hch, (acc_keys _ _ _ _ _ Hacc), check_field_fresh in Hne; [unfold get_content_key in Hb; congruence|done|].
      unfold fixed_fields. set_solver.
Qed.

(** C26. Whoever runs a transaction can replace the type of any proposal by payments
    that are in themselves valid, in any epoch, with the authorisation of nobody, as long as
    some action is recorded. *)
Theorem proposal_type_can_be_replaced c verifiers n id b fundings :
  u64 id → holds dec_u64 (pre c) get_counter_key n → actions c = Some [OtherAction] →
  post c = <[get_proposal_type_key id := b]> (pre c) → dec_type b = Some (PGFPayment fundings) →
  is_valid_fundings fundings = Ok () → validate_tx c [get_proposal_type_key id] verifiers = Ok ().
Proof.
  intros Hid Hcnt Hact Hpost Hb Hf. apply accept_one with n; [split; [done|]|done|].
  - rewrite Hpost. by apply holds_insert.
  - unfold get_proposal_type_key in *. rewrite check_key_field by done. change (field_kind _) with TYPE. cbv iota.
    unfold is_valid_proposal_type. rewrite (proj2 (force_read_ok _ _ _ (PGFPayment fundings))); [done|].
    unfold holds, get_proposal_type_key. by rewrite Hpost, lookup_insert, decide_True by done.
Qed.
End properties.

(** ** Examples *)

(** A codec for evaluation: numbers in decimal. *)
#[export] Instance gov_codec_ref : GovCodec addr_ref := {
  dec_u64 := parse_u64;
  dec_amount s := n ← parse_dec s; chk 256 n;
  dec_address := addr_decode;
  dec_type s := if decide (s = lit "pay") then Some (PGFPayment [Retro (PGFInternal 9%N 5)]) else Some Default;
  dec_vote s := if decide (s = lit "yay") then Some Yay else Some Nay;
  dec_vec := Some;
  to_lowercase s := s;
  address_kind _ := Implicit;
}.

Section examples.
#[local] Existing Instance gov_codec_ref.
Abbreviation num := print_dec.

Definition example_parameters : list (Key * bytes) :=
  [(get_max_proposal_content_key, num 100); (get_max_proposal_latency_key, num 10); (get_min_proposal_voting_period_key, num 3);
   (get_max_proposal_period_key, num 20); (get_min_proposal_grace_epochs_key, num 2); (get_min_proposal_fund_key, num 500)].
Definition example_proposal : list (Key * bytes) :=
  [(get_counter_key, num 1); (get_content_key 0, lit "text"); (get_author_key 0, num 9); (get_proposal_type_key 0, lit "default");
   (get_funds_key 0, num 500); (get_voting_start_epoch_key 0, num 3); (get_voting_end_epoch_key 0, num 6);
   (get_activation_epoch_key 0, num 9); (get_committing_proposals_key 0 9, []); (bkey 8%N gov, num 500)].
Definition example_before : gmap Key bytes := list_to_map ((get_counter_key, num 0) :: example_parameters).
Definition example_after : gmap Key bytes := list_to_map (example_proposal ++ example_parameters).

Definition example_ctx (before after : gmap Key bytes) (epoch : Epoch) (action : Action) : Ctx :=
  mk_ctx before after epoch 8%N (Some [action]) None (λ a, Some (bool_decide (a = 11%N))) (λ a _, Some (bool_decide (a = 10%N))).

Definition example_init : Ctx := example_ctx example_before example_after 1 (InitProposal 9%N).
Definition example_vote_key : Key := get_vote_proposal_key 0 10%N 11%N.
Definition example_voting : Ctx :=
  example_ctx example_after (<[example_vote_key := lit "yay"]> example_after) 4 (VoteProposal 0 10%N).
Definition example_squat : Ctx :=
  example_ctx example_after (<[get_content_key 1 := lit "mine"]> example_after) 4 OtherAction.
Definition example_replace : Ctx :=
  example_ctx example_after (<[get_proposal_type_key 0 := lit "pay"]> example_after) 7 OtherAction.

Lemma new_proposals_valid_witness : ∃ n m, counters example_init n m ∧ n ≤ m ∧
  ∀ id, 0 ≤ id < 2 ^ 64 → n ≤ id < m → new_proposal example_init {[9%N]} id.
Proof. apply (new_proposals_valid example_init example_proposal.*1 {[9%N]}). by vm_compute. Defined.

Lemma accepted_votes_authorised_witness : ∃ id voter validator n start end_ v,
  get_proposal_id example_vote_key = Some id ∧ get_voter_address example_vote_key = Some voter ∧
  get_vote_delegation_address example_vote_key = Some validator ∧
  holds dec_u64 (pre example_voting) get_counter_key n ∧ id < n ∧
  holds dec_u64 (pre example_voting) (get_voting_start_epoch_key id) start ∧
  holds dec_u64 (pre example_voting) (get_voting_end_epoch_key id) end_ ∧ start ≤ 4 ≤ end_ ∧
  holds dec_vote (post example_voting) (get_vote_proposal_key id voter validator) v ∧ voter ∈ ({[10%N]} : gset N) ∧
  (voter = validator ∧ pos_is_validator example_voting voter = Some true ∧ 3 * 4 ≤ start + 2 * end_
   ∨ voter ≠ validator ∧ pos_is_delegator example_voting voter start = Some true).
Proof.
  apply (accepted_votes_authorised example_voting [example_vote_key] {[10%N]} example_vote_key); [by vm_compute|by left|by vm_compute].
Defined.

Lemma insert_changes (s : gmap Key bytes) k b k' : s !! k' ≠ <[k := b]> s !! k' → k' ∈ [k].
Proof. intros H. destruct (decide (k' = k)) as [->|]; [by left|]. by rewrite lookup_insert_ne in H. Qed.

Lemma proposals_fixed_witness :
  (∀ id f v, 0 ≤ id < 2 ^ 64 → f ∈ fixed_fields → pre example_voting !! field_key id f = Some v →
     post example_voting !! field_key id f = Some v) ∧
  (∀ k, is_parameter_key k = true → pre example_voting !! k ≠ post example_voting !! k →
     ∃ data, tx_data example_voting = Some data ∧ is_proposal_accepted (pre example_voting) data = Ok true) ∧
  post example_voting !! get_max_proposal_latency_key = pre example_voting !! get_max_proposal_latency_key ∧
  (∃ n m, counters example_voting n m ∧ n ≤ m).
Proof.
  apply (proposals_fixed example_voting [example_vote_key] {[10%N]}); [by vm_compute|]. intros k. apply insert_changes.
Defined.

Lemma content_squatting_witness :
  validate_tx example_squat [get_content_key 1] ∅ = Ok () ∧
  ∀ c' keys verifiers', holds dec_u64 (pre c') get_counter_key 1 → pre c' !! get_content_key 1 = Some (lit "mine") →
    (∀ k, pre c' !! k ≠ post c' !! k → k ∈ keys) → validate_tx c' keys verifiers' = Ok () →
    counters c' 1 1 ∧ post c' !! get_content_key 1 = Some (lit "mine").
Proof.
  apply (content_squatting_blocks_proposals example_squat ∅ 1 (lit "mine") 100); try done; by vm_compute.
Defined.

Lemma proposal_type_can_be_replaced_witness : validate_tx example_replace [get_proposal_type_key 0] ∅ = Ok ().
Proof.
  apply (proposal_type_can_be_replaced example_replace ∅ 1 0 (lit "pay") [Retro (PGFInternal (A:=addr_ref) 9%N 5)]); try done; by vm_compute.
Defined.
End examples.
