(* ===== verification/Epoched.v ===== *)
(** * Data indexed by epochs

    Models [proof_of_stake/src/epoched.rs]: [Epoched] (the value of the latest
    epoch), [EpochedDelta] (the sum of changes) and the trimming of past epochs.
    A handle is its slice of storage: the epoch of the last update, the oldest
    epoch with data and the lazy map from epochs to data.  The numbers of future
    and past epochs are those of the handle's offsets under the parameters
    ([offset_value]). *)

From S2P Require Import Prelude Words Uint Decimal I256 Dec Token Epochs PosTypes.

(** ** Offsets *)

Definition DEFAULT_NUM_PAST_EPOCHS : Z := 2.

Inductive EpochOffset : Type :=
| OffsetZero
| OffsetDefaultNumPastEpochs
| OffsetPipelineLen
| OffsetUnbondingLen
| OffsetPipelinePlusUnbondingLen
| OffsetSlashProcessingLen
| OffsetSlashProcessingLenPlus
| OffsetMaxU64
| OffsetMaxProposalPeriod
| OffsetMaxProposalPeriodPlus
| OffsetMaxProposalPeriodOrSlashProcessingLen
| OffsetMaxProposalPeriodOrSlashProcessingLenPlus.

(** [EpochOffset::value]; [None] is an overflow of [u64]. *)
Definition offset_value (o : EpochOffset) (params : PosParams) : option Z :=
  let p := owned params in
  match o with
  | OffsetZero => Some 0
  | OffsetDefaultNumPastEpochs => Some DEFAULT_NUM_PAST_EPOCHS
  | OffsetPipelineLen => Some (pipeline_len p)
  | OffsetUnbondingLen => Some (unbonding_len p)
  | OffsetPipelinePlusUnbondingLen => chk 64 (pipeline_len p + unbonding_len p)
  | OffsetSlashProcessingLen => slash_processing_epoch_offset p
  | OffsetSlashProcessingLenPlus => s ← slash_processing_epoch_offset p; chk 64 (s + DEFAULT_NUM_PAST_EPOCHS)
  | OffsetMaxU64 => Some u64_max
  | OffsetMaxProposalPeriod => Some (max_proposal_period params)
  | OffsetMaxProposalPeriodPlus => chk 64 (max_proposal_period params + DEFAULT_NUM_PAST_EPOCHS)
  | OffsetMaxProposalPeriodOrSlashProcessingLen =>
      s ← slash_processing_epoch_offset p; Some (Z.max s (max_proposal_period params))
  | OffsetMaxProposalPeriodOrSlashProcessingLenPlus =>
      s ← slash_processing_epoch_offset p;
      chk 64 (Z.max s (max_proposal_period params) + DEFAULT_NUM_PAST_EPOCHS)
  end.

(** ** Handles *)

Record EpochedSt (D : Type) : Type := mk_epoched {
  last_update : option Epoch;
  oldest_epoch : option Epoch;
  data : gmap Z D;
}.
Arguments mk_epoched {D} _ _ _.
Arguments last_update {D} _.
Arguments oldest_epoch {D} _.
Arguments data {D} _.

Definition epoched_open {D} : EpochedSt D := mk_epoched None None ∅.

Section handle.
Context {D : Type} (future past : Z).

Definition sub_past_epochs (epoch : Epoch) : Epoch := EpochM.sub_or_default epoch past.

Definition set_at_epoch (value : D) (current_epoch : Epoch) (offset : Z) (s : EpochedSt D) : option (EpochedSt D) :=
  epoch ← EpochM.unchecked_add current_epoch offset;
  Some (mk_epoched (last_update s) (oldest_epoch s) (<[epoch := value]> (data s))).

Definition init_at_genesis (value : D) (current_epoch : Epoch) (s : EpochedSt D) : option (EpochedSt D) :=
  set_at_epoch value current_epoch 0 (mk_epoched (Some current_epoch) (Some current_epoch) (data s)).

(** The end of every [update_data] that trims nothing. *)
Definition set_last_update (current_epoch : Epoch) (s : EpochedSt D) : EpochedSt D :=
  mk_epoched (Some current_epoch)
    (match oldest_epoch s with Some o => Some o | None => Some current_epoch end) (data s).
End handle.

Module EpochedM.
Section epoched.
Context {D : Type} (future past : Z).

(** The loop of [get], from [epoch] down to [lowest]; [fuel] bounds the number
    of epochs. *)
Fixpoint get_loop (fuel : nat) (lowest epoch : Epoch) (m : gmap Z D) : option D :=
  match m !! epoch with
  | Some v => Some v
  | None =>
      match fuel with
      | O => None
      | S fuel =>
          if (0 <? epoch) && (lowest <? epoch) then get_loop fuel lowest (epoch - 1) m else None
      end
  end.

Definition get (epoch : Epoch) (s : EpochedSt D) : option (option D) :=
  match last_update s with
  | None => Some None
  | Some lu =>
      future_most_epoch ← EpochM.unchecked_add lu future;
      let epoch := Z.min epoch future_most_epoch in
      Some (get_loop (Z.to_nat epoch) (sub_past_epochs past lu) epoch (data s))
  end.

(** Removal of the epochs before the oldest to keep; the last value removed. *)
Definition trim_step (epoch : Epoch) (x : gmap Z D * option D) : gmap Z D * option D :=
  let '(m, latest) := x in
  match m !! epoch with
  | Some v => (delete epoch m, Some v)
  | None => (m, latest)
  end.
Definition trim (epochs : list Epoch) (m : gmap Z D) : gmap Z D * option D :=
  foldl (λ x e, trim_step e x) (m, None) epochs.

Definition update_data (current_epoch : Epoch) (s : EpochedSt D) : option (EpochedSt D) :=
  match last_update s, oldest_epoch s with
  | Some lu, Some oldest =>
      let oldest_to_keep := EpochM.sub_or_default current_epoch past in
      if oldest <? oldest_to_keep then
        diff ← EpochM.checked_sub oldest_to_keep oldest;
        let '(m, latest_value) := trim (EpochM.iter_range oldest diff) (data s) in
        match latest_value with
        | Some v =>
            let new_oldest := sub_past_epochs past current_epoch in
            let m := match m !! new_oldest with Some _ => m | None => <[new_oldest := v]> m end in
            Some (mk_epoched (Some current_epoch) (Some new_oldest) m)
        | None => Some (mk_epoched (Some current_epoch) (Some oldest) m)
        end
      else Some (set_last_update current_epoch s)
  | _, _ => Some (set_last_update current_epoch s)
  end.

Definition set (value : D) (current_epoch : Epoch) (offset : Z) (s : EpochedSt D) : option (EpochedSt D) :=
  s ← update_data current_epoch s;
  set_at_epoch value current_epoch offset s.
End epoched.
End EpochedM.

(** Nested data: the epochs before the oldest to keep are dropped whole. *)
Module NestedEpochedM.
Section nested.
Context {D : Type} (past : Z).

Definition init (epoch : Epoch) (s : EpochedSt D) : EpochedSt D :=
  mk_epoched (Some epoch) (Some epoch) (data s).

Definition update_data (current_epoch : Epoch) (s : EpochedSt D) : option (EpochedSt D) :=
  match last_update s, oldest_epoch s with
  | Some lu, Some oldest =>
      let oldest_to_keep := EpochM.sub_or_default current_epoch past in
      if oldest <? oldest_to_keep then
        diff ← EpochM.checked_sub oldest_to_keep oldest;
        let m := foldl (λ m e, delete e m) (data s) (EpochM.iter_range oldest diff) in
        Some (mk_epoched (Some current_epoch) (Some (sub_past_epochs past current_epoch)) m)
      else Some (mk_epoched (Some current_epoch) (Some oldest) (data s))
  | _, o => Some (mk_epoched (Some current_epoch) o (data s))
  end.
End nested.
End NestedEpochedM.

(** Sums of changes; [checked] tells which sums fit the type of the data. *)
Module EpochedDeltaM.
Section delta.
Context (checked : Z → bool) (future past : Z).

Definition add_data (a b : Z) : option Z := if checked (a + b) then Some (a + b) else None.

(** [match sum.as_mut()] of the loops: the first value starts the sum. *)
Definition add_to (sum : option Z) (d : Z) : option (option Z) :=
  match sum with
  | Some x => Some <$> add_data x d
  | None => Some (Some d)
  end.

Definition get_delta_val (epoch : Epoch) (s : EpochedSt Z) : option Z := data s !! epoch.

Definition get_sum (epoch : Epoch) (s : EpochedSt Z) : option (option Z) :=
  match last_update s with
  | None => Some None
  | Some lu =>
      let start_epoch := sub_past_epochs past lu in
      future_most_epoch ← EpochM.unchecked_add lu future;
      let epoch := Z.min epoch future_most_epoch in
      for_list (λ ep sum, match data s !! ep with Some d => add_to sum d | None => Some sum end)
        (seqZ start_epoch (epoch - start_epoch + 1)) None
  end.

Definition trim_step (epoch : Epoch) (x : gmap Z Z * option Z) : option (gmap Z Z * option Z) :=
  let '(m, sum) := x in
  match m !! epoch with
  | Some d => sum ← add_to sum d; Some (delete epoch m, sum)
  | None => Some (m, sum)
  end.

Definition update_data (current_epoch : Epoch) (s : EpochedSt Z) : option (EpochedSt Z) :=
  match last_update s, oldest_epoch s with
  | Some lu, Some oldest =>
      let oldest_to_keep := EpochM.sub_or_default current_epoch past in
      if oldest <? oldest_to_keep then
        diff ← EpochM.checked_sub oldest_to_keep oldest;
        '(m, sum) ← for_list trim_step (EpochM.iter_range oldest diff) (data s, None);
        match sum with
        | Some sum =>
            let new_oldest := sub_past_epochs past current_epoch in
            v ← match m !! new_oldest with Some d => add_data d sum | None => Some sum end;
            Some (mk_epoched (Some current_epoch) (Some new_oldest) (<[new_oldest := v]> m))
        | None => Some (mk_epoched (Some current_epoch) (Some oldest) m)
        end
      else Some (set_last_update current_epoch s)
  | _, _ => Some (set_last_update current_epoch s)
  end.

Definition add (value : Z) (current_epoch : Epoch) (offset : Z) (s : EpochedSt Z) : option (EpochedSt Z) :=
  s ← update_data current_epoch s;
  epoch ← EpochM.unchecked_add current_epoch offset;
  let cur_value := default 0 (get_delta_val epoch s) in
  new_value ← add_data cur_value value;
  set_at_epoch new_value current_epoch offset s.

Definition set (value : Z) (current_epoch : Epoch) (offset : Z) (s : EpochedSt Z) : option (EpochedSt Z) :=
  s ← update_data current_epoch s;
  set_at_epoch value current_epoch offset s.
End delta.
End EpochedDeltaM.

(** ** The value at an epoch

    [floor_in m lo e r]: [r] is the value of the latest epoch of [m] from [lo] to
    [e], if there is one. *)

Definition floor_in {D} (m : gmap Z D) (lo e : Z) (r : option D) : Prop :=
  match r with
  | Some v => ∃ k, lo ≤ k ≤ e ∧ m !! k = Some v ∧ ∀ j, k < j ≤ e → m !! j = None
  | None => ∀ j, lo ≤ j ≤ e → m !! j = None
  end.

Lemma floor_in_unique {D} (m : gmap Z D) lo e r r' : floor_in m lo e r → floor_in m lo e r' → r = r'.
Proof.
  destruct r as [v|], r' as [v'|]; cbn.
  - intros (k & Hk & Hv & Hn) (k' & Hk' & Hv' & Hn').
    destruct (Z.lt_trichotomy k k') as [Hlt|[->|Hlt]]; [|congruence|].
    + rewrite Hn in Hv' by lia. done.
    + rewrite Hn' in Hv by lia. done.
  - intros (k & Hk & Hv & _) H. rewrite H in Hv by lia. done.
  - intros H (k & Hk & Hv & _). rewrite H in Hv by lia. done.
  - done.
Qed.

(** Only the epochs between the bounds matter. *)
Lemma floor_in_ext {D} (m m' : gmap Z D) lo e r :
  (∀ k, lo ≤ k ≤ e → m' !! k = m !! k) → floor_in m lo e r → floor_in m' lo e r.
Proof.
  intros Hm. destruct r as [v|]; cbn.
  - intros (k & Hk & Hv & Hn). exists k. split; [done|]. split; [by rewrite Hm|].
    intros j Hj. rewrite Hm by lia. by apply Hn.
  - intros H j Hj. rewrite Hm by lia. by apply H.
Qed.

Lemma floor_in_lower {D} (m : gmap Z D) lo lo' e r :
  lo' ≤ lo → (∀ k, is_Some (m !! k) → lo ≤ k) → floor_in m lo e r → floor_in m lo' e r.
Proof.
  intros Hlo Hm. destruct r as [v|]; cbn.
  - intros (k & Hk & H). exists k. split; [lia|done].
  - intros H j Hj. destruct (decide (lo ≤ j)); [apply H; lia|].
    destruct (m !! j) eqn:E; [|done]. assert (lo ≤ j) by (apply Hm; by eexists). lia.
Qed.

(** Extending the range past epochs without data. *)
Lemma floor_in_upper {D} (m : gmap Z D) lo e e' r :
  e' ≤ e → (∀ k, is_Some (m !! k) → k ≤ e') → floor_in m lo e' r → floor_in m lo e r.
Proof.
  intros He Hm. assert (Hn : ∀ j, e' < j → m !! j = None).
  { intros j Hj. destruct (m !! j) eqn:E; [|done]. assert (j ≤ e') by (apply Hm; by eexists). lia. }
  destruct r as [v|]; cbn.
  - intros (k & Hk & Hv & H). exists k. split; [lia|]. split; [done|].
    intros j Hj. destruct (decide (j ≤ e')); [apply H|apply Hn]; lia.
  - intros H j Hj. destruct (decide (j ≤ e')); [apply H|apply Hn]; lia.
Qed.

(** The range in two parts. *)
Lemma floor_in_app {D} (m : gmap Z D) lo mid e r r' :
  lo ≤ mid ≤ e → floor_in m lo mid r → floor_in m (mid + 1) e r' →
  floor_in m lo e (match r' with Some v => Some v | None => r end).
Proof.
  intros Hm H H'. destruct r' as [v'|]; cbn in H'.
  - destruct H' as (k & Hk & Hv & Hn). exists k. split; [lia|done].
  - destruct r as [v|]; cbn in *.
    + destruct H as (k & Hk & Hv & Hn). exists k. split; [lia|]. split; [done|].
      intros j Hj. destruct (decide (j ≤ mid)); [apply Hn|apply H']; lia.
    + intros j Hj. destruct (decide (j ≤ mid)); [apply H|apply H']; lia.
Qed.

Lemma floor_in_insert {D} (m : gmap Z D) lo k e v r :
  lo ≤ k → floor_in m lo e r →
  floor_in (<[k := v]> m) lo e r ∧ e < k ∨
  k ≤ e ∧ (floor_in (<[k := v]> m) lo e (Some v) ∨
    ∃ j, k < j ≤ e ∧ is_Some (m !! j) ∧ floor_in (<[k := v]> m) lo e r).
Proof.
  intros Hk Hr. destruct (decide (k ≤ e)) as [Hke|]; [right; split; [done|]|left; split; [|lia]].
  2:{ eapply floor_in_ext; [|done]. intros j Hj. by rewrite lookup_insert_ne by lia. }
  destruct r as [w|]; cbn in Hr.
  - destruct Hr as (i & Hi & Hw & Hn). destruct (decide (k < i)).
    + right. exists i. split; [lia|]. split; [by eexists|]. exists i. split; [done|].
      split; [by rewrite lookup_insert_ne by lia|]. intros j Hj. rewrite lookup_insert_ne by lia. by apply Hn.
    + left. exists k. split; [lia|]. split; [by rewrite lookup_insert_eq|].
      intros j Hj. rewrite lookup_insert_ne by lia. apply Hn. lia.
  - left. exists k. split; [lia|]. split; [by rewrite lookup_insert_eq|].
    intros j Hj. rewrite lookup_insert_ne by lia. apply Hr. lia.
Qed.

(** ** [get] and [trim] *)

Lemma get_loop_spec {D} (m : gmap Z D) fuel lo e :
  0 ≤ lo ≤ e → e ≤ Z.of_nat fuel → floor_in m lo e (EpochedM.get_loop fuel lo e m).
Proof.
  revert e. induction fuel as [|fuel IH]; intros e Hlo Hf; cbn.
  - destruct (m !! e) as [v|] eqn:E; cbn.
    + exists e. split; [lia|]. split; [done|]. lia.
    + intros j Hj. replace j with e by lia. done.
  - destruct (m !! e) as [v|] eqn:E; cbn.
    { exists e. split; [lia|]. split; [done|]. lia. }
    destruct (Z.ltb_spec 0 e), (Z.ltb_spec lo e); cbn;
      try (intros j Hj; replace j with e by lia; done).
    pose proof (floor_in_app m lo (e - 1) e _ None ltac:(lia) (IH (e - 1) ltac:(lia) ltac:(lia))) as Hf'.
    cbn in Hf'. apply Hf'. intros j Hj. by replace j with e by lia.
Qed.

Lemma iter_range_seqZ e len : 0 ≤ e → 0 ≤ len → e + len < 2 ^ 64 → EpochM.iter_range e len = seqZ e len.
Proof.
  intros. unfold EpochM.iter_range. rewrite chk_in by lia. cbn. f_equal. lia.
Qed.

Lemma seqZ_snoc a n : seqZ a (Z.of_nat (S n)) = seqZ a (Z.of_nat n) ++ [a + Z.of_nat n].
Proof.
  replace (Z.of_nat (S n)) with (Z.of_nat n + 1) by lia. rewrite seqZ_app by lia. done.
Qed.

Lemma trim_spec {D} (m : gmap Z D) a n : let '(m', r) := EpochedM.trim (seqZ a (Z.of_nat n)) m in
  (∀ k, m' !! k = if decide (a ≤ k < a + Z.of_nat n) then None else m !! k) ∧
  floor_in m a (a + Z.of_nat n - 1) r.
Proof.
  unfold EpochedM.trim. induction n as [|n IH].
  { cbn. split; [|intros j Hj; lia]. intros k. by rewrite decide_False by lia. }
  rewrite seqZ_snoc, foldl_app.
  destruct (foldl _ _ (seqZ a (Z.of_nat n))) as [m1 r1]. destruct IH as [Hm Hr].
  cbn [foldl EpochedM.trim_step]. rewrite Hm, decide_False by lia.
  replace (a + Z.of_nat (S n) - 1) with (a + Z.of_nat n) by lia.
  assert (Hr1 : m !! (a + Z.of_nat n) = None → floor_in m a (a + Z.of_nat n) r1).
  { intros E. destruct r1 as [w|]; cbn in *.
    - destruct Hr as (k & Hk & Hw & Hn). exists k. split; [lia|]. split; [done|].
      intros j Hj. destruct (decide (j = a + Z.of_nat n)) as [->|]; [done|]. apply Hn. lia.
    - intros j Hj. destruct (decide (j = a + Z.of_nat n)) as [->|]; [done|]. apply Hr. lia. }
  destruct (m !! (a + Z.of_nat n)) as [v|] eqn:E.
  - split.
    + intros k. destruct (decide (k = a + Z.of_nat n)) as [->|].
      * rewrite lookup_delete_eq, decide_True by lia. done.
      * rewrite lookup_delete_ne, Hm by done. apply decide_ext. lia.
    + exists (a + Z.of_nat n). split; [lia|]. split; [done|]. lia.
  - split; [|by apply Hr1]. intros k. rewrite Hm.
    destruct (decide (k = a + Z.of_nat n)) as [->|]; [rewrite decide_False, decide_True by lia; done|].
    apply decide_ext. lia.
Qed.

(** ** Well-formed handles

    Fresh, or with data between the oldest epoch kept at the last update and the
    last epoch that could be set then. *)

Inductive wf_epoched {D} (future past : Z) : Z → EpochedSt D → Prop :=
| wf_fresh lu : 0 ≤ lu → wf_epoched future past lu (mk_epoched None None ∅)
| wf_live lu o m : 0 ≤ lu → 0 ≤ o ≤ lu →
    (∀ k, is_Some (m !! k) → Z.max 0 (lu - past) ≤ k ≤ lu + future ∧ o ≤ k) →
    wf_epoched future past lu (mk_epoched (Some lu) (Some o) m).

Lemma sub_past_max past e : 0 ≤ past → 0 ≤ e < 2 ^ 64 → sub_past_epochs past e = Z.max 0 (e - past).
Proof.
  intros Hp He. unfold sub_past_epochs, EpochM.sub_or_default, EpochM.checked_sub, chk.
  destruct (in_u 64 (e - past)) eqn:E; boolp; cbn; lia.
Qed.

Section epoched_spec.
Context {D : Type} {future past : Z} (Hf : 0 ≤ future) (Hp : 0 ≤ past).

Lemma get_spec lu (s : EpochedSt D) e :
  wf_epoched future past lu s → lu + future < 2 ^ 64 → Z.max 0 (lu - past) ≤ e →
  ∃ r, EpochedM.get future past e s = Some r ∧ floor_in (data s) 0 e r.
Proof using Hf Hp.
  intros Hw Hlu He. destruct Hw as [lu Hl|lu o m Hl Ho Hk].
  { exists None. split; [done|]. intros j _. apply lookup_empty. }
  unfold EpochedM.get. cbn [last_update data]. unfold EpochM.unchecked_add, EpochM.checked_add.
  rewrite chk_in by lia. cbn [mbind option_bind]. rewrite sub_past_max by lia.
  eexists. split; [reflexivity|].
  pose proof (get_loop_spec m (Z.to_nat (Z.min e (lu + future))) (Z.max 0 (lu - past)) (Z.min e (lu + future))
    ltac:(lia) ltac:(lia)) as H.
  apply (floor_in_lower _ _ 0) in H; [|lia|intros k Hk'; specialize (Hk k Hk'); lia].
  destruct (decide (e ≤ lu + future)); [by rewrite !Z.min_l in * by done|].
  rewrite !Z.min_r in * by lia. eapply floor_in_upper; [| |exact H]; [lia|].
  intros k Hk'. specialize (Hk k Hk'). lia.
Qed.

Lemma floor_in_total (m : gmap Z D) lo e : 0 ≤ lo ≤ e → ∃ r, floor_in m lo e r.
Proof using Type. intros. eexists. apply (get_loop_spec m (Z.to_nat e)); lia. Qed.

(** Moving the latest value before [keep] to [keep] keeps the value from [keep]
    on. *)
Lemma floor_in_trim (m m' : gmap Z D) keep v e r :
  0 ≤ keep ≤ e → floor_in m 0 (keep - 1) (Some v) →
  (∀ k, keep ≤ k → m' !! k = match m !! k with Some w => Some w | None => if decide (k = keep) then Some v else None end) →
  floor_in m 0 e r → floor_in m' 0 e r.
Proof using Type.
  intros Hk Hv Hm Hr. destruct (floor_in_total m keep e ltac:(lia)) as [r' Hr'].
  assert (0 ≤ keep - 1) by (cbn in Hv; destruct Hv as (k & ? & _); lia).
  pose proof (floor_in_app m 0 (keep - 1) e _ r' ltac:(lia) Hv) as Happ.
  rewrite Z.sub_add in Happ. specialize (Happ Hr'). rewrite (floor_in_unique _ _ _ _ _ Hr Happ).
  destruct r' as [w|]; cbn in Hr' |- *.
  - destruct Hr' as (k & Hk' & Hw & Hn). exists k. split; [lia|].
    split; [by rewrite Hm, Hw by lia|]. intros j Hj. rewrite Hm, Hn, decide_False by lia. done.
  - exists keep. split; [lia|]. split; [rewrite Hm, Hr', decide_True by lia; done|].
    intros j Hj. rewrite Hm, Hr', decide_False by lia. done.
Qed.

(** Trimming keeps the value at every epoch from the oldest to keep on. *)
Lemma update_data_spec lu (s : EpochedSt D) cur :
  wf_epoched future past lu s → lu ≤ cur → cur + future < 2 ^ 64 →
  ∃ o m, EpochedM.update_data past cur s = Some (mk_epoched (Some cur) (Some o) m) ∧
    wf_epoched future past cur (mk_epoched (Some cur) (Some o) m) ∧
    (∀ e r, Z.max 0 (cur - past) ≤ e → floor_in (data s) 0 e r → floor_in m 0 e r) ∧
    ∀ k, Z.max 0 (cur - past) < k → m !! k = data s !! k.
Proof using Hf Hp.
  intros Hw Hlu Hcur. destruct Hw as [lu Hl|lu o m Hl Ho Hk].
  { exists cur, ∅. split_and!; try done. constructor; [lia..|]. intros k. rewrite lookup_empty. by intros []. }
  unfold EpochedM.update_data. cbn [last_update oldest_epoch data].
  change (EpochM.sub_or_default cur past) with (sub_past_epochs past cur). rewrite sub_past_max by lia.
  set (keep := Z.max 0 (cur - past)). destruct (Z.ltb_spec o keep) as [Hlt|Hge].
  2:{ exists o, m. split_and!; try done. constructor; [lia..|]. intros k Hk'. specialize (Hk k Hk'). lia. }
  unfold EpochM.checked_sub. rewrite chk_in by lia. cbn [mbind option_bind].
  rewrite iter_range_seqZ by lia. pose proof (trim_spec m o (Z.to_nat (keep - o))) as Ht.
  rewrite Z2Nat.id in Ht by lia. destruct (EpochedM.trim _ m) as [m1 r]. destruct Ht as [Hm1 Hr].
  replace (o + (keep - o) - 1) with (keep - 1) in Hr by lia.
  apply (floor_in_lower _ _ 0) in Hr; [|lia|intros k Hk'; specialize (Hk k Hk'); lia].
  assert (Hm1' : ∀ k, keep ≤ k → m1 !! k = m !! k) by (intros; rewrite Hm1, decide_False by lia; done).
  assert (Hkeys : ∀ k, is_Some (m1 !! k) → is_Some (m !! k) ∧ keep ≤ k).
  { intros k. rewrite Hm1. case_decide; [by intros []|]. intros Hk'. split; [done|]. specialize (Hk k Hk'). lia. }
  destruct r as [v|].
  - eexists _, _. split; [reflexivity|]. split; [|split].
    + constructor; [lia..|]. intros k. destruct (m1 !! keep) as [w|] eqn:Ek.
      * intros [Hk1 ?]%Hkeys. specialize (Hk k Hk1). lia.
      * rewrite lookup_insert_is_Some. intros [<-|[_ [Hk1 ?]%Hkeys]]; [lia|]. specialize (Hk k Hk1). lia.
    + intros e r He. apply (floor_in_trim m _ keep v); [lia|done|]. intros k Hk'.
      destruct (m1 !! keep) as [w|] eqn:Ek.
      * rewrite Hm1' by lia. destruct (m !! k) eqn:Em; [done|]. rewrite decide_False; [done|].
        intros ->. rewrite Hm1', Em in Ek by lia. done.
      * destruct (decide (k = keep)) as [->|]; [rewrite lookup_insert_eq, <-Hm1', Ek by lia; done|].
        rewrite lookup_insert_ne, Hm1' by lia. by destruct (m !! k).
    + intros k Hk'. destruct (m1 !! keep); [|rewrite lookup_insert_ne by lia]; by apply Hm1'; lia.
  - exists o, m1. split; [done|]. split; [|split].
    + constructor; [lia..|]. intros k [Hk1 ?]%Hkeys. specialize (Hk k Hk1). lia.
    + intros e r He. apply floor_in_ext. intros k Hk'. rewrite Hm1. case_decide; [|done]. symmetry. apply Hr. lia.
    + intros k Hk'. apply Hm1'. lia.
Qed.
End epoched_spec.

(** Setting a value at an offset. *)
Lemma set_get_spec {D} (future past lu : Z) (s : EpochedSt D) (v : D) (cur off e : Z) :
  0 ≤ past → wf_epoched future past lu s → lu ≤ cur → 0 ≤ off ≤ future → cur + future < 2 ^ 64 →
  Z.max 0 (cur - past) ≤ e →
  ∃ s' r r', EpochedM.set past v cur off s = Some s' ∧ wf_epoched future past cur s' ∧
    EpochedM.get future past e s = Some r ∧ EpochedM.get future past e s' = Some r' ∧
    (e < cur + off → r' = r) ∧
    (cur + off ≤ e → r' = Some v ∨ r' = r ∧ ∃ j, cur + off < j ≤ e ∧ is_Some (data s !! j)).
Proof.
  intros Hp Hw Hlu Hoff Hcur He. assert (Hf : 0 ≤ future) by lia.
  assert (Hl : 0 ≤ lu) by (by destruct Hw).
  destruct (update_data_spec Hf Hp lu s cur Hw Hlu Hcur) as (o & m & Hu & Hwu & Hkeep & Hlater).
  destruct (get_spec Hf Hp lu s e Hw ltac:(lia) ltac:(lia)) as (r & Hg & Hr).
  unfold EpochedM.set. rewrite Hu. cbn [mbind option_bind]. unfold set_at_epoch, EpochM.unchecked_add, EpochM.checked_add.
  rewrite chk_in by lia. cbn [mbind option_bind last_update oldest_epoch data].
  set (s' := mk_epoched (Some cur) (Some o) (<[cur + off := v]> m)).
  assert (Hws : wf_epoched future past cur s').
  { inversion Hwu as [|? ? ? H0 Ho Hk]; subst. constructor; [done..|]. intros k.
    rewrite lookup_insert_is_Some. intros [<-|[_ Hk']]; [lia|]. by apply Hk. }
  destruct (get_spec Hf Hp cur s' e Hws Hcur He) as (r' & Hg' & Hr').
  exists s', r, r'. split_and!; try done.
  - intros Hlt. destruct (floor_in_insert m 0 (cur + off) e v r ltac:(lia) (Hkeep _ _ He Hr)) as [[H _]|[H _]]; [|lia].
    by apply (floor_in_unique _ _ _ _ _ Hr' H).
  - intros Hge. destruct (floor_in_insert m 0 (cur + off) e v r ltac:(lia) (Hkeep _ _ He Hr))
      as [[_ H]|[_ [H|(j & Hj & Hmj & H)]]]; [lia|left|right].
    + by apply (floor_in_unique _ _ _ _ _ Hr' H).
    + split; [by apply (floor_in_unique _ _ _ _ _ Hr' H)|]. exists j. split; [done|]. by rewrite <-Hlater by lia.
Qed.

(**  A value set at an offset: the handle stays well formed and every epoch
    still kept reads as before up to the epoch set; from there on it reads the
    new value, except past a later value that was already set. *)
Theorem epoched_get_set {D} (future past lu : Z) (s : EpochedSt D) (v : D) (cur off e : Z) :
  0 ≤ past → wf_epoched future past lu s → lu ≤ cur → 0 ≤ off ≤ future → cur + future < 2 ^ 64 →
  Z.max 0 (cur - past) ≤ e →
  ∃ s' r r', EpochedM.set past v cur off s = Some s' ∧ wf_epoched future past cur s' ∧
    EpochedM.get future past e s = Some r ∧ EpochedM.get future past e s' = Some r' ∧
    (e < cur + off → r' = r) ∧
    (cur + off ≤ e → r' = Some v ∨ r' = r ∧ ∃ j, cur + off < j ≤ e ∧ is_Some (data s !! j)).
Proof. apply set_get_spec. Qed.

Lemma epoched_get_set_witness :
  ∃ s s' r r', EpochedM.set (D:=Z) 2 7 0 2 epoched_open = Some s ∧
    EpochedM.set 2 8 10 2 s = Some s' ∧ EpochedM.get 2 2 11 s = Some r ∧
    EpochedM.get 2 2 11 s' = Some r' ∧ r' = r ∧ r = Some 7.
Proof.
  pose (s := mk_epoched (Some 0) (Some 0) (<[2 := 7]> ∅) : EpochedSt Z).
  assert (Hw : wf_epoched 2 2 0 s).
  { constructor; [lia..|]. intros k. rewrite lookup_insert_is_Some, lookup_empty. intros [<-|[_ []]]; [lia|done]. }
  destruct (epoched_get_set 2 2 0 s 8 10 2 11) as (s' & r & r' & Hs & _ & Hg & Hg' & Heq & _); [lia|exact Hw|lia..|].
  exists s, s', r, r'. split_and!; try done; [by apply Heq|].
  unfold s in Hg. vm_compute in Hg. by injection Hg as <-.
Defined.

(** ** Sums of changes *)

(** The change at an epoch, and the sum of [f] over [n] epochs from [a]. *)
Definition change_at (m : gmap Z Z) (k : Z) : Z := default 0 (m !! k).
Definition sum_from (f : Z → Z) (a n : Z) : Z := zsum f (seqZ a n).

Lemma sum_from_app f a n k : 0 ≤ n → 0 ≤ k → sum_from f a (n + k) = sum_from f a n + sum_from f (a + n) k.
Proof. intros. unfold sum_from. by rewrite seqZ_app, zsum_app by lia. Qed.

Lemma sum_from_ext f g a n : (∀ k, a ≤ k < a + n → f k = g k) → sum_from f a n = sum_from g a n.
Proof. intros H. apply zsum_ext. intros k Hk%elem_of_seqZ. apply H. lia. Qed.

Lemma sum_from_nil f a n : (∀ k, a ≤ k < a + n → f k = 0) → sum_from f a n = 0.
Proof. intros H. rewrite (sum_from_ext f (λ _, 0)) by done. apply zsum_zero. Qed.

Lemma sum_from_1 f a : sum_from f a 1 = f a.
Proof. unfold sum_from. rewrite seqZ_cons by lia. rewrite seqZ_nil by lia. rewrite zsum_cons. cbn. lia. Qed.

Lemma sum_from_le f g a n : (∀ k, f k ≤ g k) → sum_from f a n ≤ sum_from g a n.
Proof. intros. apply zsum_le. auto. Qed.

Lemma sum_from_nonneg f a n : (∀ k, 0 ≤ f k) → 0 ≤ sum_from f a n.
Proof. intros. apply zsum_nonneg. auto. Qed.

(** Positive and negative parts over the first [N] epochs bound every sum of
    consecutive epochs. *)
Definition ups (f : Z → Z) (N : Z) : Z := sum_from (λ k, Z.max 0 (f k)) 0 N.
Definition downs (f : Z → Z) (N : Z) : Z := sum_from (λ k, Z.min 0 (f k)) 0 N.

Lemma sum_from_neg f a n : sum_from (λ k, - f k) a n = - sum_from f a n.
Proof. unfold sum_from. induction (seqZ a n) as [|k l IH]; [done|]. rewrite !zsum_cons, IH. lia. Qed.

Lemma downs_ups f N : downs f N = - ups (λ k, - f k) N.
Proof. unfold downs, ups. rewrite <-(sum_from_neg (λ k, Z.max 0 (- f k))). apply sum_from_ext. intros. cbn beta. lia. Qed.

Lemma sum_from_ups f a n N : 0 ≤ a → 0 ≤ n → a + n ≤ N → sum_from f a n ≤ ups f N.
Proof.
  intros. etrans; [apply (sum_from_le _ (λ k, Z.max 0 (f k))); intros; lia|]. unfold ups.
  replace N with (a + (n + (N - a - n))) by lia. rewrite !sum_from_app by lia. rewrite Z.add_0_l.
  assert (∀ b k, 0 ≤ sum_from (λ k, Z.max 0 (f k)) b k) as Hn by (intros; apply sum_from_nonneg; lia).
  pose proof (Hn 0 a). pose proof (Hn (a + n) (N - a - n)). lia.
Qed.

Lemma sum_from_between f a n N : 0 ≤ a → 0 ≤ n → a + n ≤ N → downs f N ≤ sum_from f a n ≤ ups f N.
Proof.
  intros. split; [|by apply sum_from_ups]. rewrite downs_ups.
  pose proof (sum_from_ups (λ k, - f k) a n N) as H'. rewrite sum_from_neg in H'. lia.
Qed.

(** The changes after those before [keep] are summed into it. *)
Definition merged (f : Z → Z) (keep k : Z) : Z :=
  if decide (k < keep) then 0 else if decide (k = keep) then f keep + sum_from f 0 keep else f k.

Lemma merged_sum f keep e : 0 ≤ keep ≤ e → sum_from (merged f keep) 0 (e + 1) = sum_from f 0 (e + 1).
Proof.
  intros. replace (e + 1) with (keep + (1 + (e - keep))) by lia. rewrite !sum_from_app, !sum_from_1 by lia.
  rewrite (sum_from_nil (merged f keep) 0 keep), (sum_from_ext (merged f keep) f (0 + keep + 1)).
  - unfold merged. rewrite !decide_False, decide_True by lia. rewrite !Z.add_0_l. lia.
  - intros k Hk. unfold merged. by rewrite !decide_False by lia.
  - intros k Hk. unfold merged. by rewrite decide_True by lia.
Qed.

Lemma merged_ups f keep N : 0 ≤ keep < N → ups (merged f keep) N ≤ ups f N.
Proof.
  intros. unfold ups. replace N with (keep + (1 + (N - keep - 1))) by lia.
  rewrite !sum_from_app, !sum_from_1 by lia.
  rewrite (sum_from_nil (λ k, Z.max 0 (merged f keep k)) 0 keep),
    (sum_from_ext (λ k, Z.max 0 (merged f keep k)) (λ k, Z.max 0 (f k)) (0 + keep + 1)).
  - unfold merged. rewrite !decide_False, decide_True by lia. rewrite !Z.add_0_l.
    pose proof (sum_from_le f (λ k, Z.max 0 (f k)) 0 keep ltac:(intros; cbn beta; lia)).
    assert (0 ≤ sum_from (λ k, Z.max 0 (f k)) 0 keep) by (apply sum_from_nonneg; intros; lia). lia.
  - intros k Hk. unfold merged. by rewrite !decide_False by lia.
  - intros k Hk. unfold merged. by rewrite decide_True by lia.
Qed.

Lemma merged_opp f keep k : merged (λ k, - f k) keep k = - merged f keep k.
Proof. unfold merged. rewrite sum_from_neg. repeat case_decide; lia. Qed.

Lemma merged_downs f keep N : 0 ≤ keep < N → downs f N ≤ downs (merged f keep) N.
Proof.
  intros. rewrite !downs_ups. pose proof (merged_ups (λ k, - f k) keep N ltac:(lia)) as H'.
  unfold ups in *. rewrite (sum_from_ext _ (λ k, Z.max 0 (- merged f keep k)) 0 N) in H'
    by (intros; by rewrite merged_opp). lia.
Qed.

Section delta_spec.
Context {checked : Z → bool} {future past lo hi : Z}.
Context (Hf : 0 ≤ future) (Hp : 0 ≤ past) (Hfit : ∀ z, lo ≤ z ≤ hi → checked z = true).

(** The sums of the data stay between the bounds of the type. *)
Definition within (f : Z → Z) (N : Z) : Prop := lo ≤ downs f N ∧ ups f N ≤ hi.

Lemma within_sum f N a n : within f N → 0 ≤ a → 0 ≤ n → a + n ≤ N → lo ≤ sum_from f a n ≤ hi.
Proof using Type. intros [H1 H2] Ha Hn HN. pose proof (sum_from_between f a n N Ha Hn HN). lia. Qed.

(** Adding the next epoch to the sum of a range. *)
Lemma add_to_next (m : gmap Z Z) a n r d N : within (change_at m) N → 0 ≤ a → a + Z.of_nat (S n) ≤ N →
  default 0 r = sum_from (change_at m) a (Z.of_nat n) → m !! (a + Z.of_nat n) = Some d →
  ∃ r', EpochedDeltaM.add_to checked r d = Some r' ∧ default 0 r' = sum_from (change_at m) a (Z.of_nat (S n)) ∧ r' ≠ None.
Proof using Hfit.
  intros Hw Ha HN Hr Hd. pose proof (within_sum _ _ a (Z.of_nat (S n)) Hw Ha ltac:(lia) HN) as Hs.
  assert (Hnext : sum_from (change_at m) a (Z.of_nat (S n)) = default 0 r + d).
  { replace (Z.of_nat (S n)) with (Z.of_nat n + 1) by lia. rewrite sum_from_app, sum_from_1, Hr by lia.
    unfold change_at at 2. by rewrite Hd. }
  rewrite Hnext in *. destruct r as [x|]; cbn in *.
  - unfold EpochedDeltaM.add_data. rewrite Hfit by lia. by eexists.
  - exists (Some d). cbn. split_and!; done || lia.
Qed.

Lemma sum_from_skip (m : gmap Z Z) a n : m !! (a + Z.of_nat n) = None →
  sum_from (change_at m) a (Z.of_nat (S n)) = sum_from (change_at m) a (Z.of_nat n).
Proof using Type.
  intros E. replace (Z.of_nat (S n)) with (Z.of_nat n + 1) by lia. rewrite sum_from_app, sum_from_1 by lia.
  unfold change_at at 2. rewrite E. cbn. lia.
Qed.

Lemma sum_loop_spec (m : gmap Z Z) a n N : within (change_at m) N → 0 ≤ a → a + Z.of_nat n ≤ N →
  ∃ r, for_list (λ ep sum, match m !! ep with
      Some d => EpochedDeltaM.add_to checked sum d | None => Some sum end)
      (seqZ a (Z.of_nat n)) None = Some r ∧ default 0 r = sum_from (change_at m) a (Z.of_nat n).
Proof using Hfit.
  intros Hw Ha. induction n as [|n IH]; intros HN; [by exists None|].
  destruct (IH ltac:(lia)) as (r & Hl & Hr). rewrite seqZ_snoc, for_list_app, Hl. cbn.
  destruct (m !! (a + Z.of_nat n)) as [d|] eqn:E.
  - destruct (add_to_next m a n r d N Hw Ha HN Hr E) as (r' & -> & Hr' & _). by exists r'.
  - exists r. rewrite sum_from_skip by done. done.
Qed.

Lemma trim_loop_spec (m : gmap Z Z) a n N : within (change_at m) N → 0 ≤ a → a + Z.of_nat n ≤ N →
  ∃ m' r, for_list (EpochedDeltaM.trim_step checked) (seqZ a (Z.of_nat n)) (m, None) = Some (m', r) ∧
    (∀ k, m' !! k = if decide (a ≤ k < a + Z.of_nat n) then None else m !! k) ∧
    default 0 r = sum_from (change_at m) a (Z.of_nat n) ∧
    (r = None → ∀ k, a ≤ k < a + Z.of_nat n → m !! k = None).
Proof using Hfit.
  intros Hw Ha. induction n as [|n IH]; intros HN.
  { exists m, None. split_and!; try done; [|intros; lia]. intros k. by rewrite decide_False by lia. }
  destruct (IH ltac:(lia)) as (m1 & r & Hl & Hm & Hr & Hn). rewrite seqZ_snoc, for_list_app, Hl.
  cbn [mbind option_bind for_list EpochedDeltaM.trim_step]. rewrite Hm, decide_False by lia.
  assert (Hdec : ∀ k, k ≠ a + Z.of_nat n → m1 !! k = if decide (a ≤ k < a + Z.of_nat (S n)) then None else m !! k).
  { intros k Hk. rewrite Hm. apply decide_ext. lia. }
  destruct (m !! (a + Z.of_nat n)) as [d|] eqn:E.
  - destruct (add_to_next m a n r d N Hw Ha HN Hr E) as (r' & -> & Hr' & Hne). cbn.
    exists (delete (a + Z.of_nat n) m1), r'. split_and!; try done. intros k.
    destruct (decide (k = a + Z.of_nat n)) as [->|]; [rewrite lookup_delete_eq, decide_True by lia; done|].
    rewrite lookup_delete_ne by done. by apply Hdec.
  - exists m1, r. cbn. split_and!; [done| |by rewrite sum_from_skip|].
    + intros k. destruct (decide (k = a + Z.of_nat n)) as [->|]; [|by apply Hdec].
      rewrite Hm, decide_False, decide_True by lia. done.
    + intros Hr0 k Hk. destruct (decide (k = a + Z.of_nat n)) as [->|]; [done|]. apply Hn; [done|lia].
Qed.

Lemma get_sum_spec lu s e N : wf_epoched future past lu s → lu + future < 2 ^ 64 →
  Z.max 0 (lu - past) ≤ e → lu + future < N → within (change_at (data s)) N →
  ∃ r, EpochedDeltaM.get_sum checked future past e s = Some r ∧
    default 0 r = sum_from (change_at (data s)) 0 (e + 1).
Proof using Hf Hp Hfit.
  intros Hw Hlu He HN Hwi. destruct Hw as [lu Hl|lu o m Hl Ho Hk].
  { exists None. split; [done|]. symmetry. apply sum_from_nil. intros k _. unfold change_at.
    cbn [data]. by rewrite lookup_empty. }
  unfold EpochedDeltaM.get_sum. cbn [last_update data] in *. unfold EpochM.unchecked_add, EpochM.checked_add.
  rewrite chk_in by lia. cbn [mbind option_bind]. rewrite sub_past_max by lia.
  set (st := Z.max 0 (lu - past)) in *. set (en := Z.min e (lu + future)).
  destruct (sum_loop_spec m st (Z.to_nat (en - st + 1)) N Hwi ltac:(lia) ltac:(lia)) as (r & Hl' & Hr).
  rewrite Z2Nat.id in Hl', Hr by lia. exists r. split; [exact Hl'|]. rewrite Hr.
  assert (Hz : ∀ k, k < st ∨ lu + future < k → change_at m k = 0).
  { intros k Hk'. unfold change_at. destruct (m !! k) eqn:E; [|done].
    assert (is_Some (m !! k)) as H0 by (by eexists). specialize (Hk k H0). lia. }
  replace (e + 1) with (st + ((en - st + 1) + (e - en))) by lia. rewrite !sum_from_app by lia.
  rewrite (sum_from_nil _ 0 st) by (intros; apply Hz; lia).
  rewrite (sum_from_nil _ (0 + st + (en - st + 1))) by (intros; apply Hz; lia). by rewrite !Z.add_0_l, Z.add_0_r.
Qed.

Lemma within_merged f keep N : 0 ≤ keep < N → within f N → within (merged f keep) N.
Proof using Type.
  intros Hk [H1 H2]. pose proof (merged_ups f keep N Hk). pose proof (merged_downs f keep N Hk). split; lia.
Qed.

Lemma merged_0 f k : 0 ≤ k → merged f 0 k = f k.
Proof using Type.
  intros. unfold merged. rewrite decide_False by lia. case_decide as H0; [|done].
  rewrite H0. rewrite (sum_from_nil f 0 0) by lia. lia.
Qed.

Lemma change_at_insert m k v j : change_at (<[k := v]> m) j = if decide (j = k) then v else change_at m j.
Proof using Type.
  unfold change_at. case_decide as Hj; [by rewrite Hj, lookup_insert_eq|by rewrite lookup_insert_ne].
Qed.

(** After trimming, the changes are merged from the oldest epoch to keep on. *)
Lemma delta_update_spec lu s cur N : wf_epoched future past lu s → lu ≤ cur → cur + future < 2 ^ 64 →
  cur + future < N → within (change_at (data s)) N →
  ∃ o m keep, EpochedDeltaM.update_data checked past cur s = Some (mk_epoched (Some cur) (Some o) m) ∧
    wf_epoched future past cur (mk_epoched (Some cur) (Some o) m) ∧ 0 ≤ keep ≤ Z.max 0 (cur - past) ∧
    ∀ k, 0 ≤ k → change_at m k = merged (change_at (data s)) keep k.
Proof using Hf Hp Hfit.
  intros Hw Hlu Hcur HN Hwi. destruct Hw as [lu Hl|lu o m Hl Ho Hk].
  { exists cur, ∅, 0. split_and!; try done; try lia; [|intros; by rewrite merged_0].
    constructor; [lia..|]. intros k. rewrite lookup_empty. by intros []. }
  unfold EpochedDeltaM.update_data. cbn [last_update oldest_epoch data] in *.
  change (EpochM.sub_or_default cur past) with (sub_past_epochs past cur). rewrite sub_past_max by lia.
  set (keep := Z.max 0 (cur - past)). destruct (Z.ltb_spec o keep) as [Hlt|Hge].
  2:{ exists o, m, 0. split_and!; try done; try lia; [|intros; by rewrite merged_0].
      constructor; [lia..|]. intros k Hk'. specialize (Hk k Hk'). lia. }
  unfold EpochM.checked_sub. rewrite chk_in by lia. cbn [mbind option_bind]. rewrite iter_range_seqZ by lia.
  destruct (trim_loop_spec m o (Z.to_nat (keep - o)) N Hwi ltac:(lia) ltac:(lia)) as (m1 & r & Hl' & Hm1 & Hr & Hn).
  rewrite Z2Nat.id in Hl', Hm1, Hr, Hn by lia. rewrite Hl'. cbn [mbind option_bind].
  assert (Hz : ∀ k, k < o → m !! k = None).
  { intros k Hk'. destruct (m !! k) eqn:E; [|done]. assert (is_Some (m !! k)) as H0 by (by eexists).
    specialize (Hk k H0). lia. }
  assert (Hm1' : ∀ k, keep ≤ k → m1 !! k = m !! k) by (intros; rewrite Hm1, decide_False by lia; done).
  assert (Hkeys : ∀ k, is_Some (m1 !! k) → is_Some (m !! k) ∧ keep ≤ k).
  { intros k. rewrite Hm1. case_decide; [by intros []|]. intros Hk'. split; [done|]. specialize (Hk k Hk'). lia. }
  destruct r as [x|].
  - assert (Hx : sum_from (change_at m) 0 keep = x).
    { replace keep with (o + (keep - o)) at 1 by lia. rewrite sum_from_app, (sum_from_nil _ 0 o) by
        (try lia; intros k Hk'; unfold change_at; by rewrite Hz by lia). cbn in Hr.
      by rewrite !Z.add_0_l. }
    assert (Hv : ∃ v, match m1 !! keep with Some d => EpochedDeltaM.add_data checked d x | None => Some x end = Some v ∧
      v = merged (change_at m) keep keep).
    { unfold merged. rewrite decide_False, decide_True, Hx by lia. unfold change_at. rewrite <-Hm1' by lia.
      destruct (m1 !! keep) as [d|] eqn:Ek; [|exists x; cbn; split; [done|lia]].
      pose proof (within_sum _ _ keep 1 (within_merged _ keep N ltac:(lia) Hwi) ltac:(lia) ltac:(lia) ltac:(lia)) as Hb.
      rewrite sum_from_1 in Hb. unfold merged in Hb. rewrite decide_False, decide_True, Hx in Hb by lia.
      unfold change_at in Hb. rewrite <-Hm1', Ek in Hb by lia. cbn in Hb |- *.
      unfold EpochedDeltaM.add_data. rewrite Hfit by lia. by eexists. }
    destruct Hv as (v & -> & Hv). cbn [mbind option_bind]. exists keep, (<[keep := v]> m1), keep.
    split; [done|]. split; [|split; [lia|]].
    + constructor; [lia..|]. intros k. rewrite lookup_insert_is_Some.
      intros [<-|[_ [Hk1 ?]%Hkeys]]; [lia|]. specialize (Hk k Hk1). lia.
    + intros k Hk'. rewrite change_at_insert. case_decide as Hkk; [by rewrite Hkk|]. unfold merged.
      rewrite (decide_False (P:=k = keep)) by done. case_decide; unfold change_at; [|by rewrite Hm1' by lia].
      rewrite Hm1. destruct (decide (o ≤ k < o + (keep - o))); [done|]. by rewrite Hz by lia.
  - exists o, m1, 0. split; [done|]. split; [|split; [lia|]].
    + constructor; [lia..|]. intros k [Hk1 ?]%Hkeys. specialize (Hk k Hk1). lia.
    + intros k Hk'. rewrite merged_0 by done. unfold change_at. rewrite Hm1. case_decide; [|done]. by rewrite Hn.
Qed.
End delta_spec.

(** One change more. *)
Definition bumped (f : Z → Z) (c v k : Z) : Z := f k + if decide (k = c) then v else 0.

Lemma bumped_sum f c v a n : sum_from (bumped f c v) a n =
  sum_from f a n + if decide (a ≤ c < a + n) then v else 0.
Proof.
  unfold sum_from, bumped. rewrite zsum_add, zsum_single by apply NoDup_seqZ. f_equal.
  apply decide_ext. rewrite elem_of_seqZ. lia.
Qed.

Lemma bumped_ups f c v N : ups (bumped f c v) N ≤ ups f N + Z.max 0 v.
Proof.
  unfold ups. etrans; [apply (sum_from_le _ (bumped (λ k, Z.max 0 (f k)) c (Z.max 0 v)))|].
  - intros k. unfold bumped. case_decide; lia.
  - rewrite bumped_sum. case_decide; lia.
Qed.

Lemma bumped_downs f c v N : downs f N + Z.min 0 v ≤ downs (bumped f c v) N.
Proof.
  rewrite !downs_ups. pose proof (bumped_ups (λ k, - f k) c (- v) N) as H.
  unfold ups in *. rewrite (sum_from_ext _ (λ k, Z.max 0 (- bumped f c v k)) 0 N) in H; [lia|].
  intros k _. unfold bumped. case_decide; lia.
Qed.

Lemma within_ext lo hi f g N : (∀ k, 0 ≤ k < N → f k = g k) → within (lo:=lo) (hi:=hi) f N → within (lo:=lo) (hi:=hi) g N.
Proof.
  intros H. assert (Hu : ups f N = ups g N) by (apply sum_from_ext; intros; by rewrite H by lia).
  assert (Hd : downs f N = downs g N) by (apply sum_from_ext; intros; by rewrite H by lia).
  unfold within. by rewrite Hu, Hd.
Qed.

(** A change written at an offset, on top of the change that is there after
    trimming. *)
Lemma delta_bump_spec (checked : Z → bool) (future past lo hi lu : Z) (s : EpochedSt Z) (v cur off : Z) :
  (∀ z, lo ≤ z ≤ hi → checked z = true) →
  0 ≤ past → wf_epoched future past lu s → lu ≤ cur → 0 ≤ off ≤ future → cur + future < 2 ^ 64 →
  lo ≤ downs (change_at (data s)) (cur + future + 1) + Z.min 0 v →
  ups (change_at (data s)) (cur + future + 1) + Z.max 0 v ≤ hi →
  ∃ o m, EpochedDeltaM.update_data checked past cur s = Some (mk_epoched (Some cur) (Some o) m) ∧
    (0 < past + off → change_at m (cur + off) = change_at (data s) (cur + off)) ∧
    lo ≤ change_at m (cur + off) + v ≤ hi ∧
    let s' := mk_epoched (Some cur) (Some o) (<[cur + off := change_at m (cur + off) + v]> m) in
    wf_epoched future past cur s' ∧
    ∀ e, Z.max 0 (cur - past) ≤ e → ∃ x y, EpochedDeltaM.get_sum checked future past e s = Some x ∧
      EpochedDeltaM.get_sum checked future past e s' = Some y ∧
      default 0 y = default 0 x + if decide (cur + off ≤ e) then v else 0.
Proof.
  intros Hfit Hp Hw Hlu Hoff Hcur Hlo Hhi. assert (Hf : 0 ≤ future) by lia.
  assert (Hl : 0 ≤ lu) by (by destruct Hw). set (N := cur + future + 1) in *.
  set (f := change_at (data s)) in *. assert (Hwi : within (lo:=lo) (hi:=hi) f N) by (split; lia).
  destruct (delta_update_spec Hf Hp Hfit lu s cur N Hw Hlu Hcur ltac:(lia) Hwi) as (o & m & keep & Hu & Hwu & Hk & Hm).
  fold f in Hm. set (c := cur + off) in *.
  assert (Hbu : within (lo:=lo) (hi:=hi) (bumped (change_at m) c v) N).
  { apply (within_ext _ _ (bumped (merged f keep) c v)); [intros; unfold bumped; by rewrite Hm by lia|].
    pose proof (bumped_ups (merged f keep) c v N). pose proof (bumped_downs (merged f keep) c v N).
    pose proof (merged_ups f keep N ltac:(lia)). pose proof (merged_downs f keep N ltac:(lia)). split; lia. }
  exists o, m. split; [done|]. split.
  { intros Hkc. rewrite Hm by lia. destruct (decide (keep = 0)) as [->|]; [by rewrite merged_0 by lia|].
    unfold merged. by rewrite !decide_False by lia. }
  split.
  { pose proof (within_sum _ _ c 1 Hbu ltac:(lia) ltac:(lia) ltac:(lia)) as Hb. rewrite sum_from_1 in Hb.
    unfold bumped in Hb. rewrite decide_True in Hb by done. done. }
  intros s'. assert (Hcs : ∀ k, change_at (data s') k = bumped (change_at m) c v k).
  { intros k. cbn [s' data]. rewrite change_at_insert. unfold bumped. case_decide as Hkc; [by rewrite Hkc|lia]. }
  assert (Hws : wf_epoched future past cur s').
  { inversion Hwu as [|? ? ? H0 Ho Hkk]; subst. constructor; [done..|]. intros k.
    rewrite lookup_insert_is_Some. intros [<-|[_ Hk']]; [lia|]. by apply Hkk. }
  split; [done|]. intros e He.
  destruct (get_sum_spec Hf Hp Hfit lu s e N Hw ltac:(lia) ltac:(lia) ltac:(lia) Hwi) as (x & Hx & Hsx).
  destruct (get_sum_spec Hf Hp Hfit cur s' e N Hws Hcur He ltac:(lia)) as (y & Hy & Hsy).
  { eapply within_ext; [|exact Hbu]. intros k _. by rewrite Hcs. }
  exists x, y. split_and!; try done.
  rewrite Hsx, Hsy. fold f. rewrite (sum_from_ext _ (bumped (merged f keep) c v)).
  - rewrite bumped_sum, merged_sum by lia. f_equal. apply decide_ext. lia.
  - intros k Hk'. rewrite Hcs. unfold bumped. by rewrite Hm by lia.
Qed.

(**  A change added at an offset: the handle stays well formed, no check
    fails as long as the data and the change stay within the bounds of the type,
    and the sum at every epoch still kept grows by the change from the epoch it
    is added at on, and is as before until then. *)
Theorem epoched_delta_add (checked : Z → bool) (future past lo hi lu : Z) (s : EpochedSt Z) (v cur off e : Z) :
  (∀ z, lo ≤ z ≤ hi → checked z = true) →
  0 ≤ past → wf_epoched future past lu s → lu ≤ cur → 0 ≤ off ≤ future → cur + future < 2 ^ 64 →
  Z.max 0 (cur - past) ≤ e →
  lo ≤ downs (change_at (data s)) (cur + future + 1) + Z.min 0 v →
  ups (change_at (data s)) (cur + future + 1) + Z.max 0 v ≤ hi →
  ∃ s' x y, EpochedDeltaM.add checked past v cur off s = Some s' ∧ wf_epoched future past cur s' ∧
    EpochedDeltaM.get_sum checked future past e s = Some x ∧
    EpochedDeltaM.get_sum checked future past e s' = Some y ∧
    default 0 y = default 0 x + if decide (cur + off ≤ e) then v else 0.
Proof.
  intros Hfit Hp Hw Hlu Hoff Hcur He Hlo Hhi.
  destruct (delta_bump_spec checked future past lo hi lu s v cur off Hfit Hp Hw Hlu Hoff Hcur Hlo Hhi)
    as (o & m & Hu & _ & Hb & Hws & Hsum).
  destruct (Hsum e He) as (x & y & Hx & Hy & Hxy). eexists _, x, y. split; [|by split_and!].
  unfold EpochedDeltaM.add. rewrite Hu. cbn [mbind option_bind]. unfold set_at_epoch, EpochM.unchecked_add, EpochM.checked_add.
  assert (0 ≤ lu) by (by destruct Hw).
  rewrite chk_in by lia. cbn [mbind option_bind]. unfold EpochedDeltaM.get_delta_val, EpochedDeltaM.add_data. cbn [data].
  change (default 0 (m !! (cur + off))) with (change_at m (cur + off)). by rewrite Hfit.
Qed.

(** Amounts below [2^256]: 5 bonded at epoch 0 for epoch 2, then 3 more at epoch
    10 for epoch 12, with two past epochs kept. *)
Lemma epoched_delta_add_witness :
  let s : EpochedSt Z := mk_epoched (Some 0) (Some 0) (<[2 := 5]> ∅) in
  ∃ s' x y, EpochedDeltaM.add (in_u 256) 2 3 10 2 s = Some s' ∧
    EpochedDeltaM.get_sum (in_u 256) 2 2 12 s = Some x ∧ EpochedDeltaM.get_sum (in_u 256) 2 2 12 s' = Some y ∧
    default 0 y = default 0 x + 3.
Proof.
  intros s. destruct (epoched_delta_add (in_u 256) 2 2 0 (2 ^ 256 - 1) 0 s 3 10 2 12)
    as (s' & x & y & Ha & _ & Hx & Hy & Hs); [| |..|].
  - intros z Hz. apply in_u_spec. lia.
  - lia.
  - constructor; [lia..|]. intros k. rewrite lookup_insert_is_Some, lookup_empty. intros [<-|[_ []]]; [lia|done].
  - lia.
  - lia.
  - lia.
  - lia.
  - vm_compute. discriminate.
  - vm_compute. discriminate.
  - exists s', x, y. rewrite decide_True in Hs by lia. done.
Defined.
