(* ===== verification/ValidatorSets.v ===== *)
(** * Validator sets

    Models [proof_of_stake/src/validator_set_update.rs] and the reads and writes
    of [proof_of_stake/src/storage.rs] it uses.  At every epoch, the validators
    with enough stake are in the consensus set or, when that is full, in the
    below-capacity set; both are keyed by stake and by a position among equal
    stakes.  The main property is that an update of a validator's stake keeps the
    two sets right: sizes, order of stakes, positions and states. *)

From S2P Require Import Prelude Words Uint Decimal I256 Dec Token Epochs BTree PosTypes Epoched.

(** ** Storage of the component *)

Definition with_data {D} (f : gmap Z D → gmap Z D) (s : EpochedSt D) : EpochedSt D :=
  mk_epoched (last_update s) (oldest_epoch s) (f (data s)).

(** Sums of changes fit [I256], those of amounts [Uint]. *)
Definition fits_change (z : Z) : bool := Z.abs z <=? MAXS.
Definition fits_amount (z : Z) : bool := in_u 256 z.

(** [Amount::change] panics past [MAXS]; [Amount::from_change] is the absolute
    value. *)
Definition change (a : Z) : option Z := if a <=? MAXS then Some a else None.
Definition from_change (c : Z) : Z := Z.abs c.

(** [rev_order.rs]: the keys of the below-capacity set; amounts past
    [max_signed] panic. *)
Definition invert (amount : Z) : option Z := ZAmount.sub MAXS amount.

(** [Position::next] wraps around. *)
Definition position_next (p : Z) : Z := (p + 1) mod 2 ^ 64.

Inductive VSetKind : Type := CSet | BSet.
#[export] Instance VSetKind_eq_dec : EqDecision VSetKind.
Proof. solve_decision. Defined.

Section vsets.
Context {A : Type} {EA : EqDecision A} {CA : Countable A}.

(** A set at an epoch, by stake and position. *)
Abbreviation ValidatorSet := (gmap (Z * Z) A).

Record VSets : Type := mk_vsets {
  consensus_validator_set : EpochedSt ValidatorSet;
  below_capacity_validator_set : EpochedSt ValidatorSet;
  validator_set_positions : EpochedSt (gmap A Z);
  validator_addresses : EpochedSt (gset A);
  validator_state : gmap A (EpochedSt ValidatorState);
  validator_deltas : gmap A (EpochedSt Z);
  total_deltas : EpochedSt Z;
  total_active_deltas : EpochedSt Z;
  total_consensus_stake : EpochedSt Z;
}.

Definition upd_sets (fc fb : EpochedSt ValidatorSet → EpochedSt ValidatorSet)
    (fp : EpochedSt (gmap A Z) → EpochedSt (gmap A Z)) (fa : EpochedSt (gset A) → EpochedSt (gset A)) (s : VSets) : VSets :=
  mk_vsets (fc (consensus_validator_set s)) (fb (below_capacity_validator_set s))
    (fp (validator_set_positions s)) (fa (validator_addresses s)) (validator_state s) (validator_deltas s)
    (total_deltas s) (total_active_deltas s) (total_consensus_stake s).
Definition upd_state (f : gmap A (EpochedSt ValidatorState) → gmap A (EpochedSt ValidatorState)) (s : VSets) : VSets :=
  mk_vsets (consensus_validator_set s) (below_capacity_validator_set s) (validator_set_positions s)
    (validator_addresses s) (f (validator_state s)) (validator_deltas s) (total_deltas s)
    (total_active_deltas s) (total_consensus_stake s).
Definition upd_deltas (fv : gmap A (EpochedSt Z) → gmap A (EpochedSt Z)) (ft fa fc : EpochedSt Z → EpochedSt Z)
    (s : VSets) : VSets :=
  mk_vsets (consensus_validator_set s) (below_capacity_validator_set s) (validator_set_positions s)
    (validator_addresses s) (validator_state s) (fv (validator_deltas s)) (ft (total_deltas s))
    (fa (total_active_deltas s)) (fc (total_consensus_stake s)).

Abbreviation M := (stt VSets (PosError A)).

Definition consensus_at (s : VSets) (epoch : Epoch) : ValidatorSet := at_ (data (consensus_validator_set s)) epoch.
Definition below_at (s : VSets) (epoch : Epoch) : ValidatorSet := at_ (data (below_capacity_validator_set s)) epoch.
Definition positions_at (s : VSets) (epoch : Epoch) : gmap A Z := at_ (data (validator_set_positions s)) epoch.
Definition set_at (w : VSetKind) (s : VSets) (epoch : Epoch) : ValidatorSet :=
  match w with CSet => consensus_at s epoch | BSet => below_at s epoch end.

Definition upd_at {D} `{Empty D} (epoch : Epoch) (f : D → D) : EpochedSt D → EpochedSt D :=
  with_data (λ d, <[epoch := f (at_ d epoch)]> d).
Definition upd_set_at (w : VSetKind) (epoch : Epoch) (f : ValidatorSet → ValidatorSet) : VSets → VSets :=
  match w with
  | CSet => upd_sets (upd_at epoch f) id id id
  | BSet => upd_sets id (upd_at epoch f) id id
  end.
Definition upd_positions_at (epoch : Epoch) (f : gmap A Z → gmap A Z) : VSets → VSets :=
  upd_sets id id (upd_at epoch f) id.

(** ** First and last keys *)

Definition min_of (l : list Z) : option Z :=
  foldr (λ x acc, Some (match acc with Some y => Z.min x y | None => x end)) None l.
Definition max_of (l : list Z) : option Z :=
  foldr (λ x acc, Some (match acc with Some y => Z.max x y | None => x end)) None l.
Definition stakes_of (m : ValidatorSet) : list Z := (λ kv, kv.1.1) <$> map_to_list m.
(** The positions of the validators with a given stake. *)
Definition positions_of (m : ValidatorSet) (stake : Z) : list Z :=
  (λ kv, kv.1.2) <$> filter (λ kv, kv.1.1 = stake) (map_to_list m).

Definition find_first_position (m : ValidatorSet) (stake : Z) : option Z := min_of (positions_of m stake).
Definition find_last_position (m : ValidatorSet) (stake : Z) : option Z := max_of (positions_of m stake).
Definition find_next_position (m : ValidatorSet) (stake : Z) : Z :=
  match find_last_position m stake with Some p => position_next p | None => 0 end.
(** The consensus set iterates by ascending stake, the below-capacity set by
    descending stake. *)
Definition get_min_consensus_validator_amount (m : ValidatorSet) : Z := default 0 (min_of (stakes_of m)).
Definition get_max_below_capacity_validator_amount (m : ValidatorSet) : option Z := max_of (stakes_of m).

Section operations.
Context (params : PosParams).
Let p : OwnedPosParams := owned params.

(** ** Reads and writes of epoched data

    The offsets are computed when a handle has been written before. *)

Definition h_get {D} (fo po : EpochOffset) (epoch : Epoch) (s : EpochedSt D) : res (PosError A) (option D) :=
  match last_update s with
  | None => Ok None
  | Some _ =>
      future ← expect (offset_value fo params);
      past ← expect (offset_value po params);
      expect (EpochedM.get future past epoch s)
  end.
Definition past_of {D} (po : EpochOffset) (s : EpochedSt D) : res (PosError A) Z :=
  match last_update s with
  | None => Ok 0
  | Some _ => expect (offset_value po params)
  end.
Definition h_set {D} (po : EpochOffset) (value : D) (current_epoch : Epoch) (offset : Z) (s : EpochedSt D) :
    res (PosError A) (EpochedSt D) :=
  past ← past_of po s;
  expect (EpochedM.set past value current_epoch offset s).
(** Sums that do not fit are errors; an epoch past [u64::MAX] is a panic. *)
Definition d_sum (fits : Z → bool) (fo po : EpochOffset) (epoch : Epoch) (s : EpochedSt Z) : res (PosError A) (option Z) :=
  match last_update s with
  | None => Ok None
  | Some lu =>
      future ← expect (offset_value fo params);
      past ← expect (offset_value po params);
      _ ← expect (EpochM.unchecked_add lu future);
      ok_or (EpochedDeltaM.get_sum fits future past epoch s) ArithOverflow
  end.
Definition d_add (fits : Z → bool) (po : EpochOffset) (value : Z) (current_epoch : Epoch) (offset : Z)
    (s : EpochedSt Z) : res (PosError A) (EpochedSt Z) :=
  past ← past_of po s;
  _ ← ok_or (EpochedDeltaM.update_data fits past current_epoch s) ArithOverflow;
  _ ← expect (EpochM.unchecked_add current_epoch offset);
  ok_or (EpochedDeltaM.add fits past value current_epoch offset s) ArithOverflow.
Definition d_set (fits : Z → bool) (po : EpochOffset) (value : Z) (current_epoch : Epoch) (offset : Z)
    (s : EpochedSt Z) : res (PosError A) (EpochedSt Z) :=
  past ← past_of po s;
  _ ← ok_or (EpochedDeltaM.update_data fits past current_epoch s) ArithOverflow;
  expect (EpochedDeltaM.set fits past value current_epoch offset s).

Definition epoch_add (epoch : Epoch) (offset : Z) : res (PosError A) Epoch :=
  ok_or (EpochM.checked_add epoch offset) ArithOverflow.

Definition validator_state_handle (s : VSets) (validator : A) : EpochedSt ValidatorState :=
  default epoched_open (validator_state s !! validator).
Definition state_get (validator : A) (epoch : Epoch) : M (option ValidatorState) :=
  s ← get;
  lift (h_get OffsetPipelineLen OffsetMaxProposalPeriodPlus epoch (validator_state_handle s validator)).
Definition state_set (validator : A) (st : ValidatorState) (current_epoch : Epoch) (offset : Z) : M unit :=
  s ← get;
  h ← lift (h_set OffsetMaxProposalPeriodPlus st current_epoch offset (validator_state_handle s validator));
  modify (upd_state (<[validator := h]>)).

Definition validator_deltas_handle (s : VSets) (validator : A) : EpochedSt Z :=
  default epoched_open (validator_deltas s !! validator).
Definition read_validator_stake (validator : A) (epoch : Epoch) : M Z :=
  s ← get;
  sum ← lift (d_sum fits_change OffsetPipelineLen OffsetMaxProposalPeriodOrSlashProcessingLenPlus epoch
                (validator_deltas_handle s validator));
  mret (from_option from_change 0 sum).
Definition read_total_stake (epoch : Epoch) : M Z :=
  s ← get;
  sum ← lift (d_sum fits_change OffsetPipelineLen OffsetMaxProposalPeriodOrSlashProcessingLenPlus epoch (total_deltas s));
  mret (from_option from_change 0 sum).
Definition read_total_active_stake (epoch : Epoch) : M Z :=
  s ← get;
  sum ← lift (d_sum fits_change OffsetPipelineLen OffsetMaxProposalPeriodOrSlashProcessingLenPlus epoch
                (total_active_deltas s));
  mret (from_option from_change 0 sum).

(** The change at the epoch, increased and written back. *)
Definition bump_delta (delta : Z) (current_epoch : Epoch) (offset : Z) (h : EpochedSt Z) : res (PosError A) (EpochedSt Z) :=
  offset_epoch ← epoch_add current_epoch offset;
  let val := default 0 (EpochedDeltaM.get_delta_val offset_epoch h) in
  v ← expect (chk_i (val + delta));
  d_set fits_change OffsetMaxProposalPeriodOrSlashProcessingLenPlus v current_epoch offset h.

Definition update_validator_deltas (validator : A) (delta : Z) (current_epoch : Epoch) (offset_opt : option Z) : M unit :=
  let offset := default (pipeline_len p) offset_opt in
  s ← get;
  h ← lift (bump_delta delta current_epoch offset (validator_deltas_handle s validator));
  modify (upd_deltas (<[validator := h]>) id id id).

Definition update_total_deltas (delta : Z) (current_epoch : Epoch) (offset_opt : option Z)
    (update_active_voting_power : bool) : M unit :=
  let offset := default (pipeline_len p) offset_opt in
  s ← get;
  t ← lift (bump_delta delta current_epoch offset (total_deltas s));
  _ ← modify (upd_deltas id (λ _, t) id id);
  if update_active_voting_power then
    a ← lift (bump_delta delta current_epoch offset (total_active_deltas s));
    modify (upd_deltas id id (λ _, a) id)
  else mret ().

(** [count() as u64] of the entries. *)
Definition get_num_consensus_validators (epoch : Epoch) (s : VSets) : Z := Z.of_nat (size (consensus_at s epoch)).
Definition read_consensus_validator_set_addresses (epoch : Epoch) (s : VSets) : gset A :=
  list_to_set ((map_to_list (consensus_at s epoch)).*2).
Definition read_below_capacity_validator_set_addresses (epoch : Epoch) (s : VSets) : gset A :=
  list_to_set ((map_to_list (below_at s epoch)).*2).
Definition read_all_validator_addresses (epoch : Epoch) (s : VSets) : gset A := at_ (data (validator_addresses s)) epoch.

(** ** Moves between the sets *)

(** The storage key of a stake in a set. *)
Definition stake_key (w : VSetKind) (stake : Z) : res (PosError A) unit :=
  match w with
  | CSet => Ok ()
  | BSet => _ ← expect (invert stake); Ok ()
  end.

Definition insert_validator_into_set (w : VSetKind) (stake : Z) (epoch : Epoch) (address : A) : M unit :=
  _ ← lift (stake_key w stake);
  s ← get;
  let next_position := find_next_position (set_at w s epoch) stake in
  _ ← modify (upd_set_at w epoch (<[(stake, next_position) := address]>));
  modify (upd_positions_at epoch (<[address := next_position]>)).

(** [remove] of a position at a stake; the validator removed. *)
Definition set_remove (w : VSetKind) (stake : Z) (epoch : Epoch) (position : Z) : M (option A) :=
  _ ← lift (stake_key w stake);
  s ← get;
  let r := set_at w s epoch !! (stake, position) in
  _ ← modify (upd_set_at w epoch (delete (stake, position)));
  mret r.

Definition read_validator_set_position (validator : A) (epoch : Epoch) (s : VSets) : option Z :=
  positions_at s epoch !! validator.
Definition remove_position (validator : A) (epoch : Epoch) : M unit :=
  modify (upd_positions_at epoch (delete validator)).

(** The greatest below-capacity validator moved to the consensus set: the code
    repeated by the branches of [update_validator_set]. *)
Definition promote (max_bc_amount : Z) (current_epoch : Epoch) (offset : Z) (epoch : Epoch) : M unit :=
  _ ← lift (stake_key BSet max_bc_amount);
  s ← get;
  lowest_position ← lift (expect (find_first_position (below_at s epoch) max_bc_amount));
  removed ← set_remove BSet max_bc_amount epoch lowest_position;
  removed_max_below_capacity ← lift (expect removed);
  _ ← insert_validator_into_set CSet max_bc_amount epoch removed_max_below_capacity;
  state_set removed_max_below_capacity Consensus current_epoch offset.

Definition insert_into_consensus_and_demote_to_below_cap (validator : A) (tokens_post min_consensus_amount : Z)
    (current_epoch : Epoch) (offset : Z) (epoch : Epoch) : M unit :=
  s ← get;
  last_position ← lift (expect (find_last_position (consensus_at s epoch) min_consensus_amount));
  removed ← set_remove CSet min_consensus_amount epoch last_position;
  removed_min_consensus ← lift (expect removed);
  offset_epoch ← lift (epoch_add current_epoch offset);
  _ ← insert_validator_into_set BSet min_consensus_amount offset_epoch removed_min_consensus;
  _ ← state_set removed_min_consensus BelowCapacity current_epoch offset;
  _ ← insert_validator_into_set CSet tokens_post offset_epoch validator;
  state_set validator Consensus current_epoch offset.

(** The branches of [update_validator_set]: a validator found in the consensus
    set, one in the below-capacity set, and one in neither. *)
Definition update_from_consensus (validator : A) (tokens_pre tokens_post position : Z)
    (current_epoch : Epoch) (offset : Z) (epoch : Epoch) : M unit :=
  _ ← set_remove CSet tokens_pre epoch position;
  max_bc ← gets (λ s, get_max_below_capacity_validator_amount (below_at s epoch));
  let max_below_capacity_validator_amount := default 0 max_bc in
  if tokens_post <? validator_stake_threshold p then
    _ ← state_set validator BelowThreshold current_epoch offset;
    _ ← remove_position validator epoch;
    match max_bc with
    | Some max_bc_amount => promote max_bc_amount current_epoch offset epoch
    | None => mret ()
    end
  else if tokens_post <? max_below_capacity_validator_amount then
    _ ← promote max_below_capacity_validator_amount current_epoch offset epoch;
    _ ← insert_validator_into_set BSet tokens_post epoch validator;
    state_set validator BelowCapacity current_epoch offset
  else insert_validator_into_set CSet tokens_post epoch validator.

Definition update_from_below_capacity (validator : A) (tokens_pre tokens_post position : Z)
    (current_epoch : Epoch) (offset : Z) (epoch : Epoch) : M unit :=
  _ ← set_remove BSet tokens_pre epoch position;
  min_consensus_validator_amount ← gets (λ s, get_min_consensus_validator_amount (consensus_at s epoch));
  if min_consensus_validator_amount <? tokens_post then
    insert_into_consensus_and_demote_to_below_cap validator tokens_post min_consensus_validator_amount
      current_epoch offset epoch
  else if validator_stake_threshold p <=? tokens_post then
    _ ← insert_validator_into_set BSet tokens_post epoch validator;
    state_set validator BelowCapacity current_epoch offset
  else
    _ ← state_set validator BelowThreshold current_epoch offset;
    remove_position validator epoch.

Definition update_from_below_threshold (validator : A) (tokens_post : Z)
    (current_epoch : Epoch) (offset : Z) (epoch : Epoch) : M unit :=
  num_consensus_validators ← gets (get_num_consensus_validators epoch);
  if num_consensus_validators <? max_validator_slots p then
    _ ← insert_validator_into_set CSet tokens_post epoch validator;
    state_set validator Consensus current_epoch offset
  else
    min_consensus_validator_amount ← gets (λ s, get_min_consensus_validator_amount (consensus_at s epoch));
    if min_consensus_validator_amount <? tokens_post then
      insert_into_consensus_and_demote_to_below_cap validator tokens_post min_consensus_validator_amount
        current_epoch offset epoch
    else
      _ ← insert_validator_into_set BSet tokens_post epoch validator;
      state_set validator BelowCapacity current_epoch offset.

Definition update_validator_set (validator : A) (token_change : Z) (current_epoch : Epoch) (offset : option Z) : M unit :=
  if token_change =? 0 then mret ()
  else
    let offset := default (pipeline_len p) offset in
    epoch ← lift (epoch_add current_epoch offset);
    tokens_pre ← read_validator_stake validator epoch;
    pre ← lift (expect (change tokens_pre));
    post ← lift (ok_or (chk_i (pre + token_change)) ArithOverflow);
    let tokens_post := from_change post in
    if (tokens_pre <? validator_stake_threshold p) && (tokens_post <? validator_stake_threshold p) then mret ()
    else
      position ← gets (read_validator_set_position validator epoch);
      match position with
      | Some position =>
          in_consensus ← gets (λ s, bool_decide (consensus_at s epoch !! (tokens_pre, position) = Some validator));
          if in_consensus : bool
          then update_from_consensus validator tokens_pre tokens_post position current_epoch offset epoch
          else update_from_below_capacity validator tokens_pre tokens_post position current_epoch offset epoch
      | None => update_from_below_threshold validator tokens_post current_epoch offset epoch
      end.

Definition insert_validator_into_validator_set (address : A) (stake : Z) (current_epoch : Epoch) (offset : Z) : M unit :=
  target_epoch ← lift (epoch_add current_epoch offset);
  num_consensus_validators ← gets (get_num_consensus_validators target_epoch);
  if stake <? validator_stake_threshold p then state_set address BelowThreshold current_epoch offset
  else if num_consensus_validators <? max_validator_slots p then
    _ ← insert_validator_into_set CSet stake target_epoch address;
    state_set address Consensus current_epoch offset
  else
    min_consensus_amount ← gets (λ s, get_min_consensus_validator_amount (consensus_at s target_epoch));
    if min_consensus_amount <? stake then
      s ← get;
      last_min_consensus_position ← lift (expect (find_last_position (consensus_at s target_epoch) min_consensus_amount));
      removed ← set_remove CSet min_consensus_amount target_epoch last_min_consensus_position;
      removed ← lift (expect removed);
      _ ← insert_validator_into_set BSet min_consensus_amount target_epoch removed;
      _ ← state_set removed BelowCapacity current_epoch offset;
      _ ← insert_validator_into_set CSet stake target_epoch address;
      state_set address Consensus current_epoch offset
    else
      _ ← insert_validator_into_set BSet stake target_epoch address;
      state_set address BelowCapacity current_epoch offset.

(** [remove_consensus_validator] and [remove_below_capacity_validator]. *)
Definition remove_validator (w : VSetKind) (epoch : Epoch) (validator : A) : M unit :=
  stake ← read_validator_stake validator epoch;
  _ ← lift (stake_key w stake);
  position ← gets (read_validator_set_position validator epoch);
  val_position ← lift (expect position);
  _ ← set_remove w stake epoch val_position;
  remove_position validator epoch.

Definition promote_next_below_capacity_validator_to_consensus (current_epoch : Epoch) (offset : Z) : M unit :=
  epoch ← lift (epoch_add current_epoch offset);
  max_bc ← gets (λ s, get_max_below_capacity_validator_amount (below_at s epoch));
  match max_bc with
  | Some max_below_capacity_amount => promote max_below_capacity_amount current_epoch offset epoch
  | None => mret ()
  end.

(** One step of [jail_validator]: the removal from the set of an epoch. *)
Definition jail_remove (validator : A) (current_epoch : Epoch) (offset : Z) : M unit :=
  epoch ← lift (epoch_add current_epoch offset);
  st ← state_get validator epoch;
  prev_state ← lift (expect st);
  match prev_state with
  | Consensus =>
      _ ← remove_validator CSet epoch validator;
      if offset =? pipeline_len p
      then promote_next_below_capacity_validator_to_consensus current_epoch offset
      else mret ()
  | BelowCapacity => remove_validator BSet epoch validator
  | BelowThreshold | Inactive | Jailed => mret ()
  end.
Definition jail_validator (validator : A) (current_epoch validator_set_update_epoch : Epoch) : M unit :=
  start ← lift (expect (EpochM.checked_sub validator_set_update_epoch current_epoch));
  let offsets := seqZ start (pipeline_len p - start + 1) in
  _ ← for_each (jail_remove validator current_epoch) offsets;
  for_each (λ offset, state_set validator Jailed current_epoch offset) offsets.

(** [copy_validator_sets_and_positions]: the data of the previous epoch written
    over the target's, and the old epochs dropped. *)
Definition copy_at {D} `{Empty D, Union D} (prev_epoch target_epoch : Epoch) : EpochedSt D → EpochedSt D :=
  with_data (λ d, <[target_epoch := at_ d prev_epoch ∪ at_ d target_epoch]> d).
Definition n_update {D} (po : EpochOffset) (current_epoch : Epoch) (s : EpochedSt D) : res (PosError A) (EpochedSt D) :=
  past ← past_of po s;
  ok_or (NestedEpochedM.update_data past current_epoch s) ArithOverflow.
Definition copy_validator_sets_and_positions (current_epoch target_epoch : Epoch) : M unit :=
  prev_epoch ← lift (expect (EpochM.prev target_epoch));
  _ ← modify (upd_sets (copy_at prev_epoch target_epoch) (copy_at prev_epoch target_epoch) id id);
  s ← get;
  c ← lift (n_update OffsetMaxProposalPeriodPlus current_epoch (consensus_validator_set s));
  _ ← modify (upd_sets (λ _, c) id id id);
  b ← lift (n_update OffsetDefaultNumPastEpochs current_epoch (below_capacity_validator_set s));
  _ ← modify (upd_sets id (λ _, b) id id);
  q ← lift (n_update OffsetDefaultNumPastEpochs current_epoch
              (copy_at prev_epoch target_epoch (validator_set_positions s)));
  _ ← modify (upd_sets id id (λ _, q) id);
  a ← lift (n_update OffsetDefaultNumPastEpochs current_epoch
              (copy_at prev_epoch target_epoch (validator_addresses s)));
  modify (upd_sets id id id (λ _, a)).

Definition copy_genesis_validator_sets (current_epoch : Epoch) : M unit :=
  next ← lift (expect (EpochM.next current_epoch));
  for_each (copy_validator_sets_and_positions current_epoch) (EpochM.iter_range next (pipeline_len p)).

(** ** Total consensus stake *)

Definition compute_total_consensus_stake (epoch : Epoch) (s : VSets) : option Z :=
  for_list (λ stake acc, ZAmount.add acc stake) (stakes_of (consensus_at s epoch)) 0.
Definition compute_and_store_total_consensus_stake (epoch : Epoch) : M unit :=
  s ← get;
  total ← lift (expect (compute_total_consensus_stake epoch s));
  h ← lift (h_set OffsetMaxU64 total epoch 0 (total_consensus_stake s));
  modify (upd_deltas id id id (λ _, h)).
Definition get_total_consensus_stake (epoch : Epoch) : M Z :=
  s ← get;
  o ← lift (h_get OffsetZero OffsetMaxU64 epoch (total_consensus_stake s));
  lift (expect o).
End operations.

(** ** What an epoch sees

    The two sets, the positions and the states at an epoch. *)

Record View : Type := mk_view {
  v_cons : ValidatorSet;
  v_below : ValidatorSet;
  v_pos : gmap A Z;
  v_st : gmap A ValidatorState;
}.

Definition v_set (w : VSetKind) (V : View) : ValidatorSet := match w with CSet => v_cons V | BSet => v_below V end.
Definition v_upd (w : VSetKind) (f : ValidatorSet → ValidatorSet) (V : View) : View :=
  match w with
  | CSet => mk_view (f (v_cons V)) (v_below V) (v_pos V) (v_st V)
  | BSet => mk_view (v_cons V) (f (v_below V)) (v_pos V) (v_st V)
  end.
Definition kind_state (w : VSetKind) : ValidatorState := match w with CSet => Consensus | BSet => BelowCapacity end.

(** A validator taken out of a set, put into a set, or dropped below the
    threshold. *)
Definition v_take (w : VSetKind) (k : Z * Z) (V : View) : View := v_upd w (delete k) V.
Definition v_put (w : VSetKind) (stake : Z) (a : A) (V : View) : View :=
  let q := find_next_position (v_set w V) stake in
  let V := v_upd w (<[(stake, q) := a]>) V in
  mk_view (v_cons V) (v_below V) (<[a := q]> (v_pos V)) (<[a := kind_state w]> (v_st V)).
Definition v_drop (a : A) (st : ValidatorState) (V : View) : View :=
  mk_view (v_cons V) (v_below V) (delete a (v_pos V)) (<[a := st]> (v_st V)).

(** [Rep X stake V]: for the validators not in [X] the sets, positions and states
    agree; those of [X] are in no set. *)
Record Rep (X : gset A) (stake : A → Z) (V : View) : Prop := {
  rep_set w a q v : v_set w V !! (a, q) = Some v ↔
    v ∉ X ∧ v_st V !! v = Some (kind_state w) ∧ stake v = a ∧ v_pos V !! v = Some q;
  rep_pos v : v ∉ X → is_Some (v_pos V !! v) ↔ ∃ w, v_st V !! v = Some (kind_state w);
}.

Lemma kind_state_inj w w' : kind_state w = kind_state w' → w = w'.
Proof using Type. by destruct w, w'. Qed.

Lemma v_set_upd w w' f V : v_set w (v_upd w' f V) = if decide (w = w') then f (v_set w V) else v_set w V.
Proof using Type. by destruct w, w'. Qed.

Lemma rep_take w V X stake v q :
  Rep X stake V → v_set w V !! (stake v, q) = Some v → Rep ({[v]} ∪ X) stake (v_take w (stake v, q) V).
Proof using Type.
  intros HR Hv. pose proof (proj1 (rep_set _ _ _ HR _ _ _ _) Hv) as (HvX & Hst & _ & Hpos).
  assert (Hsame : v_st (v_take w (stake v, q) V) = v_st V ∧ v_pos (v_take w (stake v, q) V) = v_pos V) by (by destruct w).
  destruct Hsame as [Est Epos]. split.
  - intros w' a q' u. rewrite Est, Epos. unfold v_take. rewrite v_set_upd. case_decide as Hw.
    + subst w'. rewrite lookup_delete_Some, (rep_set _ _ _ HR), not_elem_of_union, not_elem_of_singleton.
      split.
      * intros (Hne & ? & ? & Hs & Hp). split_and!; try done. intros ->. apply Hne. congruence.
      * intros ((Huv & HuX) & Hu). split; [|done]. intros [= <- <-].
        pose proof (proj2 (rep_set _ _ _ HR w (stake v) q u) (conj HuX Hu)). congruence.
    + rewrite (rep_set _ _ _ HR), not_elem_of_union, not_elem_of_singleton. split; [|naive_solver].
      intros (? & Hu & ? & ?). split_and!; try done. intros ->. apply Hw, kind_state_inj. congruence.
  - intros u Hu. rewrite Est, Epos. apply (rep_pos _ _ _ HR). set_solver.
Qed.

Lemma rep_put w V X stake stake' v : Rep X stake V → v ∈ X → (∀ u, u ≠ v → stake' u = stake u) →
  v_set w V !! (stake' v, find_next_position (v_set w V) (stake' v)) = None →
  Rep (X ∖ {[v]}) stake' (v_put w (stake' v) v V).
Proof using Type.
  intros HR HvX Hst Hfresh. set (q := find_next_position _ _) in *.
  assert (Hset : ∀ w', v_set w' (v_put w (stake' v) v V) =
    if decide (w' = w) then <[(stake' v, q) := v]> (v_set w V) else v_set w' V) by (by intros []; destruct w).
  assert (Est : v_st (v_put w (stake' v) v V) = <[v := kind_state w]> (v_st V)) by (by destruct w).
  assert (Epos : v_pos (v_put w (stake' v) v V) = <[v := q]> (v_pos V)) by (by destruct w).
  split.
  - intros w' a q' u. rewrite Est, Epos, Hset. destruct (decide (u = v)) as [->|Huv].
    + rewrite !lookup_insert_eq. assert (HvX' : v ∉ X ∖ {[v]}) by set_solver. case_decide as Hw.
      * subst w'. rewrite lookup_insert_Some, (rep_set _ _ _ HR). split; [naive_solver|].
        intros (_ & _ & <- & [= <-]). by left.
      * rewrite (rep_set _ _ _ HR). split; [naive_solver|]. intros (_ & [= E]%symmetry & _).
        by apply kind_state_inj in E.
    + rewrite !lookup_insert_ne, (Hst u) by done. assert (HuX : u ∉ X ∖ {[v]} ↔ u ∉ X) by set_solver. rewrite HuX.
      case_decide as Hw; [|by rewrite (rep_set _ _ _ HR)]. subst w'. rewrite lookup_insert_Some, (rep_set _ _ _ HR).
      split; [naive_solver|]. intros Hu. right. split; [|done]. intros [= <- <-].
      rewrite <-(rep_set _ _ _ HR) in Hu. congruence.
  - intros u Hu. rewrite Est, Epos. destruct (decide (u = v)) as [->|Huv].
    + rewrite !lookup_insert_eq. split; [by exists w|by eexists].
    + rewrite !lookup_insert_ne by done. apply (rep_pos _ _ _ HR). set_solver.
Qed.

Lemma rep_drop V X stake stake' v st : Rep X stake V → v ∈ X → (∀ u, u ≠ v → stake' u = stake u) →
  (∀ w, st ≠ kind_state w) → Rep (X ∖ {[v]}) stake' (v_drop v st V).
Proof using Type.
  intros HR HvX Hst Hk. assert (Hset : ∀ w, v_set w (v_drop v st V) = v_set w V) by (by intros []). split.
  - intros w a q u. rewrite Hset, (rep_set _ _ _ HR). cbn [v_drop v_st v_pos]. destruct (decide (u = v)) as [->|Huv].
    + rewrite lookup_insert_eq, lookup_delete_eq. split; [naive_solver|]. intros (_ & _ & _ & [=]).
    + rewrite lookup_insert_ne, lookup_delete_ne, (Hst u) by done. set_solver.
  - intros u Hu. cbn [v_drop v_st v_pos]. destruct (decide (u = v)) as [->|Huv].
    + rewrite lookup_insert_eq, lookup_delete_eq. split; [by intros []|]. intros [w [= E]]. by destruct (Hk w).
    + rewrite lookup_insert_ne, lookup_delete_ne by done. apply (rep_pos _ _ _ HR). set_solver.
Qed.

(** ** Least and greatest keys *)

Lemma min_of_spec l : match min_of l with Some x => x ∈ l ∧ ∀ y, y ∈ l → x ≤ y | None => l = [] end.
Proof using Type.
  induction l as [|x l IH]; [done|]. cbn [min_of foldr]. fold (min_of l). destruct (min_of l) as [m|].
  - destruct IH as [Hm Hl]. split.
    + apply elem_of_cons. destruct (Z.min_spec x m) as [[_ ->]|[_ ->]]; [by left|by right].
    + intros y [->|Hy]%elem_of_cons; [lia|]. specialize (Hl y Hy). lia.
  - subst l. split; [by left|]. intros y Hy%list_elem_of_singleton. lia.
Qed.

Lemma max_of_spec l : match max_of l with Some x => x ∈ l ∧ ∀ y, y ∈ l → y ≤ x | None => l = [] end.
Proof using Type.
  induction l as [|x l IH]; [done|]. cbn [max_of foldr]. fold (max_of l). destruct (max_of l) as [m|].
  - destruct IH as [Hm Hl]. split.
    + apply elem_of_cons. destruct (Z.max_spec x m) as [[_ ->]|[_ ->]]; [by right|by left].
    + intros y [->|Hy]%elem_of_cons; [lia|]. specialize (Hl y Hy). lia.
  - subst l. split; [by left|]. intros y Hy%list_elem_of_singleton. lia.
Qed.

Lemma elem_stakes (m : ValidatorSet) a : a ∈ stakes_of m ↔ ∃ q v, m !! (a, q) = Some v.
Proof using Type.
  unfold stakes_of. rewrite list_elem_of_fmap. split.
  - intros ([[a' q] v] & -> & Hm%elem_of_map_to_list). by exists q, v.
  - intros (q & v & Hm). exists ((a, q), v). split; [done|]. by apply elem_of_map_to_list.
Qed.

Lemma elem_positions (m : ValidatorSet) a q : q ∈ positions_of m a ↔ ∃ v, m !! (a, q) = Some v.
Proof using Type.
  unfold positions_of. rewrite list_elem_of_fmap. split.
  - intros ([[a' q'] v] & -> & [Ha Hm%elem_of_map_to_list]%list_elem_of_filter). cbn in Ha. subst. by exists v.
  - intros (v & Hm). exists ((a, q), v). split; [done|]. apply list_elem_of_filter. split; [done|].
    by apply elem_of_map_to_list.
Qed.

(** Positions leave room for the next one. *)
Definition room (m : ValidatorSet) : Prop := ∀ a q v, m !! (a, q) = Some v → 0 ≤ q < u64_max.

Lemma next_fresh (m : ValidatorSet) a : room m → m !! (a, find_next_position m a) = None.
Proof using Type.
  intros Hr. unfold find_next_position, find_last_position. pose proof (max_of_spec (positions_of m a)) as Hmax.
  destruct (max_of _) as [x|].
  - destruct Hmax as [Hx Hl]. destruct (m !! (a, position_next x)) as [v|] eqn:E; [|done].
    apply elem_positions in Hx as [u Hu]. apply Hr in Hu.
    assert (Hn : position_next x ∈ positions_of m a) by (apply elem_positions; by exists v).
    apply Hl in Hn. unfold position_next in Hn. rewrite Z.mod_small in Hn by lia. lia.
  - destruct (m !! (a, 0)) as [v|] eqn:E; [|done].
    assert (Hn : 0 ∈ positions_of m a) by (apply elem_positions; by exists v). rewrite Hmax in Hn. by apply elem_of_nil in Hn.
Qed.

Lemma room_delete m k : room m → room (delete k m).
Proof using Type. intros Hr a q v [_ Hm]%lookup_delete_Some. by eapply Hr. Qed.

(** The validator to promote: the first position of the greatest stake. *)
Lemma max_below (m : ValidatorSet) : m ≠ ∅ → ∃ a q u,
  get_max_below_capacity_validator_amount m = Some a ∧ find_first_position m a = Some q ∧
  m !! (a, q) = Some u ∧ ∀ a' q' u', m !! (a', q') = Some u' → a' ≤ a.
Proof using Type.
  intros ([a0 q0] & u0 & Hm0)%map_choose. unfold get_max_below_capacity_validator_amount, find_first_position.
  assert (Ha0 : a0 ∈ stakes_of m) by (apply elem_stakes; by eexists _, _).
  pose proof (max_of_spec (stakes_of m)) as Hs. destruct (max_of (stakes_of m)) as [a|]; [|rewrite Hs in Ha0; by apply elem_of_nil in Ha0].
  destruct Hs as [(q1 & u1 & Hm1)%elem_stakes Hle].
  assert (Hq1 : q1 ∈ positions_of m a) by (apply elem_positions; by eexists).
  pose proof (min_of_spec (positions_of m a)) as Hp. destruct (min_of (positions_of m a)) as [q|] eqn:Eq; [|rewrite Hp in Hq1; by apply elem_of_nil in Hq1].
  destruct Hp as [(u & Hu)%elem_positions _]. exists a, q, u. do 3 (split; [done|]).
  intros a' q' u' Hm'. apply Hle, elem_stakes. by eexists _, _.
Qed.

Lemma max_below_empty (m : ValidatorSet) : get_max_below_capacity_validator_amount m = None ↔ m = ∅.
Proof using EA.
  split; [|intros ->; unfold get_max_below_capacity_validator_amount, stakes_of; by rewrite map_to_list_empty].
  intros Hn. destruct (decide (m = ∅)) as [|Hm]; [done|]. destruct (max_below m Hm) as (a & q & u & E & _). congruence.
Qed.

(** The validator to demote: the last position of the least stake. *)
Lemma min_consensus (m : ValidatorSet) : m ≠ ∅ → ∃ q u,
  find_last_position m (get_min_consensus_validator_amount m) = Some q ∧
  m !! (get_min_consensus_validator_amount m, q) = Some u ∧
  ∀ a' q' u', m !! (a', q') = Some u' → get_min_consensus_validator_amount m ≤ a'.
Proof using Type.
  intros ([a0 q0] & u0 & Hm0)%map_choose. unfold get_min_consensus_validator_amount, find_last_position.
  assert (Ha0 : a0 ∈ stakes_of m) by (apply elem_stakes; by eexists _, _).
  pose proof (min_of_spec (stakes_of m)) as Hs. destruct (min_of (stakes_of m)) as [a|]; [|rewrite Hs in Ha0; by apply elem_of_nil in Ha0].
  cbn [default]. destruct Hs as [(q1 & u1 & Hm1)%elem_stakes Hle].
  assert (Hq1 : q1 ∈ positions_of m a) by (apply elem_positions; by eexists).
  pose proof (max_of_spec (positions_of m a)) as Hp. destruct (max_of (positions_of m a)) as [q|] eqn:Eq; [|rewrite Hp in Hq1; by apply elem_of_nil in Hq1].
  destruct Hp as [(u & Hu)%elem_positions _]. exists q, u. do 2 (split; [done|]).
  intros a' q' u' Hm'. apply Hle, elem_stakes. by eexists _, _.
Qed.

(** ** The invariant of an epoch *)

Section invariant.
Context (slots thr : Z).

(** Except for the validators of [X]: sets, positions and states agree; the sets
    hold the validators with enough stake; no below-capacity validator has more
    stake than a consensus validator. *)
Record Ordered (X : gset A) (stake : A → Z) (V : View) : Prop := {
  ord_rep : Rep X stake V;
  ord_in w v : v ∉ X → v_st V !! v = Some (kind_state w) → thr ≤ stake v;
  ord_out v : v ∉ X → v_st V !! v = Some BelowThreshold → stake v < thr;
  ord_le v u : v ∉ X → u ∉ X → v_st V !! v = Some Consensus → v_st V !! u = Some BelowCapacity → stake u ≤ stake v;
}.

(** The consensus set has at most [slots] validators, and is full when there are
    validators below capacity. *)
Record wf_view (stake : A → Z) (V : View) : Prop := {
  wf_ord : Ordered ∅ stake V;
  wf_slots : Z.of_nat (size (v_cons V)) ≤ slots;
  wf_full : v_below V ≠ ∅ → Z.of_nat (size (v_cons V)) = slots;
}.

Lemma ord_mem X stake V w a q v : Ordered X stake V → v_set w V !! (a, q) = Some v →
  v ∉ X ∧ v_st V !! v = Some (kind_state w) ∧ stake v = a ∧ v_pos V !! v = Some q.
Proof using Type. intros HO. by apply (rep_set _ _ _ (ord_rep _ _ _ HO)). Qed.

(** A validator of a set is found by its stake and position. *)
Lemma ord_find X stake V w v : Ordered X stake V → v ∉ X → v_st V !! v = Some (kind_state w) →
  ∃ q, v_pos V !! v = Some q ∧ v_set w V !! (stake v, q) = Some v.
Proof using Type.
  intros HO HvX Hst. destruct (proj2 (rep_pos _ _ _ (ord_rep _ _ _ HO) v HvX)) as [q Hq]; [by exists w|].
  exists q. split; [done|]. by apply (rep_set _ _ _ (ord_rep _ _ _ HO)).
Qed.

Lemma ord_take X stake V w v q : Ordered X stake V → v_set w V !! (stake v, q) = Some v →
  Ordered ({[v]} ∪ X) stake (v_take w (stake v, q) V).
Proof using Type.
  intros HO Hv. pose proof (rep_take _ _ _ _ _ _ (ord_rep _ _ _ HO) Hv) as HR. destruct HO as [_ Hi Ho Hl].
  assert (E : v_st (v_take w (stake v, q) V) = v_st V) by (by destruct w).
  split; [done|..]; intros *; rewrite E, ?not_elem_of_union, ?not_elem_of_singleton; naive_solver.
Qed.

Lemma ord_put X stake stake' V w v : Ordered X stake V → v ∈ X → (∀ u, u ≠ v → stake' u = stake u) →
  room (v_set w V) → thr ≤ stake' v →
  (∀ u, u ∉ X → v_st V !! u = Some (kind_state (match w with CSet => BSet | BSet => CSet end)) →
     match w with CSet => stake u ≤ stake' v | BSet => stake' v ≤ stake u end) →
  Ordered (X ∖ {[v]}) stake' (v_put w (stake' v) v V).
Proof using Type.
  intros HO HvX Hs Hroom Hthr Hcmp.
  pose proof (rep_put w _ _ _ _ _ (ord_rep _ _ _ HO) HvX Hs (next_fresh _ _ Hroom)) as HR.
  assert (E : v_st (v_put w (stake' v) v V) = <[v := kind_state w]> (v_st V)) by (by destruct w).
  destruct HO as [_ Hi Ho Hl]. assert (Hin : ∀ u, u ∉ X ∖ {[v]} → u ≠ v → u ∉ X) by set_solver.
  split; [done|..]; rewrite E.
  - intros w' u Hu. destruct (decide (u = v)) as [->|Hne]; [done|]. rewrite lookup_insert_ne, Hs by done. eauto.
  - intros u Hu. destruct (decide (u = v)) as [->|Hne]; [rewrite lookup_insert_eq; by destruct w|].
    rewrite lookup_insert_ne, Hs by done. eauto.
  - intros u u' Hu Hu'. destruct (decide (u = v)) as [->|Hne], (decide (u' = v)) as [->|Hne'].
    + rewrite lookup_insert_eq. by destruct w.
    + rewrite lookup_insert_eq, lookup_insert_ne, (Hs u') by done. destruct w; [|done]. eauto.
    + rewrite lookup_insert_eq, lookup_insert_ne, (Hs u) by done. destruct w; [done|]. eauto.
    + rewrite !lookup_insert_ne, (Hs u), (Hs u') by done. eauto.
Qed.

Lemma ord_drop X stake stake' V v st : Ordered X stake V → v ∈ X → (∀ u, u ≠ v → stake' u = stake u) →
  (∀ w, st ≠ kind_state w) → (st = BelowThreshold → stake' v < thr) →
  Ordered (X ∖ {[v]}) stake' (v_drop v st V).
Proof using Type.
  intros HO HvX Hs Hk Hthr. pose proof (rep_drop _ _ _ _ _ _ (ord_rep _ _ _ HO) HvX Hs Hk) as HR.
  destruct HO as [_ Hi Ho Hl]. assert (Hin : ∀ u, u ∉ X ∖ {[v]} → u ≠ v → u ∉ X) by set_solver.
  split; [done|..]; cbn [v_drop v_st].
  - intros w u Hu. destruct (decide (u = v)) as [->|Hne]; [rewrite lookup_insert_eq; intros [= E]; by destruct (Hk w)|].
    rewrite lookup_insert_ne, Hs by done. eauto.
  - intros u Hu. destruct (decide (u = v)) as [->|Hne]; [rewrite lookup_insert_eq; intros [= E]; auto|].
    rewrite lookup_insert_ne, Hs by done. eauto.
  - intros u u' Hu Hu'. destruct (decide (u = v)) as [->|Hne].
    { rewrite lookup_insert_eq. intros [= E]. by destruct (Hk CSet). }
    destruct (decide (u' = v)) as [->|Hne'].
    { rewrite lookup_insert_eq. intros _ [= E]. by destruct (Hk BSet). }
    rewrite !lookup_insert_ne, (Hs u), (Hs u') by done. eauto.
Qed.

(** ** Promotion and demotion *)

Definition v_promote (a q : Z) (u : A) (V : View) : View := v_put CSet a u (v_take BSet (a, q) V).
Definition v_demote (a q : Z) (u : A) (V : View) : View := v_put BSet a u (v_take CSet (a, q) V).

Lemma ord_promote X stake V a q u : Ordered X stake V → room (v_cons V) → v_below V !! (a, q) = Some u →
  (∀ a' q' u', v_below V !! (a', q') = Some u' → a' ≤ a) → Ordered X stake (v_promote a q u V).
Proof using Type.
  intros HO Hroom Hu Hmax. destruct (ord_mem _ _ _ BSet _ _ _ HO Hu) as (HuX & Hst & <- & _).
  pose proof (ord_take _ _ _ BSet _ _ HO Hu) as HO'.
  replace X with (({[u]} ∪ X) ∖ {[u]}) by (apply leibniz_equiv; set_solver). unfold v_promote.
  apply (ord_put _ stake); [done|set_solver|done|done|by eapply (ord_in _ _ _ HO BSet)|].
  intros x Hx Hb. destruct (ord_find _ _ _ BSet x HO ltac:(set_solver) Hb) as (qx & _ & Hx'). by apply Hmax in Hx'.
Qed.

Lemma ord_demote X stake V a q u : Ordered X stake V → room (v_below V) → v_cons V !! (a, q) = Some u →
  (∀ a' q' u', v_cons V !! (a', q') = Some u' → a ≤ a') → Ordered X stake (v_demote a q u V).
Proof using Type.
  intros HO Hroom Hu Hmin. destruct (ord_mem _ _ _ CSet _ _ _ HO Hu) as (HuX & Hst & <- & _).
  pose proof (ord_take _ _ _ CSet _ _ HO Hu) as HO'.
  replace X with (({[u]} ∪ X) ∖ {[u]}) by (apply leibniz_equiv; set_solver). unfold v_demote.
  apply (ord_put _ stake); [done|set_solver|done|done|by eapply (ord_in _ _ _ HO CSet)|].
  intros x Hx Hc. destruct (ord_find _ _ _ CSet x HO ltac:(set_solver) Hc) as (qx & _ & Hx'). by apply Hmin in Hx'.
Qed.

Definition v_promote_next (V : View) : View :=
  match get_max_below_capacity_validator_amount (v_below V) with
  | Some a =>
      match find_first_position (v_below V) a with
      | Some q => match v_below V !! (a, q) with Some u => v_promote a q u V | None => V end
      | None => V
      end
  | None => V
  end.
Definition v_demote_next (V : View) : View :=
  let a := get_min_consensus_validator_amount (v_cons V) in
  match find_last_position (v_cons V) a with
  | Some q => match v_cons V !! (a, q) with Some u => v_demote a q u V | None => V end
  | None => V
  end.

Lemma size_delete_Z (m : ValidatorSet) k v : m !! k = Some v → Z.of_nat (size (delete k m)) = Z.of_nat (size m) - 1.
Proof using Type.
  intros Hk. rewrite map_size_delete_Some by (by exists v).
  assert (size m ≠ 0%nat); [|lia]. intros ?%map_size_empty_inv. subst. by rewrite lookup_empty in Hk.
Qed.

Lemma size_insert_Z (m : ValidatorSet) k v : m !! k = None → Z.of_nat (size (<[k := v]> m)) = Z.of_nat (size m) + 1.
Proof using Type. intros Hk. rewrite map_size_insert_None by done. lia. Qed.

(** What promoting the next validator gives. *)
Lemma promote_next_spec X stake V : Ordered X stake V → room (v_cons V) → v_below V ≠ ∅ →
  Ordered X stake (v_promote_next V) ∧
  Z.of_nat (size (v_cons (v_promote_next V))) = Z.of_nat (size (v_cons V)) + 1 ∧
  (∃ k, v_below (v_promote_next V) = delete k (v_below V)) ∧
  ∃ a, get_max_below_capacity_validator_amount (v_below V) = Some a ∧ thr ≤ a ∧
    (∀ u, u ∉ X → v_st V !! u = Some BelowCapacity → stake u ≤ a) ∧
    ∀ u, u ∉ X → v_st (v_promote_next V) !! u = Some Consensus → a ≤ stake u.
Proof using Type.
  intros HO Hroom Hb. destruct (max_below _ Hb) as (a & q & u & Ea & Eq & Eu & Hmax).
  unfold v_promote_next. rewrite Ea, Eq, Eu.
  destruct (ord_mem _ _ _ BSet _ _ _ HO Eu) as (HuX & Hst & Hs & _).
  assert (Hle : ∀ x, x ∉ X → v_st V !! x = Some Consensus → a ≤ stake x).
  { intros x Hx Hc. rewrite <-Hs. by eapply ord_le. }
  split_and!.
  - by apply ord_promote.
  - unfold v_promote, v_put. cbn -[find_next_position]. apply size_insert_Z. by apply next_fresh.
  - by exists (a, q).
  - exists a. split_and!; [done|rewrite <-Hs; by eapply (ord_in _ _ _ HO BSet)|..].
    { intros x Hx Hxb. destruct (ord_find _ _ _ BSet x HO Hx Hxb) as (qx & _ & Hx'). by apply Hmax in Hx'. }
    intros x Hx. cbn. destruct (decide (x = u)) as [->|Hne]; [intros _; lia|]. rewrite lookup_insert_ne by done. by apply Hle.
Qed.

(** What demoting the least consensus validator gives. *)
Lemma demote_next_spec X stake V : Ordered X stake V → room (v_below V) → v_cons V ≠ ∅ →
  Ordered X stake (v_demote_next V) ∧
  Z.of_nat (size (v_cons (v_demote_next V))) = Z.of_nat (size (v_cons V)) - 1 ∧
  (∃ k, v_cons (v_demote_next V) = delete k (v_cons V)) ∧ v_below (v_demote_next V) ≠ ∅ ∧
  ∀ u, u ∉ X → v_st (v_demote_next V) !! u = Some BelowCapacity →
    stake u ≤ get_min_consensus_validator_amount (v_cons V).
Proof using Type.
  intros HO Hroom Hc. destruct (min_consensus _ Hc) as (q & u & Eq & Eu & Hmin).
  unfold v_demote_next. rewrite Eq, Eu. set (a := get_min_consensus_validator_amount _) in *.
  destruct (ord_mem _ _ _ CSet _ _ _ HO Eu) as (HuX & Hst & Hs & _).
  split_and!.
  - by apply ord_demote.
  - by eapply size_delete_Z.
  - by exists (a, q).
  - apply insert_non_empty.
  - intros x Hx. cbn. destruct (decide (x = u)) as [->|Hne]; [intros _; lia|]. rewrite lookup_insert_ne by done.
    intros Hxb. rewrite <-Hs. by eapply ord_le.
Qed.

Lemma below_mem X stake V u : Ordered X stake V → u ∉ X → v_st V !! u = Some BelowCapacity → v_below V ≠ ∅.
Proof using Type.
  intros HO Hu Hst. destruct (ord_find _ _ _ BSet u HO Hu Hst) as (q & _ & Hq). intros E. cbn in Hq. by rewrite E, lookup_empty in Hq.
Qed.

Lemma min_le_consensus X stake V u : Ordered X stake V → u ∉ X → v_st V !! u = Some Consensus →
  get_min_consensus_validator_amount (v_cons V) ≤ stake u.
Proof using Type.
  intros HO Hu Hst. destruct (ord_find _ _ _ CSet u HO Hu Hst) as (q & _ & Hq). cbn in Hq.
  destruct (min_consensus (v_cons V)) as (? & ? & _ & _ & Hmin); [|by eapply Hmin].
  intros E. by rewrite E, lookup_empty in Hq.
Qed.

(** ** The updates of the sets, on views *)

Definition v_from_consensus (v : A) (pre post q : Z) (V : View) : View :=
  let V1 := v_take CSet (pre, q) V in
  let max_bc := default 0 (get_max_below_capacity_validator_amount (v_below V)) in
  if post <? thr then v_promote_next (v_drop v BelowThreshold V1)
  else if post <? max_bc then v_put BSet post v (v_promote_next V1)
  else v_put CSet post v V1.
Definition v_from_below (v : A) (pre post q : Z) (V : View) : View :=
  let V1 := v_take BSet (pre, q) V in
  if get_min_consensus_validator_amount (v_cons V) <? post then v_put CSet post v (v_demote_next V1)
  else if thr <=? post then v_put BSet post v V1
  else v_drop v BelowThreshold V1.
Definition v_from_none (v : A) (post : Z) (V : View) : View :=
  if Z.of_nat (size (v_cons V)) <? slots then v_put CSet post v V
  else if get_min_consensus_validator_amount (v_cons V) <? post then v_put CSet post v (v_demote_next V)
  else v_put BSet post v V.

Lemma minus_self (v : A) : {[v]} ∖ {[v]} = (∅ : gset A).
Proof using Type. set_solver. Qed.

(** A validator in no set can be left out. *)
Lemma ord_exclude stake V v : Ordered ∅ stake V → (∀ w, v_st V !! v ≠ Some (kind_state w)) → Ordered {[v]} stake V.
Proof using Type.
  intros [[Hset Hpos] Hi Ho Hl] Hv. split; [split|..].
  - intros w a q u. rewrite Hset. split; [|set_solver]. intros (_ & Hu & ?). split; [|done]. intros ->%elem_of_singleton. by destruct (Hv w).
  - intros u Hu. apply Hpos. set_solver.
  - intros w u _. apply Hi. set_solver.
  - intros u _. apply Ho. set_solver.
  - intros u u' _ _. apply Hl; set_solver.
Qed.

Lemma wf_ext stake stake' V : (∀ u, stake' u = stake u) → wf_view stake V → wf_view stake' V.
Proof using Type.
  intros Hs [[[Hset Hpos] Hi Ho Hl] Hsz Hfull]. split; [|done..]. split; [split|..]; intros *; rewrite ?Hs; eauto.
Qed.

(** The stake of a validator below the threshold that stays there. *)
Lemma wf_restake stake stake' V v : wf_view stake V → (∀ u, u ≠ v → stake' u = stake u) →
  v_st V !! v = Some BelowThreshold → stake' v < thr → wf_view stake' V.
Proof using Type.
  intros [HO Hsz Hfull] Hs Hst Hlt. split; [|done..].
  assert (Hno : ∀ w, v_st V !! v ≠ Some (kind_state w)) by (intros [] E; cbn [kind_state] in E; congruence).
  pose proof (ord_drop _ _ stake' _ v BelowThreshold (ord_exclude _ _ _ HO Hno) ltac:(set_solver) Hs ltac:(by intros []) ltac:(done)) as HO'.
  rewrite minus_self in HO'. replace (v_drop v BelowThreshold V) with V in HO'; [done|].
  assert (Hn : v_pos V !! v = None).
  { apply eq_None_not_Some. intros [w Hw]%(rep_pos _ _ _ (ord_rep _ _ _ HO)); [by destruct (Hno w)|set_solver]. }
  unfold v_drop. rewrite insert_id, delete_id by done. by destruct V.
Qed.

Section step.
Context (stake stake' : A → Z) (v : A) (Hstake : ∀ u, u ≠ v → stake' u = stake u).

Lemma put_size w V : room (v_set w V) → Z.of_nat (size (v_cons (v_put w (stake' v) v V))) =
  Z.of_nat (size (v_cons V)) + match w with CSet => 1 | BSet => 0 end.
Proof using Type.
  intros Hr. destruct w; [|cbn; lia]. cbn -[find_next_position]. apply size_insert_Z. by apply next_fresh.
Qed.

(** A validator put back into a set it may be in. *)
Lemma wf_put w V : Ordered {[v]} stake V → room (v_set w V) → thr ≤ stake' v →
  (∀ u, u ∉ ({[v]} : gset A) → v_st V !! u = Some (kind_state (match w with CSet => BSet | BSet => CSet end)) →
     match w with CSet => stake u ≤ stake' v | BSet => stake' v ≤ stake u end) →
  match w with
  | CSet => Z.of_nat (size (v_cons V)) + 1 ≤ slots ∧ (v_below V ≠ ∅ → Z.of_nat (size (v_cons V)) + 1 = slots)
  | BSet => Z.of_nat (size (v_cons V)) = slots
  end → wf_view stake' (v_put w (stake' v) v V).
Proof using Hstake.
  intros HO Hr Hthr Hcmp Hsz. split.
  - rewrite <-(minus_self v). apply (ord_put _ stake); try done. set_solver.
  - rewrite put_size by done. destruct w; lia.
  - intros Hb. rewrite put_size by done. destruct w; [|lia]. cbn in Hb. destruct Hsz as [_ Hsz]. by apply Hsz.
Qed.

Lemma wf_from_consensus V q : wf_view stake V → room (v_cons V) → room (v_below V) → 0 ≤ stake' v →
  v_cons V !! (stake v, q) = Some v → wf_view stake' (v_from_consensus v (stake v) (stake' v) q V).
Proof using Hstake.
  intros [HO Hslots Hfull] Hrc Hrb Hpost Hv. pose proof (ord_take _ _ _ CSet _ _ HO Hv) as H1.
  set (V1 := v_take CSet (stake v, q) V) in *. rewrite (right_id_L ∅ (∪)) in H1.
  assert (Hsz : Z.of_nat (size (v_cons V1)) = Z.of_nat (size (v_cons V)) - 1) by (by eapply size_delete_Z).
  assert (Hr1 : room (v_cons V1)) by (by apply room_delete).
  unfold v_from_consensus. fold V1. destruct (Z.ltb_spec (stake' v) thr) as [Hlt|Hge].
  { pose proof (ord_drop _ _ stake' _ v BelowThreshold H1 ltac:(set_solver) Hstake ltac:(by intros []) ltac:(done)) as H2.
    rewrite minus_self in H2. destruct (decide (v_below V = ∅)) as [Hb|Hb].
    - unfold v_promote_next. cbn [v_drop v_below]. change (v_below V1) with (v_below V).
      rewrite (proj2 (max_below_empty _) Hb). split; [done|change (v_cons _) with (v_cons V1); lia|by intros []].
    - destruct (promote_next_spec _ _ _ H2 Hr1 Hb) as (H3 & Hsz3 & _ & _). specialize (Hfull Hb).
      change (v_cons (v_drop _ _ _)) with (v_cons V1) in Hsz3. split; [done|..]; rewrite Hsz3; lia. }
  destruct (decide (v_below V = ∅)) as [Hb|Hb].
  { rewrite (proj2 (max_below_empty _) Hb). cbn [default]. destruct (Z.ltb_spec (stake' v) 0); [lia|].
    apply wf_put; [done..| |split; [lia|by intros []]]. intros u Hu Hst. by destruct (below_mem _ _ _ u H1 Hu Hst). }
  destruct (promote_next_spec _ _ _ H1 Hr1 Hb) as (H2 & Hsz2 & (k & Hbk) & a & Ea & Ha & Hmax & Hcons).
  change (v_below V1) with (v_below V) in *. rewrite Ea. change (default 0 (Some a)) with a. specialize (Hfull Hb).
  destruct (Z.ltb_spec (stake' v) a).
  - apply wf_put; [done|unfold v_set; rewrite Hbk; by apply room_delete|done| |lia].
    intros u Hu Hst. specialize (Hcons u Hu Hst). lia.
  - apply wf_put; [done..| |split; lia]. intros u Hu Hst. specialize (Hmax u Hu Hst). lia.
Qed.

Lemma wf_from_below V q : wf_view stake V → room (v_cons V) → room (v_below V) → 0 < slots →
  v_below V !! (stake v, q) = Some v → wf_view stake' (v_from_below v (stake v) (stake' v) q V).
Proof using Hstake.
  intros [HO Hslots Hfull] Hrc Hrb Hpos Hv. pose proof (ord_take _ _ _ BSet _ _ HO Hv) as H1.
  set (V1 := v_take BSet (stake v, q) V) in *. rewrite (right_id_L ∅ (∪)) in H1.
  assert (Hr1 : room (v_below V1)) by (by apply room_delete).
  specialize (Hfull ltac:(intros E; by rewrite E, lookup_empty in Hv)).
  unfold v_from_below. fold V1. change (v_cons V) with (v_cons V1) in *.
  assert (Hc : v_cons V1 ≠ ∅) by (intros E; rewrite E, map_size_empty in Hfull; lia).
  destruct (Z.ltb_spec (get_min_consensus_validator_amount (v_cons V1)) (stake' v)) as [Hlt|Hge].
  - destruct (demote_next_spec _ _ _ H1 Hr1 Hc) as (H2 & Hsz & (k & Hk) & _ & Hle).
    destruct (min_consensus _ Hc) as (q0 & u0 & _ & Hu0 & _).
    destruct (ord_mem _ _ _ CSet _ _ _ H1 Hu0) as (Hu0X & Hst0 & Hs0 & _).
    pose proof (ord_in _ _ _ H1 CSet _ Hu0X Hst0).
    apply wf_put; [done|unfold v_set; rewrite Hk; by apply room_delete|lia| |lia].
    intros u Hu Hst. specialize (Hle u Hu Hst). lia.
  - destruct (Z.leb_spec thr (stake' v)).
    + apply wf_put; [done..| |lia]. intros u Hu Hst. pose proof (min_le_consensus _ _ _ u H1 Hu Hst). lia.
    + pose proof (ord_drop _ _ stake' _ v BelowThreshold H1 ltac:(set_solver) Hstake ltac:(by intros []) ltac:(done)) as H2.
      rewrite minus_self in H2. split; [done|change (v_cons (v_drop _ _ _)) with (v_cons V1); lia..].
Qed.

(** A validator that is in no set. *)
Lemma wf_from_none V : Ordered {[v]} stake V → Z.of_nat (size (v_cons V)) ≤ slots →
  (v_below V ≠ ∅ → Z.of_nat (size (v_cons V)) = slots) → room (v_cons V) → room (v_below V) → 0 < slots →
  thr ≤ stake' v → wf_view stake' (v_from_none v (stake' v) V).
Proof using Hstake.
  intros HO Hslots Hfull Hrc Hrb Hpos Hthr. unfold v_from_none.
  destruct (Z.ltb_spec (Z.of_nat (size (v_cons V))) slots) as [Hlt|Hge].
  - apply wf_put; [done..| |split; [lia|intros Hb; specialize (Hfull Hb); lia]].
    intros u Hu Hst. specialize (Hfull (below_mem _ _ _ u HO Hu Hst)). lia.
  - assert (Hc : v_cons V ≠ ∅) by (intros E; rewrite E, map_size_empty in Hge; lia).
    destruct (Z.ltb_spec (get_min_consensus_validator_amount (v_cons V)) (stake' v)).
    + destruct (demote_next_spec _ _ _ HO Hrb Hc) as (H2 & Hsz & (k & Hk) & _ & Hle).
      apply wf_put; [done|unfold v_set; rewrite Hk; by apply room_delete|done| |lia].
      intros u Hu Hst. specialize (Hle u Hu Hst). lia.
    + apply wf_put; [done..| |lia]. intros u Hu Hst. pose proof (min_le_consensus _ _ _ u HO Hu Hst). lia.
Qed.
End step.
End invariant.

(** ** The operations on the storage act on views

    [runs m s Q]: [m] succeeds from [s] with a state and a value in [Q]. *)

Definition runs {B} (m : M B) (s : VSets) (Q : VSets → B → Prop) : Prop := ∃ s' b, m s = (s', Ok b) ∧ Q s' b.

Lemma runs_bind {B C} (m : M B) (f : B → M C) s Q : runs m s (λ s' b, runs (f b) s' Q) → runs (mbind f m) s Q.
Proof using Type.
  intros (s1 & b & E & s2 & c & E2 & HQ). exists s2, c. unfold mbind, stt_bind. by rewrite E.
Qed.

Lemma runs_conseq {B} (m : M B) s (Q Q' : VSets → B → Prop) : runs m s Q → (∀ s b, Q s b → Q' s b) → runs m s Q'.
Proof using Type. intros (s' & b & E & HQ) Himp. exists s', b. auto. Qed.

Lemma runs_ret {B} (b : B) s Q : Q s b → runs (mret b) s Q.
Proof using Type. intros HQ. by exists s, b. Qed.
Lemma runs_lift {B} (r : res (PosError A) B) b s Q : r = Ok b → Q s b → runs (lift r) s Q.
Proof using Type. intros -> HQ. by exists s, b. Qed.
Lemma runs_get s (Q : VSets → VSets → Prop) : Q s s → runs get s Q.
Proof using Type. intros HQ. by exists s, s. Qed.
Lemma runs_gets {B} (f : VSets → B) s Q : Q s (f s) → runs (gets f) s Q.
Proof using Type. intros HQ. by exists s, (f s). Qed.
Lemma runs_modify f s (Q : VSets → unit → Prop) : Q (f s) () → runs (modify f) s Q.
Proof using Type. intros HQ. by exists (f s), (). Qed.

Section refine.
Context (params : PosParams) (past cur off : Z).
Let p := owned params.
Let e := cur + off.

(** What an update at an epoch leaves alone: the other epochs of the sets and
    everything else but the states. *)
Definition frame (s s' : VSets) : Prop :=
  (∀ e', e' ≠ e → consensus_at s' e' = consensus_at s e' ∧ below_at s' e' = below_at s e' ∧
     positions_at s' e' = positions_at s e') ∧
  validator_addresses s' = validator_addresses s ∧ validator_deltas s' = validator_deltas s ∧
  total_deltas s' = total_deltas s ∧ total_active_deltas s' = total_active_deltas s ∧
  total_consensus_stake s' = total_consensus_stake s.

#[local] Instance frame_preorder : PreOrder frame.
Proof using Type.
  split; [intros s; by split_and!|]. intros s1 s2 s3 (Ha & ? & ? & ? & ? & ?) (Hb & ? & ? & ? & ? & ?).
  split_and!; try congruence. intros e' He. destruct (Ha e' He) as (? & ? & ?), (Hb e' He) as (? & ? & ?). split_and!; congruence.
Qed.

Definition read_state (h : EpochedSt ValidatorState) : option ValidatorState :=
  match h_get params OffsetPipelineLen OffsetMaxProposalPeriodPlus e h with Ok o => o | _ => None end.
Definition view (s : VSets) : View :=
  mk_view (consensus_at s e) (below_at s e) (positions_at s e) (omap read_state (validator_state s)).

(** The states of all validators were last written at the current epoch or
    before. *)
Definition states_ok (s : VSets) : Prop :=
  map_Forall (λ _ h, ∃ lu, lu ≤ cur ∧ wf_epoched (pipeline_len p) past lu h) (validator_state s).

(** The outcome of an update: the view [V], reached from [s]. *)
Definition reaches {B} (s : VSets) (V : View) (b : B) (s' : VSets) (b' : B) : Prop :=
  states_ok s' ∧ view s' = V ∧ frame s s' ∧ b' = b.

Lemma reaches_from {B} s s1 V (b b' : B) s' : frame s s1 → reaches s1 V b s' b' → reaches s V b s' b'.
Proof using Type. intros Hf (? & ? & ? & ?). split_and!; try done. by transitivity s1. Qed.

Lemma at_upd {D} `{Empty D} (h : EpochedSt D) e1 f e2 :
  at_ (data (upd_at e1 f h)) e2 = if decide (e2 = e1) then f (at_ (data h) e2) else at_ (data h) e2.
Proof using Type.
  unfold upd_at, with_data, at_. cbn. case_decide as Hd; [by rewrite Hd, lookup_insert_eq|by rewrite lookup_insert_ne].
Qed.

(** Views and frames of written sets, by computation. *)
Ltac view_tac :=
  unfold view, frame, consensus_at, below_at, positions_at; cbn [upd_set_at upd_positions_at upd_sets id
    consensus_validator_set below_capacity_validator_set validator_set_positions validator_addresses
    validator_state validator_deltas total_deltas total_active_deltas total_consensus_stake];
  lazymatch goal with
  | |- _ ∧ _ => (split_and!; [|done..]); intros e' He; rewrite ?at_upd, ?decide_False by done; done
  | |- _ => rewrite ?at_upd, ?decide_True by done; reflexivity
  end.

Lemma insert_runs w stake a s : states_ok s → 0 ≤ stake ≤ MAXS →
  runs (insert_validator_into_set w stake e a) s
    (reaches s (let V := view s in let q := find_next_position (v_set w V) stake in
                let V' := v_upd w (<[(stake, q) := a]>) V in
                mk_view (v_cons V') (v_below V') (<[a := q]> (v_pos V')) (v_st V')) ()).
Proof using Type.
  intros Hok Hs. apply runs_bind. apply (runs_lift _ ()).
  { destruct w; [done|]. cbn. unfold invert, ZAmount.sub. by rewrite chk_in by lia. }
  apply runs_bind, runs_get, runs_bind, runs_modify, runs_modify.
  destruct w; (split; [exact Hok|]; split; [|split; [|done]]); view_tac.
Qed.

Lemma remove_runs w stake q s : states_ok s → 0 ≤ stake ≤ MAXS →
  runs (set_remove w stake e q) s (reaches s (v_take w (stake, q) (view s)) (v_set w (view s) !! (stake, q))).
Proof using Type.
  intros Hok Hs. apply runs_bind. apply (runs_lift _ ()).
  { destruct w; [done|]. cbn. unfold invert, ZAmount.sub. by rewrite chk_in by lia. }
  apply runs_bind, runs_get, runs_bind, runs_modify, runs_ret.
  destruct w; (split; [exact Hok|]; split; [|split; [|done]]); view_tac.
Qed.

Lemma remove_position_runs v s : states_ok s →
  runs (remove_position v e) s
    (reaches s (let V := view s in mk_view (v_cons V) (v_below V) (delete v (v_pos V)) (v_st V)) ()).
Proof using Type.
  intros Hok. apply runs_modify. (split; [exact Hok|]; split; [|split; [|done]]); view_tac.
Qed.

Context (Hpast : offset_value OffsetMaxProposalPeriodPlus params = Some past) (Hpast0 : 0 ≤ past).
Context (Hcur : 0 ≤ cur) (Hoff : 0 ≤ off ≤ pipeline_len p) (Hmax : cur + pipeline_len p < 2 ^ 64).

Lemma h_set_ok x (h : EpochedSt ValidatorState) lu : lu ≤ cur → wf_epoched (pipeline_len p) past lu h →
  ∃ h', h_set params OffsetMaxProposalPeriodPlus x cur off h = Ok h' ∧
    wf_epoched (pipeline_len p) past cur h' ∧ read_state h' = Some x.
Proof using Hpast Hpast0 Hoff Hmax Hcur.
  intros Hlu Hw. destruct (set_get_spec (pipeline_len p) past lu h x cur off e Hpast0 Hw Hlu Hoff Hmax ltac:(unfold e; lia))
    as (h' & r & r' & Hset & Hw' & _ & Hget & _ & Hr').
  exists h'. split; [|split; [done|]].
  - unfold h_set, past_of. destruct Hw; cbn -[EpochedM.set offset_value]; [|rewrite Hpast; cbn -[EpochedM.set offset_value]; by rewrite Hset].
    unfold EpochedM.set, EpochedM.update_data in *. cbn in Hset |- *. by rewrite Hset.
  - unfold read_state, h_get. inversion Hw' as [|? ? ? ? ? ? E]; subst.
    { unfold EpochedM.set in Hset. destruct (EpochedM.update_data past cur h) as [h1|] eqn:Eu; [|done].
      cbn in Hset. unfold set_at_epoch in Hset. destruct (EpochM.unchecked_add cur off); [|done]. cbn in Hset.
      injection Hset as E1 _ E2. by apply insert_non_empty in E2. }
    cbn [last_update]. change (offset_value OffsetPipelineLen params) with (Some (pipeline_len p)). rewrite Hpast.
    cbn [expect mbind res_bind]. rewrite Hget. cbn.
    destruct Hr' as [->|(_ & j & Hj & _)]; [unfold e; lia|done|unfold e in Hj; lia].
Qed.

Lemma handle_ok s v : states_ok s → ∃ lu, lu ≤ cur ∧ wf_epoched (pipeline_len p) past lu (validator_state_handle s v).
Proof using Hcur.
  intros Hok. unfold validator_state_handle. destruct (validator_state s !! v) as [h|] eqn:E; cbn [default]; [by apply (Hok v)|].
  exists cur. split; [done|]. by constructor.
Qed.

Lemma state_set_runs v x s : states_ok s →
  runs (state_set params v x cur off) s
    (reaches s (let V := view s in mk_view (v_cons V) (v_below V) (v_pos V) (<[v := x]> (v_st V))) ()).
Proof using Hpast Hpast0 Hoff Hmax Hcur.
  intros Hok. destruct (handle_ok s v Hok) as (lu & Hlu & Hw).
  destruct (h_set_ok x _ lu Hlu Hw) as (h' & Hset & Hw' & Hr).
  apply runs_bind, runs_get, runs_bind. apply (runs_lift _ h'); [done|]. apply runs_modify.
  split; [|split; [|split; [|done]]]; [| |by split_and!].
  - intros u hu. cbn. rewrite lookup_insert_Some. intros [[<- <-]|[_ Hu]]; [by exists cur|by apply (Hok u)].
  - unfold view. cbn [upd_state validator_state]. by rewrite (omap_insert_Some _ _ _ _ x).
Qed.

Lemma runs_seq {B C} (m : M B) (f : B → M C) s V b V' (c : C) : runs m s (reaches s V b) →
  (∀ s1, states_ok s1 → view s1 = V → frame s s1 → runs (f b) s1 (reaches s1 V' c)) →
  runs (mbind f m) s (reaches s V' c).
Proof using Type.
  intros (s1 & b1 & E & Hok & HV & Hf & ->) Hk. apply runs_bind. exists s1, b. split; [done|].
  eapply runs_conseq; [by apply Hk|]. intros s2 c2. by apply reaches_from.
Qed.

Lemma put_runs w stake a s : states_ok s → 0 ≤ stake ≤ MAXS →
  runs (_ ← insert_validator_into_set w stake e a; state_set params a (kind_state w) cur off) s
    (reaches s (v_put w stake a (view s)) ()).
Proof using Hpast Hpast0 Hoff Hmax Hcur.
  intros Hok Hs. eapply runs_seq; [by apply insert_runs|]. intros s1 Hok1 HV1 _.
  eapply runs_conseq; [by apply state_set_runs|]. intros s2 []. rewrite HV1. by destruct w.
Qed.

Lemma drop_runs a x s : states_ok s →
  runs (_ ← state_set params a x cur off; remove_position a e) s (reaches s (v_drop a x (view s)) ()).
Proof using Hpast Hpast0 Hoff Hmax Hcur.
  intros Hok. eapply runs_seq; [by apply state_set_runs|]. intros s1 Hok1 HV1 _.
  eapply runs_conseq; [by apply remove_position_runs|]. intros s2 []. by rewrite HV1.
Qed.

(** Stakes in the sets fit [I256]. *)
Definition stakes_fit (V : View) : Prop := ∀ w a q v, v_set w V !! (a, q) = Some v → 0 ≤ a ≤ MAXS.

Lemma promote_runs a s : states_ok s → stakes_fit (view s) →
  get_max_below_capacity_validator_amount (v_below (view s)) = Some a →
  runs (promote params a cur off e) s (reaches s (v_promote_next (view s)) ()).
Proof using Hpast Hpast0 Hoff Hmax Hcur.
  intros Hok Hfit Ea. assert (Hb : v_below (view s) ≠ ∅).
  { intros E. apply max_below_empty in E. congruence. }
  destruct (max_below _ Hb) as (a' & q & u & Ea' & Eq & Eu & _). assert (a' = a) as -> by congruence.
  pose proof (Hfit BSet _ _ _ Eu) as Ha. unfold v_promote_next. rewrite Ea, Eq, Eu.
  apply runs_bind. apply (runs_lift _ ()).
  { cbn. unfold invert, ZAmount.sub. by rewrite chk_in by lia. }
  apply runs_bind, runs_get, runs_bind. apply (runs_lift _ q); [change (below_at s e) with (v_below (view s)); by rewrite Eq|].
  eapply runs_seq; [by apply remove_runs|]. intros s1 Hok1 HV1 _. apply runs_bind.
  apply (runs_lift _ u); [cbn [v_set]; by rewrite Eu|]. eapply runs_conseq; [by apply (put_runs CSet)|]. by rewrite HV1.
Qed.

Lemma demote_runs v post s : states_ok s → stakes_fit (view s) → 0 ≤ post ≤ MAXS → v_cons (view s) ≠ ∅ →
  runs (insert_into_consensus_and_demote_to_below_cap params v post
          (get_min_consensus_validator_amount (v_cons (view s))) cur off e) s
    (reaches s (v_put CSet post v (v_demote_next (view s))) ()).
Proof using Hpast Hpast0 Hoff Hmax Hcur.
  intros Hok Hfit Hpost Hc. destruct (min_consensus _ Hc) as (q & u & Eq & Eu & _).
  pose proof (Hfit CSet _ _ _ Eu) as Ha. unfold v_demote_next. rewrite Eq, Eu.
  apply runs_bind, runs_get, runs_bind. apply (runs_lift _ q); [change (consensus_at s e) with (v_cons (view s)); by rewrite Eq|].
  eapply runs_seq; [by apply remove_runs|]. intros s1 Hok1 HV1 _. apply runs_bind.
  apply (runs_lift _ u); [cbn [v_set]; by rewrite Eu|]. apply runs_bind. apply (runs_lift _ e).
  { unfold epoch_add, EpochM.checked_add. by rewrite chk_in by lia. }
  cbn beta. eapply runs_seq; [by apply insert_runs|]. intros s2 Hok2 HV2 _.
  eapply runs_seq; [by apply state_set_runs|]. intros s3 Hok3 HV3 _.
  eapply runs_conseq; [by apply (put_runs CSet)|]. rewrite HV3, HV2, HV1. done.
Qed.

Let thr := validator_stake_threshold p.
Let slots := max_validator_slots p.

Lemma stakes_fit_take V w k : stakes_fit V → stakes_fit (v_take w k V).
Proof using Type.
  intros Hfit w' a q v. unfold v_take. rewrite v_set_upd. case_decide; [|by apply Hfit].
  intros [_ ?]%lookup_delete_Some. by eapply Hfit.
Qed.

(** A consensus validator that stays there keeps its state. *)
Lemma stay_runs v post s : states_ok s → 0 ≤ post ≤ MAXS → v_st (view s) !! v = Some Consensus →
  runs (insert_validator_into_set CSet post e v) s (reaches s (v_put CSet post v (view s)) ()).
Proof using Type.
  intros Hok Hpost Hst. eapply runs_conseq; [by apply insert_runs|]. intros s1 [].
  unfold v_put. cbn [kind_state]. by rewrite (insert_id (v_st (view s))).
Qed.

Lemma from_consensus_runs v pre post q s : states_ok s → stakes_fit (view s) → 0 ≤ pre ≤ MAXS → 0 ≤ post ≤ MAXS →
  v_st (view s) !! v = Some Consensus →
  runs (update_from_consensus params v pre post q cur off e) s
    (reaches s (v_from_consensus thr v pre post q (view s)) ()).
Proof using Hpast Hpast0 Hoff Hmax Hcur.
  intros Hok Hfit Hpre Hpost Hst. unfold update_from_consensus.
  eapply runs_seq; [by apply remove_runs|]. intros s1 Hok1 HV1 _. apply runs_bind, runs_gets.
  change (below_at s1 e) with (v_below (view s1)). unfold v_from_consensus. rewrite HV1.
  change (v_below (v_take CSet (pre, q) (view s))) with (v_below (view s)).
  assert (Hfit1 : stakes_fit (view s1)) by (rewrite HV1; by apply stakes_fit_take).
  fold p thr. destruct (Z.ltb_spec post thr) as [Hlt|Hge].
  - eapply runs_seq; [by apply state_set_runs|]. intros s2 Hok2 HV2 _. eapply runs_seq; [by apply remove_position_runs|].
    intros s3 Hok3 HV3 _. rewrite HV2, HV1 in HV3. change (view s3 = v_drop v BelowThreshold (v_take CSet (pre, q) (view s))) in HV3.
    destruct (get_max_below_capacity_validator_amount (v_below (view s))) as [a|] eqn:Ea.
    + rewrite <-HV3. apply promote_runs; [done|rewrite HV3; by apply stakes_fit_take|by rewrite HV3].
    + apply runs_ret. unfold v_promote_next. cbn [v_drop v_below]. change (v_below (v_take CSet (pre, q) (view s))) with (v_below (view s)).
      rewrite Ea. by split_and!.
  - destruct (get_max_below_capacity_validator_amount (v_below (view s))) as [a|] eqn:Ea.
    2:{ cbn [default]. destruct (Z.ltb_spec post 0); [lia|]. rewrite <-HV1. apply stay_runs; [done..|by rewrite HV1]. }
    change (default 0 (Some a)) with a. destruct (Z.ltb_spec post a).
    + eapply runs_seq; [by apply promote_runs; [..|rewrite HV1]|]. intros s2 Hok2 HV2 _.
      eapply runs_conseq; [by apply (put_runs BSet)|]. intros s3 []. by rewrite HV2, HV1.
    + rewrite <-HV1. apply stay_runs; [done..|by rewrite HV1].
Qed.

Lemma from_below_runs v pre post q s : states_ok s → stakes_fit (view s) → 0 ≤ pre ≤ MAXS → 0 ≤ post ≤ MAXS →
  v_cons (view s) ≠ ∅ →
  runs (update_from_below_capacity params v pre post q cur off e) s
    (reaches s (v_from_below thr v pre post q (view s)) ()).
Proof using Hpast Hpast0 Hoff Hmax Hcur.
  intros Hok Hfit Hpre Hpost Hc. unfold update_from_below_capacity.
  eapply runs_seq; [by apply remove_runs|]. intros s1 Hok1 HV1 _. apply runs_bind, runs_gets.
  change (consensus_at s1 e) with (v_cons (view s1)). unfold v_from_below.
  assert (Ec : v_cons (view s1) = v_cons (view s)) by (by rewrite HV1). rewrite <-HV1, <-Ec. rewrite <-Ec in Hc.
  assert (Hfit1 : stakes_fit (view s1)) by (rewrite HV1; by apply stakes_fit_take).
  fold p thr. destruct (Z.ltb_spec (get_min_consensus_validator_amount (v_cons (view s1))) post).
  - by apply demote_runs.
  - destruct (Z.leb_spec thr post); [by apply (put_runs BSet)|]. by apply drop_runs.
Qed.

Lemma from_none_runs v post s : states_ok s → stakes_fit (view s) → 0 ≤ post ≤ MAXS → 0 < slots →
  runs (update_from_below_threshold params v post cur off e) s (reaches s (v_from_none slots v post (view s)) ()).
Proof using Hpast Hpast0 Hoff Hmax Hcur.
  intros Hok Hfit Hpost Hslots. unfold update_from_below_threshold. apply runs_bind, runs_gets.
  unfold get_num_consensus_validators, v_from_none. change (consensus_at s e) with (v_cons (view s)). fold p slots.
  destruct (Z.ltb_spec (Z.of_nat (size (v_cons (view s)))) slots); [by apply (put_runs CSet)|].
  apply runs_bind, runs_gets. change (consensus_at s e) with (v_cons (view s)).
  destruct (Z.ltb_spec (get_min_consensus_validator_amount (v_cons (view s))) post); [|by apply (put_runs BSet)].
  apply demote_runs; try done. intros E. rewrite E, map_size_empty in *. lia.
Qed.

Lemma stakes_fit_ord X stake V : Ordered thr X stake V → (∀ u, 0 ≤ stake u ≤ MAXS) → stakes_fit V.
Proof using Type. intros HO Hs w a q u Hu. destruct (ord_mem _ _ _ _ _ _ _ _ HO Hu) as (_ & _ & <- & _). apply Hs. Qed.

Lemma update_validator_set_spec v c stake s : states_ok s → (∀ u, 0 ≤ stake u ≤ MAXS) → 0 < slots →
  read_validator_stake params v e s = (s, Ok (stake v)) → 0 ≤ stake v + c ≤ MAXS →
  wf_view slots thr stake (view s) → room (consensus_at s e) → room (below_at s e) →
  (∃ w, v_st (view s) !! v = Some (kind_state w)) ∨ v_st (view s) !! v = Some BelowThreshold →
  runs (update_validator_set params v c cur (Some off)) s (λ s' _, states_ok s' ∧ frame s s' ∧
    wf_view slots thr (λ u, if decide (u = v) then stake v + c else stake u) (view s')).
Proof using Hpast Hpast0 Hoff Hmax Hcur.
  intros Hok Hs Hslots Hread Hpost Hwf Hrc Hrb Hst. set (stake' := λ u, if decide (u = v) then _ else _).
  assert (Hs' : ∀ u, u ≠ v → stake' u = stake u) by (intros u Hu; unfold stake'; by rewrite decide_False).
  assert (Hv' : stake' v = stake v + c) by (unfold stake'; by rewrite decide_True).
  pose proof Hwf as [HO Hsz Hfull]. pose proof (stakes_fit_ord _ _ _ HO Hs) as Hfit.
  unfold update_validator_set. destruct (Z.eqb_spec c 0) as [->|Hc].
  { apply runs_ret. split_and!; try done. apply (wf_ext _ _ stake); [|done]. intros u. destruct (decide (u = v)) as [->|]; [lia|auto]. }
  change (default (pipeline_len (owned params)) (Some off)) with off.
  apply runs_bind. apply (runs_lift _ e).
  { unfold epoch_add, EpochM.checked_add. by rewrite chk_in by lia. }
  apply runs_bind. exists s, (stake v). split; [done|]. apply runs_bind. apply (runs_lift _ (stake v)).
  { unfold change. specialize (Hs v). by rewrite (proj2 (Z.leb_le _ _)) by lia. }
  apply runs_bind. apply (runs_lift _ (stake v + c)).
  { rewrite chk_i_in by lia. done. }
  unfold from_change. rewrite Z.abs_eq by lia. rewrite <-Hv'. fold p thr.
  destruct ((stake v <? thr) && (stake' v <? thr)) eqn:Elow.
  { apply runs_ret. split_and!; try done. boolp. apply (wf_restake _ _ stake _ _ v); try done.
    destruct Hst as [[w Hw]|]; [|done]. pose proof (ord_in _ _ _ _ HO w v ltac:(set_solver) Hw). lia. }
  apply runs_bind, runs_gets. unfold read_validator_set_position. change (positions_at s e) with (v_pos (view s)).
  change (consensus_at s e) with (v_cons (view s)) in *. change (below_at s e) with (v_below (view s)) in *.
  destruct Hst as [[w Hw]|Hlow].
  - destruct (ord_find _ _ _ _ w v HO ltac:(set_solver) Hw) as (q & -> & Hq). apply runs_bind, runs_gets.
    change (consensus_at s e) with (v_cons (view s)). destruct w.
    + rewrite bool_decide_true by done. eapply runs_conseq; [apply from_consensus_runs; try done; lia|].
      intros s1 [] (? & -> & ? & _). split_and!; try done. by apply wf_from_consensus; [..|lia|].
    + rewrite bool_decide_false.
      2:{ intros Hcq. destruct (ord_mem _ _ _ _ CSet _ _ _ HO Hcq) as (_ & Hc' & _). cbn in Hw, Hc'. congruence. }
      eapply runs_conseq; [apply from_below_runs; try done; try lia|].
      { intros E. rewrite E, map_size_empty in Hfull.
        specialize (Hfull ltac:(intros E'; cbn [v_set] in Hq; by rewrite E', lookup_empty in Hq)). lia. }
      intros s1 [] (? & -> & ? & _). split_and!; try done. by apply wf_from_below.
  - assert (Hno : ∀ w, v_st (view s) !! v ≠ Some (kind_state w)) by (intros [] E; cbn [kind_state] in E; congruence).
    replace (v_pos (view s) !! v) with (None : option Z).
    2:{ symmetry. apply eq_None_not_Some. intros [w Hw]%(rep_pos _ _ _ (ord_rep _ _ _ _ HO)); [by destruct (Hno w)|set_solver]. }
    eapply runs_conseq; [apply from_none_runs; try done; lia|]. intros s1 [] (? & -> & ? & _). split_and!; try done.
    apply (wf_from_none _ _ stake); try done; [by apply ord_exclude|].
    pose proof (ord_out _ _ _ _ HO v ltac:(set_solver) Hlow). boolp. lia.
Qed.

(** ** Stakes *)

Definition delta_sum (s : VSets) (u : A) : Z :=
  match d_sum params fits_change OffsetPipelineLen OffsetMaxProposalPeriodOrSlashProcessingLenPlus e
          (validator_deltas_handle s u) with
  | Ok o => default 0 o
  | _ => 0
  end.

(** A validator's changes are in order, and leave room for one more change [c]. *)
Definition deltas_ok (dpast : Z) (s : VSets) (v : A) (c : Z) : Prop :=
  ∃ lu, lu ≤ cur ∧ wf_epoched (pipeline_len p) dpast lu (validator_deltas_handle s v) ∧
    - MAXS ≤ downs (change_at (data (validator_deltas_handle s v))) (cur + pipeline_len p + 1) + Z.min 0 c ∧
    ups (change_at (data (validator_deltas_handle s v))) (cur + pipeline_len p + 1) + Z.max 0 c ≤ MAXS.

Lemma d_sum_eq (dpast lu : Z) (h : EpochedSt Z) x :
  offset_value OffsetMaxProposalPeriodOrSlashProcessingLenPlus params = Some dpast → lu ≤ cur →
  wf_epoched (pipeline_len p) dpast lu h →
  EpochedDeltaM.get_sum fits_change (pipeline_len p) dpast e h = Some x →
  d_sum params fits_change OffsetPipelineLen OffsetMaxProposalPeriodOrSlashProcessingLenPlus e h = Ok x.
Proof using Hmax Hoff.
  intros Hd Hlu Hw Hx. unfold d_sum. destruct Hw as [|lu o m]; cbn [last_update]; [by injection Hx as <-|].
  change (offset_value OffsetPipelineLen params) with (Some (pipeline_len p)). rewrite Hd. cbn [expect mbind res_bind].
  unfold EpochM.unchecked_add, EpochM.checked_add. rewrite chk_in by lia. cbn [expect mbind res_bind]. by rewrite Hx.
Qed.

Lemma update_deltas_spec dpast v c s :
  offset_value OffsetMaxProposalPeriodOrSlashProcessingLenPlus params = Some dpast → 0 < dpast →
  deltas_ok dpast s v c →
  read_validator_stake params v e s = (s, Ok (from_change (delta_sum s v))) ∧
  runs (update_validator_deltas params v c cur (Some off)) s (λ s' _,
    (∃ h, s' = upd_deltas (<[v := h]>) id id id s) ∧
    delta_sum s' v = delta_sum s v + c ∧ ∀ u, u ≠ v → delta_sum s' u = delta_sum s u).
Proof using Hoff Hmax Hcur.
  intros Hd Hdp (lu & Hlu & Hw & Hlo & Hhi). set (h := validator_deltas_handle s v) in *.
  destruct (delta_bump_spec fits_change (pipeline_len p) dpast (- MAXS) MAXS lu h c cur off)
    as (o & m & Hu & Hat & Hb & Hw' & Hsum); try done; [|lia|].
  { intros z Hz. unfold fits_change. apply Z.leb_le. lia. }
  set (h' := mk_epoched (Some cur) (Some o) (<[cur + off := change_at m (cur + off) + c]> m)) in *. destruct (Hsum e) as (x & y & Hx & Hy & Hxy); [unfold e; lia|].
  rewrite decide_True in Hxy by (unfold e; lia).
  pose proof (d_sum_eq _ _ _ _ Hd Hlu Hw Hx) as Ex. pose proof (d_sum_eq _ _ _ _ Hd (Z.le_refl cur) Hw' Hy) as Ey.
  assert (Ev : delta_sum s v = default 0 x) by (unfold delta_sum; fold h; by rewrite Ex). split.
  { unfold read_validator_stake, mbind, stt_bind, get, lift. fold h. rewrite Ex, Ev. by destruct x. }
  unfold update_validator_deltas. change (default (pipeline_len (owned params)) (Some off)) with off.
  apply runs_bind, runs_get, runs_bind. apply (runs_lift _ h').
  { unfold bump_delta, epoch_add, EpochM.checked_add. rewrite chk_in by lia. cbn [ok_or mbind res_bind].
    unfold EpochedDeltaM.get_delta_val. fold h. change (default 0 (data h !! (cur + off))) with (change_at (data h) (cur + off)).
    rewrite <-Hat by lia. rewrite chk_i_in by lia. cbn [expect mbind res_bind]. unfold d_set.
    assert (Hset : EpochedDeltaM.set fits_change dpast (change_at m (cur + off) + c) cur off h = Some h').
    { unfold EpochedDeltaM.set. rewrite Hu. cbn [mbind option_bind]. unfold set_at_epoch, EpochM.unchecked_add, EpochM.checked_add.
      by rewrite chk_in by lia. }
    assert (Hpo : past_of params OffsetMaxProposalPeriodOrSlashProcessingLenPlus h = Ok 0 ∧ last_update h = None ∨
      past_of params OffsetMaxProposalPeriodOrSlashProcessingLenPlus h = Ok dpast).
    { unfold past_of. destruct (last_update h); [right; by rewrite Hd|by left]. }
    destruct Hpo as [[-> Hn]| ->]; cbn [mbind res_bind]; [|by rewrite Hu; cbn [ok_or mbind res_bind]; rewrite Hset].
    assert (Hu0 : ∀ q, EpochedDeltaM.update_data fits_change q cur h = Some (set_last_update cur h)).
    { intros q. unfold EpochedDeltaM.update_data. by rewrite Hn. }
    unfold EpochedDeltaM.set in *. rewrite Hu0 in *. cbn [ok_or mbind res_bind] in *. by rewrite Hset. }
  apply runs_modify. split; [by exists h'|]. split.
  - rewrite Ev, <-Hxy. unfold delta_sum, validator_deltas_handle. cbn [upd_deltas validator_deltas].
    rewrite lookup_insert_eq. change (default epoched_open (Some h')) with h'. by rewrite Ey.
  - intros u Hne. unfold delta_sum, validator_deltas_handle. cbn [upd_deltas validator_deltas]. by rewrite lookup_insert_ne.
Qed.
End refine.
End vsets.

(** C6.  A stake change of an active validator, the pair of calls made by
    bonding, unbonding and redelegation: both succeed; the validator's stake at
    the epoch changes by exactly the change and no other does; and the sets of the
    epoch stay right for the new stakes: a validator is in the consensus or the
    below-capacity set exactly when its state says so, under its stake and its
    recorded position, with stake at or above the threshold; the others are below
    it; no below-capacity validator has more stake than a consensus validator; and
    the consensus set never exceeds its slots and is full while validators wait
    below capacity.  The sets of the other epochs do not change. *)
Theorem stake_change_keeps_validator_sets {A} `{Countable A} (params : PosParams) (past dpast cur off : Z)
    (s : VSets (A:=A)) (v : A) (c : Z) :
  let p := owned params in
  let e := cur + off in
  offset_value OffsetMaxProposalPeriodPlus params = Some past → 0 ≤ past →
  offset_value OffsetMaxProposalPeriodOrSlashProcessingLenPlus params = Some dpast → 0 < dpast →
  0 ≤ cur → 0 ≤ off ≤ pipeline_len p → cur + pipeline_len p < 2 ^ 64 → 0 < max_validator_slots p →
  states_ok params past cur s → deltas_ok params cur dpast s v c →
  (∀ u, 0 ≤ delta_sum params cur off s u ≤ MAXS) → 0 ≤ delta_sum params cur off s v + c ≤ MAXS →
  wf_view (max_validator_slots p) (validator_stake_threshold p) (delta_sum params cur off s) (view params cur off s) →
  room (consensus_at s e) → room (below_at s e) →
  v_st (view params cur off s) !! v ∈ [Some Consensus; Some BelowCapacity; Some BelowThreshold] →
  ∃ s', (_ ← update_validator_set params v c cur (Some off);
         update_validator_deltas params v c cur (Some off)) s = (s', Ok ()) ∧
    states_ok params past cur s' ∧
    delta_sum params cur off s' v = delta_sum params cur off s v + c ∧
    (∀ u, u ≠ v → delta_sum params cur off s' u = delta_sum params cur off s u) ∧
    wf_view (max_validator_slots p) (validator_stake_threshold p) (delta_sum params cur off s') (view params cur off s') ∧
    (∀ e', e' ≠ e → consensus_at s' e' = consensus_at s e' ∧ below_at s' e' = below_at s e').
Proof.
  intros p e Hpast Hp0 Hdpast Hdp0 Hcur Hoff Hmax Hslots Hok Hdok Hs Hc Hwf Hrc Hrb Hst.
  destruct (update_deltas_spec params cur off Hcur Hoff Hmax dpast v c s Hdpast Hdp0 Hdok) as [Hread _].
  unfold from_change in Hread. rewrite Z.abs_eq in Hread by apply Hs.
  destruct (update_validator_set_spec params past cur off Hpast Hp0 Hcur Hoff Hmax v c _ s Hok Hs Hslots Hread Hc Hwf Hrc Hrb)
    as (s1 & [] & E1 & Hok1 & Hf & Hwf1).
  { rewrite !elem_of_cons, elem_of_nil in Hst. destruct Hst as [E|[E|[E|[]]]]; [left; by exists CSet|left; by exists BSet|by right]. }
  destruct Hf as (Hoth & _ & Hdel & _).
  assert (Hh : ∀ u, validator_deltas_handle s1 u = validator_deltas_handle s u) by (intros u; unfold validator_deltas_handle; by rewrite Hdel).
  assert (Hds : ∀ u, delta_sum params cur off s1 u = delta_sum params cur off s u) by (intros u; unfold delta_sum; by rewrite Hh).
  assert (Hdok1 : deltas_ok params cur dpast s1 v c) by (unfold deltas_ok; by rewrite !Hh).
  destruct (update_deltas_spec params cur off Hcur Hoff Hmax dpast v c s1 Hdpast Hdp0 Hdok1)
    as [_ (s2 & [] & E2 & (h & ->) & Hv2 & Hu2)].
  eexists. split; [unfold mbind, stt_bind; rewrite E1; exact E2|]. rewrite Hds in Hv2.
  split_and!; [done|done|intros u Hu; by rewrite Hu2, Hds| |].
  - eapply wf_ext; [|exact Hwf1]. intros u. cbn beta. destruct (decide (u = v)) as [->|Hne]; [done|]. by rewrite Hu2, Hds.
  - intros e' He. by destruct (Hoth e' He) as (? & ? & _).
Qed.

(** A validator without stake gets two whole tokens and enters the empty consensus
    set. *)
Definition example_params : PosParams := mk_params owned_default 10.
Definition example_vsets : VSets (A:=N) :=
  mk_vsets epoched_open epoched_open epoched_open epoched_open
    {[7%N := mk_epoched (Some 0) (Some 0) {[0 := BelowThreshold]}]}
    {[7%N := mk_epoched (Some 0) (Some 0) {[0 := 0]}]} epoched_open epoched_open epoched_open.

Lemma wf_epoched_single {D} (future past o : Z) (d : D) : 0 ≤ future → 0 ≤ past → 0 ≤ o →
  wf_epoched future past o (mk_epoched (Some o) (Some o) {[o := d]}).
Proof.
  intros Hf Hp Ho. constructor; [done|done|]. intros k [d' [<- _]%lookup_singleton_Some]. lia.
Qed.

Lemma example_empty_wf slots thr (st : gmap N ValidatorState) stake : 0 ≤ slots →
  (∀ w v, st !! v ≠ Some (kind_state w)) → (∀ v, st !! v = Some BelowThreshold → stake v < thr) →
  wf_view slots thr stake (mk_view ∅ ∅ ∅ st).
Proof.
  intros Hsl Hst Hthr. split; [|cbn [v_cons]; by rewrite map_size_empty|done].
  split; [split|..]; cbn [v_st v_pos].
  - intros w a q v. replace (v_set w _) with (∅ : gmap (Z * Z) N) by (by destruct w). rewrite !lookup_empty. naive_solver.
  - intros v _. rewrite lookup_empty. split; [by intros []|]. intros [w Hw]. by destruct (Hst w v).
  - intros w v _ Hv. by destruct (Hst w v).
  - intros v _. apply Hthr.
  - intros v u _ _ Hv. by destruct (Hst CSet v).
Qed.

Lemma stake_change_keeps_validator_sets_witness :
  ∃ s', (_ ← update_validator_set example_params 7%N 2000000 5 (Some 2);
         update_validator_deltas example_params 7%N 2000000 5 (Some 2)) example_vsets = (s', Ok ()) ∧
    delta_sum example_params 5 2 s' 7%N = 2000000 ∧
    v_cons (view example_params 5 2 s') = {[(2000000, 0) := 7%N]}.
Proof.
  assert (Hst : omap (read_state (A:=N) example_params 5 2) (validator_state example_vsets) = {[7%N := BelowThreshold]})
    by (vm_compute; reflexivity).
  assert (Hd : ∀ u, delta_sum example_params 5 2 example_vsets u = 0).
  { intros u. unfold delta_sum, validator_deltas_handle. destruct (decide (u = 7%N)) as [->|]; [vm_compute; reflexivity|].
    cbn [example_vsets validator_deltas]. rewrite lookup_singleton_ne by done. reflexivity. }
  destruct (stake_change_keeps_validator_sets example_params 12 25 5 2 example_vsets 7%N 2000000)
    as (s' & E & _ & Hv & _).
  - reflexivity.
  - lia.
  - reflexivity.
  - lia.
  - lia.
  - vm_compute. split; discriminate.
  - vm_compute. reflexivity.
  - vm_compute. reflexivity.
  - intros v h. cbn [example_vsets validator_state]. intros [<- <-]%lookup_singleton_Some. exists 0.
    split; [lia|]. apply wf_epoched_single; vm_compute; discriminate.
  - exists 0. split; [lia|]. split; [apply (wf_epoched_single _ _ 0 0); vm_compute; discriminate|].
    split; vm_compute; discriminate.
  - intros u. rewrite Hd. split; vm_compute; discriminate.
  - rewrite Hd. split; vm_compute; discriminate.
  - unfold view. rewrite Hst. apply example_empty_wf; [vm_compute; discriminate|..].
    + intros w v. rewrite lookup_singleton_Some. intros [_ Hw]. by destruct w.
    + intros v _. rewrite Hd. vm_compute. reflexivity.
  - intros a q v. change (consensus_at example_vsets _) with (∅ : gmap (Z * Z) N). by rewrite lookup_empty.
  - intros a q v. change (below_at example_vsets _) with (∅ : gmap (Z * Z) N). by rewrite lookup_empty.
  - unfold view. rewrite Hst. cbn [v_st]. rewrite lookup_singleton_eq. right. right. left.
  - exists s'. split; [exact E|]. rewrite Hd in Hv. split; [exact Hv|].
    apply (f_equal fst) in E. cbn [fst] in E. subst s'. vm_compute. reflexivity.
Defined.
