(* ===== verification/Slashing.v ===== *)
(** * Slashing: amounts

    Models the computations of [proof_of_stake/src/slashing.rs] on amounts, and
    [fold_and_slash_redelegated_bonds] of [proof_of_stake/src/lib.rs].  A slash
    takes a part of what was left when its infraction happened: of the slashes of
    an amount, those processed before the infraction are deducted first.  The
    rounding is up, and what remains never goes below zero. *)

From S2P Require Import Prelude Words Uint Decimal I256 Dec Token Epochs BTree PosTypes Epoched ValidatorSets.

(** [checked_sub(..).unwrap_or_default()] on amounts. *)
Definition sat_sub (a b : Z) : Z := default 0 (ZAmount.sub a b).

Section slashing.
Context {A : Type} {EA : EqDecision A} {CA : Countable A} {OA : CmpOrder A}.

Abbreviation R := (res (PosError A)).
(** [BTreeMap<Epoch, Amount>] and [EagerRedelegatedBondsMap]. *)
Abbreviation EpochAmounts := (gmap Z Z).
Abbreviation RedelegatedTokens := (gmap A (gmap Z Z)).

Definition arith {B} (o : option B) : R B := ok_or o ArithOverflow.

Section computations.
Context (params : OwnedPosParams).

(** [epoch.unchecked_add(params.slash_processing_epoch_offset())]. *)
Definition processing_epoch (epoch : Epoch) : R Epoch :=
  offset ← expect (slash_processing_epoch_offset params);
  expect (EpochM.unchecked_add epoch offset).

Definition compute_slashable_amount (slash : Slash) (amount : Z) (computed_slashes : EpochAmounts) : R Z :=
  updated_amount ← try_fold (λ acc '(epoch, amnt),
      processed ← processing_epoch epoch;
      Ok (if processed <=? slash_epoch slash then sat_sub acc amnt else acc))
    amount (kvs computed_slashes);
  arith (ZAmount.mul_ceil updated_amount (slash_rate slash)).

Definition apply_list_slashes (slashes : list Slash) (amount : Z) : R Z :=
  r ← try_fold (λ '(final_amount, computed_slashes) slash,
      slashed_amount ← compute_slashable_amount slash amount computed_slashes;
      Ok (sat_sub final_amount slashed_amount, <[slash_epoch slash := slashed_amount]> computed_slashes))
    (amount, ∅ : EpochAmounts) slashes;
  Ok r.1.

Definition find_slashes_in_range (start : Epoch) (end_ : option Epoch) (slashes : list Slash) : R EpochAmounts :=
  try_fold (λ acc slash,
    if (start <=? slash_epoch slash) && match end_ with Some e => slash_epoch slash <? e | None => true end then
      let cur_rate := default 0 (acc !! slash_epoch slash) in
      new_rate ← arith (ZDec.add cur_rate (slash_rate slash));
      Ok (<[slash_epoch slash := Z.min new_rate E12]> acc)
    else Ok acc) ∅ slashes.

(** [get_slashed_amount]: one pass over the earlier slashes deducts those
    processed before the current one. *)
Record SlashedAmount : Type := mk_slashed { sl_amount : Z; sl_epoch : Epoch }.

Definition deduct_step (infraction_epoch : Epoch) (st : Z * list SlashedAmount) (x : SlashedAmount) :
    R (Z * list SlashedAmount) :=
  let '(updated, kept) := st in
  offset ← expect (slash_processing_epoch_offset params);
  processed ← arith (EpochM.checked_add (sl_epoch x) offset);
  Ok (if processed <=? infraction_epoch then (sat_sub updated (sl_amount x), kept) else (updated, kept ++ [x])).
Definition deduct_processed (infraction_epoch : Epoch) (updated_amount : Z) (computed : list SlashedAmount) :
    R (Z * list SlashedAmount) :=
  try_fold (deduct_step infraction_epoch) (updated_amount, []) computed.

Definition slashed_step (st : Z * list SlashedAmount) (slash : Epoch * Z) : R (Z * list SlashedAmount) :=
  let '(updated, computed) := st in
  let '(infraction_epoch, rate) := slash in
  '(updated, computed) ← deduct_processed infraction_epoch updated computed;
  a ← arith (ZAmount.mul_ceil updated rate);
  Ok (updated, computed ++ [mk_slashed a infraction_epoch]).
Definition get_slashed_amount (amount : Z) (slashes : EpochAmounts) : R Z :=
  '(updated_amount, computed_amounts) ← try_fold slashed_step (amount, []) (kvs slashes);
  total_computed_amounts ← ok_or (ZAmount.sum (sl_amount <$> computed_amounts)) AmountSumOverflow;
  Ok (sat_sub updated_amount total_computed_amounts).

(** ** Redelegated bonds *)

(** [sort_by] on the epoch, which is stable. *)
Fixpoint insert_slash (s : Slash) (l : list Slash) : list Slash :=
  match l with
  | [] => [s]
  | x :: l' => if slash_epoch s <=? slash_epoch x then s :: l else x :: insert_slash s l'
  end.
Definition sort_slashes (l : list Slash) : list Slash := foldr insert_slash [] l.

Fixpoint filter_res {B} (f : B → R bool) (l : list B) : R (list B) :=
  match l with
  | [] => Ok []
  | x :: l => b ← f x; l ← filter_res f l; Ok (if b : bool then x :: l else l)
  end.

Record FoldRedelegatedBondsResult : Type := mk_fold { total_redelegated : Z; total_after_slashing : Z }.

(** The slashes of the source validator that reach a redelegated bond. *)
Definition redelegation_slashes (start_epoch bond_start : Epoch) (slash_epoch_filter : Epoch → R bool)
    (validator_slashes : list Slash) : R (list Slash) :=
  filter_res (λ slash,
    redel_start ← expect (redelegation_start_epoch_from_end params start_epoch);
    w ← expect (in_redelegation_slashing_window params (slash_epoch slash) redel_start start_epoch);
    if (w : bool) && (bond_start <=? slash_epoch slash) then slash_epoch_filter (slash_epoch slash) else Ok false)
    validator_slashes.

Definition redelegated_step (slashes_of : A → list Slash) (start_epoch : Epoch) (list_slashes : list Slash)
    (slash_epoch_filter : Epoch → R bool) (src_validator : A) (acc : FoldRedelegatedBondsResult) (bond : Epoch * Z) :
    R FoldRedelegatedBondsResult :=
  let '(bond_start, change) := bond in
  own ← redelegation_slashes start_epoch bond_start slash_epoch_filter (slashes_of src_validator);
  let merged := sort_slashes (own ++ list_slashes) in
  total ← arith (ZAmount.add (total_redelegated acc) change);
  left ← apply_list_slashes merged change;
  after ← arith (ZAmount.add (total_after_slashing acc) left);
  Ok (mk_fold total after).
Definition fold_and_slash_redelegated_bonds (slashes_of : A → list Slash) (redelegated_unbonds : RedelegatedTokens)
    (start_epoch : Epoch) (list_slashes : list Slash) (slash_epoch_filter : Epoch → R bool) :
    R FoldRedelegatedBondsResult :=
  try_fold (λ acc x,
      try_fold (redelegated_step slashes_of start_epoch list_slashes slash_epoch_filter x.1) acc (kvs x.2))
    (mk_fold 0 0) (kvs redelegated_unbonds).

Definition processed_by (epoch e : Epoch) : R bool :=
  processed ← processing_epoch e; Ok (processed <=? epoch).

Section storage.
(** [validator_slashes_handle(..).iter(..)]: the processed slashes. *)
Context (slashes_of : A → list Slash).

Definition compute_bond_at_epoch (validator : A) (epoch start : Epoch) (amount : Z)
    (redelegated_bonds : option RedelegatedTokens) : R Z :=
  list_slashes ← filter_res (λ slash,
      if start <=? slash_epoch slash then processed_by epoch (slash_epoch slash) else Ok false)
    (slashes_of validator);
  result_fold ← match redelegated_bonds with
                | Some rb => fold_and_slash_redelegated_bonds slashes_of rb start list_slashes (processed_by epoch)
                | None => Ok (mk_fold 0 0)
                end;
  total_not_redelegated ← arith (ZAmount.sub amount (total_redelegated result_fold));
  after_not_redelegated ← apply_list_slashes list_slashes total_not_redelegated;
  arith (ZAmount.add after_not_redelegated (total_after_slashing result_fold)).

Definition compute_slash_bond_at_epoch (validator : A) (epoch infraction_epoch bond_start : Epoch) (bond_amount : Z)
    (redelegated_bonds : option RedelegatedTokens) (rate : Z) : R Z :=
  b ← compute_bond_at_epoch validator infraction_epoch bond_start bond_amount redelegated_bonds;
  amount_due ← arith (ZAmount.mul_ceil b rate);
  slashable_amount ← compute_bond_at_epoch validator epoch bond_start bond_amount redelegated_bonds;
  Ok (Z.min amount_due slashable_amount).

(** [ResultSlashing]. *)
Record ResultSlashing : Type := mk_result { rs_sum : Z; rs_epoch_map : EpochAmounts }.

Definition after_slashing_unbond_step (redelegated_unbonds : gmap Z RedelegatedTokens) (slashes : list Slash)
    (acc : ResultSlashing) (unbond : Epoch * Z) : R ResultSlashing :=
  let '(start_epoch, amount) := unbond in
  let list_slashes := filter (λ slash, start_epoch ≤ slash_epoch slash) slashes in
  result_fold ← match redelegated_unbonds !! start_epoch with
                | Some rb => fold_and_slash_redelegated_bonds slashes_of rb start_epoch list_slashes (λ _, Ok true)
                | None => Ok (mk_fold 0 0)
                end;
  let total_not_redelegated := sat_sub amount (total_redelegated result_fold) in
  after_not_redelegated ← apply_list_slashes list_slashes total_not_redelegated;
  amount_after_slashing ← arith (ZAmount.add after_not_redelegated (total_after_slashing result_fold));
  sum ← arith (ZAmount.add (rs_sum acc) amount_after_slashing);
  Ok (mk_result sum (<[start_epoch := amount_after_slashing]> (rs_epoch_map acc))).
Definition compute_amount_after_slashing_unbond (unbonds : EpochAmounts) (redelegated_unbonds : gmap Z RedelegatedTokens)
    (slashes : list Slash) : R ResultSlashing :=
  try_fold (after_slashing_unbond_step redelegated_unbonds slashes) (mk_result 0 ∅) (kvs unbonds).

(** The unbonds to withdraw, by start and withdrawable epoch. *)
Definition after_slashing_withdraw_step (slashes : list Slash) (acc : ResultSlashing)
    (x : (Epoch * Epoch) * (Z * RedelegatedTokens)) : R ResultSlashing :=
  let '((start_epoch, withdraw_epoch), (amount, redelegated_unbonds)) := x in
  e1 ← arith (EpochM.checked_sub withdraw_epoch (unbonding_len params));
  end_epoch ← arith (EpochM.checked_sub e1 (cubic_slashing_window_length params));
  let list_slashes := filter (λ slash, start_epoch ≤ slash_epoch slash ∧ slash_epoch slash < end_epoch) slashes in
  result_fold ← fold_and_slash_redelegated_bonds slashes_of redelegated_unbonds start_epoch list_slashes (λ _, Ok true);
  total_not_redelegated ← arith (ZAmount.sub amount (total_redelegated result_fold));
  after_not_redelegated ← apply_list_slashes list_slashes total_not_redelegated;
  amount_after_slashing ← arith (ZAmount.add after_not_redelegated (total_after_slashing result_fold));
  sum ← arith (ZAmount.add (rs_sum acc) amount_after_slashing);
  Ok (mk_result sum (<[start_epoch := amount_after_slashing]> (rs_epoch_map acc))).
Definition compute_amount_after_slashing_withdraw
    (unbonds_and_redelegated_unbonds : list ((Epoch * Epoch) * (Z * RedelegatedTokens))) (slashes : list Slash) :
    R ResultSlashing :=
  try_fold (after_slashing_withdraw_step slashes) (mk_result 0 ∅) unbonds_and_redelegated_unbonds.
End storage.
End computations.
End slashing.

(** ** What a list of slashes leaves *)

(** Amounts whose product with a rate up to one does not overflow. *)
Abbreviation MAXA := (2 ^ 216 - 1).

Definition ceil_part (a rate : Z) : Z := - (- (a * rate) / E12).

Lemma ceil_part_bound a rate : 0 ≤ a → 0 ≤ rate ≤ E12 → 0 ≤ ceil_part a rate ≤ a.
Proof.
  intros Ha Hr. unfold ceil_part. assert (0 ≤ a * rate ≤ a * E12) by nia. split.
  - assert (- (a * rate) / E12 ≤ 0); [|lia]. apply Z.div_le_upper_bound; lia.
  - assert (- a ≤ - (a * rate) / E12); [|lia]. apply Z.div_le_lower_bound; lia.
Qed.

Lemma mul_ceil_part a rate : 0 ≤ a ≤ MAXA → 0 ≤ rate ≤ E12 → ZAmount.mul_ceil a rate = Some (ceil_part a rate).
Proof.
  intros Ha Hr. unfold ZAmount.mul_ceil. destruct (Z.ltb_spec rate 0); [lia|].
  assert (0 ≤ a * rate ≤ MAXA * E12) by nia. rewrite chk_in; [done|]. cbn in *. lia.
Qed.

Lemma sat_sub_max a b : 0 ≤ a < 2 ^ 256 → 0 ≤ b → sat_sub a b = Z.max 0 (a - b).
Proof.
  intros Ha Hb. unfold sat_sub, ZAmount.sub, chk. destruct (in_u 256 (a - b)) eqn:E; boolp; cbn; lia.
Qed.

Definition off_of (params : OwnedPosParams) : Z := default 0 (slash_processing_epoch_offset params).
(** A slash with a rate up to one whose processing epoch exists. *)
Definition slash_ok (params : OwnedPosParams) (s : Slash) : Prop :=
  0 ≤ slash_rate s ≤ E12 ∧ 0 ≤ slash_epoch s ∧ slash_epoch s + off_of params < 2 ^ 64.

Lemma zsum_length_le l b : 0 ≤ b → Forall (λ x : Z * Z, x.2 ≤ b) l → zsum snd l ≤ Z.of_nat (length l) * b.
Proof.
  intros Hb. induction 1 as [|x l Hx _ IH]; [cbn; lia|]. rewrite zsum_cons. cbn [length]. rewrite Nat2Z.inj_succ. lia.
Qed.

Section apply.
Context {A : Type}.
Context (params : OwnedPosParams) (Hoff : is_Some (slash_processing_epoch_offset params)) (Hoff0 : 0 ≤ off_of params).
Let off := off_of params.

Lemma offset_eq : slash_processing_epoch_offset params = Some off.
Proof using Hoff. unfold off, off_of. by destruct Hoff as [o ->]. Qed.

Lemma processing_epoch_ok e : 0 ≤ e → e + off < 2 ^ 64 → processing_epoch (A:=A) params e = Ok (e + off).
Proof using Hoff Hoff0.
  intros He Hmax. unfold off, off_of, processing_epoch in *. destruct Hoff as [o Ho]. rewrite Ho in *. cbn in *.
  unfold EpochM.unchecked_add, EpochM.checked_add. by rewrite chk_in by lia.
Qed.

Definition good_charges (l : list (Z * Z)) : Prop := Forall (λ x, 0 ≤ x.1 ∧ x.1 + off < 2 ^ 64 ∧ 0 ≤ x.2) l.
(** The part of earlier charges that was processed by an epoch. *)
Definition processed_sum (e : Z) (l : list (Z * Z)) : Z := zsum (λ x, if x.1 + off <=? e then x.2 else 0) l.

Lemma processed_sum_nonneg e l : good_charges l → 0 ≤ processed_sum e l.
Proof using Type.
  intros Hl. apply zsum_nonneg. intros x Hx. unfold good_charges in Hl. rewrite Forall_forall in Hl. specialize (Hl x Hx). case_match; lia.
Qed.

Lemma deduct_fold e l acc : good_charges l → 0 ≤ acc ≤ MAXA →
  try_fold (λ acc '(epoch, amnt), processed ← processing_epoch (A:=A) params epoch;
              Ok (if processed <=? e then sat_sub acc amnt else acc)) acc l =
  Ok (Z.max 0 (acc - processed_sum e l)).
Proof using Hoff Hoff0.
  intros Hl. revert acc. induction Hl as [|[x a] l (Hx & Hx' & Ha) Hl IH]; intros acc Hacc.
  { cbn. f_equal. lia. }
  cbn [fst snd] in *. cbn [try_fold]. rewrite processing_epoch_ok by done. cbn [mbind res_bind].
  unfold processed_sum. rewrite zsum_cons. fold (processed_sum e l). cbn [fst snd].
  pose proof (processed_sum_nonneg e l Hl). destruct (x + off <=? e).
  - rewrite sat_sub_max by lia. rewrite IH by lia. f_equal. lia.
  - rewrite IH by lia. f_equal.
Qed.

Lemma compute_slashable_ok s amount (m : gmap Z Z) : slash_ok params s → 0 ≤ amount ≤ MAXA → good_charges (kvs m) →
  compute_slashable_amount (A:=A) params s amount m =
  Ok (ceil_part (Z.max 0 (amount - processed_sum (slash_epoch s) (kvs m))) (slash_rate s)).
Proof using Hoff Hoff0.
  intros (Hr & _) Ha Hm. unfold compute_slashable_amount. rewrite deduct_fold by done. cbn [mbind res_bind].
  pose proof (processed_sum_nonneg (slash_epoch s) _ Hm). by rewrite mul_ceil_part by lia.
Qed.

Lemma slashable_bound s amount m : slash_ok params s → 0 ≤ amount → good_charges (kvs m) →
  0 ≤ ceil_part (Z.max 0 (amount - processed_sum (slash_epoch s) (kvs m))) (slash_rate s) ≤ amount.
Proof using Type.
  intros (Hr & _) Ha Hm. pose proof (processed_sum_nonneg (slash_epoch s) _ Hm).
  pose proof (ceil_part_bound (Z.max 0 (amount - processed_sum (slash_epoch s) (kvs m))) (slash_rate s) ltac:(lia) Hr). lia.
Qed.

Lemma good_charges_insert (m : gmap Z Z) e x : good_charges (kvs m) → 0 ≤ e → e + off < 2 ^ 64 → 0 ≤ x →
  good_charges (kvs (<[e := x]> m)).
Proof using Type.
  intros Hm He He' Hx. apply Forall_forall. intros [k y]. rewrite elem_of_kvs, lookup_insert_Some.
  intros [[<- <-]|[_ Hk]]; [done|]. unfold good_charges in Hm. rewrite Forall_forall in Hm.
  apply (Hm (k, y)). by apply elem_of_kvs.
Qed.

(** The body of the loop of [apply_list_slashes]. *)
Lemma apply_step_ok amount s f m : slash_ok params s → 0 ≤ amount ≤ MAXA → 0 ≤ f ≤ amount → good_charges (kvs m) →
  ∃ x, compute_slashable_amount (A:=A) params s amount m = Ok x ∧ 0 ≤ x ≤ amount ∧ sat_sub f x = Z.max 0 (f - x) ∧
    good_charges (kvs (<[slash_epoch s := x]> m)).
Proof using Hoff Hoff0.
  intros Hs Ha Hf Hm. pose proof (slashable_bound s amount m Hs ltac:(lia) Hm) as Hb.
  rewrite compute_slashable_ok by done. eexists. split; [done|]. split; [done|]. split; [by apply sat_sub_max; lia|].
  destruct Hs as (_ & ? & ?). by apply good_charges_insert; [..|lia].
Qed.

(** The slashes leave something between nothing and the amount. *)
Lemma apply_bounds l amount : Forall (slash_ok params) l → 0 ≤ amount ≤ MAXA →
  ∃ r, apply_list_slashes (A:=A) params l amount = Ok r ∧ 0 ≤ r ≤ amount.
Proof using Hoff Hoff0.
  intros Hl Ha. unfold apply_list_slashes.
  assert (∀ f m, 0 ≤ f ≤ amount → good_charges (kvs m) → ∃ r,
    try_fold (λ '(final_amount, computed_slashes) slash,
      slashed_amount ← compute_slashable_amount (A:=A) params slash amount computed_slashes;
      Ok (sat_sub final_amount slashed_amount, <[slash_epoch slash := slashed_amount]> computed_slashes)) (f, m) l = Ok r ∧
    0 ≤ r.1 ≤ amount) as Hloop.
  { induction Hl as [|s l Hs Hl IH]; intros f m Hf Hm; [by exists (f, m)|]. cbn [try_fold].
    destruct (apply_step_ok amount s f m Hs Ha Hf Hm) as (x & -> & Hx & Hsub & Hm'). cbn [mbind res_bind].
    rewrite Hsub. apply IH; [lia|done]. }
  destruct (Hloop amount ∅) as (r & -> & Hr); [lia|rewrite kvs_empty; constructor|]. by exists r.1.
Qed.

(** ** Exactly what they leave, for slashes of distinct epochs *)

(** The charges of slashes in order: each takes its rate of what was left of the
    amount when the slashes processed by its epoch had been deducted. *)
Fixpoint charges (amount : Z) (done : list (Z * Z)) (l : list (Z * Z)) : list (Z * Z) :=
  match l with
  | [] => done
  | (e, rate) :: l =>
      charges amount (done ++ [(e, ceil_part (Z.max 0 (amount - processed_sum e done)) rate)]) l
  end.
Definition remaining (amount : Z) (l : list (Z * Z)) : Z := Z.max 0 (amount - zsum snd (charges amount [] l)).

Lemma processed_sum_perm e l k : l ≡ₚ k → processed_sum e l = processed_sum e k.
Proof using Type. apply zsum_perm. Qed.

Lemma good_charges_perm l k : l ≡ₚ k → good_charges l → good_charges k.
Proof using Type. unfold good_charges. by intros ->. Qed.

Lemma kvs_insert_perm (m : gmap Z Z) e x done : kvs m ≡ₚ done → m !! e = None → kvs (<[e := x]> m) ≡ₚ done ++ [(e, x)].
Proof using Type.
  intros Hm He. rewrite kvs_perm, map_to_list_insert, <-kvs_perm, Hm by done.
  by rewrite Permutation_app_comm.
Qed.

Definition rate_of (s : Slash) : Z * Z := (slash_epoch s, slash_rate s).

Lemma apply_exact l amount : Forall (slash_ok params) l → NoDup (slash_epoch <$> l) → 0 ≤ amount ≤ MAXA →
  apply_list_slashes (A:=A) params l amount = Ok (remaining amount (rate_of <$> l)).
Proof using Hoff Hoff0.
  intros Hl Hnd Ha. unfold apply_list_slashes, remaining.
  assert (∀ m done, (∀ s, s ∈ l → m !! slash_epoch s = None) → kvs m ≡ₚ done → good_charges done → ∃ m',
    try_fold (λ '(final_amount, computed_slashes) slash,
      slashed_amount ← compute_slashable_amount (A:=A) params slash amount computed_slashes;
      Ok (sat_sub final_amount slashed_amount, <[slash_epoch slash := slashed_amount]> computed_slashes))
      (Z.max 0 (amount - zsum snd done), m) l =
    Ok (Z.max 0 (amount - zsum snd (charges amount done (rate_of <$> l))), m')) as Hloop.
  { induction Hl as [|s l Hs Hl IH]; intros m done Hm Hp Hd; [by exists m|]. cbn [try_fold fmap list_fmap charges rate_of].
    apply NoDup_cons in Hnd as [Hnin Hnd]. pose proof (good_charges_perm _ _ (symmetry Hp) Hd) as Hmd.
    assert (Hsum : 0 ≤ zsum snd done).
    { apply zsum_nonneg. intros x Hx. unfold good_charges in Hd. rewrite Forall_forall in Hd. by apply Hd. }
    destruct (apply_step_ok amount s (Z.max 0 (amount - zsum snd done)) m Hs Ha ltac:(lia) Hmd) as (x & E & Hx & Hsub & Hm').
    rewrite E. cbn [mbind res_bind]. rewrite Hsub. rewrite compute_slashable_ok in E by done. injection E as E.
    rewrite (processed_sum_perm _ _ _ Hp) in E. rewrite E. clear E.
    replace (Z.max 0 (Z.max 0 (amount - zsum snd done) - x)) with (Z.max 0 (amount - zsum snd (done ++ [(slash_epoch s, x)])))
      by (rewrite zsum_app; cbn; lia).
    assert (Hnone : m !! slash_epoch s = None) by (apply Hm; by left).
    apply IH; [done|..].
    - intros t Ht. rewrite lookup_insert_ne; [apply Hm; by right|]. intros Heq. apply Hnin. rewrite Heq. by apply list_elem_of_fmap_2.
    - by apply kvs_insert_perm.
    - apply Forall_app. split; [done|]. constructor; [|constructor]. destruct Hs as (_ & ? & ?). cbn. lia. }
  destruct (Hloop ∅ []) as (m' & E); [intros; apply lookup_empty|by rewrite kvs_empty|constructor|].
  replace (Z.max 0 (amount - zsum snd [])) with amount in E by (cbn; lia). by rewrite E.
Qed.

Definition charge_of (x : SlashedAmount) : Z * Z := (sl_epoch x, sl_amount x).

Lemma deduct_processed_ok e u computed : good_charges (charge_of <$> computed) → 0 ≤ u ≤ MAXA →
  deduct_processed (A:=A) params e u computed =
  Ok (Z.max 0 (u - processed_sum e (charge_of <$> computed)), filter (λ x, ¬ sl_epoch x + off ≤ e) computed).
Proof using Hoff Hoff0.
  intros Hg. unfold deduct_processed.
  assert (∀ kept u, 0 ≤ u ≤ MAXA → try_fold (deduct_step (A:=A) params e) (u, kept) computed =
    Ok (Z.max 0 (u - processed_sum e (charge_of <$> computed)), kept ++ filter (λ x, ¬ sl_epoch x + off ≤ e) computed)) as Hloop.
  { induction computed as [|x l IH]; intros kept v Hv; [cbn; rewrite app_nil_r; do 2 f_equal; lia|].
    rewrite fmap_cons in *. apply Forall_cons in Hg as [(Hx & Hx' & Hxa) Hl]. cbn [fst snd charge_of] in *. cbn [try_fold].
    unfold processed_sum. rewrite zsum_cons. fold (processed_sum e (charge_of <$> l)). cbn [fst snd charge_of].
    pose proof (processed_sum_nonneg e _ Hl).
    assert (Es : deduct_step (A:=A) params e (v, kept) x =
      Ok (if sl_epoch x + off <=? e then (Z.max 0 (v - sl_amount x), kept) else (v, kept ++ [x]))).
    { unfold deduct_step. rewrite offset_eq. cbn [expect mbind res_bind]. rewrite epoch_add_in by lia.
      cbn [arith ok_or mbind res_bind]. by rewrite sat_sub_max by lia. }
    rewrite Es. cbn [mbind res_bind]. destruct (Z.leb_spec (sl_epoch x + off) e) as [Hle|Hgt].
    - rewrite IH by (done || lia). rewrite filter_cons_False by lia. do 2 f_equal. lia.
    - rewrite IH by (done || lia). rewrite filter_cons_True by lia. by rewrite <-app_assoc. }
  apply (Hloop []).
Qed.

Lemma good_charges_app l k : good_charges (l ++ k) ↔ good_charges l ∧ good_charges k.
Proof using Type. apply Forall_app. Qed.

Lemma processed_sum_app e l k : processed_sum e (l ++ k) = processed_sum e l + processed_sum e k.
Proof using Type. apply zsum_app. Qed.

Lemma processed_all e l : Forall (λ x, x.1 + off ≤ e) l → processed_sum e l = zsum snd l.
Proof using Type.
  intros Hl. apply zsum_ext. intros x Hx. rewrite Forall_forall in Hl. specialize (Hl x Hx).
  by rewrite (proj2 (Z.leb_le _ _)).
Qed.

Lemma good_charges_sum l : good_charges l → 0 ≤ zsum snd l.
Proof using Type.
  intros Hl. apply zsum_nonneg. intros x Hx. unfold good_charges in Hl. rewrite Forall_forall in Hl. by apply Hl.
Qed.

(** Splitting off what is processed by an epoch. *)
Lemma split_processed e (l : list SlashedAmount) :
  charge_of <$> l ≡ₚ (charge_of <$> filter (λ x, sl_epoch x + off ≤ e) l) ++ (charge_of <$> filter (λ x, ¬ sl_epoch x + off ≤ e) l).
Proof using Type. rewrite <-fmap_app. apply fmap_Permutation. symmetry. apply filter_app_complement. Qed.

(** The loop of [get_slashed_amount]: [removed] are the charges already
    deducted. *)
Lemma slashed_loop amount l : 0 ≤ amount ≤ MAXA → bsorted l →
  Forall (λ x, 0 ≤ x.2 ≤ E12 ∧ 0 ≤ x.1 ∧ x.1 + off < 2 ^ 64) l →
  ∀ removed computed done, done ≡ₚ removed ++ (charge_of <$> computed) → good_charges done →
  Forall (λ x, x.2 ≤ amount) done → (∀ x, x ∈ l → Forall (λ y, y.1 + off ≤ x.1) removed) →
  ∃ removed' computed', charges amount done l ≡ₚ removed' ++ (charge_of <$> computed') ∧
    good_charges (charges amount done l) ∧ Forall (λ x, x.2 ≤ amount) (charges amount done l) ∧
    try_fold (slashed_step (A:=A) params) (Z.max 0 (amount - zsum snd removed), computed) l =
    Ok (Z.max 0 (amount - zsum snd removed'), computed').
Proof using Hoff Hoff0.
  intros Ha Hsort Hl. induction Hsort as [|[e rate] l Hsort IH Hlt]; intros removed computed done Hp Hd Hda Hrem.
  { by exists removed, computed. }
  apply Forall_cons in Hl as [(Hr & He & He') Hl]. cbn [fst snd] in *.
  pose proof (good_charges_perm _ _ Hp Hd) as [Hgr Hgc]%good_charges_app. pose proof (good_charges_sum _ Hgr).
  assert (Eproc : processed_sum e done = zsum snd removed + processed_sum e (charge_of <$> computed)).
  { rewrite (processed_sum_perm _ _ _ Hp), processed_sum_app, (processed_all e removed); [done|]. apply (Hrem (e, rate)). by left. }
  pose proof (processed_sum_nonneg e _ Hgc).
  set (x := ceil_part (Z.max 0 (amount - processed_sum e done)) rate).
  assert (Hx : 0 ≤ x ≤ amount).
  { pose proof (ceil_part_bound (Z.max 0 (amount - processed_sum e done)) rate ltac:(lia) Hr). unfold x. lia. }
  set (old := filter (λ y, sl_epoch y + off ≤ e) computed). set (young := filter (λ y, ¬ sl_epoch y + off ≤ e) computed).
  assert (Hold : processed_sum e (charge_of <$> computed) = zsum snd (charge_of <$> old)).
  { rewrite (processed_sum_perm _ _ _ (split_processed e computed)), processed_sum_app. fold old young.
    rewrite (processed_all e (charge_of <$> old)).
    - assert (processed_sum e (charge_of <$> young) = 0) as ->; [|lia]. unfold processed_sum. rewrite zsum_fmap.
      rewrite (zsum_ext _ (λ _, 0)); [apply zsum_zero|]. intros y [Hy _]%list_elem_of_filter. cbn. by rewrite (proj2 (Z.leb_gt _ _)) by lia.
    - apply Forall_fmap, Forall_forall. intros y [Hy _]%list_elem_of_filter. done. }
  destruct (IH Hl (removed ++ (charge_of <$> old)) (young ++ [mk_slashed x e]) (done ++ [(e, x)]))
    as (removed' & computed' & Hp' & Hg' & Hle & Hf).
  - rewrite Hp, fmap_app, (split_processed e computed). fold old young. rewrite <-!app_assoc. done.
  - apply good_charges_app. split; [done|]. constructor; [|constructor]. cbn. lia.
  - apply Forall_app. split; [done|]. constructor; [cbn; lia|constructor].
  - intros [e2 r2] Hin. rewrite Forall_forall in Hlt. specialize (Hlt _ Hin). cbn [fst] in *.
    assert (e < e2) by (by apply Z.compare_lt_iff). apply Forall_app. split; [apply (Hrem (e2, r2)); by right|].
    apply Forall_fmap, Forall_forall. intros y [Hy _]%list_elem_of_filter. cbn. lia.
  - exists removed', computed'. cbn [charges]. fold x. do 3 (split; [done|]).
    assert (Es : slashed_step (A:=A) params (Z.max 0 (amount - zsum snd removed), computed) (e, rate) =
      Ok (Z.max 0 (amount - processed_sum e done), young ++ [mk_slashed x e])).
    { unfold slashed_step. rewrite deduct_processed_ok by (done || lia). cbn [mbind res_bind].
      replace (Z.max 0 (Z.max 0 (amount - zsum snd removed) - processed_sum e (charge_of <$> computed)))
        with (Z.max 0 (amount - processed_sum e done)) by lia.
      by rewrite mul_ceil_part by lia. }
    cbn [try_fold]. rewrite Es. cbn [mbind res_bind]. rewrite <-Hf. do 3 f_equal. rewrite zsum_app. lia.
Qed.

Lemma charges_length amount done l : length (charges amount done l) = (length done + length l)%nat.
Proof using Type.
  revert done. induction l as [|[e r] l IH]; intros done; cbn; [lia|]. rewrite IH, length_app. cbn. lia.
Qed.

(** [get_slashed_amount] leaves what the charges leave. *)
Lemma get_slashed_exact amount (m : gmap Z Z) : 0 ≤ amount ≤ MAXA → Z.of_nat (size m) ≤ 2 ^ 39 →
  map_Forall (λ e rate, 0 ≤ rate ≤ E12 ∧ 0 ≤ e ∧ e + off < 2 ^ 64) m →
  get_slashed_amount (A:=A) params amount m = Ok (remaining amount (kvs m)).
Proof using Hoff Hoff0.
  intros Ha Hsz Hm. unfold get_slashed_amount.
  assert (HF : Forall (λ x, 0 ≤ x.2 ≤ E12 ∧ 0 ≤ x.1 ∧ x.1 + off < 2 ^ 64) (kvs m)).
  { apply Forall_forall. intros [e r] He%elem_of_kvs. by apply (Hm e r). }
  destruct (slashed_loop amount (kvs m) Ha (kvs_sorted m) HF [] [] []) as (removed & computed & Hp & Hg & Hle & Hf);
    [done|constructor|constructor|intros; constructor|].
  replace (Z.max 0 (amount - zsum snd [])) with amount in Hf by (cbn; lia). rewrite Hf. cbn [mbind res_bind].
  pose proof (good_charges_perm _ _ Hp Hg) as [Hgr Hgc]%good_charges_app.
  pose proof (good_charges_sum _ Hgr). pose proof (good_charges_sum _ Hgc).
  pose proof (zsum_length_le _ amount ltac:(lia) Hle) as Hlen. rewrite charges_length in Hlen.
  assert (Elen : length (kvs m) = size m) by (rewrite kvs_perm; apply length_map_to_list).
  pose proof (zsum_perm snd _ _ Hp) as Es. rewrite zsum_app in Es.
  assert (Ec : zsum id (sl_amount <$> computed) = zsum snd (charge_of <$> computed)) by (by rewrite !zsum_fmap).
  assert (zsum snd (charges amount [] (kvs m)) ≤ 2 ^ 39 * MAXA) by (cbn [length] in Hlen; nia).
  rewrite zamount_sum; [|..|rewrite Ec; lia].
  2:{ apply Forall_fmap. unfold good_charges in Hgc. rewrite Forall_fmap in Hgc. eapply Forall_impl; [exact Hgc|]. by intros x (_ & _ & ?). }
  cbn [ok_or mbind res_bind]. rewrite sat_sub_max by lia. unfold remaining. f_equal. lia.
Qed.
End apply.

(** C39.  The two computations of a slashed amount agree.  For slashes of distinct
    epochs with rates up to one, given in order of epochs, [get_slashed_amount],
    which keeps a list of the charges not yet deducted, and [apply_list_slashes],
    which looks through all earlier charges for each slash, leave the same amount:
    the amount less, for each slash, its rate (rounded up) of what was left when
    the slashes processed by its epoch had been deducted.  Neither overflows, and
    what is left is between zero and the amount. *)
Theorem slashed_amount_equivalence {A} (params : OwnedPosParams) (off amount : Z) (l : list Slash) (m : gmap Z Z) :
  slash_processing_epoch_offset params = Some off → 0 ≤ off → 0 ≤ amount ≤ MAXA → Z.of_nat (size m) ≤ 2 ^ 39 →
  rate_of <$> l = kvs m → Forall (slash_ok params) l →
  ∃ r, get_slashed_amount (A:=A) params amount m = Ok r ∧ apply_list_slashes (A:=A) params l amount = Ok r ∧
    r = remaining params amount (rate_of <$> l) ∧ 0 ≤ r ≤ amount.
Proof.
  intros Ho Ho0 Ha Hsz Hml Hl. assert (Hs : is_Some (slash_processing_epoch_offset params)) by (by eexists).
  assert (Eo : off_of params = off) by (unfold off_of; by rewrite Ho).
  destruct (apply_bounds (A:=A) params Hs ltac:(lia) l amount Hl Ha) as (r & Hr & Hb). exists r.
  assert (Hnd : NoDup (slash_epoch <$> l)).
  { replace (slash_epoch <$> l) with ((rate_of <$> l).*1) by (rewrite <-list_fmap_compose; by apply list_fmap_ext).
    rewrite Hml. apply kvs_NoDup. }
  rewrite (apply_exact (A:=A) params Hs ltac:(lia) l amount Hl Hnd Ha) in Hr. injection Hr as Hr.
  split; [|split; [|split; [done|done]]].
  - rewrite get_slashed_exact; [by rewrite <-Hml, Hr|done|lia|done|done|].
    intros e rate He. apply elem_of_kvs in He. rewrite <-Hml in He. apply list_elem_of_fmap in He as (s & [= -> ->] & Hin).
    rewrite Forall_forall in Hl. destruct (Hl s Hin) as (? & ? & ?). done.
  - by rewrite apply_exact, Hr by (done || lia).
Qed.

(** With the default parameters: a tenth at epoch 5, another at epoch 10, before the
    first is processed, and half at epoch 40. *)
Lemma slashed_amount_equivalence_witness :
  let l := [mk_slash 5 0 DuplicateVote (10 ^ 11); mk_slash 10 0 DuplicateVote (10 ^ 11);
            mk_slash 40 0 LightClientAttack (5 * 10 ^ 11)] in
  let m := {[5 := 10 ^ 11; 10 := 10 ^ 11; 40 := 5 * 10 ^ 11]} : gmap Z Z in
  get_slashed_amount (A:=N) owned_default 1000 m = Ok 400 ∧ apply_list_slashes (A:=N) owned_default l 1000 = Ok 400.
Proof.
  intros l m. destruct (slashed_amount_equivalence (A:=N) owned_default 23 1000 l m) as (r & H1 & H2 & H3 & _).
  - reflexivity.
  - lia.
  - split; vm_compute; discriminate.
  - vm_compute. discriminate.
  - vm_compute. reflexivity.
  - unfold l. repeat (apply Forall_cons; split; [repeat split; vm_compute; (discriminate || reflexivity)|]). apply Forall_nil. exact I.
  - rewrite H1, H2. clear H1 H2. subst r. split; vm_compute; reflexivity.
Defined.

(** Slashes of the same epoch: only the last one is deducted before a later slash,
    so that the later one is charged on 900 instead of 800. *)
Example same_epoch_slashes :
  apply_list_slashes (A:=N) owned_default
    [mk_slash 5 0 DuplicateVote (10 ^ 11); mk_slash 5 1 DuplicateVote (10 ^ 11);
     mk_slash 40 0 LightClientAttack (5 * 10 ^ 11)] 1000 = Ok 350 ∧
  get_slashed_amount (A:=N) owned_default 1000 {[5 := 2 * 10 ^ 11; 40 := 5 * 10 ^ 11]} = Ok 400.
Proof. split; vm_compute; reflexivity. Qed.

(** ** Redelegated bonds and unbonds *)

Lemma insert_slash_perm s l : insert_slash s l ≡ₚ s :: l.
Proof.
  induction l as [|x l IH]; cbn; [done|]. destruct (_ <=? _); [done|]. rewrite IH. apply Permutation_swap.
Qed.

Lemma sort_slashes_perm l : sort_slashes l ≡ₚ l.
Proof. induction l as [|s l IH]; cbn; [done|]. by rewrite insert_slash_perm, IH. Qed.

Lemma filter_res_ok {A B} (f : B → res (PosError A) bool) l : (∀ x, x ∈ l → ∃ b, f x = Ok b) →
  ∃ l', filter_res f l = Ok l' ∧ ∀ x, x ∈ l' → x ∈ l.
Proof.
  induction l as [|x l IH]; intros Hf; [by exists []|]. cbn [filter_res].
  destruct (Hf x) as [b ->]; [by left|]. destruct IH as (l' & -> & Hl'); [intros; apply Hf; by right|]. cbn.
  eexists. split; [done|]. intros y. destruct b; [rewrite !elem_of_cons; naive_solver|]. intros. right. auto.
Qed.

Section redelegated.
Context {A : Type} {EA : EqDecision A} {CA : Countable A} {OA : CmpOrder A}.
Context (params : OwnedPosParams) (Hoff : is_Some (slash_processing_epoch_offset params)) (Hoff0 : 0 ≤ off_of params).
Context (Hpipe : 0 ≤ pipeline_len params).
Context (slashes_of : A → list Slash) (Hslashes : ∀ v, Forall (slash_ok params) (slashes_of v)).

Definition amounts_total (m : gmap Z Z) : Z := zsum snd (kvs m).
Definition tokens_total (rb : gmap A (gmap Z Z)) : Z := zsum (λ x, amounts_total x.2) (kvs rb).
Definition amounts_nonneg (m : gmap Z Z) : Prop := map_Forall (λ _ a, 0 ≤ a) m.
Definition tokens_nonneg (rb : gmap A (gmap Z Z)) : Prop := map_Forall (λ _ m, amounts_nonneg m) rb.

Lemma kvs_nonneg m : amounts_nonneg m → Forall (λ x : Z * Z, 0 ≤ x.2) (kvs m).
Proof using Type. intros Hm. apply Forall_forall. intros [k a] Ha%elem_of_kvs. by apply (Hm k a). Qed.

Lemma amounts_total_nonneg m : amounts_nonneg m → 0 ≤ amounts_total m.
Proof using Type.
  intros Hm%kvs_nonneg. apply zsum_nonneg. intros x Hx. rewrite Forall_forall in Hm. by apply Hm.
Qed.

Lemma redelegation_slashes_ok start bond_start (f : Epoch → res (PosError A) bool) v :
  pipeline_len params ≤ start < 2 ^ 64 → (∀ s, s ∈ slashes_of v → ∃ b, f (slash_epoch s) = Ok b) →
  ∃ l, redelegation_slashes params start bond_start f (slashes_of v) = Ok l ∧ Forall (slash_ok params) l.
Proof using Hoff Hoff0 Hpipe Hslashes.
  intros Hst Hf. unfold redelegation_slashes.
  match goal with |- context [filter_res ?g ?k] => destruct (filter_res_ok g k) as (l & -> & Hl) end.
  2:{ exists l. split; [done|]. apply Forall_forall. intros s Hs%Hl. specialize (Hslashes v). rewrite Forall_forall in Hslashes. auto. }
  intros s Hs. specialize (Hslashes v). rewrite Forall_forall in Hslashes. destruct (Hslashes s Hs) as (_ & H1 & H2).
  unfold redelegation_start_epoch_from_end, in_redelegation_slashing_window. rewrite epoch_sub_in by lia. cbn [expect mbind res_bind].
  rewrite (offset_eq params Hoff). cbn [mbind option_bind]. unfold EpochM.unchecked_add. rewrite epoch_add_in by lia.
  cbn [mbind option_bind expect res_bind]. destruct (_ && _); [by apply Hf|by exists false].
Qed.

(** One redelegation: its amount, and what is left of it. *)
Lemma fold_inner_ok start list_slashes (f : Epoch → res (PosError A) bool) v l acc :
  pipeline_len params ≤ start < 2 ^ 64 → (∀ s, s ∈ slashes_of v → ∃ b, f (slash_epoch s) = Ok b) →
  Forall (slash_ok params) list_slashes → Forall (λ x : Z * Z, 0 ≤ x.2) l →
  0 ≤ total_after_slashing acc ≤ total_redelegated acc → total_redelegated acc + zsum snd l ≤ MAXA →
  ∃ acc', try_fold (redelegated_step params slashes_of start list_slashes f v) acc l = Ok acc' ∧
    total_redelegated acc' = total_redelegated acc + zsum snd l ∧
    0 ≤ total_after_slashing acc' ≤ total_redelegated acc'.
Proof using Hoff Hoff0 Hpipe Hslashes.
  intros Hst Hf Hls Hl. revert acc. induction Hl as [|[b c] l Hc Hl IH]; intros acc Hacc Hsum.
  { exists acc. cbn. split_and!; try lia. done. }
  rewrite zsum_cons in *. cbn [snd] in *. cbn [try_fold].
  assert (0 ≤ zsum snd l) by (apply zsum_nonneg; intros; rewrite Forall_forall in Hl; by apply Hl).
  assert (∃ left, redelegated_step params slashes_of start list_slashes f v acc (b, c) =
    Ok (mk_fold (total_redelegated acc + c) (total_after_slashing acc + left)) ∧ 0 ≤ left ≤ c) as (left & -> & Hleft).
  { unfold redelegated_step. destruct (redelegation_slashes_ok start b f v Hst Hf) as (own & -> & Hown). cbn [mbind res_bind].
    assert (Hm : Forall (slash_ok params) (sort_slashes (own ++ list_slashes))).
    { rewrite sort_slashes_perm. by apply Forall_app. }
    destruct (apply_bounds (A:=A) params Hoff Hoff0 _ c Hm ltac:(lia)) as (left & -> & Hleft).
    exists left. split; [|done]. unfold ZAmount.add. cbn [mbind res_bind].
    rewrite (chk_in 256 (total_redelegated acc + c)) by lia. cbn [arith ok_or mbind res_bind].
    by rewrite chk_in by lia. }
  cbn [mbind res_bind].
  destruct (IH (mk_fold (total_redelegated acc + c) (total_after_slashing acc + left))) as (acc' & -> & Ht & Hb); [cbn; lia..|].
  exists acc'. split; [done|]. cbn in Ht. lia.
Qed.

(** The amount redelegated, and what the slashes leave of it. *)
Lemma fold_redelegated_ok start list_slashes (f : Epoch → res (PosError A) bool) rb :
  pipeline_len params ≤ start < 2 ^ 64 → (∀ v s, s ∈ slashes_of v → ∃ b, f (slash_epoch s) = Ok b) →
  Forall (slash_ok params) list_slashes → tokens_nonneg rb → tokens_total rb ≤ MAXA →
  ∃ after, fold_and_slash_redelegated_bonds params slashes_of rb start list_slashes f = Ok (mk_fold (tokens_total rb) after) ∧
    0 ≤ after ≤ tokens_total rb.
Proof using Hoff Hoff0 Hpipe Hslashes.
  intros Hst Hf Hls Hrb Hsum. unfold fold_and_slash_redelegated_bonds, tokens_total in *.
  assert (Hk : Forall (λ x : A * gmap Z Z, amounts_nonneg x.2) (kvs rb)).
  { apply Forall_forall. intros [v m] Hm%elem_of_kvs. by apply (Hrb v m). }
  set (F := λ acc x, _). assert (∀ acc,
    0 ≤ total_after_slashing acc ≤ total_redelegated acc → total_redelegated acc + zsum (λ x, amounts_total x.2) (kvs rb) ≤ MAXA →
    ∃ acc', try_fold F acc (kvs rb) = Ok acc' ∧
      total_redelegated acc' = total_redelegated acc + zsum (λ x, amounts_total x.2) (kvs rb) ∧
      0 ≤ total_after_slashing acc' ≤ total_redelegated acc') as Hloop.
  { clear Hrb Hsum. induction Hk as [|[v m] l Hm Hl IH]; intros acc Hacc Hs.
    { exists acc. cbn. split_and!; try lia. done. }
    rewrite zsum_cons in *. cbn [snd] in *. cbn [try_fold].
    assert (0 ≤ zsum (λ x : A * gmap Z Z, amounts_total x.2) l).
    { apply zsum_nonneg. intros x Hx. rewrite Forall_forall in Hl. by apply amounts_total_nonneg, Hl. }
    destruct (fold_inner_ok start list_slashes f v (kvs m) acc Hst (Hf v) Hls (kvs_nonneg _ Hm) Hacc) as (acc1 & E & Ht & Hb).
    { change (zsum snd (kvs m)) with (amounts_total m). lia. }
    change (F acc (v, m)) with (try_fold (redelegated_step params slashes_of start list_slashes f v) acc (kvs m)).
    rewrite E. cbn [mbind res_bind]. change (zsum snd (kvs m)) with (amounts_total m) in Ht.
    destruct (IH acc1) as (acc2 & -> & Ht2 & Hb2); [done|lia|]. exists acc2. split; [done|]. lia. }
  destruct (Hloop (mk_fold 0 0)) as ([t a] & E & Ht & Hb); [cbn; lia..|]. cbn in Ht, Hb. rewrite E. subst t. by exists a.
Qed.

Lemma filter_slash_ok (P : Slash → Prop) `{∀ s, Decision (P s)} l :
  Forall (slash_ok params) l → Forall (slash_ok params) (filter P l).
Proof using Type. apply Forall_filter. Qed.

Lemma amounts_total_insert (m : gmap Z Z) e a : m !! e = None → amounts_total (<[e := a]> m) = a + amounts_total m.
Proof using Type.
  intros He. unfold amounts_total. rewrite (zsum_perm snd _ _ (kvs_perm _)), (zsum_perm snd _ _ (kvs_perm m)).
  by rewrite (zsum_perm snd _ _ (map_to_list_insert _ _ _ He)), zsum_cons.
Qed.

Section unbonds.
Context (unbonds : gmap Z Z) (redelegated : gmap Z (gmap A (gmap Z Z))) (slashes : list Slash).
Context (Hls : Forall (slash_ok params) slashes).
(** The redelegated part of every unbond is within its amount. *)
Context (Hred : map_Forall (λ e rb, pipeline_len params ≤ e < 2 ^ 64 ∧ tokens_nonneg rb ∧
                              tokens_total rb ≤ default 0 (unbonds !! e)) redelegated).

Lemma after_step_ok acc e amount : unbonds !! e = Some amount → 0 ≤ amount → 0 ≤ rs_sum acc → rs_sum acc + amount ≤ MAXA →
  ∃ x, after_slashing_unbond_step params slashes_of redelegated slashes acc (e, amount) =
    Ok (mk_result (rs_sum acc + x) (<[e := x]> (rs_epoch_map acc))) ∧ 0 ≤ x ≤ amount.
Proof using Hoff Hoff0 Hpipe Hslashes Hls Hred.
  intros He Ha Hacc Hmax. unfold after_slashing_unbond_step. set (l := filter _ slashes).
  assert (Hl : Forall (slash_ok params) l) by (by apply filter_slash_ok).
  assert (∃ t after, match redelegated !! e with
    | Some rb => fold_and_slash_redelegated_bonds params slashes_of rb e l (λ _, Ok true)
    | None => Ok (mk_fold 0 0) end = Ok (mk_fold t after) ∧ 0 ≤ after ≤ t ∧ t ≤ amount) as (t & after & -> & Haf & Ht).
  { destruct (redelegated !! e) as [rb|] eqn:Er; [|exists 0, 0; split; [done|lia]].
    destruct (Hred e rb Er) as (Hp & Hn & Htot). rewrite He in Htot. cbn in Htot.
    destruct (fold_redelegated_ok e l (λ _, Ok true) rb) as (after & -> & Hb); [done|by eexists|done|done|lia|].
    exists (tokens_total rb), after. split; [done|]. lia. }
  cbn [mbind res_bind total_redelegated total_after_slashing]. rewrite sat_sub_max, Z.max_r by lia.
  destruct (apply_bounds (A:=A) params Hoff Hoff0 l (amount - t) Hl ltac:(lia)) as (r & -> & Hr). cbn [mbind res_bind].
  unfold ZAmount.add. rewrite (chk_in 256 (r + after)) by lia. cbn [arith ok_or mbind res_bind].
  rewrite chk_in by lia. cbn [arith ok_or mbind res_bind]. exists (r + after). split; [done|lia].
Qed.

Lemma after_unbond_loop l acc : NoDup l.*1 → Forall (λ x, unbonds !! x.1 = Some x.2 ∧ 0 ≤ x.2) l →
  Forall (λ x, rs_epoch_map acc !! x.1 = None) l → 0 ≤ rs_sum acc → rs_sum acc + zsum snd l ≤ MAXA →
  rs_sum acc = amounts_total (rs_epoch_map acc) →
  ∃ rs, try_fold (after_slashing_unbond_step params slashes_of redelegated slashes) acc l = Ok rs ∧
    rs_sum rs = amounts_total (rs_epoch_map rs) ∧
    (∀ e, is_Some (rs_epoch_map rs !! e) ↔ is_Some (rs_epoch_map acc !! e) ∨ e ∈ l.*1) ∧
    (∀ e a, rs_epoch_map rs !! e = Some a → rs_epoch_map acc !! e = Some a ∨ 0 ≤ a ≤ default 0 (unbonds !! e)) ∧
    rs_sum acc ≤ rs_sum rs ≤ rs_sum acc + zsum snd l.
Proof using Hoff Hoff0 Hpipe Hslashes Hls Hred.
  revert acc. induction l as [|[e a] l IH]; intros acc Hnd Hl Hn H0 Hs Ht.
  { exists acc. cbn. split_and!; try done; try lia; [|by left]. intros e. rewrite elem_of_nil. naive_solver. }
  apply NoDup_cons in Hnd as [Hnin Hnd]. apply Forall_cons in Hl as [[He Ha] Hl]. apply Forall_cons in Hn as [Hne Hn].
  cbn [fst snd fmap list_fmap] in *. rewrite zsum_cons in *. cbn [snd] in *. cbn [try_fold].
  assert (0 ≤ zsum snd l) by (apply zsum_nonneg; intros x Hx; rewrite Forall_forall in Hl; by apply Hl).
  destruct (after_step_ok acc e a He Ha H0 ltac:(lia)) as (x & E & Hx). rewrite E. cbn [mbind res_bind].
  destruct (IH (mk_result (rs_sum acc + x) (<[e := x]> (rs_epoch_map acc)))) as (rs & -> & Hsum & Hdom & Hval & Hle);
    cbn [rs_sum rs_epoch_map]; [done|done| |lia|lia|by rewrite amounts_total_insert, Ht by done; lia|].
  { apply Forall_forall. intros [e' a'] Hin. rewrite Forall_forall in Hn. cbn. rewrite lookup_insert_ne; [by apply (Hn _ Hin)|].
    intros ->. apply Hnin. by apply (list_elem_of_fmap_2 fst _ (e', a')). }
  exists rs. cbn [rs_sum rs_epoch_map] in *. split; [done|]. split; [done|]. split_and!; [| |lia..].
  - intros e'. rewrite Hdom, lookup_insert_is_Some, elem_of_cons. destruct (decide (e = e')) as [->|]; naive_solver.
  - intros e' b Hb. destruct (Hval e' b Hb) as [Hb'|]; [|by right]. apply lookup_insert_Some in Hb' as [[<- <-]|[_ ?]]; [|by left].
    right. rewrite He. cbn. lia.
Qed.

(** What unbonds leave: per start epoch between nothing and the unbond, and
    their sum. *)
Lemma after_unbond_ok : amounts_nonneg unbonds → amounts_total unbonds ≤ MAXA →
  ∃ rs, compute_amount_after_slashing_unbond params slashes_of unbonds redelegated slashes = Ok rs ∧
    rs_sum rs = amounts_total (rs_epoch_map rs) ∧
    (∀ e, is_Some (rs_epoch_map rs !! e) ↔ is_Some (unbonds !! e)) ∧
    (∀ e a, rs_epoch_map rs !! e = Some a → 0 ≤ a ≤ default 0 (unbonds !! e)) ∧
    0 ≤ rs_sum rs ≤ amounts_total unbonds.
Proof using Hoff Hoff0 Hpipe Hslashes Hls Hred.
  intros Hn Ht. destruct (after_unbond_loop (kvs unbonds) (mk_result 0 ∅)) as (rs & E & Hsum & Hdom & Hval & Hle).
  - apply kvs_NoDup.
  - apply Forall_forall. intros [e a] He%elem_of_kvs. split; [done|]. by apply (Hn e a).
  - apply Forall_forall. intros x _. apply lookup_empty.
  - done.
  - done.
  - cbn [rs_sum rs_epoch_map]. unfold amounts_total. by rewrite kvs_empty.
  - exists rs. cbn [rs_sum rs_epoch_map] in *. change (zsum snd (kvs unbonds)) with (amounts_total unbonds) in Hle. split; [done|]. split; [done|]. split_and!; [| |lia..].
    + intros e. rewrite Hdom, lookup_empty. unfold is_Some at 1. split.
      * intros [[? [=]]|Hin]. apply list_elem_of_fmap in Hin as ([e' a] & -> & Ha%elem_of_kvs). by exists a.
      * intros [a Ha%elem_of_kvs]. right. by apply (list_elem_of_fmap_2 fst _ (e, a)).
    + intros e a Ha. destruct (Hval e a Ha) as [Hv|]; [by rewrite lookup_empty in Hv|done].
Qed.
End unbonds.
End redelegated.

(** ** What a computation that succeeds returns *)

Section returns.
Context {A : Type} {EA : EqDecision A} {CA : Countable A} {OA : CmpOrder A} (params : OwnedPosParams).

Lemma sat_sub_le a b : 0 ≤ a → 0 ≤ b → 0 ≤ sat_sub a b ≤ a.
Proof using Type.
  intros Ha Hb. unfold sat_sub, ZAmount.sub. destruct (chk 256 (a - b)) as [x|] eqn:E; cbn; [apply chk_Some in E as [-> ?]; unfold id|]; lia.
Qed.

Lemma mul_ceil_nonneg a d x : ZAmount.mul_ceil a d = Some x → 0 ≤ x.
Proof using Type.
  unfold ZAmount.mul_ceil. destruct (d <? 0); [done|]. destruct (chk 256 (a * d)) as [y|] eqn:E; [|done]. apply chk_Some in E as [-> ?].
  intros [= <-]. assert (- (a * d) / E12 ≤ 0); [|lia]. apply Z.div_le_upper_bound; lia.
Qed.

Lemma apply_le l a x : apply_list_slashes (A:=A) params l a = Ok x → 0 ≤ a → 0 ≤ x ≤ a.
Proof using Type.
  intros Hr Ha. unfold apply_list_slashes in Hr. res_inv Hr.
  apply (try_fold_ok _ (λ _ st, 0 ≤ st.1 ≤ a) _ _ _ Hres); [cbn; lia|]. intros s l' [f m] acc' Hf H1. cbn [fst] in Hf. res_inv H1.
  unfold compute_slashable_amount in Hres0. res_inv Hres0. unfold arith in Hres0. apply ok_or_ok, mul_ceil_nonneg in Hres0.
  cbn [fst]. pose proof (sat_sub_le f v0 ltac:(lia) Hres0). lia.
Qed.

Lemma fold_le slashes_of rb start l f r : fold_and_slash_redelegated_bonds (A:=A) params slashes_of rb start l f = Ok r →
  tokens_nonneg rb → 0 ≤ total_after_slashing r ≤ total_redelegated r.
Proof using Type.
  intros Hr Hn. unfold fold_and_slash_redelegated_bonds in Hr.
  apply (try_fold_ok _ (λ l acc, Forall (λ x : A * gmap Z Z, amounts_nonneg x.2) l ∧ 0 ≤ total_after_slashing acc ≤ total_redelegated acc) _ _ _ Hr).
  { split; [|cbn; lia]. apply Forall_forall. intros [v m] Hm%elem_of_kvs. by apply (Hn v m). }
  clear Hr. intros [v m] l1 acc acc1 ([Hm Hl]%Forall_cons & Hacc) H1. split; [done|]. cbn [fst snd] in *.
  apply (try_fold_ok _ (λ l acc, Forall (λ x : Z * Z, 0 ≤ x.2) l ∧ 0 ≤ total_after_slashing acc ≤ total_redelegated acc) _ _ _ H1).
  { split; [by apply kvs_nonneg|done]. }
  clear H1. intros [b c] l2 acc2 acc3 ([Hc Hl2]%Forall_cons & Hacc2) H1. split; [done|]. cbn [snd] in Hc. unfold redelegated_step in H1.
  res_inv H1. apply apply_le in Hres1; [|done]. unfold arith, ZAmount.add in Hres0, Hres2. apply ok_or_ok, chk_Some in Hres0 as [-> _], Hres2 as [-> _].
  cbn. lia.
Qed.

(** A withdrawal pays at most what was unbonded. *)
Lemma withdraw_le slashes_of l slashes rs :
  compute_amount_after_slashing_withdraw (A:=A) params slashes_of l slashes = Ok rs →
  Forall (λ x : (Z * Z) * (Z * gmap A (gmap Z Z)), 0 ≤ x.2.1 ∧ tokens_nonneg x.2.2) l →
  0 ≤ rs_sum rs ≤ zsum (λ x, x.2.1) l.
Proof using Type.
  intros Hr Hn. destruct (try_fold_ok _ (λ l' acc, Forall (λ x : (Z * Z) * (Z * gmap A (gmap Z Z)), 0 ≤ x.2.1 ∧ tokens_nonneg x.2.2) l' ∧
    0 ≤ rs_sum acc ∧ rs_sum acc + zsum (λ x, x.2.1) l' ≤ zsum (λ x, x.2.1) l) _ _ _ Hr) as (_ & H1 & H2).
  - split; [done|]. cbn. lia.
  - clear Hr. intros [[st w] [a rb]] l' acc acc' ([[Ha Hrb] Hl]%Forall_cons & H0 & H1) Hr. split; [done|]. rewrite zsum_cons in H1. cbn [fst snd] in *.
    unfold after_slashing_withdraw_step in Hr. res_inv Hr. apply fold_le in Hres1; [|done].
    unfold arith, ZAmount.add, ZAmount.sub in Hres2, Hres4, Hres5. apply ok_or_ok, chk_Some in Hres2 as [-> ?], Hres4 as [-> ?], Hres5 as [-> ?].
    apply apply_le in Hres3; [|lia]. cbn. lia.
  - cbn in H2. lia.
Qed.
End returns.
