(* ===== verification/Unbonding.v ===== *)
(** * Unbonding: which bonds are unbonded

    Models the helpers of [unbond_tokens] in [proof_of_stake/src/lib.rs]: an unbond
    takes the latest bonds first, the last of them perhaps partially; when such a
    bond has a redelegated part, that part is taken first, one source validator
    after another.  The properties are conservation: what is taken together is the
    requested amount, and what is taken and what is kept make up what there
    was. *)

From stdpp Require Import sorting.
From S2P Require Import Prelude Words Uint Decimal I256 Dec Token Epochs BTree PosTypes Epoched ValidatorSets Slashing.

Record BondsForRemovalRes : Type := mk_removal { br_epochs : gset Z; br_new_entry : option (Epoch * Z) }.

Section unbonding.
Context {A : Type} {EA : EqDecision A} {CA : Countable A} {OA : CmpOrder A}.

Abbreviation R := (res (PosError A)).
Abbreviation EpochAmounts := (gmap Z Z).
Abbreviation RedelegatedTokens := (gmap A (gmap Z Z)).

(** ** Bonds to remove *)

Fixpoint remove_loop (bonds : list (Epoch * Z)) (remaining : Z) (acc : BondsForRemovalRes) : R BondsForRemovalRes :=
  match bonds with
  | [] => Ok acc
  | (bond_epoch, bond_amount) :: bonds =>
      let to_unbond := Z.min bond_amount remaining in
      acc ← (if to_unbond =? bond_amount
             then Ok (mk_removal ({[bond_epoch]} ∪ br_epochs acc) (br_new_entry acc))
             else new ← arith (ZAmount.sub bond_amount to_unbond);
                  Ok (mk_removal (br_epochs acc) (Some (bond_epoch, new))));
      remaining ← arith (ZAmount.sub remaining to_unbond);
      if remaining =? 0 then Ok acc else remove_loop bonds remaining acc
  end.
Definition find_bonds_to_remove (bonds : EpochAmounts) (amount : Z) : R BondsForRemovalRes :=
  remove_loop (reverse (kvs bonds)) amount (mk_removal ∅ None).

(** [keysUnbonds] and [newUnbonds] of [unbond_tokens]. *)
Definition unbonded_epochs (r : BondsForRemovalRes) : gset Z :=
  match br_new_entry r with Some (start, _) => {[start]} ∪ br_epochs r | None => br_epochs r end.
Definition unbonded_value (bonds : EpochAmounts) (r : BondsForRemovalRes) (epoch : Epoch) : R Z :=
  let cur_bond_value := default 0 (bonds !! epoch) in
  match br_new_entry r with
  | Some (start_epoch, new_bond_amount) =>
      if start_epoch =? epoch then arith (ZAmount.sub cur_bond_value new_bond_amount) else Ok cur_bond_value
  | None => Ok cur_bond_value
  end.
Definition new_unbonds (bonds : EpochAmounts) (r : BondsForRemovalRes) : R EpochAmounts :=
  collect_map (unbonded_value bonds r) (elements (unbonded_epochs r)).
(** What is left of the bonds. *)
Definition kept_bonds (bonds : EpochAmounts) (r : BondsForRemovalRes) : EpochAmounts :=
  let bonds := filter (λ x, x.1 ∉ br_epochs r) bonds in
  match br_new_entry r with Some (epoch, new) => <[epoch := new]> bonds | None => bonds end.

(** ** Redelegated bonds *)

Record ModifiedRedelegation : Type := mk_modified {
  mr_epoch : option Epoch;
  mr_validators_to_remove : gset A;
  mr_validator_to_modify : option A;
  mr_epochs_to_remove : gset Z;
  mr_epoch_to_modify : option Epoch;
  mr_new_amount : option Z;
}.
Definition modified_default : ModifiedRedelegation := mk_modified None ∅ None ∅ None None.

(** The loop over the source validators, in order of addresses. *)
Fixpoint modify_loop (srcs : list (A * EpochAmounts)) (remaining : Z) (acc : ModifiedRedelegation) : R ModifiedRedelegation :=
  match srcs with
  | [] => Ok acc
  | (src_validator, rbonds) :: srcs =>
      if remaining =? 0 then Ok acc
      else
        total_src_val_amount ← ok_or (ZAmount.sum (snd <$> kvs rbonds)) AmountSumOverflow;
        let to_remove := {[src_validator]} ∪ mr_validators_to_remove acc in
        if total_src_val_amount <=? remaining then
          remaining ← arith (ZAmount.sub remaining total_src_val_amount);
          modify_loop srcs remaining
            (mk_modified (mr_epoch acc) to_remove (mr_validator_to_modify acc) (mr_epochs_to_remove acc)
               (mr_epoch_to_modify acc) (mr_new_amount acc))
        else
          bonds_to_remove ← find_bonds_to_remove rbonds remaining;
          modify_loop srcs 0
            (match br_new_entry bonds_to_remove with
             | Some (bond_epoch, new_bond_amount) =>
                 mk_modified (mr_epoch acc) to_remove (Some src_validator)
                   ({[bond_epoch]} ∪ br_epochs bonds_to_remove) (Some bond_epoch) (Some new_bond_amount)
             | None =>
                 mk_modified (mr_epoch acc) to_remove (Some src_validator) (br_epochs bonds_to_remove)
                   (mr_epoch_to_modify acc) (mr_new_amount acc)
             end)
  end.

(** The source validators with data, and the sum over all their entries. *)
Definition sources (redelegated_bonds : RedelegatedTokens) : list (A * EpochAmounts) :=
  filter (λ x, x.2 ≠ ∅) (kvs redelegated_bonds).
Definition redelegated_amounts (redelegated_bonds : RedelegatedTokens) : list Z :=
  sources redelegated_bonds ≫= λ x, snd <$> kvs x.2.

Definition compute_modified_redelegation (redelegated_bonds : RedelegatedTokens) (start_epoch : Epoch) (amount_to_unbond : Z) :
    R ModifiedRedelegation :=
  total_redelegated ← try_fold (λ acc amount, arith (ZAmount.add acc amount)) 0 (redelegated_amounts redelegated_bonds);
  let modified := mk_modified (Some start_epoch) ∅ None ∅ None None in
  if total_redelegated <=? amount_to_unbond then Ok modified
  else modify_loop (sources redelegated_bonds) amount_to_unbond modified.

Definition remove_epochs (epochs : gset Z) (m : EpochAmounts) : EpochAmounts := filter (λ x, x.1 ∉ epochs) m.
Definition remove_validators (vals : gset A) (m : RedelegatedTokens) : RedelegatedTokens := filter (λ x, x.1 ∉ vals) m.

Definition update_redelegated_bonds (redelegated_bonds : RedelegatedTokens) (modified : ModifiedRedelegation) : R RedelegatedTokens :=
  match mr_validator_to_modify modified with
  | Some val_to_modify =>
      let redelegated_bonds :=
        remove_validators (mr_validators_to_remove modified ∖ {[val_to_modify]}) redelegated_bonds in
      let val_bonds := at_ redelegated_bonds val_to_modify in
      match mr_epoch_to_modify modified with
      | Some epoch_to_modify =>
          let val_bonds := remove_epochs (mr_epochs_to_remove modified ∖ {[epoch_to_modify]}) val_bonds in
          new_amount ← expect (mr_new_amount modified);
          Ok (<[val_to_modify := <[epoch_to_modify := new_amount]> val_bonds]> redelegated_bonds)
      | None => Ok (<[val_to_modify := remove_epochs (mr_epochs_to_remove modified) val_bonds]> redelegated_bonds)
      end
  | None => Ok (remove_validators (mr_validators_to_remove modified) redelegated_bonds)
  end.

(** What [unbond_tokens] leaves of the redelegated bonds of a partially unbonded
    epoch. *)
Definition updated_redelegated (redelegated_bonds : RedelegatedTokens) (modified : ModifiedRedelegation) : R RedelegatedTokens :=
  if bool_decide (mr_validators_to_remove modified = ∅) then Ok ∅ else update_redelegated_bonds redelegated_bonds modified.

(** [NestedMap::contains] and the non-empty part of a nested map. *)
Definition with_entries (m : RedelegatedTokens) : RedelegatedTokens := filter (λ x, x.2 ≠ ∅) m.
Definition has_entries (redelegated_bonds : gmap Z RedelegatedTokens) (epoch : Epoch) : bool :=
  bool_decide (with_entries (at_ redelegated_bonds epoch) ≠ ∅).

(** The part of a partially unbonded source validator that is unbonded. *)
Definition unbonded_of_modified (cur : EpochAmounts) (modified : ModifiedRedelegation) : R EpochAmounts :=
  collect_map (λ bond_start,
      let cur_redel_bond_amount := default 0 (cur !! bond_start) in
      if match mr_epoch_to_modify modified with Some epoch => negb (bond_start =? epoch) | None => true end
      then Ok cur_redel_bond_amount
      else new_amount ← expect (mr_new_amount modified); arith (ZAmount.sub cur_redel_bond_amount new_amount))
    (elements (mr_epochs_to_remove modified)).

Definition redelegated_unbond_step (rbonds : RedelegatedTokens) (modified : ModifiedRedelegation) (acc : RedelegatedTokens)
    (src_validator : A) : R RedelegatedTokens :=
  if match mr_validator_to_modify modified with Some v => bool_decide (src_validator ≠ v) | None => true end
  then
    let raw_bonds := at_ rbonds src_validator in
    Ok (if bool_decide (raw_bonds = ∅) then acc else <[src_validator := raw_bonds]> acc)
  else
    m ← unbonded_of_modified (at_ rbonds src_validator) modified;
    Ok (if bool_decide (mr_epochs_to_remove modified = ∅) then acc else <[src_validator := m]> acc).
Definition new_redelegated_unbonds_at (rbonds : RedelegatedTokens) (start : Epoch) (modified : ModifiedRedelegation) :
    R RedelegatedTokens :=
  if match mr_epoch modified with Some e => negb (start =? e) | None => true end
     || bool_decide (mr_validators_to_remove modified = ∅)
  then Ok (with_entries rbonds)
  else try_fold (redelegated_unbond_step rbonds modified) ∅ (elements (mr_validators_to_remove modified)).

Definition compute_new_redelegated_unbonds (redelegated_bonds : gmap Z RedelegatedTokens) (epochs_to_remove : gset Z)
    (modified : ModifiedRedelegation) : R (gmap Z RedelegatedTokens) :=
  let epochs := match mr_epoch modified with Some e => {[e]} ∪ epochs_to_remove | None => epochs_to_remove end in
  let unbonded := filter (λ e, has_entries redelegated_bonds e = true) epochs in
  collect_map (λ start, new_redelegated_unbonds_at (at_ redelegated_bonds start) start modified) (elements unbonded).
End unbonding.

(** ** Bonds to remove: the latest first, and exactly the amount *)

Section bonds.
Context {A : Type}.

(** The loop takes a prefix in full and perhaps part of the next bond; it takes
    everything when that is less than the amount. *)
Lemma remove_loop_ok l remaining acc :
  Forall (λ x : Z * Z, 0 ≤ x.2 < 2 ^ 256) l → 0 < remaining < 2 ^ 256 →
  ∃ full part rest, l = full ++ part ++ rest ∧
    (part = [] ∧ zsum snd full = Z.min remaining (zsum snd l) ∧
     remove_loop (A:=A) l remaining acc = Ok (mk_removal (list_to_set full.*1 ∪ br_epochs acc) (br_new_entry acc)) ∨
     ∃ e b, part = [(e, b)] ∧ zsum snd full < remaining < zsum snd full + b ∧
     remove_loop (A:=A) l remaining acc =
       Ok (mk_removal (list_to_set full.*1 ∪ br_epochs acc) (Some (e, zsum snd full + b - remaining)))).
Proof.
  intros Hl. revert remaining acc. induction Hl as [|[e b] l Hb Hl IH]; intros rem acc Hrem.
  { exists [], [], []. split; [done|]. left. split; [done|]. split; [cbn; lia|]. cbn. rewrite (union_empty_l_L (br_epochs acc)). by destruct acc. }
  rewrite zsum_cons in *. cbn [snd] in *. cbn beta in Hb. cbn [remove_loop].
  assert (0 ≤ zsum snd l) by (apply zsum_nonneg; intros x Hx; rewrite Forall_forall in Hl; by apply Hl).
  destruct (Z.le_gt_cases b rem) as [Hle|Hgt].
  - rewrite (Z.min_l b rem), Z.eqb_refl by lia. cbn [mbind res_bind]. unfold ZAmount.sub. rewrite chk_in by lia.
    cbn [arith ok_or mbind res_bind]. destruct (Z.eqb_spec (rem - b) 0) as [E|E].
    + exists [(e, b)], [], l. split; [done|]. left. split; [done|]. split; [rewrite zsum_cons; cbn; lia|].
      cbn [fmap list_fmap list_to_set fst]. do 2 f_equal. set_solver.
    + destruct (IH (rem - b) (mk_removal ({[e]} ∪ br_epochs acc) (br_new_entry acc)) ltac:(lia)) as
        (full & part & rest & -> & Hres). exists ((e, b) :: full), part, rest. split; [done|].
      assert (list_to_set ((e, b) :: full).*1 ∪ br_epochs acc = list_to_set full.*1 ∪ ({[e]} ∪ br_epochs acc)) as -> by set_solver.
      rewrite zsum_cons. cbn [snd br_epochs br_new_entry] in *. destruct Hres as [(-> & Hs & ->)|(e' & b' & -> & Hs & ->)].
      * left. split; [done|]. split; [lia|done].
      * right. exists e', b'. split; [done|]. split; [lia|]. do 4 f_equal. lia.
  - rewrite (Z.min_r b rem) by lia. destruct (Z.eqb_spec rem b); [lia|]. unfold ZAmount.sub. rewrite chk_in by lia.
    cbn [arith ok_or mbind res_bind]. rewrite Z.sub_diag. cbn [chk in_u arith ok_or mbind res_bind].
    exists [], [(e, b)], l. split; [done|]. right. exists e, b. split; [done|]. split; [cbn; lia|].
    rewrite chk_in by lia. cbn [arith ok_or mbind res_bind zsum foldr fmap list_fmap list_to_set]. rewrite Z.eqb_refl.
    by rewrite (union_empty_l_L (br_epochs acc)), Z.add_0_l.
Qed.

Lemma amounts_total_on (m : gmap Z Z) l : NoDup l → (∀ e, is_Some (m !! e) → e ∈ l) →
  amounts_total m = zsum (λ e, default 0 (m !! e)) l.
Proof.
  intros Hl Hin. unfold amounts_total. rewrite (zsum_kvs_on snd m l Hl Hin). apply zsum_ext. intros e _. by destruct (m !! e).
Qed.

(** What the latest bonds lose: for every bond how much is taken from it. *)
Definition take_spec (bonds m : gmap Z Z) : Prop :=
  (∀ e a, m !! e = Some a → ∃ b, bonds !! e = Some b ∧ 0 ≤ a ≤ b) ∧
  (∀ e e', is_Some (m !! e) → e < e' → default 0 (m !! e') = default 0 (bonds !! e')).

(** The bond that is taken in part: its epoch, its amount and what is taken. *)
Definition part_bond (part : option (Z * Z * Z)) : list (Z * Z) :=
  match part with Some (e, b, _) => [(e, b)] | None => [] end.
Definition part_taken (part : option (Z * Z * Z)) : list (Z * Z) :=
  match part with Some (e, _, t) => [(e, t)] | None => [] end.
Definition removal_of (full : list (Z * Z)) (part : option (Z * Z * Z)) : BondsForRemovalRes :=
  mk_removal (list_to_set full.*1) (match part with Some (e, b, t) => Some (e, b - t) | None => None end).

Definition in_range (bonds : gmap Z Z) : Prop := map_Forall (λ _ b, 0 ≤ b < 2 ^ 256) bonds.

Lemma in_range_nonneg bonds : in_range bonds → amounts_nonneg bonds.
Proof. intros H e b Hb. specialize (H e b Hb). cbn in *. lia. Qed.

Lemma find_bonds_shape (bonds : gmap Z Z) amount :
  in_range bonds → 0 < amount < 2 ^ 256 →
  ∃ full part rest, reverse (kvs bonds) = full ++ part_bond part ++ rest ∧
    find_bonds_to_remove (A:=A) bonds amount = Ok (removal_of full part) ∧
    zsum snd (full ++ part_taken part) = Z.min amount (amounts_total bonds) ∧
    match part with Some (e, b, t) => 0 < t < b | None => True end.
Proof.
  intros Hn Ha. unfold find_bonds_to_remove.
  assert (Hperm : zsum snd (reverse (kvs bonds)) = amounts_total bonds) by (apply zsum_perm, reverse_Permutation).
  assert (Hr : Forall (λ x : Z * Z, 0 ≤ x.2 < 2 ^ 256) (reverse (kvs bonds))).
  { rewrite reverse_Permutation. apply Forall_forall. intros [e b] Hb%elem_of_kvs. by apply (Hn e b). }
  destruct (remove_loop_ok (reverse (kvs bonds)) amount (mk_removal ∅ None) Hr Ha) as (full & part & rest & Hl & Hres).
  cbn [br_epochs br_new_entry] in Hres. rewrite (union_empty_r_L (list_to_set full.*1)), Hperm in Hres.
  destruct Hres as [(-> & Hs & ->)|(e & b & -> & Hs & ->)].
  - exists full, None, rest. cbn [part_bond part_taken]. rewrite app_nil_r. done.
  - exists full, (Some (e, b, amount - zsum snd full)), rest. cbn [part_bond part_taken removal_of].
    assert (amount ≤ amounts_total bonds).
    { rewrite <-Hperm, Hl, !zsum_app. cbn. rewrite Hl in Hr. apply Forall_app in Hr as [_ [_ Hr]%Forall_app].
      assert (0 ≤ zsum snd rest); [|lia]. apply zsum_nonneg. intros x Hx. rewrite Forall_forall in Hr. by apply Hr. }
    split; [done|]. split; [|split; [rewrite zsum_app; cbn; lia|lia]].
    unfold removal_of. do 4 f_equal. lia.
Qed.

Section shape.
Context (bonds : gmap Z Z) (full : list (Z * Z)) (part : option (Z * Z * Z)) (rest : list (Z * Z)).
Context (Hn : in_range bonds) (Hl : reverse (kvs bonds) = full ++ part_bond part ++ rest).
Context (Hpart : match part with Some (e, b, t) => 0 < t < b | None => True end).
Abbreviation tk := (full ++ part_taken part).

Lemma bond_in e b : (e, b) ∈ full ++ part_bond part ++ rest ↔ bonds !! e = Some b.
Proof using Hl Hpart Hn. by rewrite <-Hl, elem_of_reverse, elem_of_kvs. Qed.

Lemma shape_NoDup : NoDup tk.*1.
Proof using Hl Hpart Hn.
  assert (Hnd : NoDup (full ++ part_bond part ++ rest).*1) by (rewrite <-Hl, reverse_Permutation; apply kvs_NoDup).
  rewrite app_assoc, fmap_app in Hnd. apply NoDup_app in Hnd as [Hnd _]. rewrite fmap_app in *.
  by destruct part as [[[e b] t]|].
Qed.

(** Bonds that are kept are before those that are taken. *)
Lemma shape_order e1 b1 e2 b2 :
  (e1, b1) ∈ part_bond part ++ rest → (e2, b2) ∈ full → e1 < e2.
Proof using Hl Hpart Hn.
  pose proof (kvs_sorted bonds) as Hs. rewrite <-(reverse_involutive (kvs bonds)), Hl, reverse_app in Hs.
  apply StronglySorted_app in Hs as (Hs & _). intros H1 H2. specialize (Hs (e1, b1) (e2, b2)).
  rewrite !elem_of_reverse in Hs. specialize (Hs H1 H2). by apply Z.compare_lt_iff in Hs.
Qed.

Lemma shape_order_rest e1 b1 e2 b2 :
  (e1, b1) ∈ rest → (e2, b2) ∈ full ++ part_bond part → e1 < e2.
Proof using Hl Hpart Hn.
  pose proof (kvs_sorted bonds) as Hs. rewrite <-(reverse_involutive (kvs bonds)), Hl, app_assoc, reverse_app in Hs.
  apply StronglySorted_app in Hs as (Hs & _). intros H1 H2. specialize (Hs (e1, b1) (e2, b2)).
  rewrite !elem_of_reverse in Hs. specialize (Hs H1 H2). by apply Z.compare_lt_iff in Hs.
Qed.

Lemma part_in e b t : part = Some (e, b, t) → bonds !! e = Some b.
Proof using Hl Hpart Hn. intros E. apply bond_in. rewrite E. set_solver. Qed.

Lemma full_in e b : (e, b) ∈ full → bonds !! e = Some b.
Proof using Hl Hpart Hn. intros. apply bond_in. set_solver. Qed.

Lemma full_not_part e b t a : part = Some (e, b, t) → (e, a) ∈ full → False.
Proof using Hl Hpart Hn. intros E Ha. assert (e < e); [|lia]. apply (shape_order e b e a); [rewrite E; set_solver|done]. Qed.

Lemma taken_elem e a : (e, a) ∈ tk ↔ (e, a) ∈ full ∨ ∃ b, part = Some (e, b, a).
Proof using Hl Hpart Hn. rewrite elem_of_app. destruct part as [[[e' b'] t]|]; cbn; set_solver. Qed.

Lemma taken_value e a : (e, a) ∈ tk → unbonded_value (A:=A) bonds (removal_of full part) e = Ok a.
Proof using Hl Hpart Hn.
  intros [Ha|[b Ep]]%taken_elem; unfold unbonded_value, removal_of; cbn [br_new_entry].
  - rewrite (full_in e a Ha). cbn [default]. pose proof (λ b t Hp, full_not_part e b t a Hp Ha) as Hnp. destruct part as [[[e' b'] t]|] eqn:Ep; [|done].
    destruct (Z.eqb_spec e' e) as [->|]; [|done]. by destruct (Hnp b' t).
  - pose proof (part_in _ _ _ Ep) as Hb. pose proof (Hn _ _ Hb) as Hb0. cbn beta in Hb0.
    assert (0 < a < b) by (by rewrite Ep in Hpart). rewrite Ep, Z.eqb_refl, Hb.
    cbn [default]. unfold ZAmount.sub.  unfold id. rewrite chk_in by lia. cbn. f_equal. lia.
Qed.

Lemma taken_epochs : unbonded_epochs (removal_of full part) = list_to_set tk.*1.
Proof using Hl Hpart Hn.
  clear Hl Hpart Hn. unfold unbonded_epochs, removal_of. cbn [br_new_entry br_epochs]. rewrite fmap_app, list_to_set_app_L.
  destruct part as [[[e' b'] t]|]; cbn; [set_solver|by rewrite (union_empty_r_L (list_to_set full.*1))].
Qed.

Lemma taken_map : new_unbonds (A:=A) bonds (removal_of full part) = Ok (list_to_map tk).
Proof using Hl Hpart Hn.
  unfold new_unbonds. rewrite taken_epochs.
  destruct (collect_map_ok (unbonded_value (A:=A) bonds (removal_of full part)) (λ e, default 0 ((list_to_map tk : gmap Z Z) !! e))
    (elements (list_to_set tk.*1 : gset Z))) as (m & -> & Hm).
  - intros e. rewrite elem_of_elements, elem_of_list_to_set, list_elem_of_fmap. intros ([e' a] & -> & Ha).
    cbn [fst]. rewrite (taken_value _ _ Ha). by rewrite (elem_of_list_to_map_1 tk _ _ shape_NoDup Ha).
  - f_equal. apply map_eq. intros e. rewrite Hm. destruct (decide _) as [He|He].
    + rewrite elem_of_elements, elem_of_list_to_set, list_elem_of_fmap in He. destruct He as ([e' a] & -> & Ha).
      cbn [fst]. by rewrite (elem_of_list_to_map_1 tk _ _ shape_NoDup Ha).
    + symmetry. apply not_elem_of_list_to_map_1. by rewrite elem_of_elements, elem_of_list_to_set in He.
Qed.

Lemma taken_lookup e a : (list_to_map tk : gmap Z Z) !! e = Some a ↔ (e, a) ∈ tk.
Proof using Hl Hpart Hn. symmetry. apply elem_of_list_to_map, shape_NoDup. Qed.

Lemma taken_spec : take_spec bonds (list_to_map tk).
Proof using Hl Hpart Hn.
  split.
  - intros e a [Ha|[b Ep]]%taken_lookup%taken_elem.
    + exists a. pose proof (Hn _ _ (full_in _ _ Ha)) as Ha0. cbn beta in Ha0. split; [by apply full_in|lia].
    + exists b. split; [by eapply part_in|]. rewrite Ep in Hpart. lia.
  - intros e e' [a Ha%taken_lookup%taken_elem] Hlt. destruct (bonds !! e') as [b'|] eqn:Eb; cbn.
    + assert (Hin : (e', b') ∈ full); [|by rewrite (proj2 (taken_lookup e' b')) by (apply taken_elem; by left)].
      apply bond_in in Eb. rewrite !elem_of_app in Eb. destruct Eb as [|[Hp|Hr]]; [done|exfalso..].
      * pose proof (shape_order e' b' e a ltac:(set_solver)) as Ho. destruct Ha as [Ha|[b Ep]]; [specialize (Ho Ha); lia|].
        rewrite Ep in Hp. apply list_elem_of_singleton in Hp as [= -> _]. lia.
      * assert (∃ x, (e, x) ∈ full ++ part_bond part) as [x Hx].
        { destruct Ha as [Ha|[b Ep]]; [exists a; set_solver|exists b; rewrite Ep; set_solver]. }
        pose proof (shape_order_rest _ _ _ _ Hr Hx). lia.
    + destruct ((list_to_map tk : gmap Z Z) !! e') as [a'|] eqn:E'; [|done]. apply taken_lookup, taken_elem in E' as [Hf|[b Ep]].
      * apply full_in in Hf. congruence.
      * apply part_in in Ep. congruence.
Qed.

Lemma taken_total : amounts_total (list_to_map tk) = zsum snd tk.
Proof using Hl Hpart Hn.
  unfold amounts_total. rewrite (zsum_perm snd _ _ (kvs_perm _)). apply zsum_perm, map_to_list_to_map, shape_NoDup.
Qed.

Lemma taken_none e : (∀ a, (e, a) ∉ tk) → (list_to_map tk : gmap Z Z) !! e = None.
Proof using Hl Hpart Hn.
  intros H. destruct ((list_to_map tk : gmap Z Z) !! e) as [a|] eqn:E; [|done]. apply taken_lookup in E. by apply H in E.
Qed.

Lemma kept_full e a : (e, a) ∈ full → kept_bonds bonds (removal_of full part) !! e = None.
Proof using Hl Hpart Hn.
  intros Ha. unfold kept_bonds, removal_of. cbn [br_new_entry br_epochs].
  assert (filter (λ x : Z * Z, x.1 ∉ (list_to_set full.*1 : gset Z)) bonds !! e = None) as Hf.
  { apply map_lookup_filter_None. right. intros x _ Hx. cbn in Hx. apply Hx, elem_of_list_to_set.
    by apply (list_elem_of_fmap_2 fst _ (e, a)). }
  pose proof (λ b t Hp, full_not_part e b t a Hp Ha) as Hnp. destruct part as [[[e' b'] t]|]; [|done].
  destruct (decide (e' = e)) as [->|]; [by destruct (Hnp b' t)|]. by rewrite lookup_insert_ne.
Qed.

Lemma kept_other e : (∀ a, (e, a) ∉ tk) → kept_bonds bonds (removal_of full part) !! e = bonds !! e.
Proof using Hl Hpart Hn.
  intros Ha. unfold kept_bonds, removal_of. cbn [br_new_entry br_epochs].
  assert (filter (λ x : Z * Z, x.1 ∉ (list_to_set full.*1 : gset Z)) bonds !! e = bonds !! e) as Hf.
  { rewrite map_lookup_filter. destruct (bonds !! e) as [b|]; [cbn|done]. rewrite option_guard_True; [done|].
    rewrite elem_of_list_to_set, list_elem_of_fmap. intros ([e' a'] & -> & Hin). apply (Ha a'), taken_elem. by left. }
  assert (∀ b t, part ≠ Some (e, b, t)) as Hnp.
  { intros b t Ep. apply (Ha t), taken_elem. right. by exists b. }
  destruct part as [[[e' b'] t]|]; [|done]. rewrite lookup_insert_ne; [done|]. intros ->. by apply (Hnp b' t).
Qed.

(** What is taken and what is kept make up the bonds. *)
Lemma kept_taken e :
  default 0 (bonds !! e) = default 0 (kept_bonds bonds (removal_of full part) !! e) + default 0 ((list_to_map tk : gmap Z Z) !! e).
Proof using Hl Hpart Hn.
  destruct ((list_to_map tk : gmap Z Z) !! e) as [a|] eqn:E.
  - apply taken_lookup, taken_elem in E as [Hf|[b Ep]].
    + rewrite (kept_full e a Hf), (full_in e a Hf). cbn. unfold id. lia.
    + rewrite (part_in _ _ _ Ep). unfold kept_bonds, removal_of. cbn [br_new_entry br_epochs]. rewrite Ep, lookup_insert_eq.
      cbn. unfold id. lia.
  - rewrite kept_other; [cbn; lia|]. intros a Ha%taken_lookup. congruence.
Qed.
End shape.

Lemma amount_le_total (m : gmap Z Z) e a : amounts_nonneg m → m !! e = Some a → a ≤ amounts_total m.
Proof.
  intros Hm%kvs_nonneg He%elem_of_kvs. unfold amounts_total. apply elem_of_Permutation in He as [l Hl].
  rewrite Hl in *. apply Forall_cons in Hm as [_ Hm]. rewrite zsum_cons. cbn [snd].
  assert (0 ≤ zsum snd l); [|lia]. apply zsum_nonneg. intros x Hx. rewrite Forall_forall in Hm. by apply Hm.
Qed.

Lemma find_bonds_ok (bonds : gmap Z Z) amount : in_range bonds → 0 < amount < 2 ^ 256 →
  ∃ r m, find_bonds_to_remove (A:=A) bonds amount = Ok r ∧ new_unbonds (A:=A) bonds r = Ok m ∧
    amounts_total m = Z.min amount (amounts_total bonds) ∧ take_spec bonds m ∧ dom m = unbonded_epochs r ∧
    (∀ e n, br_new_entry r = Some (e, n) → e ∉ br_epochs r ∧ ∃ t, m !! e = Some t ∧ 0 < t ∧ bonds !! e = Some (n + t)) ∧
    (∀ e, e ∈ br_epochs r → is_Some (bonds !! e) ∧ m !! e = bonds !! e) ∧
    ∀ e, default 0 (bonds !! e) = default 0 (kept_bonds bonds r !! e) + default 0 (m !! e).
Proof.
  intros Hn' Ha. destruct (find_bonds_shape bonds amount Hn' Ha) as (full & part & rest & Hl & Hf & Hs & Hp).
  exists (removal_of full part), (list_to_map (full ++ part_taken part)). split; [done|].
  split; [by apply taken_map with rest|]. split; [by rewrite (taken_total bonds full part rest)|].
  split; [by apply taken_spec with rest|]. split; [by rewrite (taken_epochs bonds full part rest), dom_list_to_map_L|].
  split; [|split].
  - intros e n Hnew. unfold removal_of in Hnew. cbn in Hnew. destruct part as [[[e' b] t]|] eqn:Ep; [injection Hnew as -> <-|done].
    split.
    + cbn. rewrite elem_of_list_to_set, list_elem_of_fmap. intros ([e' a] & -> & Hin).
      by apply (full_not_part bonds full (Some (e', b, t)) rest Hn' Hl Hp e' b t a).
    + exists t. split; [|split; [lia|]].
      * apply (taken_lookup bonds full (Some (e, b, t)) rest Hn' Hl Hp). set_solver.
      * rewrite (part_in bonds full (Some (e, b, t)) rest Hn' Hl Hp e b t eq_refl). f_equal. lia.
  - intros e He. cbn in He. rewrite elem_of_list_to_set, list_elem_of_fmap in He. destruct He as ([e' a] & -> & Hin). cbn [fst].
    rewrite (full_in bonds full part rest Hn' Hl Hp e' a Hin). split; [by eexists|].
    apply (taken_lookup bonds full part rest Hn' Hl Hp). set_solver.
  - intros e. by apply kept_taken with rest.
Qed.

Lemma total_in_range bonds : amounts_nonneg bonds → amounts_total bonds < 2 ^ 256 → in_range bonds.
Proof.
  intros Hn Hmax e b Hb. pose proof (Hn e b Hb). pose proof (amount_le_total bonds e b Hn Hb). cbn in *. lia.
Qed.
End bonds.

(** Unbonding an amount that the bonds cover takes exactly that amount,
    from the latest bonds: every bond with a later start than one that is taken
    from is taken in full, no bond gives more than it has, and for every start
    epoch what is taken and what is kept make up the bond there was. *)
Theorem unbond_takes_latest_bonds {A} (bonds : gmap Z Z) (amount : Z) :
  amounts_nonneg bonds → 0 < amount ≤ amounts_total bonds → amounts_total bonds < 2 ^ 256 →
  ∃ r m, find_bonds_to_remove (A:=A) bonds amount = Ok r ∧ new_unbonds (A:=A) bonds r = Ok m ∧
    amounts_total m = amount ∧
    (∀ e a, m !! e = Some a → ∃ b, bonds !! e = Some b ∧ 0 ≤ a ≤ b) ∧
    (∀ e e', is_Some (m !! e) → e < e' → default 0 (m !! e') = default 0 (bonds !! e')) ∧
    ∀ e, default 0 (bonds !! e) = default 0 (kept_bonds bonds r !! e) + default 0 (m !! e).
Proof.
  intros Hn Ha Hmax. destruct (find_bonds_ok (A:=A) bonds amount (total_in_range bonds Hn Hmax) ltac:(lia)) as (r & m & Hr & Hm & Ht & [H1 H2] & _ & _ & _ & Hk).
  rewrite Z.min_l in Ht by lia. by exists r, m.
Qed.

Lemma unbond_takes_latest_bonds_witness :
  let bonds : gmap Z Z := {[1 := 100; 5 := 50; 9 := 30]} in
  (∃ r m, find_bonds_to_remove (A:=N) bonds 60 = Ok r ∧ new_unbonds (A:=N) bonds r = Ok m ∧ amounts_total m = 60) ∧
  find_bonds_to_remove (A:=N) bonds 60 = Ok (mk_removal {[9]} (Some (5, 20))).
Proof.
  intros bonds. split; [|by vm_compute].
  destruct (unbond_takes_latest_bonds (A:=N) bonds 60) as (r & m & Hr & Hm & Ht & _); [|by vm_compute|by vm_compute|by exists r, m].
  apply (bool_decide_unpack _). by vm_compute.
Defined.

(** ** The redelegated part of a partially unbonded bond *)

Section redelegated.
Context {A : Type} {EA : EqDecision A} {CA : Countable A} {OA : CmpOrder A}.
Abbreviation tot := (λ x : A * gmap Z Z, amounts_total x.2).

Lemma modify_loop_zero (srcs : list (A * gmap Z Z)) acc : modify_loop srcs 0 acc = Ok acc.
Proof using Type. by destruct srcs as [|[v m] srcs]. Qed.

(** The record for a source validator that is unbonded in part. *)
Definition modified_part (ep : option Z) (rm : gset A) (v : A) (r : BondsForRemovalRes) : ModifiedRedelegation :=
  mk_modified ep rm (Some v) (unbonded_epochs r) (fst <$> br_new_entry r) (snd <$> br_new_entry r).

Lemma modify_loop_ok ep (srcs : list (A * gmap Z Z)) remaining rm :
  Forall (λ x, amounts_nonneg x.2) srcs → 0 ≤ remaining < zsum tot srcs → zsum tot srcs < 2 ^ 256 →
  ∃ full part rest, srcs = full ++ part ++ rest ∧
    (part = [] ∧ zsum tot full = remaining ∧
     modify_loop srcs remaining (mk_modified ep rm None ∅ None None) = Ok (mk_modified ep (list_to_set full.*1 ∪ rm) None ∅ None None) ∨
     ∃ v m r, part = [(v, m)] ∧ zsum tot full < remaining < zsum tot full + amounts_total m ∧
     find_bonds_to_remove (A:=A) m (remaining - zsum tot full) = Ok r ∧
     modify_loop srcs remaining (mk_modified ep rm None ∅ None None) = Ok (modified_part ep (list_to_set (full ++ part).*1 ∪ rm) v r)).
Proof using Type.
  intros Hs. revert remaining rm. induction Hs as [|[v m] srcs Hm Hs IH]; intros rem rm Hrem Hmax; [cbn in Hrem; lia|].
  rewrite zsum_cons in *. cbn [snd] in *. cbn [modify_loop]. destruct (Z.eqb_spec rem 0) as [->|Hne].
  { exists [], [], ((v, m) :: srcs). split; [done|]. left. split; [done|]. split; [done|]. cbn. by rewrite union_empty_l_L. }
  assert (Hm0 := amounts_total_nonneg m Hm).
  assert (0 ≤ zsum tot srcs).
  { apply zsum_nonneg. intros x Hx. rewrite Forall_forall in Hs. by apply amounts_total_nonneg, Hs. }
  rewrite zamount_sum. 2:{ apply Forall_fmap. by apply kvs_nonneg. } 2:{ rewrite zsum_fmap. by apply (Z.le_lt_trans _ (amounts_total m)); [|lia]. }
  rewrite zsum_fmap. change (zsum (λ x, id x.2) (kvs m)) with (amounts_total m).
  cbn [ok_or mbind res_bind mr_epoch mr_validators_to_remove mr_validator_to_modify mr_epochs_to_remove mr_epoch_to_modify mr_new_amount].
  destruct (Z.leb_spec (amounts_total m) rem) as [Hle|Hgt].
  - unfold ZAmount.sub. rewrite chk_in by lia. cbn [arith ok_or mbind res_bind].
    destruct (IH (rem - amounts_total m) ({[v]} ∪ rm) ltac:(lia) ltac:(lia)) as (full & part & rest & -> & Hres).
    exists ((v, m) :: full), part, rest. split; [done|]. rewrite zsum_cons. cbn [snd].
    assert (∀ k : list (A * gmap Z Z), list_to_set ((v, m) :: k).*1 ∪ rm = list_to_set k.*1 ∪ ({[v]} ∪ rm)) as Hset by set_solver.
    destruct Hres as [(-> & Hf & ->)|(v' & m' & r & -> & Hf & Hr & ->)].
    + left. rewrite Hset. split; [done|]. split; [lia|done].
    + right. exists v', m', r. rewrite <-app_comm_cons, Hset. split; [done|]. split; [lia|]. split; [|done].
      rewrite <-Hr. f_equal. lia.
  - destruct (find_bonds_ok (A:=A) m rem (total_in_range m Hm ltac:(lia)) ltac:(lia)) as (r & tk & Hr & _). rewrite Hr. cbn [mbind res_bind].
    rewrite modify_loop_zero. exists [], [(v, m)], srcs. split; [done|]. right. exists v, m, r. split; [done|].
    cbn [zsum foldr]. rewrite Z.sub_0_r. split; [lia|]. split; [done|]. unfold modified_part, unbonded_epochs.
    assert (list_to_set ([] ++ [(v, m)]).*1 ∪ rm = {[v]} ∪ rm) as -> by set_solver.
    by destruct (br_new_entry r) as [[e n]|].
Qed.

Lemma tokens_total_on (rb : gmap A (gmap Z Z)) l : NoDup l → (∀ v, v ∉ l → at_ rb v = ∅) →
  tokens_total rb = zsum (λ v, amounts_total (at_ rb v)) l.
Proof using Type.
  intros Hl Hout. unfold tokens_total. rewrite (zsum_kvs_on tot rb (l ++ filter (λ v, v ∉ l) (elements (dom rb)))).
  - rewrite zsum_app, (zsum_ext _ (λ _, 0) (filter _ _)), zsum_zero, Z.add_0_r.
    + apply zsum_ext. intros v _. unfold at_. by destruct (rb !! v).
    + intros v [Hv _]%list_elem_of_filter. specialize (Hout v Hv). unfold at_ in Hout. destruct (rb !! v) as [m|]; [|done].
      cbn in *. by subst m.
  - apply NoDup_app. split; [done|]. split; [|apply NoDup_filter, NoDup_elements].
    intros v Hv [Hv' _]%list_elem_of_filter. done.
  - intros v Hv. apply elem_of_app. destruct (decide (v ∈ l)); [by left|]. right.
    apply list_elem_of_filter. split; [done|]. by apply elem_of_elements, elem_of_dom.
Qed.

(** The source validator that is unbonded in part: what is unbonded of it and
    what is kept are those of its bonds. *)
Lemma modified_part_unbonded ep rm v r (m : gmap Z Z) :
  unbonded_of_modified m (modified_part ep rm v r) = new_unbonds (A:=A) m r.
Proof using Type.
  unfold unbonded_of_modified, new_unbonds, modified_part. cbn [mr_epochs_to_remove mr_epoch_to_modify mr_new_amount].
  apply collect_map_ext. intros e. unfold unbonded_value. destruct (br_new_entry r) as [[e' n]|]; [|done].
  cbn. rewrite Z.eqb_sym. by destruct (e' =? e).
Qed.

Lemma modified_part_kept ep rm v r (rb : gmap A (gmap Z Z)) : (∀ e n, br_new_entry r = Some (e, n) → e ∉ br_epochs r) →
  update_redelegated_bonds rb (modified_part ep rm v r) =
  Ok (<[v := kept_bonds (at_ (remove_validators (rm ∖ {[v]}) rb) v) r]> (remove_validators (rm ∖ {[v]}) rb)).
Proof using Type.
  intros Hr. unfold update_redelegated_bonds, modified_part, kept_bonds, unbonded_epochs, remove_epochs.
  cbn [mr_validator_to_modify mr_validators_to_remove mr_epoch_to_modify mr_epochs_to_remove mr_new_amount].
  destruct (br_new_entry r) as [[e n]|] eqn:E; cbn [fmap option_fmap option_map fst snd expect mbind res_bind]; [|done].
  specialize (Hr e n eq_refl). assert (({[e]} ∪ br_epochs r) ∖ {[e]} = br_epochs r) as -> by set_solver. done.
Qed.

Lemma at_remove (rm : gset A) (rb : gmap A (gmap Z Z)) v : at_ (remove_validators rm rb) v = if decide (v ∈ rm) then ∅ else at_ rb v.
Proof using Type.
  unfold at_, remove_validators. rewrite map_lookup_filter. destruct (rb !! v) as [m|]; cbn; [|by destruct (decide _)].
  destruct (decide (v ∈ rm)); [by rewrite option_guard_False by auto|by rewrite option_guard_True].
Qed.

Lemma at_with_entries (rb : gmap A (gmap Z Z)) v : at_ (with_entries rb) v = at_ rb v.
Proof using Type.
  unfold at_, with_entries. rewrite map_lookup_filter. destruct (rb !! v) as [m|]; cbn; [|done].
  destruct (decide (m = ∅)) as [->|]; [by rewrite option_guard_False by auto|by rewrite option_guard_True].
Qed.

Lemma step_whole (rb : gmap A (gmap Z Z)) modified acc v : mr_validator_to_modify modified ≠ Some v → at_ acc v = ∅ →
  ∃ acc', redelegated_unbond_step rb modified acc v = Ok acc' ∧
    ∀ v', at_ acc' v' = if decide (v' = v) then at_ rb v else at_ acc v'.
Proof using Type.
  intros Hv Hacc. unfold redelegated_unbond_step.
  assert (match mr_validator_to_modify modified with Some v' => bool_decide (v ≠ v') | None => true end = true) as ->.
  { destruct (mr_validator_to_modify modified) as [v'|]; [|done]. apply bool_decide_eq_true_2. congruence. }
  eexists. split; [done|]. intros v'. case_bool_decide as E; [|apply at_insert].
  destruct (decide (v' = v)) as [->|]; [congruence|done].
Qed.

Lemma step_part (rb : gmap A (gmap Z Z)) ep rm v r m tk acc : at_ rb v = m → new_unbonds (A:=A) m r = Ok tk →
  dom tk = unbonded_epochs r → at_ acc v = ∅ →
  ∃ acc', redelegated_unbond_step rb (modified_part ep rm v r) acc v = Ok acc' ∧
    ∀ v', at_ acc' v' = if decide (v' = v) then tk else at_ acc v'.
Proof using Type.
  intros <- Htk Hd Hacc. unfold redelegated_unbond_step. cbn [modified_part mr_validator_to_modify mr_epochs_to_remove].
  rewrite bool_decide_false by (intros H; by apply H). rewrite modified_part_unbonded, Htk. cbn [mbind res_bind].
  eexists. split; [done|]. intros v'. case_bool_decide as E; [|apply at_insert].
  destruct (decide (v' = v)) as [->|]; [|done]. rewrite Hacc. symmetry. apply dom_empty_inv_L. by rewrite Hd.
Qed.

Section split.
Context (rb : gmap A (gmap Z Z)) (epoch : Z).
Context (Hrb : tokens_nonneg rb) (Hmax : tokens_total rb < 2 ^ 256).

Lemma sources_in v m : (v, m) ∈ sources rb → at_ rb v = m.
Proof using Type. intros [_ H%elem_of_kvs]%list_elem_of_filter. unfold at_. by rewrite H. Qed.

Lemma sources_NoDup : NoDup (sources rb).*1.
Proof using Type. eapply sublist_NoDup; [apply (kvs_NoDup rb)|]. apply fmap_sublist, sublist_filter. Qed.

Lemma sources_nonneg : Forall (λ x, amounts_nonneg x.2) (sources rb).
Proof using Hrb.
  apply Forall_forall. intros [v m] [_ H%elem_of_kvs]%list_elem_of_filter. by apply (Hrb v m).
Qed.

Lemma sources_total : zsum tot (sources rb) = tokens_total rb.
Proof using Type.
  unfold sources, tokens_total. rewrite zsum_filter. apply zsum_ext. intros [v m] _. cbn.
  destruct (decide _) as [|H]; [done|]. apply dec_stable in H. by subst m.
Qed.

Lemma amounts_fold : try_fold (λ acc amount, arith (A:=A) (ZAmount.add acc amount)) 0 (redelegated_amounts rb) = Ok (tokens_total rb).
Proof using Hrb Hmax.
  assert (E : zsum id (redelegated_amounts rb) = tokens_total rb).
  { unfold redelegated_amounts. rewrite zsum_bind, <-sources_total. apply zsum_ext. intros x _. by rewrite zsum_fmap. }
  assert (Hn : Forall (λ a, 0 ≤ a) (redelegated_amounts rb)).
  { unfold redelegated_amounts. apply Forall_bind. eapply Forall_impl; [apply sources_nonneg|]. intros [v m] Hm. cbn in *.
    apply Forall_fmap. by apply kvs_nonneg. }
  rewrite <-E in *. assert (∀ acc, 0 ≤ acc → acc + zsum id (redelegated_amounts rb) < 2 ^ 256 →
    try_fold (λ acc amount, arith (A:=A) (ZAmount.add acc amount)) acc (redelegated_amounts rb) =
    Ok (acc + zsum id (redelegated_amounts rb))) as Hloop; [|apply Hloop; lia]. clear E.
  induction Hn as [|a l Ha Hl IH]; intros acc Hacc Hlt; [cbn; f_equal; lia|]. rewrite zsum_cons in *. unfold id at 1 in Hlt. unfold id at 1.
  assert (0 ≤ zsum id l) by (apply zsum_nonneg; by apply Forall_forall). cbn [try_fold].
  assert (arith (A:=A) (ZAmount.add acc a) = Ok (acc + a)) as -> by (unfold ZAmount.add; by rewrite chk_in by lia).
  cbn [mbind res_bind]. rewrite IH by lia. f_equal. lia.
Qed.

(** Unbonded and kept amounts that make up the redelegated bonds. *)
Definition split_of (unbonded kept : gmap A (gmap Z Z)) : Prop :=
  ∀ v s, default 0 (at_ rb v !! s) = default 0 (at_ kept v !! s) + default 0 (at_ unbonded v !! s).

Lemma unbonds_loop modified (g : A → gmap Z Z) l : NoDup l → l ≠ [] →
  mr_epoch modified = Some epoch → mr_validators_to_remove modified = list_to_set l →
  (∀ acc v, v ∈ l → at_ acc v = ∅ → ∃ acc', redelegated_unbond_step rb modified acc v = Ok acc' ∧
     ∀ v', at_ acc' v' = if decide (v' = v) then g v else at_ acc v') →
  ∃ m, new_redelegated_unbonds_at rb epoch modified = Ok m ∧ (∀ v, at_ m v = if decide (v ∈ l) then g v else ∅) ∧
    tokens_total m = zsum (λ v, amounts_total (g v)) l.
Proof using Hrb Hmax.
  intros Hnd Hne He Hrm Hstep. unfold new_redelegated_unbonds_at. rewrite He, Hrm, Z.eqb_refl. cbn [negb orb].
  rewrite bool_decide_false by (destruct l; [done|set_solver]).
  destruct (fold_at (redelegated_unbond_step rb modified) g (elements (list_to_set l : gset A))) as (m & -> & Hm).
  { apply NoDup_elements. }
  { intros acc v. rewrite elem_of_elements, elem_of_list_to_set. apply Hstep. }
  assert (Hm' : ∀ v, at_ m v = if decide (v ∈ l) then g v else ∅).
  { intros v. rewrite Hm. apply decide_ext. by rewrite elem_of_elements, elem_of_list_to_set. }
  exists m. split; [done|]. split; [done|]. rewrite (tokens_total_on m l Hnd) by (intros v Hv; by rewrite Hm', decide_False).
  apply zsum_ext. intros v Hv. by rewrite Hm', decide_True.
Qed.

Lemma split_all amount : tokens_total rb ≤ amount →
  ∃ modified unbonded kept, compute_modified_redelegation rb epoch amount = Ok modified ∧
    new_redelegated_unbonds_at rb epoch modified = Ok unbonded ∧ updated_redelegated rb modified = Ok kept ∧
    tokens_total unbonded = tokens_total rb ∧ split_of unbonded kept.
Proof using Hrb Hmax.
  intros Hle. exists (mk_modified (Some epoch) ∅ None ∅ None None), (with_entries rb), ∅.
  split; [unfold compute_modified_redelegation; rewrite amounts_fold; cbn [mbind res_bind]; by destruct (Z.leb_spec (tokens_total rb) amount); [|lia]|].
  split; [unfold new_redelegated_unbonds_at; cbn [mr_epoch mr_validators_to_remove]; by rewrite bool_decide_true, orb_true_r by done|].
  split; [unfold updated_redelegated; cbn [mr_validators_to_remove]; by rewrite bool_decide_true by done|]. split.
  - rewrite (tokens_total_on (with_entries rb) (kvs rb).*1 (kvs_NoDup rb)).
    + unfold tokens_total. rewrite zsum_fmap. apply zsum_ext. intros [v m] Hv%elem_of_kvs. cbn. rewrite at_with_entries. unfold at_. by rewrite Hv.
    + intros v Hv. rewrite at_with_entries. unfold at_. destruct (rb !! v) as [m|] eqn:E; [|done].
      destruct Hv. by apply (list_elem_of_fmap_2 fst _ (v, m)), elem_of_kvs.
  - intros v s. rewrite at_with_entries. unfold at_ at 2. rewrite lookup_empty. cbn. rewrite lookup_empty. cbn. lia.
Qed.

(** A source validator whose bonds are all taken, or none of them. *)
Lemma split_point v (unbonded kept : gmap A (gmap Z Z)) :
  at_ unbonded v = at_ rb v ∧ at_ kept v = ∅ ∨ at_ unbonded v = ∅ ∧ at_ kept v = at_ rb v →
  ∀ s, default 0 (at_ rb v !! s) = default 0 (at_ kept v !! s) + default 0 (at_ unbonded v !! s).
Proof using Type. intros [[-> ->]|[-> ->]] s; rewrite lookup_empty; cbn; lia. Qed.

Section some.
Context (amount : Z) (Hamt : 0 < amount < tokens_total rb).
Context (full part rest : list (A * gmap Z Z)) (Hs : sources rb = full ++ part ++ rest).

Lemma taken_NoDup : NoDup (full ++ part).*1.
Proof using Hs.
  pose proof sources_NoDup as Hnd. rewrite Hs, app_assoc, fmap_app in Hnd. by apply NoDup_app in Hnd as [Hnd _].
Qed.

Lemma full_at v m : (v, m) ∈ full → at_ rb v = m.
Proof using Hs. intros H. apply sources_in. rewrite Hs. apply elem_of_app. by left. Qed.

Lemma full_total : zsum (λ v, amounts_total (at_ rb v)) full.*1 = zsum tot full.
Proof using Hs. rewrite zsum_fmap. apply zsum_ext. intros [v m] Hv. cbn. by rewrite (full_at v m). Qed.

Lemma split_whole : part = [] → zsum tot full = amount →
  let modified := mk_modified (Some epoch) (list_to_set full.*1 ∪ ∅) None ∅ None None in
  ∃ unbonded kept, new_redelegated_unbonds_at rb epoch modified = Ok unbonded ∧ updated_redelegated rb modified = Ok kept ∧
    tokens_total unbonded = amount ∧ split_of unbonded kept.
Proof using Hrb Hmax Hamt Hs.
  pose proof taken_NoDup as Hnd. pose proof full_total as Hft. intros -> Hf modified. subst modified. rewrite (union_empty_r_L (list_to_set full.*1)).
  assert (Hne : full.*1 ≠ []) by (intros E%fmap_nil_inv; subst full; cbn in Hf; lia).
  destruct (unbonds_loop (mk_modified (Some epoch) (list_to_set full.*1) None ∅ None None) (at_ rb) full.*1) as (m & -> & Hm & Ht).
  { by rewrite app_nil_r in Hnd. } { done. } { done. } { done. } { intros. by apply step_whole. }
  exists m, (remove_validators (list_to_set full.*1) rb). split; [done|]. split.
  { unfold updated_redelegated. cbn [mr_validators_to_remove]. rewrite bool_decide_false by (destruct full; [done|set_solver]). done. }
  split; [by rewrite Ht, Hft|]. intros v. apply split_point. rewrite Hm, at_remove.
  destruct (decide (v ∈ full.*1)) as [Hv|Hv].
  - left. split; [done|]. by rewrite decide_True by (by apply elem_of_list_to_set).
  - right. split; [done|]. by rewrite decide_False by (by rewrite elem_of_list_to_set).
Qed.

Lemma split_partial v m r : part = [(v, m)] → zsum tot full < amount < zsum tot full + amounts_total m →
  find_bonds_to_remove (A:=A) m (amount - zsum tot full) = Ok r →
  let modified := modified_part (Some epoch) (list_to_set (full ++ part).*1 ∪ ∅) v r in
  ∃ unbonded kept, new_redelegated_unbonds_at rb epoch modified = Ok unbonded ∧ updated_redelegated rb modified = Ok kept ∧
    tokens_total unbonded = amount ∧ split_of unbonded kept.
Proof using Hrb Hmax Hamt Hs.
  pose proof taken_NoDup as Hnd. pose proof full_total as Hft. intros Hp Hb Hr modified. subst modified.
  assert (Hin : (v, m) ∈ sources rb) by (rewrite Hs, Hp; clear; set_solver). assert (Hv := sources_in v m Hin).
  assert (Hmn : amounts_nonneg m) by (pose proof sources_nonneg as Hn; rewrite Forall_forall in Hn; by apply (Hn (v, m))).
  assert (Hm256 : amounts_total m < 2 ^ 256).
  { rewrite <-sources_total in Hmax. pose proof sources_nonneg as Hn. apply elem_of_Permutation in Hin as [l Hl].
    rewrite Hl, zsum_cons in *. cbn [snd] in *. apply Forall_cons in Hn as [_ Hn]. assert (0 ≤ zsum tot l); [|lia].
    apply zsum_nonneg. intros x Hx. rewrite Forall_forall in Hn. by apply amounts_total_nonneg, Hn. }
  destruct (find_bonds_ok (A:=A) m (amount - zsum tot full) (total_in_range m Hmn Hm256) ltac:(lia)) as (r' & tk & Hr' & Htk & Htot & _ & Hdom & Hne & _ & Hk).
  rewrite Z.min_l in Htot by lia. assert (r' = r) as -> by congruence. rewrite Hp in *. rewrite fmap_app in Hnd.
  assert (Hvf : v ∉ full.*1) by (apply NoDup_app in Hnd as (_ & Hnd & _); intros Hv'; apply (Hnd v Hv'); left).
  set (l := (full ++ [(v, m)]).*1).
  assert (Hl : ∀ x, x ∈ l ↔ x ∈ full.*1 ∨ x = v) by (intros x; clear; unfold l; rewrite fmap_app; set_solver).
  rewrite (union_empty_r_L (list_to_set l)).
  destruct (unbonds_loop (modified_part (Some epoch) (list_to_set l) v r) (λ v', if decide (v' = v) then tk else at_ rb v') l)
    as (unb & -> & Hm & Ht).
  { by unfold l; rewrite fmap_app. } { unfold l. by destruct full. } { done. } { done. }
  { intros acc v' _ Ha. destruct (decide (v' = v)) as [->|]; [by apply step_part with m|].
    apply step_whole; [|done]. cbn. congruence. }
  assert (Hset : (list_to_set l : gset A) ∖ {[v]} = list_to_set full.*1) by (clear -Hvf; unfold l; rewrite fmap_app; set_solver).
  exists unb. eexists. split; [done|]. split.
  { unfold updated_redelegated. rewrite bool_decide_false.
    2:{ cbn. intros E. assert (v ∈ (list_to_set l : gset A)) as Hv' by (apply elem_of_list_to_set, Hl; by right). by rewrite E in Hv'. }
    rewrite modified_part_kept by (intros e n He; by apply (Hne e n)). done. }
  split.
  { rewrite Ht. unfold l. rewrite fmap_app, zsum_app. cbn [fmap list_fmap fst]. rewrite zsum_cons, decide_True by done.
    rewrite (zsum_ext _ (λ v', amounts_total (at_ rb v')) full.*1), Hft; [cbn; lia|].
    intros v' Hv'. by rewrite decide_False by (intros ->; done). }
  intros v' s. rewrite Hset. assert (Hkeep : at_ (remove_validators (list_to_set full.*1) rb) v = m).
  { rewrite at_remove, decide_False, Hv by (by rewrite elem_of_list_to_set). done. }
  rewrite Hm, at_insert, Hkeep. destruct (decide (v' = v)) as [->|Hne'].
  - rewrite decide_True, Hv by (apply Hl; by right). apply Hk.
  - rewrite at_remove. destruct (decide (v' ∈ full.*1)) as [Hi|Hi].
    + rewrite (decide_True (P := v' ∈ l)) by (apply Hl; by left). rewrite decide_True by (by apply elem_of_list_to_set). rewrite lookup_empty. cbn. lia.
    + rewrite (decide_False (P := v' ∈ l)) by (rewrite Hl; tauto). rewrite decide_False by (by rewrite elem_of_list_to_set). rewrite lookup_empty. cbn. lia.
Qed.
End some.

Lemma split_some amount : 0 < amount < tokens_total rb →
  ∃ modified unbonded kept, compute_modified_redelegation rb epoch amount = Ok modified ∧
    new_redelegated_unbonds_at rb epoch modified = Ok unbonded ∧ updated_redelegated rb modified = Ok kept ∧
    tokens_total unbonded = amount ∧ split_of unbonded kept.
Proof using Hrb Hmax.
  intros Ha. unfold compute_modified_redelegation. rewrite amounts_fold. cbn [mbind res_bind].
  destruct (Z.leb_spec (tokens_total rb) amount); [lia|].
  destruct (modify_loop_ok (Some epoch) (sources rb) amount ∅ sources_nonneg) as (full & part & rest & Hs & Hres);
    [rewrite sources_total; lia..|].
  destruct Hres as [(Hp & Hf & ->)|(v & m & r & Hp & Hf & Hr & ->)].
  - destruct (split_whole amount Ha full part rest Hs Hp Hf) as (unb & kept & H1 & H2 & H3). by eexists _, unb, kept.
  - destruct (split_partial amount Ha full part rest Hs v m r Hp Hf Hr) as (unb & kept & H1 & H2 & H3). by eexists _, unb, kept.
Qed.
End split.
End redelegated.

(** When a bond is unbonded in part, the redelegated tokens in it go first:
    the part of them that is unbonded is all of them or, when there are more, the
    amount; and for every source validator and start epoch, what is unbonded and
    what is kept make up the redelegated bond there was. *)
Theorem redelegated_split {A} `{Countable A} `{CmpOrder A} (rb : gmap A (gmap Z Z)) (epoch amount : Z) :
  tokens_nonneg rb → tokens_total rb < 2 ^ 256 → 0 < amount →
  ∃ modified unbonded kept, compute_modified_redelegation rb epoch amount = Ok modified ∧
    new_redelegated_unbonds_at rb epoch modified = Ok unbonded ∧ updated_redelegated rb modified = Ok kept ∧
    tokens_total unbonded = Z.min (tokens_total rb) amount ∧
    ∀ v s, default 0 (at_ rb v !! s) = default 0 (at_ kept v !! s) + default 0 (at_ unbonded v !! s).
Proof.
  intros Hn Hmax Ha. destruct (Z.le_gt_cases (tokens_total rb) amount) as [Hle|Hgt].
  - rewrite Z.min_l by done. by apply split_all.
  - rewrite Z.min_r by lia. by apply split_some.
Qed.

Definition example_redelegated : gmap N (gmap Z Z) := {[1%N := {[3 := 10; 4 := 20]}; 2%N := {[5 := 40]}]}.

Lemma redelegated_split_witness :
  (∃ modified unbonded kept, compute_modified_redelegation example_redelegated 9 25 = Ok modified ∧
    new_redelegated_unbonds_at example_redelegated 9 modified = Ok unbonded ∧
    updated_redelegated example_redelegated modified = Ok kept ∧ tokens_total unbonded = 25) ∧
  compute_modified_redelegation example_redelegated 9 25 =
    Ok (mk_modified (Some 9) {[1%N]} (Some 1%N) {[3; 4]} (Some 3) (Some 5)).
Proof.
  split; [|by vm_compute].
  destruct (redelegated_split example_redelegated 9 25) as (md & u & k & H1 & H2 & H3 & H4 & _); [| |done|].
  - apply (bool_decide_unpack _). by vm_compute.
  - by vm_compute.
  - exists md, u, k. repeat (split; [done|]). rewrite H4. by vm_compute.
Defined.
