(* ===== verification/PosStore.v ===== *)
(** * The storage of proof of stake

    The data that [proof_of_stake/src/storage.rs] gives handles to, grouped by
    what it is about: the validator sets, bonds and unbonds, redelegations,
    slashes, rewards, validators' own data and the token balances.  An operation
    is a [stt] over the whole store; an operation of a component runs on its part.
    Nested maps without data are no data, so a missing inner map reads as the empty
    one. *)

From S2P Require Import Prelude Words Uint Decimal I256 Dec Token StorageKey Epochs BTree TransToken PosTypes.
From S2P Require Import Epoched ValidatorSets Slashing Unbonding.

(** ** Updates of nested maps *)

Section updates.
Context {A : Type}.
Abbreviation R := (res (PosError A)).

(** [try_update] of an amount. *)
Definition bump (k : Epoch) (d : Z) (m : gmap Z Z) : R (gmap Z Z) :=
  v ← arith (ZAmount.add (default 0 (m !! k)) d); Ok (<[k := v]> m).
Definition debit (k : Epoch) (d : Z) (m : gmap Z Z) : R (gmap Z Z) :=
  v ← arith (ZAmount.sub (default 0 (m !! k)) d); Ok (<[k := v]> m).
(** The same inside a nested map. *)
Definition alter_at {K V} `{Countable K} `{Empty V} (k : K) (f : V → R V) (m : gmap K V) : R (gmap K V) :=
  v ← f (at_ m k); Ok (<[k := v]> m).
End updates.

(** [NestedMap::is_empty]. *)
Definition no_entries {K V} `{Countable K} `{Countable L} (m : gmap K (gmap L V)) : bool :=
  bool_decide (map_Forall (λ _ x, x = ∅) m).

(** What the code relies on of public keys and established addresses. *)
Class PosKeys (AA : AddressApi) : Type := {
  PublicKey : Type;
  pk_eq_dec :: EqDecision PublicKey;
  pk_countable :: Countable PublicKey;
  is_ed25519 : PublicKey → bool;
  tm_consensus_key_raw_hash : PublicKey → text;
  is_established : Address → bool;
}.

#[export] Instance keys_ref : PosKeys addr_ref := {
  PublicKey := N;
  is_ed25519 k := N.even k;
  tm_consensus_key_raw_hash k := print_dec (Z.of_N k);
  is_established a := N.ltb 10 a;
}.
#[export] Instance addr_ref_order : CmpOrder (@Address addr_ref) := N_order.

Record DelegationEpochs : Type := mk_delegation {
  prev_ranges : gmap Z Z;
  last_range : Epoch * option Epoch;
}.

Inductive MetaField : Type := Email | Description | Website | DiscordHandle | Avatar | ValidatorName.
#[export] Instance MetaField_eq_dec : EqDecision MetaField.
Proof. solve_decision. Defined.
#[export] Instance MetaField_countable : Countable MetaField.
Proof.
  refine (inj_countable'
    (λ f, match f with Email => 0 | Description => 1 | Website => 2 | DiscordHandle => 3 | Avatar => 4 | ValidatorName => 5 end)
    (λ z, if z =? 0 then Email else if z =? 1 then Description else if z =? 2 then Website
          else if z =? 3 then DiscordHandle else if z =? 4 then Avatar else ValidatorName) _).
  by intros [].
Defined.

Section store.
Context {AA : AddressApi} {I : InternalAddrs AA} {OA : CmpOrder Address} {KK : PosKeys AA}.
Abbreviation A := Address.
Abbreviation RedelegatedTokens := (gmap A (gmap Z Z)).

Record BondStore : Type := mk_bonding {
  bond_data : gmap (A * A) (EpochedSt Z);
  total_bonded : gmap A (EpochedSt Z);
  unbond_data : gmap (A * A) (gmap Z (gmap Z Z));
  total_unbonded : gmap A (gmap Z (gmap Z Z));
  delegation_targets : gmap A (gmap A DelegationEpochs);
}.
Record RedelegationStore : Type := mk_redelegation {
  incoming : gmap A (gmap A Epoch);
  outgoing : gmap A (gmap A (gmap Z (gmap Z Z)));
  total_redelegated_bonded : gmap A (gmap Z RedelegatedTokens);
  total_redelegated_unbonded : gmap A (gmap Z (gmap Z RedelegatedTokens));
  delegator_bonds : gmap A (gmap A (gmap Z RedelegatedTokens));
  delegator_unbonds : gmap A (gmap A (gmap Z (gmap Z RedelegatedTokens)));
}.
Record SlashStore : Type := mk_slashes {
  validator_slashes : gmap A (list Slash);
  enqueued_slashes : EpochedSt (gmap A (gmap Z Slash));
  last_slash_epoch : gmap A Epoch;
}.
Record RewardStore : Type := mk_rewards {
  rewards_counter : gmap (A * A) Z;
  last_claim : gmap (A * A) Epoch;
  rewards_products : gmap A (gmap Z Z);
  rewards_accumulator : gmap A Z;
  last_staked_ratio : option Z;
  last_pos_inflation_amount : option Z;
  last_block_proposer : option A;
}.
Record ValidatorStore : Type := mk_validators {
  max_commission_rate_change : gmap A Z;
  commission_rate : gmap A (EpochedSt Z);
  consensus_key : gmap A (EpochedSt PublicKey);
  protocol_key : gmap A (EpochedSt PublicKey);
  eth_hot_key : gmap A (EpochedSt PublicKey);
  eth_cold_key : gmap A (EpochedSt PublicKey);
  consensus_keys : gset PublicKey;
  address_raw_hash : gmap text A;
  metadata : gmap (A * MetaField) text;
  liveness_missed_votes : gmap A (gset Z);
  liveness_sum_missed_votes : gmap A Z;
}.
Record PosStore : Type := mk_store {
  vsets : VSets (A:=A);
  bonding : BondStore;
  redelegation : RedelegationStore;
  slashes : SlashStore;
  rewards : RewardStore;
  validators : ValidatorStore;
  tokens : gmap Key value;
}.

Abbreviation M := (stt PosStore (PosError A)).
Abbreviation R := (res (PosError A)).

(** ** Parts of the store *)

Definition put_vsets (x : VSets (A:=A)) (s : PosStore) : PosStore :=
  mk_store x (bonding s) (redelegation s) (slashes s) (rewards s) (validators s) (tokens s).
Definition put_bonding (x : BondStore) (s : PosStore) : PosStore :=
  mk_store (vsets s) x (redelegation s) (slashes s) (rewards s) (validators s) (tokens s).
Definition put_redelegation (x : RedelegationStore) (s : PosStore) : PosStore :=
  mk_store (vsets s) (bonding s) x (slashes s) (rewards s) (validators s) (tokens s).
Definition put_slashes (x : SlashStore) (s : PosStore) : PosStore :=
  mk_store (vsets s) (bonding s) (redelegation s) x (rewards s) (validators s) (tokens s).
Definition put_rewards (x : RewardStore) (s : PosStore) : PosStore :=
  mk_store (vsets s) (bonding s) (redelegation s) (slashes s) x (validators s) (tokens s).
Definition put_validators (x : ValidatorStore) (s : PosStore) : PosStore :=
  mk_store (vsets s) (bonding s) (redelegation s) (slashes s) (rewards s) x (tokens s).
Definition put_tokens (x : gmap Key value) (s : PosStore) : PosStore :=
  mk_store (vsets s) (bonding s) (redelegation s) (slashes s) (rewards s) (validators s) x.

Definition on_vsets {B} (m : stt (VSets (A:=A)) (PosError A) B) : M B := zoom vsets put_vsets m.
Definition on_bonding {B} (m : stt BondStore (PosError A) B) : M B := zoom bonding put_bonding m.
Definition on_redelegation {B} (m : stt RedelegationStore (PosError A) B) : M B := zoom redelegation put_redelegation m.
Definition on_slashes {B} (m : stt SlashStore (PosError A) B) : M B := zoom slashes put_slashes m.
Definition on_rewards {B} (m : stt RewardStore (PosError A) B) : M B := zoom rewards put_rewards m.
Definition on_validators {B} (m : stt ValidatorStore (PosError A) B) : M B := zoom validators put_validators m.
Definition on_tokens {B} (m : stt (gmap Key value) TokenError B) : M B :=
  λ s, let '(t, r) := m (tokens s) in (put_tokens t s, map_err TokenFailure r).

(** ** Fields *)

Definition upd_bond_data (f : gmap (A * A) (EpochedSt Z) → gmap (A * A) (EpochedSt Z)) (x : BondStore) : BondStore :=
  mk_bonding (f (bond_data x)) (total_bonded x) (unbond_data x) (total_unbonded x) (delegation_targets x).
Definition upd_total_bonded (f : gmap A (EpochedSt Z) → gmap A (EpochedSt Z)) (x : BondStore) : BondStore :=
  mk_bonding (bond_data x) (f (total_bonded x)) (unbond_data x) (total_unbonded x) (delegation_targets x).
Definition upd_unbond_data (f : gmap (A * A) (gmap Z (gmap Z Z)) → gmap (A * A) (gmap Z (gmap Z Z))) (x : BondStore) : BondStore :=
  mk_bonding (bond_data x) (total_bonded x) (f (unbond_data x)) (total_unbonded x) (delegation_targets x).
Definition upd_total_unbonded (f : gmap A (gmap Z (gmap Z Z)) → gmap A (gmap Z (gmap Z Z))) (x : BondStore) : BondStore :=
  mk_bonding (bond_data x) (total_bonded x) (unbond_data x) (f (total_unbonded x)) (delegation_targets x).
Definition upd_delegation_targets (f : gmap A (gmap A DelegationEpochs) → gmap A (gmap A DelegationEpochs)) (x : BondStore) : BondStore :=
  mk_bonding (bond_data x) (total_bonded x) (unbond_data x) (total_unbonded x) (f (delegation_targets x)).

Definition upd_incoming (f : gmap A (gmap A Epoch) → gmap A (gmap A Epoch)) (x : RedelegationStore) : RedelegationStore :=
  mk_redelegation (f (incoming x)) (outgoing x) (total_redelegated_bonded x) (total_redelegated_unbonded x) (delegator_bonds x) (delegator_unbonds x).
Definition upd_outgoing (f : gmap A (gmap A (gmap Z (gmap Z Z))) → gmap A (gmap A (gmap Z (gmap Z Z)))) (x : RedelegationStore) : RedelegationStore :=
  mk_redelegation (incoming x) (f (outgoing x)) (total_redelegated_bonded x) (total_redelegated_unbonded x) (delegator_bonds x) (delegator_unbonds x).
Definition upd_total_redelegated_bonded (f : gmap A (gmap Z RedelegatedTokens) → gmap A (gmap Z RedelegatedTokens)) (x : RedelegationStore) : RedelegationStore :=
  mk_redelegation (incoming x) (outgoing x) (f (total_redelegated_bonded x)) (total_redelegated_unbonded x) (delegator_bonds x) (delegator_unbonds x).
Definition upd_total_redelegated_unbonded (f : gmap A (gmap Z (gmap Z RedelegatedTokens)) → gmap A (gmap Z (gmap Z RedelegatedTokens))) (x : RedelegationStore) : RedelegationStore :=
  mk_redelegation (incoming x) (outgoing x) (total_redelegated_bonded x) (f (total_redelegated_unbonded x)) (delegator_bonds x) (delegator_unbonds x).
Definition upd_delegator_bonds (f : gmap A (gmap A (gmap Z RedelegatedTokens)) → gmap A (gmap A (gmap Z RedelegatedTokens))) (x : RedelegationStore) : RedelegationStore :=
  mk_redelegation (incoming x) (outgoing x) (total_redelegated_bonded x) (total_redelegated_unbonded x) (f (delegator_bonds x)) (delegator_unbonds x).
Definition upd_delegator_unbonds (f : gmap A (gmap A (gmap Z (gmap Z RedelegatedTokens))) → gmap A (gmap A (gmap Z (gmap Z RedelegatedTokens)))) (x : RedelegationStore) : RedelegationStore :=
  mk_redelegation (incoming x) (outgoing x) (total_redelegated_bonded x) (total_redelegated_unbonded x) (delegator_bonds x) (f (delegator_unbonds x)).

Definition upd_validator_slashes (f : gmap A (list Slash) → gmap A (list Slash)) (x : SlashStore) : SlashStore :=
  mk_slashes (f (validator_slashes x)) (enqueued_slashes x) (last_slash_epoch x).
Definition upd_enqueued_slashes (f : EpochedSt (gmap A (gmap Z Slash)) → EpochedSt (gmap A (gmap Z Slash))) (x : SlashStore) : SlashStore :=
  mk_slashes (validator_slashes x) (f (enqueued_slashes x)) (last_slash_epoch x).
Definition upd_last_slash_epoch (f : gmap A Epoch → gmap A Epoch) (x : SlashStore) : SlashStore :=
  mk_slashes (validator_slashes x) (enqueued_slashes x) (f (last_slash_epoch x)).

Definition upd_rewards_counter (f : gmap (A * A) Z → gmap (A * A) Z) (x : RewardStore) : RewardStore :=
  mk_rewards (f (rewards_counter x)) (last_claim x) (rewards_products x) (rewards_accumulator x) (last_staked_ratio x) (last_pos_inflation_amount x) (last_block_proposer x).
Definition upd_last_claim (f : gmap (A * A) Epoch → gmap (A * A) Epoch) (x : RewardStore) : RewardStore :=
  mk_rewards (rewards_counter x) (f (last_claim x)) (rewards_products x) (rewards_accumulator x) (last_staked_ratio x) (last_pos_inflation_amount x) (last_block_proposer x).
Definition upd_rewards_products (f : gmap A (gmap Z Z) → gmap A (gmap Z Z)) (x : RewardStore) : RewardStore :=
  mk_rewards (rewards_counter x) (last_claim x) (f (rewards_products x)) (rewards_accumulator x) (last_staked_ratio x) (last_pos_inflation_amount x) (last_block_proposer x).
Definition upd_rewards_accumulator (f : gmap A Z → gmap A Z) (x : RewardStore) : RewardStore :=
  mk_rewards (rewards_counter x) (last_claim x) (rewards_products x) (f (rewards_accumulator x)) (last_staked_ratio x) (last_pos_inflation_amount x) (last_block_proposer x).
Definition upd_last_staked_ratio (f : option Z → option Z) (x : RewardStore) : RewardStore :=
  mk_rewards (rewards_counter x) (last_claim x) (rewards_products x) (rewards_accumulator x) (f (last_staked_ratio x)) (last_pos_inflation_amount x) (last_block_proposer x).
Definition upd_last_pos_inflation_amount (f : option Z → option Z) (x : RewardStore) : RewardStore :=
  mk_rewards (rewards_counter x) (last_claim x) (rewards_products x) (rewards_accumulator x) (last_staked_ratio x) (f (last_pos_inflation_amount x)) (last_block_proposer x).
Definition upd_last_block_proposer (f : option A → option A) (x : RewardStore) : RewardStore :=
  mk_rewards (rewards_counter x) (last_claim x) (rewards_products x) (rewards_accumulator x) (last_staked_ratio x) (last_pos_inflation_amount x) (f (last_block_proposer x)).

Definition upd_max_commission_rate_change (f : gmap A Z → gmap A Z) (x : ValidatorStore) : ValidatorStore :=
  mk_validators (f (max_commission_rate_change x)) (commission_rate x) (consensus_key x) (protocol_key x) (eth_hot_key x) (eth_cold_key x) (consensus_keys x) (address_raw_hash x) (metadata x) (liveness_missed_votes x) (liveness_sum_missed_votes x).
Definition upd_commission_rate (f : gmap A (EpochedSt Z) → gmap A (EpochedSt Z)) (x : ValidatorStore) : ValidatorStore :=
  mk_validators (max_commission_rate_change x) (f (commission_rate x)) (consensus_key x) (protocol_key x) (eth_hot_key x) (eth_cold_key x) (consensus_keys x) (address_raw_hash x) (metadata x) (liveness_missed_votes x) (liveness_sum_missed_votes x).
Definition upd_consensus_key (f : gmap A (EpochedSt PublicKey) → gmap A (EpochedSt PublicKey)) (x : ValidatorStore) : ValidatorStore :=
  mk_validators (max_commission_rate_change x) (commission_rate x) (f (consensus_key x)) (protocol_key x) (eth_hot_key x) (eth_cold_key x) (consensus_keys x) (address_raw_hash x) (metadata x) (liveness_missed_votes x) (liveness_sum_missed_votes x).
Definition upd_protocol_key (f : gmap A (EpochedSt PublicKey) → gmap A (EpochedSt PublicKey)) (x : ValidatorStore) : ValidatorStore :=
  mk_validators (max_commission_rate_change x) (commission_rate x) (consensus_key x) (f (protocol_key x)) (eth_hot_key x) (eth_cold_key x) (consensus_keys x) (address_raw_hash x) (metadata x) (liveness_missed_votes x) (liveness_sum_missed_votes x).
Definition upd_eth_hot_key (f : gmap A (EpochedSt PublicKey) → gmap A (EpochedSt PublicKey)) (x : ValidatorStore) : ValidatorStore :=
  mk_validators (max_commission_rate_change x) (commission_rate x) (consensus_key x) (protocol_key x) (f (eth_hot_key x)) (eth_cold_key x) (consensus_keys x) (address_raw_hash x) (metadata x) (liveness_missed_votes x) (liveness_sum_missed_votes x).
Definition upd_eth_cold_key (f : gmap A (EpochedSt PublicKey) → gmap A (EpochedSt PublicKey)) (x : ValidatorStore) : ValidatorStore :=
  mk_validators (max_commission_rate_change x) (commission_rate x) (consensus_key x) (protocol_key x) (eth_hot_key x) (f (eth_cold_key x)) (consensus_keys x) (address_raw_hash x) (metadata x) (liveness_missed_votes x) (liveness_sum_missed_votes x).
Definition upd_consensus_keys (f : gset PublicKey → gset PublicKey) (x : ValidatorStore) : ValidatorStore :=
  mk_validators (max_commission_rate_change x) (commission_rate x) (consensus_key x) (protocol_key x) (eth_hot_key x) (eth_cold_key x) (f (consensus_keys x)) (address_raw_hash x) (metadata x) (liveness_missed_votes x) (liveness_sum_missed_votes x).
Definition upd_address_raw_hash (f : gmap text A → gmap text A) (x : ValidatorStore) : ValidatorStore :=
  mk_validators (max_commission_rate_change x) (commission_rate x) (consensus_key x) (protocol_key x) (eth_hot_key x) (eth_cold_key x) (consensus_keys x) (f (address_raw_hash x)) (metadata x) (liveness_missed_votes x) (liveness_sum_missed_votes x).
Definition upd_metadata (f : gmap (A * MetaField) text → gmap (A * MetaField) text) (x : ValidatorStore) : ValidatorStore :=
  mk_validators (max_commission_rate_change x) (commission_rate x) (consensus_key x) (protocol_key x) (eth_hot_key x) (eth_cold_key x) (consensus_keys x) (address_raw_hash x) (f (metadata x)) (liveness_missed_votes x) (liveness_sum_missed_votes x).
Definition upd_liveness_missed_votes (f : gmap A (gset Z) → gmap A (gset Z)) (x : ValidatorStore) : ValidatorStore :=
  mk_validators (max_commission_rate_change x) (commission_rate x) (consensus_key x) (protocol_key x) (eth_hot_key x) (eth_cold_key x) (consensus_keys x) (address_raw_hash x) (metadata x) (f (liveness_missed_votes x)) (liveness_sum_missed_votes x).
Definition upd_liveness_sum_missed_votes (f : gmap A Z → gmap A Z) (x : ValidatorStore) : ValidatorStore :=
  mk_validators (max_commission_rate_change x) (commission_rate x) (consensus_key x) (protocol_key x) (eth_hot_key x) (eth_cold_key x) (consensus_keys x) (address_raw_hash x) (metadata x) (liveness_missed_votes x) (f (liveness_sum_missed_votes x)).

(** ** Reads *)

Definition bond_handle (source validator : A) (s : PosStore) : EpochedSt Z :=
  default epoched_open (bond_data (bonding s) !! (source, validator)).
Definition total_bonded_handle (validator : A) (s : PosStore) : EpochedSt Z :=
  default epoched_open (total_bonded (bonding s) !! validator).
Definition unbond_handle (source validator : A) (s : PosStore) : gmap Z (gmap Z Z) :=
  at_ (unbond_data (bonding s)) (source, validator).
Definition total_unbonded_handle (validator : A) (s : PosStore) : gmap Z (gmap Z Z) :=
  at_ (total_unbonded (bonding s)) validator.
Definition delegator_redelegated_bonds_handle (delegator validator : A) (s : PosStore) : gmap Z RedelegatedTokens :=
  at_ (at_ (delegator_bonds (redelegation s)) delegator) validator.
Definition delegator_redelegated_unbonds_handle (delegator validator : A) (s : PosStore) :
    gmap Z (gmap Z RedelegatedTokens) :=
  at_ (at_ (delegator_unbonds (redelegation s)) delegator) validator.
Definition validator_total_redelegated_bonded_handle (validator : A) (s : PosStore) : gmap Z RedelegatedTokens :=
  at_ (total_redelegated_bonded (redelegation s)) validator.
Definition validator_total_redelegated_unbonded_handle (validator : A) (s : PosStore) :
    gmap Z (gmap Z RedelegatedTokens) :=
  at_ (total_redelegated_unbonded (redelegation s)) validator.
Definition validator_outgoing_redelegations_handle (validator : A) (s : PosStore) : gmap A (gmap Z (gmap Z Z)) :=
  at_ (outgoing (redelegation s)) validator.
Definition find_validator_slashes (validator : A) (s : PosStore) : list Slash :=
  default [] (validator_slashes (slashes s) !! validator).
Definition read_validator_last_slash_epoch (validator : A) (s : PosStore) : option Epoch :=
  last_slash_epoch (slashes s) !! validator.
Definition is_validator (address : A) (s : PosStore) : bool :=
  bool_decide (is_Some (max_commission_rate_change (validators s) !! address)).
Definition get_last_reward_claim_epoch (delegator validator : A) (s : PosStore) : option Epoch :=
  last_claim (rewards s) !! (delegator, validator).

Section operations.
Context (params : PosParams).
Let p : OwnedPosParams := owned params.

(** [params.slash_processing_epoch_offset()], with the addition in [u64]. *)
Definition slash_offset : R Z := expect (slash_processing_epoch_offset p).

Definition is_validator_frozen (validator : A) (current_epoch : Epoch) : M bool :=
  s ← get;
  match read_validator_last_slash_epoch validator s with
  | Some last_epoch =>
      offset ← lift slash_offset;
      end_ ← lift (epoch_add last_epoch offset);
      mret (current_epoch <? end_)
  | None => mret false
  end.

(** ** Bonds at an offset *)

Definition bond_add (source validator : A) (amount : Z) (current_epoch : Epoch) (offset : Z) : M unit :=
  h ← gets (bond_handle source validator);
  h ← lift (d_add params fits_amount OffsetMaxU64 amount current_epoch offset h);
  on_bonding (modify (upd_bond_data (<[(source, validator) := h]>))).
Definition bond_set (source validator : A) (amount : Z) (current_epoch : Epoch) (offset : Z) : M unit :=
  h ← gets (bond_handle source validator);
  h ← lift (d_set params fits_amount OffsetMaxU64 amount current_epoch offset h);
  on_bonding (modify (upd_bond_data (<[(source, validator) := h]>))).
Definition bond_sum (source validator : A) (epoch : Epoch) : M Z :=
  h ← gets (bond_handle source validator);
  sum ← lift (d_sum params fits_amount OffsetPipelineLen OffsetMaxU64 epoch h);
  mret (default 0 sum).
Definition total_bonded_add (validator : A) (amount : Z) (current_epoch : Epoch) (offset : Z) : M unit :=
  h ← gets (total_bonded_handle validator);
  h ← lift (d_add params fits_amount OffsetMaxU64 amount current_epoch offset h);
  on_bonding (modify (upd_total_bonded (<[validator := h]>))).

(** ** Delegation targets *)

Definition add_delegation_target (delegator validator : A) (epoch current_epoch : Epoch) : M unit :=
  targets ← gets (λ s, at_ (delegation_targets (bonding s)) delegator);
  match targets !! validator with
  | Some delegations =>
      let '(start, end_) := last_range delegations in
      match end_ with
      | Some end_ =>
          let new :=
            if epoch =? end_ then mk_delegation (prev_ranges delegations) (start, None)
            else mk_delegation (<[start := end_]> (prev_ranges delegations)) (epoch, None) in
          on_bonding (modify (upd_delegation_targets (λ m, <[delegator := <[validator := new]> targets]> m)))
      | None => mret ()
      end
  | None =>
      on_bonding (modify (upd_delegation_targets (λ m, <[delegator := <[validator := mk_delegation ∅ (epoch, None)]> targets]> m)))
  end.

Definition prune_old_delegations (delegations : DelegationEpochs) (current_epoch : Epoch) : R DelegationEpochs :=
  delta ← expect (offset_value OffsetMaxProposalPeriodOrSlashProcessingLenPlus params);
  let oldest_to_keep := default 0 (EpochM.checked_sub current_epoch delta) in
  Ok (mk_delegation (filter (λ x, oldest_to_keep ≤ x.2) (prev_ranges delegations)) (last_range delegations)).
Definition remove_delegation_target (delegator validator : A) (epoch current_epoch : Epoch) : M unit :=
  targets ← gets (λ s, at_ (delegation_targets (bonding s)) delegator);
  match targets !! validator with
  | Some delegation =>
      let delegation := mk_delegation (prev_ranges delegation) ((last_range delegation).1, Some epoch) in
      delegation ← lift (prune_old_delegations delegation current_epoch);
      on_bonding (modify (upd_delegation_targets (λ m, <[delegator := <[validator := delegation]> targets]> m)))
  | None => panic
  end.

(** ** Rewards counters *)

Definition add_rewards_to_counter (source validator : A) (new_rewards : Z) : M unit :=
  current ← gets (λ s, default 0 (rewards_counter (rewards s) !! (source, validator)));
  new ← lift (arith (ZAmount.add current new_rewards));
  on_rewards (modify (upd_rewards_counter (<[(source, validator) := new]>))).
Definition take_rewards_from_counter (source validator : A) : M Z :=
  current ← gets (λ s, default 0 (rewards_counter (rewards s) !! (source, validator)));
  _ ← on_rewards (modify (upd_rewards_counter (delete (source, validator))));
  mret current.
Definition read_rewards_counter (source validator : A) (s : PosStore) : Z :=
  default 0 (rewards_counter (rewards s) !! (source, validator)).
End operations.
End store.
