(* ===== verification/Bonding.v ===== *)
(** * Bonding, unbonding, withdrawal and redelegation

    Models [bond_tokens], [unbond_tokens], [withdraw_tokens], [redelegate_tokens],
    the operations on a validator's activity and its commission rate of
    [proof_of_stake/src/lib.rs], on the store of [PosStore].  The properties are
    about the bonds: what an operation does to the bonds of a pair of addresses,
    and that the bonds of a validator keep adding up to its total. *)

From S2P Require Import Prelude Words Uint Decimal I256 Dec Token StorageKey Epochs BTree TransToken PosTypes.
From S2P Require Import Epoched ValidatorSets Slashing Unbonding PosStore.

Section bonding.
Context {AA : AddressApi} {I : InternalAddrs AA} {OA : CmpOrder Address} {KK : PosKeys AA}.
Abbreviation A := Address.
Abbreviation RedelegatedTokens := (gmap A (gmap Z Z)).
Abbreviation M := (stt PosStore (PosError A)).
Abbreviation R := (res (PosError A)).
Context (native_token : A) (params : PosParams).
Let p : OwnedPosParams := owned params.

(** ** Common steps *)

(** A source other than the validator is not a validator. *)
Definition check_source (source : option A) (validator : A) : M unit :=
  s ← get;
  match source with
  | Some source =>
      if bool_decide (source ≠ validator) && is_validator source s then throw (SourceMustNotBeAValidator source) else mret ()
  | None => mret ()
  end.

Definition jailed_or_inactive (st : option ValidatorState) : bool :=
  match st with Some Jailed | Some Inactive => true | _ => false end.

(** The stake of a validator changes: its sets, unless it is jailed or inactive
    at the epoch, and the deltas. *)
Definition change_stake (validator : A) (epoch : Epoch) (c : Z) (current_epoch : Epoch) (offset_opt : option Z) : M unit :=
  on_vsets (
    st ← state_get params validator epoch;
    let is_jailed_or_inactive := jailed_or_inactive st in
    _ ← (if is_jailed_or_inactive then mret () else update_validator_set params validator c current_epoch offset_opt);
    _ ← update_validator_deltas params validator c current_epoch offset_opt;
    update_total_deltas params c current_epoch offset_opt (negb is_jailed_or_inactive)).

(** ** Bonding *)

Definition bond_tokens (source : option A) (validator : A) (amount : Z) (current_epoch : Epoch) (offset_opt : option Z) : M unit :=
  if amount =? 0 then mret ()
  else
    _ ← check_source source validator;
    let source := default validator source in
    _ ← on_tokens (transfer native_token source pos amount);
    let offset := default (pipeline_len p) offset_opt in
    offset_epoch ← lift (epoch_add current_epoch offset);
    state ← on_vsets (state_get params validator offset_epoch);
    match state with
    | None => throw (BondNotAValidator validator)
    | Some _ =>
        _ ← bond_add params source validator amount current_epoch offset;
        _ ← total_bonded_add params validator amount current_epoch offset;
        _ ← add_delegation_target source validator offset_epoch current_epoch;
        c ← lift (expect (change amount));
        change_stake validator offset_epoch c current_epoch offset_opt
    end.

(** ** Unbonding *)

(** [updatedBonded]: the bonds that are left, and the delegation target removed
    when nothing is left. *)
Definition remove_bond (source validator : A) (epoch : Epoch) : M unit :=
  on_bonding (modify (upd_bond_data (λ m,
    <[(source, validator) := with_data (delete epoch) (default epoched_open (m !! (source, validator)))]> m))).
Definition update_bonds (source validator : A) (bonds_to_unbond : BondsForRemovalRes) (pipeline_epoch current_epoch : Epoch) : M unit :=
  _ ← for_each (remove_bond source validator) (elements (br_epochs bonds_to_unbond));
  _ ← match br_new_entry bonds_to_unbond with
      | Some (bond_epoch, new_bond_amount) => bond_set params source validator new_bond_amount bond_epoch 0
      | None => mret ()
      end;
  bonds_total ← bond_sum params source validator pipeline_epoch;
  if bonds_total =? 0 then remove_delegation_target params source validator pipeline_epoch current_epoch else mret ().

(** [updatedUnbonded]. *)
Definition record_unbond (source validator : A) (withdrawable_epoch : Epoch) (unbond : Epoch * Z) : M unit :=
  b ← gets bonding;
  m ← lift (alter_at (source, validator) (alter_at unbond.1 (bump withdrawable_epoch unbond.2)) (unbond_data b));
  on_bonding (modify (upd_unbond_data (λ _, m))).

(** [updatedRedelegatedBonded]. *)
Definition update_redelegations (source validator : A) (bonds_to_unbond : BondsForRemovalRes)
    (modified : ModifiedRedelegation) : M unit :=
  rs ← gets redelegation;
  m ← lift (alter_at source (alter_at validator (λ m,
        let m := filter (λ x, x.1 ∉ br_epochs bonds_to_unbond) m in
        match mr_epoch modified with
        | Some epoch => x ← updated_redelegated (at_ m epoch) modified; Ok (<[epoch := x]> m)
        | None => Ok m
        end)) (delegator_bonds rs));
  on_redelegation (modify (upd_delegator_bonds (λ _, m))).

(** The bindings of redelegated unbonds: start, source validator, bond start and
    amount. *)
Definition redelegated_entries (m : gmap Z RedelegatedTokens) : list (Epoch * (A * (Epoch * Z))) :=
  kvs m ≫= λ x, kvs x.2 ≫= λ y, (λ z, (x.1, (y.1, z))) <$> kvs y.2.

Definition record_redelegated_unbond (source validator : A) (withdrawable_epoch : Epoch) (x : Epoch * (A * (Epoch * Z))) : M unit :=
  let '(start, (src_validator, (redelegation_epoch, amount))) := x in
  rs ← gets redelegation;
  m ← lift (alter_at source (alter_at validator (alter_at start (alter_at withdrawable_epoch
        (alter_at src_validator (bump redelegation_epoch amount))))) (delegator_unbonds rs));
  on_redelegation (modify (upd_delegator_unbonds (λ _, m))).

(** [updatedTotalBonded] and [updatedTotalUnbonded]. *)
Definition update_total (validator : A) (pipeline_epoch : Epoch) (unbond : Epoch * Z) : M unit :=
  h ← gets (total_bonded_handle validator);
  d ← lift (debit unbond.1 unbond.2 (data h));
  _ ← on_bonding (modify (upd_total_bonded (<[validator := with_data (λ _, d) h]>)));
  b ← gets bonding;
  m ← lift (alter_at validator (alter_at pipeline_epoch (bump unbond.1 unbond.2)) (total_unbonded b));
  on_bonding (modify (upd_total_unbonded (λ _, m))).
Definition update_total_redelegated (validator : A) (pipeline_epoch : Epoch) (x : Epoch * (A * (Epoch * Z))) : M unit :=
  let '(redelegation_start_epoch, (src_validator, (bond_start_epoch, amount))) := x in
  rs ← gets redelegation;
  m ← lift (alter_at validator (alter_at redelegation_start_epoch
        (alter_at src_validator (debit bond_start_epoch amount))) (total_redelegated_bonded rs));
  _ ← on_redelegation (modify (upd_total_redelegated_bonded (λ _, m)));
  rs ← gets redelegation;
  m ← lift (alter_at validator (alter_at pipeline_epoch (alter_at redelegation_start_epoch
        (alter_at src_validator (bump bond_start_epoch amount)))) (total_redelegated_unbonded rs));
  on_redelegation (modify (upd_total_redelegated_unbonded (λ _, m))).

(** Rewards of what is unbonded, up to the previous epoch. *)
Definition unbond_rewards (products : gmap Z Z) (last_claim_epoch prev_epoch : Epoch) (epoch_map : gmap Z Z) : R Z :=
  try_fold (λ rewards x,
      try_fold (λ rewards ep,
          if ep <? last_claim_epoch then Ok rewards
          else
            slashed_rewards ← arith (ZAmount.mul_floor x.2 (default 0 (products !! ep)));
            arith (ZAmount.add rewards slashed_rewards))
        rewards (EpochM.iter_bounds_inclusive x.1 prev_epoch))
    0 (kvs epoch_map).
Definition tally_unbond_rewards (source validator : A) (current_epoch : Epoch) (result : ResultSlashing) : M unit :=
  match EpochM.prev current_epoch with
  | Some prev_epoch =>
      s ← get;
      let last_claim_epoch := default 0 (get_last_reward_claim_epoch source validator s) in
      rewards ← lift (unbond_rewards (at_ (rewards_products (rewards s)) validator) last_claim_epoch prev_epoch
                        (rs_epoch_map result));
      add_rewards_to_counter source validator rewards
  | None => mret ()
  end.

(** [modifiedRedelegation]. *)
Definition modified_redelegation (bonds : gmap Z Z) (redelegated_bonds : gmap Z RedelegatedTokens)
    (bonds_to_unbond : BondsForRemovalRes) : R ModifiedRedelegation :=
  match br_new_entry bonds_to_unbond with
  | Some (bond_epoch, new_bond_amount) =>
      if has_entries redelegated_bonds bond_epoch then
        amount_to_unbond ← arith (ZAmount.sub (default 0 (bonds !! bond_epoch)) new_bond_amount);
        compute_modified_redelegation (at_ redelegated_bonds bond_epoch) bond_epoch amount_to_unbond
      else Ok modified_default
  | None => Ok modified_default
  end.

Definition unbond_tokens (source : option A) (validator : A) (amount : Z) (current_epoch : Epoch) (is_redelegation : bool) :
    M ResultSlashing :=
  if amount =? 0 then mret (mk_result 0 ∅)
  else
    pipeline_epoch ← lift (epoch_add current_epoch (pipeline_len p));
    offset ← lift (expect (withdrawable_epoch_offset p));
    withdrawable_epoch ← lift (epoch_add current_epoch offset);
    _ ← check_source source validator;
    s ← get;
    if negb (is_validator validator s) then throw (BondNotAValidator validator)
    else
      frozen ← is_validator_frozen params validator current_epoch;
      if frozen : bool then throw (ValidatorIsFrozen validator)
      else
        let source := default validator source in
        remaining_at_pipeline ← bond_sum params source validator pipeline_epoch;
        if remaining_at_pipeline <? amount then throw (UnbondAmountGreaterThanBond amount remaining_at_pipeline)
        else
          bonds ← gets (λ s, data (bond_handle source validator s));
          redelegated_bonds ← gets (delegator_redelegated_bonds_handle source validator);
          bonds_to_unbond ← lift (find_bonds_to_remove bonds amount);
          modified ← lift (modified_redelegation bonds redelegated_bonds bonds_to_unbond);
          new_unbonds_map ← lift (new_unbonds bonds bonds_to_unbond);
          _ ← update_bonds source validator bonds_to_unbond pipeline_epoch current_epoch;
          _ ← (if is_redelegation then mret ()
               else for_each (record_unbond source validator withdrawable_epoch) (kvs new_unbonds_map));
          new_redelegated_unbonds ←
            lift (compute_new_redelegated_unbonds redelegated_bonds (br_epochs bonds_to_unbond) modified);
          _ ← update_redelegations source validator bonds_to_unbond modified;
          _ ← (if is_redelegation then mret ()
               else for_each (record_redelegated_unbond source validator withdrawable_epoch)
                      (redelegated_entries new_redelegated_unbonds));
          _ ← for_each (update_total validator pipeline_epoch) (kvs new_unbonds_map);
          _ ← for_each (update_total_redelegated validator pipeline_epoch) (redelegated_entries new_redelegated_unbonds);
          s ← get;
          result_slashing ← lift (compute_amount_after_slashing_unbond p (λ v, find_validator_slashes v s) new_unbonds_map
                                    new_redelegated_unbonds (find_validator_slashes validator s));
          c ← lift (expect (change (rs_sum result_slashing)));
          _ ← change_stake validator pipeline_epoch (- c) current_epoch None;
          _ ← tally_unbond_rewards source validator current_epoch result_slashing;
          mret result_slashing.

(** ** Withdrawal *)

(** The unbonds that can be withdrawn with their redelegated parts, by start and
    withdrawable epoch. *)
Definition withdrawable_unbonds (unbonds : gmap Z (gmap Z Z)) (redelegated_unbonds : gmap Z (gmap Z RedelegatedTokens))
    (current_epoch : Epoch) : list ((Epoch * Epoch) * (Z * RedelegatedTokens)) :=
  kvs unbonds ≫= λ x,
    (λ y, ((x.1, y.1), (y.2, with_entries (at_ (at_ redelegated_unbonds x.1) y.1)))) <$>
      filter (λ y, y.1 ≤ current_epoch) (kvs x.2).

Definition remove_unbond (source validator : A) (x : (Epoch * Epoch) * (Z * RedelegatedTokens)) : M unit :=
  let '((start_epoch, withdraw_epoch), _) := x in
  _ ← on_bonding (modify (upd_unbond_data (λ m,
        let unbonds := at_ m (source, validator) in
        let inner := delete withdraw_epoch (at_ unbonds start_epoch) in
        <[(source, validator) := if bool_decide (inner = ∅) then delete start_epoch unbonds
                                 else <[start_epoch := inner]> unbonds]> m)));
  on_redelegation (modify (upd_delegator_unbonds (λ m,
    let redelegated := at_ (at_ m source) validator in
    let inner := delete withdraw_epoch (at_ redelegated start_epoch) in
    <[source := <[validator := if no_entries inner then delete start_epoch redelegated
                               else <[start_epoch := inner]> redelegated]> (at_ m source)]> m))).

Definition withdraw_tokens (source : option A) (validator : A) (current_epoch : Epoch) : M Z :=
  let source := default validator source in
  s ← get;
  let unbonds := unbond_handle source validator s in
  if no_entries unbonds then throw (NoUnbondFound source validator)
  else
    let to_withdraw :=
      withdrawable_unbonds unbonds (delegator_redelegated_unbonds_handle source validator s) current_epoch in
    result_slashing ← lift (compute_amount_after_slashing_withdraw p (λ v, find_validator_slashes v s) to_withdraw
                              (find_validator_slashes validator s));
    let withdrawable_amount := rs_sum result_slashing in
    _ ← for_each (remove_unbond source validator) to_withdraw;
    _ ← on_tokens (transfer native_token pos source withdrawable_amount);
    mret withdrawable_amount.

(** ** Redelegation *)

Definition not_chained (delegator src_validator : A) (current_epoch : Epoch) : M bool :=
  s ← get;
  match at_ (incoming (redelegation s)) src_validator !! delegator with
  | Some end_epoch =>
      last_contrib_epoch ← lift (expect (EpochM.prev end_epoch));
      offset ← lift (slash_offset params);
      e ← lift (epoch_add last_contrib_epoch offset);
      mret (e <=? current_epoch)
  | None => mret true
  end.

(** One start epoch of what was unbonded: the delegator's redelegated bonds at the
    destination, the source's outgoing redelegations and the destination's
    totals. *)
Definition add_redelegated_bond (delegator src_validator dest_validator : A) (pipeline_epoch : Epoch) (x : Epoch * Z) : M unit :=
  rs ← gets redelegation;
  m ← lift (alter_at delegator (alter_at dest_validator (alter_at pipeline_epoch (alter_at src_validator
        (bump x.1 x.2)))) (delegator_bonds rs));
  on_redelegation (modify (upd_delegator_bonds (λ _, m))).
Definition add_outgoing_redelegation (src_validator dest_validator : A) (current_epoch : Epoch) (x : Epoch * Z) : M unit :=
  rs ← gets redelegation;
  m ← lift (alter_at src_validator (alter_at dest_validator (alter_at x.1 (bump current_epoch x.2))) (outgoing rs));
  on_redelegation (modify (upd_outgoing (λ _, m))).
Definition add_total_redelegated (src_validator dest_validator : A) (pipeline_epoch : Epoch) (x : Epoch * Z) : M unit :=
  rs ← gets redelegation;
  m ← lift (alter_at dest_validator (alter_at pipeline_epoch (alter_at src_validator (bump x.1 x.2)))
              (total_redelegated_bonded rs));
  on_redelegation (modify (upd_total_redelegated_bonded (λ _, m))).

Definition redelegate_tokens (delegator src_validator dest_validator : A) (current_epoch : Epoch) (amount : Z) : M unit :=
  if amount =? 0 then mret ()
  else if bool_decide (src_validator = dest_validator) then throw RedelegationSrcEqDest
  else
    s ← get;
    if is_validator delegator s then throw DelegatorIsValidator
    else if negb (is_validator src_validator s) then throw (RedelegationNotAValidator src_validator)
    else if negb (is_validator dest_validator s) then throw (RedelegationNotAValidator dest_validator)
    else
      pipeline_epoch ← lift (epoch_add current_epoch (pipeline_len p));
      is_not_chained ← not_chained delegator src_validator current_epoch;
      if negb is_not_chained then throw IsChainedRedelegation
      else
        result_unbond ← unbond_tokens (Some delegator) src_validator amount current_epoch true;
        let amount_after_slashing := rs_sum result_unbond in
        let unbonded := kvs (rs_epoch_map result_unbond) in
        _ ← for_each (add_redelegated_bond delegator src_validator dest_validator pipeline_epoch) unbonded;
        _ ← (if amount_after_slashing =? 0 then mret ()
             else
               _ ← bond_add params delegator dest_validator amount_after_slashing current_epoch (pipeline_len p);
               total_bonded_add params dest_validator amount_after_slashing current_epoch (pipeline_len p));
        _ ← for_each (add_outgoing_redelegation src_validator dest_validator current_epoch) unbonded;
        _ ← for_each (add_total_redelegated src_validator dest_validator pipeline_epoch) unbonded;
        _ ← on_redelegation (modify (upd_incoming (λ m,
              <[dest_validator := <[delegator := pipeline_epoch]> (at_ m dest_validator)]> m)));
        _ ← add_delegation_target delegator dest_validator pipeline_epoch current_epoch;
        c ← lift (expect (change amount_after_slashing));
        change_stake dest_validator pipeline_epoch c current_epoch None.

(** ** Activity of validators *)

Definition deactivate_validator (validator : A) (current_epoch : Epoch) : M unit :=
  pipeline_epoch ← lift (epoch_add current_epoch (pipeline_len p));
  pipeline_state ← on_vsets (state_get params validator pipeline_epoch);
  _ ← match pipeline_state with
      | None => throw (DeactivationNotAValidator validator)
      | Some Consensus =>
          on_vsets (_ ← remove_validator params CSet pipeline_epoch validator;
                    promote_next_below_capacity_validator_to_consensus params current_epoch (pipeline_len p))
      | Some BelowCapacity => on_vsets (remove_validator params BSet pipeline_epoch validator)
      | Some BelowThreshold => mret ()
      | Some Inactive => throw (AlreadyInactive validator pipeline_epoch)
      | Some Jailed => throw (ValidatorIsJailed validator pipeline_epoch)
      end;
  on_vsets (state_set params validator Inactive current_epoch (pipeline_len p)).

(** The validator has a state at every epoch up to the pipeline. *)
Definition check_states (validator : A) (st : ValidatorState) (other : Epoch → PosError A) (none : Epoch → PosError A)
    (epochs : list Epoch) : M unit :=
  for_each (λ epoch,
      state ← on_vsets (state_get params validator epoch);
      match state with
      | Some state => if bool_decide (state ≠ st) then throw (other epoch) else mret ()
      | None => throw (none epoch)
      end) epochs.

Definition reinsert_validator (validator : A) (current_epoch pipeline_epoch : Epoch) : M unit :=
  on_vsets (stake ← read_validator_stake params validator pipeline_epoch;
            insert_validator_into_validator_set params validator stake current_epoch (pipeline_len p)).

Definition reactivate_validator (validator : A) (current_epoch : Epoch) : M unit :=
  pipeline_epoch ← lift (epoch_add current_epoch (pipeline_len p));
  _ ← check_states validator Inactive (NotInactive validator) (NoStateFound validator)
        (EpochM.iter_bounds_inclusive current_epoch pipeline_epoch);
  frozen ← is_validator_frozen params validator current_epoch;
  if frozen : bool then on_vsets (state_set params validator Jailed current_epoch (pipeline_len p))
  else reinsert_validator validator current_epoch pipeline_epoch.

Definition unjail_validator (validator : A) (current_epoch : Epoch) : M unit :=
  len ← lift (expect (chk 64 (pipeline_len p + 1)));
  _ ← check_states validator Jailed (NotJailed validator) (λ _, UnjailNotAValidator validator)
        (EpochM.iter_range current_epoch len);
  s ← get;
  _ ← match read_validator_last_slash_epoch validator s with
      | Some last_slash_epoch =>
          offset ← lift (slash_offset params);
          eligible_epoch ← lift (epoch_add last_slash_epoch offset);
          if current_epoch <? eligible_epoch then throw (NotEligible validator eligible_epoch current_epoch) else mret ()
      | None => mret ()
      end;
  pipeline_epoch ← lift (epoch_add current_epoch (pipeline_len p));
  reinsert_validator validator current_epoch pipeline_epoch.

(** ** Commission *)

Definition commission_get (validator : A) (epoch : Epoch) : M (option Z) :=
  h ← gets (λ s, default epoched_open (commission_rate (validators s) !! validator));
  lift (h_get params OffsetPipelineLen OffsetDefaultNumPastEpochs epoch h).
Definition commission_set (validator : A) (rate : Z) (current_epoch : Epoch) (offset : Z) : M unit :=
  h ← gets (λ s, default epoched_open (commission_rate (validators s) !! validator));
  h ← lift (h_set params OffsetDefaultNumPastEpochs rate current_epoch offset h);
  on_validators (modify (upd_commission_rate (<[validator := h]>))).

Definition change_validator_commission_rate (validator : A) (new_rate : Z) (current_epoch : Epoch) : M unit :=
  if new_rate <? 0 then throw (NegativeRate new_rate validator)
  else if E12 <? new_rate then throw (LargerThanOne new_rate validator)
  else
    s ← get;
    match max_commission_rate_change (validators s) !! validator with
    | None => throw (NoMaxSetInStorage validator)
    | Some max_change =>
        pipeline_epoch ← lift (epoch_add current_epoch (pipeline_len p));
        rate_at_pipeline ← commission_get validator pipeline_epoch;
        rate_at_pipeline ← lift (expect rate_at_pipeline);
        if new_rate =? rate_at_pipeline then mret ()
        else
          prev ← lift (expect (EpochM.prev pipeline_epoch));
          rate_before_pipeline ← commission_get validator prev;
          rate_before_pipeline ← lift (expect rate_before_pipeline);
          change_from_prev ← lift (arith (if rate_before_pipeline <? new_rate then ZDec.sub new_rate rate_before_pipeline
                                          else ZDec.sub rate_before_pipeline new_rate));
          if max_change <? change_from_prev then throw (RateChangeTooLarge change_from_prev validator)
          else commission_set validator new_rate current_epoch (pipeline_len p)
    end.
End bonding.

(** ** Bonds keep all their epochs *)

(** Amounts and epochs in the range of their types. *)
Definition wf_handle (h : EpochedSt Z) : Prop :=
  map_Forall (λ e b, 0 ≤ e < 2 ^ 64 ∧ 0 ≤ b < 2 ^ 256) (data h) ∧
  match oldest_epoch h with Some o => 0 ≤ o | None => True end.

Lemma wf_in_range h : wf_handle h → in_range (data h).
Proof. intros [Hd _] e b Hb. by apply (Hd e b). Qed.

Lemma wf_open : wf_handle epoched_open.
Proof. split; [apply map_Forall_empty|done]. Qed.

Section handles.
Context {A : Type} (params : PosParams).

Lemma update_untrimmed past cur h :
  past_of (A:=A) params OffsetMaxU64 h = Ok past → wf_handle h → 0 ≤ cur < 2 ^ 64 →
  EpochedDeltaM.update_data fits_amount past cur h = Some (set_last_update cur h).
Proof.
  unfold past_of, EpochedDeltaM.update_data. destruct (last_update h) as [lu|]; [|done]. intros Hp [_ Ho] Hc.
  apply expect_ok in Hp. injection Hp as <-. destruct (oldest_epoch h) as [o|]; [|done].
  destruct (Z.ltb_spec o (EpochM.sub_or_default cur u64_max)) as [H|]; [|done].
  unfold EpochM.sub_or_default, EpochM.checked_sub, chk in H. destruct (in_u 64 (cur - u64_max)) eqn:E; cbn in H; [|lia].
  apply in_u_spec in E. lia.
Qed.

Lemma set_last_update_wf cur h : wf_handle h → 0 ≤ cur → wf_handle (set_last_update cur h).
Proof. intros [Hd Ho] Hc. split; [done|]. cbn. by destruct (oldest_epoch h). Qed.

Lemma set_data_wf h e v : wf_handle h → 0 ≤ e < 2 ^ 64 → 0 ≤ v < 2 ^ 256 →
  wf_handle (mk_epoched (last_update h) (oldest_epoch h) (<[e := v]> (data h))).
Proof. intros [Hd Ho] He Hv. split; [|done]. cbn. by apply map_Forall_insert_2. Qed.

(** Adding to a bond, and setting it, change one start epoch. *)
Lemma d_add_ok v cur off h h' : wf_handle h → 0 ≤ cur < 2 ^ 64 →
  d_add (A:=A) params fits_amount OffsetMaxU64 v cur off h = Ok h' →
  data h' = <[cur + off := default 0 (data h !! (cur + off)) + v]> (data h) ∧ wf_handle h' ∧ last_update h' = Some cur.
Proof.
  intros Hwf Hc Hr. unfold d_add in Hr. res_inv Hr. rewrite (update_untrimmed _ _ _ Hres Hwf Hc) in Hres0. injection Hres0 as <-.
  unfold EpochedDeltaM.add in Hr. rewrite (update_untrimmed _ _ _ Hres Hwf Hc) in Hr. cbn [mbind option_bind] in Hr.
  rewrite Hres1 in Hr. cbn [mbind option_bind] in Hr. unfold EpochM.unchecked_add, EpochM.checked_add in Hres1.
  apply chk_Some in Hres1 as [-> He]. unfold EpochedDeltaM.add_data, EpochedDeltaM.get_delta_val in Hr. cbn [set_last_update data] in Hr.
  destruct (fits_amount _) eqn:Ef; [|done]. cbn [mbind option_bind] in Hr. unfold set_at_epoch, EpochM.unchecked_add, EpochM.checked_add in Hr.
  rewrite chk_in in Hr by done. cbn [mbind option_bind] in Hr. injection Hr as <-. split; [done|]. split; [|done].
  apply (set_data_wf (set_last_update cur h)); [by apply set_last_update_wf; [|lia]|done|]. by apply in_u_spec in Ef.
Qed.

Lemma d_set_ok v cur off h h' : wf_handle h → 0 ≤ cur < 2 ^ 64 → 0 ≤ v < 2 ^ 256 →
  d_set (A:=A) params fits_amount OffsetMaxU64 v cur off h = Ok h' →
  data h' = <[cur + off := v]> (data h) ∧ wf_handle h'.
Proof.
  intros Hwf Hc Hv Hr. unfold d_set in Hr. res_inv Hr. rewrite (update_untrimmed _ _ _ Hres Hwf Hc) in Hres0. injection Hres0 as <-.
  unfold EpochedDeltaM.set in Hr. rewrite (update_untrimmed _ _ _ Hres Hwf Hc) in Hr. cbn [mbind option_bind] in Hr.
  unfold set_at_epoch in Hr. destruct (EpochM.unchecked_add cur off) as [e|] eqn:Ee; [|done].
  unfold EpochM.unchecked_add, EpochM.checked_add in Ee. apply chk_Some in Ee as [-> He]. cbn [mbind option_bind] in Hr.
  injection Hr as <-. split; [done|]. apply (set_data_wf (set_last_update cur h)); [|done..]. by apply set_last_update_wf; [|lia].
Qed.
End handles.

(** The sum up to an epoch is within the total. *)
Lemma sum_within (m : gmap Z Z) l : amounts_nonneg m → NoDup l → zsum (λ e, default 0 (m !! e)) l ≤ amounts_total m.
Proof.
  intros Hm Hl. set (k := filter (λ e, e ∉ l) (elements (dom m))).
  rewrite (amounts_total_on m (l ++ k)).
  - rewrite zsum_app. assert (0 ≤ zsum (λ e, default 0 (m !! e)) k); [|lia].
    apply zsum_nonneg. intros e _. destruct (m !! e) as [a|] eqn:E; [by apply (Hm e a)|done].
  - apply NoDup_app. split; [done|]. split; [|apply NoDup_filter, NoDup_elements]. by intros e He [He' _]%list_elem_of_filter.
  - intros e He%elem_of_dom. apply elem_of_app. destruct (decide (e ∈ l)); [by left|right].
    apply list_elem_of_filter. split; [done|]. by apply elem_of_elements.
Qed.

Lemma sum_loop (m : gmap Z Z) l acc r :
  for_list (λ ep sum, match m !! ep with Some d => EpochedDeltaM.add_to fits_amount sum d | None => Some sum end) l acc = Some r →
  default 0 r = default 0 acc + zsum (λ e, default 0 (m !! e)) l.
Proof.
  revert acc. induction l as [|e l IH]; intros acc; cbn [for_list].
  - intros [= <-]. cbn. lia.
  - destruct (m !! e) as [d|] eqn:E; cbn [mbind option_bind].
    + unfold EpochedDeltaM.add_to, EpochedDeltaM.add_data. destruct acc as [x|].
      * destruct (fits_amount (x + d)); [|done]. cbn [fmap option_fmap option_map mbind option_bind]. intros Hr.
        rewrite (IH _ Hr), zsum_cons, E. cbn. unfold id. lia.
      * cbn [mbind option_bind]. intros Hr. rewrite (IH _ Hr), zsum_cons, E. cbn. unfold id. lia.
    + intros Hr. rewrite (IH _ Hr), zsum_cons, E. cbn. lia.
Qed.

Lemma d_sum_within {A} params epoch h r : amounts_nonneg (data h) →
  d_sum (A:=A) params fits_amount OffsetPipelineLen OffsetMaxU64 epoch h = Ok r → default 0 r ≤ amounts_total (data h).
Proof.
  intros Hn Hr. unfold d_sum in Hr. destruct (last_update h) as [lu|] eqn:El.
  - res_inv Hr. unfold EpochedDeltaM.get_sum in Hr. rewrite El in Hr. destruct (EpochM.unchecked_add lu v); [|done].
    cbn [mbind option_bind] in Hr. rewrite (sum_loop _ _ _ _ Hr). cbn [default]. rewrite Z.add_0_l.
    apply sum_within; [done|apply NoDup_seqZ].
  - injection Hr as <-. cbn. by apply amounts_total_nonneg.
Qed.

(** ** What the operations do to the bonds *)

Ltac pos_inv H :=
  unfold on_vsets, on_bonding, on_redelegation, on_slashes, on_rewards, on_validators in H; stt_inv H.

Section effects.
Context {AA : AddressApi} {I : InternalAddrs AA} {OA : CmpOrder Address} {KK : PosKeys AA}.
Abbreviation A := Address.
Context (native_token : A) (params : PosParams).

Definition same_bonds (s s' : PosStore) : Prop :=
  bond_data (bonding s') = bond_data (bonding s) ∧ total_bonded (bonding s') = total_bonded (bonding s) ∧
  unbond_data (bonding s') = unbond_data (bonding s) ∧ total_unbonded (bonding s') = total_unbonded (bonding s).

Lemma same_bonds_refl s : same_bonds s s.
Proof using Type. done. Qed.

Lemma same_bonds_trans s1 s2 s3 : same_bonds s1 s2 → same_bonds s2 s3 → same_bonds s1 s3.
Proof using Type. unfold same_bonds. intros (H1 & H2 & H3 & H4) (-> & -> & -> & ->). done. Qed.

Lemma on_tokens_ok {B} (m : stt (gmap Key value) TokenError B) s s' b :
  on_tokens m s = (s', Ok b) → ∃ t, m (tokens s) = (t, Ok b) ∧ s' = put_tokens t s.
Proof using Type.
  unfold on_tokens. destruct (m (tokens s)) as [t r]. intros [= <- Hr]. exists t. split; [|done]. f_equal. by destruct r; inversion Hr.
Qed.

Lemma change_stake_same v e c cur o s s' u : change_stake params v e c cur o s = (s', Ok u) → same_bonds s s'.
Proof using Type. unfold change_stake, on_vsets. by intros (t & _ & ->)%stt_zoom_ok. Qed.

Lemma check_source_same source v s s' u : check_source source v s = (s', Ok u) → s' = s.
Proof using Type.
  intros H. unfold check_source in H. pos_inv H. destruct source; [|by pos_inv H]. destruct (_ && _); by pos_inv H.
Qed.

Lemma add_target_same d v e cur s s' u : add_delegation_target d v e cur s = (s', Ok u) → same_bonds s s'.
Proof using Type.
  intros H. unfold add_delegation_target in H. pos_inv H. destruct (_ !! v) as [del|]; [|by pos_inv H].
  destruct (last_range del) as [st [en|]]; by pos_inv H.
Qed.

Lemma remove_target_same d v e cur s s' u : remove_delegation_target params d v e cur s = (s', Ok u) → same_bonds s s'.
Proof using Type.
  intros H. unfold remove_delegation_target in H. pos_inv H. destruct (_ !! v) as [del|]; [|done]. by pos_inv H.
Qed.

Lemma bond_sum_ok a v e s s' x : bond_sum params a v e s = (s', Ok x) →
  s' = s ∧ ∃ r, d_sum (A:=A) params fits_amount OffsetPipelineLen OffsetMaxU64 e (bond_handle a v s) = Ok r ∧ x = default 0 r.
Proof using Type. intros H. unfold bond_sum in H. pos_inv H. split; [done|]. by eexists. Qed.

Lemma frozen_ok v cur s s' b : is_validator_frozen params v cur s = (s', Ok b) → s' = s.
Proof using Type.
  intros H. unfold is_validator_frozen in H. pos_inv H. destruct (read_validator_last_slash_epoch _ _); by pos_inv H.
Qed.

Ltac frames :=
  repeat match goal with
  | H : check_source _ _ _ = (_, Ok _) |- _ => apply check_source_same in H as ->
  | H : on_tokens _ _ = (_, Ok _) |- _ => apply on_tokens_ok in H as (? & ? & ->)
  | H : change_stake _ _ _ _ _ _ _ = (_, Ok _) |- _ => apply change_stake_same in H
  | H : add_delegation_target _ _ _ _ _ = (_, Ok _) |- _ => apply add_target_same in H
  | H : remove_delegation_target _ _ _ _ _ _ = (_, Ok _) |- _ => apply remove_target_same in H
  | H : is_validator_frozen _ _ _ _ = (_, Ok _) |- _ => apply frozen_ok in H as ->
  | H1 : same_bonds ?s1 ?s2, H2 : same_bonds ?s2 ?s3 |- _ => pose proof (same_bonds_trans _ _ _ H1 H2); clear H1 H2
  end.

(** *** The total of a validator's bonds *)

Definition bonded (b : BondStore) (v : A) (e : Z) : Z :=
  zsum (λ x, if decide (x.1.2 = v) then default 0 (data x.2 !! e) else 0) (map_to_list (bond_data b)).
Definition bond_at (b : BondStore) (k : A * A) (e : Z) : Z := default 0 (data (default epoched_open (bond_data b !! k)) !! e).
Definition total_at (b : BondStore) (v : A) (e : Z) : Z := default 0 (data (default epoched_open (total_bonded b !! v)) !! e).

Record wf_bonding (b : BondStore) : Prop := {
  wf_bonds : map_Forall (λ _ h, wf_handle h) (bond_data b);
  wf_totals : map_Forall (λ _ h, wf_handle h) (total_bonded b);
  totals_add_up v e : bonded b v e = total_at b v e;
}.

Lemma bonded_change b b' k v e : (∀ j, j ≠ k → bond_data b' !! j = bond_data b !! j) →
  bonded b' v e = bonded b v e + if decide (k.2 = v) then bond_at b' k e - bond_at b k e else 0.
Proof using Type.
  intros Hb. unfold bonded, bond_at.
  pose proof (zsum_map_change (λ x : (A * A) * EpochedSt Z, if decide (x.1.2 = v) then default 0 (data x.2 !! e) else 0) _ _ k Hb) as Hc.
  cbn [fst snd] in Hc. revert Hc. generalize (zsum (λ x : (A * A) * EpochedSt Z, if decide (x.1.2 = v) then default 0 (data x.2 !! e) else 0)) as F.
  intros F. destruct (bond_data b !! k), (bond_data b' !! k), (decide (k.2 = v)); cbn; unfold id; rewrite ?lookup_empty; cbn; lia.
Qed.

Lemma wf_bond_handle b k : wf_bonding b → wf_handle (default epoched_open (bond_data b !! k)).
Proof using Type. intros Hb. destruct (bond_data b !! k) as [h|] eqn:E; [by apply (wf_bonds _ Hb k h)|apply wf_open]. Qed.

Lemma wf_total_handle b v : wf_bonding b → wf_handle (default epoched_open (total_bonded b !! v)).
Proof using Type. intros Hb. destruct (total_bonded b !! v) as [h|] eqn:E; [by apply (wf_totals _ Hb v h)|apply wf_open]. Qed.

Lemma wf_same_bonds s s' : same_bonds s s' → wf_bonding (bonding s) → wf_bonding (bonding s').
Proof using Type.
  intros (H1 & H2 & _) [Hb Ht Hs]. split; rewrite ?H1, ?H2; [done|done|]. intros v e.
  unfold bonded, total_at in *. by rewrite H1, H2.
Qed.

(** Adding an amount to a bond and to the total of the validator. *)
Definition gains (s s' : PosStore) (k : A * A) (e amount : Z) : Prop :=
  (∀ j f, bond_at (bonding s') j f = bond_at (bonding s) j f + if decide (j = k ∧ f = e) then amount else 0) ∧
  unbond_data (bonding s') = unbond_data (bonding s) ∧ total_unbonded (bonding s') = total_unbonded (bonding s).

Lemma gains_same s s1 s2 k e amount : same_bonds s1 s2 → gains s s1 k e amount → gains s s2 k e amount.
Proof using Type. intros (H1 & _ & H3 & H4) (Hg & Hu & Ht). split; [|by rewrite H3, H4]. intros j f. rewrite <-Hg. unfold bond_at. by rewrite H1. Qed.

Lemma bond_block_ok a v amount cur off s s1 s2 u1 u2 : wf_bonding (bonding s) → 0 ≤ cur < 2 ^ 64 →
  bond_add params a v amount cur off s = (s1, Ok u1) → total_bonded_add params v amount cur off s1 = (s2, Ok u2) →
  wf_bonding (bonding s2) ∧ gains s s2 (a, v) (cur + off) amount.
Proof using Type.
  intros Hwf Hc H1 H2. unfold bond_add in H1. pos_inv H1. unfold total_bonded_add in H2. pos_inv H2.
  rename v0 into h, v1 into t. unfold total_bonded_handle in Hrun0. cbn [bonding put_bonding upd_bond_data total_bonded] in Hrun0.
  destruct (d_add_ok params _ _ _ _ _ (wf_bond_handle _ (a, v) Hwf) Hc Hrun) as (Hd & Hh & _).
  destruct (d_add_ok params _ _ _ _ _ (wf_total_handle _ v Hwf) Hc Hrun0) as (Ht & Hth & _).
  set (b := bonding s) in *. set (b' := mk_bonding (<[(a, v) := h]> (bond_data b)) (<[v := t]> (total_bonded b)) (unbond_data b)
    (total_unbonded b) (delegation_targets b)).
  assert (Hgain : ∀ j f, bond_at b' j f = bond_at b j f + if decide (j = (a, v) ∧ f = cur + off) then amount else 0).
  { intros j f. unfold bond_at, b'. cbn [bond_data]. destruct (decide (j = (a, v))) as [->|Hj].
    - rewrite lookup_insert_eq. change (default epoched_open (Some h)) with h. rewrite Hd. destruct (decide (f = cur + off)) as [->|Hf].
      + rewrite lookup_insert_eq, decide_True by done. done.
      + rewrite lookup_insert_ne, decide_False by naive_solver. cbn. lia.
    - rewrite lookup_insert_ne, decide_False by naive_solver. lia. }
  split; [change (wf_bonding b')|split; [exact Hgain|done]]. split.
  - cbn. apply map_Forall_insert_2; [done|]. apply Hwf.
  - cbn. apply map_Forall_insert_2; [done|]. apply Hwf.
  - intros v' e. rewrite (bonded_change b b' (a, v)). 2:{ intros j Hj. cbn. by rewrite lookup_insert_ne. }
    rewrite Hgain, (totals_add_up _ Hwf). cbn [snd]. unfold total_at. unfold b'. cbn [total_bonded].
    destruct (decide (v = v')) as [<-|Hv]; [|by rewrite lookup_insert_ne, Z.add_0_r by done].
    rewrite lookup_insert_eq. change (default epoched_open (Some t)) with t. rewrite Ht. destruct (decide (e = cur + off)) as [->|He].
    + rewrite lookup_insert_eq, decide_True by done. cbn. unfold id. lia.
    + rewrite lookup_insert_ne, decide_False by naive_solver. lia.
Qed.

(** A successful bond: the bond of the pair grows by the amount at the offset
    and nothing else about bonds and unbonds changes. *)
Lemma bond_tokens_ok source v amount cur o s s' u : wf_bonding (bonding s) → 0 ≤ cur < 2 ^ 64 → amount ≠ 0 →
  bond_tokens native_token params source v amount cur o s = (s', Ok u) →
  wf_bonding (bonding s') ∧
  gains s s' (default v source, v) (cur + default (pipeline_len (owned params)) o) amount.
Proof using Type.
  intros Hwf Hc Ha H. unfold bond_tokens in H. destruct (Z.eqb_spec amount 0); [done|]. pos_inv H. frames.
  match goal with H : match ?x with _ => _ end _ = _ |- _ => destruct x; [|by pos_inv H] end. pos_inv H. frames.
  match goal with H1 : bond_add _ _ _ _ _ _ ?s1 = _, H2 : total_bonded_add _ _ _ _ _ _ = _ |- _ =>
    destruct (bond_block_ok _ _ _ _ _ s1 _ _ _ _ Hwf Hc H1 H2) as [Hw Hg] end.
  match goal with H : same_bonds _ s' |- _ => rename H into Hs end.
  split; [by apply (wf_same_bonds _ _ Hs)|]. by apply (gains_same _ _ _ _ _ _ Hs).
Qed.

(** *** Unbonding *)

(** The store with other data for one bond. *)
Definition bond_becomes (s s' : PosStore) (k : A * A) (m : gmap Z Z) : Prop :=
  (∀ j, j ≠ k → bond_data (bonding s') !! j = bond_data (bonding s) !! j) ∧
  data (default epoched_open (bond_data (bonding s') !! k)) = m ∧
  map_Forall (λ _ h, wf_handle h) (bond_data (bonding s')) ∧
  total_bonded (bonding s') = total_bonded (bonding s) ∧
  unbond_data (bonding s') = unbond_data (bonding s) ∧ total_unbonded (bonding s') = total_unbonded (bonding s).

Lemma bond_becomes_same s s1 s2 k m : bond_becomes s s1 k m → same_bonds s1 s2 → bond_becomes s s2 k m.
Proof using Type. intros (H1 & H2 & H3 & H4 & H5 & H6) (E1 & E2 & E3 & E4). unfold bond_becomes. rewrite E1, E2, E3, E4. done. Qed.

Lemma remove_bond_ok a v e s s' u : map_Forall (λ _ h, wf_handle h) (bond_data (bonding s)) →
  remove_bond a v e s = (s', Ok u) →
  bond_becomes s s' (a, v) (delete e (data (default epoched_open (bond_data (bonding s) !! (a, v))))).
Proof using Type.
  intros Hwf H. unfold remove_bond in H. pos_inv H. unfold bond_becomes.
  cbn [bonding put_bonding upd_bond_data bond_data total_bonded unbond_data total_unbonded].
  split; [intros j Hj; by rewrite lookup_insert_ne|]. rewrite lookup_insert_eq. split; [done|]. split; [|done].
  apply map_Forall_insert_2; [|done]. assert (Hh : wf_handle (default epoched_open (bond_data (bonding s) !! (a, v)))).
  { destruct (bond_data (bonding s) !! (a, v)) as [h|] eqn:E; [by apply (Hwf (a, v) h)|apply wf_open]. }
  destruct Hh as [Hd Ho]. split; [|done]. cbn. by apply map_Forall_delete.
Qed.

Lemma remove_bonds_ok a v (epochs : gset Z) s s' u : map_Forall (λ _ h, wf_handle h) (bond_data (bonding s)) →
  for_each (remove_bond a v) (elements epochs) s = (s', Ok u) →
  bond_becomes s s' (a, v) (filter (λ x, x.1 ∉ epochs) (data (default epoched_open (bond_data (bonding s) !! (a, v))))).
Proof using Type.
  intros Hwf H. set (d := data (default epoched_open (bond_data (bonding s) !! (a, v)))).
  destruct (for_each_ok (remove_bond a v) (λ l s1, (NoDup l ∧ Forall (λ e, e ∈ epochs) l) ∧ ∃ m, bond_becomes s s1 (a, v) m ∧
      ∀ e, m !! e = if decide (e ∈ epochs ∧ e ∉ l) then None else d !! e) _ _ _ _ H) as (_ & m & Hb & Hm).
  - split; [split; [apply NoDup_elements|by apply Forall_forall; intros e; rewrite elem_of_elements]|]. exists d. split; [done|]. intros e.
    rewrite decide_False; [done|]. intros [He Hn]. by apply Hn, elem_of_elements.
  - intros e l s1 s2 ([[Hnin Hnd]%NoDup_cons [He Hl]%Forall_cons] & m & (B1 & B2 & B3 & B4 & B5 & B6) & Hm) Hr. split; [done|].
    apply (remove_bond_ok _ _ _ _ _ _ B3) in Hr as (C1 & C2 & C3 & C4 & C5 & C6). rewrite B2 in C2.
    exists (delete e m). split; [split; [|by rewrite C4, C5, C6]; intros j Hj; by rewrite C1, B1|].
    intros e'. destruct (decide (e' = e)) as [->|Hne].
    + by rewrite lookup_delete_eq, decide_True.
    + rewrite lookup_delete_ne, Hm by done. apply decide_ext. rewrite elem_of_cons. naive_solver.
  - assert (m = filter (λ x, x.1 ∉ epochs) d) as <-; [|done]. apply map_eq. intros e. rewrite Hm, map_lookup_filter.
    destruct (decide (e ∈ epochs)) as [He|He].
    + rewrite decide_True by (split; [done|apply not_elem_of_nil]). destruct (d !! e); [|done]. cbn. by rewrite option_guard_False by auto.
    + rewrite decide_False by tauto. destruct (d !! e); [|done]. cbn. by rewrite option_guard_True.
Qed.

(** What [update_bonds] leaves of the bond. *)
Lemma update_bonds_ok a v r pe cur s s' u : map_Forall (λ _ h, wf_handle h) (bond_data (bonding s)) →
  (∀ e n, br_new_entry r = Some (e, n) → 0 ≤ e < 2 ^ 64 ∧ 0 ≤ n < 2 ^ 256) →
  update_bonds params a v r pe cur s = (s', Ok u) →
  bond_becomes s s' (a, v) (kept_bonds (data (default epoched_open (bond_data (bonding s) !! (a, v)))) r).
Proof using Type.
  intros Hwf Hr H. unfold update_bonds in H. stt_inv H. apply (remove_bonds_ok _ _ _ _ _ _ Hwf) in Hrun as Hb.
  match goal with H : bond_sum _ _ _ _ _ = _ |- _ => apply bond_sum_ok in H as [-> _] end.
  assert (Hsame : same_bonds st0 s') by (destruct (_ =? 0); [by apply remove_target_same in H|by stt_inv H]).
  eapply bond_becomes_same; [|exact Hsame]. destruct Hb as (B1 & B2 & B3 & B4 & B5 & B6). unfold kept_bonds.
  destruct (br_new_entry r) as [[e n]|]; [|by stt_inv Hrun0].
  destruct (Hr e n eq_refl) as [He Hn]. unfold bond_set in Hrun0. pos_inv Hrun0.
  assert (Hh : wf_handle (bond_handle a v st)) by (unfold bond_handle; destruct (bond_data (bonding st) !! (a, v)) as [h|] eqn:E;
    [by apply (B3 (a, v) h)|apply wf_open]).
  match goal with H : d_set _ _ _ _ _ _ _ = Ok ?h |- _ => rename h into h'; destruct (d_set_ok params n e 0 _ _ Hh He Hn H) as [Hd Hw] end.
  unfold bond_becomes. cbn [bonding put_bonding upd_bond_data bond_data total_bonded unbond_data total_unbonded].
  split; [intros j Hj; by rewrite lookup_insert_ne, B1|]. rewrite lookup_insert_eq.
  change (default epoched_open (Some h')) with h'. rewrite Hd, Z.add_0_r. unfold bond_handle. rewrite B2. split; [done|].
  split; [by apply map_Forall_insert_2|done].
Qed.

Lemma alter_at_ok {K V} `{Countable K} `{Empty V} (k : K) (f : V → res (PosError A) V) (m m' : gmap K V) :
  alter_at k f m = Ok m' → ∃ x, f (at_ m k) = Ok x ∧ m' = <[k := x]> m.
Proof using Type. unfold alter_at. intros Hr. res_inv Hr. eauto. Qed.

Lemma bump_ok k d (m m' : gmap Z Z) : bump (A:=A) k d m = Ok m' → m' = <[k := default 0 (m !! k) + d]> m.
Proof using Type. unfold bump, arith, ZAmount.add. intros Hr. res_inv Hr. by apply chk_Some in Hres as [-> _]. Qed.

Lemma debit_ok k d (m m' : gmap Z Z) : debit (A:=A) k d m = Ok m' →
  m' = <[k := default 0 (m !! k) - d]> m ∧ 0 ≤ default 0 (m !! k) - d < 2 ^ 256.
Proof using Type. unfold debit, arith, ZAmount.sub. intros Hr. res_inv Hr. by apply chk_Some in Hres as [-> ?]. Qed.

Lemma lookup_add (m : gmap Z Z) k d e : default 0 (<[k := default 0 (m !! k) + d]> m !! e) = default 0 (m !! e) + if decide (k = e) then d else 0.
Proof using Type.
  destruct (decide (k = e)) as [->|]; [by rewrite lookup_insert_eq|]. rewrite lookup_insert_ne by done. lia.
Qed.

Definition unbond_at (b : BondStore) (k : A * A) (w start : Z) : Z := default 0 (at_ (at_ (unbond_data b) k) start !! w).
Definition total_unbonded_at (b : BondStore) (v : A) (e start : Z) : Z := default 0 (at_ (at_ (total_unbonded b) v) e !! start).

(** The unbonds of one pair and withdrawable epoch change, or the totals of one
    validator and epoch. *)
Definition keep_unbond (k : A * A) (w : Z) (s s' : PosStore) : Prop :=
  bond_data (bonding s') = bond_data (bonding s) ∧ total_bonded (bonding s') = total_bonded (bonding s) ∧
  total_unbonded (bonding s') = total_unbonded (bonding s) ∧
  ∀ j f start, ¬ (j = k ∧ f = w) → unbond_at (bonding s') j f start = unbond_at (bonding s) j f start.
Definition keep_total (v : A) (pe : Z) (s s' : PosStore) : Prop :=
  bond_data (bonding s') = bond_data (bonding s) ∧ unbond_data (bonding s') = unbond_data (bonding s) ∧
  (map_Forall (λ _ h, wf_handle h) (total_bonded (bonding s)) → map_Forall (λ _ h, wf_handle h) (total_bonded (bonding s'))) ∧
  (∀ v' e, v' ≠ v → total_at (bonding s') v' e = total_at (bonding s) v' e) ∧
  ∀ v' e start, ¬ (v' = v ∧ e = pe) → total_unbonded_at (bonding s') v' e start = total_unbonded_at (bonding s) v' e start.

Lemma record_unbond_ok a v w x s s' : record_unbond a v w x s = (s', Ok ()) →
  keep_unbond (a, v) w s s' ∧
  ∀ start, unbond_at (bonding s') (a, v) w start = unbond_at (bonding s) (a, v) w start + if decide (x.1 = start) then 1 * x.2 else 0.
Proof using Type.
  intros H. unfold record_unbond in H. pos_inv H. apply alter_at_ok in Hrun as (m & Hm & ->). apply alter_at_ok in Hm as (m1 & Hm & ->).
  apply bump_ok in Hm as ->. set (b := bonding s). assert (Hpt : ∀ j f start,
    unbond_at (upd_unbond_data (λ _, <[(a, v) := <[x.1 := <[w := default 0 (at_ (at_ (unbond_data b) (a, v)) x.1 !! w) + x.2]>
       (at_ (at_ (unbond_data b) (a, v)) x.1)]> (at_ (unbond_data b) (a, v))]> (unbond_data b)) b) j f start =
    unbond_at b j f start + if decide (j = (a, v) ∧ x.1 = start ∧ w = f) then x.2 else 0).
  { intros j f start. unfold unbond_at, upd_unbond_data. cbn [unbond_data]. rewrite at_insert. destruct (decide (j = (a, v))) as [->|Hj].
    - rewrite at_insert. destruct (decide (start = x.1)) as [->|Hs].
      + rewrite lookup_add. f_equal. apply decide_ext. tauto.
      + rewrite decide_False by naive_solver. lia.
    - rewrite decide_False by naive_solver. lia. }
  split.
  - split; [done|]. split; [done|]. split; [done|]. intros j f start Hn. cbn [bonding put_bonding]. rewrite Hpt, decide_False by naive_solver. fold b. lia.
  - intros start. cbn [bonding put_bonding]. rewrite Hpt. fold b. f_equal. destruct (decide (x.1 = start)).
    + rewrite decide_True by done. lia.
    + by rewrite decide_False by tauto.
Qed.

Lemma update_total_ok v pe (m : gmap Z Z) x s s' : map_Forall (λ e _, 0 ≤ e < 2 ^ 64) m → m !! x.1 = Some x.2 →
  update_total v pe x s = (s', Ok ()) →
  keep_total v pe s s' ∧
  (∀ e, total_at (bonding s') v e = total_at (bonding s) v e + if decide (x.1 = e) then -1 * x.2 else 0) ∧
  ∀ e, total_unbonded_at (bonding s') v pe e = total_unbonded_at (bonding s) v pe e + if decide (x.1 = e) then 1 * x.2 else 0.
Proof using Type.
  intros Hm Hx H. unfold update_total in H. pos_inv H. apply debit_ok in Hrun as [-> Hb].
  apply alter_at_ok in Hrun0 as (m1 & Hm1 & ->). apply alter_at_ok in Hm1 as (m2 & Hm1 & ->). apply bump_ok in Hm1 as ->.
  unfold total_bonded_handle in *. set (b := bonding s) in *. set (h := default epoched_open (total_bonded b !! v)) in *.
  unfold keep_total, total_at, total_unbonded_at.
  cbn [bonding put_bonding upd_total_bonded upd_total_unbonded bond_data unbond_data total_bonded total_unbonded]. fold b.
  assert (Ht : ∀ f, default 0 (<[x.1 := default 0 (data h !! x.1) - x.2]> (data h) !! f) =
    default 0 (data h !! f) + if decide (x.1 = f) then -1 * x.2 else 0).
  { intros f. etransitivity; [apply (lookup_add (data h) x.1 (- x.2) f)|]. done. }
  split_and!; try done.
  - intros Hwf. apply map_Forall_insert_2; [|done]. assert (wf_handle h) as [Hd Ho].
    { unfold h. destruct (total_bonded b !! v) as [h'|] eqn:E; [by apply (Hwf v h')|apply wf_open]. }
    split; [|done]. cbn. apply map_Forall_insert_2; [|done]. split; [by apply (Hm _ _ Hx)|done].
  - intros v' e Hv. by rewrite lookup_insert_ne.
  - intros v' e start Hv. rewrite at_insert. destruct (decide (v' = v)) as [->|]; [|done]. rewrite at_insert.
    by rewrite decide_False by naive_solver.
  - intros e. rewrite lookup_insert_eq. apply Ht.
  - intros e. rewrite at_insert, decide_True by done. rewrite at_insert, decide_True by done. rewrite lookup_add. f_equal.
    by destruct (decide _); [lia|].
Qed.

Lemma for_each_same {B} (f : B → stt PosStore (PosError A) unit) l s s' u :
  (∀ x s s', f x s = (s', Ok ()) → same_bonds s s') → for_each f l s = (s', Ok u) → same_bonds s s'.
Proof using Type.
  intros Hf Hr. apply (for_each_ok f (λ _ s1, same_bonds s s1) _ _ _ _ Hr); [apply same_bonds_refl|].
  intros x l' s1 s2 H1 H2. eapply same_bonds_trans; [exact H1|by apply (Hf x)].
Qed.

Lemma update_redelegations_same a v r md s s' u : update_redelegations a v r md s = (s', Ok u) → same_bonds s s'.
Proof using Type. intros H. unfold update_redelegations in H. by pos_inv H. Qed.

Lemma record_redelegated_same a v w x s s' u : record_redelegated_unbond a v w x s = (s', Ok u) → same_bonds s s'.
Proof using Type. intros H. unfold record_redelegated_unbond in H. destruct x as (? & ? & ? & ?). by pos_inv H. Qed.

Lemma total_redelegated_same v pe x s s' u : update_total_redelegated v pe x s = (s', Ok u) → same_bonds s s'.
Proof using Type. intros H. unfold update_total_redelegated in H. destruct x as (? & ? & ? & ?). by pos_inv H. Qed.

Lemma tally_same a v cur rs s s' u : tally_unbond_rewards a v cur rs s = (s', Ok u) → same_bonds s s'.
Proof using Type.
  intros H. unfold tally_unbond_rewards in H. destruct (EpochM.prev cur); [|by pos_inv H]. pos_inv H.
  unfold add_rewards_to_counter in H. by pos_inv H.
Qed.

(** What unbonding [m] of the bonds of a pair does, [kept] being left. *)
Record unbond_effect (s s' : PosStore) (k : A * A) (pe w : Z) (is_redelegation : bool) (m kept : gmap Z Z) : Prop := {
  ue_bonds j e : bond_at (bonding s') j e = if decide (j = k) then default 0 (kept !! e) else bond_at (bonding s) j e;
  ue_unbonds j f start : unbond_at (bonding s') j f start =
    unbond_at (bonding s) j f start + if decide (j = k ∧ f = w ∧ is_redelegation = false) then default 0 (m !! start) else 0;
  ue_totals v e : total_at (bonding s') v e = total_at (bonding s) v e - if decide (v = k.2) then default 0 (m !! e) else 0;
  ue_total_unbonded v e start : total_unbonded_at (bonding s') v e start =
    total_unbonded_at (bonding s) v e start + if decide (v = k.2 ∧ e = pe) then default 0 (m !! start) else 0;
}.

Lemma keep_unbond_trans k w s1 s2 s3 : keep_unbond k w s1 s2 → keep_unbond k w s2 s3 → keep_unbond k w s1 s3.
Proof using Type.
  intros (H1 & H2 & H3 & H4) (E1 & E2 & E3 & E4). unfold keep_unbond. rewrite E1, E2, E3. split_and!; try done.
  intros j f start Hn. by rewrite E4, H4.
Qed.

Lemma keep_total_trans v pe s1 s2 s3 : keep_total v pe s1 s2 → keep_total v pe s2 s3 → keep_total v pe s1 s3.
Proof using Type.
  intros (H1 & H2 & H3 & H4 & H5) (E1 & E2 & E3 & E4 & E5). unfold keep_total. rewrite E1, E2. split_and!; auto.
  - intros v' e Hn. by rewrite E4, H4.
  - intros v' e start Hn. by rewrite E5, H5.
Qed.

(** The three loops over what is unbonded. *)
Lemma record_unbonds_ok a v w (m : gmap Z Z) s s' u : for_each (record_unbond a v w) (kvs m) s = (s', Ok u) →
  keep_unbond (a, v) w s s' ∧ ∀ start, unbond_at (bonding s') (a, v) w start = unbond_at (bonding s) (a, v) w start + default 0 (m !! start).
Proof using Type.
  intros Hr. destruct (for_each_adds (record_unbond a v w) (λ s, unbond_at (bonding s) (a, v) w) 1 (keep_unbond (a, v) w) m s s' u) as [Hk He]; try done.
  - apply keep_unbond_trans.
  - intros x s1 s2 _. apply record_unbond_ok.
  - split; [done|]. intros e. rewrite He. lia.
Qed.

Lemma update_totals_ok v pe (m : gmap Z Z) s s' u : map_Forall (λ e _, 0 ≤ e < 2 ^ 64) m →
  for_each (update_total v pe) (kvs m) s = (s', Ok u) →
  keep_total v pe s s' ∧ (∀ e, total_at (bonding s') v e = total_at (bonding s) v e - default 0 (m !! e)) ∧
  ∀ e, total_unbonded_at (bonding s') v pe e = total_unbonded_at (bonding s) v pe e + default 0 (m !! e).
Proof using Type.
  intros Hm Hr.
  destruct (for_each_adds (update_total v pe) (λ s, total_at (bonding s) v) (-1) (keep_total v pe) m s s' u) as [Hk He]; try done; [apply keep_total_trans| |].
  { intros x s1 s2 Hx H1. by destruct (update_total_ok v pe m x s1 s2 Hm Hx H1) as (? & ? & _). }
  destruct (for_each_adds (update_total v pe) (λ s, total_unbonded_at (bonding s) v pe) 1 (keep_total v pe) m s s' u) as [_ He2]; try done; [apply keep_total_trans| |].
  { intros x s1 s2 Hx H1. by destruct (update_total_ok v pe m x s1 s2 Hm Hx H1) as (? & _ & ?). }
  split; [done|]. split; intros e; [rewrite He|rewrite He2]; lia.
Qed.

(** The steps of a successful unbond. *)
Lemma unbond_tokens_inv source v amount cur redel s s' rs : amount ≠ 0 →
  unbond_tokens params source v amount cur redel s = (s', Ok rs) →
  let src := default v source in
  let bonds := data (bond_handle src v s) in
  let redelegated := delegator_redelegated_bonds_handle src v s in
  let pe := cur + pipeline_len (owned params) in
  ∃ w sum r md m nr s1 s2 s3 s4 s5 s6 s7 c,
    withdrawable_epoch_offset (owned params) = Some (w - cur) ∧
    d_sum (A:=A) params fits_amount OffsetPipelineLen OffsetMaxU64 pe (bond_handle src v s) = Ok sum ∧ amount ≤ default 0 sum ∧
    find_bonds_to_remove (A:=A) bonds amount = Ok r ∧ modified_redelegation bonds redelegated r = Ok md ∧
    new_unbonds (A:=A) bonds r = Ok m ∧ compute_new_redelegated_unbonds redelegated (br_epochs r) md = Ok nr ∧
    update_bonds params src v r pe cur s = (s1, Ok ()) ∧
    (if redel then s2 = s1 else for_each (record_unbond src v w) (kvs m) s1 = (s2, Ok ())) ∧
    update_redelegations src v r md s2 = (s3, Ok ()) ∧
    (if redel then s4 = s3 else for_each (record_redelegated_unbond src v w) (redelegated_entries nr) s3 = (s4, Ok ())) ∧
    for_each (update_total v pe) (kvs m) s4 = (s5, Ok ()) ∧
    for_each (update_total_redelegated v pe) (redelegated_entries nr) s5 = (s6, Ok ()) ∧
    compute_amount_after_slashing_unbond (owned params) (λ v, find_validator_slashes v s6) m nr (find_validator_slashes v s6) = Ok rs ∧
    change (rs_sum rs) = Some c ∧ change_stake params v pe (- c) cur None s6 = (s7, Ok ()) ∧
    tally_unbond_rewards src v cur rs s7 = (s', Ok ()).
Proof using Type.
  intros Ha H src bonds redelegated pe. unfold unbond_tokens in H. destruct (Z.eqb_spec amount 0); [done|]. pos_inv H. frames.
  destruct (negb _); [by pos_inv H|]. pos_inv H. frames.
  match goal with H : (if ?b then _ else _) _ = _ |- _ => destruct b; [by pos_inv H|] end. pos_inv H.
  match goal with H : bond_sum _ _ _ _ _ = _ |- _ => apply bond_sum_ok in H as [-> (sum & Hsum & ->)] end.
  match goal with H : (if ?b then _ else _) _ = _ |- _ => destruct b eqn:Hle; [by pos_inv H|] end. pos_inv H.
  repeat match goal with
  | H : epoch_add _ _ = Ok _ |- _ => apply ok_or_ok, chk_Some in H as [-> _]
  | H : expect _ = Ok _ |- _ => apply expect_ok in H
  | u : unit |- _ => destruct u
  end. apply Z.ltb_ge in Hle.
  eexists _, sum, _, _, _, _, _, _, _, _, _, _, _, _. split; [rewrite Hrun0; f_equal; symmetry; apply Z.add_simpl_l|].
  repeat (split; [eassumption|]). split; [by destruct redel; [stt_inv Hrun6|]|]. split; [eassumption|].
  split; [by destruct redel; [stt_inv Hrun9|]|]. repeat (split; [eassumption|]). eassumption.
Qed.

Lemma bond_keys_range h (m : gmap Z Z) : wf_handle h → (∀ e a, m !! e = Some a → ∃ b, data h !! e = Some b ∧ 0 ≤ a ≤ b) →
  map_Forall (λ e _, 0 ≤ e < 2 ^ 64) m.
Proof using Type. intros [Hd _] Hm e a He. destruct (Hm e a He) as (b & Hb & _). by apply (Hd e b). Qed.

(** The steps put together. *)
Lemma unbond_effect_intro s s1 s2 s4 s5 s' k pe w (redel : bool) (m kept : gmap Z Z) :
  bond_becomes s s1 k kept → keep_unbond k w s1 s2 →
  (∀ start, unbond_at (bonding s2) k w start = unbond_at (bonding s1) k w start + if redel then 0 else default 0 (m !! start)) →
  same_bonds s2 s4 → keep_total k.2 pe s4 s5 →
  (∀ e, total_at (bonding s5) k.2 e = total_at (bonding s4) k.2 e - default 0 (m !! e)) →
  (∀ e, total_unbonded_at (bonding s5) k.2 pe e = total_unbonded_at (bonding s4) k.2 pe e + default 0 (m !! e)) →
  same_bonds s5 s' → unbond_effect s s' k pe w redel m kept.
Proof using Type.
  intros (B1 & B2 & B3 & B4 & B5 & B6) (U1 & U2 & U3 & U4) U5 (S1 & S2 & S3 & S4) (T1 & T2 & T3 & T4 & T5) T6 T7 (F1 & F2 & F3 & F4).
  assert (HT : ∀ v e, total_at (bonding s4) v e = total_at (bonding s) v e) by (intros; unfold total_at; by rewrite S2, U2, B4).
  assert (HU : ∀ v e st, total_unbonded_at (bonding s4) v e st = total_unbonded_at (bonding s) v e st)
    by (intros; unfold total_unbonded_at; by rewrite S4, U3, B6).
  assert (Hs1 : ∀ j f st, unbond_at (bonding s1) j f st = unbond_at (bonding s) j f st) by (intros; unfold unbond_at; by rewrite B5).
  split.
  - intros j e. unfold bond_at. rewrite F1, T1, S1, U1. destruct (decide (j = k)) as [->|Hj]; [by rewrite B2|by rewrite B1].
  - intros j f st. transitivity (unbond_at (bonding s2) j f st); [unfold unbond_at; by rewrite F3, T2, S3|].
    destruct (decide (j = k ∧ f = w)) as [[-> ->]|Hn].
    + rewrite U5, Hs1. destruct redel; [by rewrite decide_False by naive_solver|by rewrite decide_True].
    + rewrite U4, Hs1, decide_False by tauto. lia.
  - intros v e. transitivity (total_at (bonding s5) v e); [unfold total_at; by rewrite F2|].
    destruct (decide (v = k.2)) as [->|Hv]; [by rewrite T6, HT|rewrite T4, HT by done; lia].
  - intros v e st. transitivity (total_unbonded_at (bonding s5) v e st); [unfold total_unbonded_at; by rewrite F4|].
    destruct (decide (v = k.2 ∧ e = pe)) as [[-> ->]|Hv]; [by rewrite T7, HU|rewrite T5, HU by done; lia].
Qed.

Lemma unbond_effect_wf s s' k pe w redel (m kept : gmap Z Z) : wf_bonding (bonding s) → unbond_effect s s' k pe w redel m kept →
  (∀ j, j ≠ k → bond_data (bonding s') !! j = bond_data (bonding s) !! j) →
  map_Forall (λ _ h, wf_handle h) (bond_data (bonding s')) → map_Forall (λ _ h, wf_handle h) (total_bonded (bonding s')) →
  (∀ e, bond_at (bonding s) k e = default 0 (kept !! e) + default 0 (m !! e)) → wf_bonding (bonding s').
Proof using Type.
  intros Hwf Heff Hj Hb Ht Hk. split; [done|done|]. intros v e.
  rewrite (bonded_change (bonding s) _ k v e Hj), (ue_bonds _ _ _ _ _ _ _ _ Heff), (ue_totals _ _ _ _ _ _ _ _ Heff).
  rewrite (decide_True (P := k = k)), (totals_add_up _ Hwf), Hk by done.
  destruct (decide (k.2 = v)) as [<-|Hne]; [rewrite decide_True by done|rewrite decide_False by done]; lia.
Qed.

(** Unbonding as its effect on bonds, unbonds and totals. *)
Lemma unbond_tokens_ok source v amount cur redel s s' rs :
  wf_bonding (bonding s) → 0 < amount < 2 ^ 256 →
  unbond_tokens params source v amount cur redel s = (s', Ok rs) →
  let k := (default v source, v) in
  let bonds := data (default epoched_open (bond_data (bonding s) !! k)) in
  ∃ r m w, find_bonds_to_remove (A:=A) bonds amount = Ok r ∧ new_unbonds (A:=A) bonds r = Ok m ∧ amounts_total m = amount ∧
    withdrawable_epoch_offset (owned params) = Some (w - cur) ∧ wf_bonding (bonding s') ∧
    unbond_effect s s' k (cur + pipeline_len (owned params)) w redel m (kept_bonds bonds r).
Proof using Type.
  intros Hwf Ha H k bonds.
  apply unbond_tokens_inv in H as (w & sum & r & md & m & nr & s1 & s2 & s3 & s4 & s5 & s6 & s7 & c & Hw & Hsum & Hle & Hr & _ &
    Hm & _ & H1 & H2 & H3 & H4 & H5 & H6 & _ & _ & H7 & H8); [|lia].
  change (data (bond_handle (default v source) v s)) with bonds in *. pose proof (wf_bond_handle _ k Hwf) as Hh.
  destruct (find_bonds_ok (A:=A) bonds amount (wf_in_range _ Hh) Ha) as (r' & m' & Hr' & Hm' & Htot & [Htk _] & _ & Hnew & _ & Hkeep).
  assert (r' = r) as -> by congruence. assert (m' = m) as -> by congruence.
  apply d_sum_within in Hsum; [|by apply in_range_nonneg, (wf_in_range _ Hh)].
  change (amounts_total (data (bond_handle (default v source) v s))) with (amounts_total bonds) in Hsum.
  exists r, m, w. split; [done|]. split; [done|]. split; [lia|]. split; [done|].
  apply update_bonds_ok in H1 as HB; [|apply Hwf|].
  2:{ intros e n He. destruct (Hnew e n He) as (_ & t & Ht & Ht0 & Hb). destruct (proj1 Hh e _ Hb) as [? ?].
      destruct (Htk e t Ht) as (b & Hb' & ?). assert (b = n + t) as -> by congruence. lia. }
  assert (keep_unbond k w s1 s2 ∧ ∀ start, unbond_at (bonding s2) k w start =
      unbond_at (bonding s1) k w start + if redel then 0 else default 0 (m !! start)) as [HU1 HU2].
  { destruct redel; [subst s2; split; [done|intros; lia]|by apply (record_unbonds_ok _ _ _ _ _ _ _ H2)]. }
  apply update_redelegations_same in H3. assert (H34 : same_bonds s3 s4).
  { destruct redel; [by subst s4|]. eapply for_each_same; [|exact H4]. intros. by eapply record_redelegated_same. }
  apply update_totals_ok in H5 as (HT1 & HT2 & HT3); [|by eapply bond_keys_range].
  assert (H56 : same_bonds s5 s6) by (eapply for_each_same; [|exact H6]; intros; by eapply total_redelegated_same).
  apply change_stake_same in H7. apply tally_same in H8.
  pose proof (same_bonds_trans _ _ _ H56 (same_bonds_trans _ _ _ H7 H8)) as HF.
  pose proof (same_bonds_trans _ _ _ H3 H34) as HS.
  assert (Heff := unbond_effect_intro s s1 s2 s4 s5 s' k _ w redel m _ HB HU1 HU2 HS HT1 HT2 HT3 HF).
  split; [|exact Heff].
  destruct HB as (B1 & _ & B3 & B4 & _), HU1 as (U1 & U2 & _), HS as (S1 & S2 & _), HT1 as (T1 & _ & T3 & _), HF as (F1 & F2 & _).
  apply (unbond_effect_wf _ _ _ _ _ _ _ _ Hwf Heff); [| | |exact Hkeep].
  - intros j Hj. by rewrite F1, T1, S1, U1, B1.
  - by rewrite F1, T1, S1, U1.
  - rewrite F2. apply T3. rewrite S2, U2, B4. apply Hwf.
Qed.

(** *** Withdrawal and redelegation *)

Lemma remove_unbond_ok a v x s s' u : remove_unbond a v x s = (s', Ok u) →
  bond_data (bonding s') = bond_data (bonding s) ∧ total_bonded (bonding s') = total_bonded (bonding s) ∧
  total_unbonded (bonding s') = total_unbonded (bonding s) ∧
  ∀ j f start, unbond_at (bonding s') j f start =
    if decide (j = (a, v) ∧ start = x.1.1 ∧ f = x.1.2) then 0 else unbond_at (bonding s) j f start.
Proof using Type.
  intros H. unfold remove_unbond in H. destruct x as [[st0 w] y]. pos_inv H. split; [done|]. split; [done|]. split; [done|].
  intros j f start. unfold unbond_at. cbn [bonding put_bonding put_redelegation upd_unbond_data unbond_data fst snd].
  rewrite at_insert. destruct (decide (j = (a, v))) as [->|Hj]; [|by rewrite decide_False by naive_solver].
  set (un := at_ (unbond_data (bonding s)) (a, v)).
  assert (E : at_ (if bool_decide (delete w (at_ un st0) = ∅) then delete st0 un else <[st0 := delete w (at_ un st0)]> un) start =
    if decide (start = st0) then delete w (at_ un st0) else at_ un start).
  { case_bool_decide as E; [|apply at_insert]. unfold at_ at 1. destruct (decide (start = st0)) as [->|Hs].
    - by rewrite lookup_delete_eq, E.
    - by rewrite lookup_delete_ne. }
  rewrite E. destruct (decide (start = st0)) as [->|Hs]; [|by rewrite decide_False by naive_solver].
  destruct (decide (f = w)) as [->|Hf]; [by rewrite lookup_delete_eq, decide_True|].
  by rewrite lookup_delete_ne, decide_False by naive_solver.
Qed.

Lemma withdrawable_elem (un : gmap Z (gmap Z Z)) red cur w start :
  (start, w) ∈ (withdrawable_unbonds un red cur).*1 ↔ w ≤ cur ∧ is_Some (at_ un start !! w).
Proof using Type.
  unfold withdrawable_unbonds. rewrite list_elem_of_fmap. split.
  - intros ([[a b] y] & E & (z & Hz & Hy)%list_elem_of_bind). cbn in E. injection E as -> ->.
    apply list_elem_of_fmap in Hz as ([w' x'] & E & [Hw Hx%elem_of_kvs]%list_elem_of_filter). cbn in *. injection E as -> -> ->.
    destruct z as [st m]. apply elem_of_kvs in Hy. cbn in *. split; [done|]. unfold at_. rewrite Hy. by exists x'.
  - intros [Hw [x Hx]]. unfold at_ in Hx. destruct (un !! start) as [m|] eqn:E; cbn in Hx; [|by rewrite lookup_empty in Hx].
    exists ((start, w), (x, with_entries (at_ (at_ red start) w))). split; [done|]. apply list_elem_of_bind.
    exists (start, m). split; [|by apply elem_of_kvs]. apply list_elem_of_fmap. exists (w, x). split; [done|].
    apply list_elem_of_filter. split; [done|]. by apply elem_of_kvs.
Qed.

(** What the unbonds of a pair that can be withdrawn come to. *)
Definition withdrawable_total (un : gmap Z (gmap Z Z)) (cur : Z) : Z :=
  zsum (λ x : Z * gmap Z Z, zsum snd (filter (λ y : Z * Z, y.1 ≤ cur) (kvs x.2))) (kvs un).

Lemma withdrawable_sum (un : gmap Z (gmap Z Z)) red cur :
  zsum (λ x : (Z * Z) * (Z * gmap A (gmap Z Z)), x.2.1) (withdrawable_unbonds un red cur) = withdrawable_total un cur.
Proof using Type.
  unfold withdrawable_unbonds, withdrawable_total. induction (kvs un) as [|x l IH]; [done|].
  rewrite bind_cons, zsum_app, zsum_cons, IH. f_equal. by rewrite zsum_fmap.
Qed.

Definition unbonds_nonneg (src v : A) (s : PosStore) : Prop :=
  map_Forall (λ _, amounts_nonneg) (unbond_handle src v s) ∧
  map_Forall (λ _, map_Forall (λ _, tokens_nonneg)) (delegator_redelegated_unbonds_handle src v s).

Lemma withdrawable_nonneg src v s cur : unbonds_nonneg src v s →
  Forall (λ x : (Z * Z) * (Z * gmap A (gmap Z Z)), 0 ≤ x.2.1 ∧ tokens_nonneg x.2.2)
    (withdrawable_unbonds (unbond_handle src v s) (delegator_redelegated_unbonds_handle src v s) cur).
Proof using Type.
  intros [Hu Hr]. apply Forall_forall. intros [[a b] [c rb]] (z & Hz & Hy)%list_elem_of_bind.
  apply list_elem_of_fmap in Hz as ([w' x'] & E & [Hw Hx%elem_of_kvs]%list_elem_of_filter). cbn in *. injection E as -> -> -> ->.
  destruct z as [st m]. apply elem_of_kvs in Hy. cbn in *. split; [by apply (Hu st m Hy w')|].
  intros u x Hx'. unfold with_entries in Hx'. apply map_lookup_filter_Some in Hx' as [Hx' _]. unfold at_ in Hx' at 1.
  destruct (at_ _ st !! w') as [rb|] eqn:E; cbn in Hx'; [|by rewrite lookup_empty in Hx'].
  unfold at_ in E at 1. destruct (delegator_redelegated_unbonds_handle src v s !! st) as [rr|] eqn:E1; cbn in E; [|by rewrite lookup_empty in E].
  exact (Hr st rr E1 w' rb E u x Hx').
Qed.

Lemma withdraw_tokens_inv source v cur s s' x : withdraw_tokens native_token params source v cur s = (s', Ok x) →
  let src := default v source in
  let unbonds := unbond_handle src v s in
  let l := withdrawable_unbonds unbonds (delegator_redelegated_unbonds_handle src v s) cur in
  ∃ rs s1 t, no_entries unbonds = false ∧
    compute_amount_after_slashing_withdraw (owned params) (λ v, find_validator_slashes v s) l (find_validator_slashes v s) = Ok rs ∧
    x = rs_sum rs ∧ for_each (remove_unbond src v) l s = (s1, Ok ()) ∧
    transfer native_token pos src x (tokens s1) = (t, Ok ()) ∧ s' = put_tokens t s1.
Proof using Type.
  intros H. unfold withdraw_tokens in H. pos_inv H. destruct (no_entries _) eqn:E; [by pos_inv H|]. pos_inv H.
  match goal with H : on_tokens _ _ = _ |- _ => apply on_tokens_ok in H as (t & Ht & ->) end.
  repeat match goal with u : unit |- _ => destruct u end. eauto 10.
Qed.

(** After a withdrawal no unbond that can be withdrawn is left, and no other
    unbond and no bond changes. *)
Lemma withdraw_tokens_ok source v cur s s' x : withdraw_tokens native_token params source v cur s = (s', Ok x) →
  bond_data (bonding s') = bond_data (bonding s) ∧ total_bonded (bonding s') = total_bonded (bonding s) ∧
  total_unbonded (bonding s') = total_unbonded (bonding s) ∧
  ∀ j f start, unbond_at (bonding s') j f start =
    if decide (j = (default v source, v) ∧ f ≤ cur) then 0 else unbond_at (bonding s) j f start.
Proof using Type.
  intros H. apply withdraw_tokens_inv in H as (rs & s1 & t & _ & _ & _ & Hl & _ & ->).
  set (k := (default v source, v)) in *. set (un := unbond_handle (default v source) v s) in *.
  set (l := withdrawable_unbonds un _ cur) in *. cbn [bonding put_tokens].
  assert (Hin : ∀ w start, (start, w) ∈ l.*1 ↔ w ≤ cur ∧ is_Some (at_ un start !! w)).
  { intros w start. apply withdrawable_elem. }
  destruct (for_each_ok (remove_unbond (default v source) v) (λ l' s2, ∃ dn, l = dn ++ l' ∧
      bond_data (bonding s2) = bond_data (bonding s) ∧ total_bonded (bonding s2) = total_bonded (bonding s) ∧
      total_unbonded (bonding s2) = total_unbonded (bonding s) ∧
      ∀ j f start, unbond_at (bonding s2) j f start = if decide (j = k ∧ (start, f) ∈ dn.*1) then 0 else unbond_at (bonding s) j f start)
    _ _ _ _ Hl) as (dn & Hdn & H1 & H2 & H3 & H4).
  - exists []. split; [done|]. repeat (split; [done|]). intros j f start. rewrite decide_False; [done|].
    intros [_ H]. by apply elem_of_nil in H.
  - intros y l' s2 s3 (dn & Hdn & H1 & H2 & H3 & H4) Hr. exists (dn ++ [y]). rewrite <-app_assoc. split; [done|].
    apply remove_unbond_ok in Hr as (E1 & E2 & E3 & E4). rewrite E1, E2, E3. repeat (split; [done|]).
    intros j f start. rewrite E4, H4, fmap_app. destruct y as [[a b] y]. cbn [fst snd fmap list_fmap]. fold k.
    destruct (decide (j = k)) as [->|Hj]; [|by rewrite !decide_False by naive_solver].
    destruct (decide (start = a ∧ f = b)) as [[-> ->]|Hn].
    + rewrite (decide_True (P := k = k ∧ a = a ∧ b = b)) by done. rewrite decide_True by (split; [done|set_solver]). done.
    + rewrite (decide_False (P := k = k ∧ start = a ∧ f = b)) by tauto. apply decide_ext. rewrite elem_of_app, list_elem_of_singleton. naive_solver.
  - rewrite app_nil_r in Hdn. subst dn. repeat (split; [done|]). intros j f start. rewrite H4.
    destruct (decide (j = k ∧ f ≤ cur)) as [[-> Hf]|Hn].
    + destruct (decide (k = k ∧ (start, f) ∈ l.*1)) as [|Hd]; [done|]. unfold unbond_at.
      destruct (at_ (at_ (unbond_data (bonding s)) k) start !! f) eqn:E; [|done]. destruct Hd. split; [done|]. apply Hin.
      split; [done|]. by eexists.
    + rewrite decide_False; [done|]. intros [-> [? _]%Hin]. tauto.
Qed.

Lemma not_chained_same d v cur s s' b : not_chained params d v cur s = (s', Ok b) → s' = s.
Proof using Type. intros H. unfold not_chained in H. pos_inv H. destruct (_ !! d); by pos_inv H. Qed.

(** A redelegation unbonds at the source and bonds what slashes leave of it at
    the destination. *)
Lemma redelegate_tokens_inv d src dest cur amount s s' u : amount ≠ 0 →
  redelegate_tokens params d src dest cur amount s = (s', Ok u) →
  let pe := cur + pipeline_len (owned params) in
  src ≠ dest ∧ is_validator d s = false ∧
  ∃ rs s1 s2 s3, unbond_tokens params (Some d) src amount cur true s = (s1, Ok rs) ∧ same_bonds s1 s2 ∧
    (if rs_sum rs =? 0 then s3 = s2 else ∃ s', bond_add params d dest (rs_sum rs) cur (pipeline_len (owned params)) s2 = (s', Ok ()) ∧
       total_bonded_add params dest (rs_sum rs) cur (pipeline_len (owned params)) s' = (s3, Ok ())) ∧
    same_bonds s3 s'.
Proof using Type.
  intros Ha H pe. unfold redelegate_tokens in H. destruct (Z.eqb_spec amount 0); [done|].
  case_bool_decide as Hne; [by pos_inv H|]. pos_inv H. destruct (is_validator d _) eqn:Ed; [by pos_inv H|].
  destruct (negb _); [by pos_inv H|]. destruct (negb _); [by pos_inv H|]. pos_inv H.
  match goal with H : not_chained _ _ _ _ _ = _ |- _ => apply not_chained_same in H as -> end.
  destruct (negb _); [by pos_inv H|]. split; [done|]. split; [done|].
  pos_inv H. frames. repeat match goal with u : unit |- _ => destruct u end.
  match goal with H : unbond_tokens _ _ _ _ _ _ _ = (_, Ok ?rs) |- _ => exists rs; eexists _, _, _; split; [exact H|] end.
  split; [eapply for_each_same; [|eassumption]; intros ??? Hx; unfold add_redelegated_bond in Hx; by pos_inv Hx|].
  split; [destruct (_ =? 0); [by stt_inv Hrun2|apply stt_bind_ok in Hrun2 as (s2 & [] & H1 & H2); eauto]|].
  match goal with H : same_bonds _ s' |- _ => eapply same_bonds_trans; [|exact H] end.
  assert (same_bonds st1 st2) by (eapply for_each_same; [|eassumption]; intros ??? Hx; unfold add_outgoing_redelegation in Hx; by pos_inv Hx).
  assert (same_bonds st2 st3) by (eapply for_each_same; [|eassumption]; intros ??? Hx; unfold add_total_redelegated in Hx; by pos_inv Hx).
  by eapply same_bonds_trans.
Qed.

Lemma redelegate_tokens_ok d src dest cur amount s s' u : wf_bonding (bonding s) → 0 ≤ cur < 2 ^ 64 → 0 < amount < 2 ^ 256 →
  redelegate_tokens params d src dest cur amount s = (s', Ok u) → wf_bonding (bonding s').
Proof using Type.
  intros Hwf Hc Ha H. apply redelegate_tokens_inv in H as (_ & _ & rs & s1 & s2 & s3 & H1 & H2 & H3 & H4); [|lia].
  apply unbond_tokens_ok in H1 as (_ & _ & _ & _ & _ & _ & _ & Hw & _); [|done..].
  apply (wf_same_bonds _ _ H2) in Hw. apply (wf_same_bonds _ _ H4). destruct (_ =? 0); [by subst s3|].
  destruct H3 as (s4 & H3 & H5). by destruct (bond_block_ok _ _ _ _ _ _ _ _ _ _ Hw Hc H3 H5).
Qed.
End effects.

(** ** Transactions in sequence *)

Section steps.
Context {AA : AddressApi} {I : InternalAddrs AA} {OA : CmpOrder Address} {KK : PosKeys AA}.
Abbreviation A := Address.
Context (native_token : A) (params : PosParams).

Inductive PosOp : Type :=
| OpBond (source : option A) (validator : A) (amount : Z)
| OpUnbond (source : option A) (validator : A) (amount : Z)
| OpWithdraw (source : option A) (validator : A)
| OpRedelegate (delegator src_validator dest_validator : A) (amount : Z)
| OpDeactivate (validator : A)
| OpReactivate (validator : A)
| OpUnjail (validator : A)
| OpCommission (validator : A) (rate : Z).

Definition run_op (current_epoch : Epoch) (op : PosOp) : stt PosStore (PosError A) unit :=
  match op with
  | OpBond source v amount => bond_tokens native_token params source v amount current_epoch None
  | OpUnbond source v amount => _ ← unbond_tokens params source v amount current_epoch false; mret ()
  | OpWithdraw source v => _ ← withdraw_tokens native_token params source v current_epoch; mret ()
  | OpRedelegate d src dest amount => redelegate_tokens params d src dest current_epoch amount
  | OpDeactivate v => deactivate_validator params v current_epoch
  | OpReactivate v => reactivate_validator params v current_epoch
  | OpUnjail v => unjail_validator params v current_epoch
  | OpCommission v rate => change_validator_commission_rate params v rate current_epoch
  end.

(** The arguments are values of their types. *)
Definition op_typed (op : PosOp) : Prop :=
  match op with
  | OpBond _ _ amount | OpUnbond _ _ amount | OpRedelegate _ _ _ amount => 0 ≤ amount < 2 ^ 256
  | _ => True
  end.

(** A transaction that fails has no effect. *)
Inductive pos_step : PosStore → PosStore → Prop :=
| pos_step_ok current_epoch op s s' : 0 ≤ current_epoch < 2 ^ 64 → op_typed op →
    run_op current_epoch op s = (s', Ok ()) → pos_step s s'.

Lemma on_vsets_same {B} (m : stt (VSets (A:=A)) (PosError A) B) s s' b : on_vsets m s = (s', Ok b) → same_bonds s s'.
Proof using Type. unfold on_vsets. by intros (t & _ & ->)%stt_zoom_ok. Qed.

Lemma deactivate_same v cur s s' u : deactivate_validator params v cur s = (s', Ok u) → same_bonds s s'.
Proof using Type.
  intros H. unfold deactivate_validator in H. stt_inv H. apply on_vsets_same in Hrun0, H.
  eapply same_bonds_trans; [exact Hrun0|]. eapply same_bonds_trans; [|exact H].
  match goal with H : match ?x with _ => _ end _ = _ |- _ => destruct x as [[]|]; try (by apply on_vsets_same in H); by stt_inv H end.
Qed.

Lemma check_states_same v st f g l s s' u : check_states params v st f g l s = (s', Ok u) → same_bonds s s'.
Proof using Type.
  apply for_each_same. intros x s1 s2 H. stt_inv H. apply on_vsets_same in Hrun. eapply same_bonds_trans; [exact Hrun|].
  match goal with H : match ?x with _ => _ end _ = _ |- _ => destruct x as [s3|] end; [|by stt_inv H].
  case_bool_decide; by stt_inv H.
Qed.

Lemma reactivate_same v cur s s' u : reactivate_validator params v cur s = (s', Ok u) → same_bonds s s'.
Proof using Type.
  intros H. unfold reactivate_validator in H. stt_inv H. apply check_states_same in Hrun0. apply frozen_ok in Hrun1 as ->.
  eapply same_bonds_trans; [exact Hrun0|]. match goal with H : (if ?b then _ else _) _ = _ |- _ => destruct b; by eapply on_vsets_same end.
Qed.

Lemma unjail_same v cur s s' u : unjail_validator params v cur s = (s', Ok u) → same_bonds s s'.
Proof using Type.
  intros H. unfold unjail_validator in H. stt_inv H. apply check_states_same in Hrun0. eapply same_bonds_trans; [exact Hrun0|].
  apply on_vsets_same in H. eapply same_bonds_trans; [|exact H].
  destruct (read_validator_last_slash_epoch v st) as [e|]; [|by stt_inv Hrun1].
  stt_inv Hrun1. destruct (cur <? _); by stt_inv Hrun1.
Qed.

Lemma commission_same v rate cur s s' u : change_validator_commission_rate params v rate cur s = (s', Ok u) → same_bonds s s'.
Proof using Type.
  intros H. unfold change_validator_commission_rate in H. destruct (_ <? 0); [by stt_inv H|]. destruct (_ <? rate); [by stt_inv H|].
  stt_inv H. destruct (_ !! v) as [mx|]; [|by stt_inv H]. unfold commission_get, commission_set in H.
  pos_inv H. match type of H with (if ?b then _ else _) _ = _ => destruct b end; [by stt_inv H|].
  pos_inv H. match type of H with (if ?b then _ else _) _ = _ => destruct b end; [by stt_inv H|]. by pos_inv H.
Qed.

Lemma pos_step_wf s s' : wf_bonding (bonding s) → pos_step s s' → wf_bonding (bonding s').
Proof using Type.
  intros Hwf Hs. revert Hwf. destruct Hs as [cur op s s' Hc Hop Hr]. intros Hwf. destruct op as [src v a|src v a|src v|d src dest a|v|v|v|v rate]; cbn [run_op op_typed] in *.
  - destruct (Z.eq_dec a 0) as [->|Ha]; [by apply stt_ret_ok in Hr as [-> _]|]. by apply bond_tokens_ok in Hr as [? _].
  - stt_inv Hr. destruct (Z.eq_dec a 0) as [->|Ha]; [by apply stt_ret_ok in Hrun as [-> _]|].
    apply unbond_tokens_ok in Hrun as (_ & _ & _ & _ & _ & _ & _ & Hw & _); [done|done|lia].
  - stt_inv Hr. apply withdraw_tokens_ok in Hrun as (H1 & H2 & _). destruct Hwf as [Hb Ht Hs].
    split; rewrite ?H1, ?H2; [done|done|]. intros v' e. unfold bonded, total_at in *. by rewrite H1, H2.
  - destruct (Z.eq_dec a 0) as [->|Ha]; [by apply stt_ret_ok in Hr as [-> _]|]. eapply redelegate_tokens_ok; [done|done| |exact Hr]. lia.
  - apply deactivate_same in Hr. by apply (wf_same_bonds _ _ Hr).
  - apply reactivate_same in Hr. by apply (wf_same_bonds _ _ Hr).
  - apply unjail_same in Hr. by apply (wf_same_bonds _ _ Hr).
  - apply commission_same in Hr. by apply (wf_same_bonds _ _ Hr).
Qed.
End steps.

(** ** Properties *)

(** ** Examples *)

(** Validator 11, not yet in a set, and delegator 12 with tokens of its own. *)
Definition example_store : PosStore (AA:=addr_ref) :=
  mk_store
    (mk_vsets epoched_open epoched_open epoched_open epoched_open
       {[11%N := mk_epoched (Some 0) (Some 0) {[0 := BelowThreshold]}]}
       {[11%N := mk_epoched (Some 0) (Some 0) {[0 := 0]}]} epoched_open epoched_open epoched_open)
    (mk_bonding ∅ ∅ ∅ ∅ ∅) (mk_redelegation ∅ ∅ ∅ ∅ ∅ ∅) (mk_slashes ∅ epoched_open ∅) (mk_rewards ∅ ∅ ∅ ∅ None None None)
    (mk_validators {[11%N := 10000000000]} ∅ ∅ ∅ ∅ ∅ ∅ ∅ ∅ ∅ ∅) (<[bkey 20%N 12%N := VAmount 5000000]> ∅).

Lemma example_wf : wf_bonding (AA:=addr_ref) (bonding example_store).
Proof.
  constructor; [apply map_Forall_empty..|]. intros v e. unfold bonded, total_at. cbn [example_store bonding bond_data total_bonded].
  by rewrite lookup_empty.
Qed.

Lemma run_ok {S E B} (r : S * res E B) b : r.2 = Ok b → r = (r.1, Ok b).
Proof. destruct r. by intros [= ->]. Qed.

Definition amount_value {AA : AddressApi} (v : value (A:=AA)) : bool := match v with VAmount a => (0 <=? a) && (a <? 2 ^ 256) | _ => false end.
Lemma wf_store_check {AA : AddressApi} {I : InternalAddrs AA} (s : gmap Key value) :
  forallb (λ x, amount_value x.2) (map_to_list s) = true → wf_store s.
Proof.
  intros H k v Hk _. rewrite forallb_forall in H. specialize (H (k, v)). rewrite <-list_elem_of_In, elem_of_map_to_list in H.
  specialize (H Hk). destruct v; try done. cbn in H. eexists. split; [done|]. lia.
Qed.

Abbreviation example_bond := (bond_tokens (AA:=addr_ref) 20%N example_params (Some 12%N) 11%N 3000000 1 None).
Abbreviation example_unbond := (unbond_tokens (AA:=addr_ref) example_params (Some 12%N) 11%N 1000000 4 false).
Abbreviation example_withdraw := (withdraw_tokens (AA:=addr_ref) 20%N example_params (Some 12%N) 11%N 28).

(** The delegator bonds, unbonds a part and withdraws it. *)
Lemma example_runs : ∃ s1 s2 s3 rs, example_bond example_store = (s1, Ok ()) ∧ example_unbond s1 = (s2, Ok rs) ∧
  example_withdraw s2 = (s3, Ok 1000000) ∧ total_at (bonding s2) 11%N 3 = 2000000 ∧
  bond_at (bonding s1) (12%N, 11%N) 3 = 3000000 ∧
  wf_store (tokens s2) ∧ unbonds_nonneg 12%N 11%N s2 ∧ balance (tokens s2) 20%N 12%N = 2000000.
Proof.
  exists (example_bond example_store).1, (example_unbond (example_bond example_store).1).1,
    (example_withdraw (example_unbond (example_bond example_store).1).1).1.
  eexists. split; [apply run_ok; vm_compute; reflexivity|]. split; [apply run_ok; vm_compute; reflexivity|].
  split; [apply run_ok; vm_compute; reflexivity|]. split; [vm_compute; reflexivity|]. split; [vm_compute; reflexivity|]. split_and!.
  - apply wf_store_check. vm_compute. reflexivity.
  - split; unfold amounts_nonneg, tokens_nonneg; apply (bool_decide_unpack _); vm_compute; exact I.
  - vm_compute. reflexivity.
Qed.

Lemma example_bond_step s s1 : example_bond s = (s1, Ok ()) → pos_step (AA:=addr_ref) 20%N example_params s s1.
Proof.
  intros H. apply (pos_step_ok _ _ 1 (OpBond (AA:=addr_ref) (Some 12%N) 11%N 3000000)); [done|done|]. cbn [run_op]. exact H.
Qed.

Lemma example_unbond_step s1 s2 rs : example_unbond s1 = (s2, Ok rs) → pos_step (AA:=addr_ref) 20%N example_params s1 s2.
Proof.
  intros H. apply (pos_step_ok _ _ 4 (OpUnbond (AA:=addr_ref) (Some 12%N) 11%N 1000000)); [done|done|].
  cbn [run_op]. unfold mbind, stt_bind. by rewrite H.
Qed.

(** C1. Through any sequence of successful bonds, unbonds, withdrawals,
    redelegations and changes of validators' activity and commission: for every
    validator and start epoch, the bonds of all sources keep adding up to the
    validator's total, from which slashes are computed, and bonds, totals and
    start epochs stay in the range of their types. *)
Theorem bonds_add_up_to_totals {AA : AddressApi} {I : InternalAddrs AA} {OA : CmpOrder Address} {KK : PosKeys AA}
    (native_token : Address) (params : PosParams) (s s' : PosStore) :
  wf_bonding (bonding s) → rtc (pos_step native_token params) s s' →
  wf_bonding (bonding s') ∧ ∀ v e, bonded (bonding s') v e = total_at (bonding s') v e.
Proof.
  intros Hwf Hr. assert (wf_bonding (bonding s')) as Hw.
  { induction Hr as [|s1 s2 s3 Hs _ IH]; [done|]. by apply IH, (pos_step_wf native_token params s1 s2). }
  split; [done|]. apply Hw.
Qed.

Lemma bonds_add_up_to_totals_witness : ∃ s1 s2 rs, example_bond example_store = (s1, Ok ()) ∧
  example_unbond s1 = (s2, Ok rs) ∧ bonded (bonding s2) 11%N 3 = 2000000.
Proof.
  destruct example_runs as (s1 & s2 & s3 & rs & H1 & H2 & _ & Ht & _). exists s1, s2, rs. split; [done|]. split; [done|].
  destruct (bonds_add_up_to_totals (AA:=addr_ref) 20%N example_params example_store s2 example_wf) as [_ H].
  - eapply rtc_l; [by apply example_bond_step|]. eapply rtc_once, example_unbond_step. exact H2.
  - by rewrite H.
Defined.

(** C28. A successful unbond of an amount, seen from outside: exactly the amount
    leaves the bonds of the pair, from the latest start epochs first and never
    more than there is; the same amounts become unbonds withdrawable at the
    withdrawable epoch, unless they are redelegated; the validator's totals lose
    them and its unbonded totals at the pipeline epoch gain them; and the bonds,
    unbonds and totals of everybody else stay as they are. *)
Theorem unbond_moves_exact_amount {AA : AddressApi} {I : InternalAddrs AA} {OA : CmpOrder Address} {KK : PosKeys AA}
    (params : PosParams) (source : option Address) (v : Address) (amount cur : Z) (redel : bool) (s s' : PosStore) (rs : ResultSlashing) :
  wf_bonding (bonding s) → 0 < amount < 2 ^ 256 →
  unbond_tokens params source v amount cur redel s = (s', Ok rs) →
  let k := (default v source, v) in
  let b := bonding s in let b' := bonding s' in
  let pe := cur + pipeline_len (owned params) in
  ∃ (m : gmap Z Z) w, withdrawable_epoch_offset (owned params) = Some (w - cur) ∧ amounts_total m = amount ∧
    (∀ e a, m !! e = Some a → 0 ≤ a ≤ bond_at b k e) ∧
    (∀ e e', is_Some (m !! e) → e < e' → bond_at b' k e' = 0) ∧
    (∀ j e, bond_at b' j e = bond_at b j e - if decide (j = k) then default 0 (m !! e) else 0) ∧
    (∀ j f e, unbond_at b' j f e = unbond_at b j f e + if decide (j = k ∧ f = w ∧ redel = false) then default 0 (m !! e) else 0) ∧
    (∀ u e, total_at b' u e = total_at b u e - if decide (u = v) then default 0 (m !! e) else 0) ∧
    (∀ u f e, total_unbonded_at b' u f e = total_unbonded_at b u f e + if decide (u = v ∧ f = pe) then default 0 (m !! e) else 0).
Proof.
  intros Hwf Ha Hrun k b b' pe. destruct (unbond_tokens_ok params source v amount cur redel s s' rs Hwf Ha Hrun) as
    (r & m & w & Hr & Hm & Ht & Hw & _ & [E1 E2 E3 E4]). fold k in Hr, Hm, E1, E2.
  destruct (find_bonds_ok (A:=Address) _ amount (wf_in_range _ (wf_bond_handle _ k Hwf)) Ha) as
    (r' & m' & Hr' & Hm' & _ & [T1 T2] & _ & _ & _ & Hk). assert (r' = r) as -> by congruence. assert (m' = m) as -> by congruence.
  assert (Hb : ∀ j e, bond_at b' j e = bond_at b j e - if decide (j = k) then default 0 (m !! e) else 0).
  { intros j e. unfold b'. rewrite E1. destruct (decide (j = k)) as [->|]; [|unfold b; lia].
    specialize (Hk e). unfold b, bond_at. lia. }
  exists m, w. split; [done|]. split; [done|]. split; [|split; [|done]].
  - intros e a He. destruct (T1 e a He) as (x & Hx & ?). unfold bond_at, b. by rewrite Hx.
  - intros e e' He Hlt. rewrite Hb, decide_True by done. specialize (T2 e e' He Hlt). unfold bond_at, b. lia.
Qed.

Lemma unbond_moves_exact_amount_witness : ∃ s1 s2 rs, example_bond example_store = (s1, Ok ()) ∧
  example_unbond s1 = (s2, Ok rs) ∧ ∀ u e, u ≠ 11%N → total_at (bonding s2) u e = total_at (bonding s1) u e.
Proof.
  destruct example_runs as (s1 & s2 & s3 & rs & H1 & H2 & _ & _). exists s1, s2, rs. split; [done|]. split; [done|].
  assert (Hwf : wf_bonding (bonding s1)).
  { eapply (pos_step_wf (AA:=addr_ref) 20%N example_params example_store); [exact example_wf|by apply example_bond_step]. }
  destruct (unbond_moves_exact_amount (AA:=addr_ref) example_params (Some 12%N) 11%N 1000000 4 false s1 s2 rs
    Hwf ltac:(lia) H2) as (m & w & _ & _ & _ & _ & _ & _ & Ht & _).
  intros u e Hu. rewrite Ht, decide_False by done. lia.
Defined.

(** A successful withdrawal: every unbond of the pair that is withdrawable
    is removed and no other unbond, bond or total changes; what is paid, after
    slashes, is never more than what these unbonds come to; and exactly that is
    moved from the account of proof of stake to the source. *)
Theorem withdraw_pays_unbonds {AA : AddressApi} {I : InternalAddrs AA} {AL : AddressLaws AA} {OA : CmpOrder Address} {KK : PosKeys AA}
    (native_token : Address) (params : PosParams) (source : option Address) (v : Address) (cur : Z) (s s' : PosStore) (x : Z) :
  let src := default v source in
  wf_store (tokens s) → unbonds_nonneg src v s → src ≠ pos →
  withdraw_tokens native_token params source v cur s = (s', Ok x) →
  0 ≤ x ≤ withdrawable_total (unbond_handle src v s) cur ∧
  (∀ j f e, unbond_at (bonding s') j f e = if decide (j = (src, v) ∧ f ≤ cur) then 0 else unbond_at (bonding s) j f e) ∧
  (∀ j e, bond_at (bonding s') j e = bond_at (bonding s) j e) ∧ (∀ u e, total_at (bonding s') u e = total_at (bonding s) u e) ∧
  ∀ t o, balance (tokens s') t o = balance (tokens s) t o + (if decide (t = native_token ∧ o = src) then x else 0)
                                                          - (if decide (t = native_token ∧ o = pos) then x else 0).
Proof.
  intros src Hw Hn Hne H. pose proof (withdraw_tokens_inv _ _ _ _ _ _ _ _ H) as (rs & s1 & t & _ & Hrs & -> & Hl & Ht & ->).
  apply withdraw_tokens_ok in H as (H1 & H2 & _ & H4). fold src in Hrs, Hl, Ht, H4.
  apply withdraw_le in Hrs; [|by apply withdrawable_nonneg]. rewrite withdrawable_sum in Hrs. split; [done|]. split; [done|].
  unfold bond_at, total_at. rewrite H1, H2. split; [done|]. split; [done|].
  assert (tokens s1 = tokens s) as E.
  { apply (for_each_ok (remove_unbond src v) (λ _ s2, tokens s2 = tokens s) _ _ _ _ Hl); [done|].
    intros y l s2 s3 <- Hr. destruct y as [[a b] y]. unfold remove_unbond in Hr. by pos_inv Hr. }
  rewrite E in Ht. destruct (transfer_moves AA I AL _ _ native_token pos src (rs_sum rs) Hw ltac:(lia) ltac:(done) Ht) as (_ & _ & Hb). done.
Qed.

Lemma withdraw_pays_unbonds_witness : ∃ s2 s3, example_withdraw s2 = (s3, Ok 1000000) ∧
  balance (tokens s2) 20%N 12%N = 2000000 ∧ balance (tokens s3) 20%N 12%N = 3000000.
Proof.
  destruct example_runs as (s1 & s2 & s3 & rs & _ & _ & H & _ & _ & Hw & Hn & Hb). exists s2, s3. split; [done|]. split; [done|].
  destruct (withdraw_pays_unbonds (AA:=addr_ref) 20%N example_params (Some 12%N) 11%N 28 s2 s3 1000000 Hw Hn ltac:(done) H)
    as (_ & _ & _ & _ & Hb'). rewrite Hb', Hb. reflexivity.
Defined.
