(* ===== verification/SlashOps.v ===== *)
(** * Slashing: evidence and the processing of slashes

    Models the operations of [proof_of_stake/src/slashing.rs] on the store of
    [PosStore]: evidence of misbehaviour enqueues a slash and jails the validator;
    at the start of the epoch in which the slashes are due their rates are
    computed, the validator and the destinations of its redelegations are
    slashed, and the stakes are reduced.  The properties bound what is slashed and
    say what is recorded. *)

From Stdlib Require Import Ascii.
From S2P Require Import Prelude Words Uint Decimal I256 Dec Token StorageKey Epochs BTree TransToken PosTypes.
From S2P Require Import Epoched ValidatorSets Slashing Unbonding PosStore Bonding.

(** ** Evidence *)

Inductive MisbehaviorKind : Type := MisbehaviorUnknown | MisbehaviorDuplicateVote | MisbehaviorLightClientAttack.

(** The fields of Tendermint's [Misbehavior] that are read: the kind, the bytes of
    the validator's address and the height. *)
Record Misbehavior : Type := mk_misbehavior { mb_kind : MisbehaviorKind; mb_address : list Z; mb_height : BlockHeight }.

(** [HEXUPPER.encode]. *)
Definition tm_raw_hash_to_string (raw_hash : list Z) : text :=
  raw_hash ≫= λ b, [hex_digit (b / 16); hex_digit (b mod 16)].

Section slash_ops.
Context {AA : AddressApi} {I : InternalAddrs AA} {OA : CmpOrder Address} {KK : PosKeys AA}.
Abbreviation A := Address.
Abbreviation RedelegatedTokens := (gmap A (gmap Z Z)).
Abbreviation M := (stt PosStore (PosError A)).
Abbreviation R := (res (PosError A)).
Context (params : PosParams).
Let p : OwnedPosParams := owned params.

(** [if let Err(err) = m { .. }]: the error is logged; what was written stays. *)
Definition logged (m : M unit) : M unit :=
  λ s, let '(s', r) := m s in (s', match r with Err _ => Ok () | r => r end).

Definition enqueued_at (processing_epoch : Epoch) (s : PosStore) : gmap A (gmap Z Slash) :=
  at_ (data (enqueued_slashes (slashes s))) processing_epoch.
Definition enqueue (processing_epoch : Epoch) (validator : A) (height : BlockHeight) (slash : Slash) : M unit :=
  on_slashes (modify (upd_enqueued_slashes (upd_at processing_epoch (λ m, <[validator := <[height := slash]> (at_ m validator)]> m)))).

Definition slash (current_epoch evidence_epoch : Epoch) (evidence_block_height : BlockHeight) (type : SlashType) (validator : A)
    (validator_set_update_epoch : Epoch) : M unit :=
  let slash := mk_slash evidence_epoch evidence_block_height type 0 in
  offset ← lift (slash_offset params);
  processing_epoch ← lift (epoch_add evidence_epoch offset);
  s ← get;
  match at_ (enqueued_at processing_epoch s) validator !! evidence_block_height with
  | Some _ => mret ()
  | None =>
      _ ← enqueue processing_epoch validator evidence_block_height slash;
      _ ← match read_validator_last_slash_epoch validator s with
          | Some last => if last <? evidence_epoch
                         then on_slashes (modify (upd_last_slash_epoch (<[validator := evidence_epoch]>))) else mret ()
          | None => on_slashes (modify (upd_last_slash_epoch (<[validator := evidence_epoch]>)))
          end;
      on_vsets (jail_validator params validator current_epoch validator_set_update_epoch)
  end.

Definition record_evidence (pred_epochs : Epochs) (current_epoch validator_set_update_epoch : Epoch) (evidence : Misbehavior) : M unit :=
  e ← lift (expect (EpochsM.get_epoch pred_epochs (mb_height evidence)));
  match e with
  | None => mret ()
  | Some evidence_epoch =>
      offset ← lift (slash_offset params);
      e1 ← lift (epoch_add evidence_epoch offset);
      e2 ← lift (arith (EpochM.checked_sub e1 (cubic_slashing_window_length p)));
      if e2 <=? current_epoch then mret ()
      else
        match (match mb_kind evidence with
               | MisbehaviorDuplicateVote => Some DuplicateVote
               | MisbehaviorLightClientAttack => Some LightClientAttack
               | MisbehaviorUnknown => None
               end) with
        | None => mret ()
        | Some slash_type =>
            s ← get;
            match address_raw_hash (validators s) !! tm_raw_hash_to_string (mb_address evidence) with
            | Some validator =>
                logged (slash current_epoch evidence_epoch (mb_height evidence) slash_type validator validator_set_update_epoch)
            | None => mret ()
            end
        end
  end.
Definition record_slashes_from_evidence (byzantine_validators : list Misbehavior) (pred_epochs : Epochs)
    (current_epoch validator_set_update_epoch : Epoch) : M unit :=
  for_each (record_evidence pred_epochs current_epoch validator_set_update_epoch) byzantine_validators.

(** ** Rates *)

Definition infracting_stake (epoch : Epoch) (validators : list A) : stt (VSets (A:=A)) (PosError A) Z :=
  λ vs, (vs, try_fold (λ acc validator,
               stake ← (read_validator_stake params validator epoch vs).2;
               stake ← arith (ZDec.try_from_amount stake);
               arith (ZDec.add acc stake)) 0 validators).
(** One entry for every slash: a validator counts once for each of its slashes. *)
Definition slashed_validators (m : gmap A (gmap Z Slash)) : list A :=
  kvs m ≫= λ x, (λ _, x.1) <$> kvs x.2.
Definition vp_fraction (epoch : Epoch) (s : PosStore) : R Z :=
  stake ← (get_total_consensus_stake params epoch (vsets s)).2;
  consensus_stake ← arith (ZDec.try_from_amount stake);
  offset ← slash_offset params;
  processing_epoch ← epoch_add epoch offset;
  infracting ← (infracting_stake epoch (slashed_validators (enqueued_at processing_epoch s)) (vsets s)).2;
  arith (ZDec.div infracting consensus_stake).
Definition compute_cubic_slash_rate (infraction_epoch : Epoch) (s : PosStore) : R Z :=
  '(start_epoch, end_epoch) ← expect (cubic_slash_epoch_window p infraction_epoch);
  sum_vp_fraction ← try_fold (λ sum epoch, f ← vp_fraction epoch s; arith (ZDec.add sum f)) 0
                      (EpochM.iter_bounds_inclusive start_epoch end_epoch);
  nine ← expect (ZDec.from_u64 9);
  x ← arith (ZDec.mul nine sum_vp_fraction);
  arith (ZDec.mul x sum_vp_fraction).

(** ** What is slashed *)

(** Tokens of one redelegation that were unbonded at the destination at an epoch. *)
Definition redelegated_unbonded (total_redelegated_unbonded : gmap Z (gmap Z RedelegatedTokens))
    (redel_bond_start : Epoch) (src_validator : A) (bond_start epoch : Epoch) : Z :=
  default 0 (at_ (at_ (at_ total_redelegated_unbonded epoch) redel_bond_start) src_validator !! bond_start).

Section redelegation.
Context (amount : Z) (bond_start redel_bond_start : Epoch) (infraction_epoch : Epoch) (slashes : list Slash)
  (unbonded : Epoch → Z) (rate : Z).

Definition in_window (slash : Slash) : R bool :=
  start ← expect (redelegation_start_epoch_from_end p redel_bond_start);
  w ← expect (in_redelegation_slashing_window p (slash_epoch slash) start redel_bond_start);
  Ok ((w : bool) && (bond_start <=? slash_epoch slash)).
Definition in_window_processed (slash : Slash) : R bool :=
  w ← in_window slash;
  if w : bool then processed_by p infraction_epoch (slash_epoch slash) else Ok false.

(** One epoch: the total unbonded so far and the slashed amounts. *)
Definition slash_redelegation_step (st : Z * gmap Z Z) (epoch : Epoch) : R (Z * gmap Z Z) :=
  let '(init_tot_unbonded, slashed_amounts) := st in
  updated_total_unbonded ← arith (ZAmount.add init_tot_unbonded (unbonded epoch));
  list_slashes ← filter_res in_window_processed slashes;
  let slashable_amount := sat_sub amount updated_total_unbonded in
  x ← apply_list_slashes p list_slashes slashable_amount;
  slashed ← arith (ZAmount.mul_ceil x rate);
  list_slashes ← filter_res in_window slashes;
  x ← apply_list_slashes p list_slashes slashable_amount;
  slashable_stake ← arith (ZAmount.mul_ceil x rate);
  let to_slash := Z.min slashed slashable_stake in
  slashed_amounts ← (if to_slash =? 0 then Ok slashed_amounts else bump epoch to_slash slashed_amounts);
  Ok (updated_total_unbonded, slashed_amounts).
End redelegation.

Definition slash_redelegation (amount : Z) (bond_start redel_bond_start : Epoch) (src_validator : A) (current_epoch : Epoch)
    (slashes : list Slash) (total_redelegated_unbonded : gmap Z (gmap Z RedelegatedTokens)) (rate : Z)
    (slashed_amounts : gmap Z Z) : R (gmap Z Z) :=
  offset ← slash_offset params;
  infraction_epoch ← arith (EpochM.checked_sub current_epoch offset);
  set_update_epoch ← expect (EpochM.next current_epoch);
  first ← expect (EpochM.next infraction_epoch);
  let unbonded := redelegated_unbonded total_redelegated_unbonded redel_bond_start src_validator bond_start in
  init_tot_unbonded ← ok_or (ZAmount.sum (unbonded <$> EpochM.iter_bounds_inclusive first set_update_epoch)) AmountSumOverflow;
  r ← try_fold (slash_redelegation_step amount bond_start redel_bond_start infraction_epoch slashes unbonded rate)
        (init_tot_unbonded, slashed_amounts) (EpochM.iter_range set_update_epoch (pipeline_len p));
  Ok r.2.

(** The entries of a map of maps, in the order of the keys. *)
Definition entries2 {V} (m : gmap Z (gmap Z V)) : list ((Epoch * Epoch) * V) :=
  kvs m ≫= λ x, (λ y, ((x.1, y.1), y.2)) <$> kvs x.2.

Definition slash_validator_redelegation (src_validator : A) (current_epoch : Epoch) (outgoing_redelegations : gmap Z (gmap Z Z))
    (slashes : list Slash) (dest_total_redelegated_unbonded : gmap Z (gmap Z RedelegatedTokens)) (rate : Z)
    (dest_slashed_amounts : gmap Z Z) : R (gmap Z Z) :=
  offset ← slash_offset params;
  infraction_epoch ← arith (EpochM.checked_sub current_epoch offset);
  try_fold (λ amounts '((bond_start, redel_start), amount),
      redel_end ← expect (redelegation_end_epoch_from_start p redel_start);
      w ← expect (in_redelegation_slashing_window p infraction_epoch redel_start redel_end);
      if (w : bool) && (bond_start <=? infraction_epoch)
      then slash_redelegation amount bond_start redel_end src_validator current_epoch slashes
             dest_total_redelegated_unbonded rate amounts
      else Ok amounts)
    dest_slashed_amounts (entries2 outgoing_redelegations).

(** [is_empty] of a map from epochs to redelegated tokens. *)
Definition no_tokens (m : gmap Z RedelegatedTokens) : bool :=
  bool_decide (map_Forall (λ _ x, with_entries x = ∅) m).

Section validator.
Context (validator : A) (rate : Z) (infraction_epoch : Epoch) (s : PosStore).

(** The redelegated tokens of the epochs of bonds that have some. *)
Definition redelegated_parts (has : Epoch → bool) (tokens_of : Epoch → RedelegatedTokens) (tot_bonds : gmap Z Z) :
    gmap Z RedelegatedTokens :=
  list_to_map ((λ ep, (ep, with_entries (tokens_of ep))) <$> filter (λ ep, has ep) (kvs tot_bonds).*1).

Record SlashAcc : Type := mk_slash_acc {
  tot_bonds : gmap Z Z;
  redelegated_bonds : gmap Z RedelegatedTokens;
  slash_sum : Z;
  slashed_amounts : gmap Z Z;
}.
Definition slash_validator_step (acc : SlashAcc) (epoch : Epoch) : R SlashAcc :=
  amount ← try_fold (λ sum '(bond_start, bond_amount),
      slashed ← compute_slash_bond_at_epoch p (λ v, find_validator_slashes v s) validator epoch infraction_epoch
                  bond_start bond_amount (redelegated_bonds acc !! bond_start) rate;
      arith (ZAmount.add sum slashed)) 0 (kvs (tot_bonds acc));
  let tot_bonds := filter (λ x, x.1 ≤ infraction_epoch) (at_ (total_unbonded_handle validator s) epoch) in
  let tru := validator_total_redelegated_unbonded_handle validator s in
  let redelegated_bonds := redelegated_parts (λ ep, negb (no_tokens (at_ tru ep))) (λ ep, at_ (at_ tru epoch) ep) tot_bonds in
  sum ← arith (ZAmount.add (slash_sum acc) amount);
  amounts ← bump epoch sum (slashed_amounts acc);
  Ok (mk_slash_acc tot_bonds redelegated_bonds sum amounts).
End validator.

Definition slash_validator (validator : A) (rate : Z) (current_epoch : Epoch) (slashed_amounts_map : gmap Z Z) (s : PosStore) :
    R (gmap Z Z) :=
  offset ← slash_offset params;
  infraction_epoch ← arith (EpochM.checked_sub current_epoch offset);
  let tot_bonds := filter (λ x, x.1 ≤ infraction_epoch ∧ 0 < x.2) (data (total_bonded_handle validator s)) in
  let trb := validator_total_redelegated_bonded_handle validator s in
  let redelegated_bonds := redelegated_parts (has_entries trb) (at_ trb) tot_bonds in
  r ← try_fold (slash_validator_step validator rate infraction_epoch s)
        (mk_slash_acc tot_bonds redelegated_bonds 0 slashed_amounts_map)
        (reverse (EpochM.iter_range current_epoch (pipeline_len p)));
  pipeline_epoch ← epoch_add current_epoch (pipeline_len p);
  prev ← expect (EpochM.prev pipeline_epoch);
  last_amt ← expect (slashed_amounts r !! prev);
  Ok (<[pipeline_epoch := last_amt]> (slashed_amounts r)).

Definition process_validator_slash (validator : A) (rate : Z) (current_epoch : Epoch) (s : PosStore)
    (slashed_amount_map : gmap A (gmap Z Z)) : R (gmap A (gmap Z Z)) :=
  result_slash ← slash_validator validator rate current_epoch (at_ slashed_amount_map validator) s;
  let outgoing_redelegations := validator_outgoing_redelegations_handle validator s in
  let dest_validators := (kvs (filter (λ x, no_entries x.2 = false) outgoing_redelegations)).*1 in
  try_fold (λ m dest_validator,
      to_modify ← slash_validator_redelegation validator current_epoch (at_ outgoing_redelegations dest_validator)
                    (find_validator_slashes validator s) (validator_total_redelegated_unbonded_handle dest_validator s) rate
                    (at_ m dest_validator);
      Ok (<[dest_validator := to_modify]> m))
    (<[validator := result_slash]> slashed_amount_map) dest_validators.

(** ** Processing *)

(** The slashes of one validator with their rates, and the rate they come to
    together. *)
Definition final_rate (cubic_slash_rate : Z) (enqueued_slash : Slash) : Z :=
  Z.min E12 (Z.max (get_slash_rate (slash_type enqueued_slash) p) cubic_slash_rate).
Definition with_rate (cubic_slash_rate : Z) (x : Slash) : Slash :=
  mk_slash (slash_epoch x) (slash_block_height x) (slash_type x) (final_rate cubic_slash_rate x).
Definition total_rate (slashes : list Slash) : R Z :=
  try_fold (λ cur_rate x, new_rate ← arith (ZDec.add cur_rate (slash_rate x)); Ok (Z.min E12 new_rate)) 0 slashes.
Definition rated_slashes (cubic_slash_rate : Z) (enqueued : gmap A (gmap Z Slash)) : R (list (A * (list Slash * Z))) :=
  try_fold (λ acc x,
      let slashes := (λ y, with_rate cubic_slash_rate y.2) <$> kvs x.2 in
      rate ← total_rate slashes;
      Ok (acc ++ [(x.1, (slashes, rate))]))
    [] (kvs (filter (λ x, x.2 ≠ ∅) enqueued)).

Definition state_at (validator : A) (epoch : Epoch) : M ValidatorState :=
  st ← on_vsets (state_get params validator epoch); lift (expect st).

(** The validator's stake in the sets of every epoch; the events that are emitted. *)
Fixpoint slash_sets (validator : A) (slash_amounts : list (Epoch * Z)) : M (list (A * Z)) :=
  match slash_amounts with
  | [] => mret []
  | (epoch, slash_amount) :: rest =>
      st ← state_at validator epoch;
      if jailed_or_inactive (Some st) then slash_sets validator rest
      else
        c ← lift (expect (change slash_amount));
        _ ← on_vsets (update_validator_set params validator (- c) epoch (Some 0));
        events ← slash_sets validator rest;
        mret ((validator, slash_amount) :: events)
  end.
(** Its deltas and the total deltas: an epoch takes what earlier ones did not. *)
Fixpoint slash_deltas (validator : A) (slash_acc : Z) (slash_amounts : list (Epoch * Z)) : M unit :=
  match slash_amounts with
  | [] => mret ()
  | (epoch, slash_amount) :: rest =>
      slash_delta ← lift (arith (ZAmount.sub slash_amount slash_acc));
      slash_acc ← lift (arith (ZAmount.add slash_acc slash_delta));
      c ← lift (expect (change slash_delta));
      _ ← on_vsets (update_validator_deltas params validator (- c) epoch (Some 0));
      st ← state_at validator epoch;
      _ ← on_vsets (update_total_deltas params (- c) epoch (Some 0) (negb (jailed_or_inactive (Some st))));
      slash_deltas validator slash_acc rest
  end.
Fixpoint slash_stakes (map_validator_slash : list (A * gmap Z Z)) : M (list (A * Z)) :=
  match map_validator_slash with
  | [] => mret []
  | (validator, slash_amounts) :: rest =>
      events ← slash_sets validator (kvs slash_amounts);
      _ ← slash_deltas validator 0 (kvs slash_amounts);
      more ← slash_stakes rest;
      mret (events ++ more)
  end.

Definition push_slashes (x : A * (list Slash * Z)) : M unit :=
  on_slashes (modify (upd_validator_slashes (λ m, <[x.1 := default [] (m !! x.1) ++ x.2.1]> m))).

Definition process_slashes (current_epoch : Epoch) : M (list (A * Z)) :=
  offset ← lift (slash_offset params);
  if current_epoch <? offset then mret []
  else
    infraction_epoch ← lift (arith (EpochM.checked_sub current_epoch offset));
    s ← get;
    let enqueued := enqueued_at current_epoch s in
    if no_entries enqueued then mret []
    else
      cubic_slash_rate ← lift (compute_cubic_slash_rate infraction_epoch s);
      eager ← lift (rated_slashes cubic_slash_rate enqueued);
      h ← lift (n_update params OffsetSlashProcessingLenPlus current_epoch (enqueued_slashes (slashes s)));
      _ ← on_slashes (modify (upd_enqueued_slashes (λ _, h)));
      map_validator_slash ← lift (try_fold (λ m x, process_validator_slash x.1 x.2.2 current_epoch s m) ∅ eager);
      _ ← for_each push_slashes eager;
      slash_stakes (kvs map_validator_slash).

(** ** Queries *)

(** [find_all_enqueued_slashes]: those that are not due yet, by validator and
    processing epoch. *)
Definition find_all_enqueued_slashes (epoch : Epoch) (s : PosStore) : gmap A (gmap Z (list Slash)) :=
  foldl (λ acc x,
      let '((processing_epoch, address), slash) := x in
      <[address := <[processing_epoch := default [] (at_ acc address !! processing_epoch) ++ [slash]]> (at_ acc address)]> acc)
    ∅ (filter (λ x, epoch < x.1.1)
         (kvs (data (enqueued_slashes (slashes s))) ≫= λ x, kvs x.2 ≫= λ y, (λ z, ((x.1, y.1), z.2)) <$> kvs y.2)).
End slash_ops.

(** * Theory *)

(** ** What the operations on bonds leave alone

    A reading of the store that depends neither on the parts these operations
    write nor on the commission rates. *)

Section frames.
Context {AA : AddressApi} {I : InternalAddrs AA} {OA : CmpOrder Address} {KK : PosKeys AA}.
Abbreviation A := Address.
Context (native_token : A) (params : PosParams).
Context {X : Type} (f : PosStore → X).
Hypothesis (Hvsets : ∀ x s, f (put_vsets x s) = f s) (Hbonding : ∀ x s, f (put_bonding x s) = f s)
  (Hredelegation : ∀ x s, f (put_redelegation x s) = f s) (Hrewards : ∀ x s, f (put_rewards x s) = f s)
  (Htokens : ∀ x s, f (put_tokens x s) = f s)
  (Hcommission : ∀ g s, f (put_validators (upd_commission_rate g (validators s)) s) = f s).

Lemma keeps_on_vsets {B} (m : stt (VSets (A:=A)) (PosError A) B) : keeps f (on_vsets m).
Proof using Hvsets. by apply keeps_zoom. Qed.
Lemma keeps_on_bonding {B} (m : stt BondStore (PosError A) B) : keeps f (on_bonding m).
Proof using Hbonding. by apply keeps_zoom. Qed.
Lemma keeps_on_redelegation {B} (m : stt RedelegationStore (PosError A) B) : keeps f (on_redelegation m).
Proof using Hredelegation. by apply keeps_zoom. Qed.
Lemma keeps_on_rewards {B} (m : stt RewardStore (PosError A) B) : keeps f (on_rewards m).
Proof using Hrewards. by apply keeps_zoom. Qed.
Lemma keeps_commission g : keeps f (on_validators (modify (upd_commission_rate g))).
Proof using Hcommission. intros s. apply Hcommission. Qed.
Lemma keeps_on_tokens {B} (m : stt (gmap Key value) TokenError B) : keeps f (on_tokens m).
Proof using Htokens. intros s. unfold on_tokens. destruct (m (tokens s)). apply Htokens. Qed.
#[local] Hint Resolve keeps_on_vsets keeps_on_bonding keeps_on_redelegation keeps_on_rewards keeps_commission keeps_on_tokens : keeps.

Lemma keeps_check_source source v : keeps f (check_source source v).
Proof using All. unfold check_source. keeps_tac. Qed.
Lemma keeps_frozen v cur : keeps f (is_validator_frozen params v cur).
Proof using All. unfold is_validator_frozen. keeps_tac. Qed.
Lemma keeps_add_target a v e cur : keeps f (add_delegation_target a v e cur).
Proof using All. unfold add_delegation_target. keeps_tac. Qed.
Lemma keeps_remove_target a v e cur : keeps f (remove_delegation_target params a v e cur).
Proof using All. unfold remove_delegation_target. keeps_tac. Qed.
Lemma keeps_change_stake v e c cur o : keeps f (change_stake params v e c cur o).
Proof using All. unfold change_stake. keeps_tac. Qed.
#[local] Hint Resolve keeps_check_source keeps_frozen keeps_add_target keeps_remove_target keeps_change_stake : keeps.

Lemma keeps_bond_add a v x cur o : keeps f (bond_add params a v x cur o).
Proof using All. unfold bond_add. keeps_tac. Qed.
Lemma keeps_bond_set a v x cur o : keeps f (bond_set params a v x cur o).
Proof using All. unfold bond_set. keeps_tac. Qed.
Lemma keeps_bond_sum a v e : keeps f (bond_sum params a v e).
Proof using All. unfold bond_sum. keeps_tac. Qed.
Lemma keeps_total_bonded_add v x cur o : keeps f (total_bonded_add params v x cur o).
Proof using All. unfold total_bonded_add. keeps_tac. Qed.
#[local] Hint Resolve keeps_bond_add keeps_bond_set keeps_bond_sum keeps_total_bonded_add : keeps.

Lemma keeps_bond_tokens source v x cur o : keeps f (bond_tokens native_token params source v x cur o).
Proof using All. unfold bond_tokens. keeps_tac. Qed.
Lemma keeps_update_bonds a v b pe cur : keeps f (update_bonds params a v b pe cur).
Proof using All. unfold update_bonds, remove_bond. keeps_tac. Qed.
Lemma keeps_update_redelegations a v b m : keeps f (update_redelegations a v b m).
Proof using All. unfold update_redelegations. keeps_tac. Qed.
Lemma keeps_tally a v cur r : keeps f (tally_unbond_rewards a v cur r).
Proof using All. unfold tally_unbond_rewards, add_rewards_to_counter. keeps_tac. Qed.
#[local] Hint Resolve keeps_update_bonds keeps_update_redelegations keeps_tally : keeps.

Lemma keeps_unbond_tokens source v x cur redel : keeps f (unbond_tokens params source v x cur redel).
Proof using All.
  unfold unbond_tokens, record_unbond, record_redelegated_unbond, update_total, update_total_redelegated. keeps_tac.
Qed.
Lemma keeps_withdraw_tokens source v cur : keeps f (withdraw_tokens native_token params source v cur).
Proof using All. unfold withdraw_tokens, remove_unbond. keeps_tac. Qed.
#[local] Hint Resolve keeps_unbond_tokens : keeps.
Lemma keeps_redelegate_tokens d v u cur x : keeps f (redelegate_tokens params d v u cur x).
Proof using All.
  unfold redelegate_tokens, not_chained, add_redelegated_bond, add_outgoing_redelegation, add_total_redelegated. keeps_tac.
Qed.
#[local] Hint Resolve keeps_bond_tokens keeps_withdraw_tokens keeps_redelegate_tokens : keeps.

Lemma keeps_run_op cur op : keeps f (run_op native_token params cur op).
Proof using All.
  destruct op; cbn [run_op]; unfold deactivate_validator, reactivate_validator, unjail_validator, change_validator_commission_rate,
    check_states, reinsert_validator, commission_get, commission_set; keeps_tac.
Qed.

Lemma slash_stakes_keeps l : keeps f (slash_stakes params l).
Proof using Hvsets.
  assert (Hst : ∀ v e, keeps f (state_at params v e)).
  { intros. unfold state_at. apply keeps_bind; [apply keeps_on_vsets|intros; apply keeps_lift]. }
  induction l as [|[v m] l IH]; [apply keeps_ret|]. cbn [slash_stakes]. apply keeps_bind.
  - induction (kvs m) as [|[e x] l' IH']; [apply keeps_ret|]. cbn [slash_sets]. apply keeps_bind; [apply Hst|]. intros st.
    destruct (jailed_or_inactive _); [exact IH'|]. apply keeps_bind; [apply keeps_lift|]. intros c.
    apply keeps_bind; [apply keeps_on_vsets|]. intros _. apply keeps_bind; [exact IH'|]. intros. apply keeps_ret.
  - intros evs. apply keeps_bind; [|intros _; apply keeps_bind; [exact IH|intros; apply keeps_ret]]. generalize 0 as acc.
    induction (kvs m) as [|[e x] l' IH']; intros acc; [apply keeps_ret|]. cbn [slash_deltas].
    repeat (apply keeps_bind; [apply keeps_lift|intros]). apply keeps_bind; [apply keeps_on_vsets|intros _].
    apply keeps_bind; [apply Hst|]. intros st. apply keeps_bind; [apply keeps_on_vsets|]. intros _. apply IH'.
Qed.

Lemma pos_step_keeps s s' : pos_step native_token params s s' → f s' = f s.
Proof using All. intros [cur op s1 s2 _ _ Hr]. exact (keeps_run f _ _ _ _ (keeps_run_op cur op) Hr). Qed.

(** Slashing besides writes the slashes. *)
Hypothesis (Hslashes : ∀ x s, f (put_slashes x s) = f s).

Lemma keeps_on_slashes {B} (m : stt SlashStore (PosError A) B) : keeps f (on_slashes m).
Proof using Hslashes. by apply keeps_zoom. Qed.
Lemma keeps_logged (m : stt PosStore (PosError A) unit) : keeps f m → keeps f (logged m).
Proof using Type. intros Hm s. specialize (Hm s). unfold logged. by destruct (m s). Qed.
#[local] Hint Resolve keeps_on_slashes slash_stakes_keeps : keeps.

Lemma keeps_slash cur ev h ty v vsu : keeps f (slash params cur ev h ty v vsu).
Proof using Hvsets Hslashes. unfold slash, enqueue. keeps_tac. Qed.
#[local] Hint Resolve keeps_slash keeps_logged : keeps.
Lemma keeps_evidence l pred_epochs cur vsu : keeps f (record_slashes_from_evidence params l pred_epochs cur vsu).
Proof using Hvsets Hslashes. unfold record_slashes_from_evidence, record_evidence. keeps_tac. Qed.
Lemma keeps_process_slashes cur : keeps f (process_slashes params cur).
Proof using Hvsets Hslashes. unfold process_slashes, push_slashes. keeps_tac. Qed.
End frames.

Lemma pos_step_slashes {AA : AddressApi} {I : InternalAddrs AA} {OA : CmpOrder Address} {KK : PosKeys AA}
    (native_token : Address) (params : PosParams) s s' : pos_step native_token params s s' → slashes s' = slashes s.
Proof. by apply pos_step_keeps. Qed.


(** ** A pending slash *)

Section pending.
Context {AA : AddressApi} {I : InternalAddrs AA} {OA : CmpOrder Address} {KK : PosKeys AA}.
Abbreviation A := Address.
Context (native_token : A) (params : PosParams).

(** The last slash of a validator only moves on. *)
Definition later (s s' : PosStore) : Prop :=
  ∀ v e, read_validator_last_slash_epoch v s = Some e → ∃ e', read_validator_last_slash_epoch v s' = Some e' ∧ e ≤ e'.

Lemma later_refl s : later s s.
Proof using Type. intros v e He. by exists e. Qed.
Lemma later_trans s1 s2 s3 : later s1 s2 → later s2 s3 → later s1 s3.
Proof using Type.
  intros H1 H2 v e He. destruct (H1 v e He) as (e' & He' & ?). destruct (H2 v e' He') as (e'' & ? & ?). exists e''. split; [done|lia].
Qed.
Lemma later_same s s' : last_slash_epoch (slashes s') = last_slash_epoch (slashes s) → later s s'.
Proof using Type. intros H v e He. exists e. unfold read_validator_last_slash_epoch in *. by rewrite H. Qed.

Lemma slash_later cur ev h ty v vsu s : later s (slash params cur ev h ty v vsu s).1.
Proof using Type.
  unfold slash, slash_offset, epoch_add. unfold mbind, stt_bind, lift, get. destruct (expect _) as [o| |]; [|apply later_refl..].
  destruct (ok_or _ _) as [pe| |]; [|apply later_refl..]. destruct (at_ _ v !! h); [apply later_refl|].
  set (s1 := (enqueue pe v h (mk_slash ev h ty 0) s).1). assert (E1 : enqueue pe v h (mk_slash ev h ty 0) s = (s1, Ok ())) by done.
  rewrite E1. assert (Hl : last_slash_epoch (slashes s1) = last_slash_epoch (slashes s)) by done.
  assert (∀ s2, later s1 s2 → later s (on_vsets (jail_validator params v cur vsu) s2).1) as Hj.
  { intros s2 H2. eapply later_trans; [by apply later_same|]. eapply later_trans; [exact H2|]. apply later_same.
    f_equal. by apply (keeps_on_vsets slashes). }
  assert (∀ e, read_validator_last_slash_epoch v s = Some e → e < ev ∨ ev ≤ e) as Hor by (intros; lia).
  destruct (read_validator_last_slash_epoch v s) as [e|] eqn:El.
  - destruct (Z.ltb_spec e ev); [|apply Hj, later_refl]. apply Hj. intros u x Hu. unfold read_validator_last_slash_epoch in *. cbn -[s1].
    destruct (decide (u = v)) as [->|]; [rewrite lookup_insert_eq|rewrite lookup_insert_ne by done; eauto with lia].
    exists ev. split; [done|]. rewrite Hl in Hu. assert (x = e) by congruence. lia.
  - apply Hj. intros u x Hu. unfold read_validator_last_slash_epoch in *. cbn -[s1].
    destruct (decide (u = v)) as [->|]; [congruence|]. rewrite lookup_insert_ne by done. eauto with lia.
Qed.

Lemma evidence_later l pe cur vsu s : later s (record_slashes_from_evidence params l pe cur vsu s).1.
Proof using Type.
  unfold record_slashes_from_evidence. revert s. induction l as [|ev l IH]; intros s; [apply later_refl|].
  cbn [for_each]. unfold mbind at 1, stt_bind at 1.
  assert (H : later s (record_evidence params pe cur vsu ev s).1).
  { unfold record_evidence, mbind, stt_bind, lift, get. destruct (expect _) as [[e|]| |]; try apply later_refl.
    destruct (slash_offset params) as [o| |]; try apply later_refl. destruct (epoch_add e o) as [e1| |]; try apply later_refl.
    destruct (arith _) as [e2| |]; try apply later_refl. destruct (e2 <=? cur); [apply later_refl|].
    destruct (match mb_kind ev with MisbehaviorUnknown => None | _ => _ end) as [ty|]; [|apply later_refl].
    destruct (_ !! _) as [v|]; [|apply later_refl]. unfold logged.
    pose proof (slash_later cur e (mb_height ev) ty v vsu s) as Hs. by destruct (slash _ _ _ _ _ _ _ s). }
  destruct (record_evidence _ _ _ _ _ s) as [s1 [[]| |]]; [|done..]. eapply later_trans; [exact H|apply IH].
Qed.

Lemma process_later cur s s' r : process_slashes params cur s = (s', Ok r) → later s s'.
Proof using Type.
  intros H. apply later_same. unfold process_slashes in H. pos_inv H. destruct (cur <? v); [by pos_inv H|]. pos_inv H.
  destruct (no_entries _); [by pos_inv H|]. pos_inv H. apply (keeps_run slashes) in H; [|by apply slash_stakes_keeps]. rewrite H.
  match goal with Hl : for_each push_slashes _ _ = _ |- _ =>
    apply (for_each_ok push_slashes (λ _ s2, last_slash_epoch (slashes s2) = last_slash_epoch (slashes s)) _ _ _ _ Hl); [done|] end.
  intros x l s2 s3 <- Hr. unfold push_slashes in Hr. by pos_inv Hr.
Qed.

(** What happens to the store: transactions, evidence and the processing of
    slashes. *)
Inductive staking_step : PosStore → PosStore → Prop :=
| by_transaction s s' : pos_step native_token params s s' → staking_step s s'
| by_evidence l pred_epochs cur vsu s s' : record_slashes_from_evidence params l pred_epochs cur vsu s = (s', Ok ()) → staking_step s s'
| by_processing cur s s' events : process_slashes params cur s = (s', Ok events) → staking_step s s'.

Lemma staking_step_keeps {X} (f : PosStore → X) s s' :
  (∀ x s, f (put_vsets x s) = f s) → (∀ x s, f (put_bonding x s) = f s) → (∀ x s, f (put_redelegation x s) = f s) →
  (∀ x s, f (put_rewards x s) = f s) → (∀ x s, f (put_tokens x s) = f s) →
  (∀ g s, f (put_validators (upd_commission_rate g (validators s)) s) = f s) → (∀ x s, f (put_slashes x s) = f s) →
  staking_step s s' → f s' = f s.
Proof using Type.
  intros ? ? ? ? ? ? ? [s1 s2 Hs|l pe cur vsu s1 s2 Hs|cur s1 s2 ev Hs].
  - by eapply pos_step_keeps.
  - by apply (keeps_run f) in Hs; [|apply keeps_evidence].
  - by apply (keeps_run f) in Hs; [|apply keeps_process_slashes].
Qed.

Lemma steps_later s s' : rtc staking_step s s' → later s s'.
Proof using Type.
  induction 1 as [s|s1 s2 s3 Hs _ IH]; [apply later_refl|]. eapply later_trans; [|exact IH].
  destruct Hs as [s s' Hs|l pe cur vsu s s' Hs|cur s s' ev Hs].
  - apply later_same. by rewrite (pos_step_slashes _ _ _ _ Hs).
  - pose proof (evidence_later l pe cur vsu s) as Hl. by rewrite Hs in Hl.
  - by eapply process_later.
Qed.

Lemma unbond_not_frozen source v amount cur redel s s' rs e o : amount ≠ 0 →
  unbond_tokens params source v amount cur redel s = (s', Ok rs) →
  read_validator_last_slash_epoch v s = Some e → slash_processing_epoch_offset (owned params) = Some o → e + o ≤ cur.
Proof using Type.
  intros Ha H He Ho. unfold unbond_tokens in H. destruct (Z.eqb_spec amount 0); [done|]. pos_inv H.
  match goal with H : check_source _ _ _ = _ |- _ => apply check_source_same in H as -> end.
  destruct (negb _); [by pos_inv H|]. pos_inv H.
  match goal with H : is_validator_frozen _ _ _ _ = _ |- _ => unfold is_validator_frozen in H; pos_inv H; rename H into Hf end.
  rewrite He in Hf. unfold slash_offset in Hf. rewrite Ho in Hf. pos_inv Hf.
  match goal with H : lift (expect (Some o)) _ = _ |- _ => apply stt_lift_ok in H as [-> [= <-]] | H : expect (Some o) = Ok _ |- _ => injection H as <- | _ => idtac end.
  match goal with H : epoch_add e _ = Ok _ |- _ => apply ok_or_ok, chk_Some in H as [-> _] end.
  match goal with H : (if ?b then _ else _) _ = _ |- _ => destruct b eqn:E; [by pos_inv H|] end. apply Z.ltb_ge in E. exact E.
Qed.

Lemma redelegate_not_frozen d v dest cur amount s s' u e o : amount ≠ 0 →
  redelegate_tokens params d v dest cur amount s = (s', Ok u) →
  read_validator_last_slash_epoch v s = Some e → slash_processing_epoch_offset (owned params) = Some o → e + o ≤ cur.
Proof using Type.
  intros Ha H He Ho. apply redelegate_tokens_inv in H as (_ & _ & rs & s1 & _ & _ & H & _); [|done]. by eapply unbond_not_frozen.
Qed.

Lemma unjail_not_frozen v cur s s' u e o : unjail_validator params v cur s = (s', Ok u) →
  read_validator_last_slash_epoch v s = Some e → slash_processing_epoch_offset (owned params) = Some o → e + o ≤ cur.
Proof using Type.
  intros H He Ho. unfold unjail_validator in H. apply stt_bind_ok in H as (s0 & len & H0 & H). apply stt_lift_ok in H0 as [-> _].
  apply stt_bind_ok in H as (s1 & x & H1 & H). assert (read_validator_last_slash_epoch v s1 = Some e) as He1.
  { rewrite <-He. refine (keeps_run (read_validator_last_slash_epoch v) _ _ _ _ _ H1). unfold check_states. keeps_tac. }
  apply stt_bind_ok in H as (s2 & s2' & H2 & H). apply stt_get_ok in H2 as [-> ->]. rewrite He1 in H.
  apply stt_bind_ok in H as (s3 & y & H3 & _). unfold slash_offset in H3. rewrite Ho in H3. pos_inv H3. res_inv Hrun. injection Hrun as <-.
  apply ok_or_ok, chk_Some in Hrun0 as [-> _]. destruct (Z.ltb_spec cur (e + o)); [by pos_inv H3|done].
Qed.
End pending.

(** ** Bounds on what is slashed *)

Section bounds.
Context {AA : AddressApi} {I : InternalAddrs AA} {OA : CmpOrder Address} {KK : PosKeys AA}.
Abbreviation A := Address.
Context (params : PosParams).

Lemma arith_add_ok a b x : arith (A:=A) (ZAmount.add a b) = Ok x → x = a + b ∧ 0 ≤ a + b < 2 ^ 256.
Proof using Type. intros H. by apply ok_or_ok, chk_Some in H. Qed.

Lemma bond_at_epoch_le slashes_of v e start a rb x :
  compute_bond_at_epoch (A:=A) (owned params) slashes_of v e start a rb = Ok x → 0 ≤ a →
  (∀ t, rb = Some t → tokens_nonneg t) → 0 ≤ x ≤ a.
Proof using Type.
  intros Hr Ha Hrb. unfold compute_bond_at_epoch in Hr. res_inv Hr. unfold arith, ZAmount.sub, ZAmount.add in *.
  apply ok_or_ok, chk_Some in Hr as [-> _]. apply ok_or_ok, chk_Some in Hres1 as [-> ?]. apply apply_le in Hres2; [|lia].
  assert (0 ≤ total_after_slashing v1 ≤ total_redelegated v1).
  { destruct rb as [t|]; [eapply fold_le; [exact Hres0|by apply Hrb]|]. injection Hres0 as <-. cbn. lia. }
  lia.
Qed.

Lemma slash_bond_le slashes_of v e infr start a rb rate x :
  compute_slash_bond_at_epoch (A:=A) (owned params) slashes_of v e infr start a rb rate = Ok x → 0 ≤ a →
  (∀ t, rb = Some t → tokens_nonneg t) → 0 ≤ x ≤ a.
Proof using Type.
  intros Hr Ha Hrb. unfold compute_slash_bond_at_epoch in Hr. res_inv Hr. unfold arith in *. apply ok_or_ok, mul_ceil_nonneg in Hres0.
  apply bond_at_epoch_le in Hres1; [|done..]. lia.
Qed.

Definition parts_nonneg (m : gmap Z (gmap A (gmap Z Z))) : Prop := map_Forall (λ _, tokens_nonneg) m.

Lemma with_entries_nonneg (m : gmap A (gmap Z Z)) : tokens_nonneg m → tokens_nonneg (with_entries m).
Proof using Type. intros Hm u x [Hx _]%map_lookup_filter_Some. by apply (Hm u x). Qed.

Lemma redelegated_parts_nonneg has tokens_of bonds : (∀ ep, tokens_nonneg (tokens_of ep)) →
  parts_nonneg (redelegated_parts (AA:=AA) has tokens_of bonds).
Proof using Type.
  intros Ht ep m Hm. unfold redelegated_parts in Hm. apply elem_of_list_to_map_2, list_elem_of_fmap in Hm as (e & [= -> ->] & _).
  apply with_entries_nonneg, Ht.
Qed.

Lemma at_tokens_nonneg (m : gmap Z (gmap A (gmap Z Z))) ep : parts_nonneg m → tokens_nonneg (at_ m ep).
Proof using Type. intros Hm. unfold at_. destruct (m !! ep) as [x|] eqn:E; cbn; [by apply (Hm ep x)|apply map_Forall_empty]. Qed.

Section loop.
Context (v : A) (rate infr : Z) (s : PosStore).

(** What is unbonded at an epoch from bonds that started by the infraction. *)
Definition unbonded_before (e : Z) : Z := amounts_total (filter (λ x, x.1 ≤ infr) (at_ (total_unbonded_handle v s) e)).

Definition unbonds_typed : Prop :=
  (∀ e, amounts_nonneg (at_ (total_unbonded_handle v s) e)) ∧
  (∀ e, parts_nonneg (at_ (validator_total_redelegated_unbonded_handle v s) e)).

Definition acc_typed (acc : SlashAcc) : Prop :=
  0 ≤ slash_sum acc ∧ amounts_nonneg (tot_bonds acc) ∧ parts_nonneg (redelegated_bonds acc).

Lemma filter_nonneg (P : Z * Z → Prop) `{∀ x, Decision (P x)} (m : gmap Z Z) : amounts_nonneg m → amounts_nonneg (filter P m).
Proof using Type. intros Hm k a [Ha _]%map_lookup_filter_Some. by apply (Hm k a). Qed.

Lemma slash_step_ok acc acc' e : unbonds_typed → acc_typed acc →
  slash_validator_step params v rate infr s acc e = Ok acc' →
  acc_typed acc' ∧ amounts_total (tot_bonds acc') = unbonded_before e ∧
  slash_sum acc ≤ slash_sum acc' ≤ slash_sum acc + amounts_total (tot_bonds acc) ∧
  slashed_amounts acc' = <[e := default 0 (slashed_amounts acc !! e) + slash_sum acc']> (slashed_amounts acc).
Proof using Type.
  intros [Hu Hru] (Hs & Hb & Hr) H. unfold slash_validator_step in H. res_inv H.
  apply arith_add_ok in Hres0 as [-> ?]. apply bump_ok in Hres1 as ->.
  assert (Hv : 0 ≤ v0 ≤ amounts_total (tot_bonds acc)).
  { destruct (try_fold_ok _ (λ l x, Forall (λ y : Z * Z, 0 ≤ y.2) l ∧ 0 ≤ x ∧ x + zsum snd l ≤ amounts_total (tot_bonds acc)) _ _ _ Hres)
      as (_ & H1 & H2); [| |cbn in H2; lia].
    - split; [by apply kvs_nonneg|]. unfold amounts_total. lia.
    - clear Hres. intros [st a] l x x' ([Ha Hl]%Forall_cons & H1 & H2) Hx. cbn [snd] in Ha. split; [done|]. rewrite zsum_cons in H2. cbn [snd] in H2.
      res_inv Hx. apply slash_bond_le in Hres; [|done|]; cycle 1.
      { intros t Ht. by apply (Hr st t). }
      apply arith_add_ok in Hx as [-> _]. lia. }
  cbn. split; [|split; [done|]].
  - split; [cbn; lia|]. split; [by apply filter_nonneg|]. apply redelegated_parts_nonneg. intros ep. by apply at_tokens_nonneg.
  - split; [lia|done].
Qed.

Lemma reverse_seqZ_S cur k : reverse (seqZ cur (Z.of_nat (S k))) = cur + Z.of_nat k :: reverse (seqZ cur (Z.of_nat k)).
Proof using Type.
  replace (Z.of_nat (S k)) with (Z.of_nat k + 1) by lia. rewrite seqZ_app by lia. rewrite reverse_app. f_equal.
Qed.

(** The sum of what is slashed in an epoch only grows towards the earlier epochs,
    by what was unbonded in between. *)
Lemma slash_loop_ok cur (k : nat) acc r : unbonds_typed → acc_typed acc →
  try_fold (slash_validator_step params v rate infr s) acc (reverse (seqZ cur (Z.of_nat k))) = Ok r →
  ∃ S : Z → Z,
    (∀ e, cur ≤ e < cur + Z.of_nat k → slashed_amounts r !! e = Some (default 0 (slashed_amounts acc !! e) + S e) ∧
       slash_sum acc ≤ S e ≤ slash_sum acc + amounts_total (tot_bonds acc) + zsum unbonded_before (seqZ (e + 1) (cur + Z.of_nat k - 1 - e))) ∧
    (∀ e e', cur ≤ e → e ≤ e' → e' < cur + Z.of_nat k → S e' ≤ S e) ∧
    (∀ e, ¬ (cur ≤ e < cur + Z.of_nat k) → slashed_amounts r !! e = slashed_amounts acc !! e).
Proof using Type.
  intros Hu. revert acc. induction k as [|k IH]; intros acc Hacc H.
  - injection H as <-. exists (λ _, 0). split; [intros e He; lia|]. split; [intros e e' ? ? ?; lia|done].
  - rewrite reverse_seqZ_S in H. cbn [try_fold] in H. apply res_bind_ok in H as (acc1 & H1 & H2).
    apply slash_step_ok in H1 as (Hacc1 & Ht & Hs & Ha); [|done..]. destruct (IH acc1 Hacc1 H2) as (S & HS & Hm & Ho).
    set (last := cur + Z.of_nat k) in *. rewrite Ha in HS, Ho.
    assert (Hlast : slashed_amounts r !! last = Some (default 0 (slashed_amounts acc !! last) + slash_sum acc1)).
    { rewrite Ho by lia. by rewrite lookup_insert_eq. }
    exists (λ e, if decide (e = last) then slash_sum acc1 else S e). split; [|split].
    + intros e He. destruct (decide (e = last)) as [->|].
      * split; [done|]. rewrite seqZ_nil by lia. change (zsum unbonded_before []) with 0. lia.
      * destruct (HS e ltac:(lia)) as [E1 E2]. rewrite lookup_insert_ne in E1 by lia. split; [done|].
        replace (cur + Z.of_nat (Datatypes.S k) - 1 - e) with ((last - 1 - e) + 1) by lia. rewrite seqZ_app, zsum_app by lia.
        replace (e + 1 + (last - 1 - e)) with last by lia. rewrite (seqZ_cons last 1), zsum_cons, (seqZ_nil _ (Z.pred 1)) by lia.
        change (zsum unbonded_before []) with 0. lia.
    + intros e e' H3 H4 H5. destruct (decide (e' = last)), (decide (e = last)); try lia.
      * destruct (HS e ltac:(lia)). lia.
      * apply Hm; lia.
    + intros e He. rewrite Ho by lia. by rewrite lookup_insert_ne by lia.
Qed.
End loop.
End bounds.

(** ** Examples *)

Definition with_pipeline_len (len : Z) (q : OwnedPosParams) : OwnedPosParams :=
  mk_owned (max_validator_slots q) len (unbonding_len q) (tm_votes_per_token q) (block_proposer_reward q) (block_vote_reward q)
    (max_inflation_rate q) (target_staked_ratio q) (duplicate_vote_min_slash_rate q) (light_client_attack_min_slash_rate q)
    (cubic_slashing_window_length q) (validator_stake_threshold q) (liveness_window_check q) (liveness_threshold q)
    (rewards_gain_p q) (rewards_gain_d q).
(** The default parameters with a pipeline of three epochs. *)
Definition long_pipeline : PosParams := mk_params (with_pipeline_len 3 owned_default) 10.

(** Validators 11 and 13 without stake and delegator 12 with tokens. *)
Definition two_validators : PosStore (AA:=addr_ref) :=
  let below := mk_epoched (Some 0) (Some 0) {[0 := BelowThreshold]} in
  let none := mk_epoched (Some 0) (Some 0) {[0 := 0]} in
  mk_store
    (mk_vsets epoched_open epoched_open epoched_open epoched_open {[11%N := below; 13%N := below]} {[11%N := none; 13%N := none]}
       epoched_open epoched_open (mk_epoched (Some 0) (Some 0) {[0 := 100000000]}))
    (mk_bonding ∅ ∅ ∅ ∅ ∅) (mk_redelegation ∅ ∅ ∅ ∅ ∅ ∅) (mk_slashes ∅ epoched_open ∅) (mk_rewards ∅ ∅ ∅ ∅ None None None)
    (mk_validators {[11%N := 10000000000; 13%N := 10000000000]} ∅ ∅ ∅ ∅ ∅ ∅ ∅ ∅ ∅ ∅) (<[bkey 20%N 12%N := VAmount 5000000]> ∅).

(** The delegator bonds to 11 and redelegates to 13 in epoch 5; evidence of a
    misbehaviour of 11 in that epoch follows; in epoch 27 the delegator unbonds a
    part from 13. *)
Definition redelegation_run (params : PosParams) : stt (PosStore (AA:=addr_ref)) (PosError N) unit :=
  _ ← bond_tokens (AA:=addr_ref) 20%N params (Some 12%N) 11%N 900000 1 None;
  _ ← redelegate_tokens (AA:=addr_ref) params 12%N 11%N 13%N 5 900000;
  _ ← slash (AA:=addr_ref) params 6 5 77 DuplicateVote 11%N 7;
  _ ← unbond_tokens (AA:=addr_ref) params (Some 12%N) 13%N 600000 27 false;
  mret ().

Definition is_ok {E B} (r : res E B) : bool := match r with Ok _ => true | _ => false end.
Lemma ok_ex {E B} (r : res E B) : is_ok r = true → ∃ b, r = Ok b.
Proof. destruct r; [eauto|done..]. Qed.

Lemma run_ex {S E B} (m : stt S E B) (s : S) : is_ok (m s).2 = true → ∃ s' b, m s = (s', Ok b).
Proof. destruct (m s) as [s' [b| |]]; [eauto|done..]. Qed.

(** * Properties *)

(** C27. What the slash of a validator takes.  In every epoch from the current one
    to the pipeline the slashed amount grows by what is taken there: never less
    than nothing and never more than the bonds from before the infraction with
    what was unbonded from them after that epoch; an earlier epoch never has less
    taken than a later one; the pipeline epoch repeats the one before it, and no
    other epoch is touched. *)
Theorem slash_validator_bounded {AA : AddressApi} {I : InternalAddrs AA} {OA : CmpOrder Address} {KK : PosKeys AA}
    (params : PosParams) (v : Address) (rate cur o : Z) (m m' : gmap Z Z) (s : PosStore) :
  let len := pipeline_len (owned params) in
  let bonds := filter (λ x : Z * Z, x.1 ≤ cur - o ∧ 0 < x.2) (data (total_bonded_handle v s)) in
  slash_processing_epoch_offset (owned params) = Some o → 0 ≤ len → unbonds_typed v s →
  parts_nonneg (validator_total_redelegated_bonded_handle v s) →
  slash_validator params v rate cur m s = Ok m' →
  ∃ S : Z → Z,
    (∀ e, cur ≤ e < cur + len → m' !! e = Some (default 0 (m !! e) + S e) ∧
       0 ≤ S e ≤ amounts_total bonds + zsum (unbonded_before v (cur - o) s) (seqZ (e + 1) (cur + len - 1 - e))) ∧
    (∀ e e', cur ≤ e → e ≤ e' → e' < cur + len → S e' ≤ S e) ∧
    m' !! (cur + len) = m' !! (cur + len - 1) ∧
    ∀ e, ¬ (cur ≤ e ≤ cur + len) → m' !! e = m !! e.
Proof.
  intros len bonds Ho Hlen Hu Hp H. unfold slash_validator, slash_offset in H. rewrite Ho in H. res_inv H.
  injection Hres as <-. apply ok_or_ok, chk_Some in Hres0 as [-> Hinf]. unfold epoch_add in Hres2. apply ok_or_ok, chk_Some in Hres2 as [-> Hpe].
  apply chk_Some in Hres3 as [-> Hprev]. fold len in Hres1, Hpe, Hprev, Hres4 |- *.
  unfold EpochM.iter_range in Hres1. rewrite chk_in in Hres1 by lia. cbn [default] in Hres1. unfold id in Hres1.
  replace (cur + len - cur) with (Z.of_nat (Z.to_nat len)) in Hres1 by lia.
  apply slash_loop_ok in Hres1 as (S & HS & Hm & Hout); [|done|]; cycle 1.
  { split; [done|]. split; [|by apply redelegated_parts_nonneg; intros ep; apply at_tokens_nonneg].
    intros k a [_ [_ Ha]]%map_lookup_filter_Some. cbn in *. lia. }
  rewrite Z2Nat.id in * by lia. cbn [slash_sum tot_bonds slashed_amounts] in *. exists S. split; [|split; [done|split]].
  - intros e He. rewrite lookup_insert_ne by lia. destruct (HS e He) as [E1 E2]. split; [done|]. subst bonds. lia.
  - rewrite lookup_insert_eq, lookup_insert_ne by lia. done.
  - intros e He. rewrite lookup_insert_ne by lia. apply Hout. lia.
Qed.

Definition slash_example : PosStore (AA:=addr_ref) :=
  put_bonding (mk_bonding ∅ {[11%N := mk_epoched (Some 3) (Some 0) {[3 := 3000]}]} ∅ {[11%N := {[29 := {[3 := 400]}]}]} ∅) two_validators.

Lemma slash_validator_bounded_witness : ∃ m', slash_validator (AA:=addr_ref) example_params 11%N 100000000000 28 ∅ slash_example = Ok m' ∧
  (∃ x, m' !! 29 = Some x ∧ 0 ≤ x ≤ 3000) ∧ m' !! 30 = m' !! 29.
Proof.
  destruct (ok_ex (slash_validator (AA:=addr_ref) example_params 11%N 100000000000 28 ∅ slash_example)) as [m' Hm]; [vm_compute; reflexivity|].
  exists m'. split; [exact Hm|].
  assert (Hu : unbonds_typed (AA:=addr_ref) 11%N slash_example).
  { assert (∀ m : gmap Z (gmap Z Z), map_Forall (λ _, amounts_nonneg) m → ∀ e, amounts_nonneg (at_ m e)) as Hat.
    { intros m H e. unfold at_. destruct (m !! e) as [x|] eqn:E; cbn; [by apply (H e x)|apply map_Forall_empty]. }
    split; [|intros e; replace (at_ _ e) with (∅ : gmap Z (gmap N (gmap Z Z))) by done; apply map_Forall_empty].
    apply Hat. unfold amounts_nonneg. apply (bool_decide_unpack _). vm_compute. exact I. }
  destruct (slash_validator_bounded (AA:=addr_ref) example_params 11%N 100000000000 28 23 ∅ m' slash_example eq_refl
    ltac:(vm_compute; discriminate) Hu ltac:(apply map_Forall_empty) Hm) as (S & HS & _ & Hp & _).
  split; [|exact Hp]. destruct (HS 29 ltac:(cbn; lia)) as [E1 E2]. rewrite lookup_empty in E1. exists (S 29). split; [exact E1|].
  replace (amounts_total _ + _) with 3000 in E2 by (vm_compute; reflexivity). exact E2.
Defined.

(** C12. A pending slash freezes its validator.  After new evidence against a validator
    is recorded, whatever transactions, further evidence and processing of slashes
    follow, no tokens are unbonded or redelegated from the validator, and it is not
    unjailed, before the epoch in which its slash is processed. *)
Theorem pending_slash_freezes {AA : AddressApi} {I : InternalAddrs AA} {OA : CmpOrder Address} {KK : PosKeys AA}
    (native_token : Address) (params : PosParams) (cur ev h vsu o : Z) (ty : SlashType) (v : Address) (s s1 s2 : PosStore) :
  slash_processing_epoch_offset (owned params) = Some o →
  at_ (enqueued_at (ev + o) s) v !! h = None →
  slash params cur ev h ty v vsu s = (s1, Ok ()) →
  rtc (staking_step native_token params) s1 s2 →
  (∀ source amount cur' redel s3 rs, amount ≠ 0 → unbond_tokens params source v amount cur' redel s2 = (s3, Ok rs) → ev + o ≤ cur') ∧
  (∀ delegator dest amount cur' s3, amount ≠ 0 → redelegate_tokens params delegator v dest cur' amount s2 = (s3, Ok ()) → ev + o ≤ cur') ∧
  (∀ cur' s3, unjail_validator params v cur' s2 = (s3, Ok ()) → ev + o ≤ cur').
Proof.
  intros Ho Hnew Hs Hr. assert (∃ e, read_validator_last_slash_epoch v s1 = Some e ∧ ev ≤ e) as (e & He & Hle).
  { unfold slash, slash_offset in Hs. rewrite Ho in Hs. pos_inv Hs. injection Hrun as <-.
    apply ok_or_ok, chk_Some in Hrun0 as [-> _]. rewrite Hnew in Hs. unfold enqueue in Hs. pos_inv Hs.
    unfold read_validator_last_slash_epoch in *. destruct (last_slash_epoch (slashes s) !! v) as [e|] eqn:E.
    - destruct (Z.ltb_spec e ev); pos_inv Hrun; cbn; [rewrite lookup_insert_eq|rewrite E]; eauto with lia.
    - pos_inv Hrun. cbn. rewrite lookup_insert_eq. eauto with lia. }
  destruct (steps_later native_token params _ _ Hr v e He) as (e' & He' & ?). split_and!.
  - intros source amount cur' redel s3 rs Ha Hu. pose proof (unbond_not_frozen params _ _ _ _ _ _ _ _ _ _ Ha Hu He' Ho). lia.
  - intros d dest amount cur' s3 Ha Hu. pose proof (redelegate_not_frozen params _ _ _ _ _ _ _ _ _ _ Ha Hu He' Ho). lia.
  - intros cur' s3 Hu. pose proof (unjail_not_frozen params _ _ _ _ _ _ _ Hu He' Ho). lia.
Qed.

Lemma pending_slash_freezes_witness : ∃ s1 s2 s3 rs,
  bond_tokens (AA:=addr_ref) 20%N example_params (Some 12%N) 11%N 900000 1 None two_validators = (s1, Ok ()) ∧
  slash (AA:=addr_ref) example_params 6 5 77 DuplicateVote 11%N 7 s1 = (s2, Ok ()) ∧
  unbond_tokens (AA:=addr_ref) example_params (Some 12%N) 11%N 1000 28 false s2 = (s3, Ok rs) ∧ 5 + 23 ≤ 28.
Proof.
  set (m1 := bond_tokens (AA:=addr_ref) 20%N example_params (Some 12%N) 11%N 900000 1 None).
  set (m2 := slash (AA:=addr_ref) example_params 6 5 77 DuplicateVote 11%N 7).
  set (m3 := unbond_tokens (AA:=addr_ref) example_params (Some 12%N) 11%N 1000 28 false).
  assert (∃ s1 s2 s3 rs, m1 two_validators = (s1, Ok ()) ∧ m2 s1 = (s2, Ok ()) ∧ m3 s2 = (s3, Ok rs) ∧
    at_ (enqueued_at (AA:=addr_ref) 28 s1) 11%N !! 77 = None) as (s1 & s2 & s3 & rs & H1 & H2 & H3 & H4).
  { destruct (run_ex m1 two_validators) as (s1 & [] & H1); [vm_compute; reflexivity|].
    assert (H2 : is_ok (m2 (m1 two_validators).1).2 = true) by (vm_compute; reflexivity).
    assert (H3 : is_ok (m3 (m2 (m1 two_validators).1).1).2 = true) by (vm_compute; reflexivity).
    assert (H4 : at_ (enqueued_at (AA:=addr_ref) 28 (m1 two_validators).1) 11%N !! 77 = None) by (vm_compute; reflexivity).
    rewrite H1 in H2, H3, H4. cbn [fst] in H2, H3, H4. apply run_ex in H2 as (s2 & [] & H2). rewrite H2 in H3. cbn [fst] in H3.
    apply run_ex in H3 as (s3 & rs & H3). exists s1, s2, s3, rs. auto. }
  exists s1, s2, s3, rs. split; [exact H1|]. split; [exact H2|]. split; [exact H3|].
  destruct (pending_slash_freezes (AA:=addr_ref) 20%N example_params 6 5 77 7 23 DuplicateVote 11%N s1 s2 s2) as (Hu & _);
    [vm_compute; reflexivity|exact H4|exact H2|apply rtc_refl|].
  refine (Hu (Some 12%N) 1000 28 false s3 rs _ H3). discriminate.
Defined.

(** Recording evidence.  Evidence for a height at which a slash is already
    enqueued changes nothing.  Otherwise exactly one slash, with no rate yet, is
    enqueued for the epoch in which it will be processed, the validator's last
    slash moves on, and only the validator sets change besides.  In both cases the
    same evidence again changes nothing. *)
Theorem slash_recorded_once {AA : AddressApi} {I : InternalAddrs AA} {OA : CmpOrder Address} {KK : PosKeys AA}
    (params : PosParams) (cur ev h vsu o : Z) (ty : SlashType) (v : Address) (s s' : PosStore) :
  slash_processing_epoch_offset (owned params) = Some o →
  slash params cur ev h ty v vsu s = (s', Ok ()) →
  (if at_ (enqueued_at (ev + o) s) v !! h is Some _ then s' = s
   else
     (∀ pe u k, at_ (enqueued_at pe s') u !! k =
        if decide (pe = ev + o ∧ u = v ∧ k = h) then Some (mk_slash ev h ty 0) else at_ (enqueued_at pe s) u !! k) ∧
     (∀ u, read_validator_last_slash_epoch u s' =
        if decide (u = v) then Some (Z.max ev (default ev (read_validator_last_slash_epoch v s)))
        else read_validator_last_slash_epoch u s) ∧
     validator_slashes (slashes s') = validator_slashes (slashes s) ∧
     jail_validator params v cur vsu (vsets s) = (vsets s', Ok ()) ∧
     bonding s' = bonding s ∧ redelegation s' = redelegation s ∧ rewards s' = rewards s ∧ validators s' = validators s ∧
     tokens s' = tokens s) ∧
  ∀ cur' vsu', slash params cur' ev h ty v vsu' s' = (s', Ok ()).
Proof.
  intros Ho Hs. unfold slash, slash_offset in Hs. rewrite Ho in Hs. pos_inv Hs. injection Hrun as <-.
  pose proof Hrun0 as Hpe. apply ok_or_ok, chk_Some in Hrun0 as [-> Hr].
  assert (Hagain : is_Some (at_ (enqueued_at (ev + o) s') v !! h) → ∀ cur' vsu', slash params cur' ev h ty v vsu' s' = (s', Ok ())).
  { intros [x Hx] cur' vsu'. unfold slash, slash_offset. rewrite Ho. unfold mbind, stt_bind, lift, get. cbn [expect]. rewrite Hpe.
    by rewrite Hx. }
  destruct (at_ (enqueued_at (ev + o) s) v !! h) as [x|] eqn:Hx.
  { pos_inv Hs. split; [done|]. apply Hagain. by rewrite Hx. }
  unfold enqueue in Hs. pos_inv Hs.
  set (s1 := put_slashes (upd_enqueued_slashes (upd_at (ev + o) (λ m, <[v:=<[h:=mk_slash ev h ty 0]> (at_ m v)]> m)) (slashes s)) s) in *.
  set (last := Z.max ev (default ev (read_validator_last_slash_epoch v s))).
  assert (st = put_slashes (upd_last_slash_epoch (<[v := last]>) (slashes s1)) s1) as ->.
  { unfold last, read_validator_last_slash_epoch in *. destruct (last_slash_epoch (slashes s) !! v) as [e|] eqn:El.
    - destruct (Z.ltb_spec e ev); pos_inv Hrun; [cbn [default]; unfold id; by rewrite Z.max_l by lia|].
      cbn [default]. unfold id. rewrite Z.max_r by lia. unfold upd_last_slash_epoch. rewrite insert_id by done. done.
    - pos_inv Hrun. cbn [default]. by rewrite Z.max_id. }
  assert (Hq : ∀ pe u k, at_ (enqueued_at pe s1) u !! k =
    if decide (pe = ev + o ∧ u = v ∧ k = h) then Some (mk_slash ev h ty 0) else at_ (enqueued_at pe s) u !! k).
  { intros pe u k. unfold enqueued_at, s1, upd_at, with_data. cbn [slashes put_slashes enqueued_slashes upd_enqueued_slashes data].
    rewrite at_insert. destruct (decide (pe = ev + o)) as [->|]; [|by rewrite decide_False by naive_solver].
    rewrite at_insert. destruct (decide (u = v)) as [->|]; [|by rewrite decide_False by naive_solver].
    destruct (decide (k = h)) as [->|]; [rewrite lookup_insert_eq|rewrite lookup_insert_ne by done];
      [by rewrite decide_True|by rewrite decide_False by naive_solver]. }
  split; [|apply Hagain; exists (mk_slash ev h ty 0); transitivity (at_ (enqueued_at (ev + o) s1) v !! h); [done|]; rewrite Hq; by rewrite decide_True].
  split; [exact Hq|]. split; [|done]. intros u. unfold read_validator_last_slash_epoch. cbn. rewrite lookup_insert.
  case_decide as Hd; subst; by rewrite ?decide_True, ?decide_False by done.
Qed.

Lemma slash_recorded_once_witness : ∃ s', slash (AA:=addr_ref) example_params 6 5 77 DuplicateVote 11%N 7 two_validators = (s', Ok ()) ∧
  at_ (enqueued_at (AA:=addr_ref) 28 s') 11%N !! 77 = Some (mk_slash 5 77 DuplicateVote 0) ∧
  slash (AA:=addr_ref) example_params 8 5 77 DuplicateVote 11%N 9 s' = (s', Ok ()).
Proof.
  destruct (run_ex (slash (AA:=addr_ref) example_params 6 5 77 DuplicateVote 11%N 7) two_validators) as (s' & [] & Hs); [vm_compute; reflexivity|].
  exists s'. split; [exact Hs|].
  destruct (slash_recorded_once (AA:=addr_ref) example_params 6 5 77 7 23 DuplicateVote 11%N two_validators s' eq_refl Hs) as [H1 H2].
  split; [|apply H2]. destruct H1 as [Hq _]. specialize (Hq 28 11%N 77). rewrite decide_True in Hq by done. exact Hq.
Defined.

(** What [process_slashes] writes to the slashes of validators. *)
Lemma process_slashes_inv {AA : AddressApi} {I : InternalAddrs AA} {OA : CmpOrder Address} {KK : PosKeys AA}
    (params : PosParams) (cur o : Z) (s s' : PosStore) events :
  slash_processing_epoch_offset (owned params) = Some o → o ≤ cur → no_entries (enqueued_at cur s) = false →
  process_slashes params cur s = (s', Ok events) →
  ∃ cubic eager s1, compute_cubic_slash_rate params (cur - o) s = Ok cubic ∧
    rated_slashes params cubic (enqueued_at cur s) = Ok eager ∧
    validator_slashes (slashes s1) = validator_slashes (slashes s) ∧
    ∃ s2, for_each push_slashes eager s1 = (s2, Ok ()) ∧ slashes s' = slashes s2.
Proof.
  intros Ho Hle Hn H. unfold process_slashes, slash_offset in H. rewrite Ho in H. pos_inv H. injection Hrun as <-.
  destruct (Z.ltb_spec cur o); [lia|]. pos_inv H. apply ok_or_ok, chk_Some in Hrun as [-> _]. rewrite Hn in H. pos_inv H.
  match goal with u : unit |- _ => destruct u end.
  apply (keeps_run slashes) in H; [|by apply slash_stakes_keeps]. eexists _, _, _. split; [eassumption|]. split; [eassumption|].
  split; [|eexists; split; [eassumption|done]]. done.
Qed.

Lemma rated_slashes_ok {AA : AddressApi} {OA : CmpOrder Address} (params : PosParams) cubic (enq : gmap Address (gmap Z Slash)) eager :
  rated_slashes params cubic enq = Ok eager →
  ((λ x, (x.1, x.2.1)) <$> eager) = (λ x, (x.1, (λ y, with_rate params cubic y.2) <$> kvs x.2)) <$> kvs (filter (λ x, x.2 ≠ ∅) enq).
Proof.
  intros H. unfold rated_slashes in H. set (F := λ x : Address * gmap Z Slash, (x.1, (λ y, with_rate params cubic y.2) <$> kvs x.2)).
  set (L := kvs _) in *.
  destruct (try_fold_ok _ (λ l acc, ∃ dn, L = dn ++ l ∧ ((λ x, (x.1, x.2.1)) <$> acc) = F <$> dn) _ _ _ H) as (dn & Hdn & Hacc).
  - by exists [].
  - clear H. intros x l acc acc' (dn & Hdn & Hacc) Hx. res_inv Hx. exists (dn ++ [x]). rewrite <-app_assoc, !fmap_app, Hacc. done.
  - by rewrite Hacc, Hdn, app_nil_r.
Qed.

Lemma push_all_ok {AA : AddressApi} {I : InternalAddrs AA} {OA : CmpOrder Address} {KK : PosKeys AA}
    (eager : list (Address * (list Slash * Z))) (s s' : PosStore) : for_each push_slashes eager s = (s', Ok ()) →
  ∀ v, find_validator_slashes v s' = find_validator_slashes v s ++ (eager ≫= λ x, if decide (x.1 = v) then x.2.1 else []).
Proof.
  intros H v. pose proof (for_each_ok push_slashes (λ l s2,
      find_validator_slashes v s2 ++ (l ≫= λ x, if decide (x.1 = v) then x.2.1 else []) =
      find_validator_slashes v s ++ (eager ≫= λ x, if decide (x.1 = v) then x.2.1 else [])) _ _ _ _ H) as Hr.
  cbn beta in Hr. rewrite <-Hr; [cbn; by rewrite app_nil_r|done|]. clear H Hr.
  intros x l s2 s3 <- Hr. unfold push_slashes in Hr. pos_inv Hr. rewrite bind_cons, app_assoc. f_equal.
  unfold find_validator_slashes. cbn. destruct (decide (x.1 = v)) as [->|]; [by rewrite lookup_insert_eq|].
  by rewrite lookup_insert_ne, app_nil_r.
Qed.

(** The entries of one key in the list of a map. *)
Lemma kvs_bind_at {V W} `{OA : CmpOrder A} `{Countable A} (m : gmap A (gmap Z V)) (f : gmap Z V → list W) v : f ∅ = [] →
  (kvs (filter (λ x, x.2 ≠ ∅) m) ≫= λ x, if decide (x.1 = v) then f x.2 else []) = f (at_ m v).
Proof.
  intros Hf. set (m' := filter _ m). assert (f (at_ m v) = f (at_ m' v)) as ->.
  { unfold at_. destruct (m !! v) as [x|] eqn:E.
    - destruct (decide (x = ∅)) as [->|Hx].
      + assert (m' !! v = None) as -> by (apply map_lookup_filter_None; right; intros y Hy Hn; cbn in Hn; congruence). done.
      + assert (m' !! v = Some x) as -> by (by apply map_lookup_filter_Some). done.
    - assert (m' !! v = None) as -> by (apply map_lookup_filter_None; by left). done. }
  assert (Hl : ∀ l : list (A * gmap Z V), NoDup l.*1 → (l ≫= λ x, if decide (x.1 = v) then f x.2 else []) =
    f (default ∅ ((list_to_map l : gmap A (gmap Z V)) !! v))).
  { induction l as [|[k x] l IH]; intros Hnd; [by cbn; rewrite lookup_empty|]. rewrite bind_cons. cbn [fst snd list_to_map foldr].
    apply NoDup_cons in Hnd as [Hk Hnd]. destruct (decide (k = v)) as [->|Hne].
    - change (foldr _ ∅ l) with (list_to_map l : gmap A (gmap Z V)). rewrite lookup_insert_eq. rewrite IH by done.
      rewrite not_elem_of_list_to_map_1 by done. cbn [default]. rewrite Hf. by rewrite app_nil_r.
    - rewrite lookup_insert_ne by done. by apply IH. }
  rewrite Hl by apply kvs_NoDup. unfold at_. f_equal. f_equal. f_equal. by rewrite kvs_to_map.
Qed.

(** The slashes that are due are recorded: each validator's processed slashes
    grow by exactly those enqueued for it at the epoch, in the order of their
    heights, with the rate of the epoch: at least the minimum of their type and
    never more than everything. *)
Theorem process_slashes_records {AA : AddressApi} {I : InternalAddrs AA} {OA : CmpOrder Address} {KK : PosKeys AA}
    (params : PosParams) (cur o : Z) (s s' : PosStore) events :
  slash_processing_epoch_offset (owned params) = Some o → o ≤ cur → no_entries (enqueued_at cur s) = false →
  (∀ ty, get_slash_rate ty (owned params) ≤ E12) →
  process_slashes params cur s = (s', Ok events) →
  ∃ cubic, compute_cubic_slash_rate params (cur - o) s = Ok cubic ∧
    ∀ v, ∃ new, find_validator_slashes v s' = find_validator_slashes v s ++ new ∧
      new = (λ y, with_rate params cubic y.2) <$> kvs (at_ (enqueued_at cur s) v) ∧
      Forall (λ x, get_slash_rate (slash_type x) (owned params) ≤ slash_rate x ≤ E12 ∧ (slash_rate x < E12 → cubic ≤ slash_rate x)) new.
Proof.
  intros Ho Hle Hn Hrate H. destruct (process_slashes_inv _ _ _ _ _ _ Ho Hle Hn H) as (cubic & eager & s1 & Hc & He & H1 & s2 & H2 & H3).
  exists cubic. split; [done|]. intros v. eexists. split; [|split; [reflexivity|]].
  - unfold find_validator_slashes at 1. rewrite H3. change (default [] (validator_slashes (slashes s2) !! v)) with (find_validator_slashes v s2).
    rewrite (push_all_ok _ _ _ H2). unfold find_validator_slashes at 1. rewrite H1. f_equal.
    transitivity (((λ x, (x.1, x.2.1)) <$> eager) ≫= λ x : Address * list Slash, if decide (x.1 = v) then x.2 else []).
    { clear. induction eager as [|x l IH]; [done|]. cbn [fmap list_fmap]. by rewrite !bind_cons, IH. }
    rewrite (rated_slashes_ok _ _ _ _ He), <-(kvs_bind_at (enqueued_at cur s) (λ m, (λ y, with_rate params cubic y.2) <$> kvs m) v) by (by rewrite kvs_empty).
    clear. induction (kvs _) as [|x l IH]; [done|]. cbn [fmap list_fmap]. by rewrite !bind_cons, IH.
  - apply Forall_fmap, Forall_forall. intros [k x] _. cbn. unfold final_rate. specialize (Hrate (slash_type x)). lia.
Qed.

Lemma process_slashes_records_witness : ∃ s1 s2 events,
  slash (AA:=addr_ref) example_params 6 5 77 DuplicateVote 11%N 7 two_validators = (s1, Ok ()) ∧
  process_slashes (AA:=addr_ref) example_params 28 s1 = (s2, Ok events) ∧
  ∃ x, find_validator_slashes (AA:=addr_ref) 11%N s2 = [x] ∧ slash_epoch x = 5 ∧ 1000000000 ≤ slash_rate x ≤ E12.
Proof.
  set (m1 := slash (AA:=addr_ref) example_params 6 5 77 DuplicateVote 11%N 7). set (m2 := process_slashes (AA:=addr_ref) example_params 28).
  assert (∃ s1 s2 events, m1 two_validators = (s1, Ok ()) ∧ m2 s1 = (s2, Ok events) ∧ no_entries (enqueued_at (AA:=addr_ref) 28 s1) = false ∧
    kvs (at_ (enqueued_at (AA:=addr_ref) 28 s1) 11%N) = [(77, mk_slash 5 77 DuplicateVote 0)] ∧ find_validator_slashes (AA:=addr_ref) 11%N s1 = [])
    as (s1 & s2 & events & H1 & H2 & H3 & H4 & H5).
  { destruct (run_ex m1 two_validators) as (s1 & [] & H1); [vm_compute; reflexivity|].
    assert (H2 : is_ok (m2 (m1 two_validators).1).2 = true) by (vm_compute; reflexivity).
    assert (H3 : no_entries (enqueued_at (AA:=addr_ref) 28 (m1 two_validators).1) = false) by (vm_compute; reflexivity).
    assert (H4 : kvs (at_ (enqueued_at (AA:=addr_ref) 28 (m1 two_validators).1) 11%N) = [(77, mk_slash 5 77 DuplicateVote 0)]) by (vm_compute; reflexivity).
    assert (H5 : find_validator_slashes (AA:=addr_ref) 11%N (m1 two_validators).1 = []) by (vm_compute; reflexivity).
    rewrite H1 in H2, H3, H4, H5. cbn [fst] in H2, H3, H4, H5. apply run_ex in H2 as (s2 & events & H2). exists s1, s2, events. auto. }
  exists s1, s2, events. split; [exact H1|]. split; [exact H2|].
  destruct (process_slashes_records (AA:=addr_ref) example_params 28 23 s1 s2 events eq_refl ltac:(lia) H3
    ltac:(intros []; vm_compute; discriminate) H2) as (cubic & _ & Hv).
  destruct (Hv 11%N) as (new & Hf & Hn & Hr). rewrite H5 in Hf. rewrite H4 in Hn. cbn [app fmap list_fmap] in Hf, Hn. rewrite Hn in Hf, Hr.
  eexists. split; [exact Hf|]. split; [reflexivity|]. apply Forall_cons in Hr as [[Hr _] _]. exact Hr.
Defined.

(** ** Amounts must grow with the epochs *)

Section growth.
Context {AA : AddressApi} {I : InternalAddrs AA} {OA : CmpOrder Address} {KK : PosKeys AA}.
Context (params : PosParams).

(** What [process_slashes] computes before it changes any stake: the amount slashed of each
    validator, by epochs. *)
Definition slash_amounts_due (cur : Epoch) (s : PosStore) : res (PosError Address) (gmap Address (gmap Z Z)) :=
  offset ← slash_offset params;
  infraction_epoch ← arith (EpochM.checked_sub cur offset);
  cubic_slash_rate ← compute_cubic_slash_rate params infraction_epoch s;
  eager ← rated_slashes params cubic_slash_rate (enqueued_at cur s);
  try_fold (λ m x, process_validator_slash params x.1 x.2.2 cur s m) ∅ eager.

(** The deltas of a validator are taken only if every amount is at least the one before it. *)
Lemma slash_deltas_grow v acc l s s' : slash_deltas params v acc l s = (s', Ok ()) →
  Forall (λ x, acc ≤ x.2) l ∧ ∀ l1 x l2, l = l1 ++ x :: l2 → Forall (λ y, x.2 ≤ y.2) l2.
Proof using Type.
  revert acc s. induction l as [|[e x] l IH]; intros acc s Hr; [split; [constructor|by intros [] ? ?]|]. cbn [slash_deltas] in Hr.
  apply stt_bind_ok in Hr as (s1 & d & H1 & Hr). apply stt_lift_ok in H1 as [-> H1]. apply ok_or_ok, chk_Some in H1 as [-> H1].
  apply stt_bind_ok in Hr as (s2 & acc' & H2 & Hr). apply stt_lift_ok in H2 as [-> H2]. apply ok_or_ok, chk_Some in H2 as [-> _].
  replace (acc + (x - acc)) with x in Hr by lia. do 4 (apply stt_bind_ok in Hr as (? & ? & _ & Hr)). apply IH in Hr as [Hx Hl]. split.
  - constructor; [cbn; lia|]. eapply Forall_impl; [exact Hx|]. cbn. lia.
  - intros [|y l1] z l2 [= <- E]; [by subst l|by eapply Hl].
Qed.

Lemma slash_stakes_grow v amounts l s s' events : slash_stakes params l s = (s', Ok events) → (v, amounts) ∈ l →
  ∃ s1 s2, slash_deltas params v 0 (kvs amounts) s1 = (s2, Ok ()).
Proof using Type.
  revert s s' events. induction l as [|[u a] l IH]; intros s s' events Hr Hin; [by apply elem_of_nil in Hin|]. cbn [slash_stakes] in Hr.
  apply stt_bind_ok in Hr as (s1 & ev & _ & Hr). apply stt_bind_ok in Hr as (s2 & [] & H2 & Hr). apply stt_bind_ok in Hr as (s3 & more & H3 & _).
  apply elem_of_cons in Hin as [[= -> ->]|Hin]; [eauto|]. exact (IH _ _ _ H3 Hin).
Qed.

Lemma process_slashes_stakes cur s s' events m : no_entries (enqueued_at cur s) = false → slash_amounts_due cur s = Ok m →
  process_slashes params cur s = (s', Ok events) → ∃ s1, slash_stakes params (kvs m) s1 = (s', Ok events).
Proof using Type.
  intros Hne Hm Hr. unfold slash_amounts_due in Hm. apply res_bind_ok in Hm as (o & Ho & Hm). apply res_bind_ok in Hm as (inf & Hinf & Hm).
  apply res_bind_ok in Hm as (rate & Hrate & Hm). apply res_bind_ok in Hm as (eager & Heager & Hm).
  unfold process_slashes in Hr. apply stt_bind_ok in Hr as (s1 & o' & H1 & Hr). apply stt_lift_ok in H1 as [-> H1]. rewrite Ho in H1. injection H1 as <-.
  unfold arith, EpochM.checked_sub in Hinf. pose proof Hinf as Hinf'. apply ok_or_ok, chk_Some in Hinf' as [-> Hrange].
  destruct (Z.ltb_spec cur o); [lia|]. apply stt_bind_ok in Hr as (s2 & inf' & H2 & Hr). apply stt_lift_ok in H2 as [-> H2].
  unfold arith, EpochM.checked_sub in H2. rewrite Hinf in H2. injection H2 as <-.
  apply stt_bind_ok in Hr as (s3 & t & H3 & Hr). apply stt_get_ok in H3 as [-> ->]. rewrite Hne in Hr.
  apply stt_bind_ok in Hr as (s4 & r' & H4 & Hr). apply stt_lift_ok in H4 as [-> H4]. rewrite Hrate in H4. injection H4 as <-.
  apply stt_bind_ok in Hr as (s5 & g' & H5 & Hr). apply stt_lift_ok in H5 as [-> H5]. rewrite Heager in H5. injection H5 as <-.
  apply stt_bind_ok in Hr as (s6 & h & _ & Hr). apply stt_bind_ok in Hr as (s7 & [] & _ & Hr).
  apply stt_bind_ok in Hr as (s8 & m' & H8 & Hr). apply stt_lift_ok in H8 as [-> H8]. rewrite Hm in H8. injection H8 as <-.
  apply stt_bind_ok in Hr as (s9 & ? & _ & Hr). eauto.
Qed.
End growth.

(** C40. Processing slashes fails whenever the amount slashed of some validator is smaller in a later
    epoch than in an earlier one: the difference from epoch to epoch underflows, and the
    processing, which the first block of an epoch cannot do without, does not succeed.  The
    amounts of a slashed redelegation can be so (the example below). *)
Theorem slash_processing_underflow {AA : AddressApi} {I : InternalAddrs AA} {OA : CmpOrder Address} {KK : PosKeys AA}
    (params : PosParams) (cur : Epoch) (s : PosStore) (m : gmap Address (gmap Z Z)) (v : Address) (amounts : gmap Z Z) (e1 e2 x1 x2 : Z) :
  no_entries (enqueued_at cur s) = false → slash_amounts_due params cur s = Ok m → m !! v = Some amounts →
  amounts !! e1 = Some x1 → amounts !! e2 = Some x2 → e1 < e2 → x2 < x1 →
  ∀ s' events, process_slashes params cur s ≠ (s', Ok events).
Proof.
  intros Hne Hm Hv H1 H2 He Hx s' events Hr. destruct (process_slashes_stakes _ _ _ _ _ _ Hne Hm Hr) as [t Ht].
  destruct (slash_stakes_grow params v amounts _ _ _ _ Ht) as (t1 & t2 & Hd); [by apply elem_of_kvs|].
  apply slash_deltas_grow in Hd as [_ Hgrow]. apply elem_of_kvs in H1, H2. pose proof (kvs_sorted amounts) as Hsort.
  apply list_elem_of_split in H1 as (l1 & l2 & E). rewrite E in H2, Hsort. specialize (Hgrow l1 (e1, x1) l2 E). rewrite Forall_forall in Hgrow.
  apply elem_of_app in H2 as [H2|[[= ? ?]|H2]%elem_of_cons]; [|lia|specialize (Hgrow _ H2); cbn in Hgrow; lia].
  pose proof (bsorted_before l1 (e1, x1) l2 (e2, x2) Hsort H2) as Hlt. change (e2 < e1) in Hlt. lia.
Qed.

(** With a pipeline of three epochs, which the parameters allow, a delegator bonds, redelegates and unbonds
    a part again; then the redelegation is slashed less in a later epoch than in an earlier one. *)
Definition underflow_store : PosStore (AA:=addr_ref) := (redelegation_run long_pipeline two_validators).1.
Example redelegation_run_underflows :
  validate (owned long_pipeline) = Some [] ∧ (redelegation_run long_pipeline two_validators).2 = Ok () ∧
  (process_slashes (AA:=addr_ref) long_pipeline 28 underflow_store).2 = Err ArithOverflow.
Proof. split_and!; vm_compute; reflexivity. Qed.

Lemma slash_processing_underflow_witness : ∃ m amounts x1 x2,
  slash_amounts_due (AA:=addr_ref) long_pipeline 28 underflow_store = Ok m ∧ m !! 13%N = Some amounts ∧
  amounts !! 29 = Some x1 ∧ amounts !! 30 = Some x2 ∧ x2 < x1 ∧
  ∀ s' events, process_slashes (AA:=addr_ref) long_pipeline 28 underflow_store ≠ (s', Ok events).
Proof.
  destruct (ok_ex (slash_amounts_due (AA:=addr_ref) long_pipeline 28 underflow_store)) as [m Hm]; [vm_compute; reflexivity|].
  assert (Hx : match slash_amounts_due (AA:=addr_ref) long_pipeline 28 underflow_store with
    | Ok m => match m !! 13%N with Some a => match a !! 29, a !! 30 with Some x1, Some x2 => (x2 <? x1) | _, _ => false end | None => false end
    | _ => false end = true) by (vm_compute; reflexivity).
  rewrite Hm in Hx. destruct (m !! 13%N) as [a|] eqn:Ha; [|discriminate]. destruct (a !! 29) as [x1|] eqn:H1; [|discriminate].
  destruct (a !! 30) as [x2|] eqn:H2; [|discriminate]. apply Z.ltb_lt in Hx. exists m, a, x1, x2. do 5 (split; [assumption|]).
  apply (slash_processing_underflow (AA:=addr_ref) long_pipeline 28 underflow_store m 13%N a 29 30 x1 x2);
    [vm_compute; reflexivity|assumption..|reflexivity|assumption].
Defined.

(** Unbonded redelegated tokens count twice.  With the default parameters and
    the same transactions 300000 of the redelegated tokens stay bonded, yet the
    slash of the source validator takes nothing from them. *)
Theorem redelegation_slash_takes_nothing :
  ∃ s, redelegation_run example_params two_validators = (s, Ok ()) ∧
    (read_validator_stake example_params 13%N 30 (vsets s)).2 = Ok 300000 ∧
    ∃ s', process_slashes (AA:=addr_ref) example_params 28 s = (s', Ok []) ∧
      (λ x, 0 <? slash_rate x) <$> find_validator_slashes (AA:=addr_ref) 11%N s' = [true] ∧
      (read_validator_stake example_params 13%N 30 (vsets s')).2 = Ok 300000.
Proof.
  exists (redelegation_run example_params two_validators).1. split; [apply run_ok; vm_compute; reflexivity|].
  split; [vm_compute; reflexivity|].
  exists (process_slashes (AA:=addr_ref) example_params 28 (redelegation_run example_params two_validators).1).1.
  split; [apply run_ok; vm_compute; reflexivity|]. split; vm_compute; reflexivity.
Qed.
