(* ===== verification/Rewards.v ===== *)
(** * Rewards

    Models [proof_of_stake/src/rewards.rs]: the fractions of a block's rewards, their
    accumulation over an epoch, the inflation and its distribution, and from
    [proof_of_stake/src/lib.rs] the amounts of bonds over time and the claiming of
    rewards. *)

From S2P Require Import Prelude Words Uint Decimal I256 Dec Token StorageKey Epochs BTree TransToken PDController.
From S2P Require Import PosTypes Epoched ValidatorSets Slashing Unbonding PosStore Bonding SlashOps.

(** ** Coefficients *)

(** 0.01 *)
Definition MIN_PROPOSER_REWARD : Z := 10000000000.

Record PosRewards : Type := mk_coeffs { proposer_coeff : Z; signer_coeff : Z; active_val_coeff : Z }.
Record PosRewardsCalculator : Type := mk_calculator {
  proposer_reward : Z;
  signer_reward : Z;
  signing_stake : Z;
  total_stake : Z;
}.

(** The panics of the [expect]s as [None]. *)
Definition get_min_required_votes (c : PosRewardsCalculator) : option Z :=
  x ← chk 256 (total_stake c * 2);
  y ← ZAmount.add x 2;
  Some (y / 3).

Definition get_reward_coeffs (c : PosRewardsCalculator) : res RewardsError PosRewards :=
  votes_needed ← expect (get_min_required_votes c);
  if signing_stake c <? votes_needed then Err (InsufficientVotes votes_needed (signing_stake c))
  else
    x ← ok_or (ZAmount.sub (signing_stake c) votes_needed) RewardsArith;
    y ← ok_or (ZAmount.mul_floor x (proposer_reward c)) RewardsArith;
    proposer_reward_coeff ← ok_or (ZDec.try_from_amount y) RewardsDec;
    total_stake_dec ← ok_or (ZDec.try_from_amount (total_stake c)) RewardsDec;
    q ← ok_or (ZDec.div proposer_reward_coeff total_stake_dec) RewardsArith;
    proposer_coeff ← ok_or (ZDec.add q MIN_PROPOSER_REWARD) RewardsArith;
    r ← ok_or (ZDec.sub E12 proposer_coeff) RewardsArith;
    active_val_coeff ← ok_or (ZDec.sub r (signer_reward c)) RewardsArith;
    Ok (mk_coeffs proposer_coeff (signer_reward c) active_val_coeff).

(** The controller of staking: the metric is the ratio of the staked amount. *)
Definition compute_inflation {A} (locked_amount total_native_amount max_reward_rate last_inflation_amount p_gain_nom d_gain_nom
    epochs_per_year target_ratio last_ratio : Z) : res (PosError A) Z :=
  let controller := mk_pd total_native_amount max_reward_rate last_inflation_amount p_gain_nom d_gain_nom
                      epochs_per_year target_ratio last_ratio in
  locked_amount ← ok_or (ZDec.try_from_amount locked_amount) InflationFailure;
  total_native_dec ← map_err (λ _, InflationFailure) (get_total_native_dec controller);
  metric ← arith (ZDec.div locked_amount total_native_dec);
  epochs ← expect (ZDec.from_u64 (get_epochs_per_year controller));
  x ← arith (ZDec.mul total_native_dec max_reward_rate);
  control_coeff ← arith (ZDec.div x epochs);
  map_err (λ _, InflationFailure) (PDController.compute_inflation controller control_coeff metric).

Section rewards.
Context {AA : AddressApi} {I : InternalAddrs AA} {OA : CmpOrder Address} {KK : PosKeys AA}.
Abbreviation A := Address.
Abbreviation RedelegatedTokens := (gmap A (gmap Z Z)).
Abbreviation M := (stt PosStore (PosError A)).
Abbreviation R := (res (PosError A)).
Context (native_token : A) (params : PosParams).
Let p : OwnedPosParams := owned params.

(** ** Block rewards *)

Record VoteInfo : Type := mk_vote { validator_address : A; validator_vp : Z }.

(** The signers and their stake. *)
Fixpoint signing_votes (epoch : Epoch) (votes : list VoteInfo) (signers : gset A) (total_signing_stake : Z) : M (gset A * Z) :=
  match votes with
  | [] => mret (signers, total_signing_stake)
  | v :: votes =>
      if validator_vp v =? 0 then signing_votes epoch votes signers total_signing_stake
      else
        state ← on_vsets (state_get params (validator_address v) epoch);
        if bool_decide (state ≠ Some Consensus) then throw (ExpectedValidatorInConsensus (validator_address v) state)
        else
          stake_from_deltas ← on_vsets (read_validator_stake params (validator_address v) epoch);
          total_signing_stake ← lift (arith (ZAmount.add total_signing_stake stake_from_deltas));
          signing_votes epoch votes ({[validator_address v]} ∪ signers) total_signing_stake
  end.

(** The fraction of one consensus validator. *)
Definition rewards_frac (coeffs : PosRewards) (proposer_address : A) (signer_set : gset A)
    (signing_stake_unscaled consensus_stake_unscaled stake_unscaled : Z) (address : A) : R Z :=
  let f := 0 in
  f ← (if bool_decide (address = proposer_address) then arith (ZDec.add f (proposer_coeff coeffs)) else Ok f);
  f ← (if bool_decide (address ∈ signer_set) then
         signing_frac ← arith (ZDec.div stake_unscaled signing_stake_unscaled);
         x ← arith (ZDec.mul (signer_coeff coeffs) signing_frac);
         arith (ZDec.add f x)
       else Ok f);
  q ← arith (ZDec.div stake_unscaled consensus_stake_unscaled);
  x ← arith (ZDec.mul (active_val_coeff coeffs) q);
  arith (ZDec.add f x).

(** [HashMap::insert], with the entries in the order of insertion. *)
Fixpoint hm_insert {V} (k : A) (v : V) (m : list (A * V)) : list (A * V) :=
  match m with
  | [] => [(k, v)]
  | x :: m => if bool_decide (x.1 = k) then (k, v) :: m else x :: hm_insert k v m
  end.

(** The entries of the consensus set: stake and address, by stake and position. *)
Definition consensus_entries (m : gmap (Z * Z) A) : list (Z * A) :=
  (λ x, (x.1.1, x.2)) <$> kvs m.

Definition block_fractions (coeffs : PosRewards) (proposer_address : A) (signer_set : gset A)
    (signing_stake consensus_stake : Z) (validators : list (Z * A)) : R (list (A * Z)) :=
  try_fold (λ values x,
      let '(stake, address) := x in
      if stake =? 0 then Ok values
      else
        stake_unscaled ← ok_or (ZDec.try_from_amount stake) InflationFailure;
        f ← rewards_frac coeffs proposer_address signer_set signing_stake consensus_stake stake_unscaled address;
        Ok (hm_insert address f values))
    [] validators.

Definition accumulate (x : A * Z) : M unit :=
  acc ← gets (λ s, default 0 (rewards_accumulator (rewards s) !! x.1));
  new ← lift (arith (ZDec.add acc x.2));
  on_rewards (modify (upd_rewards_accumulator (<[x.1 := new]>))).

Definition log_block_rewards_aux (epoch : Epoch) (proposer_address : A) (votes : list VoteInfo) : M unit :=
  s ← get;
  total_consensus_stake ← on_vsets (get_total_consensus_stake params epoch);
  '(signer_set, total_signing_stake) ← signing_votes epoch votes ∅ 0;
  coeffs ← lift (map_err RewardsFailure (get_reward_coeffs
             (mk_calculator (block_proposer_reward p) (block_vote_reward p) total_signing_stake total_consensus_stake)));
  consensus_stake_unscaled ← lift (ok_or (ZDec.try_from_amount total_consensus_stake) InflationFailure);
  signing_stake_unscaled ← lift (ok_or (ZDec.try_from_amount total_signing_stake) InflationFailure);
  values ← lift (block_fractions coeffs proposer_address signer_set signing_stake_unscaled consensus_stake_unscaled
                   (consensus_entries (consensus_at (vsets s) epoch)));
  for_each accumulate values.

Definition log_block_rewards (votes : list VoteInfo) (height : BlockHeight) (current_epoch : Epoch) (new_epoch : bool) : M unit :=
  s ← get;
  match last_block_proposer (rewards s) with
  | Some proposer_address =>
      epoch ← lift (if new_epoch then expect (EpochM.prev current_epoch) else Ok current_epoch);
      log_block_rewards_aux epoch proposer_address votes
  | None => mret ()
  end.

(** ** Inflation *)

Record Rewards : Type := mk_reward { product : Z; commissions : Z }.

(** The share of one validator: its tokens, and what becomes of them. *)
Definition validator_share (s : PosStore) (last_epoch : Epoch) (num_blocks_in_last_epoch inflation : Z) (validator : A) (value : Z) :
    R (Z * Rewards) :=
  num ← expect (ZDec.from_u64 num_blocks_in_last_epoch);
  fractional_claim ← arith (ZDec.div value num);
  reward_tokens ← arith (ZAmount.mul_floor inflation fractional_claim);
  stake ← (read_validator_stake params validator last_epoch (vsets s)).2;
  stake ← ok_or (ZDec.try_from_amount stake) InflationFailure;
  rate ← (commission_get params validator last_epoch s).2;
  commission_rate ← expect rate;
  reward_tokens_dec ← ok_or (ZDec.try_from_amount reward_tokens) InflationFailure;
  x ← arith (ZDec.sub E12 commission_rate);
  y ← arith (ZDec.mul x reward_tokens_dec);
  product ← arith (ZDec.div y stake);
  commissions ← arith (ZAmount.mul_floor reward_tokens commission_rate);
  Ok (reward_tokens, mk_reward product commissions).

(** The sum of the accumulators, what remains of the inflation and the rewards. *)
Definition share_step (s : PosStore) (last_epoch : Epoch) (num_blocks inflation : Z) (st : (Z * Z) * list (A * Rewards)) (x : A * Z) :
    R ((Z * Z) * list (A * Rewards)) :=
  let '((accumulators_sum, remaining), products) := st in
  accumulators_sum ← arith (ZDec.add accumulators_sum x.2);
  '(reward_tokens, r) ← validator_share s last_epoch num_blocks inflation x.1 x.2;
  remaining ← arith (ZAmount.sub remaining reward_tokens);
  Ok ((accumulators_sum, remaining), hm_insert x.1 r products).

Definition store_reward (last_epoch : Epoch) (x : A * Rewards) : M unit :=
  _ ← on_rewards (modify (upd_rewards_products (λ m, <[x.1 := <[last_epoch := product x.2]> (at_ m x.1)]> m)));
  add_rewards_to_counter x.1 x.1 (commissions x.2).

Definition update_rewards_products_and_mint_inflation (last_epoch : Epoch) (num_blocks_in_last_epoch inflation : Z) : M unit :=
  s ← get;
  '((_, reward_tokens_remaining), new_rewards_products) ←
    lift (try_fold (share_step s last_epoch num_blocks_in_last_epoch inflation) ((0, inflation), []) (kvs (rewards_accumulator (rewards s))));
  _ ← for_each (store_reward last_epoch) new_rewards_products;
  pos_reward_tokens ← lift (arith (ZAmount.sub inflation reward_tokens_remaining));
  _ ← on_tokens (credit_tokens native_token pos pos_reward_tokens);
  _ ← (if 0 <? reward_tokens_remaining then on_tokens (credit_tokens native_token pgf reward_tokens_remaining) else mret ());
  on_rewards (modify (upd_rewards_accumulator (λ _, ∅))).

(** [epochs_per_year] is read from the storage of the parameters. *)
Definition apply_inflation (epochs_per_year : Z) (last_epoch : Epoch) (num_blocks_in_last_epoch : Z) : M unit :=
  total_tokens ← on_tokens (get_effective_total_native_supply native_token);
  locked_amount ← on_vsets (read_total_stake params last_epoch);
  s ← get;
  last_ratio ← lift (expect (last_staked_ratio (rewards s)));
  last_inflation ← lift (expect (last_pos_inflation_amount (rewards s)));
  inflation ← lift (compute_inflation locked_amount total_tokens (max_inflation_rate p) last_inflation (rewards_gain_p p)
                      (rewards_gain_d p) epochs_per_year (target_staked_ratio p) last_ratio);
  _ ← update_rewards_products_and_mint_inflation last_epoch num_blocks_in_last_epoch inflation;
  locked ← lift (ok_or (ZDec.try_from_amount locked_amount) InflationFailure);
  total ← lift (ok_or (ZDec.try_from_amount total_tokens) InflationFailure);
  locked_ratio ← lift (arith (ZDec.div locked total));
  _ ← on_rewards (modify (upd_last_staked_ratio (λ _, Some locked_ratio)));
  on_rewards (modify (upd_last_pos_inflation_amount (λ _, Some inflation))).

(** ** Amounts of bonds *)

Definition add_if (b : bool) (start : Epoch) (delta : Z) (amounts : gmap Z Z) : R (gmap Z Z) :=
  if b then bump start delta amounts else Ok amounts.

(** The redelegations of a delegator: destination, end, source, start and amount;
    and those that were unbonded, without the withdrawable epoch. *)
Definition redelegation_entries (m : gmap A (gmap Z RedelegatedTokens)) : list (Epoch * (A * (Epoch * Z))) :=
  kvs m ≫= λ x, redelegated_entries x.2.
Definition redelegation_unbond_entries (m : gmap A (gmap Z (gmap Z RedelegatedTokens))) : list (Epoch * (A * (Epoch * Z))) :=
  kvs m ≫= λ x, kvs x.2 ≫= λ y, (λ z, (y.1, z.2)) <$> redelegated_entries y.2.

Definition unbond_end (withdrawable_epoch : Epoch) : R Epoch :=
  offset ← expect (withdrawable_epoch_offset p);
  e ← arith (EpochM.checked_sub withdrawable_epoch offset);
  arith (EpochM.checked_add e (pipeline_len p)).

Definition bond_amounts_for_query (source validator : A) (epoch : Epoch) (s : PosStore) : R (gmap Z Z) :=
  amounts ← try_fold (λ amounts '(start, delta), add_if (start <=? epoch) start delta amounts) ∅
              (kvs (data (bond_handle source validator s)));
  amounts ← try_fold (λ amounts '((start, withdrawable_epoch), delta),
                end_ ← unbond_end withdrawable_epoch;
                add_if ((start <=? epoch) && (epoch <? end_)) start delta amounts) amounts
              (entries2 (unbond_handle source validator s));
  if bool_decide (validator ≠ source) then
    amounts ← try_fold (λ amounts '(end_, (src_validator, (start, delta))),
                  add_if (bool_decide (src_validator = validator) && (start <=? epoch) && (epoch <? end_)) start delta amounts) amounts
                (redelegation_entries (at_ (delegator_bonds (redelegation s)) source));
    try_fold (λ amounts '(redelegation_epoch, (src_validator, (start, delta))),
        add_if (bool_decide (src_validator = validator) && (epoch <? redelegation_epoch) && (start <=? epoch)) start delta amounts) amounts
      (redelegation_unbond_entries (at_ (delegator_unbonds (redelegation s)) source))
  else Ok amounts.

Definition sum_amounts (amounts : list Z) : R Z := ok_or (ZAmount.sum amounts) AmountSumOverflow.

Definition raw_bond_amount (source validator : A) (epoch : Epoch) (s : PosStore) : R Z :=
  amounts ← bond_amounts_for_query source validator epoch s;
  sum_amounts (kvs amounts).*2.

(** An amount that started contributing at an epoch, after the slashes processed
    up to another. *)
Definition slashed_bond (source validator : A) (epoch start : Epoch) (amount : Z) (s : PosStore) : R Z :=
  list_slashes ← filter_res (λ slash,
      processed ← processing_epoch p (slash_epoch slash);
      Ok ((processed <=? epoch) && (start <=? slash_epoch slash))) (find_validator_slashes validator s);
  let redelegated_bonds := with_entries (at_ (delegator_redelegated_bonds_handle source validator s) start) in
  result_fold ← fold_and_slash_redelegated_bonds p (λ v, find_validator_slashes v s) redelegated_bonds start list_slashes
                  (processed_by p epoch);
  total_not_redelegated ← arith (ZAmount.sub amount (total_redelegated result_fold));
  after_not_redelegated ← apply_list_slashes p list_slashes total_not_redelegated;
  arith (ZAmount.add after_not_redelegated (total_after_slashing result_fold)).

Definition slashed_bonds (source validator : A) (epoch : Epoch) (s : PosStore) (amounts : gmap Z Z) : R (list Z) :=
  try_fold (λ acc '(start, amount), x ← slashed_bond source validator epoch start amount s; Ok (acc ++ [x])) [] (kvs amounts).

Definition bond_amount (source validator : A) (epoch : Epoch) (s : PosStore) : R Z :=
  amounts ← bond_amounts_for_query source validator epoch s;
  amounts ← slashed_bonds source validator epoch s amounts;
  sum_amounts amounts.

(** By epoch of the range and start of the bond. *)
Definition bonds_in_range (bonds : gmap Z Z) (claim_start claim_end : Epoch) : R (gmap Z (gmap Z Z)) :=
  try_fold (λ amounts x,
      try_fold (λ amounts ep, if x.1 <=? ep then alter_at ep (bump x.1 x.2) amounts else Ok amounts)
        amounts (EpochM.iter_bounds_inclusive claim_start claim_end))
    ∅ (kvs bonds).

Definition bond_amounts_for_rewards (source validator : A) (claim_start claim_end : Epoch) (s : PosStore) : R (gmap Z Z) :=
  amounts ← bonds_in_range (data (bond_handle source validator s)) claim_start claim_end;
  slashed ← try_fold (λ acc '(ep, amounts), l ← slashed_bonds source validator ep s amounts; Ok (acc ++ [(ep, l)])) [] (kvs amounts);
  try_fold (λ acc '(ep, l), total ← sum_amounts l; Ok (<[ep := total]> acc)) ∅ slashed.

(** ** Claims *)

Definition compute_current_rewards_from_bonds (source validator : A) (current_epoch : Epoch) (s : PosStore) : R Z :=
  if current_epoch =? 0 then Ok 0
  else
    let last_claim_epoch := get_last_reward_claim_epoch source validator s in
    if bool_decide (last_claim_epoch = Some current_epoch) then Ok 0
    else
      claim_end ← expect (EpochM.prev current_epoch);
      bond_amounts ← bond_amounts_for_rewards source validator (default 0 last_claim_epoch) claim_end s;
      let rewards_products := at_ (rewards_products (rewards s)) validator in
      try_fold (λ reward_tokens '(ep, bond_amount),
          reward ← arith (ZAmount.mul_floor bond_amount (default 0 (rewards_products !! ep)));
          arith (ZAmount.add reward_tokens reward)) 0 (kvs bond_amounts).

Definition claim_reward_tokens (source : option A) (validator : A) (current_epoch : Epoch) : M Z :=
  let source := default validator source in
  s ← get;
  from_bonds ← lift (compute_current_rewards_from_bonds source validator current_epoch s);
  counter_rewards ← take_rewards_from_counter source validator;
  reward_tokens ← lift (arith (ZAmount.add from_bonds counter_rewards));
  _ ← on_rewards (modify (upd_last_claim (<[(source, validator) := current_epoch]>)));
  _ ← on_tokens (transfer native_token pos source reward_tokens);
  mret reward_tokens.

Definition query_reward_tokens (source : option A) (validator : A) (current_epoch : Epoch) (s : PosStore) : R Z :=
  let source := default validator source in
  from_bonds ← compute_current_rewards_from_bonds source validator current_epoch s;
  arith (ZAmount.add from_bonds (read_rewards_counter source validator s)).
End rewards.

(** * Theory *)

Lemma zdec_div_nonneg a b x : 0 ≤ a → 0 < b → ZDec.div a b = Some x → x = E12 * a / b.
Proof.
  intros Ha Hb. unfold ZDec.div. destruct (Z.eqb_spec b 0); [lia|]. unfold chk_i. destruct (_ <=? _); [|done]. intros [= <-].
  apply Z.quot_div_nonneg; lia.
Qed.

Lemma zdec_mul_nonneg a b x : 0 ≤ a → 0 ≤ b → ZDec.mul a b = Some x → x = a * b / E12.
Proof.
  intros Ha Hb. unfold ZDec.mul, chk_i. destruct (_ <=? _); [|done]. intros [= <-]. apply Z.quot_div_nonneg; [nia|lia].
Qed.

Lemma zdec_add_some a b x : ZDec.add a b = Some x → x = a + b.
Proof. unfold ZDec.add, chk_i. destruct (_ <=? _); [|done]. by intros [= <-]. Qed.

Lemma zdec_sub_some a b x : ZDec.sub a b = Some x → x = a - b.
Proof. unfold ZDec.sub, chk_i. destruct (_ <=? _); [|done]. by intros [= <-]. Qed.

Lemma from_amount_some a x : ZDec.try_from_amount a = Some x → x = a * 10 ^ 6.
Proof. unfold ZDec.try_from_amount, chk_i. destruct (_ <=? _); [|done]. by intros [= <-]. Qed.

(** ** Fractions of a block *)

Section fractions.
Context {AA : AddressApi} {I : InternalAddrs AA} {OA : CmpOrder Address} {KK : PosKeys AA}.
Abbreviation A := Address.
Context (k : PosRewards) (proposer : A) (signers : gset A) (sign cons : Z).
Hypothesis Hp : 0 ≤ proposer_coeff k.
Hypothesis Hs : 0 ≤ signer_coeff k.
Hypothesis Ha : 0 ≤ active_val_coeff k.
Hypothesis Hsign : 0 < sign.
Hypothesis Hcons : 0 < cons.

(** The three parts of a fraction. *)
Definition proposer_part (x : Z * A) : Z := if decide (x.2 = proposer) then proposer_coeff k else 0.
Definition signer_part (x : Z * A) : Z :=
  if decide (x.2 ∈ signers) then signer_coeff k * (E12 * (x.1 * 10 ^ 6) / sign) / E12 else 0.
Definition active_part (x : Z * A) : Z := active_val_coeff k * (E12 * (x.1 * 10 ^ 6) / cons) / E12.

Lemma rewards_frac_ok stake a f : 0 ≤ stake →
  rewards_frac k proposer signers sign cons (stake * 10 ^ 6) a = Ok f →
  f = proposer_part (stake, a) + signer_part (stake, a) + active_part (stake, a).
Proof using Hp Hs Ha Hsign Hcons.
  intros Hst H. unfold rewards_frac in H. res_inv H. unfold arith in *. unfold proposer_part, signer_part, active_part. cbn [fst snd].
  apply ok_or_ok, zdec_div_nonneg in Hres1 as ->; [|lia..].
  assert (0 ≤ E12 * (stake * 10 ^ 6) / cons) by (apply Z.div_pos; lia).
  apply ok_or_ok, zdec_mul_nonneg in Hres2 as ->; [|lia..]. apply ok_or_ok, zdec_add_some in H as ->.
  assert (v = if decide (a = proposer) then proposer_coeff k else 0) as ->.
  { destruct (decide (a = proposer)) as [->|]; [rewrite bool_decide_true in Hres by done|rewrite bool_decide_false in Hres by done].
    - apply ok_or_ok, zdec_add_some in Hres as ->. lia.
    - by injection Hres as <-. }
  f_equal. destruct (decide (a ∈ signers)) as [Hin|]; [rewrite bool_decide_true in Hres0 by done|rewrite bool_decide_false in Hres0 by done; injection Hres0 as <-; lia].
  res_inv Hres0. apply zdec_div_nonneg in Hres1 as ->; [|lia..].
  assert (0 ≤ E12 * (stake * 10 ^ 6) / sign) by (apply Z.div_pos; lia).
  apply zdec_mul_nonneg in Hres2 as ->; [|lia..]. by apply zdec_add_some in Hres0 as ->.
Qed.

Lemma hm_insert_new {V} (a : A) (v : V) m : a ∉ m.*1 → hm_insert a v m = m ++ [(a, v)].
Proof using Type.
  induction m as [|x m IH]; [done|]. cbn. rewrite not_elem_of_cons. intros [? ?]. rewrite bool_decide_false by done. by rewrite IH.
Qed.

Definition whole_frac (x : Z * A) : Z := proposer_part x + signer_part x + active_part x.

Lemma block_fractions_ok l values : NoDup l.*2 → Forall (λ x, 0 ≤ x.1) l →
  block_fractions k proposer signers sign cons l = Ok values →
  values = (λ x, (x.2, whole_frac x)) <$> filter (λ x, x.1 ≠ 0) l.
Proof using Hp Hs Ha Hsign Hcons.
  intros Hnd Hst H. unfold block_fractions in H.
  destruct (try_fold_ok _ (λ l' acc, ∃ dn, l = dn ++ l' ∧ acc = (λ x, (x.2, whole_frac x)) <$> filter (λ x, x.1 ≠ 0) dn) _ _ _ H)
    as (dn & Hdn & ->); [by exists []| |by rewrite app_nil_r in Hdn; subst].
  clear H values. intros [stake a] l' acc acc' (dn & -> & ->) Hx. exists (dn ++ [(stake, a)]). split; [by rewrite <-app_assoc|].
  rewrite filter_app, fmap_app. destruct (Z.eqb_spec stake 0) as [->|Hne].
  { injection Hx as <-. rewrite filter_cons_False by (cbn; lia). by rewrite filter_nil, app_nil_r. }
  rewrite filter_cons_True, filter_nil by done. res_inv Hx. unfold arith in *. apply from_amount_some in Hres as ->.
  apply Forall_app in Hst as [_ [Hs0 _]%Forall_cons]. cbn in Hs0. apply rewards_frac_ok in Hres0 as ->; [|done].
  rewrite hm_insert_new; [done|]. rewrite <-list_fmap_compose. cbn. intros ([s' a'] & E & [_ Hin]%list_elem_of_filter)%list_elem_of_fmap. cbn in E. subst a'.
  rewrite fmap_app, fmap_cons in Hnd. apply NoDup_app in Hnd as (_ & Hd & _). apply (Hd a); [apply list_elem_of_fmap; by exists (s', a)|left].
Qed.
End fractions.

Section sums.
Context {X : Type}.

Lemma zsum_div (d : Z) (f : X → Z) (l : list X) : 0 < d →
  zsum f l - Z.of_nat (length l) * d ≤ d * zsum (λ x, f x / d) l ≤ zsum f l.
Proof.
  intros Hd. induction l as [|x l IH]; [cbn; lia|]. rewrite !zsum_cons. cbn [length].
  pose proof (Z.mul_div_le (f x) d Hd). pose proof (Z.mul_succ_div_gt (f x) d Hd). nia.
Qed.

Lemma zsum_mul_l (c : Z) (f : X → Z) l : zsum (λ x, c * f x) l = c * zsum f l.
Proof. induction l as [|x l IH]; [cbn; lia|]. rewrite !zsum_cons, IH. lia. Qed.

Lemma zsum_div_nonneg (d : Z) (f : X → Z) l : 0 < d → Forall (λ x, 0 ≤ f x) l → 0 ≤ zsum (λ x, f x / d) l.
Proof.
  intros Hd. induction 1 as [|x l Hx _ IH]; [cbn; lia|]. rewrite zsum_cons. assert (0 ≤ f x / d) by (apply Z.div_pos; lia). lia.
Qed.

(** Shares of a coefficient, by weights out of a total, rounded down twice. *)
Lemma zsum_shares (c d : Z) (w : X → Z) l : 0 ≤ c → 0 < d → Forall (λ x, 0 ≤ w x) l → zsum w l ≤ d →
  zsum (λ x, c * (E12 * w x / d) / E12) l ≤ c.
Proof.
  intros Hc Hd Hw Hle. pose proof (zsum_div E12 (λ x, c * (E12 * w x / d)) l ltac:(lia)) as [_ H1].
  pose proof (zsum_div d (λ x, E12 * w x) l Hd) as [_ H2]. rewrite zsum_mul_l in H1, H2. cbn beta in *.
  assert (zsum (λ x, E12 * w x / d) l ≤ E12) by nia. nia.
Qed.

Lemma zsum_shares_dust (c d : Z) (w : X → Z) l : 0 ≤ c ≤ E12 → 0 < d → zsum w l = d →
  c - 2 * Z.of_nat (length l) ≤ zsum (λ x, c * (E12 * w x / d) / E12) l.
Proof.
  intros Hc Hd Hw. pose proof (zsum_div E12 (λ x, c * (E12 * w x / d)) l ltac:(lia)) as [H1 _].
  pose proof (zsum_div d (λ x, E12 * w x) l Hd) as [H2 _]. rewrite zsum_mul_l in H1, H2. cbn beta in *. rewrite Hw in H2.
  set (n := Z.of_nat (length l)) in *. set (F := zsum (λ x, E12 * w x / d) l) in *. assert (0 ≤ n) by lia.
  assert (E12 - n ≤ F) by nia. assert (c * (E12 - n) ≤ c * F) by (apply Z.mul_le_mono_nonneg_l; lia).
  assert (E12 * (c - 2 * n) ≤ E12 * zsum (λ x, c * (E12 * w x / d) / E12) l) by nia. nia.
Qed.
End sums.

Section block.
Context {AA : AddressApi} {I : InternalAddrs AA} {OA : CmpOrder Address} {KK : PosKeys AA}.
Abbreviation A := Address.

Record sound_coeffs (k : PosRewards) : Prop := {
  sc_proposer : 0 ≤ proposer_coeff k;
  sc_signer : 0 ≤ signer_coeff k;
  sc_active : 0 ≤ active_val_coeff k;
  sc_sum : proposer_coeff k + signer_coeff k + active_val_coeff k = E12;
}.

Definition scaled (x : Z * A) : Z := x.1 * 10 ^ 6.

Lemma proposer_part_sum k pr (l : list (Z * A)) : 0 ≤ proposer_coeff k → NoDup l.*2 →
  zsum (proposer_part k pr) l = if decide (pr ∈ l.*2) then proposer_coeff k else 0.
Proof using Type.
  intros Hk. induction l as [|x l IH]; intros Hnd; [by rewrite decide_False by apply not_elem_of_nil|].
  rewrite fmap_cons in *. apply NoDup_cons in Hnd as [Hx Hnd]. rewrite zsum_cons, (IH Hnd). unfold proposer_part at 1.
  destruct (decide (x.2 = pr)) as [<-|Hne].
  - rewrite decide_False, decide_True by (done || left). lia.
  - destruct (decide (pr ∈ l.*2)) as [Hin|Hnin].
    + rewrite decide_True by (by right). lia.
    + rewrite decide_False by (apply not_elem_of_cons; split; congruence). lia.
Qed.

Lemma signer_part_sum k signers sign (l : list (Z * A)) :
  zsum (signer_part k signers sign) l =
  zsum (λ x, signer_coeff k * (E12 * scaled x / sign) / E12) (filter (λ x, x.2 ∈ signers) l).
Proof using Type.
  induction l as [|x l IH]; [done|]. rewrite zsum_cons, IH. unfold signer_part at 1. destruct (decide (x.2 ∈ signers)).
  - rewrite filter_cons_True by done. by rewrite zsum_cons.
  - rewrite filter_cons_False by done. lia.
Qed.

Lemma zsum_nonzero (f : Z * A → Z) l : (∀ x, x.1 = 0 → f x = 0) → zsum f (filter (λ x, x.1 ≠ 0) l) = zsum f l.
Proof using Type.
  intros Hf. induction l as [|x l IH]; [done|]. rewrite (zsum_cons _ x l). destruct (decide (x.1 = 0)) as [E|].
  - rewrite filter_cons_False by naive_solver. rewrite IH, (Hf x E). lia.
  - rewrite filter_cons_True by done. by rewrite zsum_cons, IH.
Qed.

(** The fractions of a block are not negative and add up to the whole, but for
    what the divisions round down. *)
Lemma block_fractions_sum k proposer signers sign cons (l : list (Z * A)) values :
  sound_coeffs k → 0 < sign → 0 < cons → NoDup l.*2 → Forall (λ x, 0 ≤ x.1) l →
  zsum scaled l = cons → zsum scaled (filter (λ x, x.2 ∈ signers) l) = sign →
  block_fractions k proposer signers sign cons l = Ok values →
  NoDup values.*1 ∧ Forall (λ x, 0 ≤ x.2) values ∧ zsum snd values ≤ E12 ∧
  ((∃ x, x ∈ l ∧ x.2 = proposer ∧ x.1 ≠ 0) → E12 - 4 * Z.of_nat (length l) ≤ zsum snd values).
Proof using Type.
  intros [Hp Hs Ha Hsum] Hsign Hcons Hnd Hst Hc Hsg H.
  apply block_fractions_ok in H as ->; [|done..]. set (L := filter (λ x, x.1 ≠ 0) l).
  assert (HL : NoDup L.*2) by (eapply sublist_NoDup; [exact Hnd|]; apply fmap_sublist, sublist_filter).
  assert (Hlen : Z.of_nat (length L) ≤ Z.of_nat (length l)) by (unfold L; apply inj_le, length_filter).
  assert (HstL : Forall (λ x, 0 ≤ scaled x) L).
  { apply Forall_filter. eapply Forall_impl; [exact Hst|]. unfold scaled. intros; cbn in *; lia. }
  assert (HcL : zsum scaled L = cons) by (unfold L; rewrite zsum_nonzero; [done|]; unfold scaled; intros x ->; lia).
  assert (HsL : zsum scaled (filter (λ x, x.2 ∈ signers) L) = sign).
  { rewrite <-Hsg. unfold L. transitivity (zsum scaled (filter (λ x, x.1 ≠ 0) (filter (λ x, x.2 ∈ signers) l))).
    - rewrite !list_filter_filter. f_equal. apply list_filter_iff. intros x. tauto.
    - apply zsum_nonzero. unfold scaled. intros x ->; lia. }
  assert (Hv : zsum snd ((λ x, (x.2, whole_frac k proposer signers sign cons x)) <$> L) =
    zsum (proposer_part k proposer) L + zsum (signer_part k signers sign) L + zsum (active_part k cons) L).
  { rewrite zsum_fmap. cbn. clear. induction L as [|x L IH]; [done|]. rewrite !zsum_cons, IH. unfold whole_frac. lia. }
  rewrite Hv, proposer_part_sum, signer_part_sum by done.
  pose proof (zsum_shares (signer_coeff k) sign scaled (filter (λ x, x.2 ∈ signers) L) Hs Hsign ltac:(by apply Forall_filter) ltac:(lia)) as U1.
  pose proof (zsum_shares (active_val_coeff k) cons scaled L Ha Hcons HstL ltac:(lia)) as U2.
  pose proof (zsum_shares_dust (signer_coeff k) sign scaled (filter (λ x, x.2 ∈ signers) L) ltac:(lia) Hsign HsL) as D1.
  pose proof (zsum_shares_dust (active_val_coeff k) cons scaled L ltac:(lia) Hcons HcL) as D2.
  pose proof (length_filter (λ x : Z * A, x.2 ∈ signers) L). fold scaled in *.
  change (zsum (active_part k cons) L) with (zsum (λ x, active_val_coeff k * (E12 * scaled x / cons) / E12) L).
  split_and!.
  - rewrite <-list_fmap_compose. exact HL.
  - apply Forall_fmap. eapply Forall_impl; [exact HstL|]. intros x Hx. cbn. unfold whole_frac, proposer_part, signer_part, active_part. unfold scaled in Hx.
    assert (0 ≤ E12 * (x.1 * 10 ^ 6) / sign) by (apply Z.div_pos; lia). assert (0 ≤ E12 * (x.1 * 10 ^ 6) / cons) by (apply Z.div_pos; lia).
    assert (0 ≤ signer_coeff k * (E12 * (x.1 * 10 ^ 6) / sign) / E12) by (apply Z.div_pos; [apply Z.mul_nonneg_nonneg|]; lia).
    assert (0 ≤ active_val_coeff k * (E12 * (x.1 * 10 ^ 6) / cons) / E12) by (apply Z.div_pos; [apply Z.mul_nonneg_nonneg|]; lia).
    destruct (decide _), (decide _); lia.
  - destruct (decide _); lia.
  - intros (x & Hx & Hpr & Hx0). rewrite decide_True; [lia|]. apply list_elem_of_fmap. exists x. split; [done|]. by apply list_elem_of_filter.
Qed.
End block.

(** ** Coefficients *)

(** Two thirds of the stake, rounded up. *)
Definition votes_needed (total : Z) : Z := (2 * total + 2) / 3.

(** What the proposer gets beyond the minimum. *)
Definition proposer_extra (c : PosRewardsCalculator) : Z :=
  E12 * ((signing_stake c - votes_needed (total_stake c)) * proposer_reward c / E12) / total_stake c.

Lemma zdec_div_eq a b : 0 ≤ a ≤ 2 ^ 210 → 0 < b → ZDec.div a b = Some (E12 * a / b).
Proof.
  intros Ha Hb. unfold ZDec.div. destruct (Z.eqb_spec b 0); [lia|].
  assert (0 ≤ E12 * a / b) by (apply Z.div_pos; lia). assert (E12 * a / b ≤ E12 * a) by (apply Z.div_le_upper_bound; nia).
  rewrite Z.quot_div_nonneg by lia. apply chk_i_in. cbn in *. lia.
Qed.

Lemma from_amount_in a : 0 ≤ a ≤ 2 ^ 200 → ZDec.try_from_amount a = Some (a * 10 ^ 6).
Proof. intros Ha. apply chk_i_in. cbn in *. lia. Qed.

Record calculator_typed (c : PosRewardsCalculator) : Prop := {
  ct_total : 0 < total_stake c ≤ 2 ^ 190;
  ct_signing : 0 ≤ signing_stake c ≤ total_stake c;
  ct_proposer : 0 ≤ proposer_reward c ≤ E12;
  ct_signer : 0 ≤ signer_reward c ≤ E12;
}.

Lemma proposer_extra_bounds c : calculator_typed c → votes_needed (total_stake c) ≤ signing_stake c →
  0 ≤ proposer_extra c ∧ 3 * proposer_extra c ≤ proposer_reward c.
Proof.
  intros [Ht Hs Hp _] Hle. unfold proposer_extra. set (d := signing_stake c - votes_needed (total_stake c)).
  assert (0 ≤ d ∧ 3 * d ≤ total_stake c) as [Hd0 Hd].
  { unfold d, votes_needed in *. pose proof (Z.div_mod (2 * total_stake c + 2) 3 ltac:(lia)). pose proof (Z.mod_pos_bound (2 * total_stake c + 2) 3 ltac:(lia)). lia. }
  set (y := d * proposer_reward c / E12). assert (0 ≤ y) by (apply Z.div_pos; nia).
  assert (E12 * y ≤ d * proposer_reward c) by (apply Z.mul_div_le; lia).
  assert (0 ≤ E12 * y / total_stake c) by (apply Z.div_pos; lia).
  assert (total_stake c * (E12 * y / total_stake c) ≤ E12 * y) by (apply Z.mul_div_le; lia). split; [done|]. nia.
Qed.

Lemma get_reward_coeffs_run c : calculator_typed c →
  get_reward_coeffs c =
    if signing_stake c <? votes_needed (total_stake c)
    then Err (InsufficientVotes (votes_needed (total_stake c)) (signing_stake c))
    else Ok (mk_coeffs (proposer_extra c + MIN_PROPOSER_REWARD) (signer_reward c)
               (E12 - (proposer_extra c + MIN_PROPOSER_REWARD) - signer_reward c)).
Proof.
  intros Hc. pose proof (proposer_extra_bounds c Hc) as Hb. destruct Hc as [Ht Hs Hp Hr]. assert (HM : MIN_PROPOSER_REWARD = 10000000000) by done.
  unfold get_reward_coeffs, get_min_required_votes.
  rewrite chk_in by (cbn in *; lia). cbn [mbind option_bind]. unfold ZAmount.add, ZAmount.sub. rewrite chk_in by (cbn in *; lia). cbn [mbind option_bind].
  replace ((total_stake c * 2 + 2) / 3) with (votes_needed (total_stake c)) by (unfold votes_needed; f_equal; lia).
  cbn [expect mbind res_bind]. destruct (Z.ltb_spec (signing_stake c) (votes_needed (total_stake c))); [done|]. destruct (Hb ltac:(done)) as [B1 B2].
  assert (0 ≤ votes_needed (total_stake c)) by (apply Z.div_pos; lia). set (d := signing_stake c - votes_needed (total_stake c)) in *.
  rewrite chk_in by (cbn in *; lia). cbn [ok_or mbind res_bind]. fold d.
  assert (Hy : ZAmount.mul_floor d (proposer_reward c) = Some (d * proposer_reward c / E12)).
  { unfold ZAmount.mul_floor. destruct (Z.ltb_spec (proposer_reward c) 0); [lia|]. rewrite chk_in; [done|]. cbn in *. nia. }
  rewrite Hy. cbn [ok_or mbind res_bind]. set (y := d * proposer_reward c / E12).
  assert (0 ≤ y ≤ 2 ^ 190).
  { split; [apply Z.div_pos; nia|]. transitivity d; [|unfold d; lia]. apply Z.div_le_upper_bound; [lia|]. nia. }
  rewrite !from_amount_in by (cbn in *; lia). cbn [ok_or mbind res_bind]. rewrite zdec_div_eq by (cbn in *; lia). cbn [ok_or mbind res_bind].
  replace (E12 * (y * 10 ^ 6)) with (E12 * y * 10 ^ 6) by ring. rewrite Z.div_mul_cancel_r by lia.
  change (E12 * y / total_stake c) with (proposer_extra c). unfold ZDec.add, ZDec.sub. rewrite chk_i_in by (cbn in *; lia). cbn [ok_or mbind res_bind].
  rewrite chk_i_in by (cbn in *; lia). cbn [ok_or mbind res_bind]. rewrite chk_i_in by (cbn in *; lia). done.
Qed.

(** ** Logging a block *)

Section logging.
Context {AA : AddressApi} {I : InternalAddrs AA} {OA : CmpOrder Address} {KK : PosKeys AA}.
Abbreviation A := Address.
Context (params : PosParams).

Lemma on_vsets_read {B} (m : stt (VSets (A:=A)) (PosError A) B) s s' b :
  (∀ t, (m t).1 = t) → on_vsets m s = (s', Ok b) → s' = s ∧ (m (vsets s)).2 = Ok b.
Proof using Type.
  intros Hm H. unfold on_vsets, zoom in H. specialize (Hm (vsets s)). destruct (m (vsets s)) as [t r]. cbn in Hm. subst t.
  injection H as <- ->. split; [|done]. by destruct s.
Qed.

Lemma state_get_read (v : A) e t : (state_get params v e t).1 = t.
Proof using Type. unfold state_get, mbind, stt_bind, get, gets, lift. by destruct (h_get _ _ _ _ _). Qed.
Lemma read_stake_read (v : A) e t : (read_validator_stake params v e t).1 = t.
Proof using Type. unfold read_validator_stake, mbind, stt_bind, get, gets, lift, mret, stt_ret. destruct (d_sum _ _ _ _ _ _); [|done..]. by repeat case_match. Qed.
Lemma total_stake_read e (t : VSets (A:=A)) : (get_total_consensus_stake params e t).1 = t.
Proof using Type. unfold get_total_consensus_stake, mbind, stt_bind, get, lift. destruct (h_get _ _ _ _ _) as [o| |]; [|done..]. done. Qed.

(** The stake of a validator at an epoch. *)
Definition stake_at (s : PosStore) (e : Epoch) (v : A) : Z :=
  match (read_validator_stake params v e (vsets s)).2 with Ok x => x | _ => 0 end.
Definition voters (votes : list VoteInfo) : list A := validator_address <$> filter (λ v, validator_vp v ≠ 0) votes.

Lemma signing_votes_ok e votes sg t s s' r : signing_votes params e votes sg t s = (s', Ok r) →
  s' = s ∧ r = (list_to_set (voters votes) ∪ sg, t + zsum (stake_at s e) (voters votes)).
Proof using Type.
  revert sg t. induction votes as [|v votes IH]; intros sg t H.
  - cbn [signing_votes] in H. stt_inv H. split; [done|]. cbn. by rewrite union_empty_l_L, Z.add_0_r.
  - cbn [signing_votes] in H. unfold voters. destruct (Z.eqb_spec (validator_vp v) 0) as [E|E].
    { rewrite filter_cons_False by naive_solver. by apply IH in H. }
    rewrite filter_cons_True by done. stt_inv H. apply on_vsets_read in Hrun as [-> _]; [|apply state_get_read].
    case_bool_decide; [by stt_inv H|]. stt_inv H. apply on_vsets_read in Hrun as [-> Hst]; [|apply read_stake_read].
    apply ok_or_ok, chk_Some in Hrun0 as [-> _]. apply IH in H as [-> ->]. split; [done|]. rewrite fmap_cons, zsum_cons. cbn [list_to_set foldr].
    f_equal; [|unfold stake_at at 2; rewrite Hst; unfold voters; lia]. set_solver.
Qed.

Definition accumulated (s : PosStore) : Z := zsum snd (map_to_list (rewards_accumulator (rewards s))).

Lemma accumulate_ok (l : list (A * Z)) s s' u : for_each accumulate l s = (s', Ok u) →
  accumulated s' = accumulated s + zsum snd l ∧
  ∀ v, default 0 (rewards_accumulator (rewards s') !! v) =
    default 0 (rewards_accumulator (rewards s) !! v) + zsum (λ x, if decide (x.1 = v) then x.2 else 0) l.
Proof using Type.
  intros H. assert (Hstep : ∀ x s2 s3, accumulate x s2 = (s3, Ok ()) → accumulated s3 = accumulated s2 + x.2 ∧
    ∀ v, default 0 (rewards_accumulator (rewards s3) !! v) = default 0 (rewards_accumulator (rewards s2) !! v) + if decide (x.1 = v) then x.2 else 0).
  { intros x s2 s3 Hr. unfold accumulate in Hr. pos_inv Hr. unfold arith in *. apply ok_or_ok, zdec_add_some in Hrun as ->. split.
    - unfold accumulated. cbn. set (m := rewards_accumulator (rewards s2)).
      pose proof (zsum_map_change snd m (<[x.1 := default 0 (m !! x.1) + x.2]> m) x.1 ltac:(intros; by rewrite lookup_insert_ne)) as Hc.
      rewrite lookup_insert_eq in Hc. destruct (m !! x.1); cbn in *; unfold id in *; lia.
    - intros v. cbn. destruct (decide (x.1 = v)) as [->|]; [rewrite lookup_insert_eq; cbn; unfold id; lia|rewrite lookup_insert_ne by done; lia]. }
  revert s H. induction l as [|x l IH]; intros s H; cbn [for_each] in H; stt_inv H.
  - split; [cbn; lia|]. intros v. cbn. lia.
  - destruct v. apply Hstep in Hrun as [E1 E2]. destruct (IH _ H) as [E3 E4]. split; [rewrite E3, E1, zsum_cons; lia|].
    intros v. rewrite E4, E2, zsum_cons. lia.
Qed.

(** What the store agrees on about an epoch: the consensus set, its total stake,
    and the stakes of those who voted. *)
Record sound_block (s : PosStore) (e : Epoch) (votes : list VoteInfo) : Prop := {
  sb_nodup : NoDup (consensus_entries (consensus_at (vsets s) e)).*2;
  sb_stakes : Forall (λ x, 0 ≤ x.1) (consensus_entries (consensus_at (vsets s) e));
  sb_positive : 0 < zsum fst (consensus_entries (consensus_at (vsets s) e)) ≤ 2 ^ 190;
  sb_total : (get_total_consensus_stake params e (vsets s)).2 = Ok (zsum fst (consensus_entries (consensus_at (vsets s) e)));
  sb_voters : NoDup (voters votes);
  sb_voter v : v ∈ voters votes → (stake_at s e v, v) ∈ consensus_entries (consensus_at (vsets s) e);
}.

Lemma signers_sum (V : list (Z * A)) (st : A → Z) (vs : list A) : NoDup V.*2 → NoDup vs → (∀ v, v ∈ vs → (st v, v) ∈ V) →
  zsum fst (filter (λ x, x.2 ∈ (list_to_set vs : gset A)) V) = zsum st vs.
Proof using Type.
  intros HV Hvs Hin. transitivity (zsum fst ((λ v, (st v, v)) <$> vs)); [|by rewrite zsum_fmap].
  apply zsum_perm, NoDup_Permutation.
  - apply NoDup_filter. by eapply NoDup_fmap_1.
  - apply (NoDup_fmap_2_strong _ _); [|done]. by intros x y _ _ [= _ ->].
  - intros [a v]. rewrite list_elem_of_filter, list_elem_of_fmap, elem_of_list_to_set. cbn. split.
    + intros [Hv Ha]. exists v. split; [|done]. f_equal. pose proof (Hin v Hv) as Hv'.
      apply list_elem_of_lookup in Ha as [i Hi]. apply list_elem_of_lookup in Hv' as [j Hj].
      assert (i = j) as ->; [|congruence]. apply (NoDup_lookup (V.*2) i j v HV); by rewrite list_lookup_fmap, ?Hi, ?Hj.
    + intros (w & [= -> ->] & Hw). split; [done|]. by apply Hin.
Qed.
End logging.

Record sound_rates (p : OwnedPosParams) : Prop := {
  sr_proposer : 0 ≤ block_proposer_reward p ≤ E12;
  sr_vote : 0 ≤ block_vote_reward p ≤ E12;
  sr_sum : block_proposer_reward p + 3 * (MIN_PROPOSER_REWARD + block_vote_reward p) ≤ 3 * E12;
}.

Lemma filter_sum_le {X} (P : X → Prop) `{∀ x, Decision (P x)} (f : X → Z) l : Forall (λ x, 0 ≤ f x) l → zsum f (filter P l) ≤ zsum f l.
Proof.
  induction 1 as [|x l Hx _ IH]; [cbn; lia|]. destruct (decide (P x)); [rewrite filter_cons_True by done|rewrite filter_cons_False by done];
    rewrite ?zsum_cons; lia.
Qed.

Lemma zsum_scaled {AA : AddressApi} (l : list (Z * Address)) : zsum scaled l = zsum fst l * 10 ^ 6.
Proof. unfold scaled. induction l as [|x l IH]; [done|]. rewrite !zsum_cons, IH. lia. Qed.

(** The rewards of a block.  When a block is logged, no validator's
    accumulated fraction shrinks, and together the fractions grow by at most the
    whole block and, when the proposer is in the consensus set, by all of it but
    for four units of the last digit for every validator. *)
Theorem block_rewards_add_up {AA : AddressApi} {I : InternalAddrs AA} {OA : CmpOrder Address} {KK : PosKeys AA}
    (params : PosParams) (e : Epoch) (proposer : Address) (votes : list VoteInfo) (s s' : PosStore) :
  sound_rates (owned params) → sound_block params s e votes →
  log_block_rewards_aux params e proposer votes s = (s', Ok ()) →
  let V := consensus_entries (consensus_at (vsets s) e) in
  (∀ v, default 0 (rewards_accumulator (rewards s) !! v) ≤ default 0 (rewards_accumulator (rewards s') !! v)) ∧
  accumulated s' ≤ accumulated s + E12 ∧
  ((∃ stake, (stake, proposer) ∈ V ∧ stake ≠ 0) → accumulated s + E12 - 4 * Z.of_nat (length V) ≤ accumulated s').
Proof.
  intros [Hp Hv Hsum] [Hnd Hst Hpos Htot Hnv Hvot] H V. fold V in Hnd, Hst, Hpos, Htot, Hvot.
  unfold log_block_rewards_aux in H. stt_inv H. apply on_vsets_read in Hrun as [-> Ht]; [|apply total_stake_read]. assert (v = zsum fst V) as -> by congruence.
  destruct v0 as [sg t]. stt_inv H. apply signing_votes_ok in Hrun0 as [-> [= -> ->]]. rewrite union_empty_r_L, Z.add_0_l in *.
  set (T := zsum (stake_at params s e) (voters votes)) in *.
  assert (HT : zsum fst (filter (λ x, x.2 ∈ (list_to_set (voters votes) : gset Address)) V) = T) by (by apply signers_sum).
  apply ok_or_ok, from_amount_some in Hrun1 as ->. apply ok_or_ok, from_amount_some in Hrun2 as ->.
  assert (HTle : 0 ≤ T ≤ zsum fst V).
  { rewrite <-HT. split; [apply zsum_nonneg|by apply filter_sum_le]. intros x [_ Hx]%list_elem_of_filter. by apply (proj1 (Forall_forall _ _) Hst). }
  set (c := mk_calculator _ _ T (zsum fst V)) in *.
  assert (Hc : calculator_typed c) by (constructor; cbn; lia). rewrite (get_reward_coeffs_run c Hc) in Hrun.
  destruct (Z.ltb_spec (signing_stake c) (votes_needed (total_stake c))) as [|Hle]; [done|]. injection Hrun as <-.
  pose proof (proposer_extra_bounds c Hc Hle) as [B1 B2]. assert (HM : MIN_PROPOSER_REWARD = 10000000000) by done.
  assert (0 < T).
  { cbn in Hle. unfold votes_needed in Hle. pose proof (Z.div_mod (2 * zsum fst V + 2) 3 ltac:(lia)).
    pose proof (Z.mod_pos_bound (2 * zsum fst V + 2) 3 ltac:(lia)). lia. }
  match type of Hrun3 with _ = Ok ?x => set (values := x) in * end. apply block_fractions_sum in Hrun3 as (N1 & N2 & N3 & N4); [| |lia|lia|done|done|by rewrite zsum_scaled|rewrite zsum_scaled; f_equal; exact HT].
  2: { cbn in B2. constructor; cbn; lia. }
  apply accumulate_ok in H as [E1 E2]. split; [|split].
  - intros v. rewrite E2. assert (0 ≤ zsum (λ x : Address * Z, if decide (x.1 = v) then x.2 else 0) values); [|lia].
    apply zsum_nonneg. intros x Hx. destruct (decide _); [|done]. by apply (proj1 (Forall_forall _ _) N2).
  - lia.
  - intros (stake & Hin & Hne). rewrite E1. assert (E12 - 4 * Z.of_nat (length V) ≤ zsum snd values); [|lia]. apply N4. by exists (stake, proposer).
Qed.

(** ** Distribution of inflation *)

(** The tokens a validator gets. *)
Definition reward_of (inflation num value : Z) : Z := inflation * (value / num) / E12.

Lemma rewards_within (X : Type) (inflation num : Z) (f : X → Z) l : 0 ≤ inflation → 0 < num → zsum f l ≤ num * E12 →
  zsum (λ x, reward_of inflation num (f x)) l ≤ inflation.
Proof.
  intros Hi Hn Hf. pose proof (zsum_div num f l Hn) as [_ H1].
  pose proof (zsum_div E12 (λ x, inflation * (f x / num)) l ltac:(lia)) as [_ H2]. rewrite zsum_mul_l in H2. cbn beta in *.
  unfold reward_of. assert (zsum (λ x, f x / num) l ≤ E12) by nia. nia.
Qed.

Section distribution.
Context {AA : AddressApi} {I : InternalAddrs AA} {OA : CmpOrder Address} {KK : PosKeys AA}.
Abbreviation A := Address.
Context (params : PosParams) (s : PosStore) (last_epoch num inflation : Z).
Hypothesis Hnum : 0 < num < 2 ^ 64.

Lemma share_tokens v value x r : 0 ≤ value → validator_share params s last_epoch num inflation v value = Ok (x, r) →
  x = reward_of inflation num value.
Proof using Hnum.
  intros Hv H. unfold validator_share in H. res_inv H. unfold arith in *.
  assert (v0 = num * E12) as ->. { unfold ZDec.from_u64, chk_i in Hres. destruct (_ <=? _); [by injection Hres as <-|done]. }
  apply ok_or_ok, zdec_div_nonneg in Hres0 as ->; [|lia..]. rewrite (Z.mul_comm E12), Z.div_mul_cancel_r in Hres1 by lia.
  apply ok_or_ok in Hres1. unfold ZAmount.mul_floor in Hres1. destruct (_ <? 0); [done|]. unfold chk in Hres1. destruct (in_u _ _); [|done].
  by injection Hres1 as <-.
Qed.

(** The share of a validator goes to it and its delegators: its commission, and at
    most the rest by the product with its stake. *)
Lemma share_split v value x r : 0 ≤ inflation → 0 ≤ value → validator_share params s last_epoch num inflation v value = Ok (x, r) →
  0 < stake_at params s last_epoch v →
  (∀ rate, (commission_get params v last_epoch s).2 = Ok (Some rate) → 0 ≤ rate ≤ E12) →
  0 ≤ commissions r ∧ 0 ≤ product r ∧ commissions r + stake_at params s last_epoch v * product r / E12 ≤ x.
Proof using Hnum.
  intros Hi Hv H Hst Hrate. assert (0 ≤ x).
  { rewrite (share_tokens v value x r Hv H). unfold reward_of. apply Z.div_pos; [|lia]. apply Z.mul_nonneg_nonneg; [lia|]. apply Z.div_pos; lia. }
  unfold validator_share in H. res_inv H. unfold arith in *.
  specialize (Hrate _ Hres4). unfold stake_at in *. rewrite Hres2 in *. apply from_amount_some in Hres3 as ->. apply from_amount_some in Hres6 as ->.
  apply ok_or_ok, zdec_sub_some in Hres7 as ->. apply ok_or_ok, zdec_mul_nonneg in Hres8 as ->; [|lia..].
  set (y := (E12 - v6) * (x * 10 ^ 6) / E12) in *. assert (0 ≤ y) by (apply Z.div_pos; nia).
  assert (E12 * y ≤ (E12 - v6) * (x * 10 ^ 6)) by (apply Z.mul_div_le; lia).
  apply ok_or_ok, zdec_div_nonneg in Hres9 as ->; [|lia..]. set (q := E12 * y / (v3 * 10 ^ 6)). assert (0 ≤ q) by (apply Z.div_pos; lia).
  assert (v3 * 10 ^ 6 * q ≤ E12 * y) by (apply Z.mul_div_le; lia).
  apply ok_or_ok in Hres10. unfold ZAmount.mul_floor in Hres10. destruct (Z.ltb_spec v6 0); [lia|].
  unfold chk in Hres10. destruct (in_u _ _); [|done]. injection Hres10 as <-. cbn [commissions product].
  assert (0 ≤ x * v6 / E12) by (apply Z.div_pos; nia). split; [done|]. split; [done|].
  assert (v3 * q ≤ (E12 - v6) * x) by nia.
  assert (v3 * q / E12 ≤ (E12 - v6) * x / E12) by (apply Z.div_le_mono; lia).
  assert ((E12 - v6) * x / E12 + x * v6 / E12 ≤ x); [|lia].
  pose proof (Z.mul_div_le ((E12 - v6) * x) E12 ltac:(lia)). pose proof (Z.mul_div_le (x * v6) E12 ltac:(lia)). nia.
Qed.

Definition rewards_map (l : list (A * Z)) : Z := zsum (λ x, reward_of inflation num x.2) l.

Lemma shares_ok l st r : Forall (λ x, 0 ≤ x.2) l → NoDup (l.*1) → (∀ x, x ∈ l.*1 → x ∉ st.2.*1) →
  try_fold (share_step params s last_epoch num inflation) st l = Ok r →
  r.1.2 = st.1.2 - rewards_map l ∧ (0 ≤ st.1.2 → 0 ≤ r.1.2) ∧
  ∃ rs, r.2 = st.2 ++ rs ∧ Forall2 (λ x y, y.1 = x.1 ∧ validator_share params s last_epoch num inflation x.1 x.2 = Ok (reward_of inflation num x.2, y.2)) l rs.
Proof using Hnum.
  revert st. induction l as [|x l IH]; intros [[a rem] pr] Hl Hnd Hnew H.
  - injection H as <-. unfold rewards_map. cbn. split; [lia|]. split; [done|]. exists []. by rewrite app_nil_r.
  - cbn [try_fold] in H. apply res_bind_ok in H as (st & H1 & H2). unfold share_step in H1. res_inv H1. destruct v0 as [tok rw]. res_inv H1.
    apply Forall_cons in Hl as [Hx Hl]. rewrite fmap_cons in Hnd, Hnew. apply NoDup_cons in Hnd as [Hxn Hnd]. cbn [fst snd] in *.
    pose proof (share_tokens _ _ _ _ Hx Hres0) as ->. unfold arith in *. apply ok_or_ok, chk_Some in Hres1 as [-> Hpos].
    rewrite hm_insert_new in H2 by (apply Hnew; left).
    destruct (IH (v, rem - reward_of inflation num x.2, pr ++ [(x.1, rw)]) Hl Hnd) as [E1 [E0 (rs & E2 & E3)]]; [|exact H2|].
    + cbn [snd]. intros y Hy. rewrite fmap_app, elem_of_app. intros [Hy'|Hy'%list_elem_of_singleton]; [by apply (Hnew y); [right|]|cbn in Hy'; by subst y].
    + split; [rewrite E1; unfold rewards_map; rewrite zsum_cons; cbn; lia|]. split; [intros _; apply E0; cbn; lia|]. exists ((x.1, rw) :: rs). cbn [snd] in E2. rewrite E2, <-app_assoc.
      split; [done|]. constructor; [done|exact E3].
Qed.

(** The loop fails only when a share does: there is always enough inflation left. *)
Lemma shares_enough l st : 0 ≤ inflation → Forall (λ x, 0 ≤ x.2 ∧ ∃ r, validator_share params s last_epoch num inflation x.1 x.2 = Ok r) l →
  0 ≤ st.1.1 → st.1.1 + zsum snd l ≤ num * E12 → rewards_map l ≤ st.1.2 < 2 ^ 256 →
  ∃ r, try_fold (share_step params s last_epoch num inflation) st l = Ok r.
Proof using Hnum.
  intros Hi. revert st. induction l as [|x l IH]; intros [[a rem] pr] Hl Ha Hs Hr; [by eexists|].
  apply Forall_cons in Hl as [[Hx [[tok rw] Hsh]] Hl]. unfold rewards_map in *. rewrite zsum_cons in Hs, Hr. cbn [fst snd] in *.
  assert (0 ≤ zsum snd l) by (apply zsum_nonneg; intros y Hy; by apply (proj1 (Forall_forall _ _) Hl)).
  assert (Hrw : ∀ v, 0 ≤ v → 0 ≤ reward_of inflation num v).
  { intros v Hv. apply Z.div_pos; [|lia]. apply Z.mul_nonneg_nonneg; [lia|]. apply Z.div_pos; lia. }
  assert (0 ≤ zsum (λ x, reward_of inflation num x.2) l) by (apply zsum_nonneg; intros y Hy; by apply Hrw, (proj1 (Forall_forall _ _) Hl)).
  specialize (Hrw _ Hx). pose proof (share_tokens _ _ _ _ Hx Hsh) as ->.
  assert (share_step params s last_epoch num inflation ((a, rem), pr) x =
    Ok ((a + x.2, rem - reward_of inflation num x.2), hm_insert x.1 rw pr)) as E.
  { unfold share_step, ZDec.add, ZAmount.sub. rewrite chk_i_in by (cbn in *; lia). unfold arith. cbn [ok_or mbind res_bind].
    rewrite Hsh. cbn [mbind res_bind]. by rewrite chk_in by lia. }
  cbn [try_fold]. rewrite E. cbn [mbind res_bind]. apply IH; cbn [fst snd]; [done|lia..].
Qed.
End distribution.

Section minting.
Context {AA : AddressApi} {I : InternalAddrs AA} {OA : CmpOrder Address} {KK : PosKeys AA}.
Abbreviation A := Address.

Definition counter (s : PosStore) (v : A) : Z := read_rewards_counter v v s.
Definition product_at (s : PosStore) (v : A) (e : Epoch) : option Z := at_ (rewards_products (rewards s)) v !! e.

(** The rewards of a list of validators are stored. *)
Lemma store_rewards_ok e (rs : list (A * Rewards)) s s' u : NoDup rs.*1 → for_each (store_reward e) rs s = (s', Ok u) →
  tokens s' = tokens s ∧ (∀ v e', e' ≠ e → product_at s' v e' = product_at s v e') ∧
  (∀ v, v ∉ rs.*1 → product_at s' v e = product_at s v e ∧ counter s' v = counter s v) ∧
  ∀ y, y ∈ rs → product_at s' y.1 e = Some (product y.2) ∧ counter s' y.1 = counter s y.1 + commissions y.2.
Proof using Type.
  assert (Hstep : ∀ y s1 s2, store_reward e y s1 = (s2, Ok ()) → tokens s2 = tokens s1 ∧
    (∀ v e', product_at s2 v e' = if decide (v = y.1 ∧ e' = e) then Some (product y.2) else product_at s1 v e') ∧
    (∀ v, counter s2 v = counter s1 v + if decide (v = y.1) then commissions y.2 else 0)).
  { intros y s1 s2 H. unfold store_reward, add_rewards_to_counter in H. pos_inv H. unfold arith in *. apply ok_or_ok, chk_Some in Hrun as [-> _].
    split; [done|]. unfold product_at, counter, read_rewards_counter. cbn. split.
    - intros w e'. rewrite at_insert. destruct (decide (w = y.1)) as [->|]; [|by rewrite decide_False by tauto].
      destruct (decide (e' = e)) as [->|]; [rewrite lookup_insert_eq, decide_True by done|rewrite lookup_insert_ne, decide_False by naive_solver]; done.
    - intros w. destruct (decide (w = y.1)) as [->|]; [rewrite lookup_insert_eq; cbn; unfold id; lia|]. rewrite lookup_insert_ne by congruence. lia. }
  revert s. induction rs as [|y rs IH]; intros s Hnd H; cbn [for_each] in H; stt_inv H.
  - split; [done|]. split; [done|]. split; [done|]. intros y Hy. by apply elem_of_nil in Hy.
  - destruct v. rewrite fmap_cons in Hnd. apply NoDup_cons in Hnd as [Hy Hnd]. apply Hstep in Hrun as (T1 & P1 & C1).
    destruct (IH _ Hnd H) as (T2 & P2 & P3 & P4). split; [congruence|]. split; [|split].
    + intros v e' He. rewrite P2, P1 by done. by rewrite decide_False by tauto.
    + intros v. rewrite fmap_cons, not_elem_of_cons. intros [Hv1 Hv2]. destruct (P3 v Hv2) as [-> ->]. rewrite P1, C1.
      rewrite !decide_False by tauto. split; [done|lia].
    + intros z [->|Hz]%elem_of_cons.
      * destruct (P3 y.1 Hy) as [-> ->]. rewrite P1, C1, !decide_True by done. done.
      * destruct (P4 z Hz) as [-> ->]. split; [done|]. rewrite C1, decide_False; [lia|]. intros E. apply Hy. rewrite <-E. apply list_elem_of_fmap. by exists z.
Qed.
End minting.

(** C31. The inflation of an epoch is minted to the last unit.  Every validator
    gets its accumulated share of the inflation, rounded down, as its commission
    and, by the product with its stake, for its bonds; the shares go to the account
    of proof of stake and the rest to that of public goods funding, although the
    function's documentation and its log message name the governance address; the supply grows by
    exactly the inflation, no other balance changes, governance's included, and the accumulators are
    cleared. *)
Theorem inflation_minted_exactly {AA : AddressApi} {I : InternalAddrs AA} {AL : AddressLaws AA} {OA : CmpOrder Address} {KK : PosKeys AA}
    (native_token : Address) (params : PosParams) (last_epoch num inflation : Z) (s s' : PosStore) :
  let acc := rewards_accumulator (rewards s) in
  wf_store (tokens s) → 0 < num < 2 ^ 64 → 0 ≤ inflation → map_Forall (λ _ x, 0 ≤ x) acc →
  update_rewards_products_and_mint_inflation native_token params last_epoch num inflation s = (s', Ok ()) →
  let given := zsum (λ x : Address * Z, reward_of inflation num x.2) (kvs acc) in
  0 ≤ given ≤ inflation ∧ rewards_accumulator (rewards s') = ∅ ∧
  (∀ t, supply (tokens s') t = supply (tokens s) t + if decide (t = native_token) then inflation else 0) ∧
  (∀ t o, balance (tokens s') t o = balance (tokens s) t o
     + (if decide (t = native_token ∧ o = pos) then given else 0)
     + (if decide (t = native_token ∧ o = pgf) then inflation - given else 0)) ∧
  ∀ v value, acc !! v = Some value →
    ∃ r, validator_share params s last_epoch num inflation v value = Ok (reward_of inflation num value, r) ∧
      product_at s' v last_epoch = Some (product r) ∧ counter s' v = counter s v + commissions r.
Proof.
  intros acc Hwf Hnum Hi Hacc H given. unfold update_rewards_products_and_mint_inflation in H. stt_inv H. fold acc in Hrun.
  destruct v as [[asum rem] rs]. stt_inv H. repeat match goal with u : unit |- _ => destruct u end.
  assert (Hnn : Forall (λ x : Address * Z, 0 ≤ x.2) (kvs acc)).
  { apply Forall_forall. intros [w x] Hx%elem_of_kvs. by apply (Hacc w x). }
  pose proof (shares_ok params s last_epoch num inflation Hnum (kvs acc) ((0, inflation), []) ((asum, rem), rs) Hnn (kvs_NoDup acc)
    ltac:(intros; apply not_elem_of_nil) Hrun) as [Hrem [Hrem0 (rs' & Hrs & Hsh)]].
  cbn [fst snd] in *. rewrite app_nil_l in Hrs. subst rs'. change (rewards_map num inflation (kvs acc)) with given in Hrem. specialize (Hrem0 Hi).
  assert (Hkeys : rs.*1 = (kvs acc).*1).
  { clear -Hsh. induction Hsh as [|x y l l' [E _] _ IH]; [done|]. by rewrite !fmap_cons, E, IH. }
  assert (0 ≤ given).
  { apply zsum_nonneg. intros x Hx. apply Z.div_pos; [|lia]. apply Z.mul_nonneg_nonneg; [lia|]. apply Z.div_pos; [|lia].
    by apply (proj1 (Forall_forall _ _) Hnn). }
  clearbody given. unfold arith in *. apply ok_or_ok, chk_Some in Hrun1 as [-> Hpr].
  apply store_rewards_ok in Hrun0 as (T1 & _ & _ & P1); [|rewrite Hkeys; apply kvs_NoDup].
  apply on_tokens_ok in Hrun2 as (t1 & C1 & ->). rewrite T1 in C1. apply (credit_adds AA I AL) in C1 as (W1 & S1 & B1); [|done|lia].
  match type of Hrun3 with _ (put_tokens t1 ?x) = (?y, _) => set (sa := x) in *; rename y into sb end.
  assert (∃ t2, wf_store t2 ∧ (∀ t, supply t2 t = supply t1 t + if decide (t = native_token) then rem else 0) ∧
    (∀ t o, balance t2 t o = balance t1 t o + if decide (t = native_token ∧ o = pgf) then rem else 0) ∧ sb = put_tokens t2 (put_tokens t1 sa)) as (t2 & W2 & S2 & B2 & ->).
  { destruct (Z.ltb_spec 0 rem).
    - apply on_tokens_ok in Hrun3 as (t2 & C2 & ->). apply (credit_adds AA I AL) in C2 as (W2 & S2 & B2); [|done|lia]. exists t2. done.
    - apply stt_ret_ok in Hrun3 as [-> _]. assert (rem = 0) as -> by lia. exists t1. split; [done|]. split; [intros; case_decide; lia|]. split; [intros; case_decide; lia|done]. }
  unfold on_rewards in H. stt_inv H. split; [lia|]. split; [done|]. split; [|split].
  - intros t. cbn [tokens put_rewards put_tokens]. rewrite S2, S1. case_decide; lia.
  - intros t o. cbn [tokens put_rewards put_tokens]. rewrite B2, B1. repeat case_decide; lia.
  - intros w value Hv. assert ((w, value) ∈ kvs acc) as Hin by (by apply elem_of_kvs).
    apply list_elem_of_lookup in Hin as [i Hi']. destruct (Forall2_lookup_l _ _ _ _ _ Hsh Hi') as (y & Hy & E & Hval). cbn in E, Hval. subst w.
    exists y.2. split; [done|]. apply (P1 y). by eapply list_elem_of_lookup_2.
Qed.

(** There is always enough inflation for the shares.  When the accumulators
    come to no more than one for every block of the epoch, which is all that
    logging the blocks adds, the distribution fails only where the share of a single
    validator cannot be computed. *)
Theorem inflation_covers_shares {AA : AddressApi} {I : InternalAddrs AA} {OA : CmpOrder Address} {KK : PosKeys AA}
    (params : PosParams) (last_epoch num inflation : Z) (s : PosStore) :
  let acc := rewards_accumulator (rewards s) in
  0 < num < 2 ^ 64 → 0 ≤ inflation < 2 ^ 256 → map_Forall (λ _ x, 0 ≤ x) acc → accumulated s ≤ num * E12 →
  (∀ v value, acc !! v = Some value → ∃ r, validator_share params s last_epoch num inflation v value = Ok r) →
  ∃ r, try_fold (share_step params s last_epoch num inflation) ((0, inflation), []) (kvs acc) = Ok r.
Proof.
  intros acc Hnum Hi Hacc Hsum Hsh. unfold accumulated in Hsum. fold acc in Hsum. rewrite <-(zsum_perm _ _ _ (kvs_perm acc)) in Hsum.
  apply shares_enough; cbn [fst snd]; [done|lia| |done|lia|].
  - apply Forall_forall. intros [v x] Hx%elem_of_kvs. split; [by apply (Hacc v x)|by apply Hsh].
  - split; [|lia]. apply (rewards_within _ inflation num snd); lia.
Qed.

(** ** Claims *)

(** C13. Claiming rewards pays exactly what the query says, from the account of
    proof of stake to the source; the counter is emptied and the epoch remembered,
    so that claiming again in the epoch pays nothing and changes nothing. *)
Theorem claim_pays_once {AA : AddressApi} {I : InternalAddrs AA} {AL : AddressLaws AA} {OA : CmpOrder Address} {KK : PosKeys AA}
    (native_token : Address) (params : PosParams) (source : option Address) (v : Address) (cur : Z) (s s' : PosStore) (x : Z) :
  let src := default v source in
  wf_store (tokens s) → src ≠ pos → claim_reward_tokens native_token params source v cur s = (s', Ok x) →
  query_reward_tokens params source v cur s = Ok x ∧ 0 ≤ x ∧
  (∀ t o, balance (tokens s') t o = balance (tokens s) t o + (if decide (t = native_token ∧ o = src) then x else 0)
                                                          - (if decide (t = native_token ∧ o = pos) then x else 0)) ∧
  read_rewards_counter src v s' = 0 ∧ get_last_reward_claim_epoch src v s' = Some cur ∧
  claim_reward_tokens native_token params source v cur s' = (s', Ok 0).
Proof.
  intros src Hw Hne H. unfold claim_reward_tokens, take_rewards_from_counter in H. fold src in H. pos_inv H.
  apply on_tokens_ok in Hrun1 as (t & Ht & ->). repeat match goal with u : unit |- _ => destruct u end. pose proof Hrun0 as Hq. apply arith_add_ok in Hrun0 as [-> Hx]. cbn [tokens put_rewards] in Ht.
  pose proof (λ H1 H2, transfer_moves AA I AL (tokens s) t native_token pos src _ Hw H1 H2 Ht) as Hm.
  destruct (Hm ltac:(lia) ltac:(done)) as (_ & _ & Hb). clear Hm.
  split; [|split; [lia|split; [exact Hb|split; [|split]]]].
  - unfold query_reward_tokens. fold src. rewrite Hrun. exact Hq.
  - unfold read_rewards_counter. cbn. by rewrite lookup_delete_eq.
  - unfold get_last_reward_claim_epoch. cbn. by rewrite lookup_insert_eq.
  - set (s' := put_tokens t _). assert (Hlast : get_last_reward_claim_epoch src v s' = Some cur) by (unfold get_last_reward_claim_epoch; cbn; by rewrite lookup_insert_eq).
    assert (Hc : rewards_counter (rewards s') !! (src, v) = None) by (cbn; by rewrite lookup_delete_eq).
    assert (H0 : compute_current_rewards_from_bonds params src v cur s' = Ok 0).
    { unfold compute_current_rewards_from_bonds. destruct (Z.eqb_spec cur 0); [done|]. rewrite Hlast. by rewrite bool_decide_true. }
    assert (Hput : ∀ x, x = rewards s' → put_rewards x s' = s') by (intros x ->; by destruct s').
    unfold claim_reward_tokens. fold src. rewrite (stt_bind_run get _ s' s' s') by done.
    rewrite (stt_bind_run _ _ s' s' 0) by (unfold lift; by rewrite H0).
    rewrite (stt_bind_run _ _ s' s' 0).
    2: { unfold take_rewards_from_counter, on_rewards, zoom, mbind, stt_bind, gets, modify. rewrite Hc. cbn [default]. rewrite Hput; [done|].
         unfold upd_rewards_counter. rewrite delete_id by done. by destruct (rewards s'). }
    rewrite (stt_bind_run _ _ s' s' 0) by done. rewrite (stt_bind_run _ _ s' s' ()).
    2: { unfold on_rewards, zoom, modify. rewrite Hput; [done|]. unfold upd_last_claim. rewrite insert_id by exact Hlast. by destruct (rewards s'). }
    rewrite (stt_bind_run _ _ s' s' ()); [done|]. unfold on_tokens, transfer. cbn [Z.eqb]. unfold mret, stt_ret. cbn [map_err]. by destruct s'.
Qed.

(** ** The metric of the controller *)

(** The controller of staking rewards sees a millionth of the staked ratio.
    The locked amount is converted to a decimal in whole tokens and the total in
    their smallest unit, so that the metric is at most 0.000001, while the last
    ratio it is compared with is the ratio itself. *)
Theorem inflation_metric_is_a_millionth {A : Type} (locked total rate last p_gain d_gain epochs target last_ratio : Z) :
  0 ≤ locked ≤ total → 0 < total ≤ 2 ^ 190 → 0 < epochs < 2 ^ 64 →
  let metric := locked * 10 ^ 6 / total in
  0 ≤ metric ≤ 10 ^ 6 ∧
  compute_inflation (A:=A) locked total rate last p_gain d_gain epochs target last_ratio =
    (x ← arith (ZDec.mul (total * E12) rate);
     coeff ← arith (ZDec.div x (epochs * E12));
     map_err (λ _, InflationFailure)
       (PDController.compute_inflation (mk_pd total rate last p_gain d_gain epochs target last_ratio) coeff metric)) ∧
  (l ← ZDec.try_from_amount locked; t ← ZDec.try_from_amount total; ZDec.div l t) = Some (locked * E12 / total).
Proof.
  intros Hl Ht He metric.
  assert (0 ≤ metric) by (apply Z.div_pos; lia). assert (metric ≤ 10 ^ 6) by (apply Z.div_le_upper_bound; nia).
  split; [done|]. split.
  - unfold compute_inflation, get_total_native_dec. cbn [total_native_amount get_epochs_per_year epochs_per_year].
    rewrite from_amount_in by (cbn in *; lia). unfold ZDec.try_from_uint, ZDec.from_u64. rewrite !chk_i_in by (cbn in *; lia).
    cbn [ok_or mbind res_bind map_err expect]. rewrite zdec_div_eq by (cbn in *; lia). unfold arith at 1. cbn [ok_or mbind res_bind].
    replace (E12 * (locked * 10 ^ 6) / (total * E12)) with metric; [done|]. unfold metric.
    rewrite (Z.mul_comm E12), Z.div_mul_cancel_r by lia. done.
  - rewrite !from_amount_in by (cbn in *; lia). cbn [mbind option_bind]. rewrite zdec_div_eq by (cbn in *; lia). f_equal.
    rewrite (Z.mul_comm E12), <-Z.mul_assoc, (Z.mul_comm (10 ^ 6)), Z.mul_assoc, Z.div_mul_cancel_r by lia. done.
Qed.

(** Half of the supply is staked, at the target and as in the last epoch; the gains
    differ, and the rewards shrink. *)
Lemma inflation_metric_is_a_millionth_witness :
  compute_inflation (A:=N) 2000000000000000 4000000000000000 100000000000 20000000000 100000000000 200000000000 365 500000000000 500000000000 =
    Ok 0 ∧ 2000000000000000 * 10 ^ 6 / 4000000000000000 = 500000.
Proof.
  destruct (inflation_metric_is_a_millionth (A:=N) 2000000000000000 4000000000000000 100000000000 20000000000 100000000000 200000000000 365
    500000000000 500000000000 ltac:(lia) ltac:(cbn; lia) ltac:(cbn; lia)) as (_ & -> & _). split; vm_compute; reflexivity.
Defined.

(** The values of the tests of [rewards.rs]. *)
Example test_inflation_calc_up :
  compute_inflation (A:=N) 2000000000000000 4000000000000000 100000000000 0 100000000000 100000000000 365 666666660000 500000000000 =
    Ok 18264839452 ∧
  compute_inflation (A:=N) 2000018264839452 4000000000000000 100000000000 18264839452 100000000000 100000000000 365 666666660000 500000000000 =
    Ok 36529678904.
Proof. split; vm_compute; reflexivity. Qed.

(** ** Examples *)

Definition at0 {D} (d : D) : EpochedSt D := mk_epoched (Some 0) (Some 0) {[0 := d]}.
(** Validators 11 and 13 in the consensus set, delegator 12 with a bond. *)
Definition reward_store : PosStore (AA:=addr_ref) :=
  mk_store
    (mk_vsets (mk_epoched (Some 0) (Some 0) {[1 := {[(2000000, 0) := 11%N; (1000000, 0) := 13%N]}]}) epoched_open epoched_open epoched_open
       {[11%N := at0 Consensus; 13%N := at0 Consensus]} {[11%N := at0 2000000; 13%N := at0 1000000]}
       (at0 3000000) (at0 3000000) (at0 3000000))
    (mk_bonding {[(12%N, 11%N) := at0 2000000]} ∅ ∅ ∅ ∅) (mk_redelegation ∅ ∅ ∅ ∅ ∅ ∅) (mk_slashes ∅ epoched_open ∅)
    (mk_rewards ∅ ∅ ∅ ∅ None None None)
    (mk_validators {[11%N := 10000000000; 13%N := 10000000000]} {[11%N := at0 50000000000; 13%N := at0 50000000000]} ∅ ∅ ∅ ∅ ∅ ∅ ∅ ∅ ∅)
    (<[bkey 20%N 12%N := VAmount 5000000]> ∅).
Definition example_votes : list (VoteInfo (AA:=addr_ref)) := [mk_vote 11%N 2; mk_vote 13%N 1].

Abbreviation example_log := (log_block_rewards_aux (AA:=addr_ref) example_params 1 11%N example_votes).
Abbreviation example_mint := (update_rewards_products_and_mint_inflation (AA:=addr_ref) 20%N example_params 1 1 900000).
Abbreviation example_claim := (claim_reward_tokens (AA:=addr_ref) 20%N example_params (Some 12%N) 11%N 2).

Lemma example_sound_rates : sound_rates (owned example_params).
Proof. constructor; vm_compute; repeat split; discriminate. Qed.

Lemma example_sound_block : sound_block (AA:=addr_ref) example_params reward_store 1 example_votes.
Proof.
  assert (E : consensus_entries (AA:=addr_ref) (consensus_at (vsets reward_store) 1) = [(1000000, 13%N); (2000000, 11%N)]) by (vm_compute; reflexivity).
  constructor; rewrite ?E.
  - apply (bool_decide_unpack _). vm_compute. exact I.
  - repeat constructor; cbn; lia.
  - cbn. lia.
  - vm_compute. reflexivity.
  - apply (bool_decide_unpack _). vm_compute. exact I.
  - intros v Hv. assert (Ev : voters (AA:=addr_ref) example_votes = [11%N; 13%N]) by (vm_compute; reflexivity). rewrite Ev in Hv.
    apply elem_of_cons in Hv as [->| ->%list_elem_of_singleton].
    + replace (stake_at _ _ _ _) with 2000000 by (vm_compute; reflexivity). right. left.
    + replace (stake_at _ _ _ _) with 1000000 by (vm_compute; reflexivity). left.
Qed.

Lemma example_rewards : ∃ s1 s2 s3, example_log reward_store = (s1, Ok ()) ∧ example_mint s1 = (s2, Ok ()) ∧ example_claim s2 = (s3, Ok 584724) ∧
  wf_store (tokens s1) ∧ map_Forall (λ _ x, 0 ≤ x) (rewards_accumulator (rewards s1)) ∧ wf_store (tokens s2) ∧
  balance (tokens s1) 20%N 3%N = 0 ∧ balance (tokens s2) 20%N 12%N = 5000000.
Proof.
  exists (example_log reward_store).1, (example_mint (example_log reward_store).1).1, (example_claim (example_mint (example_log reward_store).1).1).1.
  split; [apply run_ok; vm_compute; reflexivity|]. split; [apply run_ok; vm_compute; reflexivity|]. split; [apply run_ok; vm_compute; reflexivity|].
  split; [apply wf_store_check; vm_compute; reflexivity|]. split; [apply (bool_decide_unpack _); vm_compute; exact I|].
  split; [apply wf_store_check; vm_compute; reflexivity|]. split; vm_compute; reflexivity.
Qed.

Lemma block_rewards_add_up_witness : ∃ s1, example_log reward_store = (s1, Ok ()) ∧ E12 - 8 ≤ accumulated s1 ≤ E12.
Proof.
  destruct example_rewards as (s1 & _ & _ & H & _). exists s1. split; [exact H|].
  destruct (block_rewards_add_up (AA:=addr_ref) example_params 1 11%N example_votes reward_store s1 example_sound_rates example_sound_block H) as (_ & Hle & Hge).
  replace (accumulated reward_store) with 0 in Hle, Hge by (vm_compute; reflexivity).
  assert (E : consensus_entries (AA:=addr_ref) (consensus_at (vsets reward_store) 1) = [(1000000, 13%N); (2000000, 11%N)]) by (vm_compute; reflexivity).
  rewrite E in Hge. split; [|exact Hle]. apply Hge. exists 2000000. split; [right; left|done].
Defined.

Lemma inflation_minted_exactly_witness : ∃ s1 s2, example_mint s1 = (s2, Ok ()) ∧ balance (tokens s1) 20%N 3%N = 0 ∧
  0 ≤ balance (tokens s2) 20%N 3%N ≤ 900000 ∧ supply (tokens s2) 20%N = supply (tokens s1) 20%N + 900000.
Proof.
  destruct example_rewards as (s1 & s2 & _ & _ & H & _ & Hw & Hacc & _ & Hb & _). exists s1, s2. split; [exact H|]. split; [exact Hb|].
  destruct (inflation_minted_exactly (AA:=addr_ref) 20%N example_params 1 1 900000 s1 s2 Hw ltac:(lia) ltac:(lia) Hacc H) as (Hg & _ & Hs & Hbal & _).
  split; [|exact (Hs 20%N)]. specialize (Hbal 20%N 3%N). rewrite Hb in Hbal.
  rewrite decide_True in Hbal by (split; reflexivity). rewrite decide_False in Hbal by (intros [_ Hc]; vm_compute in Hc; discriminate Hc).
  lia.
Defined.

Definition accumulated_store : PosStore (AA:=addr_ref) :=
  put_rewards (upd_rewards_accumulator (λ _, {[11%N := 600000000000; 13%N := 400000000000]}) (rewards reward_store)) reward_store.

Lemma inflation_covers_shares_witness : ∃ r,
  try_fold (share_step (AA:=addr_ref) example_params accumulated_store 1 1 900000) ((0, 900000), []) (kvs (rewards_accumulator (rewards accumulated_store))) = Ok r.
Proof.
  apply (inflation_covers_shares (AA:=addr_ref) example_params 1 1 900000 accumulated_store).
  - lia.
  - lia.
  - apply (bool_decide_unpack _). vm_compute. exact I.
  - vm_compute. discriminate.
  - intros v value H.
    change (({[11%N := 600000000000; 13%N := 400000000000]} : gmap N Z) !! v = Some value) in H.
    apply lookup_insert_Some in H as [[<- <-]|[_ [<- <-]%lookup_singleton_Some]]; apply ok_ex; vm_compute; reflexivity.
Defined.

Lemma claim_pays_once_witness : ∃ s2 s3, example_claim s2 = (s3, Ok 584724) ∧ balance (tokens s2) 20%N 12%N = 5000000 ∧
  balance (tokens s3) 20%N 12%N = 5584724 ∧ example_claim s3 = (s3, Ok 0).
Proof.
  destruct example_rewards as (s1 & s2 & s3 & _ & _ & H & _ & _ & Hw & _ & Hb). exists s2, s3. split; [exact H|]. split; [exact Hb|].
  destruct (claim_pays_once (AA:=addr_ref) 20%N example_params (Some 12%N) 11%N 2 s2 s3 584724 Hw ltac:(done) H) as (_ & _ & Hbal & _ & _ & Hagain).
  split; [|exact Hagain]. specialize (Hbal 20%N 12%N). rewrite Hb in Hbal.
  rewrite decide_True in Hbal by (split; reflexivity). rewrite decide_False in Hbal by (intros [_ Hc]; vm_compute in Hc; discriminate Hc).
  lia.
Defined.
