(* ===== verification/PosQueries.v ===== *)
(** * Queries of bonds and delegations

    Models [proof_of_stake/src/queries.rs]: the validators an account delegates to
    at an epoch, the amounts of its delegations, and the details of bonds and
    unbonds with the slashes that apply to them.  The property relates the ranges
    of epochs of a delegation to its history. *)

From Stdlib Require Import Sorted.
From S2P Require Import Prelude Words Uint Decimal I256 Dec Token StorageKey Epochs BTree TransToken PosTypes Epoched.
From S2P Require Import ValidatorSets Slashing Unbonding PosStore Bonding SlashOps Rewards.

#[export] Instance SlashType_eq_dec : EqDecision SlashType.
Proof. solve_decision. Defined.
#[export] Instance Slash_eq_dec : EqDecision Slash.
Proof. solve_decision. Defined.

Record BondDetails : Type := mk_bond_details {
  bd_start : Epoch;
  bd_amount : Z;
  bd_slashed_amount : option Z;
}.
Record UnbondDetails : Type := mk_unbond_details {
  ud_start : Epoch;
  ud_withdraw : Epoch;
  ud_amount : Z;
  ud_slashed_amount : option Z;
}.
Record BondsAndUnbondsDetail : Type := mk_detail {
  dt_bonds : list BondDetails;
  dt_unbonds : list UnbondDetails;
  dt_slashes : list Slash;
}.

(** ** Ranges of a delegation *)

(** The earlier ranges, the latest first: the first that starts in time decides. *)
Fixpoint search_ranges (epoch : Epoch) (ranges : list (Epoch * Epoch)) : bool :=
  match ranges with
  | [] => false
  | (start, end_) :: ranges => if start <=? epoch then epoch <? end_ else search_ranges epoch ranges
  end.
Definition held_at (d : DelegationEpochs) (epoch : Epoch) : bool :=
  let '(last_start, last_end) := last_range d in
  if last_start <=? epoch then match last_end with Some end_ => epoch <? end_ | None => true end
  else search_ranges epoch (reverse (kvs (prev_ranges d))).

Section queries.
Context {AA : AddressApi} {I : InternalAddrs AA} {OA : CmpOrder Address} {KK : PosKeys AA}.
Abbreviation A := Address.
Abbreviation R := (res (PosError A)).
Abbreviation BondId := (A * A)%type.
Context (params : PosParams).
Let p : OwnedPosParams := owned params.

Definition delegation_targets_handle (delegator : A) (s : PosStore) : gmap A DelegationEpochs :=
  at_ (delegation_targets (bonding s)) delegator.

Definition find_delegation_validators (owner : A) (epoch : Epoch) (s : PosStore) : gset A :=
  list_to_set (filter (λ x, held_at x.2 epoch) (kvs (delegation_targets_handle owner s))).*1.

Definition find_delegations (owner : A) (epoch : Epoch) (s : PosStore) : R (gmap A Z) :=
  try_fold (λ delegations '(val, d),
      bond_amount ← raw_bond_amount params owner val epoch s;
      Ok (if held_at d epoch then <[val := bond_amount]> delegations else delegations))
    ∅ (kvs (delegation_targets_handle owner s)).

Definition has_bonds (source : A) (s : PosStore) : R bool :=
  delegations ← find_delegations source u64_max s;
  Ok (negb (bool_decide (map_Forall (λ _ amount, amount = 0) delegations))).

Definition find_bonds (source validator : A) (s : PosStore) : gmap Z Z := data (bond_handle source validator s).
(** By start and withdrawable epoch, in their order. *)
Definition find_unbonds (source validator : A) (s : PosStore) : list ((Epoch * Epoch) * Z) :=
  entries2 (unbond_handle source validator s).

(** ** Details of bonds and unbonds

    The slashes that apply to a bond or unbond, their rates by epoch, and what
    they take. *)

Definition rates_by_epoch (slashes : list Slash) : gmap Z Z :=
  foldl (λ m slash,
      let cur_rate := default 0 (m !! slash_epoch slash) in
      <[slash_epoch slash := Z.min E12 (default E12 (ZDec.add cur_rate (slash_rate slash)))]> m)
    ∅ slashes.
Definition slashed_part (amount : Z) (slashes : list Slash) : R (option Z) :=
  let slash_rates_by_epoch := rates_by_epoch slashes in
  if bool_decide (slash_rates_by_epoch = ∅) then Ok None
  else match get_slashed_amount (A:=A) p amount slash_rates_by_epoch with
       | Ok amount_after_slashing => Ok (Some (sat_sub amount amount_after_slashing))
       | _ => Panic
       end.
(** [applied_slashes] of a validator: those that were not applied before are added. *)
Definition apply_slashes (slashes : list Slash) (prev_applied_slashes : list Slash) : list Slash :=
  prev_applied_slashes ++ filter (λ slash, slash ∉ prev_applied_slashes) slashes.

Definition in_bond (start : Epoch) (slash : Slash) : R bool := Ok (start <=? slash_epoch slash).
Definition in_unbond (start withdraw : Epoch) (slash : Slash) : R bool :=
  if start <=? slash_epoch slash then
    len ← expect (chk 64 (unbonding_len p + cubic_slashing_window_length p));
    Ok (slash_epoch slash <? default 0 (EpochM.checked_sub withdraw len))
  else Ok false.

Definition make_bond_details (amount : Z) (start : Epoch) (slashes applied_slashes : list Slash) : R (BondDetails * list Slash) :=
  slashes ← filter_res (in_bond start) slashes;
  slashed_amount ← slashed_part amount slashes;
  Ok (mk_bond_details start amount slashed_amount, apply_slashes slashes applied_slashes).
Definition make_unbond_details (amount : Z) (epochs : Epoch * Epoch) (slashes applied_slashes : list Slash) :
    R (UnbondDetails * list Slash) :=
  let '(start, withdraw) := epochs in
  slashes ← filter_res (in_unbond start withdraw) slashes;
  slashed_amount ← slashed_part amount slashes;
  Ok (mk_unbond_details start withdraw amount slashed_amount, apply_slashes slashes applied_slashes).

(** One pair. *)
Definition details_step {X D} (make : X → list Slash → R (D * list Slash)) (acc : list D * list Slash) (x : X) :
    R (list D * list Slash) :=
  '(d, applied) ← make x acc.2;
  Ok (acc.1 ++ [d], applied).
Definition find_bonds_and_unbonds_details (source validator : A) (s : PosStore) : R (gmap BondId BondsAndUnbondsDetail) :=
  let slashes := find_validator_slashes validator s in
  '(bonds, applied) ← try_fold (details_step (λ x, make_bond_details x.2 x.1 slashes)) ([], [])
                        (filter (λ x, 0 < x.2) (kvs (find_bonds source validator s)));
  '(unbonds, applied) ← try_fold (details_step (λ x, make_unbond_details x.2 x.1 slashes)) ([], applied)
                          (find_unbonds source validator s);
  Ok {[(source, validator) := mk_detail bonds unbonds applied]}.

(** Many: the bonds and unbonds that match what is given, in the order of their
    keys, and the slashes applied so far by validator. *)
Definition matching (source validator : option A) (id : BondId) : bool :=
  match source with Some source => bool_decide (id.1 = source) | None => true end &&
  match validator with Some validator => bool_decide (id.2 = validator) | None => true end.
Definition raw_bonds (source validator : option A) (s : PosStore) : list (BondId * (Epoch * Z)) :=
  filter (λ x, matching source validator x.1 ∧ x.2.2 ≠ 0)
    (kvs (bond_data (bonding s)) ≫= λ x, (λ y, (x.1, y)) <$> kvs (data x.2)).
Definition raw_unbonds (source validator : option A) (s : PosStore) : list (BondId * ((Epoch * Epoch) * Z)) :=
  filter (λ x, matching source validator x.1)
    (kvs (unbond_data (bonding s)) ≫= λ x, (λ y, (x.1, y)) <$> entries2 x.2).
Definition multiple_step {X D} (make : list Slash → X → list Slash → R (D * list Slash)) (s : PosStore)
    (acc : gmap BondId (list D) * gmap A (list Slash)) (x : BondId * X) : R (gmap BondId (list D) * gmap A (list Slash)) :=
  let validator := x.1.2 in
  '(d, applied) ← make (find_validator_slashes validator s) x.2 (default [] (acc.2 !! validator));
  Ok (<[x.1 := default [] (acc.1 !! x.1) ++ [d]]> acc.1, <[validator := applied]> acc.2).
Definition merge_details (applied : gmap A (list Slash)) (bonds : gmap BondId (list BondDetails))
    (unbonds : gmap BondId (list UnbondDetails)) : gmap BondId BondsAndUnbondsDetail :=
  let ids : gset BondId := dom bonds ∪ dom unbonds in
  set_to_map (λ id, (id, mk_detail (default [] (bonds !! id)) (default [] (unbonds !! id)) (default [] (applied !! id.2)))) ids.
Definition get_multiple_bonds_and_unbonds (source validator : option A) (s : PosStore) : R (gmap BondId BondsAndUnbondsDetail) :=
  '(bonds, applied) ← try_fold (multiple_step (λ slashes x, make_bond_details x.2 x.1 slashes) s) (∅, ∅)
                        (raw_bonds source validator s);
  '(unbonds, applied) ← try_fold (multiple_step (λ slashes x, make_unbond_details x.2 x.1 slashes) s) (∅, applied)
                          (raw_unbonds source validator s);
  Ok (merge_details applied bonds unbonds).

Definition bonds_and_unbonds (source validator : option A) (s : PosStore) : R (gmap BondId BondsAndUnbondsDetail) :=
  match source, validator with
  | Some source, Some validator => find_bonds_and_unbonds_details source validator s
  | _, _ => get_multiple_bonds_and_unbonds source validator s
  end.

(** [is_delegator] of [lib.rs]: a bond with a validator other than the address
    itself, that started by the epoch where one is given. *)
Definition is_delegator (address : A) (epoch : option Epoch) (s : PosStore) : bool :=
  existsb (λ x, bool_decide (x.1.1 = address) && bool_decide (x.1.1 ≠ x.1.2) &&
      match epoch with Some epoch => x.2.1 <=? epoch | None => true end)
    (kvs (bond_data (bonding s)) ≫= λ x, (λ y, (x.1, y)) <$> kvs (data x.2)).
End queries.

(** * Theory *)

(** ** Delegations follow their history *)

(** Ranges in order, before the last, and all of them before a bound. *)
Record wf_ranges (b : Epoch) (d : DelegationEpochs) : Prop := {
  wr_prev : ∀ s e, prev_ranges d !! s = Some e → s ≤ e < (last_range d).1;
  wr_apart : ∀ s1 e1 s2 e2, prev_ranges d !! s1 = Some e1 → prev_ranges d !! s2 = Some e2 → s1 < s2 → e1 < s2;
  wr_last : (last_range d).1 ≤ b;
  wr_end : ∀ e, (last_range d).2 = Some e → (last_range d).1 ≤ e ≤ b;
}.

Lemma search_ranges_spec x l : StronglySorted (λ a b, b.2 < a.1) l → Forall (λ a, a.1 ≤ a.2) l →
  search_ranges x l = true ↔ Exists (λ a, a.1 ≤ x < a.2) l.
Proof.
  induction l as [|[s e] l IH]; cbn [search_ranges]; intros Hs Hf; [split; [done|]; by intros ?%Exists_nil|].
  inversion Hs as [|? ? Hs' Hall]; subst. inversion Hf as [|? ? Hse Hf']; subst. rewrite Exists_cons. cbn [fst snd] in *.
  destruct (Z.leb_spec s x).
  - rewrite Z.ltb_lt. split; [by left|]. intros [|Hex]; [lia|]. apply Exists_exists in Hex as ([s' e'] & Hin & ?).
    pose proof (proj1 (Forall_forall _ _) Hall _ Hin). cbn [fst snd] in *. lia.
  - rewrite IH by done. split; [by right|]. by intros [?|?]; [lia|].
Qed.

Lemma ranges_apart b d : wf_ranges b d → StronglySorted (λ a b, b.2 < a.1) (reverse (kvs (prev_ranges d))).
Proof.
  intros [Hp Ha _ _]. pose proof (kvs_sorted (prev_ranges d)) as Hs. unfold bsorted in Hs.
  assert (Hin : ∀ x, x ∈ kvs (prev_ranges d) → prev_ranges d !! x.1 = Some x.2) by (intros [s e]; by rewrite elem_of_kvs).
  induction Hs as [|x l Hs IH Hall]; [constructor|]. rewrite reverse_cons.
  assert (IH' : StronglySorted (λ a b, b.2 < a.1) (reverse l)) by (apply IH; intros y Hy; apply Hin; by right).
  assert (Hx : Forall (λ y, x.2 < y.1) (reverse l)).
  { apply Forall_forall. intros y Hy. rewrite elem_of_reverse in Hy. pose proof (proj1 (Forall_forall _ _) Hall _ Hy) as Hlt.
    unfold klt in Hlt. cbn in Hlt. apply Z.compare_lt_iff in Hlt.
    apply (Ha x.1 x.2 y.1 y.2); [apply Hin; left|apply Hin; by right|done]. }
  clear -IH' Hx. induction IH' as [|y l' H' IH Hy]; [repeat constructor|]. inversion Hx; subst. cbn. constructor; [by apply IH|].
  apply Forall_app. split; [done|]. by constructor.
Qed.

(** The epochs at which a delegation is held. *)
Definition covers (d : DelegationEpochs) (x : Epoch) : Prop :=
  (∃ s e, prev_ranges d !! s = Some e ∧ s ≤ x < e) ∨
  ((last_range d).1 ≤ x ∧ ∀ e, (last_range d).2 = Some e → x < e).

Lemma held_at_covers b d x : wf_ranges b d → held_at d x = true ↔ covers d x.
Proof.
  intros Hw. pose proof (ranges_apart b d Hw) as Hs. destruct Hw as [Hp Ha Hl He]. unfold held_at, covers.
  destruct (last_range d) as [ls le]. cbn [fst snd] in *. destruct (Z.leb_spec ls x).
  - split.
    + intros Hh. right. split; [done|]. intros e ->. by apply Z.ltb_lt.
    + intros [(s & e & Hse & ?)|[_ Hx]]; [pose proof (Hp s e Hse); lia|]. destruct le as [e|]; [|done]. apply Z.ltb_lt. by apply Hx.
  - rewrite search_ranges_spec; [|done|].
    2: { apply Forall_forall. intros [s e] Hse. rewrite elem_of_reverse, elem_of_kvs in Hse. pose proof (Hp s e Hse). cbn. lia. }
    rewrite Exists_exists. split.
    + intros ([s e] & Hse & ?). rewrite elem_of_reverse, elem_of_kvs in Hse. left. eauto.
    + intros [(s & e & Hse & ?)|[? _]]; [|lia]. exists (s, e). by rewrite elem_of_reverse, elem_of_kvs.
Qed.

Section history.
Context {AA : AddressApi} {I : InternalAddrs AA} {OA : CmpOrder Address} {KK : PosKeys AA}.
Abbreviation A := Address.
Context (params : PosParams).

(** What opening and closing make of one delegation. *)
Definition opened (epoch : Epoch) (d : option DelegationEpochs) : DelegationEpochs :=
  match d with
  | None => mk_delegation ∅ (epoch, None)
  | Some d =>
      match (last_range d).2 with
      | None => d
      | Some end_ =>
          if epoch =? end_ then mk_delegation (prev_ranges d) ((last_range d).1, None)
          else mk_delegation (<[(last_range d).1 := end_]> (prev_ranges d)) (epoch, None)
      end
  end.
Definition closed (epoch oldest : Epoch) (d : DelegationEpochs) : DelegationEpochs :=
  mk_delegation (filter (λ x, oldest ≤ x.2) (prev_ranges d)) ((last_range d).1, Some epoch).

Lemma opened_wf b e d : wf_ranges b d → b ≤ e → wf_ranges e (opened e (Some d)).
Proof using Type.
  intros [Hp Ha Hl He] Hb. destruct d as [prev [ls le]]. cbn in *. destruct le as [end_|]; [|split; cbn; [done|done|lia|done]].
  pose proof (He _ eq_refl). destruct (Z.eqb_spec e end_); split; cbn; [done|done|lia|done| | |lia|done].
  - intros s e' [[<- <-]|[_ Hs]]%lookup_insert_Some; [lia|]. pose proof (Hp _ _ Hs). lia.
  - intros s1 e1 s2 e2 [[<- <-]|[_ H1]]%lookup_insert_Some [[<- <-]|[_ H2]]%lookup_insert_Some Hlt; [lia| |..].
    + pose proof (Hp _ _ H2). lia.
    + pose proof (Hp _ _ H1). lia.
    + by apply (Ha s1 e1 s2 e2).
Qed.
Lemma opened_covers b e d x : wf_ranges b d → b ≤ e → covers (opened e (Some d)) x ↔ covers d x ∨ e ≤ x.
Proof using Type.
  intros [Hp Ha Hl He] Hb. destruct d as [prev [ls le]]. unfold covers. cbn in *. destruct le as [end_|]; cbn.
  - pose proof (He _ eq_refl). destruct (Z.eqb_spec e end_); cbn.
    + split; [intros [?|[? _]]; [by left; left|]|intros [[?|[? Hx]]|?]; [by left|right..]].
      * destruct (decide (e ≤ x)); [by right|]. left. right. split; [done|]. intros ? [= <-]. lia.
      * split; [done|discriminate].
      * split; [lia|discriminate].
    + split.
      * intros [(s & e' & [[<- <-]|[_ Hs]]%lookup_insert_Some & ?)|[? _]]; [left; right|left; left|by right].
        -- split; [lia|]. intros ? [= <-]. lia.
        -- eauto.
      * intros [[(s & e' & Hs & ?)|[? Hx]]|?]; [left|left|right; split; [lia|discriminate]].
        -- exists s, e'. split; [|done]. apply lookup_insert_Some. right. split; [|done]. intros ->. pose proof (Hp _ _ Hs). lia.
        -- exists ls, end_. split; [apply lookup_insert_eq|]. specialize (Hx _ eq_refl). lia.
  - split; [by left|]. intros [?|?]; [done|]. right. split; [lia|discriminate].
Qed.

Lemma closed_wf b e oldest d : wf_ranges b d → b ≤ e → wf_ranges e (closed e oldest d).
Proof using Type.
  intros [Hp Ha Hl He] Hb. destruct d as [prev [ls le]]. cbn in *. split; cbn.
  - intros s e' [Hs _]%map_lookup_filter_Some. by apply Hp.
  - intros s1 e1 s2 e2 [H1 _]%map_lookup_filter_Some [H2 _]%map_lookup_filter_Some. by apply (Ha s1 e1 s2 e2).
  - lia.
  - intros ? [= <-]. lia.
Qed.
Lemma closed_covers b e oldest d x : wf_ranges b d → b ≤ e → (last_range d).2 = None → oldest ≤ x →
  covers (closed e oldest d) x ↔ covers d x ∧ x < e.
Proof using Type.
  intros [Hp Ha Hl He] Hb Ho Hx. destruct d as [prev [ls le]]. unfold covers. cbn in *. subst le. split.
  - intros [(s & e' & [Hs ?]%map_lookup_filter_Some & ?)|[? Hlt]].
    + split; [left; eauto|]. pose proof (Hp _ _ Hs). lia.
    + split; [right; split; [done|discriminate]|]. by apply Hlt.
  - intros [[(s & e' & Hs & ?)|[? _]] ?].
    + left. exists s, e'. split; [|done]. apply map_lookup_filter_Some. split; [done|]. cbn. lia.
    + right. split; [done|]. by intros ? [= <-].
Qed.

Definition target (s : PosStore) (delegator validator : A) : option DelegationEpochs := delegation_targets_handle delegator s !! validator.
Definition oldest_kept (delta current_epoch : Z) : Epoch := default 0 (EpochM.checked_sub current_epoch delta).

Lemma put_target s d v x d' v' :
  let s' := put_bonding (upd_delegation_targets (λ m, <[d := <[v := x]> (at_ (delegation_targets (bonding s)) d)]> m) (bonding s)) s in
  target s' d' v' = if decide ((d', v') = (d, v)) then Some x else target s d' v'.
Proof using Type.
  cbn. unfold target, delegation_targets_handle. cbn. rewrite at_insert. destruct (decide ((d', v') = (d, v))) as [[= -> ->]|Hne].
  - rewrite decide_True by done. apply lookup_insert_eq.
  - destruct (decide (d' = d)) as [->|]; [|done]. by rewrite lookup_insert_ne by congruence.
Qed.

Lemma add_target_spec d v e cur s s' r : add_delegation_target d v e cur s = (s', r) →
  r = Ok () ∧ ∀ d' v', target s' d' v' = if decide ((d', v') = (d, v)) then Some (opened e (target s d v)) else target s d' v'.
Proof using Type.
  unfold add_delegation_target. unfold mbind, stt_bind, gets. cbn [fst snd]. fold (delegation_targets_handle d s). fold (target s d v).
  destruct (target s d v) as [[prev [ls [end_|]]]|] eqn:Ht; intros [= <- <-]; (split; [done|]); intros d' v'.
  - cbn [opened last_range prev_ranges fst snd]. exact (put_target s d v _ d' v').
  - cbn. destruct (decide ((d', v') = (d, v))) as [[= -> ->]|]; done.
  - exact (put_target s d v _ d' v').
Qed.

Lemma remove_target_spec delta d v e cur s s' :
  offset_value OffsetMaxProposalPeriodOrSlashProcessingLenPlus params = Some delta →
  remove_delegation_target params d v e cur s = (s', Ok ()) →
  ∃ x, target s d v = Some x ∧
    ∀ d' v', target s' d' v' = if decide ((d', v') = (d, v)) then Some (closed e (oldest_kept delta cur) x) else target s d' v'.
Proof using Type.
  intros Hd. unfold remove_delegation_target. unfold mbind, stt_bind, gets. cbn [fst snd]. fold (delegation_targets_handle d s).
  fold (target s d v). destruct (target s d v) as [[prev [ls le]]|] eqn:Ht; [|done]. unfold prune_old_delegations, lift. rewrite Hd.
  cbn [expect mbind res_bind]. intros [= <-]. eexists. split; [done|]. intros d' v'. exact (put_target s d v _ d' v').
Qed.

(** Opening and closing delegations, and the events of one pair: the epoch, and
    whether the delegation was opened. *)
Inductive TargetOp : Type :=
| OpenTarget (delegator validator : A) (epoch current_epoch : Epoch)
| CloseTarget (delegator validator : A) (epoch current_epoch : Epoch).
Definition run_target (op : TargetOp) : stt PosStore (PosError A) unit :=
  match op with
  | OpenTarget d v e cur => add_delegation_target d v e cur
  | CloseTarget d v e cur => remove_delegation_target params d v e cur
  end.
Definition op_current (op : TargetOp) : Epoch := match op with OpenTarget _ _ _ cur | CloseTarget _ _ _ cur => cur end.
Definition op_event (d v : A) (op : TargetOp) : option (Epoch * bool) :=
  match op with
  | OpenTarget d' v' e _ => if decide ((d, v) = (d', v')) then Some (e, true) else None
  | CloseTarget d' v' e _ => if decide ((d, v) = (d', v')) then Some (e, false) else None
  end.
Definition events (d v : A) (ops : list TargetOp) : list (Epoch * bool) := omap (op_event d v) ops.
(** The last event up to an epoch decides. *)
Definition held_by (evs : list (Epoch * bool)) (x : Epoch) : bool :=
  match last (filter (λ ev, ev.1 ≤ x) evs) with Some ev => ev.2 | None => false end.

(** The stores an account's delegations reach: epochs do not go back, and what is
    closed was open. *)
Inductive target_history : PosStore → list TargetOp → Prop :=
| history_start s : (∀ d v, target s d v = None) → target_history s []
| history_step s s' ops op : target_history s ops → run_target op s = (s', Ok ()) →
    (∀ d v ev, op_event d v op = Some ev →
       Forall (λ ev', ev'.1 ≤ ev.1) (events d v ops) ∧ (ev.2 = false → ∃ e, last (events d v ops) = Some (e, true))) →
    target_history s' (ops ++ [op]).

Lemma history_run s ops op : target_history s ops → (run_target op s).2 = Ok () →
  (∀ d v ev, op_event d v op = Some ev →
     Forall (λ ev', ev'.1 ≤ ev.1) (events d v ops) ∧ (ev.2 = false → ∃ e, last (events d v ops) = Some (e, true))) →
  target_history (run_target op s).1 (ops ++ [op]).
Proof using Type. intros Hh Hr Hop. apply (history_step s _ ops op Hh); [|done]. rewrite <-Hr. apply surjective_pairing. Qed.

Lemma held_by_snoc evs ev x : held_by (evs ++ [ev]) x = if ev.1 <=? x then ev.2 else held_by evs x.
Proof using Type.
  unfold held_by. rewrite filter_app. destruct (Z.leb_spec ev.1 x).
  - rewrite filter_cons_True by done. by rewrite filter_nil, last_snoc.
  - rewrite filter_cons_False by lia. by rewrite filter_nil, app_nil_r.
Qed.

(** One pair: its ranges are in order up to its last event and cover what its
    events say, from an epoch on. *)
Definition follows (from : Epoch) (o : option DelegationEpochs) (evs : list (Epoch * bool)) : Prop :=
  match o with
  | None => evs = []
  | Some x => ∃ e b, last evs = Some (e, b) ∧ wf_ranges e x ∧ ((last_range x).2 = None ↔ b = true) ∧
      ∀ y, from ≤ y → covers x y ↔ held_by evs y = true
  end.

Lemma follows_opened from o evs e : follows from o evs → Forall (λ ev, ev.1 ≤ e) evs →
  follows from (Some (opened e o)) (evs ++ [(e, true)]).
Proof using Type.
  intros Hf Hle. exists e, true. rewrite last_snoc. split; [done|]. destruct o as [x|]; cbn [follows] in Hf.
  - destruct Hf as (e0 & b & Hlast & Hw & Ho & Hc).
    assert (e0 ≤ e) by (apply last_Some_elem_of in Hlast; exact (proj1 (Forall_forall _ _) Hle _ Hlast)).
    split; [by apply (opened_wf e0)|]. split.
    + split; [done|]. intros _. cbn. destruct ((last_range x).2) eqn:?; [|done]. by case_match.
    + intros y Hy. rewrite (opened_covers e0), (Hc y Hy), held_by_snoc by done. cbn. destruct (Z.leb_spec e y); naive_solver lia.
  - subst evs. split; [split; cbn; [by intros ? ? ?%lookup_empty_Some|by intros ? ? ? ? ?%lookup_empty_Some|lia|done]|].
    split; [done|]. intros y _. rewrite held_by_snoc. unfold covers. cbn. split.
    + intros [(? & ? & ?%lookup_empty_Some & _)|[? _]]; [done|]. by rewrite (proj2 (Z.leb_le _ _)).
    + destruct (Z.leb_spec e y); [|done]. intros _. right. split; [done|discriminate].
Qed.

Lemma follows_closed from oldest x evs e e' : follows from (Some x) evs → Forall (λ ev, ev.1 ≤ e) evs → last evs = Some (e', true) →
  follows (Z.max from oldest) (Some (closed e oldest x)) (evs ++ [(e, false)]).
Proof using Type.
  intros (e0 & b & Hlast & Hw & Ho & Hc) Hle Hl. rewrite Hlast in Hl. injection Hl as -> ->.
  exists e, false. rewrite last_snoc. split; [done|].
  assert (e' ≤ e) by (apply last_Some_elem_of in Hlast; exact (proj1 (Forall_forall _ _) Hle _ Hlast)).
  split; [by apply (closed_wf e')|]. split; [done|]. intros y Hy.
  rewrite (closed_covers e'), (Hc y), held_by_snoc by (done || lia || by apply Ho). cbn. destruct (Z.leb_spec e y); naive_solver lia.
Qed.

Lemma follows_weaken from from' o evs : from ≤ from' → follows from o evs → follows from' o evs.
Proof using Type.
  intros Hle. destruct o as [x|]; [|done]. intros (e & b & Hl & Hw & Ho & Hc). exists e, b.
  split; [done|]. split; [done|]. split; [done|]. intros y Hy. apply Hc. lia.
Qed.

Lemma events_snoc d v ops op : events d v (ops ++ [op]) = events d v ops ++ option_list (op_event d v op).
Proof using Type. unfold events. rewrite omap_app. cbn. by destruct (op_event d v op). Qed.

Lemma history_follows delta s ops :
  offset_value OffsetMaxProposalPeriodOrSlashProcessingLenPlus params = Some delta → target_history s ops →
  ∀ from, Forall (λ op, oldest_kept delta (op_current op) ≤ from) ops → ∀ d v, follows from (target s d v) (events d v ops).
Proof using Type.
  intros Hdelta. induction 1 as [s Hs|s s' ops op Hh IH Hrun Hop]; intros from Hfrom d v; [by rewrite Hs|].
  apply Forall_app in Hfrom as [Hfrom Hlast]. rewrite Forall_singleton in Hlast. specialize (IH from Hfrom). rewrite events_snoc.
  destruct op as [d0 v0 e cur|d0 v0 e cur]; cbn [run_target op_current] in *.
  - apply add_target_spec in Hrun as [_ Ht]. rewrite Ht. specialize (Hop d v). cbn [op_event] in *.
    destruct (decide ((d, v) = (d0, v0))) as [[= -> ->]|]; [|by rewrite app_nil_r].
    destruct (Hop _ eq_refl) as [Hle _]. by apply follows_opened.
  - apply (remove_target_spec delta) in Hrun as (x & Hx & Ht); [|done]. rewrite Ht. specialize (Hop d v). cbn [op_event] in *.
    destruct (decide ((d, v) = (d0, v0))) as [[= -> ->]|]; [|by rewrite app_nil_r].
    destruct (Hop _ eq_refl) as [Hle [e' Hl]]; [done|]. specialize (IH d0 v0). rewrite Hx in IH.
    apply (follows_weaken (Z.max from (oldest_kept delta cur))); [lia|]. by apply (follows_closed _ _ _ _ _ e').
Qed.
End history.

(** C24. The validators an account is said to delegate to at an epoch are those whose
    delegation was opened and not closed since by then, whatever sequence of bonds
    and full unbonds led there, for every epoch that is not older than the ranges
    that are kept. *)
Theorem delegations_follow_history {AA : AddressApi} {I : InternalAddrs AA} {OA : CmpOrder Address} {KK : PosKeys AA}
    (params : PosParams) (delta : Z) (s : PosStore) (ops : list TargetOp) (epoch : Epoch) (owner validator : Address) :
  offset_value OffsetMaxProposalPeriodOrSlashProcessingLenPlus params = Some delta →
  target_history params s ops → Forall (λ op, oldest_kept delta (op_current op) ≤ epoch) ops →
  validator ∈ find_delegation_validators owner epoch s ↔ held_by (events owner validator ops) epoch = true.
Proof.
  intros Hd Hh Hold. pose proof (history_follows params delta s ops Hd Hh epoch Hold owner validator) as Hf.
  unfold find_delegation_validators. rewrite elem_of_list_to_set, list_elem_of_fmap.
  assert (Hin : (∃ y, validator = y.1 ∧ y ∈ filter (λ x, held_at x.2 epoch) (kvs (delegation_targets_handle owner s))) ↔
    ∃ x, target s owner validator = Some x ∧ held_at x epoch = true).
  { split.
    - intros ([v x] & -> & [Hx Hin]%list_elem_of_filter). exists x. rewrite elem_of_kvs in Hin. split; [done|]. by apply Is_true_true.
    - intros (x & Ht & Hx). exists (validator, x). split; [done|]. apply list_elem_of_filter. rewrite elem_of_kvs. split; [|done].
      by apply Is_true_true. }
  rewrite Hin. destruct (target s owner validator) as [x|]; cbn [follows] in Hf.
  - destruct Hf as (e & b & _ & Hw & _ & Hc). rewrite <-(Hc epoch) by lia. rewrite <-(held_at_covers e x epoch Hw). naive_solver.
  - rewrite Hf. split; [by intros (? & ? & _)|done].
Qed.

(** Opened for epoch 3, closed from 5, opened again for 9. *)
Lemma delegations_follow_history_witness :
  let s0 := two_validators in
  let ops := [OpenTarget 12%N 11%N 3 1; CloseTarget 12%N 11%N 5 3; OpenTarget 12%N 11%N 9 7] in
  ∃ s, target_history (AA:=addr_ref) example_params s ops ∧
    11%N ∈ find_delegation_validators 12%N 4 s ∧ 11%N ∉ find_delegation_validators 12%N 6 s ∧
    11%N ∈ find_delegation_validators 12%N 9 s.
Proof.
  intros s0 ops. pose (run := λ op, run_target (AA:=addr_ref) example_params op).
  set (o1 := OpenTarget (AA:=addr_ref) 12%N 11%N 3 1) in *. set (o2 := CloseTarget (AA:=addr_ref) 12%N 11%N 5 3) in *.
  set (o3 := OpenTarget (AA:=addr_ref) 12%N 11%N 9 7) in *.
  assert (Hex : ∃ s, target_history (AA:=addr_ref) example_params s ops).
  { exists (run o3 (run o2 (run o1 s0).1).1).1. unfold run.
    apply (history_run _ _ [o1; o2] o3); [apply (history_run _ _ [o1] o2); [apply (history_run _ _ [] o1); [apply history_start|..]|..]|..].
    - intros d v. vm_compute. reflexivity.
    - vm_compute. reflexivity.
    - intros d v ev. cbn. case_decide; [|done]. intros [= <-]. split; [constructor|done].
    - vm_compute. reflexivity.
    - intros d v ev. cbn. case_decide; [|done]. intros [= <-]. split; [repeat constructor; done|]. intros _. by exists 3.
    - vm_compute. reflexivity.
    - intros d v ev. cbn. case_decide; [|done]. intros [= <-]. split; [repeat constructor; done|done]. }
  destruct Hex as [s Hs]. exists s. split; [exact Hs|].
  assert (Hd : offset_value OffsetMaxProposalPeriodOrSlashProcessingLenPlus example_params = Some 25) by (vm_compute; reflexivity).
  assert (Hold : ∀ x, 0 ≤ x → Forall (λ op : TargetOp (AA:=addr_ref), oldest_kept 25 (op_current op) ≤ x) ops).
  { intros x Hx. repeat constructor; exact Hx. }
  repeat split.
  - apply (delegations_follow_history example_params 25 s ops 4 12%N 11%N Hd Hs (Hold 4 ltac:(lia))). vm_compute. reflexivity.
  - intros H. apply (delegations_follow_history example_params 25 s ops 6 12%N 11%N Hd Hs (Hold 6 ltac:(lia))) in H.
    vm_compute in H. discriminate.
  - apply (delegations_follow_history example_params 25 s ops 9 12%N 11%N Hd Hs (Hold 9 ltac:(lia))). vm_compute. reflexivity.
Defined.
