(* ===== verification/Validators.v ===== *)
(** * Validators

    Models how an account becomes a validator, its keys and metadata, from
    [proof_of_stake/src/lib.rs] and [storage.rs], and the updates of the validator
    set that are sent to CometBFT, from [validator_set_update.rs].  The properties
    say that no two validators ever share a consensus key, that the address behind
    the hash of a key stays its owner's, and that the updates take the validator
    set of one epoch to the set of the next. *)

From Stdlib Require Import Ascii.
From S2P Require Import Prelude Words Uint Decimal I256 Dec Token StorageKey Epochs BTree TransToken PosTypes Epoched.
From S2P Require Import ValidatorSets Slashing Unbonding PosStore Bonding SlashOps Rewards PosQueries.

(** ** Metadata *)

Record ValidatorMetaData : Type := mk_metadata {
  md_email : text;
  md_description : option text;
  md_website : option text;
  md_discord_handle : option text;
  md_avatar : option text;
  md_name : option text;
}.

Section validators.
Context {AA : AddressApi} {I : InternalAddrs AA} {OA : CmpOrder Address} {KK : PosKeys AA}.
Abbreviation A := Address.
Abbreviation M := (stt PosStore (PosError A)).
Abbreviation R := (res (PosError A)).
Context (params : PosParams).
Let p : OwnedPosParams := owned params.

(** The email cannot be removed; an empty text removes any other field. *)
Definition write_validator_email (validator : A) (email : text) : M unit :=
  if bool_decide (email = []) then throw CannotRemoveEmail
  else on_validators (modify (upd_metadata (<[(validator, Email) := email]>))).
Definition write_validator_field (f : MetaField) (validator : A) (data : text) : M unit :=
  on_validators (modify (upd_metadata (if bool_decide (data = []) then delete (validator, f) else <[(validator, f) := data]>))).
Definition write_field_opt (f : MetaField) (validator : A) (data : option text) : M unit :=
  match data with Some data => write_validator_field f validator data | None => mret () end.

Definition write_validator_metadata (validator : A) (metadata : ValidatorMetaData) : M unit :=
  _ ← write_validator_email validator (md_email metadata);
  _ ← write_field_opt Description validator (md_description metadata);
  _ ← write_field_opt Website validator (md_website metadata);
  _ ← write_field_opt DiscordHandle validator (md_discord_handle metadata);
  _ ← write_field_opt Avatar validator (md_avatar metadata);
  write_field_opt ValidatorName validator (md_name metadata).

Definition change_validator_metadata (validator : A) (email description website discord_handle avatar name : option text)
    (commission_rate : option Z) (current_epoch : Epoch) : M unit :=
  _ ← match email with Some email => write_validator_email validator email | None => mret () end;
  _ ← write_field_opt Description validator description;
  _ ← write_field_opt Website validator website;
  _ ← write_field_opt DiscordHandle validator discord_handle;
  _ ← write_field_opt Avatar validator avatar;
  _ ← write_field_opt ValidatorName validator name;
  match commission_rate with
  | Some rate => change_validator_commission_rate params validator rate current_epoch
  | None => mret ()
  end.

(** ** Consensus keys *)

Definition try_insert_consensus_key (consensus_key : PublicKey) : M unit :=
  s ← get;
  if bool_decide (consensus_key ∈ consensus_keys (validators s)) then throw ConsensusKeyInUse
  else on_validators (modify (upd_consensus_keys (λ keys, {[consensus_key]} ∪ keys))).
Definition get_consensus_key_set (s : PosStore) : gset PublicKey := consensus_keys (validators s).
Definition is_consensus_key_used (consensus_key : PublicKey) (s : PosStore) : bool :=
  bool_decide (consensus_key ∈ consensus_keys (validators s)).

Definition write_validator_address_raw_hash (validator : A) (consensus_key : PublicKey) : M unit :=
  on_validators (modify (upd_address_raw_hash (<[tm_consensus_key_raw_hash consensus_key := validator]>))).
Definition find_validator_by_raw_hash (raw_hash : text) (s : PosStore) : option A :=
  address_raw_hash (validators s) !! raw_hash.

Definition validator_consensus_key_handle (validator : A) (s : PosStore) : EpochedSt PublicKey :=
  default epoched_open (consensus_key (validators s) !! validator).
Definition get_consensus_key (validator : A) (epoch : Epoch) (s : PosStore) : R (option PublicKey) :=
  h_get params OffsetPipelineLen OffsetDefaultNumPastEpochs epoch (validator_consensus_key_handle validator s).
Definition consensus_key_set (validator : A) (k : PublicKey) (current_epoch : Epoch) (offset : Z) : M unit :=
  h ← gets (validator_consensus_key_handle validator);
  h ← lift (h_set params OffsetDefaultNumPastEpochs k current_epoch offset h);
  on_validators (modify (upd_consensus_key (<[validator := h]>))).

Definition change_consensus_key (validator : A) (consensus_key : PublicKey) (current_epoch : Epoch) : M unit :=
  if negb (is_ed25519 consensus_key) then throw MustBeEd25519
  else
    _ ← try_insert_consensus_key consensus_key;
    _ ← consensus_key_set validator consensus_key current_epoch (pipeline_len p);
    write_validator_address_raw_hash validator consensus_key.

(** ** New validators *)

Record BecomeValidator : Type := mk_become {
  bv_address : A;
  bv_consensus_key : PublicKey;
  bv_protocol_key : PublicKey;
  bv_eth_cold_key : PublicKey;
  bv_eth_hot_key : PublicKey;
  bv_current_epoch : Epoch;
  bv_commission_rate : Z;
  bv_max_commission_rate_change : Z;
  bv_metadata : ValidatorMetaData;
  bv_offset_opt : option Z;
}.

(** The protocol key and the keys of the Ethereum bridge keep the same past. *)
Definition key_set (field : ValidatorStore → gmap A (EpochedSt PublicKey))
    (upd : (gmap A (EpochedSt PublicKey) → gmap A (EpochedSt PublicKey)) → ValidatorStore → ValidatorStore)
    (validator : A) (k : PublicKey) (current_epoch : Epoch) (offset : Z) : M unit :=
  h ← gets (λ s, default epoched_open (field (validators s) !! validator));
  h ← lift (h_set params OffsetMaxProposalPeriodPlus k current_epoch offset h);
  on_validators (modify (upd (<[validator := h]>))).
Definition deltas_set (validator : A) (delta : Z) (current_epoch : Epoch) (offset : Z) : stt (VSets (A:=A)) (PosError A) unit :=
  s ← get;
  h ← lift (d_set params fits_change OffsetMaxProposalPeriodOrSlashProcessingLenPlus delta current_epoch offset
              (validator_deltas_handle s validator));
  modify (upd_deltas (<[validator := h]>) id id id).

Definition become_validator (args : BecomeValidator) : M unit :=
  let address := bv_address args in
  let current_epoch := bv_current_epoch args in
  let offset := default (pipeline_len p) (bv_offset_opt args) in
  if negb (is_established address) then throw NotEstablished
  else
    s ← get;
    if is_validator address s then throw AlreadyValidator
    else
      b ← lift (has_bonds params address s);
      if b : bool then throw HasBonds
      else
        _ ← try_insert_consensus_key (bv_consensus_key args);
        pipeline_epoch ← lift (epoch_add current_epoch offset);
        _ ← on_vsets (modify (upd_sets id id id (upd_at pipeline_epoch (λ addresses, {[address]} ∪ addresses))));
        _ ← write_validator_address_raw_hash address (bv_consensus_key args);
        _ ← on_validators (modify (upd_max_commission_rate_change (<[address := bv_max_commission_rate_change args]>)));
        _ ← write_validator_metadata address (bv_metadata args);
        _ ← consensus_key_set address (bv_consensus_key args) current_epoch offset;
        _ ← key_set protocol_key upd_protocol_key address (bv_protocol_key args) current_epoch offset;
        _ ← key_set eth_hot_key upd_eth_hot_key address (bv_eth_hot_key args) current_epoch offset;
        _ ← key_set eth_cold_key upd_eth_cold_key address (bv_eth_cold_key args) current_epoch offset;
        _ ← commission_set params address (bv_commission_rate args) current_epoch offset;
        _ ← on_vsets (deltas_set address 0 current_epoch offset);
        _ ← on_vsets (state_set params address BelowThreshold current_epoch offset);
        on_vsets (insert_validator_into_validator_set params address 0 current_epoch offset).

(** ** Updates for CometBFT *)

Record ConsensusValidator : Type := mk_consensus { cv_consensus_key : PublicKey; cv_bonded_stake : Z }.
Inductive ValidatorSetUpdate : Type :=
| UpdConsensus (validator : ConsensusValidator)
| UpdDeactivated (key : PublicKey).

(** An [unwrap] of a read of the storage. *)
Definition unwrap {B} (r : R B) : R B := match r with Ok b => Ok b | _ => Panic end.
Definition tm_power (stake : Z) : R Z := expect (into_tm_voting_power (tm_votes_per_token p) stake).
Definition prev_power (address : A) (epoch : Epoch) (s : PosStore) : R Z :=
  stake ← unwrap (read_validator_stake params address epoch (vsets s)).2;
  tm_power stake.
Definition state_of (address : A) (epoch : Epoch) (s : PosStore) : R (option ValidatorState) :=
  unwrap (state_get params address epoch (vsets s)).2.
Definition key_of (address : A) (epoch : Epoch) (s : PosStore) : R (option PublicKey) :=
  unwrap (get_consensus_key address epoch s).

(** A validator of the new set. *)
Definition new_validator_updates (current_epoch next_epoch : Epoch) (s : PosStore) (x : Z * A) : R (list ValidatorSetUpdate) :=
  let '(new_stake, address) := x in
  skip ← (if validator_stake_threshold p =? 0 then
            prev ← prev_power address current_epoch s;
            if prev =? 0 then new ← tm_power new_stake; Ok (new =? 0) else Ok false
          else Ok false);
  if skip : bool then Ok []
  else
    new_consensus_key ← key_of address next_epoch s;
    new_consensus_key ← expect new_consensus_key;
    prev_consensus_key ← key_of address current_epoch s;
    prev_state ← state_of address current_epoch s;
    if bool_decide (prev_state ≠ Some Consensus) then
      new ← tm_power new_stake;
      Ok [UpdConsensus (mk_consensus new_consensus_key new)]
    else if bool_decide (prev_consensus_key ≠ Some new_consensus_key) then
      new ← tm_power new_stake;
      prev_consensus_key ← expect prev_consensus_key;
      Ok [UpdConsensus (mk_consensus new_consensus_key new); UpdDeactivated prev_consensus_key]
    else
      prev ← prev_power address current_epoch s;
      new ← tm_power new_stake;
      Ok (if prev =? new then [] else [UpdConsensus (mk_consensus new_consensus_key new)]).

(** A validator of the previous set. *)
Definition prev_validator_updates (current_epoch next_epoch : Epoch) (s : PosStore) (x : Z * A) : R (list ValidatorSetUpdate) :=
  let address := x.2 in
  new_state ← state_of address next_epoch s;
  prev_consensus_key ← key_of address current_epoch s;
  prev_consensus_key ← expect prev_consensus_key;
  if bool_decide (new_state = Some Consensus) then Ok []
  else
    skip ← (if validator_stake_threshold p =? 0 then prev ← prev_power address current_epoch s; Ok (prev =? 0) else Ok false);
    if skip : bool then Ok []
    else
      new_consensus_key ← key_of address next_epoch s;
      _ ← expect new_consensus_key;
      Ok [UpdDeactivated prev_consensus_key].

Definition collect_updates {X} (f : X → R (list ValidatorSetUpdate)) (l : list X) : R (list ValidatorSetUpdate) :=
  try_fold (λ acc x, u ← f x; Ok (acc ++ u)) [] l.
Definition validator_set_update_comet (current_epoch : Epoch) (s : PosStore) : R (list ValidatorSetUpdate) :=
  next_epoch ← expect (EpochM.next current_epoch);
  new ← collect_updates (new_validator_updates current_epoch next_epoch s) (consensus_entries (consensus_at (vsets s) next_epoch));
  prev ← collect_updates (prev_validator_updates current_epoch next_epoch s) (consensus_entries (consensus_at (vsets s) current_epoch));
  Ok (new ++ prev).

Definition genesis_validator_set_tendermint (current_epoch : Epoch) (s : PosStore) : R (list ValidatorSetUpdate) :=
  collect_updates (λ x,
      k ← get_consensus_key x.2 current_epoch s;
      k ← expect k;
      power ← tm_power x.1;
      Ok [UpdConsensus (mk_consensus k power)])
    (consensus_entries (consensus_at (vsets s) current_epoch)).
End validators.

(** * Theory *)

(** ** Consensus keys *)

(** A write of epoched data leaves the values there were and the new one. *)
Lemma trim_values {D} (l : list Z) (m m' : gmap Z D) (latest latest' : option D) :
  foldl (λ x e, EpochedM.trim_step e x) (m, latest) l = (m', latest') →
  (∀ e v, m' !! e = Some v → m !! e = Some v) ∧ (∀ v, latest' = Some v → latest = Some v ∨ ∃ e, m !! e = Some v).
Proof.
  revert m latest. induction l as [|x l IH]; cbn; intros m latest H; [injection H as -> ->; eauto|].
  destruct (m !! x) as [v|] eqn:Hx; apply IH in H as [H1 H2].
  - split; [intros e w He; apply H1 in He; by apply lookup_delete_Some in He as [_ ?]|].
    intros w Hw. right. apply H2 in Hw as [[= <-]|[e He]]; [eauto|]. apply lookup_delete_Some in He as [_ ?]. eauto.
  - by split.
Qed.

Lemma h_set_values {A D} (params : PosParams) (po : EpochOffset) (x : D) (cur off : Z) (h h' : EpochedSt D) :
  h_set (A:=A) params po x cur off h = Ok h' → ∀ e v, data h' !! e = Some v → v = x ∨ ∃ e', data h !! e' = Some v.
Proof.
  unfold h_set. intros H. res_inv H. unfold EpochedM.set in H.
  destruct (EpochedM.update_data v cur h) as [h1|] eqn:Hu; [|done]. cbn in H. unfold set_at_epoch in H.
  destruct (EpochM.unchecked_add cur off) as [ep|]; [|done]. injection H as <-. cbn. intros e w Hw.
  apply lookup_insert_Some in Hw as [[_ ->]|[_ Hw]]; [by left|]. right. unfold EpochedM.update_data in Hu.
  destruct (last_update h) as [lu|], (oldest_epoch h) as [o|]; try (injection Hu as <-; eauto; fail).
  destruct (o <? _); [|injection Hu as <-; eauto]. destruct (EpochM.checked_sub _ _) as [d|]; [|done]. cbn in Hu.
  unfold EpochedM.trim in Hu. destruct (foldl _ _ _) as [m' latest] eqn:Ht. apply trim_values in Ht as [Hm Hl].
  destruct latest as [y|]; injection Hu as <-; cbn in Hw; [|eauto].
  assert (Hy : ∃ e', data h !! e' = Some y) by (destruct (Hl y eq_refl); [done|eauto]).
  destruct (m' !! _); [eauto|]. apply lookup_insert_Some in Hw as [[_ <-]|[_ ?]]; eauto.
Qed.

Section keys.
Context {AA : AddressApi} {I : InternalAddrs AA} {OA : CmpOrder Address} {KK : PosKeys AA}.
Abbreviation A := Address.
Context (native_token : A) (params : PosParams).

Definition keyring (s : PosStore) := (consensus_key (validators s), consensus_keys (validators s), address_raw_hash (validators s)).
Definition key_at (s : PosStore) (v : A) (e : Epoch) : option PublicKey := data (validator_consensus_key_handle v s) !! e.

(** Every key that was ever taken has one owner, who alone has it among its keys
    and is found by its hash. *)
Record keys_owned (owner : gmap PublicKey A) (s : PosStore) : Prop := {
  ko_set : ∀ k, k ∈ consensus_keys (validators s) ↔ is_Some (owner !! k);
  ko_key : ∀ v e k, key_at s v e = Some k → owner !! k = Some v;
  ko_hash : ∀ k v, owner !! k = Some v → find_validator_by_raw_hash (tm_consensus_key_raw_hash k) s = Some v;
}.
Definition keys_sound (s : PosStore) : Prop := ∃ owner, keys_owned owner s.

Lemma keys_owned_keyring owner s s' : keyring s' = keyring s → keys_owned owner s → keys_owned owner s'.
Proof using Type.
  intros E [H1 H2 H3]. unfold keyring in E. injection E as E1 E2 E3. split.
  - by rewrite E2.
  - unfold key_at, validator_consensus_key_handle. by rewrite E1.
  - unfold find_validator_by_raw_hash. by rewrite E3.
Qed.

(** Taking a new key. *)
Lemma take_key owner s k v h cur off po s' : Inj (=) (=) (tm_consensus_key_raw_hash (AA:=AA)) → keys_owned owner s →
  k ∉ consensus_keys (validators s) →
  h_set (A:=A) params po k cur off (validator_consensus_key_handle v s) = Ok h →
  keyring s' = (<[v := h]> (consensus_key (validators s)), {[k]} ∪ consensus_keys (validators s),
    <[tm_consensus_key_raw_hash k := v]> (address_raw_hash (validators s))) →
  owner !! k = None ∧ keys_owned (<[k := v]> owner) s'.
Proof using Type.
  intros Hinj [H1 H2 H3] Hk Hset E. unfold keyring in E. injection E as E1 E2 E3.
  assert (Hnone : owner !! k = None) by (apply eq_None_not_Some; by rewrite <-H1). split; [done|]. split.
  - intros k'. rewrite E2, elem_of_union, elem_of_singleton, H1. destruct (decide (k' = k)) as [->|].
    + rewrite lookup_insert_eq. naive_solver.
    + rewrite lookup_insert_ne by done. naive_solver.
  - intros u e k'. unfold key_at, validator_consensus_key_handle. rewrite E1. destruct (decide (u = v)) as [->|].
    + rewrite lookup_insert_eq. cbn. intros He. destruct (h_set_values _ _ _ _ _ _ _ Hset e k' He) as [->|[e' He']].
      * by rewrite lookup_insert_eq.
      * apply H2 in He'. rewrite lookup_insert_ne; [done|]. congruence.
    + rewrite lookup_insert_ne by done. intros He. apply H2 in He. rewrite lookup_insert_ne; [done|]. congruence.
  - intros k' u. unfold find_validator_by_raw_hash. rewrite E3. intros [[<- <-]|[Hne Hu]]%lookup_insert_Some.
    + by rewrite lookup_insert_eq.
    + rewrite lookup_insert_ne; [by apply H3|]. by intros ?%Hinj.
Qed.

Lemma try_insert_ok k s s' : try_insert_consensus_key k s = (s', Ok ()) →
  k ∉ consensus_keys (validators s) ∧ s' = put_validators (upd_consensus_keys (λ keys, {[k]} ∪ keys) (validators s)) s.
Proof using Type.
  unfold try_insert_consensus_key. intros H. stt_inv H. destruct (bool_decide _) eqn:E; [by stt_inv H|].
  apply bool_decide_eq_false in E. split; [done|]. by injection H as <-.
Qed.

Lemma key_set_ok v k cur off s s' : consensus_key_set params v k cur off s = (s', Ok ()) →
  ∃ h, h_set (A:=A) params OffsetDefaultNumPastEpochs k cur off (validator_consensus_key_handle v s) = Ok h ∧
    s' = put_validators (upd_consensus_key (<[v := h]>) (validators s)) s.
Proof using Type. unfold consensus_key_set. intros H. stt_inv H. injection H as <-. eauto. Qed.

Lemma change_key_sound owner v k cur s s' : Inj (=) (=) (tm_consensus_key_raw_hash (AA:=AA)) → keys_owned owner s →
  change_consensus_key params v k cur s = (s', Ok ()) → owner !! k = None ∧ keys_owned (<[k := v]> owner) s'.
Proof using Type.
  intros Hinj Ho H. unfold change_consensus_key in H. destruct (negb _); [by stt_inv H|]. stt_inv H.
  repeat match goal with u : unit |- _ => destruct u end.
  match goal with H : try_insert_consensus_key _ _ = _ |- _ => apply try_insert_ok in H as [Hk ->] end.
  match goal with H : consensus_key_set _ _ _ _ _ _ = _ |- _ => apply key_set_ok in H as (h & Hh & ->) end. injection H as <-.
  by apply (take_key owner s k v h cur (pipeline_len (owned params)) OffsetDefaultNumPastEpochs).
Qed.

Lemma keeps_metadata v md : keeps keyring (write_validator_metadata v md).
Proof using Type.
  unfold write_validator_metadata, write_validator_email, write_field_opt, write_validator_field, on_validators.
  repeat (apply keeps_bind; [|intros]); repeat case_match; try apply keeps_throw; try apply keeps_ret; by intros s.
Qed.

Lemma keeps_key_set (field : ValidatorStore → gmap A (EpochedSt PublicKey)) upd v k cur off :
  (∀ g s, keyring (put_validators (upd g (validators s)) s) = keyring s) → keeps keyring (key_set params field upd v k cur off).
Proof using Type. intros Hu. unfold key_set. apply keeps_bind; [apply keeps_gets|]. intros h. apply keeps_bind; [apply keeps_lift|]. intros h' s. apply Hu. Qed.

Lemma keeps_commission_set v x cur off : keeps keyring (commission_set params v x cur off).
Proof using Type. unfold commission_set. by repeat (apply keeps_bind; [|intros]). Qed.

(** What follows the keys in [become_validator]. *)
Lemma keeps_become_tail (v : A) k1 k2 k3 rate cur off : keeps keyring (
  _ ← key_set params protocol_key upd_protocol_key v k1 cur off;
  _ ← key_set params eth_hot_key upd_eth_hot_key v k2 cur off;
  _ ← key_set params eth_cold_key upd_eth_cold_key v k3 cur off;
  _ ← commission_set params v rate cur off;
  _ ← on_vsets (deltas_set params v 0 cur off);
  _ ← on_vsets (state_set params v BelowThreshold cur off);
  on_vsets (insert_validator_into_validator_set params v 0 cur off)).
Proof using Type.
  repeat (apply keeps_bind; [first [by apply keeps_key_set|apply keeps_commission_set|by apply keeps_on_vsets]|intros _]).
  by apply keeps_on_vsets.
Qed.

Lemma become_sound owner args s s' : Inj (=) (=) (tm_consensus_key_raw_hash (AA:=AA)) → keys_owned owner s →
  become_validator params args s = (s', Ok ()) →
  owner !! bv_consensus_key args = None ∧ keys_owned (<[bv_consensus_key args := bv_address args]> owner) s'.
Proof using Type.
  intros Hinj Ho H. unfold become_validator in H. destruct (negb _); [by stt_inv H|]. apply stt_bind_ok in H as (? & s0 & Hg & H).
  stt_inv Hg. destruct (is_validator _ _); [by stt_inv H|]. apply stt_bind_ok in H as (? & b & Hb & H). stt_inv Hb.
  destruct b; [by stt_inv H|].
  apply stt_bind_ok in H as (s1 & [] & [Hk ->]%try_insert_ok & H). apply stt_bind_ok in H as (? & pe & He & H). stt_inv He.
  apply stt_bind_ok in H as (s2 & [] & H2 & H). apply (keeps_run keyring) in H2; [|by apply keeps_on_vsets].
  apply stt_bind_ok in H as (s3 & [] & [= <-] & H). apply stt_bind_ok in H as (s4 & [] & [= <-] & H).
  apply stt_bind_ok in H as (s5 & [] & H5 & H). apply (keeps_run keyring) in H5; [|apply keeps_metadata].
  apply stt_bind_ok in H as (s6 & [] & (h & Hh & ->)%key_set_ok & H). apply (keeps_run keyring) in H; [|apply keeps_become_tail].
  unfold keyring in H, H2, H5. cbn in H, H2, H5. injection H2 as E1 E2 E3. injection H5 as F1 F2 F3.
  apply (take_key owner s _ (bv_address args) h (bv_current_epoch args) (default (pipeline_len (owned params)) (bv_offset_opt args))
    OffsetDefaultNumPastEpochs); [done|done|done| |].
  - rewrite <-Hh. unfold validator_consensus_key_handle. by rewrite F1, E1.
  - unfold keyring. rewrite H. cbn. by rewrite F1, F2, F3, E1, E2, E3.
Qed.

(** What the life of the validators does to the store: staking and slashing, new
    validators, new keys and new metadata. *)
Inductive validator_step : PosStore → PosStore → Prop :=
| by_staking s s' : staking_step native_token params s s' → validator_step s s'
| by_becoming args s s' : become_validator params args s = (s', Ok ()) → validator_step s s'
| by_key_change v k cur s s' : change_consensus_key params v k cur s = (s', Ok ()) → validator_step s s'
| by_metadata v email description website discord avatar name rate cur s s' :
    change_validator_metadata params v email description website discord avatar name rate cur s = (s', Ok ()) → validator_step s s'.

Lemma keeps_change_metadata v email description website discord avatar name rate cur :
  keeps keyring (change_validator_metadata params v email description website discord avatar name rate cur).
Proof using All.
  unfold change_validator_metadata, write_validator_email, write_field_opt, write_validator_field, on_validators.
  do 6 (apply keeps_bind; [repeat case_match; try apply keeps_throw; try apply keeps_ret; by intros s|intros _]).
  case_match; [|apply keeps_ret].
  apply (keeps_run_op native_token params keyring ltac:(done) ltac:(done) ltac:(done) ltac:(done) ltac:(done) ltac:(done) cur (OpCommission v _)).
Qed.

Lemma validator_step_owned owner s s' : Inj (=) (=) (tm_consensus_key_raw_hash (AA:=AA)) → keys_owned owner s → validator_step s s' →
  ∃ owner', owner ⊆ owner' ∧ keys_owned owner' s'.
Proof using All.
  intros Hinj Ho Hstep. revert Ho. destruct Hstep as [s1 s2 Hs|args s1 s2 Hs|v k cur s1 s2 Hs|v em de we di av na ra cur s1 s2 Hs]; intros Ho.
  - exists owner. split; [done|]. apply (keys_owned_keyring owner s1); [|done]. by apply (staking_step_keeps native_token params keyring s1 s2).
  - destruct (become_sound owner args s1 s2 Hinj Ho Hs) as [? ?]. eexists. split; [|done]. by apply insert_subseteq.
  - destruct (change_key_sound owner v k cur s1 s2 Hinj Ho Hs) as [? ?]. eexists. split; [|done]. by apply insert_subseteq.
  - exists owner. split; [done|]. apply (keys_owned_keyring owner s1); [|done]. apply (keeps_run keyring) in Hs; [done|]. apply keeps_change_metadata.
Qed.

Lemma validator_steps_owned owner s s' : Inj (=) (=) (tm_consensus_key_raw_hash (AA:=AA)) → keys_owned owner s → rtc validator_step s s' →
  ∃ owner', owner ⊆ owner' ∧ keys_owned owner' s'.
Proof using All.
  intros Hinj Ho Hs. revert owner Ho. induction Hs as [s|s1 s2 s3 Hs _ IH]; intros owner Ho; [by exists owner|].
  destruct (validator_step_owned owner s1 s2 Hinj Ho Hs) as (o1 & H1 & Ho1). destruct (IH o1 Ho1) as (o2 & H2 & Ho2).
  exists o2. split; [by etrans|done].
Qed.
End keys.

(** C29. No two validators ever share a consensus key, at any epochs, and a key leads
    to the validator it belongs to for ever: whatever staking, slashing, new
    validators and changes of keys follow, the hash of a key a validator has had is
    the hash by which evidence finds it. *)
Theorem consensus_keys_stay_owned {AA : AddressApi} {I : InternalAddrs AA} {OA : CmpOrder Address} {KK : PosKeys AA}
    (native_token : Address) (params : PosParams) (s s' : PosStore) :
  Inj (=) (=) tm_consensus_key_raw_hash → keys_sound s → rtc (validator_step native_token params) s s' →
  keys_sound s' ∧
  (∀ v1 v2 e1 e2 k, key_at s' v1 e1 = Some k → key_at s' v2 e2 = Some k → v1 = v2) ∧
  (∀ v e k, key_at s v e = Some k → find_validator_by_raw_hash (tm_consensus_key_raw_hash k) s' = Some v).
Proof.
  intros Hinj [owner Ho] Hs. destruct (validator_steps_owned native_token params owner s s' Hinj Ho Hs) as (owner' & Hsub & Ho').
  split; [by exists owner'|]. split.
  - intros v1 v2 e1 e2 k H1%(ko_key _ _ Ho') H2%(ko_key _ _ Ho'). congruence.
  - intros v e k Hk%(ko_key _ _ Ho). by apply (ko_hash _ _ Ho'), (lookup_weaken _ _ _ _ Hk).
Qed.

(** ** Example: account 14 becomes a validator and changes its key *)

Definition new_validator : BecomeValidator (AA:=addr_ref) :=
  mk_become 14%N 2%N 5%N 7%N 9%N 1 50000000000 10000000000 (mk_metadata ["a"%char; "b"%char] None None None None None) None.
Abbreviation example_become := (become_validator (AA:=addr_ref) (KK:=keys_ref) example_params new_validator).
Abbreviation example_rekey := (change_consensus_key (AA:=addr_ref) (KK:=keys_ref) example_params 14%N 4%N 2).

Lemma hash_ref_inj : Inj (=) (=) (tm_consensus_key_raw_hash (AA:=addr_ref)).
Proof.
  intros a b H. cbn in H. assert (E : addr_decode (AddressApi:=addr_ref) (addr_encode a) = addr_decode (addr_encode b)) by (cbn in *; by rewrite H).
  rewrite !decode_encode in E. by injection E.
Qed.

Lemma example_keys : ∃ s1 s2, example_become two_validators = (s1, Ok ()) ∧ example_rekey s1 = (s2, Ok ()) ∧
  key_at (KK:=keys_ref) s1 14%N 3 = Some 2%N ∧ key_at (KK:=keys_ref) s2 14%N 4 = Some 4%N.
Proof.
  exists (example_become two_validators).1, (example_rekey (example_become two_validators).1).1.
  split; [apply run_ok; vm_compute; reflexivity|]. split; [apply run_ok; vm_compute; reflexivity|]. split; vm_compute; reflexivity.
Qed.

Lemma consensus_keys_stay_owned_witness : ∃ s1 s2, example_become two_validators = (s1, Ok ()) ∧ example_rekey s1 = (s2, Ok ()) ∧
  find_validator_by_raw_hash (AA:=addr_ref) (tm_consensus_key_raw_hash (PosKeys:=keys_ref) 2%N) s2 = Some 14%N ∧ key_at (KK:=keys_ref) s2 14%N 4 = Some 4%N.
Proof.
  destruct example_keys as (s1 & s2 & H1 & H2 & Hk1 & Hk2). exists s1, s2. split; [exact H1|]. split; [exact H2|]. split; [|exact Hk2].
  assert (H0 : keys_sound two_validators).
  { exists ∅. split.
    - intros k. rewrite lookup_empty. split; [intros Hk; vm_compute in Hk; discriminate Hk|by intros [? ?]].
    - intros v e k Hk. vm_compute in Hk. discriminate.
    - intros k v Hk. by rewrite lookup_empty in Hk. }
  destruct (consensus_keys_stay_owned (AA:=addr_ref) 20%N example_params two_validators s1 hash_ref_inj H0) as (Hs1 & _ & _).
  { eapply rtc_once, by_becoming. exact H1. }
  destruct (consensus_keys_stay_owned (AA:=addr_ref) 20%N example_params s1 s2 hash_ref_inj Hs1) as (_ & _ & Hfind).
  { eapply rtc_once, by_key_change. exact H2. }
  exact (Hfind 14%N 3 2%N Hk1).
Defined.

(** ** Updates take one validator set to the next *)

Section comet.
Context {AA : AddressApi} {I : InternalAddrs AA} {OA : CmpOrder Address} {KK : PosKeys AA}.
Abbreviation A := Address.
Context (params : PosParams).

(** The set of the consensus engine: a power of zero removes the key. *)
Definition upd_pair (u : ValidatorSetUpdate) : PublicKey * Z :=
  match u with UpdConsensus v => (cv_consensus_key v, cv_bonded_stake v) | UpdDeactivated k => (k, 0) end.
Definition comet_apply (m : gmap PublicKey Z) (u : ValidatorSetUpdate) : gmap PublicKey Z :=
  let '(k, power) := upd_pair u in if power =? 0 then delete k m else <[k := power]> m.

Definition the_key (s : PosStore) (e : Epoch) (v : A) : option PublicKey := match key_of params v e s with Ok k => k | _ => None end.
Definition the_power (stake : Z) : Z := match tm_power (AA:=AA) params stake with Ok p => p | _ => 0 end.
Definition entries_at (s : PosStore) (e : Epoch) : list (Z * A) := consensus_entries (consensus_at (vsets s) e).
(** The consensus validators of an epoch that have power, by their keys and powers. *)
Definition comet_pair (s : PosStore) (e : Epoch) (x : Z * A) : option (PublicKey * Z) :=
  k ← the_key s e x.2; if the_power x.1 =? 0 then None else Some (k, the_power x.1).
Definition comet_at (s : PosStore) (e : Epoch) : gmap PublicKey Z := list_to_map (omap (comet_pair s e) (entries_at s e)).

(** The store around a change of epochs: keys, states and stakes are there and
    agree with the sets, and the powers can be computed. *)
Record comet_ready (s : PosStore) (cur next : Epoch) : Prop := {
  cr_reads : ∀ v e, e = cur ∨ e = next → v ∈ (entries_at s cur).*2 ∨ v ∈ (entries_at s next).*2 → (∃ k, key_of params v e s = Ok k) ∧
    ∃ st, state_of params v e s = Ok st ∧ (st = Some Consensus ↔ v ∈ (entries_at s e).*2);
  cr_members : ∀ e, e = cur ∨ e = next → NoDup (entries_at s e).*2;
  cr_keys : ∀ e v, e = cur ∨ e = next → v ∈ (entries_at s e).*2 → is_Some (the_key s next v) ∧ (e = cur → is_Some (the_key s cur v));
  cr_power : ∀ e x, e = cur ∨ e = next → x ∈ entries_at s e → ∃ p, tm_power (AA:=AA) params x.1 = Ok p;
  cr_stake : ∀ x, x ∈ entries_at s cur → (read_validator_stake params x.2 cur (vsets s)).2 = Ok x.1;
  cr_prev : ∀ v, v ∈ (entries_at s next).*2 → ∃ p, prev_power params v cur s = Ok p;
}.
(** Every validator of the two sets has power, as when the threshold of stake is worth a vote. *)
Definition all_have_power (s : PosStore) (cur next : Epoch) : Prop :=
  ∀ e x, e = cur ∨ e = next → x ∈ entries_at s e → the_power x.1 ≠ 0.

Lemma comet_pair_some s e x k p : comet_pair s e x = Some (k, p) ↔ the_key s e x.2 = Some k ∧ the_power x.1 = p ∧ p ≠ 0.
Proof using Type.
  unfold comet_pair. destruct (the_key s e x.2) as [k'|]; cbn; [|naive_solver]. destruct (Z.eqb_spec (the_power x.1) 0); naive_solver.
Qed.

Lemma comet_apply_lookup (l : list ValidatorSetUpdate) m : NoDup (upd_pair <$> l).*1 →
  (∀ k p, (k, p) ∈ upd_pair <$> l → foldl comet_apply m l !! k = if p =? 0 then None else Some p) ∧
  (∀ k, k ∉ (upd_pair <$> l).*1 → foldl comet_apply m l !! k = m !! k).
Proof using Type.
  revert m. induction l as [|u l IH]; intros m Hnd; cbn [foldl fmap list_fmap]; [split; [by intros ? ? ?%not_elem_of_nil|done]|].
  cbn [fmap list_fmap] in Hnd. apply NoDup_cons in Hnd as [Hu Hnd]. destruct (IH (comet_apply m u) Hnd) as [H1 H2].
  destruct (upd_pair u) as [k0 p0] eqn:Eu. cbn in Hu.
  assert (Ea : comet_apply m u = if p0 =? 0 then delete k0 m else <[k0 := p0]> m) by (unfold comet_apply; by rewrite Eu). split.
  - intros k p [[= -> ->]|Hin]%elem_of_cons; [|by apply H1]. rewrite H2, Ea by done.
    destruct (p0 =? 0); [apply lookup_delete_eq|apply lookup_insert_eq].
  - intros k Hk. cbn in Hk. apply not_elem_of_cons in Hk as [Hne Hk]. rewrite H2, Ea by done.
    destruct (p0 =? 0); [by apply lookup_delete_ne|by apply lookup_insert_ne].
Qed.

(** Reads of epoched data return values that were written. *)
Lemma get_loop_values {D} fuel lowest e (m : gmap Z D) v : EpochedM.get_loop fuel lowest e m = Some v → ∃ e', m !! e' = Some v.
Proof using Type.
  revert e. induction fuel as [|fuel IH]; intros e; cbn; destruct (m !! e) eqn:E; [intros [= <-]; eauto|done|intros [= <-]; eauto|].
  destruct (_ && _); [apply IH|done].
Qed.
Lemma the_key_at s e v k : the_key s e v = Some k → ∃ e', key_at s v e' = Some k.
Proof using Type.
  unfold the_key, key_of, unwrap, get_consensus_key, h_get, key_at. destruct (last_update _) as [lu|] eqn:El; [|done]. cbn [offset_value expect mbind res_bind].
  unfold EpochedM.get. rewrite El. destruct (EpochM.unchecked_add _ _) as [fm|]; [|done]. cbn [mbind option_bind expect]. apply get_loop_values.
Qed.
Lemma keys_unique s e1 e2 v1 v2 k : keys_sound s → the_key s e1 v1 = Some k → the_key s e2 v2 = Some k → v1 = v2.
Proof using Type.
  intros [owner Ho] [e1' H1]%the_key_at [e2' H2]%the_key_at. apply (ko_key _ _ Ho) in H1, H2. congruence.
Qed.

Lemma comet_at_lookup s e k p : keys_sound s → NoDup (entries_at s e).*2 →
  comet_at s e !! k = Some p ↔ ∃ x, x ∈ entries_at s e ∧ the_key s e x.2 = Some k ∧ the_power x.1 = p ∧ p ≠ 0.
Proof using Type.
  intros Hk Hnd. unfold comet_at. rewrite <-elem_of_list_to_map.
  - rewrite list_elem_of_omap. by setoid_rewrite comet_pair_some.
  - induction (entries_at s e) as [|x l IH]; [constructor|]. cbn in Hnd |- *. apply NoDup_cons in Hnd as [Hx Hnd].
    destruct (comet_pair s e x) as [[k' p']|] eqn:E; [|by apply IH]. cbn. constructor; [|by apply IH].
    apply comet_pair_some in E as (E & _). intros ([k1 p1] & Hk1 & Hin)%list_elem_of_fmap. cbn in Hk1. subst k1.
    apply list_elem_of_omap in Hin as (y & Hy & (Ey & _)%comet_pair_some).
    apply Hx. rewrite (keys_unique s e e x.2 y.2 k'); [|done..]. apply list_elem_of_fmap. eauto.
Qed.

(** The updates as pairs of keys and powers. *)
Definition prev_pow (s : PosStore) (cur : Epoch) (v : A) : Z := match prev_power params v cur s with Ok p => p | _ => 0 end.
Definition no_threshold_of_stake : bool := validator_stake_threshold (owned params) =? 0.
Definition new_pairs (s : PosStore) (cur next : Epoch) (x : Z * A) : list (PublicKey * Z) :=
  if no_threshold_of_stake && ((prev_pow s cur x.2 =? 0) && (the_power x.1 =? 0)) then [] else
  match the_key s next x.2 with
  | None => []
  | Some kn =>
      if decide (x.2 ∈ (entries_at s cur).*2) then
        match the_key s cur x.2 with
        | None => []
        | Some kc =>
            if decide (kc = kn) then if prev_pow s cur x.2 =? the_power x.1 then [] else [(kn, the_power x.1)]
            else [(kn, the_power x.1); (kc, 0)]
        end
      else [(kn, the_power x.1)]
  end.
Definition prev_pairs (s : PosStore) (cur next : Epoch) (x : Z * A) : list (PublicKey * Z) :=
  if decide (x.2 ∈ (entries_at s next).*2) then []
  else if no_threshold_of_stake && (prev_pow s cur x.2 =? 0) then []
  else match the_key s cur x.2 with Some kc => [(kc, 0)] | None => [] end.

Lemma collect_updates_ok {X} (f : X → res (PosError A) (list ValidatorSetUpdate)) (g : X → list (PublicKey * Z)) (l : list X) :
  (∀ x, x ∈ l → ∃ u, f x = Ok u ∧ upd_pair <$> u = g x) →
  ∃ U, collect_updates f l = Ok U ∧ upd_pair <$> U = l ≫= g.
Proof using Type.
  intros Hf. unfold collect_updates.
  assert (Hgen : ∀ acc, ∃ U, try_fold (λ acc x, u ← f x; Ok (acc ++ u)) acc l = Ok (acc ++ U) ∧ upd_pair <$> U = l ≫= g).
  { induction l as [|x l IH]; intros acc; [exists []; by rewrite app_nil_r|]. destruct (Hf x) as (u & Hu & Eu); [left|].
    destruct (IH ltac:(intros; apply Hf; by right) (acc ++ u)) as (U & HU & EU). exists (u ++ U). cbn [try_fold]. rewrite Hu. cbn [mbind res_bind].
    rewrite HU. split; [by rewrite (assoc_L (++))|]. by rewrite fmap_app, Eu, EU, bind_cons. }
  destruct (Hgen []) as (U & HU & EU). by exists U.
Qed.

Lemma skip_value {B} (s : PosStore) (v : A) (cur new_stake thr p q : Z) (k : bool → res (PosError A) B) :
  prev_power params v cur s = Ok p → tm_power (AA:=AA) params new_stake = Ok q →
  (skip ← (if thr =? 0 then
             prev ← prev_power params v cur s;
             if prev =? 0 then new ← tm_power params new_stake; Ok (new =? 0) else Ok false
           else Ok false); k skip) = k ((thr =? 0) && ((p =? 0) && (q =? 0))).
Proof using Type.
  intros Hp Hq. destruct (thr =? 0); [|done]. rewrite Hp. cbn [mbind res_bind]. destruct (p =? 0); [|done]. by rewrite Hq.
Qed.

Lemma new_updates_ok s cur next x : comet_ready s cur next → x ∈ entries_at s next →
  ∃ u, new_validator_updates params cur next s x = Ok u ∧ upd_pair <$> u = new_pairs s cur next x.
Proof using Type.
  intros Hr Hx. destruct x as [stake v]. assert (Hv : v ∈ (entries_at s next).*2) by (apply list_elem_of_fmap; by exists (stake, v)).
  destruct (cr_power _ _ _ Hr next _ ltac:(by right) Hx) as (p & Hp). cbn [fst snd] in Hp.
  destruct (cr_prev _ _ _ Hr v Hv) as [q Hq]. unfold new_validator_updates. rewrite (skip_value s v cur stake _ q p) by done.
  destruct (cr_keys _ _ _ Hr next v ltac:(by right) Hv) as [[kn Hkn] _].
  destruct (cr_reads _ _ _ Hr v next ltac:(by right) ltac:(by right)) as [[on Hon] _]. destruct (cr_reads _ _ _ Hr v cur ltac:(by left) ltac:(by right)) as ([oc Hoc] & st & Hst & Hmem).
  assert (E1 : on = Some kn) by (unfold the_key in Hkn; by rewrite Hon in Hkn). subst on.
  assert (E2 : the_key s cur v = oc) by (unfold the_key; by rewrite Hoc).
  assert (E3 : the_power stake = p) by (unfold the_power; by rewrite Hp).
  assert (E4 : prev_pow s cur v = q) by (unfold prev_pow; by rewrite Hq).
  unfold new_pairs, no_threshold_of_stake. cbn [fst snd]. rewrite Hkn, E2, E3, E4. destruct (_ && _); [by exists []|]. rewrite Hon, Hoc, Hst, Hp, Hq. cbn [mbind res_bind expect].
  destruct (decide (v ∈ (entries_at s cur).*2)) as [Hc|Hc].
  - rewrite bool_decide_false by (intros Hn; by apply Hn, Hmem).
    destruct (cr_keys _ _ _ Hr cur v ltac:(by left) Hc) as [_ [kc Hkc]]; [done|]. assert (oc = Some kc) as -> by congruence. destruct (decide (kc = kn)) as [->|Hne].
    + rewrite bool_decide_false by naive_solver. destruct (q =? p); (eexists; split; [reflexivity|done]).
    + rewrite bool_decide_true by congruence. cbn [expect mbind res_bind]. eexists. split; [reflexivity|done].
  - rewrite bool_decide_true by (intros E; by apply Hc, Hmem). eexists. split; [reflexivity|done].
Qed.

Lemma prev_updates_ok s cur next x : comet_ready s cur next → x ∈ entries_at s cur →
  ∃ u, prev_validator_updates params cur next s x = Ok u ∧ upd_pair <$> u = prev_pairs s cur next x.
Proof using Type.
  intros Hr Hx. destruct x as [stake v]. assert (Hv : v ∈ (entries_at s cur).*2) by (apply list_elem_of_fmap; by exists (stake, v)).
  destruct (cr_power _ _ _ Hr cur _ ltac:(by left) Hx) as (p & Hp). cbn [fst snd] in Hp.
  pose proof (cr_stake _ _ _ Hr _ Hx) as Hsv. cbn [fst snd] in Hsv.
  assert (Hq : prev_power params v cur s = Ok p) by (unfold prev_power; rewrite Hsv; exact Hp).
  destruct (cr_keys _ _ _ Hr cur v ltac:(by left) Hv) as [[kn Hkn] [kc Hkc]]; [done|].
  destruct (cr_reads _ _ _ Hr v next ltac:(by right) ltac:(by left)) as ([on Hon] & st & Hst & Hmem). destruct (cr_reads _ _ _ Hr v cur ltac:(by left) ltac:(by left)) as ([oc Hoc] & _).
  assert (oc = Some kc) as -> by (unfold the_key in Hkc; by rewrite Hoc in Hkc).
  assert (on = Some kn) as -> by (unfold the_key in Hkn; by rewrite Hon in Hkn).
  assert (E4 : prev_pow s cur v = p) by (unfold prev_pow; by rewrite Hq).
  unfold prev_validator_updates, prev_pairs, no_threshold_of_stake. cbn [fst snd]. rewrite E4, Hkc, Hst, Hoc, Hon, Hq. cbn [mbind res_bind expect].
  destruct (decide (v ∈ (entries_at s next).*2)) as [Hn|Hn].
  - rewrite bool_decide_true by (by apply Hmem). eexists. split; [reflexivity|done].
  - rewrite bool_decide_false by (intros E; by apply Hn, Hmem).
    destruct (validator_stake_threshold _ =? 0), (p =? 0); cbn [mbind res_bind andb]; (eexists; split; [reflexivity|done]).
Qed.

Lemma elem_new_pairs s cur next x k p : (k, p) ∈ new_pairs s cur next x →
  (the_key s next x.2 = Some k ∧ p = the_power x.1 ∧
     (x.2 ∉ (entries_at s cur).*2 ∨ the_key s cur x.2 ≠ Some k ∨ prev_pow s cur x.2 ≠ the_power x.1)) ∨
  (x.2 ∈ (entries_at s cur).*2 ∧ the_key s cur x.2 = Some k ∧ the_key s next x.2 ≠ Some k ∧ p = 0).
Proof using Type.
  unfold new_pairs. destruct (_ && _); [by intros ?%not_elem_of_nil|]. destruct (the_key s next x.2) as [kn|]; [|by intros ?%not_elem_of_nil].
  destruct (decide _) as [Hc|Hc]; [|intros [= -> ->]%list_elem_of_singleton; left; eauto].
  destruct (the_key s cur x.2) as [kc|]; [|by intros ?%not_elem_of_nil]. destruct (decide (kc = kn)) as [->|].
  - destruct (Z.eqb_spec (prev_pow s cur x.2) (the_power x.1)); [by intros ?%not_elem_of_nil|].
    intros [= -> ->]%list_elem_of_singleton. left. eauto.
  - intros [[= -> ->]|[= -> ->]%list_elem_of_singleton]%elem_of_cons; [left|right; naive_solver].
    split; [done|]. split; [done|]. right. left. congruence.
Qed.

(** No key is named twice: a key has one owner, and an owner's keys differ. *)
Lemma NoDup_owned {X} (owner : PublicKey → A → Prop) (f : X → list (PublicKey * Z)) (g : X → A) (l : list X) :
  (∀ k a b, owner k a → owner k b → a = b) → NoDup (g <$> l) →
  (∀ x, x ∈ l → NoDup (f x).*1 ∧ ∀ k p, (k, p) ∈ f x → owner k (g x)) → NoDup (l ≫= f).*1.
Proof using Type.
  intros Huniq. induction l as [|x l IH]; intros Hnd Hf; [constructor|]. rewrite bind_cons, fmap_app. cbn in Hnd. apply NoDup_cons in Hnd as [Hx Hnd].
  apply NoDup_app. split; [apply Hf; left|]. split; [|apply IH; [done|]; intros y Hy; apply Hf; by right].
  intros k ([k1 p1] & -> & H1)%list_elem_of_fmap ([k2 p2] & E & H2)%list_elem_of_fmap. cbn in E. subst k2.
  apply list_elem_of_bind in H2 as (y & H2 & Hy). apply Hx. apply list_elem_of_fmap. exists y. split; [|done].
  apply (Huniq k1); [by apply (proj2 (Hf x ltac:(left)) k1 p1)|by apply (proj2 (Hf y ltac:(by right)) k1 p2)].
Qed.

Section step.
Context (s : PosStore) (cur next : Epoch) (Hs : keys_sound s) (Hr : comet_ready s cur next).
Let pairs : list (PublicKey * Z) := (entries_at s next ≫= new_pairs s cur next) ++ (entries_at s cur ≫= prev_pairs s cur next).

Lemma elem_prev_pairs x k p : (k, p) ∈ prev_pairs s cur next x → x.2 ∉ (entries_at s next).*2 ∧ the_key s cur x.2 = Some k ∧ p = 0.
Proof using Type.
  unfold prev_pairs. destruct (decide _); [by intros ?%not_elem_of_nil|]. destruct (_ && _); [by intros ?%not_elem_of_nil|]. destruct (the_key _ _ _); [|by intros ?%not_elem_of_nil].
  by intros [= -> ->]%list_elem_of_singleton.
Qed.

Lemma in_members e (x : Z * A) : x ∈ entries_at s e → x.2 ∈ (entries_at s e).*2.
Proof using Type. intros Hx. apply list_elem_of_fmap. eauto. Qed.

Definition owns (k : PublicKey) (v : A) : Prop := the_key s cur v = Some k ∨ the_key s next v = Some k.
Lemma owns_unique k v w : owns k v → owns k w → v = w.
Proof using Hs. intros [H1|H1] [H2|H2]; by eapply keys_unique. Qed.
Lemma new_pairs_owned x k p : (k, p) ∈ new_pairs s cur next x → owns k x.2.
Proof using Type. intros [(H1 & _ & _)|(_ & H1 & _)]%elem_new_pairs; [by right|by left]. Qed.

Lemma pairs_nodup : NoDup pairs.*1.
Proof using Hs Hr.
  unfold pairs. rewrite fmap_app. apply NoDup_app. split; [|split].
  - apply (NoDup_owned owns _ snd); [apply owns_unique|apply (cr_members _ _ _ Hr); by right|]. intros x Hx. split; [|apply new_pairs_owned].
    unfold new_pairs. destruct (_ && _); [constructor|]. destruct (the_key s next x.2); [|constructor]. repeat case_match; repeat constructor; set_solver.
  - intros k ([k1 p1] & -> & H1)%list_elem_of_fmap ([k2 p2] & E & H2)%list_elem_of_fmap. cbn in E. subst k2.
    apply list_elem_of_bind in H1 as (x & H1%new_pairs_owned & Hx), H2 as (y & (Hn & H2 & _)%elem_prev_pairs & Hy). apply Hn.
    rewrite <-(owns_unique k1 x.2 y.2 H1 ltac:(by left)). by apply in_members.
  - apply (NoDup_owned owns _ snd); [apply owns_unique|apply (cr_members _ _ _ Hr); by left|]. intros x Hx. split.
    + unfold prev_pairs. repeat case_match; repeat constructor; set_solver.
    + intros k p (_ & Hk & _)%elem_prev_pairs. by left.
Qed.

Lemma comet_some e k p : e = cur ∨ e = next →
  comet_at s e !! k = Some p ↔ ∃ x, x ∈ entries_at s e ∧ the_key s e x.2 = Some k ∧ the_power x.1 = p ∧ p ≠ 0.
Proof using Hs Hr. intros He. apply comet_at_lookup; [done|]. by apply (cr_members _ _ _ Hr). Qed.
Lemma comet_none e k : e = cur ∨ e = next → (∀ x, x ∈ entries_at s e → the_key s e x.2 = Some k → the_power x.1 = 0) → comet_at s e !! k = None.
Proof using Hs Hr.
  intros He Hno. destruct (comet_at s e !! k) eqn:E; [|done]. apply comet_some in E as (x & Hx & Hk & Hp & Hz); [|done].
  destruct Hz. rewrite <-Hp. by apply Hno.
Qed.
Lemma members_inj e x y : e = cur ∨ e = next → x ∈ entries_at s e → y ∈ entries_at s e → x.2 = y.2 → x = y.
Proof using Hr.
  intros He [i Hi]%list_elem_of_lookup [j Hj]%list_elem_of_lookup E. pose proof (cr_members _ _ _ Hr e He) as Hnd.
  assert (i = j) as ->; [|congruence]. apply (NoDup_lookup _ _ _ x.2 Hnd); rewrite list_lookup_fmap; [by rewrite Hi|by rewrite Hj, E].
Qed.

Lemma pairs_lead k p : (k, p) ∈ pairs → comet_at s next !! k = if p =? 0 then None else Some p.
Proof using Hs Hr.
  unfold pairs. rewrite elem_of_app, !list_elem_of_bind. intros [(x & Hp & Hx)|(x & Hp & Hx)].
  - apply elem_new_pairs in Hp as [(Hk & -> & _)|(Hc & Hk & Hn & ->)].
    + destruct (Z.eqb_spec (the_power x.1) 0) as [H0|]; [|apply comet_some; eauto 10]. apply comet_none; [by right|]. intros y Hy Hky.
      rewrite <-(members_inj next x y); [done|by right|done..|]. by apply (keys_unique s next next x.2 y.2 k).
    + cbn. apply comet_none; [by right|]. intros y Hy Hky. by rewrite (keys_unique s cur next x.2 y.2 k) in Hn.
  - apply elem_prev_pairs in Hp as (Hn & Hk & ->). cbn. apply comet_none; [by right|]. intros y Hy Hky. destruct Hn.
    rewrite (keys_unique s cur next x.2 y.2 k) by done. by apply in_members.
Qed.

Lemma removed_known k : all_have_power s cur next → (k, 0) ∈ pairs → is_Some (comet_at s cur !! k).
Proof using Hs Hr.
  intros Hpow. assert (Hin : ∀ v, v ∈ (entries_at s cur).*2 → the_key s cur v = Some k → is_Some (comet_at s cur !! k)).
  { intros v (x & -> & Hx)%list_elem_of_fmap Hk. exists (the_power x.1). apply comet_some; [by left|]. exists x. split_and!; try done. apply (Hpow cur); auto. }
  unfold pairs. rewrite elem_of_app, !list_elem_of_bind. intros [(x & Hp & Hx)|(x & Hp & Hx)].
  - apply elem_new_pairs in Hp as [(_ & H0 & _)|(Hc & Hk & _ & _)]; [|by apply (Hin x.2)]. destruct (Hpow next x); auto.
  - apply elem_prev_pairs in Hp as (_ & Hk & _). apply (Hin x.2); [by apply in_members|done].
Qed.

Lemma prev_pow_eq x : x ∈ entries_at s cur → prev_pow s cur x.2 = the_power x.1.
Proof using Hr. intros Hx. unfold prev_pow, prev_power, the_power. by rewrite (cr_stake _ _ _ Hr x Hx). Qed.

(** A validator of both sets whose key is not named keeps its key and its power. *)
Lemma unnamed_kept x y k : x ∈ entries_at s next → y ∈ entries_at s cur → x.2 = y.2 → the_power y.1 ≠ 0 ∨ the_power x.1 ≠ 0 → k ∉ pairs.*1 →
  the_key s cur y.2 = Some k ∨ the_key s next x.2 = Some k →
  the_key s cur y.2 = Some k ∧ the_key s next x.2 = Some k ∧ the_power y.1 = the_power x.1.
Proof using Hr.
  intros Hx Hy E Hpow Hk Hor. destruct (cr_keys _ _ _ Hr cur y.2 ltac:(by left) ltac:(by apply in_members)) as [[kn Hkn] [kc Hkc]]; [done|].
  assert (Hm : x.2 ∈ (entries_at s cur).*2) by (rewrite E; by apply in_members).
  assert (Hno : ∀ p, (k, p) ∉ new_pairs s cur next x).
  { intros p Hp. apply Hk, list_elem_of_fmap. exists (k, p). split; [done|]. apply elem_of_app. left. apply list_elem_of_bind. eauto. }
  unfold new_pairs in Hno. rewrite E in *. rewrite (prev_pow_eq y Hy) in Hno.
  assert (Hz : (the_power y.1 =? 0) && (the_power x.1 =? 0) = false) by (apply andb_false_iff; rewrite !Z.eqb_neq; tauto).
  rewrite Hz, andb_false_r, Hkn, decide_True, Hkc in Hno by done. rewrite Hkn, Hkc in *. destruct (decide (kc = kn)) as [->|Hne].
  - assert (kn = k) as -> by naive_solver. destruct (Z.eqb_spec (the_power y.1) (the_power x.1)); [done|].
    destruct (Hno (the_power x.1)). apply list_elem_of_singleton. done.
  - exfalso. destruct Hor as [[= ->]|[= ->]]; [apply (Hno 0); right; left|eapply Hno; left].
Qed.

Lemma unnamed_same k : k ∉ pairs.*1 → comet_at s cur !! k = comet_at s next !! k.
Proof using Hs Hr.
  intros Hk. apply option_eq. intros p. rewrite !comet_some by tauto. split.
  - intros (y & Hy & Hkey & <- & Hz). destruct (decide (y.2 ∈ (entries_at s next).*2)) as [Hin|Hout].
    + apply list_elem_of_fmap in Hin as (x & E & Hx). destruct (unnamed_kept x y k Hx Hy) as (_ & ? & ?); [done|by left|done|by left|]. eauto.
    + destruct Hk. apply list_elem_of_fmap. exists (k, 0). split; [done|]. apply elem_of_app. right. apply list_elem_of_bind. exists y.
      split; [|done]. unfold prev_pairs. rewrite decide_False, (prev_pow_eq y Hy), (proj2 (Z.eqb_neq _ _) Hz), andb_false_r, Hkey by done. left.
  - intros (x & Hx & Hkey & <- & Hz). destruct (decide (x.2 ∈ (entries_at s cur).*2)) as [Hin|Hout].
    + apply list_elem_of_fmap in Hin as (y & E & Hy). destruct (unnamed_kept x y k Hx Hy) as (? & _ & Hp); [done|by right|done|by right|]. rewrite <-Hp in Hz |- *. eauto.
    + destruct Hk. apply list_elem_of_fmap. exists (k, the_power x.1). split; [done|]. apply elem_of_app. left. apply list_elem_of_bind. exists x.
      split; [|done]. unfold new_pairs. rewrite (proj2 (Z.eqb_neq _ _) Hz), !andb_false_r, Hkey, decide_False by done. left.
Qed.
End step.
End comet.

(** C5. The updates sent to the consensus engine before a new epoch take its validator
    set from the consensus validators of the current epoch that have voting power, by keys
    and powers, to those of the next.  On a store in which consensus keys have one owner, and in which the
    keys, states and stakes of these validators are there, agree with the sets and give powers that
    can be computed, they are computed, and no key is named
    twice.  If every consensus validator of the two epochs has power, only keys that are in the
    set are removed from it; without that condition a key may be removed that is not there, which
    changes nothing in the set but which the consensus engine refuses. *)
Theorem comet_updates_refine {AA : AddressApi} {I : InternalAddrs AA} {OA : CmpOrder Address} {KK : PosKeys AA}
    (params : PosParams) (s : PosStore) (cur : Epoch) :
  0 ≤ cur < 2 ^ 64 - 1 → keys_sound s → comet_ready params s cur (cur + 1) →
  ∃ updates, validator_set_update_comet params cur s = Ok updates ∧
    NoDup (upd_pair <$> updates).*1 ∧
    (all_have_power params s cur (cur + 1) → ∀ k, (k, 0) ∈ upd_pair <$> updates → is_Some (comet_at params s cur !! k)) ∧
    foldl comet_apply (comet_at params s cur) updates = comet_at params s (cur + 1).
Proof.
  intros Hcur Hs Hr. destruct (collect_updates_ok (new_validator_updates params cur (cur + 1) s) (new_pairs params s cur (cur + 1))
    (entries_at s (cur + 1))) as (U1 & H1 & E1); [intros x Hx; by apply new_updates_ok|].
  destruct (collect_updates_ok (prev_validator_updates params cur (cur + 1) s) (prev_pairs params s cur (cur + 1)) (entries_at s cur))
    as (U2 & H2 & E2); [intros x Hx; by apply prev_updates_ok|].
  assert (E : upd_pair <$> U1 ++ U2 = (entries_at s (cur + 1) ≫= new_pairs params s cur (cur + 1)) ++ (entries_at s cur ≫= prev_pairs params s cur (cur + 1)))
    by (by rewrite fmap_app, E1, E2).
  pose proof (pairs_nodup params s cur (cur + 1) Hs Hr) as Hnd. rewrite <-E in Hnd.
  exists (U1 ++ U2). split; [|split; [done|split]].
  - unfold validator_set_update_comet, EpochM.next, EpochM.unchecked_add. rewrite chk_in by lia. cbn [expect mbind res_bind].
    unfold entries_at in H1, H2. by rewrite H1, H2.
  - intros Hpow k Hk. rewrite E in Hk. by eapply removed_known.
  - destruct (comet_apply_lookup (U1 ++ U2) (comet_at params s cur) Hnd) as [Hin Hout]. apply map_eq. intros k.
    destruct (decide (k ∈ (upd_pair <$> U1 ++ U2).*1)) as [Hk|Hk].
    + apply list_elem_of_fmap in Hk as ([k' p] & -> & Hp). cbn. rewrite (Hin k' p Hp). rewrite E in Hp. symmetry. by apply (pairs_lead params s cur (cur + 1)).
    + rewrite (Hout k Hk). apply (unnamed_same params s cur (cur + 1)); [done|done|]. by rewrite <-E.
Qed.

Definition at1 {D} (d1 d2 : D) : EpochedSt D := mk_epoched (Some 1) (Some 1) {[1 := d1; 2 := d2]}.
(** Validator 11 gains stake, 13 leaves, 14 joins and 15 changes its key. *)
Definition comet_store : PosStore (AA:=addr_ref) :=
  mk_store
    (mk_vsets (at1 {[(2000000, 0) := 11%N; (1000000, 0) := 13%N; (1000000, 1) := 15%N]}
                   {[(3000000, 0) := 11%N; (1500000, 0) := 14%N; (1000000, 1) := 15%N]})
       epoched_open epoched_open epoched_open
       {[11%N := at1 Consensus Consensus; 13%N := at1 Consensus BelowCapacity; 14%N := at1 BelowCapacity Consensus; 15%N := at1 Consensus Consensus]}
       {[11%N := at1 2000000 1000000; 13%N := at1 1000000 0; 14%N := at1 900000 600000; 15%N := at1 1000000 0]}
       epoched_open epoched_open epoched_open)
    (mk_bonding ∅ ∅ ∅ ∅ ∅) (mk_redelegation ∅ ∅ ∅ ∅ ∅ ∅) (mk_slashes ∅ epoched_open ∅) (mk_rewards ∅ ∅ ∅ ∅ None None None)
    (mk_validators ∅ ∅ {[11%N := at1 22%N 22%N; 13%N := at1 26%N 26%N; 14%N := at1 28%N 28%N; 15%N := at1 30%N 32%N]} ∅ ∅ ∅
       {[22%N; 26%N; 28%N; 30%N; 32%N]}
       (list_to_map ((λ x, (tm_consensus_key_raw_hash (PosKeys:=keys_ref) x.1, x.2)) <$> [(22%N, 11%N); (26%N, 13%N); (28%N, 14%N); (30%N, 15%N); (32%N, 15%N)]))
       ∅ ∅ ∅) ∅.

Lemma keys_owned_check {AA : AddressApi} {I : InternalAddrs AA} {OA : CmpOrder Address} {KK : PosKeys AA}
    (owner : gmap PublicKey Address) (s : PosStore) :
  consensus_keys (validators s) = dom owner →
  map_Forall (λ v h, map_Forall (λ _ k, owner !! k = Some v) (data h)) (consensus_key (validators s)) →
  map_Forall (λ k v, find_validator_by_raw_hash (tm_consensus_key_raw_hash k) s = Some v) owner → keys_owned owner s.
Proof.
  intros H1 H2 H3. split.
  - intros k. by rewrite H1, elem_of_dom.
  - intros v e k. unfold key_at, validator_consensus_key_handle. destruct (consensus_key (validators s) !! v) as [h|] eqn:E; cbn; [|by rewrite lookup_empty].
    apply (H2 v h E e k).
  - exact H3.
Qed.

Lemma state_check {E} (r : res E (option ValidatorState)) (P : Prop) `{Decision P} :
  match r with Ok st => bool_decide (st = Some Consensus) = bool_decide P | _ => False end →
  ∃ st, r = Ok st ∧ (st = Some Consensus ↔ P).
Proof. destruct r as [st| |]; [|done..]. intros E1. exists st. split; [done|]. rewrite <-(bool_decide_eq_true (st = Some Consensus)), <-(bool_decide_eq_true P). by rewrite E1. Qed.

Lemma comet_store_entries : entries_at comet_store 1 = [(1000000, 13%N); (1000000, 15%N); (2000000, 11%N)] ∧
  entries_at comet_store 2 = [(1000000, 15%N); (1500000, 14%N); (3000000, 11%N)].
Proof. split; vm_compute; reflexivity. Qed.
Lemma comet_store_members (v : N) : v ∈ (entries_at comet_store 1).*2 ∨ v ∈ (entries_at comet_store 2).*2 →
  v = 11%N ∨ v = 13%N ∨ v = 14%N ∨ v = 15%N.
Proof. rewrite (proj1 comet_store_entries), (proj2 comet_store_entries). cbn. rewrite !elem_of_cons, elem_of_nil. tauto. Qed.

Lemma comet_store_ready : keys_sound comet_store ∧ comet_ready (AA:=addr_ref) example_params comet_store 1 2.
Proof.
  split.
  - exists {[22%N := 11%N; 26%N := 13%N; 28%N := 14%N; 30%N := 15%N; 32%N := 15%N]}.
    apply keys_owned_check; [vm_compute; reflexivity|apply (bool_decide_unpack _); vm_compute; exact Logic.I..].
  - split.
    + intros v e He Hv%comet_store_members. destruct He as [-> | ->], Hv as [-> | [-> | [-> | ->]]].
      all: split; [apply ok_ex; vm_compute; reflexivity|refine (state_check _ _ _); vm_compute; reflexivity].
    + intros e [-> | ->]; apply (bool_decide_unpack _); vm_compute; exact Logic.I.
    + intros e v He Hv. assert (Hm : v ∈ (entries_at comet_store 1).*2 ∨ v ∈ (entries_at comet_store 2).*2) by (destruct He as [-> | ->]; tauto).
      apply comet_store_members in Hm as [-> | [-> | [-> | ->]]].
      all: split; [|intros _]; apply (bool_decide_unpack _); vm_compute; exact Logic.I.
    + intros e x [-> | ->]; rewrite ?(proj1 comet_store_entries), ?(proj2 comet_store_entries), !elem_of_cons, elem_of_nil;
        intros [-> | [-> | [-> | []]]]; apply ok_ex; vm_compute; reflexivity.
    + intros x. rewrite (proj1 comet_store_entries), !elem_of_cons, elem_of_nil. intros [-> | [-> | [-> | []]]]; vm_compute; reflexivity.
    + intros v Hv. destruct (comet_store_members v (or_intror Hv)) as [-> | [-> | [-> | ->]]]; apply ok_ex; vm_compute; reflexivity.
Qed.

Lemma comet_updates_refine_witness : ∃ updates, validator_set_update_comet (AA:=addr_ref) example_params 1 comet_store = Ok updates ∧
  (∀ k, (k, 0) ∈ upd_pair <$> updates → is_Some (comet_at (AA:=addr_ref) (KK:=keys_ref) example_params comet_store 1 !! k)) ∧
  foldl comet_apply (comet_at (AA:=addr_ref) example_params comet_store 1) updates = comet_at (AA:=addr_ref) example_params comet_store 2 ∧
  comet_at (AA:=addr_ref) (KK:=keys_ref) example_params comet_store 2 !! 32%N = Some 1000000.
Proof.
  destruct comet_store_ready as [Hs Hr].
  destruct (comet_updates_refine (AA:=addr_ref) example_params comet_store 1 ltac:(lia) Hs Hr) as (U & HU & _ & Hrem & HE).
  exists U. split; [exact HU|]. split; [|split; [exact HE|]].
  { apply Hrem. change (1 + 1) with 2. intros e x [-> | ->]; rewrite ?(proj1 comet_store_entries), ?(proj2 comet_store_entries), !elem_of_cons, elem_of_nil;
      intros [-> | [-> | [-> | []]]]; vm_compute; discriminate. } vm_compute. reflexivity.
Defined.

(** ** Without a threshold of stake *)

Definition with_stake_threshold (thr : Z) (q : OwnedPosParams) : OwnedPosParams :=
  mk_owned (max_validator_slots q) (pipeline_len q) (unbonding_len q) (tm_votes_per_token q) (block_proposer_reward q)
    (block_vote_reward q) (max_inflation_rate q) (target_staked_ratio q) (duplicate_vote_min_slash_rate q)
    (light_client_attack_min_slash_rate q) (cubic_slashing_window_length q) thr (liveness_window_check q)
    (liveness_threshold q) (rewards_gain_p q) (rewards_gain_d q).
Definition no_threshold : PosParams := mk_params (with_stake_threshold 0 owned_default) 10.
(** Validator 14 was jailed with some stake; it has none when it joins the set. *)
Definition unstaked_store : PosStore (AA:=addr_ref) :=
  mk_store
    (mk_vsets (at1 {[(2000000, 0) := 11%N]} {[(2000000, 0) := 11%N; (0, 0) := 14%N]}) epoched_open epoched_open epoched_open
       {[11%N := at1 Consensus Consensus; 14%N := at1 Jailed Consensus]} {[11%N := at1 2000000 0; 14%N := at1 500000 (-500000)]}
       epoched_open epoched_open epoched_open)
    (mk_bonding ∅ ∅ ∅ ∅ ∅) (mk_redelegation ∅ ∅ ∅ ∅ ∅ ∅) (mk_slashes ∅ epoched_open ∅) (mk_rewards ∅ ∅ ∅ ∅ None None None)
    (mk_validators ∅ ∅ {[11%N := at1 22%N 22%N; 14%N := at1 28%N 28%N]} ∅ ∅ ∅ {[22%N; 28%N]}
       (list_to_map ((λ x, (tm_consensus_key_raw_hash (PosKeys:=keys_ref) x.1, x.2)) <$> [(22%N, 11%N); (28%N, 14%N)])) ∅ ∅ ∅) ∅.

(** Without a threshold of stake the updates may remove a key that is not in the
    set of the consensus engine, which is an error there: the skipped updates are
    those of validators without power before and after, and a validator that was
    not in the set may have had power before. *)
Theorem comet_removes_unknown_key :
  validate (owned no_threshold) = Some [] ∧
  validator_set_update_comet (AA:=addr_ref) (KK:=keys_ref) no_threshold 1 unstaked_store = Ok [UpdConsensus (mk_consensus 28%N 0)] ∧
  comet_at (AA:=addr_ref) (KK:=keys_ref) no_threshold unstaked_store 1 !! 28%N = None.
Proof. split; [|split]; vm_compute; reflexivity. Qed.
