(* ===== verification/BlockAlloc.v ===== *)
(** * Block space allocation and the proposal it builds

    Models [apps/src/lib/node/ledger/shell/block_alloc.rs] and its [states], and
    [shell/prepare_proposal.rs] with the three batches that use them and the lookup of
    the proposer in the storage of proof of stake.  The states
    of the allocator are a phantom type parameter, as in the source.  What the
    shell decides of a transaction (is it a vote extension worth proposing, does
    its wrapper pay its fees) is a parameter of the section [shell]. *)

From S2P Require Import Prelude StorageKey BTree TransToken PosTypes Epoched ValidatorSets Slashing Unbonding PosStore Bonding SlashOps Rewards PosQueries Validators.

(** ** Bins *)

Inductive AllocFailure : Type :=
| Rejected (bin_resource_left : Z)
| OverflowsBin (bin_resource : Z).

(** Transactions are byte strings; space is their length, gas a number. *)
Abbreviation TxBytes := (list Byte.byte).
Definition space_of (tx : TxBytes) : Z := Z.of_nat (length tx).

Record TxBin : Type := mk_bin { occupied : Z; allotted : Z }.

Module BinM.
Definition default : TxBin := mk_bin 0 0.
Definition init (max_capacity : Z) : TxBin := mk_bin 0 max_capacity.
Definition resource_left {E} (b : TxBin) : res E Z := opr 64 (allotted b - occupied b).
Definition shrink_to_fit (b : TxBin) : TxBin := mk_bin (occupied b) (occupied b).
Definition try_dump (resource : Z) : stt TxBin AllocFailure unit :=
  b ← get;
  if allotted b <? resource then throw (OverflowsBin (allotted b))
  else
    occ ← lift (opr 64 (occupied b + resource));
    if occ <=? allotted b then modify (λ b, mk_bin occ (allotted b))
    else
      left ← lift (resource_left b);
      throw (Rejected left).
End BinM.

Record NormalTxsBins : Type := mk_normal { space : TxBin; gas : TxBin }.
Definition normal_new (max_gas : Z) : NormalTxsBins := mk_normal BinM.default (BinM.init max_gas).

(** [NormalTxsBins::try_dump]: the same, with messages. *)
Definition normal_try_dump (tx : TxBytes) (g : Z) : stt NormalTxsBins string unit := λ n,
  match BinM.try_dump (space_of tx) (space n) with
  | (sp, Ok _) =>
      let '(gs, r) := BinM.try_dump g (gas n) in
      (mk_normal sp gs, map_err (λ e, match e with
        | Rejected _ => "No more gas left in the block for wrapper txs"
        | OverflowsBin _ => "The given wrapper tx requires more gas than available to the entire block"
        end%string) r)
  | (sp, r) =>
      (mk_normal sp (gas n), map_err (λ e, match e with
        | Rejected _ => "No more space left in the block for normal txs"
        | OverflowsBin _ => "The given wrapper tx is larger than the remaining available block space"
        end%string) r)
  end.

(** [num_rational::Ratio<u64>]: the integer part of the product of a ratio and
    an integer. *)
Class RatioApi : Type := { ratio_mul_to_integer : Z → Z → Z → option Z }.
Class RatioLaws (R : RatioApi) : Prop := {
  ratio_mul_law n d x : 0 ≤ n → 0 < d → 0 ≤ x → n * x < 2 ^ 64 → d < 2 ^ 64 →
    ratio_mul_to_integer n d x = Some (n * x / d) }.

(** [threshold] *)
Record Threshold : Type := mk_threshold { numer : Z; denom : Z }.
Definition threshold_new (n d : Z) : Threshold := mk_threshold (if d <? n then d else n) d.
Definition ONE_HALF : Threshold := threshold_new 1 2.
Definition over {R : RatioApi} (t : Threshold) (free_space_in_bytes : Z) : option Z :=
  ratio_mul_to_integer (numer t) (denom t) free_space_in_bytes.

(** ** The allocator *)

(** Markers of the states. *)
Inductive WithNormalTxs : Type :=.
Inductive WithoutNormalTxs : Type :=.
Inductive BuildingProtocolTxBatch (Mode : Type) : Type := protocol_mode (_ : Mode).
Inductive BuildingNormalTxBatch : Type := building_normal.

Record BlockAllocator (State : Type) : Type := mk_alloc {
  block : TxBin;
  protocol_txs : TxBin;
  normal_txs : NormalTxsBins;
}.
Arguments mk_alloc {State} _ _ _.
Arguments block {State} _.
Arguments protocol_txs {State} _.
Arguments normal_txs {State} _.

Section allocator.
Context {R : RatioApi}.

Definition init_protocol (max max_block_gas : Z) :
    option (BlockAllocator (BuildingProtocolTxBatch WithNormalTxs)) :=
  half ← over ONE_HALF max;
  Some (mk_alloc (BinM.init max) (BinM.init half) (normal_new max_block_gas)).
Definition init_normal (max max_block_gas : Z) : BlockAllocator BuildingNormalTxBatch :=
  mk_alloc (BinM.init max) BinM.default (mk_normal (BinM.init max) (BinM.init max_block_gas)).

Definition unoccupied_space_in_bytes {St E} (a : BlockAllocator St) : res E Z :=
  total ← opr 64 (occupied (protocol_txs a) + occupied (space (normal_txs a)));
  opr 64 (allotted (block a) - total).

Definition try_alloc_protocol {M} (tx : TxBytes) :
    stt (BlockAllocator (BuildingProtocolTxBatch M)) AllocFailure unit := λ a,
  let '(b, r) := BinM.try_dump (space_of tx) (protocol_txs a) in
  (mk_alloc (block a) b (normal_txs a), r).

(** The space is dumped first; a failure of the gas bin leaves it dumped. *)
Definition try_alloc_normal (tx : TxBytes) (g : Z) :
    stt (BlockAllocator BuildingNormalTxBatch) AllocFailure unit := λ a,
  let '(sp, r) := BinM.try_dump (space_of tx) (space (normal_txs a)) in
  match r with
  | Ok _ =>
      let '(gs, r) := BinM.try_dump g (gas (normal_txs a)) in
      (mk_alloc (block a) (protocol_txs a) (mk_normal sp gs), r)
  | r => (mk_alloc (block a) (protocol_txs a) (mk_normal sp (gas (normal_txs a))), r)
  end.

Definition next_state_protocol {E} (a : BlockAllocator (BuildingProtocolTxBatch WithNormalTxs)) :
    res E (BlockAllocator BuildingNormalTxBatch) :=
  let a' := mk_alloc (State:=BuildingProtocolTxBatch WithNormalTxs) (block a)
              (BinM.shrink_to_fit (protocol_txs a)) (normal_txs a) in
  free ← unoccupied_space_in_bytes a';
  Ok (mk_alloc (block a') (protocol_txs a') (mk_normal (BinM.init free) (gas (normal_txs a')))).

Definition next_state_normal {E} (a : BlockAllocator BuildingNormalTxBatch) :
    res E (BlockAllocator (BuildingProtocolTxBatch WithoutNormalTxs)) :=
  free ← unoccupied_space_in_bytes a;
  Ok (mk_alloc (block a) (BinM.init free) (normal_txs a)).

(** ** The batches of a proposal

    [take_while] keeps a transaction when its closure returns [true], which it
    does for an allocated one and for one that overflows the bin. *)

Definition kept {E} (r : res AllocFailure unit) : res E bool :=
  match r with
  | Ok _ | Err (OverflowsBin _) => Ok true
  | Err (Rejected _) => Ok false
  | Panic => Panic
  end.

Section shell.
Context {AA : AddressApi} {KK : PosKeys AA} {St : Type}.
(** [is_vext] is the test of [deserialize_vote_extensions]; [validate] is
    [validate_wrapper_bytes] for a block proposer on the temporary state (committed or dropped), with
    the gas limit of a valid wrapper. *)
Variable is_vext : TxBytes → bool.
Variable validate : Address → St → TxBytes → St * option Z.

(** [drain_filter] hands out the vote extensions; [keep_rest] leaves the others
    and those not handed out in [txs].  The one that ends the [take_while] has
    been handed out: it is in neither list. *)
Fixpoint take_protocol {M} (a : BlockAllocator (BuildingProtocolTxBatch M)) (txs : list TxBytes) :
    res Empty_set (BlockAllocator (BuildingProtocolTxBatch M) * list TxBytes * list TxBytes) :=
  match txs with
  | [] => Ok (a, [], [])
  | tx :: txs =>
      if is_vext tx then
        let '(a, r) := try_alloc_protocol tx a in
        k ← kept r;
        if k : bool then
          '(a, taken, rest) ← take_protocol a txs;
          Ok (a, tx :: taken, rest)
        else Ok (a, [], txs)
      else
        '(a, taken, rest) ← take_protocol a txs;
        Ok (a, taken, tx :: rest)
  end.

Definition build_protocol_txs {M} (last_block : bool) (a : BlockAllocator (BuildingProtocolTxBatch M))
    (txs : list TxBytes) :
    res Empty_set (BlockAllocator (BuildingProtocolTxBatch M) * list TxBytes * list TxBytes) :=
  if last_block then take_protocol a txs else Ok (a, [], txs).

Fixpoint take_normal (block_proposer : Address) (a : BlockAllocator BuildingNormalTxBatch) (st : St) (txs : list TxBytes) :
    res Empty_set (BlockAllocator BuildingNormalTxBatch * list (TxBytes * Z)) :=
  match txs with
  | [] => Ok (a, [])
  | tx :: txs =>
      match validate block_proposer st tx with
      | (st, Some g) =>
          let '(a, r) := try_alloc_normal tx g a in
          k ← kept r;
          if k : bool then
            '(a, taken) ← take_normal block_proposer a st txs;
            Ok (a, (tx, g) :: taken)
          else Ok (a, [])
      | (st, None) => take_normal block_proposer a st txs
      end
  end.

Definition build_normal_txs (block_proposer : Address) (a : BlockAllocator BuildingNormalTxBatch) (st : St) (txs : list TxBytes) :
    res Empty_set (list (TxBytes * Z) * BlockAllocator (BuildingProtocolTxBatch WithoutNormalTxs)) :=
  '(a, taken) ← take_normal block_proposer a st txs;
  a ← next_state_normal a;
  Ok (taken, a).

(** [prepare_proposal]: of a validator, the batches in order, with the proposer of the request looked up
    in the storage [s] between the first and the second; of another node, nothing. *)
Definition prepare_batches (s : PosStore) (proposer_address : list Z) (last_block : bool) (st : St) (max max_gas : Z) (txs : list TxBytes) :
    res Empty_set (list TxBytes * list (TxBytes * Z) * list TxBytes) :=
  a ← expect (init_protocol max max_gas);
  '(a, p1, txs) ← build_protocol_txs last_block a txs;
  a ← next_state_protocol a;
  block_proposer ← expect (find_validator_by_raw_hash (tm_raw_hash_to_string proposer_address) s);
  '(n, a) ← build_normal_txs block_proposer a st txs;
  '(_, p2, _) ← build_protocol_txs last_block a txs;
  Ok (p1, n, p2).
Definition prepare_proposal (is_validator : bool) (s : PosStore) (proposer_address : list Z) (last_block : bool) (st : St)
    (max max_gas : Z) (txs : list TxBytes) : res Empty_set (list TxBytes) :=
  if is_validator then
    '(p1, n, p2) ← prepare_batches s proposer_address last_block st max max_gas txs;
    Ok (p1 ++ n.*1 ++ p2)
  else Ok [].
End shell.
End allocator.

(** ** What is counted *)

Definition size (txs : list TxBytes) : Z := foldr (λ tx acc, space_of tx + acc) 0 txs.
(** Sizes of the transactions that fit a bin of capacity [c]: those the bin
    counts. *)
Definition size_fit (c : Z) (txs : list TxBytes) : Z := size (filter (λ tx, space_of tx ≤ c) txs).
(** Gas of the transactions that fit bins of capacities [c] and [cg]. *)
Definition gas_fit (c cg : Z) (n : list (TxBytes * Z)) : Z :=
  foldr (λ x acc, (if decide (space_of x.1 ≤ c ∧ x.2 ≤ cg) then x.2 else 0) + acc) 0 n.

Definition wf_bin (b : TxBin) : Prop := 0 ≤ occupied b ≤ allotted b ∧ allotted b < 2 ^ 63.

Lemma space_nonneg tx : 0 ≤ space_of tx.
Proof. unfold space_of. lia. Qed.

Lemma size_app l k : size (l ++ k) = size l + size k.
Proof. unfold size. induction l as [|x l IH]; cbn; [done|]. rewrite IH. lia. Qed.

Lemma size_fit_cons c tx l :
  size_fit c (tx :: l) = (if decide (space_of tx ≤ c) then space_of tx else 0) + size_fit c l.
Proof. unfold size_fit. rewrite filter_cons. by destruct (decide _). Qed.

Lemma size_fit_all c l : Forall (λ tx, space_of tx ≤ c) l → size_fit c l = size l.
Proof.
  intros H. induction H as [|x l Hx _ IH]; [done|].
  by rewrite size_fit_cons, decide_True, IH.
Qed.

(** One dump: refused outright, counted, or refused for lack of room. *)
Lemma try_dump_run b r : wf_bin b → 0 ≤ r →
  BinM.try_dump r b =
    if allotted b <? r then (b, Err (OverflowsBin (allotted b)))
    else if occupied b + r <=? allotted b then (mk_bin (occupied b + r) (allotted b), Ok ())
    else (b, Err (Rejected (allotted b - occupied b))).
Proof.
  intros [Hb Hm] Hr. unfold BinM.try_dump, mbind, stt_bind, get, lift.
  destruct (Z.ltb_spec (allotted b) r); [done|]. unfold opr.
  assert (in_u 64 (occupied b + r) = true) as -> by (apply in_u_spec; lia).
  destruct (Z.leb_spec (occupied b + r) (allotted b)); [done|].
  unfold BinM.resource_left, opr.
  by assert (in_u 64 (allotted b - occupied b) = true) as -> by (apply in_u_spec; lia).
Qed.

Section batches.
Context {AA : AddressApi} {KK : PosKeys AA} {St : Type} (is_vext : TxBytes → bool) (validate : Address → St → TxBytes → St * option Z).

Lemma take_protocol_spec {M} txs (a : BlockAllocator (BuildingProtocolTxBatch M)) :
  wf_bin (protocol_txs a) →
  ∃ b taken rest,
    take_protocol is_vext a txs = Ok (mk_alloc (block a) b (normal_txs a), taken, rest) ∧
    wf_bin b ∧ allotted b = allotted (protocol_txs a) ∧
    occupied b = occupied (protocol_txs a) + size_fit (allotted b) taken ∧
    taken ++ rest ⊆+ txs ∧ Forall (λ tx, is_vext tx = true) taken.
Proof using Type.
  revert a. induction txs as [|tx txs IH]; intros a Ha; cbn [take_protocol].
  { exists (protocol_txs a), [], []. destruct a. cbn. split_and!; try done. unfold size_fit; cbn. lia. }
  destruct (is_vext tx) eqn:Hv.
  2:{ destruct (IH a Ha) as (b & tk & rest & -> & Hb & Hc & Ho & Hs & Hf). cbn.
      exists b, tk, (tx :: rest). split_and!; try done.
      rewrite <-Permutation_middle. by constructor. }
  unfold try_alloc_protocol. rewrite try_dump_run by (done || apply space_nonneg).
  pose proof (space_nonneg tx). pose proof Ha as [Ho1 Ho2].
  destruct (Z.ltb_spec (allotted (protocol_txs a)) (space_of tx)) as [H1|H1];
    [|destruct (Z.leb_spec (occupied (protocol_txs a) + space_of tx) (allotted (protocol_txs a)))].
  - cbn [kept mbind res_bind]. destruct (IH (mk_alloc (block a) (protocol_txs a) (normal_txs a)))
      as (b & tk & rest & -> & Hb & Hc & Ho & Hs & Hf); [done|]. cbn in *.
    exists b, (tx :: tk), rest. split_and!; try done.
    + rewrite size_fit_cons, decide_False by lia. lia.
    + by constructor.
    + by constructor.
  - cbn [kept mbind res_bind].
    destruct (IH (mk_alloc (block a) (mk_bin (occupied (protocol_txs a) + space_of tx)
      (allotted (protocol_txs a))) (normal_txs a)))
      as (b & tk & rest & -> & Hb & Hc & Ho & Hs & Hf); [split; cbn; lia|]. cbn in *.
    exists b, (tx :: tk), rest. split_and!; try done.
    + rewrite size_fit_cons, decide_True by lia. lia.
    + by constructor.
    + by constructor.
  - cbn. exists (protocol_txs a), [], txs. split_and!; try done.
    + unfold size_fit; cbn. lia.
    + by constructor.
Qed.

(** What a run over [txs] from bins [sp], [gs] to bins [sp'], [gs'] takes. *)
Definition normal_post (txs : list TxBytes) (sp gs sp' gs' : TxBin) (taken : list (TxBytes * Z)) : Prop :=
  wf_bin sp' ∧ wf_bin gs' ∧ allotted sp' = allotted sp ∧ allotted gs' = allotted gs ∧
  occupied sp + size_fit (allotted sp) taken.*1 ≤ occupied sp' ∧
  occupied gs' = occupied gs + gas_fit (allotted sp) (allotted gs) taken ∧
  taken.*1 ⊆+ filter (λ tx, is_vext tx = false) txs.

Lemma normal_post_nil txs sp gs sp' :
  wf_bin sp' → wf_bin gs → allotted sp' = allotted sp → occupied sp ≤ occupied sp' →
  normal_post txs sp gs sp' gs [].
Proof using Type.
  intros. unfold normal_post, size_fit. cbn. split_and!; try done; try lia. apply submseteq_nil_l.
Qed.

Lemma normal_post_cons tx g txs sp gs sp1 gs1 sp2 gs2 taken :
  is_vext tx = false → allotted sp1 = allotted sp → allotted gs1 = allotted gs →
  occupied sp + (if decide (space_of tx ≤ allotted sp) then space_of tx else 0) ≤ occupied sp1 →
  occupied gs1 = occupied gs +
    (if decide (space_of tx ≤ allotted sp ∧ g ≤ allotted gs) then g else 0) →
  normal_post txs sp1 gs1 sp2 gs2 taken → normal_post (tx :: txs) sp gs sp2 gs2 ((tx, g) :: taken).
Proof using Type.
  unfold normal_post. intros Hv A1 A2 O1 O2 (W1 & W2 & B1 & B2 & P1 & P2 & Hs).
  rewrite A1, A2 in *. split_and!; try done.
  - change (((tx, g) :: taken).*1) with (tx :: taken.*1). rewrite size_fit_cons. lia.
  - change (gas_fit (allotted sp) (allotted gs) ((tx, g) :: taken)) with
      ((if decide (space_of tx ≤ allotted sp ∧ g ≤ allotted gs) then g else 0) +
       gas_fit (allotted sp) (allotted gs) taken). lia.
  - rewrite filter_cons_True by done. by constructor.
Qed.

Lemma normal_post_skip tx txs sp gs sp' gs' taken :
  normal_post txs sp gs sp' gs' taken → normal_post (tx :: txs) sp gs sp' gs' taken.
Proof using Type.
  unfold normal_post. intros (? & ? & ? & ? & ? & ? & Hs). split_and!; try done.
  etrans; [exact Hs|]. rewrite filter_cons. destruct (decide _); [by constructor|done].
Qed.

Lemma take_normal_spec proposer txs (blk pr sp gs : TxBin) (st : St) :
  (∀ st tx st' g, validate proposer st tx = (st', Some g) → 0 ≤ g ∧ is_vext tx = false) →
  wf_bin sp → wf_bin gs →
  ∃ sp' gs' taken,
    take_normal validate proposer (mk_alloc blk pr (mk_normal sp gs)) st txs =
      Ok (mk_alloc blk pr (mk_normal sp' gs'), taken) ∧
    normal_post txs sp gs sp' gs' taken.
Proof using Type.
  intros Hval. revert sp gs st. induction txs as [|tx txs IH]; intros sp gs st Hs Hg; cbn [take_normal].
  { exists sp, gs, []. split; [done|]. by apply normal_post_nil. }
  destruct (validate proposer st tx) as [st' [g|]] eqn:Hv.
  2:{ destruct (IH sp gs st' Hs Hg) as (sp' & gs' & tk & H & Hp).
      exists sp', gs', tk. split; [done|]. by apply normal_post_skip. }
  destruct (Hval _ _ _ _ Hv) as [Hg0 Hvx]. unfold try_alloc_normal. cbn [normal_txs space gas block protocol_txs].
  pose proof (space_nonneg tx). pose proof Hs as [Hs1 Hs2]. pose proof Hg as [Hg1 Hg2].
  rewrite !try_dump_run by done.
  destruct (Z.ltb_spec (allotted sp) (space_of tx));
    [|destruct (Z.leb_spec (occupied sp + space_of tx) (allotted sp));
      [destruct (Z.ltb_spec (allotted gs) g); [|destruct (Z.leb_spec (occupied gs + g) (allotted gs))]|]];
    cbn [kept].
  4,5: eexists _, _, []; split; [done|]; apply normal_post_nil; try done; try (split; cbn; lia); cbn; lia.
  all: match goal with |- context [take_normal _ _ (mk_alloc _ _ (mk_normal ?x ?y))] =>
         destruct (IH x y st') as (sp' & gs' & tk & Hr & Hp); [try done; split; cbn; lia..|];
         cbn [mbind res_bind]; rewrite Hr; exists sp', gs', ((tx, g) :: tk); split; [done|];
         apply (normal_post_cons _ _ _ _ _ x y); try done; cbn
       end; repeat destruct (decide _); lia.
Qed.
Lemma build_protocol_spec {M} last_block txs (blk pr : TxBin) (nt : NormalTxsBins) :
  wf_bin pr →
  ∃ b taken rest,
    build_protocol_txs is_vext last_block (mk_alloc (State:=BuildingProtocolTxBatch M) blk pr nt) txs =
      Ok (mk_alloc blk b nt, taken, rest) ∧
    wf_bin b ∧ allotted b = allotted pr ∧ occupied b = occupied pr + size_fit (allotted pr) taken ∧
    taken ++ rest ⊆+ txs ∧ Forall (λ tx, is_vext tx = true) taken.
Proof using Type.
  intros Hp. unfold build_protocol_txs. destruct last_block.
  - destruct (take_protocol_spec (M:=M) txs (mk_alloc blk pr nt) Hp) as (b & tk & rest & H & ? & Ha & Ho & ?).
    exists b, tk, rest. cbn in *. rewrite Ha in Ho. done.
  - exists pr, [], txs. split_and!; try done. unfold size_fit; cbn. lia.
Qed.

(** The batches come from different transactions of the mempool. *)
Lemma batches_submseteq (p1 n p2 txs rest : list TxBytes) :
  p1 ++ rest ⊆+ txs → n ⊆+ filter (λ tx, is_vext tx = false) rest →
  p2 ⊆+ rest → Forall (λ tx, is_vext tx = true) p2 → p1 ++ n ++ p2 ⊆+ txs.
Proof using Type.
  intros H1 Hn H2 Hf. etrans; [|exact H1]. apply submseteq_app; [done|].
  assert (Hp : filter (λ tx, is_vext tx = false) rest ++ filter (λ tx, ¬ is_vext tx = false) rest ≡ₚ rest)
    by apply filter_app_complement.
  rewrite <-Hp. apply submseteq_app; [done|].
  rewrite <-(filter_all (λ tx, ¬ is_vext tx = false) p2).
  - by apply filter_submseteq.
  - eapply Forall_impl; [exact Hf|]. intros x Hx. cbn in Hx. by rewrite Hx.
Qed.
End batches.

Lemma init_protocol_run {R : RatioApi} (RL : RatioLaws R) max g : 0 ≤ max < 2 ^ 63 →
  init_protocol max g = Some (mk_alloc (BinM.init max) (BinM.init (max / 2)) (normal_new g)).
Proof.
  intros. unfold init_protocol, over. change (numer ONE_HALF) with 1. change (denom ONE_HALF) with 2.
  rewrite ratio_mul_law by lia. by rewrite Z.mul_1_l.
Qed.

Lemma next_state_protocol_run {E} blk pr sp gs :
  occupied sp = 0 → 0 ≤ occupied pr ≤ allotted blk → allotted blk < 2 ^ 64 →
  next_state_protocol (E:=E) (mk_alloc blk pr (mk_normal sp gs)) =
    Ok (mk_alloc blk (BinM.shrink_to_fit pr) (mk_normal (BinM.init (allotted blk - occupied pr)) gs)).
Proof.
  intros Hs Hp Hb. unfold next_state_protocol, unoccupied_space_in_bytes, opr. cbn.
  rewrite Hs, Z.add_0_r. do 2 (rewrite (proj2 (in_u_spec 64 _)) by lia; cbn). done.
Qed.

Lemma next_state_normal_run {E} blk pr sp gs :
  0 ≤ occupied pr → 0 ≤ occupied sp → occupied pr + occupied sp ≤ allotted blk → allotted blk < 2 ^ 64 →
  next_state_normal (E:=E) (mk_alloc blk pr (mk_normal sp gs)) =
    Ok (mk_alloc blk (BinM.init (allotted blk - (occupied pr + occupied sp))) (mk_normal sp gs)).
Proof.
  intros Hs Hp Hb ?. unfold next_state_normal, unoccupied_space_in_bytes, opr. cbn.
  do 2 (rewrite (proj2 (in_u_spec 64 _)) by lia; cbn). done.
Qed.

(** C33.  For a block space and a block gas below 2^63 (at more, the sum of a bin can overflow), a
    proposal is built without a panic, unless the address of the proposer is not that of a known
    validator, when it panics.  It takes each transaction of the mempool at
    most once.  The protocol transactions its first bin counts fill at most half
    of the block, and what the three bins count together, the block at most; the
    gas counted stays below the block's.  When every transaction taken fits the
    bin of its batch the whole proposal fits the block; one that does not fit is
    taken all the same and not counted.  A node that is not a validator proposes nothing.  Of the
    validation only this is used: the gas limit of a wrapper is not negative, and a valid wrapper is not a vote extension. *)
Theorem proposal_within_limits {R : RatioApi} (RL : RatioLaws R) {AA : AddressApi} {KK : PosKeys AA} {St : Type}
    (is_vext : TxBytes → bool) (validate : Address → St → TxBytes → St * option Z) (st : St) (s : PosStore)
    (proposer_address : list Z) (last_block : bool) (max max_gas : Z) (txs : list TxBytes) :
  0 ≤ max < 2 ^ 63 → 0 ≤ max_gas < 2 ^ 63 →
  (∀ v st tx st' g, validate v st tx = (st', Some g) → 0 ≤ g ∧ is_vext tx = false) →
  let proposal := prepare_proposal is_vext validate true s proposer_address last_block st max max_gas txs in
  prepare_proposal is_vext validate false s proposer_address last_block st max max_gas txs = Ok [] ∧
  match find_validator_by_raw_hash (tm_raw_hash_to_string proposer_address) s with
  | None => proposal = Panic
  | Some _ => ∃ p1 n p2 c, proposal = Ok (p1 ++ n.*1 ++ p2) ∧ p1 ++ n.*1 ++ p2 ⊆+ txs ∧
    let s1 := size_fit (max / 2) p1 in
    let s2 := size_fit (max - s1) n.*1 in
    s1 ≤ max / 2 ∧ size_fit c p2 ≤ c ∧ s1 + s2 + c ≤ max ∧ gas_fit (max - s1) max_gas n ≤ max_gas ∧
    (Forall (λ tx, space_of tx ≤ max / 2) p1 → Forall (λ tx, space_of tx ≤ max - s1) n.*1 →
     Forall (λ tx, space_of tx ≤ c) p2 → size (p1 ++ n.*1 ++ p2) ≤ max)
  end.
Proof.
  intros Hmax Hgas Hval proposal. split; [done|]. subst proposal.
  unfold prepare_proposal, prepare_batches. rewrite (init_protocol_run RL) by done.
  cbn [mbind option_bind res_bind expect]. assert (Hh : 0 ≤ max / 2 ≤ max) by dlia.
  destruct (build_protocol_spec (M:=WithNormalTxs) is_vext last_block txs (BinM.init max)
    (BinM.init (max / 2)) (normal_new max_gas))
    as (b1 & p1 & rest & -> & [Wb1 Wb1'] & Ha1 & Ho1 & Hs1 & Hf1); [split; cbn; lia|].
  cbn [allotted occupied BinM.init] in *. cbn [mbind res_bind].
  unfold normal_new. rewrite next_state_protocol_run by (cbn; lia). cbn [mbind res_bind]. unfold build_normal_txs.
  destruct (find_validator_by_raw_hash _ s) as [v|]; [|done]. cbn [expect mbind res_bind].
  destruct (take_normal_spec is_vext validate v rest (BinM.init max) (BinM.shrink_to_fit b1)
    (BinM.init (max - occupied b1)) (BinM.init max_gas) st (Hval v))
    as (sp & gs & n & Hn & ([Ws Ws'] & [Wg _] & As & Ag & Os & Og & Hs2)); [split; cbn; lia..|].
  cbn [allotted BinM.init]. rewrite Hn.
  cbn [allotted occupied BinM.init] in *. cbn [mbind res_bind].
  rewrite next_state_normal_run by (cbn; lia). cbn [mbind res_bind].
  change (allotted _ - (occupied (BinM.shrink_to_fit b1) + occupied sp))
    with (max - (occupied b1 + occupied sp)).
  destruct (build_protocol_spec (M:=WithoutNormalTxs) is_vext last_block rest (BinM.init max)
    (BinM.init (max - (occupied b1 + occupied sp))) (mk_normal sp gs))
    as (b2 & p2 & rest2 & Hb2 & [Wb2 _] & Ha2 & Ho2 & Hs3 & Hf2); [split; cbn; lia|].
  rewrite Hb2. cbn [mbind res_bind allotted occupied BinM.init] in *.
  exists p1, n, p2, (max - (occupied b1 + occupied sp)). split; [done|].
  rewrite Ho1, Z.add_0_l in *. split.
  { eapply batches_submseteq; [done..| |done]. etrans; [|exact Hs3]. by apply submseteq_inserts_r. }
  rewrite Z.add_0_l in Os, Og, Ho2. cbn zeta. split_and!; try lia.
  intros F1 F2 F3. rewrite !size_app, <-(size_fit_all _ _ F1), <-(size_fit_all _ _ F2), <-(size_fit_all _ _ F3). lia.
Qed.

(** Integer division as the ratio's product; short transactions are vote
    extensions, the others wrappers with a gas limit of 7. *)
Definition ratio_ref : RatioApi := {| ratio_mul_to_integer n d x := Some (n * x / d) |}.
Lemma ratio_ref_laws : RatioLaws ratio_ref.
Proof. by constructor. Qed.

Definition example_tx (n : nat) : TxBytes := replicate n Byte.x00.
Definition example_vext (tx : TxBytes) : bool := (length tx <? 3)%nat.
Definition example_validate (proposer : N) (st : unit) (tx : TxBytes) : unit * option Z :=
  (st, if example_vext tx then None else Some 7).
(** A validator and the bytes of the hash of its key. *)
Definition example_proposer : list Z := [1; 255].
Definition example_validators : PosStore (AA:=addr_ref) :=
  (on_validators (AA:=addr_ref) (modify (upd_address_raw_hash (<[tm_raw_hash_to_string example_proposer := 11%N]>))) reward_store).1.

Lemma proposal_within_limits_witness :
  ∃ txs, prepare_proposal (R:=ratio_ref) (AA:=addr_ref) example_vext example_validate true example_validators example_proposer true () 10 100
           (example_tx <$> [2; 4; 2; 2; 3]%nat) = Ok txs ∧ txs ⊆+ example_tx <$> [2; 4; 2; 2; 3]%nat ∧
         size txs = 8.
Proof.
  destruct (proposal_within_limits (R:=ratio_ref) ratio_ref_laws (AA:=addr_ref) example_vext example_validate () example_validators example_proposer true 10 100
    (example_tx <$> [2; 4; 2; 2; 3]%nat)) as [_ H]; [lia..| |].
  - intros v [] tx [] g. unfold example_validate. destruct (example_vext tx); [done|]. intros [= <-]. split; [lia|done].
  - assert (Hv : find_validator_by_raw_hash (AA:=addr_ref) (tm_raw_hash_to_string example_proposer) example_validators = Some 11%N) by (vm_compute; reflexivity).
    rewrite Hv in H. destruct H as (p1 & n & p2 & c & H & Hs & _). exists (p1 ++ n.*1 ++ p2). split; [exact H|]. split; [done|].
    generalize dependent (p1 ++ n.*1 ++ p2). intros txs H _. vm_compute in H. injection H as <-. reflexivity.
Defined.

(** A protocol transaction of 6 bytes overflows the first bin of a block of 10
    bytes and is taken without being counted: with 10 bytes of normal
    transactions the proposal has 16. *)
Example oversized_tx_is_proposed :
  let is_vext tx := (length tx =? 6)%nat in
  let validate (proposer : N) (st : unit) tx := (st, if is_vext tx then None else Some 7) in
  (size <$> prepare_proposal (R:=ratio_ref) (AA:=addr_ref) is_vext validate true example_validators example_proposer true () 10 100
     (example_tx <$> [6; 5; 5]%nat)) = Ok 16.
Proof. vm_compute. reflexivity. Qed.

(** The space of a transaction refused for its gas stays occupied. *)
Example refused_tx_keeps_space :
  let a := init_normal 10 5 in
  let '(a, r1) := try_alloc_normal (example_tx 4) 4 a in
  let '(a, r2) := try_alloc_normal (example_tx 4) 4 a in
  (r1, r2, occupied (space (normal_txs a))) = (Ok (), Err (Rejected 1), 8).
Proof. vm_compute. reflexivity. Qed.
