(* ===== verification/FinalizeBlock.v ===== *)
(** * The end of a block

    Models, from [proof_of_stake/src/lib.rs], what staking does when a block ends
    ([finalize_block]): the validator sets of a new epoch, the rewards of the
    block, evidence and slashes, and the liveness of the consensus validators, who
    are jailed when they miss too many votes; and the start of the chain
    ([init_genesis]).  The properties say that the counters of missed votes count
    the misses of the window and that those over the limit are jailed. *)

From S2P Require Import Prelude Words Uint Decimal I256 Dec Token StorageKey Epochs BTree TransToken PosTypes Epoched.
From S2P Require Import ValidatorSets Slashing Unbonding PosStore Bonding SlashOps Rewards.

Section finalize.
Context {AA : AddressApi} {I : InternalAddrs AA} {OA : CmpOrder Address} {KK : PosKeys AA}.
Abbreviation A := Address.
Abbreviation M := (stt PosStore (PosError A)).
Abbreviation R := (res (PosError A)).
Context (params : PosParams).
Let p : OwnedPosParams := owned params.

(** ** Liveness *)

Definition prune_validator (validator : A) : M unit :=
  _ ← on_validators (modify (upd_liveness_missed_votes (delete validator)));
  on_validators (modify (upd_liveness_sum_missed_votes (delete validator))).
Definition prune_liveness_data (current_epoch : Epoch) : M unit :=
  s ← get;
  let consensus_validators := read_consensus_validator_set_addresses current_epoch (vsets s) in
  let validators_to_prune := filter (λ v, v ∉ consensus_validators) (kvs (liveness_sum_missed_votes (validators s))).*1 in
  for_each prune_validator validators_to_prune.

(** The height that leaves the window. *)
Definition prune_missed_vote (validator : A) (prune_height : BlockHeight) : M unit :=
  s ← get;
  let missed := at_ (liveness_missed_votes (validators s)) validator in
  if bool_decide (prune_height ∈ missed) then
    _ ← on_validators (modify (upd_liveness_missed_votes (<[validator := missed ∖ {[prune_height]}]>)));
    missed_votes ← lift (expect (liveness_sum_missed_votes (validators s) !! validator));
    missed_votes ← lift (expect (chk 64 (missed_votes - 1)));
    on_validators (modify (upd_liveness_sum_missed_votes (<[validator := missed_votes]>)))
  else mret ().
Definition record_vote (votes_height : BlockHeight) (voted : bool) (validator : A) : M unit :=
  s ← get;
  let sum := liveness_sum_missed_votes (validators s) !! validator in
  if voted then
    match sum with
    | Some _ => mret ()
    | None => on_validators (modify (upd_liveness_sum_missed_votes (<[validator := 0]>)))
    end
  else
    _ ← on_validators (modify (upd_liveness_missed_votes (λ m, <[validator := {[votes_height]} ∪ at_ m validator]> m)));
    missed_votes ← lift (match sum with Some missed_votes => expect (chk 64 (missed_votes + 1)) | None => Ok 1 end);
    on_validators (modify (upd_liveness_sum_missed_votes (<[validator := missed_votes]>))).
Definition record_validator (votes_height : BlockHeight) (height_to_prune : option BlockHeight) (vote_addresses : gset A)
    (cons_validator : A) : M unit :=
  _ ← match height_to_prune with Some h => prune_missed_vote cons_validator h | None => mret () end;
  record_vote votes_height (bool_decide (cons_validator ∈ vote_addresses)) cons_validator.
(** A validator's data is its own: the order of the set does not matter. *)
Definition record_liveness_data (votes : list (VoteInfo (AA:=AA))) (votes_epoch : Epoch) (votes_height : BlockHeight) : M unit :=
  s ← get;
  let consensus_validators := read_consensus_validator_set_addresses votes_epoch (vsets s) in
  let vote_addresses : gset A := list_to_set (validator_address <$> votes) in
  let height_to_prune := BlockHeightM.checked_sub votes_height (liveness_window_check p) in
  for_each (record_validator votes_height height_to_prune vote_addresses) (elements consensus_validators).

Definition missing_votes_threshold : R Z :=
  x ← arith (ZDec.sub E12 (liveness_threshold p));
  window ← expect (ZDec.from_u64 (liveness_window_check p));
  y ← arith (ZDec.mul x window);
  n ← ok_or (ZDec.to_uint y) NegativeLivenessThreshold;
  expect (chk 64 n).
Definition jail_step (current_epoch jail_epoch : Epoch) (validator : A) : stt (VSets (A:=A)) (PosError A) unit :=
  st ← state_get params validator jail_epoch;
  state_jail_epoch ← lift (expect st);
  if bool_decide (state_jail_epoch = Jailed) then mret ()
  else jail_validator params validator current_epoch jail_epoch.
Definition jail_for_liveness (current_epoch jail_epoch : Epoch) : M unit :=
  threshold ← lift missing_votes_threshold;
  s ← get;
  let validators_to_jail := (filter (λ x, threshold ≤ x.2) (kvs (liveness_sum_missed_votes (validators s)))).*1 in
  on_vsets (for_each (jail_step current_epoch jail_epoch) validators_to_jail).

(** ** The block *)

(** [panic!] on an error. *)
Definition or_panic {B} (m : M B) : M B := λ s, let '(s', r) := m s in (s', match r with Err _ => Panic | r => r end).

(** The height, the epoch and the epochs of past blocks are those of the block;
    the events are returned. *)
Definition finalize_block (height : BlockHeight) (current_epoch : Epoch) (pred_epochs : Epochs) (is_new_epoch : bool)
    (validator_set_update_epoch : Epoch) (votes : list (VoteInfo (AA:=AA))) (byzantine_validators : list Misbehavior) : M (list (A * Z)) :=
  _ ← (if is_new_epoch then
         target ← lift (epoch_add current_epoch (pipeline_len p));
         _ ← on_vsets (copy_validator_sets_and_positions params current_epoch target);
         on_vsets (compute_and_store_total_consensus_stake params current_epoch)
       else mret ());
  _ ← (if bool_decide (votes = []) then mret () else log_block_rewards params votes height current_epoch is_new_epoch);
  _ ← record_slashes_from_evidence params byzantine_validators pred_epochs current_epoch validator_set_update_epoch;
  events ← (if is_new_epoch then or_panic (process_slashes params current_epoch) else mret []);
  _ ← (if bool_decide (votes = []) then mret ()
       else match BlockHeightM.prev_height height with
            | Some vote_height =>
                e ← lift (expect (EpochsM.get_epoch pred_epochs vote_height));
                epoch_of_votes ← lift (expect e);
                record_liveness_data votes epoch_of_votes vote_height
            | None => mret ()
            end);
  _ ← jail_for_liveness current_epoch validator_set_update_epoch;
  _ ← (if is_new_epoch then prune_liveness_data current_epoch else mret ());
  mret events.

(** ** Genesis *)

(** The parameters are those of the model. *)
Definition init_genesis (current_epoch : Epoch) : M unit :=
  _ ← on_rewards (modify (upd_last_staked_ratio (λ _, Some 0)));
  _ ← on_rewards (modify (upd_last_pos_inflation_amount (λ _, Some 0)));
  on_vsets (modify (upd_sets (NestedEpochedM.init current_epoch) (NestedEpochedM.init current_epoch)
                             (NestedEpochedM.init current_epoch) (NestedEpochedM.init current_epoch))).
End finalize.


(** * Theory *)

(** ** Counters of missed votes *)

Lemma size_upto (X : gset Z) h : -1 ≤ h → (∀ x, x ∈ X → 0 ≤ x ≤ h) → Z.of_nat (size X) ≤ h + 1.
Proof.
  intros Hh HX. assert (Hsub : X ⊆ list_to_set (seqZ 0 (h + 1))).
  { intros x Hx. apply HX in Hx. apply elem_of_list_to_set, elem_of_seqZ. lia. }
  apply subseteq_size in Hsub. pose proof (size_list_to_set (C:=gset Z) (seqZ 0 (h + 1)) (NoDup_seqZ _ _)) as Hs.
  rewrite Hs, length_seqZ in Hsub. lia.
Qed.

Section liveness.
Context {AA : AddressApi} {I : InternalAddrs AA} {OA : CmpOrder Address} {KK : PosKeys AA}.
Abbreviation A := Address.
Context (params : PosParams).
Abbreviation window := (liveness_window_check (owned params)).

Definition missed_votes (s : PosStore) (v : A) : gset Z := at_ (liveness_missed_votes (validators s)) v.
Definition miss_count (s : PosStore) (v : A) : option Z := liveness_sum_missed_votes (validators s) !! v.
Definition liveness_data (s : PosStore) := (liveness_missed_votes (validators s), liveness_sum_missed_votes (validators s)).

(** The counter of a validator is the number of the votes it missed, up to a
    height; without a counter there are none. *)
Definition counted (h : BlockHeight) (s : PosStore) (v : A) : Prop :=
  (∀ x, x ∈ missed_votes s v → 0 ≤ x ≤ h) ∧
  match miss_count s v with Some n => n = Z.of_nat (size (missed_votes s v)) | None => missed_votes s v = ∅ end.

(** What recording does for the validator and leaves of the others. *)
Definition others_kept (s s' : PosStore) (v : A) : Prop :=
  ∀ u, u ≠ v → missed_votes s' u = missed_votes s u ∧ miss_count s' u = miss_count s u.

Definition put_liveness (v : A) (X : gset Z) (n : Z) (s : PosStore) : PosStore :=
  put_validators (upd_liveness_sum_missed_votes (<[v := n]>) (upd_liveness_missed_votes (<[v := X]>) (validators s))) s.
Lemma put_liveness_spec v X n s : let s' := put_liveness v X n s in
  missed_votes s' v = X ∧ miss_count s' v = Some n ∧ others_kept s s' v ∧ vsets s' = vsets s.
Proof using Type.
  unfold missed_votes, miss_count. cbn. rewrite at_insert, decide_True, lookup_insert_eq by done. split; [done|]. split; [done|]. split; [|done].
  intros u Hu. unfold missed_votes, miss_count. cbn. by rewrite at_insert, decide_False, lookup_insert_ne.
Qed.

Lemma prune_missed_run h x s v : counted h s v → -1 ≤ h < 2 ^ 64 - 1 →
  ∃ s', prune_missed_vote v x s = (s', Ok ()) ∧ missed_votes s' v = missed_votes s v ∖ {[x]} ∧ counted h s' v ∧
    others_kept s s' v ∧ vsets s' = vsets s.
Proof using Type.
  intros [Hin Hcnt] Hw. unfold prune_missed_vote. unfold mbind, stt_bind, get. cbn [fst snd].
  destruct (decide (x ∈ missed_votes s v)) as [Hd|Hd].
  - rewrite bool_decide_true by exact Hd. fold (miss_count s v). destruct (miss_count s v) as [n|] eqn:Hn; [|rewrite Hcnt in Hd; set_solver].
    assert (Hsz : size (missed_votes s v) ≠ 0%nat) by (intros ?%size_empty_inv; set_solver).
    pose proof (size_upto _ h ltac:(lia) Hin) as Hle. cbn -[chk]. rewrite chk_in by lia. cbn.
    exists (put_liveness v (missed_votes s v ∖ {[x]}) (n - 1) s). split; [reflexivity|]. unfold counted.
    destruct (put_liveness_spec v (missed_votes s v ∖ {[x]}) (n - 1) s) as (E1 & E2 & Ho & Hv). rewrite E1, E2.
    split; [done|]. split; [|done]. split; [intros y Hy; apply Hin; set_solver|]. assert (Hs1 : {[x]} ⊆ missed_votes s v) by set_solver.
    rewrite (size_difference _ _ Hs1), size_singleton. lia.
  - rewrite bool_decide_false by exact Hd. eexists. split; [reflexivity|]. split; [set_solver|]. split; [done|]. split; [by intros u Hu|done].
Qed.

Lemma record_vote_run h voted s v : counted (h - 1) s v → 0 ≤ h < 2 ^ 64 - 1 →
  ∃ s', record_vote h voted v s = (s', Ok ()) ∧
    missed_votes s' v = (if voted : bool then missed_votes s v else {[h]} ∪ missed_votes s v) ∧
    counted h s' v ∧ others_kept s s' v ∧ vsets s' = vsets s.
Proof using Type.
  intros [Hin Hcnt] Hw. unfold record_vote. unfold mbind, stt_bind, get. cbn [fst snd]. fold (miss_count s v).
  assert (Hle : Z.of_nat (size (missed_votes s v)) ≤ h) by (pose proof (size_upto _ (h - 1) ltac:(lia) Hin); lia).
  assert (Hin' : ∀ x, x ∈ missed_votes s v → 0 ≤ x ≤ h) by (intros x Hx; apply Hin in Hx; lia).
  destruct voted.
  - destruct (miss_count s v) as [n|] eqn:Hn; (eexists; split; [reflexivity|]; split; [done|]).
    + split; [split; [done|]; by rewrite Hn|]. split; [by intros u Hu|done].
    + split; [split; [done|]|split; [|done]].
      * unfold missed_votes, miss_count in *. cbn. rewrite lookup_insert_eq, Hcnt. by rewrite size_empty.
      * intros u Hu. split; [done|]. unfold miss_count. cbn. by apply lookup_insert_ne.
  - assert (Hnew : h ∉ missed_votes s v) by (intros Hx; apply Hin in Hx; lia).
    assert (Hsz : Z.of_nat (size ({[h]} ∪ missed_votes s v)) = Z.of_nat (size (missed_votes s v)) + 1)
      by (rewrite size_union by set_solver; rewrite size_singleton; lia).
    assert (Hr : (match miss_count s v with Some n => expect (chk 64 (n + 1)) | None => Ok 1 end : res (PosError A) Z) =
      Ok (Z.of_nat (size ({[h]} ∪ missed_votes s v)))).
    { destruct (miss_count s v) as [n|]; [|rewrite Hsz, Hcnt, size_empty; done]. rewrite chk_in by lia. cbn. f_equal. lia. }
    unfold lift. rewrite Hr. set (n := Z.of_nat (size ({[h]} ∪ missed_votes s v))) in *.
    exists (put_liveness v ({[h]} ∪ missed_votes s v) n s). split; [reflexivity|].
    destruct (put_liveness_spec v ({[h]} ∪ missed_votes s v) n s) as (E1 & E2 & Ho & Hv). unfold counted. rewrite E1, E2.
    split; [done|]. split; [|done]. split; [|done]. intros x [->%elem_of_singleton|Hx]%elem_of_union; [lia|by apply Hin'].
Qed.

(** One validator. *)
Definition after_vote (h : BlockHeight) (voters : gset A) (v : A) (missed : gset Z) : gset Z :=
  (missed ∖ {[h - window]}) ∪ (if bool_decide (v ∈ voters) then ∅ else {[h]}).

Lemma record_validator_run h voters s v : counted (h - 1) s v → 0 ≤ h < 2 ^ 64 - 1 → 0 ≤ window →
  ∃ s', record_validator h (BlockHeightM.checked_sub h window) voters v s = (s', Ok ()) ∧
    missed_votes s' v = after_vote h voters v (missed_votes s v) ∧ counted h s' v ∧ others_kept s s' v ∧ vsets s' = vsets s.
Proof using Type.
  intros Hc Hh Hw. unfold record_validator.
  assert (Hpre : ∃ s1, (match BlockHeightM.checked_sub h window with Some x => prune_missed_vote v x | None => mret () end) s = (s1, Ok ()) ∧
    missed_votes s1 v = missed_votes s v ∖ {[h - window]} ∧ counted (h - 1) s1 v ∧ others_kept s s1 v ∧ vsets s1 = vsets s).
  { unfold BlockHeightM.checked_sub. destruct (decide (0 ≤ h - window)).
    - rewrite chk_in by lia. by apply prune_missed_run; [|lia].
    - assert (chk 64 (h - window) = None) as -> by (unfold chk, in_u; destruct (Z.leb_spec 0 (h - window)); [lia|done]).
      exists s. split; [done|]. split; [|by split; [|split; [intros u Hu|]]].
      destruct Hc as [Hin _]. assert (h - window ∉ missed_votes s v) by (intros Hx; apply Hin in Hx; lia). set_solver. }
  destruct Hpre as (s1 & R1 & M1 & C1 & O1 & V1).
  destruct (record_vote_run h (bool_decide (v ∈ voters)) s1 v C1 Hh) as (s2 & R2 & M2 & C2 & O2 & V2).
  exists s2. split; [by rewrite (stt_bind_run _ _ s s1 ()) by exact R1|]. split; [|split; [done|split; [|congruence]]].
  - unfold after_vote. rewrite M2, M1. case_bool_decide; set_solver.
  - intros u Hu. destruct (O1 u Hu), (O2 u Hu). split; congruence.
Qed.

Lemma record_all_run h voters l s : NoDup l → (∀ v, counted (h - 1) s v) → 0 ≤ h < 2 ^ 64 - 1 → 0 ≤ window →
  ∃ s', for_each (record_validator h (BlockHeightM.checked_sub h window) voters) l s = (s', Ok ()) ∧
    (∀ v, counted h s' v) ∧ vsets s' = vsets s ∧
    ∀ v, missed_votes s' v = if decide (v ∈ l) then after_vote h voters v (missed_votes s v) else missed_votes s v.
Proof using Type.
  intros Hnd Hc Hh Hw.
  assert (Hgen : ∀ s, (∀ v, v ∈ l → counted (h - 1) s v) →
    ∃ s', for_each (record_validator h (BlockHeightM.checked_sub h window) voters) l s = (s', Ok ()) ∧ vsets s' = vsets s ∧
      ∀ v, if decide (v ∈ l) then missed_votes s' v = after_vote h voters v (missed_votes s v) ∧ counted h s' v
           else missed_votes s' v = missed_votes s v ∧ miss_count s' v = miss_count s v).
  { clear s Hc. induction Hnd as [|x l Hx Hnd IH]; intros s Hc; [exists s; split; [done|]; split; [done|]; intros v; by rewrite decide_False by apply not_elem_of_nil|].
    destruct (record_validator_run h voters s x (Hc x ltac:(left)) Hh Hw) as (s1 & R1 & M1 & C1 & O1 & V1).
    destruct (IH s1) as (s2 & R2 & V2 & H2).
    { intros v Hv. assert (v ≠ x) as Hne by (by intros ->). destruct (O1 v Hne) as [E1 E2]. unfold counted. rewrite E1, E2. apply Hc. by right. }
    exists s2. split; [cbn [for_each]; by rewrite (stt_bind_run _ _ s s1 ()) by exact R1|]. split; [congruence|]. intros v.
    specialize (H2 v). destruct (decide (v = x)) as [->|Hne].
    - rewrite decide_False in H2 by done. rewrite decide_True by (left). destruct H2 as [E1 E2]. unfold counted in *. by rewrite E1, E2.
    - destruct (O1 v Hne) as [E1 E2]. rewrite E1, E2 in H2. destruct (decide (v ∈ l)) as [Hv|Hv].
      + by rewrite decide_True by (by right).
      + by rewrite decide_False by (by intros [|]%elem_of_cons). }
  destruct (Hgen s (λ v _, Hc v)) as (s' & R & V & H). exists s'. split; [done|]. split; [|split; [done|]].
  - intros v. specialize (H v). destruct (decide (v ∈ l)); [by destruct H|]. destruct H as [E1 E2]. destruct (Hc v) as [Hin Hcnt].
    unfold counted. rewrite E1, E2. split; [|done]. intros x Hx. apply Hin in Hx. lia.
  - intros v. specialize (H v). destruct (decide (v ∈ l)); by destruct H.
Qed.

Lemma record_liveness_run votes e h s : (∀ v, counted (h - 1) s v) → 0 ≤ h < 2 ^ 64 - 1 → 0 ≤ window →
  ∃ s', record_liveness_data params votes e h s = (s', Ok ()) ∧ (∀ v, counted h s' v) ∧ vsets s' = vsets s ∧
    ∀ v, missed_votes s' v =
      if decide (v ∈ read_consensus_validator_set_addresses e (vsets s))
      then after_vote h (list_to_set (validator_address <$> votes)) v (missed_votes s v) else missed_votes s v.
Proof using Type.
  intros Hc Hh Hw. set (X := read_consensus_validator_set_addresses e (vsets s)). set (voters := list_to_set (validator_address <$> votes)).
  destruct (record_all_run h voters (elements X) s (NoDup_elements X) Hc Hh Hw) as (s' & R & C & V & H).
  exists s'. split; [exact R|]. split; [done|]. split; [done|]. intros v. rewrite H.
  destruct (decide (v ∈ elements X)) as [Hv|Hv], (decide (v ∈ X)) as [Hv'|Hv']; try done; by rewrite elem_of_elements in Hv.
Qed.

(** ** The rest of the block leaves the counters alone *)

Lemma keeps_log_rewards votes h cur new : keeps liveness_data (log_block_rewards params votes h cur new).
Proof using Type.
  unfold log_block_rewards, log_block_rewards_aux, accumulate.
  assert (Hs : ∀ e signers n, keeps liveness_data (signing_votes params e votes signers n)).
  { intros e. induction votes as [|x votes IH]; intros signers n; [apply keeps_ret|]. cbn [signing_votes].
    destruct (_ =? 0); [apply IH|]. apply keeps_bind; [by apply keeps_on_vsets|]. intros st. destruct (bool_decide _); [apply keeps_throw|].
    apply keeps_bind; [by apply keeps_on_vsets|]. intros x'. apply keeps_bind; [apply keeps_lift|]. intros; apply IH. }
  apply keeps_bind; [apply keeps_get|]. intros s. destruct (last_block_proposer _); [|apply keeps_ret].
  apply keeps_bind; [apply keeps_lift|]. intros e. apply keeps_bind; [apply keeps_get|]. intros s1. apply keeps_bind; [by apply keeps_on_vsets|].
  intros tot. apply keeps_bind; [apply Hs|]. intros [signers total]. do 4 (apply keeps_bind; [apply keeps_lift|intros]). apply keeps_for_each. intros y.
  apply keeps_bind; [apply keeps_gets|]. intros acc. apply keeps_bind; [apply keeps_lift|]. intros new0. by apply keeps_on_rewards.
Qed.

Lemma keeps_or_panic {X B} (f : PosStore → X) (m : stt PosStore (PosError A) B) : keeps f m → keeps f (or_panic m).
Proof using Type. intros Hm s. specialize (Hm s). unfold or_panic. by destruct (m s). Qed.

(** What comes before the liveness check. *)
Definition block_start (height : BlockHeight) (current_epoch : Epoch) (pred_epochs : Epochs) (is_new_epoch : bool)
    (validator_set_update_epoch : Epoch) (votes : list (VoteInfo (AA:=AA))) (byzantine_validators : list Misbehavior) :
    stt PosStore (PosError A) (list (A * Z)) :=
  _ ← (if is_new_epoch then
         target ← lift (epoch_add current_epoch (pipeline_len (owned params)));
         _ ← on_vsets (copy_validator_sets_and_positions params current_epoch target);
         on_vsets (compute_and_store_total_consensus_stake params current_epoch)
       else mret ());
  _ ← (if bool_decide (votes = []) then mret () else log_block_rewards params votes height current_epoch is_new_epoch);
  _ ← record_slashes_from_evidence params byzantine_validators pred_epochs current_epoch validator_set_update_epoch;
  if is_new_epoch then or_panic (process_slashes params current_epoch) else mret [].

Lemma keeps_block_start height cur pred new vsu votes byz : keeps liveness_data (block_start height cur pred new vsu votes byz).
Proof using Type.
  unfold block_start. apply keeps_bind.
  { destruct new; [|apply keeps_ret]. apply keeps_bind; [apply keeps_lift|]. intros t. apply keeps_bind; [by apply keeps_on_vsets|]. intros _. by apply keeps_on_vsets. }
  intros _. apply keeps_bind; [destruct (bool_decide _); [apply keeps_ret|apply keeps_log_rewards]|]. intros _.
  apply keeps_bind; [by apply keeps_evidence|]. intros _. destruct new; [|apply keeps_ret]. apply keeps_or_panic. by apply keeps_process_slashes.
Qed.
End liveness.

(** ** Jailing *)

Section jailing.
Context {AA : AddressApi} {I : InternalAddrs AA} {OA : CmpOrder Address} {KK : PosKeys AA}.
Abbreviation A := Address.
Context (params : PosParams) (past cur : Z).
Abbreviation len := (pipeline_len (owned params)).
Abbreviation VS := (VSets (A:=A)).
Hypothesis (Hpast : offset_value OffsetMaxProposalPeriodPlus params = Some past) (Hpast0 : 0 ≤ past) (Hcur : 0 ≤ cur) (Hmax : cur + len < 2 ^ 64).

(** The state of a validator at an epoch, as the code reads it. *)
Definition state_in (s : VS) (v : A) (e : Epoch) : res (PosError A) (option ValidatorState) := (state_get params v e s).2.

Lemma state_in_handle s v e : state_in s v e = h_get params OffsetPipelineLen OffsetMaxProposalPeriodPlus e (validator_state_handle s v).
Proof using Type. reflexivity. Qed.

Lemma h_get_val (h : EpochedSt ValidatorState) lu e r : wf_epoched len past lu h → EpochedM.get len past e h = Some r →
  h_get params (A:=A) OffsetPipelineLen OffsetMaxProposalPeriodPlus e h = Ok r.
Proof using Hpast.
  intros Hw Hg. unfold h_get. destruct Hw; cbn [last_update epoched_open].
  - cbn in Hg. by injection Hg as <-.
  - change (offset_value OffsetPipelineLen params) with (Some len). rewrite Hpast. cbn [expect mbind res_bind]. by rewrite Hg.
Qed.

Lemma state_set_reads v x off s s' : states_ok params past cur s → 0 ≤ off ≤ len → state_set params v x cur off s = (s', Ok ()) →
  states_ok params past cur s' ∧ (∀ u e, u ≠ v → state_in s' u e = state_in s u e) ∧
  (∀ e, Z.max 0 (cur - past) ≤ e < cur + off → state_in s' v e = state_in s v e) ∧ state_in s' v (cur + off) = Ok (Some x).
Proof using Hpast Hpast0 Hcur Hmax.
  intros Hok Hoff Hr. unfold state_set in Hr. stt_inv Hr. destruct (handle_ok params past cur Hcur s v Hok) as (lu & Hlu & Hw).
  assert (Hset : EpochedM.set past x cur off (validator_state_handle s v) = Some v0).
  { unfold h_set, past_of in Hrun. revert Hrun. destruct Hw; cbn -[EpochedM.set offset_value]; intros Hrun.
    - apply expect_ok in Hrun. by unfold EpochedM.set, EpochedM.update_data in *.
    - rewrite Hpast in Hrun. by apply expect_ok in Hrun. }
  assert (Hspec : ∀ e, Z.max 0 (cur - past) ≤ e → ∃ r r', wf_epoched len past cur v0 ∧ EpochedM.get len past e (validator_state_handle s v) = Some r ∧
    EpochedM.get len past e v0 = Some r' ∧ (e < cur + off → r' = r) ∧ (e = cur + off → r' = Some x)).
  { intros e He. destruct (set_get_spec len past lu _ x cur off e Hpast0 Hw Hlu Hoff Hmax He) as (h' & r & r' & E & Hw' & G & G' & Hlt & Hge).
    rewrite Hset in E. injection E as <-. exists r, r'. split_and!; try done. intros ->. destruct Hge as [|(_ & j & Hj & _)]; [lia|done|lia]. }
  set (s' := upd_state (<[v := v0]>) s). assert (Hsame : validator_state_handle s' v = v0).
  { unfold validator_state_handle, s'. cbn. by rewrite lookup_insert_eq. }
  destruct (Hspec (cur + off) ltac:(lia)) as (r0 & r0' & Hw' & _ & G0 & _ & H0). split_and!.
  - intros u h. unfold s'. cbn. rewrite lookup_insert_Some. intros [[<- <-]|[_ Hu]]; [by exists cur|by apply (Hok u)].
  - intros u e Hu. rewrite !state_in_handle. unfold validator_state_handle, s'. cbn [validator_state upd_state]. by rewrite lookup_insert_ne.
  - intros e He. destruct (Hspec e ltac:(lia)) as (r & r' & _ & G & G' & Hlt & _). rewrite (Hlt ltac:(lia)) in G'.
    by rewrite !state_in_handle, Hsame, (h_get_val _ _ _ _ Hw' G'), (h_get_val _ _ _ _ Hw G).
  - rewrite state_in_handle, Hsame, (h_get_val _ _ _ _ Hw' G0). by rewrite H0.
Qed.

(** The states before the pipeline are left alone. *)
Definition keeps_before (e1 : Epoch) (s s' : VS) : Prop :=
  states_ok params past cur s' ∧ ∀ u e, Z.max 0 (cur - past) ≤ e < e1 → state_in s' u e = state_in s u e.
Lemma keeps_before_states e1 s s' : states_ok params past cur s → validator_state s' = validator_state s → keeps_before e1 s s'.
Proof using Type.
  intros Hok E. split; [unfold states_ok; by rewrite E|]. intros u e _. rewrite !state_in_handle. unfold validator_state_handle. by rewrite E.
Qed.
Lemma keeps_before_trans e1 s1 s2 s3 : keeps_before e1 s1 s2 → keeps_before e1 s2 s3 → keeps_before e1 s1 s3.
Proof using Type. intros [_ H1] [Hok H2]. split; [done|]. intros u e He. rewrite H2 by done. by apply H1. Qed.

Lemma keeps_states_remove w e v : keeps (validator_state (A:=A)) (remove_validator params w e v).
Proof using Type. unfold remove_validator, read_validator_stake, set_remove, remove_position. destruct w; keeps_tac. Qed.
Lemma keeps_states_take w stake e q : keeps (validator_state (A:=A)) (set_remove w stake e q).
Proof using Type. unfold set_remove. destruct w; keeps_tac. Qed.
Lemma keeps_states_insert w stake e v : keeps (validator_state (A:=A)) (insert_validator_into_set w stake e v).
Proof using Type. unfold insert_validator_into_set. destruct w; keeps_tac. Qed.

Lemma state_set_before v x off s s' : states_ok params past cur s → 0 ≤ off ≤ len → state_set params v x cur off s = (s', Ok ()) →
  keeps_before (cur + off) s s'.
Proof using Hpast Hpast0 Hcur Hmax.
  intros Hok Hoff Hr. destruct (state_set_reads v x off s s' Hok Hoff Hr) as (Hok' & Hne & Hlt & _). split; [done|]. intros u e He.
  destruct (decide (u = v)) as [->|Hu]; [by apply Hlt|by apply Hne].
Qed.

Lemma promote_reads s s' : states_ok params past cur s → 0 ≤ len →
  promote_next_below_capacity_validator_to_consensus params cur len s = (s', Ok ()) → keeps_before (cur + len) s s'.
Proof using Hpast Hpast0 Hcur Hmax.
  intros Hok Hl Hr. unfold promote_next_below_capacity_validator_to_consensus in Hr. stt_inv Hr.
  destruct (get_max_below_capacity_validator_amount _) as [m|]; [|stt_inv Hr; by apply keeps_before_states].
  unfold promote in Hr. stt_inv Hr. 
  repeat match goal with
  | H : set_remove _ _ _ _ _ = _ |- _ => apply (keeps_run validator_state) in H; [|apply keeps_states_take]
  | H : insert_validator_into_set _ _ _ _ ?t = (?t', _) |- _ =>
      apply (keeps_run validator_state) in H; [|apply keeps_states_insert]; rename t' into st'
  end.
  assert (keeps_before (cur + len) s st') as Hb by (apply keeps_before_states; [done|congruence]).
  apply (keeps_before_trans _ _ st'); [done|]. destruct Hb as [Hok1 _]. exact (state_set_before _ _ _ _ _ Hok1 (conj Hl (Z.le_refl _)) Hr).
Qed.

Lemma jail_remove_reads v off s s' : states_ok params past cur s → 0 ≤ off ≤ len → jail_remove params v cur off s = (s', Ok ()) →
  keeps_before (cur + len) s s'.
Proof using Hpast Hpast0 Hcur Hmax.
  intros Hok Hoff Hr. unfold jail_remove in Hr. apply stt_bind_ok in Hr as (? & e & [-> _]%stt_lift_ok & Hr).
  apply stt_bind_ok in Hr as (s1 & st & E1 & Hr). unfold state_get in E1. stt_inv E1.
  apply stt_bind_ok in Hr as (? & pst & [-> _]%stt_lift_ok & Hr).
  destruct pst; try (stt_inv Hr; by apply keeps_before_states).
  - apply stt_bind_ok in Hr as (s2 & ? & E2 & Hr). apply (keeps_run validator_state) in E2; [|apply keeps_states_remove].
    assert (Hb : keeps_before (cur + len) s s2) by (by apply keeps_before_states).
    destruct (Z.eqb_spec off len) as [->|]; [|stt_inv Hr; done].
    apply (keeps_before_trans _ _ s2); [done|]. destruct Hb as [Hok2 _]. apply promote_reads; [done|lia|done].
  - apply (keeps_run validator_state) in Hr; [|apply keeps_states_remove]. by apply keeps_before_states.
Qed.

Lemma for_each_before {X} (f : X → stt VS (PosError A) unit) e1 l s s' :
  (∀ x s s', x ∈ l → states_ok params past cur s → f x s = (s', Ok ()) → keeps_before e1 s s') →
  states_ok params past cur s → for_each f l s = (s', Ok ()) → keeps_before e1 s s'.
Proof using Type.
  revert s. induction l as [|x l IH]; intros s Hf Hok Hr; [cbn in Hr; stt_inv Hr; by apply keeps_before_states|].
  cbn [for_each] in Hr. apply stt_bind_ok in Hr as (s1 & [] & E1 & Hr). assert (H1 := Hf x s s1 ltac:(left) Hok E1).
  apply (keeps_before_trans _ _ s1); [done|]. destruct H1 as [Hok1 _]. apply IH; [|done..]. intros y t t' Hy. apply Hf. by right.
Qed.

(** Jailed from the first offset on, which the sets of the earlier ones do not see. *)
Lemma set_jailed_reads v start n s s' : 0 ≤ start → 0 ≤ n → start + n ≤ len + 1 → states_ok params past cur s →
  for_each (λ off, state_set params v Jailed cur off) (seqZ start n) s = (s', Ok ()) →
  keeps_before (cur + start) s s' ∧ (∀ u e, u ≠ v → state_in s' u e = state_in s u e) ∧
  ∀ e, cur + start ≤ e < cur + start + n → state_in s' v e = Ok (Some Jailed).
Proof using Hpast Hpast0 Hcur Hmax.
  intros Hs Hn. revert start s Hs. pattern n. revert n Hn. apply natlike_ind; [|intros n Hn IH]; intros start s Hs Hle Hok Hr.
  - rewrite seqZ_nil in Hr by lia. cbn in Hr. stt_inv Hr. split; [by apply keeps_before_states|]. split; [done|lia].
  - rewrite seqZ_cons in Hr by lia. cbn [for_each] in Hr. apply stt_bind_ok in Hr as (s1 & [] & E1 & Hr). rewrite Z.pred_succ in Hr.
    destruct (state_set_reads v Jailed start s s1 Hok ltac:(lia) E1) as (Hok1 & Hne & Hlt & Heq).
    destruct (IH (Z.succ start) s1 ltac:(lia) ltac:(lia) Hok1 Hr) as ([Hok' Hb] & Hu & Hj). split; [split; [done|]|split].
    + intros u e He. rewrite Hb by lia. destruct (decide (u = v)) as [->|]; [by apply Hlt|by apply Hne].
    + intros u e Hne'. by rewrite Hu, Hne.
    + intros e He. destruct (decide (e = cur + start)) as [->|]; [rewrite Hb by lia; exact Heq|apply Hj; lia].
Qed.

Lemma jail_validator_reads v vsu s s' : cur ≤ vsu ≤ cur + len → states_ok params past cur s →
  jail_validator params v cur vsu s = (s', Ok ()) →
  keeps_before vsu s s' ∧ (∀ e, vsu ≤ e ≤ cur + len → state_in s' v e = Ok (Some Jailed)) ∧
  ∀ u e, u ≠ v → Z.max 0 (cur - past) ≤ e < cur + len → state_in s' u e = state_in s u e.
Proof using Hpast Hpast0 Hcur Hmax.
  intros Hv Hok Hr. unfold jail_validator in Hr. apply stt_bind_ok in Hr as (? & start & [-> Hst]%stt_lift_ok & Hr).
  assert (start = vsu - cur) as ->.
  { apply expect_ok in Hst. unfold EpochM.checked_sub in Hst. rewrite chk_in in Hst by lia. by injection Hst. }
  apply stt_bind_ok in Hr as (s1 & [] & E1 & Hr).
  assert (H1 : keeps_before (cur + len) s s1).
  { refine (for_each_before _ _ _ _ _ _ Hok E1). intros off t t' Ho. apply elem_of_seqZ in Ho. intros Hok1 Hr1.
    by apply (jail_remove_reads v off); [|lia|]. }
  destruct H1 as [Hok1 H1].
  destruct (set_jailed_reads v (vsu - cur) (len - (vsu - cur) + 1) s1 s' ltac:(lia) ltac:(lia) ltac:(lia) Hok1 Hr) as ([Hok' Hb] & Hu & Hj).
  replace (cur + (vsu - cur)) with vsu in * by lia. split; [split; [done|]|split].
  - intros u e He. rewrite Hb by lia. apply H1. lia.
  - intros e He. apply Hj. lia.
  - intros u e Hne He. rewrite Hu by done. by apply H1.
Qed.

(** The validators of a list: those are jailed, the others stay. *)
Lemma jail_all_reads je l s s' : cur ≤ je ≤ cur + len → states_ok params past cur s →
  for_each (jail_step params cur je) l s = (s', Ok ()) →
  keeps_before je s s' ∧ (je < cur + len → ∀ v, v ∈ l → state_in s' v je = Ok (Some Jailed)) ∧
  ∀ u e, u ∉ l → Z.max 0 (cur - past) ≤ e < cur + len → state_in s' u e = state_in s u e.
Proof using Hpast Hpast0 Hcur Hmax.
  intros Hje. revert s. induction l as [|x l IH]; intros s Hok Hr.
  { cbn in Hr. stt_inv Hr. split; [by apply keeps_before_states|]. split; [by intros _ v ?%elem_of_nil|done]. }
  cbn [for_each] in Hr. apply stt_bind_ok in Hr as (s1 & [] & E1 & Hr).
  assert (H1 : keeps_before je s s1 ∧ state_in s1 x je = Ok (Some Jailed) ∧
    ∀ u e, u ≠ x → Z.max 0 (cur - past) ≤ e < cur + len → state_in s1 u e = state_in s u e).
  { unfold jail_step in E1. apply stt_bind_ok in E1 as (s0 & st & E0 & E1). assert (Hst := E0). unfold state_get in E0. stt_inv E0.
    apply stt_bind_ok in E1 as (? & pst & [-> Hp]%stt_lift_ok & E1). apply expect_ok in Hp as ->.
    case_bool_decide as Hj; [subst pst; stt_inv E1|].
    - split; [by apply keeps_before_states|]. split; [|done]. unfold state_in. by rewrite Hst.
    - destruct (jail_validator_reads x je s s1 ltac:(lia) Hok E1) as (Hb & Hx & Hu). split; [done|]. split; [apply Hx; lia|done]. }
  destruct H1 as (H1 & Hx & Hu). destruct (IH s1 (proj1 H1) Hr) as (H2 & Hl & Hu2). split; [by apply (keeps_before_trans _ _ s1)|]. split.
  - intros Hlt v Hv. destruct (decide (v ∈ l)) as [|Hnl]; [by apply Hl|]. apply elem_of_cons in Hv as [->|]; [|done].
    rewrite Hu2 by (done || lia). exact Hx.
  - intros u e [Hux Hul]%not_elem_of_cons He. by rewrite Hu2, Hu.
Qed.

(** At the pipeline a validator that leaves the consensus set is replaced by one below capacity.  The
    set of those has validators that are in that state, under their stakes and positions. *)
Definition below_ok (s : VS) : Prop := ∀ k u, below_at s (cur + len) !! k = Some u →
  state_in s u (cur + len) = Ok (Some BelowCapacity) ∧ positions_at s (cur + len) !! u = Some k.2 ∧
  (read_validator_stake params u (cur + len) s).2 = Ok k.1.

Lemma below_ok_part s s' : validator_deltas s' = validator_deltas s → below_ok s →
  (∀ k u, below_at s' (cur + len) !! k = Some u → below_at s (cur + len) !! k = Some u ∧
     positions_at s' (cur + len) !! u = positions_at s (cur + len) !! u ∧ state_in s' u (cur + len) = state_in s u (cur + len)) →
  below_ok s'.
Proof using Type.
  intros Hd Hb Hp k u Hk. destruct (Hp k u Hk) as (Hk0 & -> & ->). destruct (Hb k u Hk0) as (H1 & H2 & H3). split_and!; try done.
  rewrite <- H3. unfold read_validator_stake, validator_deltas_handle, mbind, stt_bind, get, lift. cbn. rewrite Hd. by destruct (d_sum _ _ _ _ _ _).
Qed.

Lemma below_key s k k' u : below_ok s → below_at s (cur + len) !! k = Some u → below_at s (cur + len) !! k' = Some u → k = k'.
Proof using Type.
  intros Hb H H'. destruct (Hb k u H) as (_ & H1 & H2), (Hb k' u H') as (_ & H1' & H2'). destruct k, k'. cbn in *. congruence.
Qed.

Lemma remove_validator_effect w (x : A) (s s' : VS) : remove_validator params w (cur + len) x s = (s', Ok ()) →
  validator_deltas s' = validator_deltas s ∧ validator_state s' = validator_state s ∧
  positions_at s' (cur + len) = delete x (positions_at s (cur + len)) ∧
  ∃ stake q, (read_validator_stake params x (cur + len) s).2 = Ok stake ∧ positions_at s (cur + len) !! x = Some q ∧
    below_at s' (cur + len) = (match w with CSet => below_at s (cur + len) | BSet => delete (stake, q) (below_at s (cur + len)) end).
Proof using Type.
  intros Hr. unfold remove_validator in Hr. apply stt_bind_ok in Hr as (s1 & stake & E1 & Hr).
  assert (s1 = s) as -> by (unfold read_validator_stake in E1; by stt_inv E1).
  unfold set_remove, remove_position in Hr. stt_inv Hr. apply expect_ok in Hrun0.
  destruct w; (split; [done|]; split; [done|]; split; [|exists stake, v0; rewrite E1; split; [done|]; split; [exact Hrun0|]]);
    unfold positions_at, below_at, at_, upd_positions_at, upd_set_at, upd_sets, upd_at, with_data;
    cbn [data validator_set_positions below_capacity_validator_set id]; by rewrite ?lookup_insert_eq.
Qed.

Lemma state_set_effect v x off s s' : state_set params v x cur off s = (s', Ok ()) →
  ∃ h, s' = upd_state (<[v := h]>) s ∧ ∀ u e, u ≠ v → state_in s' u e = state_in s u e.
Proof using Type.
  intros Hr. unfold state_set in Hr. stt_inv Hr. exists v0. split; [done|]. intros u e Hu. rewrite !state_in_handle.
  unfold validator_state_handle. cbn [validator_state upd_state]. by rewrite lookup_insert_ne.
Qed.

Lemma promote_effect s s' : promote_next_below_capacity_validator_to_consensus params cur len s = (s', Ok ()) →
  s' = s ∨ ∃ k u, below_at s (cur + len) !! k = Some u ∧ below_at s' (cur + len) = delete k (below_at s (cur + len)) ∧
    validator_deltas s' = validator_deltas s ∧
    ∀ v, v ≠ u → positions_at s' (cur + len) !! v = positions_at s (cur + len) !! v ∧ ∀ e, state_in s' v e = state_in s v e.
Proof using Type.
  intros Hr. unfold promote_next_below_capacity_validator_to_consensus in Hr.
  apply stt_bind_ok in Hr as (? & e & [-> He]%stt_lift_ok & Hr).
  assert (e = cur + len) as -> by (unfold epoch_add, EpochM.checked_add in He; res_inv He; by apply chk_Some in He as [-> _]).
  stt_inv Hr. destruct (get_max_below_capacity_validator_amount _) as [m|]; [|stt_inv Hr; by left].
  unfold promote, set_remove, insert_validator_into_set in Hr. stt_inv Hr. right. apply expect_ok in Hrun1. exists (m, v0), v1.
  apply state_set_effect in Hr as (h & -> & Hst). split; [exact Hrun1|].
  split; [|split; [done|intros w Hw; split; [|intros e; by rewrite Hst]]];
    unfold positions_at, below_at, at_, upd_state, upd_positions_at, upd_set_at, upd_sets, upd_at, with_data;
    cbn [data validator_set_positions below_capacity_validator_set id];
    rewrite lookup_insert_eq; [done|]. cbn [default from_option id]. by rewrite lookup_insert_ne.
Qed.

(** A validator that is jailed at the pipeline leaves the set of those below capacity; the others that are
    jailed there stay so. *)
Lemma jail_remove_below x s s' : below_ok s → jail_remove params x cur len s = (s', Ok ()) →
  below_ok s' ∧ (∀ k, below_at s' (cur + len) !! k ≠ Some x) ∧
  ∀ v, state_in s v (cur + len) = Ok (Some Jailed) → state_in s' v (cur + len) = Ok (Some Jailed).
Proof using Type.
  intros Hb Hr. unfold jail_remove in Hr. apply stt_bind_ok in Hr as (? & e & [-> He]%stt_lift_ok & Hr).
  assert (e = cur + len) as -> by (unfold epoch_add, EpochM.checked_add in He; res_inv He; by apply chk_Some in He as [-> _]).
  apply stt_bind_ok in Hr as (s1 & st & E1 & Hr). assert (Hst := E1). unfold state_get in E1. stt_inv E1.
  apply stt_bind_ok in Hr as (? & pst & [-> Hp]%stt_lift_ok & Hr). apply expect_ok in Hp as ->.
  assert (Hx : state_in s x (cur + len) = Ok (Some pst)) by (unfold state_in; by rewrite Hst).
  assert (Hout : pst ≠ BelowCapacity → ∀ k, below_at s (cur + len) !! k ≠ Some x) by (intros Hn k [Hk _]%Hb; congruence).
  destruct pst; try (stt_inv Hr; split_and!; auto; fail).
  - apply stt_bind_ok in Hr as (s2 & [] & E2 & Hr). rewrite Z.eqb_refl in Hr.
    apply remove_validator_effect in E2 as (Hd & Hs2 & Hpos & _ & _ & _ & _ & Hbel).
    assert (Hb2 : below_ok s2 ∧ ∀ v e, state_in s2 v e = state_in s v e). 
    { assert (Hst2 : ∀ v e, state_in s2 v e = state_in s v e) by (intros; rewrite !state_in_handle; unfold validator_state_handle; by rewrite Hs2).
      split; [|done]. apply (below_ok_part s); [done..|]. rewrite Hbel, Hpos. intros k u Hk. split; [done|]. rewrite lookup_delete_ne; [done|].
      intros ->. by apply (Hout ltac:(done) k). }
    destruct Hb2 as [Hb2 Hst2]. apply promote_effect in Hr as [->|(k & u & Hk & Hbel' & Hd' & Hoth)].
    { split_and!; [done|rewrite Hbel; by apply Hout|]. intros v. by rewrite Hst2. }
    assert (Hu : ∀ k' v, below_at s' (cur + len) !! k' = Some v → v ≠ u ∧ below_at s2 (cur + len) !! k' = Some v).
    { intros k' v. rewrite Hbel', lookup_delete_Some. intros [Hne Hk']. split; [|done]. intros ->. by apply Hne, (below_key s2 _ _ u). }
    split_and!.
    + apply (below_ok_part s2); [done..|]. intros k' v [Hne Hk']%Hu. destruct (Hoth v Hne). auto.
    + intros k' [_ Hk']%Hu. rewrite Hbel in Hk'. by apply (Hout ltac:(done) k').
    + intros v Hv. rewrite (proj2 (Hoth v ltac:(intros ->; destruct (Hb2 _ _ Hk) as [Hj _]; rewrite Hst2, Hv in Hj; done))). by rewrite Hst2.
  - apply remove_validator_effect in Hr as (Hd & Hs2 & Hpos & stake & q & Hstake & Hq & Hbel).
    assert (Hst2 : ∀ v e, state_in s' v e = state_in s v e) by (intros; rewrite !state_in_handle; unfold validator_state_handle; by rewrite Hs2).
    assert (Hu : ∀ k v, below_at s' (cur + len) !! k = Some v → v ≠ x ∧ below_at s (cur + len) !! k = Some v).
    { intros k v. rewrite Hbel, lookup_delete_Some. intros [Hne Hk]. split; [|done]. intros ->. destruct (Hb _ _ Hk) as (_ & H1 & H2).
      apply Hne. destruct k. cbn in *. congruence. }
    split_and!; [|by intros k [? _]%Hu|intros v; by rewrite Hst2].
    apply (below_ok_part s); [done..|]. intros k v [Hne Hk]%Hu. rewrite Hpos, lookup_delete_ne by done. auto.
Qed.

Lemma jail_step_pipeline x s s' : states_ok params past cur s → 0 ≤ len → below_ok s → jail_step params cur (cur + len) x s = (s', Ok ()) →
  states_ok params past cur s' ∧ below_ok s' ∧ state_in s' x (cur + len) = Ok (Some Jailed) ∧
  ∀ v, state_in s v (cur + len) = Ok (Some Jailed) → state_in s' v (cur + len) = Ok (Some Jailed).
Proof using Hpast Hpast0 Hcur Hmax.
  intros Hok Hl Hb Hr. unfold jail_step in Hr. apply stt_bind_ok in Hr as (s0 & st & E0 & Hr). assert (Hst := E0). unfold state_get in E0. stt_inv E0.
  apply stt_bind_ok in Hr as (? & pst & [-> Hp]%stt_lift_ok & Hr). apply expect_ok in Hp as ->.
  case_bool_decide as Hj; [subst pst; stt_inv Hr; split_and!; try done; unfold state_in; by rewrite Hst|].
  destruct (jail_validator_reads x (cur + len) s s' ltac:(lia) Hok Hr) as ([Hok' _] & Hx & _). specialize (Hx (cur + len) ltac:(lia)).
  unfold jail_validator in Hr. apply stt_bind_ok in Hr as (? & start & [-> Hs]%stt_lift_ok & Hr).
  apply expect_ok in Hs. unfold EpochM.checked_sub in Hs. rewrite chk_in in Hs by lia. injection Hs as <-.
  replace (cur + len - cur) with len in Hr by lia. rewrite (seqZ_cons len), (seqZ_nil (Z.succ len)) in Hr by lia. cbn [for_each] in Hr.
  apply stt_bind_ok in Hr as (s1 & [] & E1 & Hr). apply stt_bind_ok in E1 as (s2 & [] & E1 & E2). stt_inv E2.
  apply stt_bind_ok in Hr as (s3 & [] & E3 & Hr). stt_inv Hr.
  destruct (jail_remove_below x s s2 Hb E1) as (Hb1 & Hout & Hkeep). apply state_set_effect in E3 as (h & -> & Hst').
  split_and!; [done| |done|].
  - apply (below_ok_part s2); [done..|]. intros k u Hk. split; [exact Hk|]. split; [done|]. apply Hst'. intros ->. by apply (Hout k).
  - intros v Hv. destruct (decide (v = x)) as [->|Hne]; [done|]. rewrite Hst' by done. by apply Hkeep.
Qed.

Lemma jail_all_pipeline l s s' : states_ok params past cur s → 0 ≤ len → below_ok s →
  for_each (jail_step params cur (cur + len)) l s = (s', Ok ()) →
  ∀ v, v ∈ l ∨ state_in s v (cur + len) = Ok (Some Jailed) → state_in s' v (cur + len) = Ok (Some Jailed).
Proof using Hpast Hpast0 Hcur Hmax.
  intros Hok Hl. revert s Hok. induction l as [|x l IH]; intros s Hok Hb Hr v Hv.
  { cbn in Hr. stt_inv Hr. destruct Hv as [?%elem_of_nil|]; done. }
  cbn [for_each] in Hr. apply stt_bind_ok in Hr as (s1 & [] & E1 & Hr). destruct (jail_step_pipeline x s s1 Hok Hl Hb E1) as (Hok1 & Hb1 & Hx & Hj).
  apply (IH s1 Hok1 Hb1 Hr). rewrite elem_of_cons in Hv. destruct Hv as [[->|]|]; auto.
Qed.
End jailing.

(** ** The properties *)

Section properties.
Context {AA : AddressApi} {I : InternalAddrs AA} {OA : CmpOrder Address} {KK : PosKeys AA}.
Abbreviation A := Address.
Context (params : PosParams).

(** The limit is the share of the window that may be missed. *)
Lemma threshold_value n : missing_votes_threshold params = Ok n →
  n = (E12 - liveness_threshold (owned params)) * liveness_window_check (owned params) / E12.
Proof using Type.
  unfold missing_votes_threshold, arith, ZDec.sub, ZDec.from_u64, ZDec.mul, ZDec.to_uint. intros H. res_inv H.
  assert (Hchk : ∀ z r, chk_i z = Some r → r = z) by (intros z r; unfold chk_i; destruct (_ <=? _); [by intros [= <-]|done]).
  apply Hchk in Hres as ->. apply Hchk in Hres0 as ->. apply fmap_Some in Hres1 as (q & Hq & ->). apply Hchk in Hq as ->.
  rewrite Z.mul_assoc, Z.quot_mul in Hres2 by done. destruct (_ <? _); [done|]. injection Hres2 as <-.
  unfold chk in H. destruct (in_u _ _); [by injection H|done].
Qed.

(** C25. [jail_for_liveness], for a jailing epoch up to the pipeline: when it runs, every validator whose counter of
    missed votes has reached the limit (the share of the window that the threshold
    leaves, rounded down) is jailed at the jailing epoch; the states of the
    others are what they were before the pipeline, and no state changes before the
    jailing epoch.  At the pipeline itself a validator below capacity takes the place of each one that leaves the
    consensus set, so that those jailed there stay jailed needs that the set of validators below capacity has
    only validators in that state, under their stakes and positions.  The limit is reached already by a validator that has signed
    exactly the share of the window that the parameter's documentation calls the minimum required
    activity: it is jailed as well. *)
Theorem jail_for_liveness_jails past cur je s s' :
  offset_value OffsetMaxProposalPeriodPlus params = Some past → 0 ≤ past → 0 ≤ cur →
  cur ≤ je ≤ cur + pipeline_len (owned params) → cur + pipeline_len (owned params) < 2 ^ 64 → states_ok params past cur (vsets s) →
  (je = cur + pipeline_len (owned params) → below_ok params cur (vsets s)) →
  jail_for_liveness params cur je s = (s', Ok ()) →
  let limit := (E12 - liveness_threshold (owned params)) * liveness_window_check (owned params) / E12 in
  (∀ v n, miss_count s v = Some n → limit ≤ n → state_in params (vsets s') v je = Ok (Some Jailed)) ∧
  (∀ v e, (∀ n, miss_count s v = Some n → n < limit) → Z.max 0 (cur - past) ≤ e < cur + pipeline_len (owned params) →
     state_in params (vsets s') v e = state_in params (vsets s) v e) ∧
  (∀ v e, Z.max 0 (cur - past) ≤ e < je → state_in params (vsets s') v e = state_in params (vsets s) v e) ∧
  states_ok params past cur (vsets s') ∧ liveness_data s' = liveness_data s.
Proof using Type.
  intros Hpast Hp0 Hc Hje Hm Hok Hbel Hr limit. unfold jail_for_liveness in Hr. stt_inv Hr. apply threshold_value in Hrun. fold limit in Hrun. subst v.
  set (l := (filter _ _).*1) in Hr. unfold on_vsets in Hr. apply stt_zoom_ok in Hr as (x & Hr & ->).
  assert (Hl : ∀ v, v ∈ l ↔ ∃ n, miss_count s v = Some n ∧ limit ≤ n).
  { intros v. unfold l. rewrite list_elem_of_fmap. split.
    - intros ([v' n] & -> & [Hn Hin]%list_elem_of_filter). exists n. by rewrite elem_of_kvs in Hin.
    - intros (n & Hn & Hle). exists (v, n). split; [done|]. apply list_elem_of_filter. by rewrite elem_of_kvs. }
  destruct (jail_all_reads params past cur Hpast Hp0 Hc Hm je l _ _ Hje Hok Hr) as ([Hok' Hb] & Hj & Hu).
  split_and!; try done.
  - intros v n Hn Hle. assert (Hv : v ∈ l) by (apply Hl; eauto). destruct (decide (je = cur + pipeline_len (owned params))) as [->|]; [|apply Hj; [lia|done]].
    refine (jail_all_pipeline params past cur Hpast Hp0 Hc Hm l _ _ Hok ltac:(lia) (Hbel eq_refl) Hr v _). by left.
  - intros v e Hlt He. apply Hu; [|done]. intros (n & Hn & Hle)%Hl. specialize (Hlt n Hn). lia.
Qed.

(** Pruning forgets the validators that left the consensus set. *)
Lemma prune_run cur s : (∀ v, miss_count s v = None → missed_votes s v = ∅) →
  ∃ s', prune_liveness_data cur s = (s', Ok ()) ∧ vsets s' = vsets s ∧
    ∀ v, if decide (v ∈ read_consensus_validator_set_addresses cur (vsets s))
         then missed_votes s' v = missed_votes s v ∧ miss_count s' v = miss_count s v
         else missed_votes s' v = ∅ ∧ miss_count s' v = None.
Proof using Type.
  intros Hnone. set (X := read_consensus_validator_set_addresses cur (vsets s)). set (l := filter (λ v, v ∉ X) (kvs (liveness_sum_missed_votes (validators s))).*1).
  assert (Hgen : ∀ l s, ∃ s', for_each prune_validator l s = (s', Ok ()) ∧ vsets s' = vsets s ∧
    ∀ v, if decide (v ∈ l) then missed_votes s' v = ∅ ∧ miss_count s' v = None
         else missed_votes s' v = missed_votes s v ∧ miss_count s' v = miss_count s v).
  { clear. induction l as [|x l IH]; intros s; [exists s; split; [done|]; split; [done|]; intros v; by rewrite decide_False by apply not_elem_of_nil|].
    set (s1 := put_validators (upd_liveness_sum_missed_votes (delete x) (upd_liveness_missed_votes (delete x) (validators s))) s).
    destruct (IH s1) as (s2 & R2 & V2 & H2). exists s2. split; [exact R2|]. split; [done|]. intros v. specialize (H2 v).
    assert (Hs1 : if decide (v = x) then missed_votes s1 v = ∅ ∧ miss_count s1 v = None
                  else missed_votes s1 v = missed_votes s v ∧ miss_count s1 v = miss_count s v).
    { destruct (decide (v = x)) as [->|Hne]; unfold missed_votes, miss_count, at_, s1; cbn [validators put_validators
        liveness_missed_votes liveness_sum_missed_votes upd_liveness_missed_votes upd_liveness_sum_missed_votes].
      - by rewrite !lookup_delete_eq.
      - by rewrite !lookup_delete_ne. }
    destruct (decide (v ∈ l)) as [Hv|Hv]; [by rewrite decide_True by (by right)|]. destruct H2 as [-> ->].
    destruct (decide (v = x)) as [->|Hne]; [by rewrite decide_True by left|by rewrite decide_False by (by intros [|]%elem_of_cons)]. }
  destruct (Hgen l s) as (s' & R & V & H). exists s'. split; [exact R|]. split; [done|]. intros v. specialize (H v).
  assert (Hl : v ∈ l ↔ v ∉ X ∧ is_Some (miss_count s v)).
  { unfold l. rewrite list_elem_of_filter, list_elem_of_fmap. split; (intros [Hn Hin]; split; [done|]).
    - destruct Hin as ([v' n] & -> & Hin%elem_of_kvs). by exists n.
    - destruct Hin as [n Hn']. exists (v, n). split; [done|]. by apply elem_of_kvs. }
  destruct (decide (v ∈ X)) as [Hx|Hx]; [rewrite decide_False in H by (by rewrite Hl; intros [? _]); done|].
  destruct (decide (v ∈ l)) as [|Hnl]; [done|]. destruct H as [-> ->]. destruct (miss_count s v) eqn:E; [|by rewrite Hnone].
  destruct Hnl. apply Hl. by split.
Qed.

Lemma counted_data h s s' : liveness_data s' = liveness_data s → (∀ v, counted h s v) → ∀ v, counted h s' v.
Proof using Type. intros [= E1 E2] Hc v. unfold counted, missed_votes, miss_count. rewrite E1, E2. apply Hc. Qed.

(** What follows the start of the block. *)
Definition block_end (height : BlockHeight) (cur : Epoch) (pred : Epochs) (new : bool) (vsu : Epoch) (votes : list (VoteInfo (AA:=AA))) :
    stt PosStore (PosError A) unit :=
  _ ← (if bool_decide (votes = []) then mret ()
       else match BlockHeightM.prev_height height with
            | Some vote_height =>
                e ← lift (expect (EpochsM.get_epoch pred vote_height));
                epoch_of_votes ← lift (expect e);
                record_liveness_data params votes epoch_of_votes vote_height
            | None => mret ()
            end);
  _ ← jail_for_liveness params cur vsu;
  if new then prune_liveness_data cur else mret ().
Lemma finalize_block_ok height cur pred new vsu votes byz s s' events :
  finalize_block params height cur pred new vsu votes byz s = (s', Ok events) →
  ∃ s1, block_start params height cur pred new vsu votes byz s = (s1, Ok events) ∧ block_end height cur pred new vsu votes s1 = (s', Ok ()).
Proof using Type.
  intros Hr. unfold finalize_block in Hr. apply stt_bind_ok in Hr as (t1 & x1 & E1 & Hr). apply stt_bind_ok in Hr as (t2 & x2 & E2 & Hr).
  apply stt_bind_ok in Hr as (t3 & x3 & E3 & Hr). apply stt_bind_ok in Hr as (t4 & ev & E4 & Hr).
  apply stt_bind_ok in Hr as (t5 & x5 & E5 & Hr). apply stt_bind_ok in Hr as (t6 & x6 & E6 & Hr). apply stt_bind_ok in Hr as (t7 & [] & E7 & Hr).
  stt_inv Hr. exists t4. split.
  - unfold block_start. rewrite (stt_bind_run _ _ _ _ _ E1), (stt_bind_run _ _ _ _ _ E2), (stt_bind_run _ _ _ _ _ E3). congruence.
  - unfold block_end. rewrite (stt_bind_run _ _ _ _ _ E5), (stt_bind_run _ _ _ _ _ E6). exact E7.
Qed.

(** C7. [finalize_block] of a block with votes keeps the counters of missed votes
    exact.  If every validator's counter is the number of heights it has missed up to
    the block before, it is so again for the votes of this block: each member of the consensus
    set of the votes' epoch forgets the height that leaves the window and, when it
    did not vote, adds the height of the votes; the others keep their
    heights; at a new epoch the validators out of the new consensus set have none. *)
Theorem liveness_counts_misses height cur pred new vsu votes byz s s' events :
  0 < height < 2 ^ 64 → votes ≠ [] → 0 ≤ liveness_window_check (owned params) → (∀ v, counted (height - 2) s v) →
  finalize_block params height cur pred new vsu votes byz s = (s', Ok events) →
  (∀ v, counted (height - 1) s' v) ∧
  ∃ s1 e, block_start params height cur pred new vsu votes byz s = (s1, Ok events) ∧
    EpochsM.get_epoch pred (height - 1) = Some (Some e) ∧
    ∀ v, missed_votes s' v =
      if decide (new ∧ v ∉ read_consensus_validator_set_addresses cur (vsets s')) then ∅
      else if decide (v ∈ read_consensus_validator_set_addresses e (vsets s1))
      then after_vote params (height - 1) (list_to_set (validator_address <$> votes)) v (missed_votes s v)
      else missed_votes s v.
Proof using Type.
  intros Hh Hv Hw Hc Hr.
  destruct (finalize_block_ok _ _ _ _ _ _ _ _ _ _ Hr) as (s1 & H1 & H2).
  unfold block_end in H2. apply stt_bind_ok in H2 as (s2 & x2 & E2 & H2). apply stt_bind_ok in H2 as (s3 & x3 & E3 & E4).
  assert (D1 := keeps_run liveness_data _ _ _ _ (keeps_block_start params height cur pred new vsu votes byz) H1).
  rewrite bool_decide_false in E2 by done. unfold BlockHeightM.prev_height in E2. rewrite chk_in in E2 by lia.
  apply stt_bind_ok in E2 as (? & eo & [-> Ee]%stt_lift_ok & E2). apply stt_bind_ok in E2 as (? & e & [-> Eo]%stt_lift_ok & E2).
  apply expect_ok in Ee. apply expect_ok in Eo as ->.
  destruct (record_liveness_run params votes e (height - 1) s1) as (s2' & R2 & C2 & V2 & M2);
    [replace (height - 1 - 1) with (height - 2) by lia; by apply (counted_data _ s)|lia|done|].
  rewrite R2 in E2. injection E2 as <- _.
  assert (D3 : liveness_data s3 = liveness_data s2').
  { refine (keeps_run liveness_data _ _ _ _ _ E3). unfold jail_for_liveness. keeps_tac. }
  assert (C3 := counted_data _ _ _ D3 C2).
  assert (M3 : ∀ v, missed_votes s3 v = missed_votes s2' v) by (intros v; unfold missed_votes; by injection D3 as -> _).
  assert (M1 : ∀ v, missed_votes s1 v = missed_votes s v) by (intros v; unfold missed_votes; by injection D1 as -> _).
  destruct new.
  - destruct (prune_run cur s3) as (s4 & R4 & V4 & H4); [intros v Hn; destruct (C3 v) as [_ H]; by rewrite Hn in H|].
    rewrite R4 in E4. injection E4 as <-. split.
    + intros v. specialize (H4 v). destruct (decide _); destruct H4 as [Ha Hb]; unfold counted; rewrite Ha, Hb; [apply C3|]. split; [set_solver|done].
    + exists s1, e. split; [done|]. split; [done|]. intros v. specialize (H4 v). rewrite V4.
      destruct (decide (v ∈ _)) as [Hx|Hx]; destruct H4 as [-> _].
      * rewrite decide_False by (by intros [_ ?]). by rewrite M3, M2, M1.
      * by rewrite decide_True.
  - stt_inv E4. split; [done|]. exists s1, e. split; [done|]. split; [done|]. intros v. rewrite decide_False by (by intros [[] _]). by rewrite M3, M2, M1.
Qed.
End properties.

(** ** Examples *)

Definition sets_upto3 {D} (d : D) : EpochedSt D := mk_epoched (Some 0) (Some 0) {[1 := d; 2 := d; 3 := d]}.
(** Validators 11 and 13 in the consensus set of three epochs, 13 near the limit. *)
Definition idle_store (misses : gmap N (gset Z)) : PosStore (AA:=addr_ref) :=
  mk_store
    (mk_vsets (sets_upto3 {[(2000000, 0) := 11%N; (1000000, 0) := 13%N]}) epoched_open (sets_upto3 {[11%N := 0; 13%N := 0]}) epoched_open
       {[11%N := at0 Consensus; 13%N := at0 Consensus]} {[11%N := at0 2000000; 13%N := at0 1000000]}
       (at0 3000000) (at0 3000000) (at0 3000000))
    (mk_bonding ∅ ∅ ∅ ∅ ∅) (mk_redelegation ∅ ∅ ∅ ∅ ∅ ∅) (mk_slashes ∅ epoched_open ∅) (mk_rewards ∅ ∅ ∅ ∅ None None None)
    (upd_liveness_sum_missed_votes (λ _, (λ X : gset Z, Z.of_nat (size X)) <$> misses)
       (upd_liveness_missed_votes (λ _, misses) (validators (reward_store)))) ∅.
(** A window of ten votes, of which fewer than two may be missed. *)
Definition short_window : PosParams := mk_params
  (mk_owned 100 2 21 E12 125000000000 100000000000 100000000000 666700000000 1000000000 1000000000 1 1000000 10 800000000000 250000000000 250000000000) 9.
Definition idle_misses : gmap N (gset Z) := {[11%N := {[5]}; 13%N := {[4; 8]}]}.
Abbreviation idle := (idle_store idle_misses).

Lemma short_window_past : offset_value OffsetMaxProposalPeriodPlus short_window = Some 11.
Proof. reflexivity. Qed.
Lemma idle_states : states_ok (A:=N) short_window 11 1 (vsets idle).
Proof.
  assert (Hat : ∀ st : ValidatorState, ∃ lu, lu ≤ 1 ∧ wf_epoched (pipeline_len (owned short_window)) 11 lu (at0 st)).
  { intros st. exists 0. split; [lia|]. constructor; [lia..|]. intros k [x [<- _]%lookup_singleton_Some]. cbn. lia. }
  intros v h. cbn. rewrite lookup_insert_Some, lookup_singleton_Some. intros [[_ <-]|[_ [_ <-]]]; apply Hat.
Qed.
Lemma idle_counted (v : N) : counted (AA:=addr_ref) 13 idle v.
Proof.
  unfold counted, missed_votes, miss_count, at_. cbn [validators idle_store liveness_missed_votes liveness_sum_missed_votes
    upd_liveness_sum_missed_votes upd_liveness_missed_votes]. rewrite lookup_fmap. unfold idle_misses.
  destruct (decide (v = 11%N)) as [->|]; [|destruct (decide (v = 13%N)) as [->|]].
  - rewrite lookup_insert_eq. cbn. split; [set_solver by lia|done].
  - rewrite lookup_insert_ne, lookup_singleton_eq by done. cbn. split; [set_solver by lia|done].
  - rewrite lookup_insert_ne, lookup_singleton_ne by done. cbn. split; [set_solver|done].
Qed.

Lemma idle_below : 3 = 1 + pipeline_len (owned short_window) → below_ok (AA:=addr_ref) short_window 1 (vsets idle).
Proof. by intros _ k u. Qed.
Lemma jail_for_liveness_jails_witness : ∃ s', jail_for_liveness (AA:=addr_ref) short_window 1 3 idle = (s', Ok ()) ∧
  state_in (AA:=addr_ref) short_window (vsets s') 13%N 3 = Ok (Some Jailed) ∧
  state_in (AA:=addr_ref) short_window (vsets s') 11%N 2 = Ok (Some Consensus).
Proof.
  exists (jail_for_liveness (AA:=addr_ref) short_window 1 3 idle).1.
  assert (H : jail_for_liveness (AA:=addr_ref) short_window 1 3 idle = ((jail_for_liveness (AA:=addr_ref) short_window 1 3 idle).1, Ok ()))
    by (apply run_ok; vm_compute; reflexivity).
  destruct (jail_for_liveness_jails (AA:=addr_ref) short_window 11 1 3 idle _ short_window_past ltac:(lia) ltac:(lia) ltac:(cbn; lia) ltac:(cbn; lia)
    idle_states idle_below H) as (Hj & Hu & _).
  split; [exact H|]. split.
  - apply (Hj 13%N 2); [vm_compute; reflexivity|vm_compute; discriminate].
  - rewrite (Hu 11%N 2); [vm_compute; reflexivity| |cbn; lia]. intros n Hn. vm_compute in Hn. injection Hn as <-. vm_compute. reflexivity.
Defined.

Abbreviation idle_block := (finalize_block (AA:=addr_ref) short_window 15 1 (mk_epochs [0; 1]) false 2 [mk_vote (AA:=addr_ref) 11%N 2] []).
Lemma liveness_counts_misses_witness : ∃ s', idle_block idle = (s', Ok []) ∧
  miss_count (AA:=addr_ref) s' 13%N = Some 2 ∧ missed_votes (AA:=addr_ref) s' 13%N = {[8; 14]} ∧ (∀ v, counted (AA:=addr_ref) 14 s' v).
Proof.
  assert (H : idle_block idle = ((idle_block idle).1, Ok [])) by (apply run_ok; vm_compute; reflexivity).
  exists (idle_block idle).1. split; [exact H|].
  destruct (liveness_counts_misses (AA:=addr_ref) short_window 15 1 (mk_epochs [0; 1]) false 2 [mk_vote (AA:=addr_ref) 11%N 2] [] idle _ [] ltac:(lia)
    ltac:(done) ltac:(cbn; lia) idle_counted H) as (Hc & s1 & e & H1 & He & Hm).
  split; [vm_compute; reflexivity|]. split; [|exact Hc]. apply (bool_decide_unpack _). vm_compute. exact Logic.I.
Defined.
